(* ===== verification/_CoqProject ===== *)
-Q . S2P
Prelude.v
LspBuffer.v
GoJson.v
GoFlag.v
GoTime.v
LspCommon.v
LspNetwork.v
LspWindow.v
LspClient.v
LspServer.v
LspApi.v
LspSystem.v
PaxosRpc.v
Paxos.v
PaxosAdmin.v
PaxosAdminLive.v
PaxosSafety.v
PaxosLocks.v
FlightServer.v
PaxosReplicas.v
FlightConcurrent.v
FlightClients.v
FlightRunners.v
BitcoinMiner.v
BitcoinJson.v
BitcoinServer.v
BitcoinSystem.v
EchoServer.v
StorageRpc.v
StorageServer.v
Libstore.v
LibstoreSweep.v
Lease.v
TribServer.v
TribJson.v
StorageCluster.v
StorageStart.v
ServerMains.v
LspRunners.v
TribNetwork.v
TribFaults.v
TribConcurrent.v
TribClients.v
