(* ===== verification/Prelude.v ===== *)
(** * Verified models of four distributed-systems projects

    The repository holds four Go projects: an echo server ([p0]), the Live
    Sequence Protocol with a bitcoin mining service on top ([p1]), the tribbler
    service with its storage system ([p2]) and a flight reservation service
    replicated with Paxos ([p3]).  This library models their components and
    proves what makes each correct; where the code does not do what it means
    to, a theorem exhibits the failure.

    ** Conventions

    A component is a [Module]; its state is a [Record] with the fields of the Go
    struct, and every handler is a function from the state to an [outcome]:
    [Ret] a result, [Panic] (nil dereference, failed type assertion, send on a
    closed channel) or [Hang] (a goroutine that blocks for ever).  Messages sent
    and replies given are a list of effects.  Go maps are [gmap]s; the order of
    a loop over a map, which Go leaves open, is a parameter, any permutation.
    Buffered channels are lists with a capacity.  Fixed-width integers are [Z]
    with [wrap_u] and [wrap_s]; [int] is [Z] where only counters of messages or
    tickets are concerned.  Time is an integer number of nanoseconds, read where
    the code reads the clock.  Concurrency is a step relation over the same
    handler functions, cut where the code communicates or unlocks.  What the
    operating system does is an argument: the datagrams a socket gives, whether a
    write is accepted, the fate of each RPC (lost before or after its handler).
    The parts of the Go library that decide what the code computes are written
    out: JSON and base64, dates and times with their texts, SHA-256, FNV-1.

    ** Files

    - [Prelude] (this file): outcomes, record update, machine integers, ordered
      lists, the exchange sort of the ring, majorities, tactics.
    - [LspBuffer] ([p1/.../lsp/message.go], [params.go], [buffer.go]): messages
      and the ordered buffer; it refines a finite map from sequence numbers.
    - [GoJson]: [encoding/json] and [encoding/base64] of the Go library, as far
      as the repository's messages use them: grammar, integers, byte slices,
      strings; printing and parsing round-trip, the fuel is enough.
    - [GoFlag]: arguments, [Println], [Split] and the table of commands of the
      command-line programs.
    - [GoTime]: the calendar, [time.Parse] for the dates of the flight clients,
      and the RFC 3339 text of a time in any zone, which round-trips.
    - [LspCommon], [LspWindow]: requests and effects, and the window arithmetic
      of [client_impl.go] and [server_impl.go] with its invariant.
    - [LspNetwork] ([lsp/network.go], [epoch_timer.go], [lspnet/]): a message on
      the wire, the UDP layer with its drop percentages, the receive buffer, and
      the helper goroutines; messages survive the wire up to a size, beyond which
      they crash the receiver; when exactly shutting down hangs.
    - [LspClient] ([client_impl.go]): the event loop of the client; no panic,
      reads in order without gaps, silence detected.
    - [LspServer] ([server_impl.go]): the event loop of the server; reads in
      order per connection, total while nothing is closed, and the two crashes
      that closing can cause.
    - [LspApi] (the public methods of both): the requests they send and what
      they make of the replies; requests and replies have the asserted types.
    - [LspSystem]: any number of clients and a server over a network that loses,
      delays, duplicates and reorders; what one end reads is a prefix of what the
      other wrote, and both windows are respected.
    - [PaxosRpc], [Paxos] ([p3/.../paxosrpc/proto.go], [paxos/paxos.go]): the
      peer's RPC handlers, counters and proposer; sequence numbers with [int64]
      overflow, termination of a proposer that runs alone, promises.
    - [PaxosAdmin], [PaxosAdminLive] ([p3/.../paxosadmin/paxosadmin.go]): the
      membership tool over a map from addresses to peers; what a successful
      AddPeer has done, that it succeeds on a healthy cluster, how the tool
      fails, and that ChangePeer breaks agreement.
    - [PaxosSafety]: [startHelper] cut at its messages, any number of concurrent
      attempts, any schedule and any losses; agreement, validity, what a decided
      slot holds, and the stale Accept that overwrites a decision.
    - [PaxosLocks]: the mutexes each handler takes, in order; handlers that keep
      to one order of the mutexes run to their end, and the deadlock of
      [CheckSlot] or [MinUndecidedSlot] with [Decide] or [Put].
    - [FlightServer] ([p3/.../server/server_impl.go]): the replicated state
      machine over an interface [PaxosService] of its Paxos peer; agreement of
      replicas, results at the place in the log, conservation of tickets.
    - [PaxosReplicas]: that interface implemented with the peers of
      [PaxosSafety]: the proposer of one's own peer between steps of all others
      under any schedule; replicas agree over real Paxos as long as no stale
      Accept overwrites a decision.
    - [FlightConcurrent]: the same with calls of all servers at the same time and
      the membership tool's locks; the service is linearizable as long as no two
      calls are equal, equal ones can merge, and a call that returns an error may
      have been executed.
    - [FlightClients] ([p3/.../client/client_impl.go],
      [airlineadmin/airlineadmin_impl.go]): both clients; what they report, in
      terms of the replicated log.
    - [FlightRunners] ([p3/.../runners/]): the command lines of both clients and
      of the membership tool; what they print, in terms of the log, and which
      lines with too few arguments they let through.
    - [BitcoinMiner] ([p1/.../bitcoin/message.go], [hash.go], [miner.go]):
      messages, the hash (SHA-256 written out) and the miner's search.
    - [BitcoinServer] ([bitcoin/server/server.go]): the scheduler; every answer
      is the least hash over the whole question, no waiting client is forgotten;
      which questions get a job without end.
    - [BitcoinJson], [BitcoinSystem] ([bitcoin/client/client.go], [miner.go],
      [server.go]): the JSON of the messages, both programs, and the whole
      service with any number of them; what a client prints is right, and which
      clients are never answered.
    - [EchoServer] ([p0/.../server_impl.go]): the goroutines of the echo server
      as a transition system; delivery in order, and when exactly it crashes.
    - [StorageRpc], [StorageServer] ([p2/.../storagerpc/proto.go],
      [storageserver_impl.go]): registration, placement, leases and the data
      RPCs; they refine maps of values and of sets.
    - [Libstore] ([p2/.../libstore_impl.go]): cache, query history, ring lookup
      and operations; client and servers agree on the place of a key.
    - [LibstoreSweep]: everything that happens to a libstore, with the timer
      goroutine; its sweeps cannot be observed.
    - [Lease]: libstores and storage server together, all interleavings of
      reads, revocations, expiries and writes of a key, a value or a list; caches
      are coherent, except that a read judges a lease by the clock reading from
      before it waited for the mutex of the key: it can be answered with what the
      server held since that reading and no longer holds.
    - [TribServer], [TribJson] ([p2/.../tribserver_impl.go], [tribrpc/]): the
      handlers of the application server over an interface [LibstoreLaws], and
      the JSON of the tribbles.
    - [StorageCluster]: a ring of storage servers and any number of caching
      libstores, one operation after the other, whose calls may fail, each by
      itself (a cached [rpc.Client] that has shut down goes on failing: fewer
      runs than the model allows); it implements that interface.
    - [StorageStart]: how servers and libstores come up; they share one ring, and
      the start comes to its end with the expected number of servers unless a
      slave loses its connection.
    - [ServerMains] ([p3/.../runners/srunner/], [p2/.../runners/srunner/],
      [p2/.../runners/trunner/], [p0/.../srunner/]): the programs that start the
      servers.
    - [LspRunners] ([p1/.../srunner/], [crunner/]): the demonstration of lsp, its
      server program on top of [LspSystem]; a client reads a prefix of what it
      has written, and closing connection 1 after each message ends the wrong
      connection and can crash the server.
    - [TribNetwork]: the social network that all tribbler servers together
      implement, over the storage system, while no call fails and requests follow
      one another; [TribFaults]: what is left of that when calls fail;
      [TribConcurrent]: requests at the same time.
    - [TribClients] ([tribclient/tribclient_impl.go], [runners/crunner/],
      [runners/lrunner/]): the tribbler's client and its command line, which
      prints what that network answers; the command line of the libstore.

    ** Interfaces

    [PaxosService] (in [FlightServer]) says what a replica relies on: reported
    decisions are the ones on record and stay.  [PaxosReplicas.paxos_service]
    discharges it with the Paxos of [PaxosSafety] for runs without Accepts that
    overwrite a decision; [PaxosSafety] shows that such Accepts exist.
    [LibstoreLaws] (in [TribServer]) says what the tribbler server relies on:
    values under value keys, sets under list keys, and that a call that fails
    has had its effect or none; [StorageCluster.cluster_laws] discharges it for
    caching libstores and any number of storage servers.  [Leasable] (in [Lease]) is what the lease
    protocol needs of the two kinds of key, with [value_leases] and
    [list_leases].  [RemoteServer] (in [FlightClients]) is the flight server as
    its clients see it; [Wrap] implements it with the handlers of [FlightServer].
    [RemoteTribServer] (in [TribClients]) is the same for tribbler.

    ** Fuel

    Loops that the kernel cannot see to end carry fuel.  [Paxos.scanUndecided]
    needs one more than the stored slots; [Paxos.proposeLoop] two rounds for a
    lone proposer, here and over addresses in [PaxosAdmin]; the JSON parser twice
    the length of the text; [FlightServer.checkDates] the days of the range;
    [Bitcoin.minHashLoop] one per nonce of the range (and no fuel is enough when
    the range ends at the greatest nonce): theorems state that this is enough.
    [FlightServer.catchUp] and [waitDecided] depend on other replicas and on
    Paxos for their end; running out of fuel is [Hang] there.

    On a service that always answers ([atomic_log]) as many slots as are left in
    the log are enough: [atomic_log_serves].

    ** Not modelled

    Test programs; what programs log; TCP and UDP sockets below their Go methods;
    RPC transport and registration, and the listeners that are retried until they
    work; vendored code.  Unsynchronised accesses to Go maps are not modelled as
    data races.  [Paxos.Deaf] and [Paxos.Wake] are operations of the peer, not
    events of [PaxosSafety], where a peer that hears nothing is one whose
    messages are all lost.

    ** Scope of the compositions

    Each composition leaves out what another one is about.  [StorageCluster] runs
    one operation at a time and lets callbacks get through; [Lease] takes the
    operations on a key apart, and dials to a lease holder that fail are in
    [StorageServer].  [TribFaults] has calls that fail and requests that follow
    one another, [TribConcurrent] requests at the same time and no failure, with
    an operation of the libstore as one step (so no read waits with an old clock
    reading, which is in [Lease]) and no two posts of a user in the same
    nanosecond.  [PaxosReplicas] and [FlightConcurrent] lose every Accept
    that would overwrite a decision, which [PaxosSafety] shows to be possible.
    [PaxosAdmin] lets the tool act alone.  What no composition covers: failing
    calls while requests overlap in tribbler, and a change of the Paxos
    membership while servers propose. *)

From stdpp Require Export base gmap sets list strings pretty relations sorting.
From Stdlib Require Export ZArith Lia.

#[global] Open Scope Z_scope.

(** ** Outcomes of a handler

    A Go handler either returns, panics (nil dereference, failed type
    assertion, send on a closed channel) or hangs (blocks for ever on a
    channel nobody serves or on a mutex nobody releases). *)
Inductive outcome (A : Type) : Type :=
  | Ret (a : A)
  | Panic
  | Hang.
Arguments Ret {A} a.
Arguments Panic {A}.
Arguments Hang {A}.

#[export] Instance outcome_ret : MRet outcome := @Ret.
#[export] Instance outcome_bind : MBind outcome := fun A B f m =>
  match m with Ret a => f a | Panic => Panic | Hang => Hang end.

(** A nil pointer dereference panics. *)
Definition deref {A} (o : option A) : outcome A :=
  match o with Some a => Ret a | None => Panic end.

Lemma bind_Ret_inv {A B} (m : outcome A) (f : A -> outcome B) b :
  m ≫= f = Ret b -> exists a, m = Ret a /\ f a = Ret b.
Proof. destruct m; cbn; intros; try discriminate; eauto. Qed.

Lemma deref_Ret_inv {A} (o : option A) a : deref o = Ret a -> o = Some a.
Proof. destruct o; cbn; congruence. Qed.

(** ** Functional record update *)

(** [eta_record] rebuilds a record from its projections; the update of one
    field replaces that projection in the rebuilt record. *)
Class EtaRecord (R : Type) := eta_record : R -> R.
Class FieldUpdate {R T : Type} (proj : R -> T) := field_update : (T -> T) -> R -> R.
Arguments field_update {R T} proj {_} _ _ /.

Ltac build_field_update :=
  lazymatch goal with
  | |- @FieldUpdate ?R ?T ?proj =>
      let f := fresh "f" in let r := fresh "r" in
      intros f r;
      let inst := constr:(_ : EtaRecord R) in
      let whole := eval red in inst in
      let body := eval cbv beta in (whole r) in
      let p := constr:(proj r) in
      let abs := eval pattern p in body in
      lazymatch abs with
      | ?g _ => let t := eval cbv beta in (g (f (proj r))) in exact t
      end
  end.
#[export] Hint Extern 0 (FieldUpdate _) => build_field_update : typeclass_instances.

Declare Scope rec_scope.
Delimit Scope rec_scope with rec.
Notation "r <| p := v |>" := (field_update p (fun _ => v) r)
  (at level 1, left associativity, p at level 9, v at level 99,
   format "r <| p  :=  v |>") : rec_scope.
#[global] Open Scope rec_scope.


(** ** Tactics and hints *)

Create HintDb s2p discriminated.
#[export] Hint Constants Opaque : s2p.

(** Turn boolean tests of the code into propositions. *)
Ltac breflect :=
  repeat match goal with
  | H : negb _ = true |- _ => apply negb_true_iff in H
  | H : negb _ = false |- _ => apply negb_false_iff in H
  | H : (_ && _)%bool = true |- _ => apply andb_true_iff in H as [? ?]
  | H : (_ || _)%bool = false |- _ => apply orb_false_iff in H as [? ?]
  | H : (_ <? _) = true |- _ => apply Z.ltb_lt in H
  | H : (_ <? _) = false |- _ => apply Z.ltb_ge in H
  | H : (_ <=? _) = true |- _ => apply Z.leb_le in H
  | H : (_ <=? _) = false |- _ => apply Z.leb_gt in H
  | H : (_ =? _) = true |- _ => apply Z.eqb_eq in H
  | H : (_ =? _) = false |- _ => apply Z.eqb_neq in H
  | H : bool_decide _ = true |- _ => apply bool_decide_eq_true in H
  | H : bool_decide _ = false |- _ => apply bool_decide_eq_false in H
  end.

(** Invert a run of binds that returned. *)
Ltac bind_inv :=
  repeat match goal with
  | H : _ ≫= _ = Ret _ |- _ =>
      let x := fresh "x" in let E := fresh "E" in
      apply bind_Ret_inv in H as (x & E & H); cbn in H
  | H : deref _ = Ret _ |- _ => apply deref_Ret_inv in H
  | H : Ret _ = Ret _ |- _ => injection H as H; subst
  | H : Panic = Ret _ |- _ => discriminate H
  | H : Hang = Ret _ |- _ => discriminate H
  end.

(** ** Machine integers *)

(** Go's fixed-width integers: [wrap_u w] reduces to an unsigned [w]-bit
    value, [wrap_s w] to a two's-complement one. *)
Definition wrap_u (w z : Z) : Z := z `mod` 2 ^ w.
Definition wrap_s (w z : Z) : Z := (z + 2 ^ (w - 1)) `mod` 2 ^ w - 2 ^ (w - 1).

Definition max_uint64 : Z := 2 ^ 64 - 1.

Lemma wrap_u_small w z : 0 <= z < 2 ^ w -> wrap_u w z = z.
Proof. apply Z.mod_small. Qed.

Lemma wrap_u_range w z : 0 <= w -> 0 <= wrap_u w z < 2 ^ w.
Proof. intros. apply Z.mod_pos_bound. lia. Qed.

Lemma wrap_s_small w z :
  0 < w -> - 2 ^ (w - 1) <= z < 2 ^ (w - 1) -> wrap_s w z = z.
Proof.
  intros Hw Hz. unfold wrap_s. rewrite Z.mod_small; [lia|].
  assert (2 ^ w = 2 * 2 ^ (w - 1)) by (rewrite <- Z.pow_succ_r by lia; f_equal; lia).
  lia.
Qed.

Lemma wrap_s_range w z : 0 < w -> - 2 ^ (w - 1) <= wrap_s w z < 2 ^ (w - 1).
Proof.
  intros Hw. unfold wrap_s.
  assert (2 ^ w = 2 * 2 ^ (w - 1)) by (rewrite <- Z.pow_succ_r by lia; f_equal; lia).
  pose proof (Z.mod_pos_bound (z + 2 ^ (w - 1)) (2 ^ w)). lia.
Qed.

#[export] Hint Resolve wrap_u_small wrap_u_range wrap_s_small wrap_s_range : s2p.

(** 24 hours in nanoseconds, the unit of [time.Duration]. *)
Definition oneDay : Z := 86400 * 10 ^ 9.

(** ** Reachability *)

(** Invariants by induction over a run. *)
Lemma rtc_invariant {S} (step : S -> S -> Prop) (P : S -> Prop) s s' :
  (forall x y, P x -> step x y -> P y) -> P s -> rtc step s s' -> P s'.
Proof. intros Hstep HP. induction 1; eauto. Qed.

(** ** Strictly increasing sequences *)

Abbreviation increasing := (StronglySorted Z.lt).

Lemma increasing_nil : increasing [].
Proof. constructor. Qed.

Lemma increasing_cons_inv x l :
  increasing (x :: l) -> increasing l /\ Forall (fun y => x < y) l.
Proof. inversion_clear 1. auto. Qed.

Lemma increasing_snoc l x :
  increasing l -> Forall (fun y => y < x) l -> increasing (l ++ [x]).
Proof.
  intros Hs Hx. rewrite Forall_forall in Hx. apply StronglySorted_app_2; auto.
  - intros y ? Hy ->%list_elem_of_singleton. auto.
  - repeat constructor.
Qed.

Lemma increasing_NoDup l : increasing l -> NoDup l.
Proof.
  induction 1 as [|x l _ IH Hx]; constructor; auto.
  intros Hin. rewrite Forall_forall in Hx. apply Hx in Hin. lia.
Qed.

Lemma increasing_sublist l k : l `sublist_of` k -> increasing k -> increasing l.
Proof.
  induction 1 as [|x l k Hsub IH|x l k Hsub IH]; intros Hk; auto.
  - apply increasing_cons_inv in Hk as [Hk Hx]. constructor; auto.
    apply Forall_forall. intros y Hy. rewrite Forall_forall in Hx. apply Hx.
    eapply elem_of_sublist; eauto.
  - apply increasing_cons_inv in Hk as [? ?]. auto.
Qed.

(** A strictly increasing list of integers of [[lo, lo + n)] has at most [n]. *)
Lemma increasing_length lo n l :
  0 <= n -> increasing l -> Forall (fun z => lo <= z < lo + n) l -> Z.of_nat (length l) <= n.
Proof.
  revert lo n. induction l as [|x l IH]; intros lo n Hn Hi Hall; [done|].
  apply increasing_cons_inv in Hi as [Hi Hx]. apply Forall_cons in Hall as [Hlo Hall].
  cbn [length]. assert (Z.of_nat (length l) <= n - 1); [|lia].
  apply (IH (lo + 1)); [lia|done|]. rewrite Forall_forall in *. intros z Hz.
  specialize (Hx z Hz). specialize (Hall z Hz). lia.
Qed.

#[export] Hint Resolve increasing_nil increasing_snoc increasing_NoDup : s2p.

Lemma NoDup_fmap_elem {A B} (f : A -> B) l x y :
  NoDup (f <$> l) -> x ∈ l -> y ∈ l -> f x = f y -> x = y.
Proof.
  intros Hnd [i Hi]%list_elem_of_lookup [j Hj]%list_elem_of_lookup E.
  assert (i = j) as <-; [|congruence].
  eapply NoDup_lookup; [exact Hnd|rewrite list_lookup_fmap, Hi; reflexivity|].
  rewrite list_lookup_fmap, Hj. cbn. by rewrite E.
Qed.

Lemma length_filter_all {A} (P : A -> Prop) `{forall x, Decision (P x)} l :
  Forall P l -> length (filter P l) = length l.
Proof.
  induction 1 as [|x l Hx _ IH]; [done|]. rewrite filter_cons, decide_True by done. cbn. by rewrite IH.
Qed.

(** ** In-place exchange sort

    The double loop [for i ... for j := i+1 ... if l[i] > l[j] swap] the storage
    servers sort their ring with.  [exch_pass gt x tl] is one run of the inner loop: [x] is
    the value at [i] and [tl] the slots after it. *)
Section exch_sort.
Context {A : Type} (gt : A -> A -> bool).

Fixpoint exch_pass (x : A) (tl : list A) : A * list A :=
  match tl with
  | [] => (x, [])
  | y :: tl' =>
      let '(a, b) := if gt x y then (y, x) else (x, y) in
      let '(m, rest) := exch_pass a tl' in (m, b :: rest)
  end.

Fixpoint exch_loop (n : nat) (l : list A) : list A :=
  match n, l with
  | S n', x :: tl => let '(m, rest) := exch_pass x tl in m :: exch_loop n' rest
  | _, _ => l
  end.

Definition exch_sort (l : list A) : list A := exch_loop (length l) l.

Lemma exch_pass_perm tl : forall x m rest,
  exch_pass x tl = (m, rest) -> m :: rest ≡ₚ x :: tl.
Proof.
  induction tl as [|y tl IH]; intros x m rest; cbn.
  - intros [= <- <-]. done.
  - destruct (gt x y); destruct (exch_pass _ tl) as [m' rest'] eqn:E;
      intros [= <- <-]; apply IH in E; rewrite perm_swap, E; [done|].
    apply perm_swap.
Qed.

Lemma exch_loop_perm n : forall l, exch_loop n l ≡ₚ l.
Proof.
  induction n as [|n IH]; intros [|x tl]; cbn; try done.
  destruct (exch_pass x tl) as [m rest] eqn:E.
  rewrite IH. by apply exch_pass_perm.
Qed.

Lemma exch_sort_perm l : exch_sort l ≡ₚ l.
Proof. apply exch_loop_perm. Qed.

(** [gt] is the strict part of a total preorder [R]. *)
Context (R : relation A) `{!Transitive R}
        (gt_R : forall x y, gt x y = true -> R y x)
        (ngt_R : forall x y, gt x y = false -> R x y).

Lemma exch_pass_min tl : forall x m rest,
  exch_pass x tl = (m, rest) -> R m x /\ Forall (R m) rest.
Proof.
  assert (Hrefl : forall x, R x x).
  { intros x. destruct (gt x x) eqn:E; auto. }
  induction tl as [|y tl IH]; intros x m rest; cbn.
  - intros [= <- <-]. auto.
  - destruct (gt x y) eqn:G; destruct (exch_pass _ tl) as [m' rest'] eqn:E;
      intros [= <- <-]; apply IH in E as [Hm Hall].
    + assert (R m' x) by (transitivity y; auto). auto.
    + split; auto. constructor; auto. transitivity x; auto.
Qed.

Lemma exch_loop_sorted n : forall l, (length l <= n)%nat -> StronglySorted R (exch_loop n l).
Proof.
  induction n as [|n IH]; intros [|x tl] Hn; cbn in *;
    [apply SSorted_nil|lia|apply SSorted_nil|].
  destruct (exch_pass x tl) as [m rest] eqn:E.
  pose proof (exch_pass_perm _ _ _ _ E) as Hp%Permutation_length.
  apply exch_pass_min in E as [_ Hall]. constructor.
  - apply IH. cbn in Hp. lia.
  - by rewrite exch_loop_perm.
Qed.

Lemma exch_sort_sorted l : StronglySorted R (exch_sort l).
Proof. by apply exch_loop_sorted. Qed.
End exch_sort.

(** ** Majorities *)

(** Two majorities of the peers [0..n-1] share a member. *)
Lemma majorities_intersect (n : nat) (Q1 Q2 : gset nat) :
  Q1 ⊆ set_seq 0 n -> Q2 ⊆ set_seq 0 n ->
  (n / 2 < size Q1)%nat -> (n / 2 < size Q2)%nat ->
  exists a, a ∈ Q1 /\ a ∈ Q2.
Proof.
  intros Hq1 Hq2 Hs1 Hs2.
  destruct (decide (Q1 ∩ Q2 = ∅)) as [Hd|Hd].
  - exfalso. assert (Hu : Q1 ∪ Q2 ⊆ set_seq 0 n).
    { intros x [Hx|Hx]%elem_of_union; auto. }
    apply subseteq_size in Hu.
    rewrite size_union in Hu by (by apply disjoint_intersection_L).
    rewrite size_set_seq in Hu.
    pose proof (Nat.div_mod_eq n 2). pose proof (Nat.mod_upper_bound n 2). lia.
  - apply set_choose_L in Hd as [a Ha]. exists a. by apply elem_of_intersection in Ha.
Qed.

Lemma majority_nonempty (n : nat) (Q : gset nat) :
  (n / 2 < size Q)%nat -> exists a, a ∈ Q.
Proof.
  intros Hs. destruct (decide (Q = ∅)) as [->|Hd].
  - rewrite size_empty in Hs. lia.
  - by apply set_choose_L in Hd.
Qed.

(** ** Go maps *)

(** [m[k]] of a Go map whose zero value is [z]. *)
Definition map_get {K V} `{Countable K} (z : V) (m : gmap K V) (k : K) : V :=
  default z (m !! k).

Lemma map_get_insert {K V} `{Countable K} (z v : V) (m : gmap K V) k :
  map_get z (<[k := v]> m) k = v.
Proof. unfold map_get. by rewrite lookup_insert_eq. Qed.

Lemma map_get_insert_ne {K V} `{Countable K} (z v : V) (m : gmap K V) k k' :
  k ≠ k' -> map_get z (<[k := v]> m) k' = map_get z m k'.
Proof. intros. unfold map_get. by rewrite lookup_insert_ne. Qed.

Lemma map_get_pos {K} `{Countable K} (m : gmap K Z) k :
  0 < map_get 0 m k -> m !! k = Some (map_get 0 m k).
Proof. unfold map_get. destruct (m !! k); cbn; [done|lia]. Qed.

Lemma map_get_Some {K V} `{Countable K} (z v : V) (m : gmap K V) k :
  m !! k = Some v -> map_get z m k = v.
Proof. unfold map_get. by intros ->. Qed.

(** The keys a [range] loop visits: the code leaves their order open. *)
Definition keys {A} (m : gmap Z A) : list Z := (map_to_list m).*1.

Lemma range_keys_spec {A} (range : list Z -> list Z) (m : gmap Z A) :
  (forall l, Permutation (range l) l) ->
  NoDup (range (keys m)) /\ forall k, k ∈ range (keys m) <-> is_Some (m !! k).
Proof.
  intros Hr. split; [rewrite Hr; apply NoDup_fst_map_to_list|]. intros k. rewrite Hr.
  unfold keys. rewrite list_elem_of_fmap. split.
  - intros ([k' v] & -> & Hin%elem_of_map_to_list). eauto.
  - intros [v Hv]. exists (k, v). by rewrite elem_of_map_to_list.
Qed.
