(* ===== verification/LspBuffer.v ===== *)
(** * LspBuffer: messages, parameters and the sequence buffer of package lsp

    [Message], its constructors and [Params] ([p1/.../lsp/message.go],
    [params.go]) and the ordered buffer of [buffer.go], which both ends of the
    protocol keep their unacknowledged, pending, received and acknowledged
    messages in.  A buffer is the list of its elements in list order; the
    operations that dereference [l.Front()] or [l.Back()] of an empty list
    panic. *)
From S2P Require Import Prelude.
From Stdlib Require Export Strings.Byte.
Open Scope Z_scope.

(** ** Messages and parameters *)

(** [MsgType] is a Go [int]: a peer may send any value. *)
Definition MsgType := Z.
Definition MsgConnect : MsgType := 0.
Definition MsgData : MsgType := 1.
Definition MsgAck : MsgType := 2.

Record Message := mkMessage {
  Type_ : MsgType;
  ConnID : Z;
  SeqNum : Z;
  Payload : list byte }.

Definition NewConnect : Message := mkMessage MsgConnect 0 0 [].
Definition NewData (connID seqNum : Z) (payload : list byte) : Message :=
  mkMessage MsgData connID seqNum payload.
Definition NewAck (connID seqNum : Z) : Message := mkMessage MsgAck connID seqNum [].

(** [string(m.Payload)]. *)
Definition string_of_bytes (l : list byte) : string :=
  String.string_of_list_byte l.

Definition Message_String (m : Message) : string :=
  let '(name, payload) :=
    if Type_ m =? MsgConnect then ("Connect", "")
    else if Type_ m =? MsgData then ("Data", " " +:+ string_of_bytes (Payload m))
    else if Type_ m =? MsgAck then ("Ack", "")
    else ("", "") in
  "[" +:+ name +:+ " " +:+ pretty (ConnID m) +:+ " " +:+ pretty (SeqNum m) +:+
  payload +:+ "]".

Definition DefaultEpochLimit : Z := 5.
Definition DefaultEpochMillis : Z := 2000.
Definition DefaultWindowSize : Z := 1.

Record Params := mkParams { EpochLimit : Z; EpochMillis : Z; WindowSize : Z }.

Definition NewParams : Params :=
  mkParams DefaultEpochLimit DefaultEpochMillis DefaultWindowSize.

#[export] Instance byte_eq_decision : EqDecision byte := Byte.byte_eq_dec.

#[export] Instance Message_eq_dec : EqDecision Message.
Proof. solve_decision. Defined.

(** ** The buffer *)

Module Buffer.

Abbreviation buffer := (list Message).

Definition NewBuffer : buffer := [].

(** The scan of [Insert]: the first element whose number is not smaller than
    the new one; [insertBeforeEle] is nil when there is none. *)
Fixpoint insertScan (val : Message) (l : buffer) : outcome buffer :=
  match l with
  | [] => Panic
  | e :: l' =>
      if SeqNum val <=? SeqNum e then
        if SeqNum val <? SeqNum e then Ret (val :: e :: l') else Ret (e :: l')
      else tl ← insertScan val l'; Ret (e :: tl)
  end.

Definition Insert (val : Message) (l : buffer) : outcome buffer :=
  match last l with
  | None => Ret (l ++ [val])
  | Some b => if SeqNum b <? SeqNum val then Ret (l ++ [val]) else insertScan val l
  end.

Definition Remove (l : buffer) : outcome (Message * buffer) :=
  match l with [] => Panic | m :: l' => Ret (m, l') end.

Definition Front (l : buffer) : outcome Message := deref (head l).

Fixpoint Delete (delSeqNum : Z) (l : buffer) : bool * buffer :=
  match l with
  | [] => (false, [])
  | e :: l' =>
      if SeqNum e =? delSeqNum then (true, l')
      else let '(found, tl) := Delete delSeqNum l' in (found, e :: tl)
  end.

Fixpoint dropBefore (wLeftBoundary : Z) (l : buffer) : buffer :=
  match l with
  | [] => []
  | e :: l' => if SeqNum e <? wLeftBoundary then dropBefore wLeftBoundary l' else l
  end.

Definition AdjustUsingWindow (windowSize : Z) (l : buffer) : outcome buffer :=
  b ← deref (last l);
  let wLeftBoundary := SeqNum b - windowSize + 1 in
  Ret (dropBefore wLeftBoundary l).

Definition ReturnAll (l : buffer) : list Message := l.

Definition Len (l : buffer) : Z := Z.of_nat (length l).

(** Emptiness tests, as the code writes them. *)
Lemma Len_eqb l : (Len l =? 0) = match l with [] => true | _ => false end.
Proof. by destruct l. Qed.

Lemma Len_ltb l : (0 <? Len l) = match l with [] => false | _ => true end.
Proof. by destruct l. Qed.

(** ** Well-formedness and the finite map a buffer stands for *)

Definition seqs (l : buffer) : list Z := SeqNum <$> l.
Definition wf (l : buffer) : Prop := increasing (seqs l).

(** The abstract contents: sequence number to message. *)
Definition contents (l : buffer) : gmap Z Message :=
  list_to_map ((fun m => (SeqNum m, m)) <$> l).

Lemma wf_cons m l : wf (m :: l) <-> wf l /\ Forall (fun x => SeqNum m < SeqNum x) l.
Proof.
  unfold wf, seqs. cbn. rewrite StronglySorted_cons, Forall_fmap. tauto.
Qed.

Lemma wf_app l k :
  wf (l ++ k) <-> wf l /\ wf k /\ (forall x y, x ∈ l -> y ∈ k -> SeqNum x < SeqNum y).
Proof.
  unfold wf, seqs. rewrite fmap_app, StronglySorted_app.
  setoid_rewrite list_elem_of_fmap. split.
  - intros (H & ? & ?). repeat split; auto. intros. apply H; eauto.
  - intros (? & ? & H). repeat split; auto.
    intros ? ? (x & -> & ?) (y & -> & ?). auto.
Qed.

Lemma wf_nil : wf [].
Proof. constructor. Qed.

Lemma wf_sublist l k : l `sublist_of` k -> wf k -> wf l.
Proof.
  unfold wf, seqs. intros Hs. apply increasing_sublist.
  induction Hs; cbn; constructor; auto.
Qed.

Lemma wf_tail m l : wf (m :: l) -> wf l.
Proof. rewrite wf_cons. tauto. Qed.

Lemma wf_front_le m l x : wf (m :: l) -> x ∈ m :: l -> SeqNum m <= SeqNum x.
Proof.
  rewrite wf_cons, Forall_forall. intros [_ H] [->|Hx]%elem_of_cons; [lia|].
  apply H in Hx. lia.
Qed.

Lemma wf_last_ge l b x : wf l -> last l = Some b -> x ∈ l -> SeqNum x <= SeqNum b.
Proof.
  intros Hwf [k ->]%last_Some Hx.
  apply wf_app in Hwf as (_ & _ & H).
  apply elem_of_app in Hx as [Hx| ->%list_elem_of_singleton]; [|lia].
  specialize (H x b Hx). rewrite list_elem_of_singleton in H. specialize (H eq_refl). lia.
Qed.

Lemma wf_inj l x y : wf l -> x ∈ l -> y ∈ l -> SeqNum x = SeqNum y -> x = y.
Proof.
  induction l as [|m l IH]; intros Hwf Hx Hy E; [inversion Hx|].
  apply wf_cons in Hwf as [Hl Hm]. rewrite Forall_forall in Hm.
  apply elem_of_cons in Hx as [->|Hx]; apply elem_of_cons in Hy as [->|Hy]; auto.
  - apply Hm in Hy. lia.
  - apply Hm in Hx. lia.
Qed.

#[export] Hint Resolve wf_nil wf_tail : s2p.

Lemma contents_lookup l k m :
  wf l -> contents l !! k = Some m <-> m ∈ l /\ SeqNum m = k.
Proof.
  intros Hwf. unfold contents. rewrite <- elem_of_list_to_map.
  - rewrite list_elem_of_fmap. split.
    + intros (x & [= -> ->] & ?). auto.
    + intros [? <-]. eauto.
  - rewrite <- list_fmap_compose. by apply increasing_NoDup in Hwf.
Qed.

(** ** Specifications of the operations *)

Lemma elem_of_seqs k l : k ∈ seqs l <-> exists x, x ∈ l /\ SeqNum x = k.
Proof. unfold seqs. rewrite list_elem_of_fmap. naive_solver. Qed.

(** What inserting does to the elements: a message whose number is present
    is dropped. *)
Definition inserted (val : Message) (l l' : buffer) : Prop :=
  forall x, x ∈ l' <-> x ∈ l \/ (x = val /\ SeqNum val ∉ seqs l).

Lemma insertScan_spec val l :
  wf l -> (exists b, b ∈ l /\ SeqNum val <= SeqNum b) ->
  exists l', insertScan val l = Ret l' /\ wf l' /\ inserted val l l'.
Proof.
  induction l as [|e l IH]; intros Hwf (b & Hb & Hle); [inversion Hb|].
  pose proof Hwf as [Hl He]%wf_cons. rewrite Forall_forall in He. cbn.
  destruct (SeqNum val <=? SeqNum e) eqn:E1; [destruct (SeqNum val <? SeqNum e) eqn:E2|];
    breflect.
  - exists (val :: e :: l). split; [done|]. split.
    + apply wf_cons. split; [done|]. apply Forall_forall.
      intros x Hx. pose proof (wf_front_le _ _ _ Hwf Hx). lia.
    + intros x. rewrite !elem_of_cons, elem_of_seqs. split; [|naive_solver].
      intros [->|?]; [right; split; [done|]|tauto].
      intros (y & Hy & ?). pose proof (wf_front_le _ _ _ Hwf Hy). lia.
  - exists (e :: l). split; [done|]. split; [done|].
    intros x. split; [tauto|]. intros [?|[-> Hn]]; [done|]. destruct Hn.
    apply elem_of_seqs. exists e. split; [apply elem_of_cons; auto|lia].
  - destruct IH as (l' & -> & Hwf' & Hins); auto.
    { exists b. apply elem_of_cons in Hb as [->|?]; [lia|auto]. }
    cbn. exists (e :: l'). split; [done|]. split.
    + apply wf_cons. split; [done|]. apply Forall_forall. intros x Hx.
      apply Hins in Hx as [?|[-> _]]; [auto|lia].
    + intros x. rewrite !elem_of_cons, (Hins x), !elem_of_seqs.
      setoid_rewrite elem_of_cons. split; [|naive_solver].
      intros [?|[?|[-> Hn]]]; [tauto|tauto|]. right. split; [done|].
      intros (y & [->|Hy] & ?); [lia|eauto].
Qed.

Lemma Insert_spec val l :
  wf l -> exists l', Insert val l = Ret l' /\ wf l' /\ inserted val l l'.
Proof.
  intros Hwf. unfold Insert. destruct (last l) as [b|] eqn:Hlast.
  - destruct (SeqNum b <? SeqNum val) eqn:E; breflect.
    + exists (l ++ [val]). split; [done|]. split.
      * apply wf_app. repeat split; [done|repeat constructor|].
        intros x y Hx ->%list_elem_of_singleton.
        pose proof (wf_last_ge _ _ _ Hwf Hlast Hx). lia.
      * intros x. rewrite elem_of_app, list_elem_of_singleton.
        split; [|naive_solver]. intros [?| ->]; [auto|right; split; [done|]].
        intros (y & Hy & ?)%elem_of_seqs.
        pose proof (wf_last_ge _ _ _ Hwf Hlast Hy). lia.
    + apply insertScan_spec; [done|]. exists b. split; [|lia].
      apply last_Some in Hlast as [k ->]. apply elem_of_app. right. by left.
  - apply last_None in Hlast as ->. exists [val]. split; [done|].
    split; [repeat constructor|]. intros x. unfold seqs. cbn. set_solver.
Qed.

(** Appending is what [Insert] does to a message newer than every element. *)
Lemma Insert_back val l : wf (l ++ [val]) -> Insert val l = Ret (l ++ [val]).
Proof.
  intros (_ & _ & H)%wf_app. unfold Insert.
  destruct (last l) as [b|] eqn:Hlast; [|done].
  destruct (SeqNum b <? SeqNum val) eqn:E; [done|]. breflect.
  assert (SeqNum b < SeqNum val); [|lia]. apply H; [|by left].
  apply last_Some in Hlast as [k ->]. apply elem_of_app. right. by left.
Qed.

Lemma Delete_sublist k l : (Delete k l).2 `sublist_of` l.
Proof.
  induction l as [|e l IH]; cbn; [constructor|].
  destruct (SeqNum e =? k); cbn; [by constructor|].
  destruct (Delete k l) as [b tl]. cbn in *. by constructor.
Qed.

Lemma Delete_wf k l : wf l -> wf (Delete k l).2.
Proof. apply wf_sublist, Delete_sublist. Qed.

Lemma Delete_elem k l x :
  wf l -> x ∈ (Delete k l).2 <-> x ∈ l /\ SeqNum x <> k.
Proof.
  induction l as [|e l IH]; intros Hwf; cbn; [set_solver|].
  pose proof Hwf as [Hl He]%wf_cons. rewrite Forall_forall in He.
  destruct (SeqNum e =? k) eqn:E; breflect; cbn.
  - rewrite elem_of_cons. split; [|naive_solver].
    intros Hx. specialize (He x Hx). split; [auto|lia].
  - destruct (Delete k l) as [b tl]. cbn in *. rewrite !elem_of_cons, IH by done.
    naive_solver.
Qed.

Lemma Delete_found k l : (Delete k l).1 = bool_decide (k ∈ seqs l).
Proof.
  induction l as [|e l IH]; cbn; [done|].
  destruct (SeqNum e =? k) eqn:E; breflect; cbn.
  - symmetry. apply bool_decide_eq_true. rewrite <- E. by left.
  - destruct (Delete k l) as [b tl]. cbn in *. rewrite IH.
    apply bool_decide_ext. rewrite elem_of_cons. naive_solver.
Qed.

Lemma dropBefore_suffix k l : dropBefore k l `suffix_of` l.
Proof.
  induction l as [|e l IH]; cbn; [done|].
  destruct (SeqNum e <? k); [|done]. by apply suffix_cons_r.
Qed.

Lemma suffix_sublist {A} (l k : list A) : l `suffix_of` k -> l `sublist_of` k.
Proof. intros [p ->]. by apply sublist_inserts_l. Qed.

Lemma dropBefore_wf k l : wf l -> wf (dropBefore k l).
Proof. apply wf_sublist, suffix_sublist, dropBefore_suffix. Qed.

Lemma dropBefore_elem k l x :
  wf l -> x ∈ dropBefore k l <-> x ∈ l /\ k <= SeqNum x.
Proof.
  induction l as [|e l IH]; intros Hwf; cbn; [set_solver|].
  destruct (SeqNum e <? k) eqn:E; breflect.
  - rewrite IH by eauto with s2p. rewrite elem_of_cons.
    split; [naive_solver|]. intros [[->|?] ?]; [lia|auto].
  - split; [|tauto]. intros Hx. split; [done|].
    pose proof (wf_front_le _ _ _ Hwf Hx). lia.
Qed.

#[export] Hint Resolve Delete_wf dropBefore_wf : s2p.

(** The abstract map a buffer holds after an insertion. *)
Definition insert_if_absent (val : Message) (m : gmap Z Message) : gmap Z Message :=
  match m !! SeqNum val with Some _ => m | None => <[SeqNum val := val]> m end.

Lemma inserted_contents val l l' :
  wf l -> wf l' -> inserted val l l' ->
  contents l' = insert_if_absent val (contents l).
Proof.
  intros Hl Hl' Hins. apply map_eq. intros k. apply option_eq. intros x.
  rewrite contents_lookup by done. rewrite (Hins x). unfold insert_if_absent.
  destruct (contents l !! SeqNum val) as [y|] eqn:E.
  - apply contents_lookup in E as [Hy Hk]; [|done].
    rewrite contents_lookup by done. split; [|tauto].
    intros [[?|[-> Hn]] <-]; [done|]. destruct Hn. apply elem_of_seqs. eauto.
  - assert (Hnew : SeqNum val ∉ seqs l).
    { intros (y & Hy & Ey)%elem_of_seqs.
      assert (contents l !! SeqNum val = Some y) by (by apply contents_lookup). congruence. }
    rewrite lookup_insert. case_decide as Ek; [|rewrite contents_lookup by done; naive_solver].
    split; [|naive_solver].
    intros [[Hx|[-> _]] Hk]; [|done]. destruct Hnew.
    apply elem_of_seqs. exists x. split; [done|lia].
Qed.

Lemma Delete_contents k l : wf l -> contents (Delete k l).2 = delete k (contents l).
Proof.
  intros Hl. apply map_eq. intros j. apply option_eq. intros x.
  rewrite contents_lookup by eauto with s2p. rewrite Delete_elem by done.
  rewrite lookup_delete. case_decide; [naive_solver|].
  rewrite contents_lookup by done. naive_solver.
Qed.

(** ** Properties *)

(** [AdjustUsingWindow] keeps the last [windowSize] numbers.  On a
    well-formed non-empty buffer whose greatest number is [top] it keeps, in
    order, exactly the messages numbered above [top - windowSize]; on an empty
    buffer it panics. *)
Lemma adjust_keeps_window l windowSize b :
  wf l -> last l = Some b ->
  (exists l', AdjustUsingWindow windowSize l = Ret l' /\ l' `suffix_of` l /\ wf l' /\
     (forall x, x ∈ l' <-> x ∈ l /\ SeqNum b - windowSize < SeqNum x) /\
     (0 <= windowSize -> Len l' <= windowSize)) /\
  AdjustUsingWindow windowSize [] = Panic.
Proof.
  intros Hwf Hlast. split; [|done]. unfold AdjustUsingWindow. rewrite Hlast. cbn.
  set (k := SeqNum b - windowSize + 1).
  assert (Helem : forall x, x ∈ dropBefore k l <-> x ∈ l /\ k <= SeqNum x)
    by (intros; by apply dropBefore_elem).
  eexists. split_and!; [done|apply dropBefore_suffix|by apply dropBefore_wf| |].
  - intros x. rewrite Helem. unfold k. split; intros [? ?]; (split; [done|lia]).
  - intros Hw. unfold Len. rewrite <- (length_fmap SeqNum). apply (increasing_length k); [lia|by apply dropBefore_wf|].
    apply Forall_forall. intros z (x & Hx & <-)%elem_of_seqs. apply Helem in Hx as [Hx Hk].
    pose proof (wf_last_ge _ _ _ Hwf Hlast Hx). unfold k in *. lia.
Qed.

Definition demo_buffer : buffer := [NewData 1 2 [x61]; NewData 1 5 [x62]; NewData 1 6 [x63]].

Lemma demo_buffer_wf : wf demo_buffer.
Proof. repeat constructor. Qed.

(** C34: the buffer implements a finite map from sequence numbers, kept in
    order.  On a well-formed buffer [Insert] never panics, keeps the order and
    adds the message unless its number is taken; [Delete] keeps the order,
    removes exactly the given number and reports whether it was there; [Front]
    and [Remove] give the smallest number, and panic exactly when the map is
    empty; [AdjustUsingWindow] keeps exactly the entries above the greatest
    number less [windowSize] and panics when there is none; [Len] is the number
    of entries. *)
Theorem buffer_refines_map l :
  wf l ->
  (forall val, exists l', Insert val l = Ret l' /\ wf l' /\
     contents l' = insert_if_absent val (contents l)) /\
  (forall k, wf (Delete k l).2 /\ contents (Delete k l).2 = delete k (contents l) /\
     (Delete k l).1 = bool_decide (is_Some (contents l !! k))) /\
  match Front l with
  | Ret m => contents l !! SeqNum m = Some m /\
      (forall k x, contents l !! k = Some x -> SeqNum m <= k) /\
      exists l', Remove l = Ret (m, l') /\ wf l' /\ contents l' = delete (SeqNum m) (contents l)
  | Panic => contents l = ∅ /\ Remove l = Panic
  | Hang => False
  end /\
  (forall windowSize,
     match last l with
     | Some top => exists l', AdjustUsingWindow windowSize l = Ret l' /\ wf l' /\
         (forall k x, contents l' !! k = Some x <->
            contents l !! k = Some x /\ SeqNum top - windowSize < k) /\
         (0 <= windowSize -> Len l' <= windowSize)
     | None => AdjustUsingWindow windowSize l = Panic
     end) /\
  Len l = Z.of_nat (size (contents l)).
Proof.
  intros Hwf. split_and!.
  - intros val. destruct (Insert_spec val l Hwf) as (l' & E & Hwf' & Hins).
    exists l'. split_and!; [done..|]. by apply inserted_contents.
  - intros k. split_and!; [by apply Delete_wf|by apply Delete_contents|].
    rewrite Delete_found. apply bool_decide_ext. rewrite elem_of_seqs. unfold is_Some.
    by setoid_rewrite (contents_lookup l k _ Hwf).
  - destruct l as [|m l]; [done|]. change (Front (m :: l)) with (Ret m). split_and!.
    + apply contents_lookup; [done|]. split; [by left|done].
    + intros k x [Hx <-]%contents_lookup; [|done]. by eapply wf_front_le.
    + exists l. split_and!; [done|by eauto with s2p|].
      rewrite <- Delete_contents by done. cbn. by rewrite Z.eqb_refl.
  - intros windowSize. destruct (last l) as [top|] eqn:El.
    + destruct (adjust_keeps_window l windowSize top Hwf El) as [(l' & E & _ & Hwf' & Hel & Hlen) _].
      exists l'. split_and!; [done..| |done].
      intros k x. rewrite !contents_lookup by done. rewrite Hel. naive_solver.
    + apply last_None in El as ->. done.
  - unfold Len, contents. rewrite map_size_list_to_map; [by rewrite length_fmap|].
    rewrite <- list_fmap_compose. by apply increasing_NoDup in Hwf.
Qed.

Lemma buffer_refines_map_witness : Len demo_buffer = Z.of_nat (size (contents demo_buffer)).
Proof. apply (buffer_refines_map demo_buffer demo_buffer_wf). Defined.

End Buffer.
