(* ===== verification/GoJson.v ===== *)
(** * GoJson: the part of encoding/json and encoding/base64 the code uses

    [json.Marshal] and [json.Unmarshal] are how the lsp package and the mining
    service put their messages on the wire.  This file writes the two out for
    the shapes those messages have: integers, byte slices (base64 strings) and
    strings (UTF-8 with escapes) inside a flat struct.  A datagram may hold anything, so the parser
    covers the whole JSON grammar: it reads a text into a [json] value, and the
    decoder of each message type ([LspNetwork]) fills its struct from that
    value.  The text is a list of bytes, as on the wire.

    The parser carries fuel; [parse_fuel_enough] shows that the fuel [parse]
    starts with makes no difference to its result. *)
From S2P Require Import Prelude LspBuffer.
Open Scope Z_scope.

Module Json.

Abbreviation text := (list byte).
Definition lit (s : string) : text := String.list_byte_of_string s.

(** The rest of [l] after the byte [x]. *)
Definition eat (x : byte) (l : text) : option text :=
  match l with b :: r => if Byte.eqb b x then Some r else None | [] => None end.

(** The rest of [l] after the characters [p]. *)
Fixpoint strip (p l : text) : option text :=
  match p with
  | [] => Some l
  | x :: p' => r ← eat x l; strip p' r
  end.

(** ** Integers: [strconv.AppendInt] and [ParseInt] in base 10 *)

Definition byteZ (b : byte) : Z := Z.of_N (Byte.to_N b).
Definition digit (d : Z) : byte := default x30 (Byte.of_N (Z.to_N (48 + d))).
Definition is_digit (b : byte) : bool := (48 <=? byteZ b) && (byteZ b <=? 57).

(** The digits of [n] in front of [acc]. *)
Fixpoint digits (fuel : nat) (n : Z) (acc : text) : text :=
  match fuel with
  | O => acc
  | S fuel' =>
      let acc := digit (n `mod` 10) :: acc in
      if n <? 10 then acc else digits fuel' (n / 10) acc
  end.

(** An [int] has at most 19 digits. *)
Definition appendInt (n : Z) : text :=
  if n <? 0 then x2d :: digits 20 (- n) [] else digits 20 n [].

Definition digits_value (l : text) : Z := foldl (fun a b => a * 10 + (byteZ b - 48)) 0 l.

Definition max_int64 : Z := 2 ^ 63 - 1.
Definition min_int64 : Z := - 2 ^ 63.

(** [ParseInt(s, 10, 64)]: optional sign, then digits only, then the range. *)
Definition parseInt (l : text) : option Z :=
  let '(neg, ds) := match eat x2d l, eat x2b l with
                    | Some ds, _ => (true, ds)
                    | None, Some ds => (false, ds)
                    | None, None => (false, l) end in
  if negb (Nat.eqb (length ds) 0) && forallb is_digit ds then
    let v := if neg : bool then - digits_value ds else digits_value ds in
    if (min_int64 <=? v) && (v <=? max_int64) then Some v else None
  else None.

(** [ParseUint(s, 10, 8)], for the elements of an array decoded into bytes. *)
Definition parseUint8 (l : text) : option byte :=
  if negb (Nat.eqb (length l) 0) && forallb is_digit l && (digits_value l <=? 255)
  then Byte.of_N (Z.to_N (digits_value l)) else None.

(** [strconv.AppendUint] and [ParseUint(s, 10, 64)]; a [uint64] has at most 20
    digits. *)
Definition appendUint (n : Z) : text := digits 20 n [].
Definition parseUint (l : text) : option Z :=
  if negb (Nat.eqb (length l) 0) && forallb is_digit l && (digits_value l <=? max_uint64)
  then Some (digits_value l) else None.

(** ** Base64: [base64.StdEncoding] *)

Definition sextet : Type := bool * bool * bool * bool * bool * bool.

Definition alphabet : text :=
  lit "ABCDEFGHIJKLMNOPQRSTUVWXYZabcdefghijklmnopqrstuvwxyz0123456789+/".

Definition sextet_nat (s : sextet) : nat :=
  let '(a, b, c, d, e, f) := s in
  (32 * Nat.b2n a + 16 * Nat.b2n b + 8 * Nat.b2n c + 4 * Nat.b2n d + 2 * Nat.b2n e
   + Nat.b2n f)%nat.

Definition sextet_of_nat (n : nat) : sextet :=
  (Nat.testbit n 5, Nat.testbit n 4, Nat.testbit n 3, Nat.testbit n 2, Nat.testbit n 1,
   Nat.testbit n 0).

Definition encode6 (s : sextet) : byte := default x41 (alphabet !! sextet_nat s).

Definition decode6 (b : byte) : option sextet :=
  '(i, _) ← list_find (fun x => x = b) alphabet; Some (sextet_of_nat i).

Definition pad : byte := x3d.

Definition enc3 (x y z : byte) : sextet * sextet * sextet * sextet :=
  let '(x0, (x1, (x2, (x3, (x4, (x5, (x6, x7))))))) := Byte.to_bits x in
  let '(y0, (y1, (y2, (y3, (y4, (y5, (y6, y7))))))) := Byte.to_bits y in
  let '(z0, (z1, (z2, (z3, (z4, (z5, (z6, z7))))))) := Byte.to_bits z in
  ((x7, x6, x5, x4, x3, x2), (x1, x0, y7, y6, y5, y4),
   (y3, y2, y1, y0, z7, z6), (z5, z4, z3, z2, z1, z0)).

Definition dec3 (p q r s : sextet) : byte * byte * byte :=
  let '(x7, x6, x5, x4, x3, x2) := p in
  let '(x1, x0, y7, y6, y5, y4) := q in
  let '(y3, y2, y1, y0, z7, z6) := r in
  let '(z5, z4, z3, z2, z1, z0) := s in
  (Byte.of_bits (x0, (x1, (x2, (x3, (x4, (x5, (x6, x7))))))),
   Byte.of_bits (y0, (y1, (y2, (y3, (y4, (y5, (y6, y7))))))),
   Byte.of_bits (z0, (z1, (z2, (z3, (z4, (z5, (z6, z7)))))))).

Fixpoint base64_encode (l : list byte) : text :=
  match l with
  | [] => []
  | [x] =>
      let '(p, q, _, _) := enc3 x x00 x00 in [encode6 p; encode6 q; pad; pad]
  | [x; y] =>
      let '(p, q, r, _) := enc3 x y x00 in [encode6 p; encode6 q; encode6 r; pad]
  | x :: y :: z :: l' =>
      let '(p, q, r, s) := enc3 x y z in
      encode6 p :: encode6 q :: encode6 r :: encode6 s :: base64_encode l'
  end.

Definition is_newline (b : byte) : bool :=
  bool_decide (b = x0a) || bool_decide (b = x0d).

(** Groups of four characters, padding in the last one only. *)
Fixpoint base64_groups (l : text) : option (list byte) :=
  match l with
  | [] => Some []
  | a :: b :: c :: d :: l' =>
      p ← decode6 a;
      q ← decode6 b;
      if bool_decide (d = pad) then
        if bool_decide (l' = []) then
          if bool_decide (c = pad) then
            let '(x, _, _) := dec3 p q (sextet_of_nat 0) (sextet_of_nat 0) in Some [x]
          else r ← decode6 c;
               let '(x, y, _) := dec3 p q r (sextet_of_nat 0) in Some [x; y]
        else None
      else
        r ← decode6 c;
        s ← decode6 d;
        rest ← base64_groups l';
        let '(x, y, z) := dec3 p q r s in Some (x :: y :: z :: rest)
  | _ => None
  end.

(** The decoder drops line breaks first. *)
Definition base64_decode (l : text) : option (list byte) :=
  base64_groups (List.filter (fun b => negb (is_newline b)) l).

(** ** The grammar *)

#[warnings="-register-all"]
Inductive json :=
  | JNull
  | JBool (b : bool)
  | JNum (l : text)
  | JStr (s : text)
  | JArr (l : list json)
  | JObj (l : list (text * json)).

Definition is_space (b : byte) : bool :=
  match b with x20 | x09 | x0a | x0d => true | _ => false end.

Fixpoint skip_ws (l : text) : text :=
  match l with b :: l' => if is_space b then skip_ws l' else l | [] => [] end.

Fixpoint span_digits (l : text) : text * text :=
  match l with
  | b :: l' => if is_digit b then let '(ds, r) := span_digits l' in (b :: ds, r) else ([], l)
  | [] => ([], [])
  end.

(** At least one digit. *)
Definition some_digits (l : text) : option (text * text) :=
  match span_digits l with ([], _) => None | (ds, r) => Some (ds, r) end.

Definition lex_frac (l : text) : option (text * text) :=
  match eat x2e l with
  | Some l' => '(ds, r) ← some_digits l'; Some (x2e :: ds, r)
  | None => Some ([], l)
  end.

Definition one_of (xs l : text) : option (byte * text) :=
  match l with b :: r => if existsb (Byte.eqb b) xs then Some (b, r) else None | [] => None end.

Definition lex_exp (l : text) : option (text * text) :=
  match one_of [x65; x45] l with
  | Some (e, l') =>
      match one_of [x2b; x2d] l' with
      | Some (sg, l'') => '(ds, r) ← some_digits l''; Some (e :: sg :: ds, r)
      | None => '(ds, r) ← some_digits l'; Some (e :: ds, r)
      end
  | None => Some ([], l)
  end.

(** The integer part: a single 0, or digits that do not start with 0. *)
Definition lex_int (l : text) : option (text * text) :=
  match eat x30 l with Some l' => Some ([x30], l') | None => some_digits l end.

Definition lex_number (l : text) : option (text * text) :=
  let '(sg, l) := match eat x2d l with Some l' => ([x2d], l') | None => ([], l) end in
  '(i, l) ← lex_int l;
  '(f, l) ← lex_frac l;
  '(e, l) ← lex_exp l;
  Some (sg ++ i ++ f ++ e, l).

Definition hex_value (b : byte) : option Z :=
  let z := byteZ b in
  if (48 <=? z) && (z <=? 57) then Some (z - 48)
  else if (97 <=? z) && (z <=? 102) then Some (z - 87)
  else if (65 <=? z) && (z <=? 70) then Some (z - 55)
  else None.

Definition byteOf (z : Z) : byte := default x00 (Byte.of_N (Z.to_N (z `mod` 256))).

(** ** UTF-8 *)

Definition cont (b : byte) : bool := (128 <=? byteZ b) && (byteZ b <? 192).

(** How many bytes the character at the front of [l] takes; 0 if the bytes are
    not the encoding of a character ([utf8.DecodeRune]). *)
Definition rune_size (l : text) : nat :=
  match l with
  | [] => O
  | b :: r =>
      let z := byteZ b in
      if z <? 128 then 1%nat
      else if z <? 194 then O
      else match r with
      | [] => O
      | c :: r =>
          let y := byteZ c in
          if z <? 224 then (if cont c then 2%nat else O)
          else if negb (cont c) || ((z =? 224) && (y <? 160)) || ((z =? 237) && (160 <=? y))
                  || ((z =? 240) && (y <? 144)) || ((z =? 244) && (144 <=? y)) then O
          else match r with
          | [] => O
          | d :: r =>
              if z <? 240 then (if cont d then 3%nat else O)
              else match r with
              | [] => O
              | e :: _ => if (z <? 245) && cont d && cont e then 4%nat else O
              end
          end
      end
  end.

(** U+FFFD, which stands for what is not UTF-8. *)
Definition replacement : text := [xef; xbf; xbd].

(** The encoding of a character ([utf8.EncodeRune]). *)
Definition utf8 (r : Z) : text :=
  if r <? 128 then [byteOf r]
  else if r <? 2048 then [byteOf (192 + r / 64); byteOf (128 + r `mod` 64)]
  else if (55296 <=? r) && (r <? 57344) then replacement
  else if r <? 65536 then
    [byteOf (224 + r / 4096); byteOf (128 + (r / 64) `mod` 64); byteOf (128 + r `mod` 64)]
  else [byteOf (240 + r / 262144); byteOf (128 + (r / 4096) `mod` 64);
        byteOf (128 + (r / 64) `mod` 64); byteOf (128 + r `mod` 64)].

(** The text with each byte that belongs to no character replaced.  [k] bytes
    of the character before are still to come. *)
Fixpoint coerce (k : nat) (l : text) : text :=
  match l with
  | [] => []
  | b :: r =>
      match k with
      | S k' => b :: coerce k' r
      | O =>
          match rune_size l with
          | O => replacement ++ coerce 0 r
          | S k' => b :: coerce k' r
          end
      end
  end.

(** ** Strings *)

(** The character an escape stands for. *)
Definition unescape (e : byte) : option byte :=
  match e with
  | x22 | x5c | x2f => Some e
  | x62 => Some x08 | x66 => Some x0c | x6e => Some x0a | x72 => Some x0d | x74 => Some x09
  | _ => None
  end.

(** A first half of a surrogate pair that met no second half. *)
Definition half (hi : option Z) : text := match hi with Some _ => replacement | None => [] end.

Definition prepend (s : text) (o : option (text * text)) : option (text * text) :=
  '(t, r) ← o; Some (s ++ t, r).

(** The rest of a string after its opening quote.  [hi] is a first half of a
    surrogate pair just read, [k] the bytes still to come of a character. *)
Fixpoint unquote (hi : option Z) (k : nat) (l : text) : option (text * text) :=
  match l with
  | [] => None
  | b :: r =>
      match k with
      | S k' => prepend [b] (unquote None k' r)
      | O =>
          if Byte.eqb b x22 then Some (half hi, r)
          else if Byte.eqb b x5c then
            match r with
            | [] => None
            | e :: r =>
                if Byte.eqb e x75 then
                  match r with
                  | h1 :: h2 :: h3 :: h4 :: r =>
                      h1 ← hex_value h1; h2 ← hex_value h2; h3 ← hex_value h3; h4 ← hex_value h4;
                      let c := h1 * 4096 + h2 * 256 + h3 * 16 + h4 in
                      if (55296 <=? c) && (c <? 56320) then prepend (half hi) (unquote (Some c) 0 r)
                      else
                        match hi with
                        | Some h =>
                            if (56320 <=? c) && (c <? 57344) then
                              prepend (utf8 ((h - 55296) * 1024 + (c - 56320) + 65536)) (unquote None 0 r)
                            else prepend (replacement ++ utf8 c) (unquote None 0 r)
                        | None => prepend (utf8 c) (unquote None 0 r)
                        end
                  | _ => None
                  end
                else
                  x ← unescape e;
                  prepend (half hi ++ [x]) (unquote None 0 r)
            end
          else if byteZ b <? 32 then None
          else
            match rune_size l with
            | O => prepend (half hi ++ replacement) (unquote None 0 r)
            | S k' => prepend (half hi ++ [b]) (unquote None k' r)
            end
      end
  end.

Definition lex_string (l : text) : option (text * text) := unquote None 0 l.

(** A string in quotes, as [Marshal] writes it; [k] as before. *)
Definition hex_digit (z : Z) : byte := if z <? 10 then digit z else byteOf (87 + z).

Definition escape (b : byte) : text :=
  match b with
  | x22 | x5c => [x5c; b]
  | x08 => [x5c; x62] | x0c => [x5c; x66] | x0a => [x5c; x6e] | x0d => [x5c; x72] | x09 => [x5c; x74]
  | _ =>
      if (byteZ b <? 32) || Byte.eqb b x26 || Byte.eqb b x3c || Byte.eqb b x3e
      then lit "\u00" ++ [hex_digit (byteZ b / 16); hex_digit (byteZ b `mod` 16)]
      else [b]
  end.

Fixpoint quote_body (k : nat) (l : text) : text :=
  match l with
  | [] => []
  | b :: r =>
      match k with
      | S k' => b :: quote_body k' r
      | O =>
          match rune_size l with
          | O => lit "\ufffd" ++ quote_body 0 r
          | 1%nat => escape b ++ quote_body 0 r
          | S k' =>
              match r with
              | c :: d :: r' =>
                  if Byte.eqb b xe2 && Byte.eqb c x80 && (Byte.eqb d xa8 || Byte.eqb d xa9)
                  then lit "\u202" ++ [byteOf (byteZ d - 112)] ++ quote_body 0 r'
                  else b :: quote_body k' r
              | _ => b :: quote_body k' r
              end
          end
      end
  end.

Definition quote (l : text) : text := x22 :: quote_body 0 l ++ [x22].

(** What a value starts with. *)
Inductive token :=
  | TNull | TTrue | TFalse | TQuote | TBracket | TBrace | TOther.

Definition keyword (s : string) (tk : token) (l : text) : option (token * text) :=
  r ← strip (lit s) l; Some (tk, r).

Definition first_token (l : text) : token * text :=
  match eat x22 l, eat x5b l, eat x7b l with
  | Some r, _, _ => (TQuote, r)
  | None, Some r, _ => (TBracket, r)
  | None, None, Some r => (TBrace, r)
  | None, None, None =>
      match keyword "null" TNull l, keyword "true" TTrue l, keyword "false" TFalse l with
      | Some k, _, _ => k
      | None, Some k, _ => k
      | None, None, Some k => k
      | None, None, None => (TOther, l)
      end
  end.

(** [value] reads a value, [elements] the elements of an array after its "[",
    [members] the members of an object after its "{". *)
Fixpoint value (fuel : nat) (l : text) {struct fuel} : option (json * text) :=
  match fuel with
  | O => None
  | S fuel' =>
      let '(tk, r) := first_token (skip_ws l) in
      match tk with
      | TNull => Some (JNull, r)
      | TTrue => Some (JBool true, r)
      | TFalse => Some (JBool false, r)
      | TQuote => '(s, r) ← lex_string r; Some (JStr s, r)
      | TBracket =>
          match eat x5d (skip_ws r) with
          | Some r => Some (JArr [], r)
          | None => '(es, r) ← elements fuel' r; Some (JArr es, r)
          end
      | TBrace =>
          match eat x7d (skip_ws r) with
          | Some r => Some (JObj [], r)
          | None => '(ms, r) ← members fuel' r; Some (JObj ms, r)
          end
      | TOther => '(n, r) ← lex_number r; Some (JNum n, r)
      end
  end
with elements (fuel : nat) (l : text) {struct fuel} : option (list json * text) :=
  match fuel with
  | O => None
  | S fuel' =>
      '(v, r) ← value fuel' l;
      match eat x2c (skip_ws r) with
      | Some r => '(vs, r) ← elements fuel' r; Some (v :: vs, r)
      | None => r ← eat x5d (skip_ws r); Some ([v], r)
      end
  end
with members (fuel : nat) (l : text) {struct fuel} : option (list (text * json) * text) :=
  match fuel with
  | O => None
  | S fuel' =>
      r ← eat x22 (skip_ws l);
      '(k, r) ← lex_string r;
      r ← eat x3a (skip_ws r);
      '(v, r) ← value fuel' r;
      match eat x2c (skip_ws r) with
      | Some r => '(ms, r) ← members fuel' r; Some ((k, v) :: ms, r)
      | None => r ← eat x7d (skip_ws r); Some ([(k, v)], r)
      end
  end.

(** A whole text: one value, and nothing but white space behind it. *)
Definition parse (l : text) : option json :=
  '(v, r) ← value (2 * length l + 2) l;
  if Nat.eqb (length (skip_ws r)) 0 then Some v else None.

(** Field names match without regard to case.  (Two non-ASCII letters, the long
    s and the Kelvin sign, fold to ASCII ones as well.) *)
Definition long_s : text := [xc5; xbf].
Definition kelvin : text := [xe2; x84; xaa].

Fixpoint fold_key (fuel : nat) (l : text) : text :=
  match fuel, l with
  | S fuel', b :: r =>
      match strip long_s l, strip kelvin l with
      | Some r', _ => x73 :: fold_key fuel' r'
      | None, Some r' => x6b :: fold_key fuel' r'
      | None, None =>
          (if (65 <=? byteZ b) && (byteZ b <=? 90) then byteOf (byteZ b + 32) else b)
          :: fold_key fuel' r
      end
  | _, _ => []
  end.

(** Go compares a key with a field name by bytes or by folding. *)
Definition key_is (name : string) (k : text) : bool :=
  bool_decide (fold_key (length k) k = fold_key (String.length name) (lit name)).

(** ** Integers: printing then parsing *)

Lemma digit_ok d : 0 <= d < 10 -> is_digit (digit d) = true /\ byteZ (digit d) = 48 + d.
Proof.
  intros Hd.
  assert (d = 0 \/ d = 1 \/ d = 2 \/ d = 3 \/ d = 4 \/ d = 5 \/ d = 6 \/ d = 7 \/ d = 8 \/ d = 9)
    as Hc by lia.
  decompose [or] Hc; subst; done.
Qed.

Lemma digits_value_snoc l b : digits_value (l ++ [b]) = digits_value l * 10 + (byteZ b - 48).
Proof. unfold digits_value. by rewrite foldl_app. Qed.

(** The text of a number: digits, no leading zero, the right value. *)
Record numeral (n : Z) (ds : text) : Prop := {
  nu_digits : forallb is_digit ds = true;
  nu_value : digits_value ds = n;
  nu_head : ds = [x30] \/ exists b r, ds = b :: r /\ b <> x30;
  nu_length : ds <> [] }.

Lemma digits_spec fuel : forall n acc, 0 <= n < 10 ^ Z.of_nat fuel -> (0 < fuel)%nat ->
  exists ds, digits fuel n acc = ds ++ acc /\ numeral n ds /\ (length ds <= fuel)%nat /\
    (0 < n -> exists b r, ds = b :: r /\ b <> x30).
Proof.
  induction fuel as [|fuel IH]; intros n acc Hn Hf; [lia|]. cbn [digits].
  assert (Hd : 0 <= n `mod` 10 < 10) by (apply Z.mod_pos_bound; lia).
  destruct (digit_ok _ Hd) as [Hdig Hval].
  assert (Hnz : n `mod` 10 <> 0 -> digit (n `mod` 10) <> x30).
  { intros Hz Heq. rewrite Heq in Hval. change (byteZ x30) with 48 in Hval. lia. }
  destruct (n <? 10) eqn:E; breflect.
  - rewrite Z.mod_small in * by lia. exists [digit n]. split_and!; [done| |cbn; lia|].
    + split; [cbn; by rewrite Hdig| |cbn|done].
      * unfold digits_value. cbn [foldl]. lia.
      * destruct (decide (n = 0)) as [->|Hz]; [by left|right]. eauto.
    + intros Hpos. exists (digit n), []. split; [done|]. apply Hnz. lia.
  - assert (Hq : 10 <= n) by lia.
    assert (0 < n / 10) by (apply Z.div_str_pos; lia).
    destruct fuel as [|fuel']; [cbn in Hn; lia|].
    destruct (IH (n / 10) (digit (n `mod` 10) :: acc)) as (ds & -> & [H1 H2 H3 H4] & Hlen & Hpos).
    { split; [lia|]. apply Z.div_lt_upper_bound; [lia|].
      replace (Z.of_nat (S (S fuel'))) with (Z.succ (Z.of_nat (S fuel'))) in Hn by lia.
      rewrite Z.pow_succ_r in Hn by lia. lia. }
    { lia. }
    destruct (Hpos ltac:(lia)) as (b & r & -> & Hb).
    exists ((b :: r) ++ [digit (n `mod` 10)]). rewrite <- app_assoc. split; [done|]. split.
    + split; [by rewrite forallb_app, H1; cbn; rewrite Hdig| | |done].
      * rewrite digits_value_snoc, H2, Hval. pose proof (Z.div_mod n 10). lia.
      * right. exists b, (r ++ [digit (n `mod` 10)]). done.
    + split; [rewrite length_app; cbn in *; lia|].
      intros _. exists b, (r ++ [digit (n `mod` 10)]). done.
Qed.

Lemma digits_length fuel : forall n acc, (0 < fuel)%nat -> (length acc < length (digits fuel n acc))%nat.
Proof.
  induction fuel as [|fuel IH]; intros n acc Hf; cbn [digits]; [lia|].
  destruct (n <? 10); cbn [length]; [lia|]. destruct fuel as [|fuel]; [cbn; lia|].
  etrans; [|apply IH; lia]. cbn [length]. lia.
Qed.

Lemma digits_int64 n : 0 <= n <= 2 ^ 63 ->
  exists ds, digits 20 n [] = ds /\ numeral n ds /\ (length ds <= 20)%nat.
Proof.
  intros Hn. destruct (digits_spec 20 n []) as (ds & E & ? & ? & _); [lia|lia|].
  rewrite app_nil_r in E. eauto.
Qed.

Lemma eat_hd x b l : eat x (b :: l) = if Byte.eqb b x then Some l else None.
Proof. done. Qed.

Lemma byte_eqb_ne a b : a <> b -> Byte.eqb a b = false.
Proof. intros Hne. destruct (Byte.eqb a b) eqn:E; [|done]. by apply Byte.byte_dec_bl in E. Qed.

Lemma byte_eqb_refl b : Byte.eqb b b = true.
Proof. by apply Byte.byte_dec_lb. Qed.

Lemma digit_not_sign b r : is_digit b = true -> eat x2d (b :: r) = None /\ eat x2b (b :: r) = None.
Proof.
  intros Hb. rewrite !eat_hd. split; rewrite byte_eqb_ne; try done; intros ->; discriminate.
Qed.

Lemma parseInt_appendInt n : min_int64 <= n <= max_int64 -> parseInt (appendInt n) = Some n.
Proof.
  unfold min_int64, max_int64. intros Hn. unfold appendInt.
  destruct (n <? 0) eqn:E; breflect.
  - destruct (digits_int64 (- n)) as (ds & -> & [H1 H2 _ H4] & _); [lia|].
    unfold parseInt. rewrite eat_hd, byte_eqb_refl, H1, H2, Z.opp_involutive.
    destruct ds; [done|]. cbn [length Nat.eqb negb andb].
    destruct (_ && _) eqn:Er; [done|]. apply andb_false_iff in Er as [?|?]; breflect;
      unfold min_int64, max_int64 in *; lia.
  - destruct (digits_int64 n) as (ds & -> & [H1 H2 _ H4] & _); [lia|].
    unfold parseInt. destruct ds as [|b ds]; [done|].
    destruct (digit_not_sign b ds) as [-> ->].
    { cbn in H1. by apply andb_true_iff in H1 as [? _]. }
    rewrite H1, H2. cbn [length Nat.eqb negb andb].
    destruct (_ && _) eqn:Er; [done|]. apply andb_false_iff in Er as [?|?]; breflect;
      unfold min_int64, max_int64 in *; lia.
Qed.

Lemma appendInt_length n : min_int64 <= n <= max_int64 -> (length (appendInt n) <= 21)%nat.
Proof.
  unfold min_int64, max_int64. intros Hn. unfold appendInt. case_match; breflect.
  - destruct (digits_int64 (- n)) as (ds & -> & _ & ?); [lia|]. cbn. lia.
  - destruct (digits_int64 n) as (ds & -> & _ & ?); [lia|]. lia.
Qed.

(** ** Reading back what was printed *)

(** [l] does not go on with a character of a number. *)
Definition ends_number (l : text) : Prop :=
  span_digits l = ([], l) /\ eat x2e l = None /\ one_of [x65; x45] l = None.

Lemma span_digits_app ds r :
  forallb is_digit ds = true -> span_digits r = ([], r) -> span_digits (ds ++ r) = (ds, r).
Proof.
  intros Hd Hr. induction ds as [|b ds IH]; [done|]. cbn in *. apply andb_true_iff in Hd as [-> Hd].
  by rewrite (IH Hd).
Qed.

Lemma lex_int_numeral n ds r : numeral n ds -> span_digits r = ([], r) ->
  lex_int (ds ++ r) = Some (ds, r).
Proof.
  intros [Hd _ Hh Hne] Hr. unfold lex_int. destruct Hh as [->|(b & tl & -> & Hb)]; [done|].
  cbn [app]. rewrite eat_hd, byte_eqb_ne by done. unfold some_digits.
  change (b :: tl ++ r) with ((b :: tl) ++ r). by rewrite span_digits_app.
Qed.

Lemma lex_number_appendInt n r : min_int64 <= n <= max_int64 -> ends_number r ->
  lex_number (appendInt n ++ r) = Some (appendInt n, r).
Proof.
  unfold min_int64, max_int64. intros Hn (Hr & Hdot & He). unfold appendInt.
  destruct (n <? 0) eqn:E; breflect.
  - destruct (digits_int64 (- n)) as (ds & -> & Hnu & _); [lia|].
    unfold lex_number. cbn [app]. rewrite eat_hd, byte_eqb_refl.
    rewrite (lex_int_numeral _ _ _ Hnu Hr). cbn [mbind option_bind].
    unfold lex_frac. rewrite Hdot. cbn. unfold lex_exp. rewrite He. cbn. by rewrite app_nil_r.
  - destruct (digits_int64 n) as (ds & -> & Hnu & _); [lia|].
    unfold lex_number. pose proof Hnu as [H1 _ _ H4].
    destruct ds as [|b ds]; [done|]. cbn [app].
    destruct (digit_not_sign b (ds ++ r)) as [-> _].
    { cbn in H1. by apply andb_true_iff in H1 as [? _]. }
    change (b :: ds ++ r) with ((b :: ds) ++ r). rewrite (lex_int_numeral _ _ _ Hnu Hr).
    cbn [mbind option_bind].
    unfold lex_frac. rewrite Hdot. cbn. unfold lex_exp. rewrite He. cbn. by rewrite app_nil_r.
Qed.

(** What a number starts with. *)
Lemma appendInt_head n : min_int64 <= n <= max_int64 ->
  exists b r, appendInt n = b :: r /\ (b = x2d \/ is_digit b = true).
Proof.
  unfold min_int64, max_int64. intros Hn. unfold appendInt. case_match; breflect; [eauto|].
  destruct (digits_int64 n) as (ds & -> & [H1 _ _ H4] & _); [lia|].
  destruct ds as [|b ds]; [done|]. cbn in H1. apply andb_true_iff in H1 as [? _]. eauto.
Qed.

Lemma number_first b r : b = x2d \/ is_digit b = true ->
  skip_ws (b :: r) = b :: r /\ first_token (b :: r) = (TOther, b :: r).
Proof.
  intros Hb.
  assert (Hne : forall x, is_digit x = false -> x <> x2d -> Byte.eqb b x = false).
  { intros x Hx Hd. apply byte_eqb_ne. intros ->. destruct Hb; congruence. }
  split.
  - cbn [skip_ws]. assert (is_space b = false) as ->; [|done].
    destruct Hb as [->|Hb]; [done|]. destruct b; try done; discriminate.
  - unfold first_token, keyword, lit. cbn -[Byte.eqb]. rewrite !Hne by done. done.
Qed.

Lemma value_number fuel n r : min_int64 <= n <= max_int64 -> ends_number r ->
  value (S fuel) (appendInt n ++ r) = Some (JNum (appendInt n), r).
Proof.
  intros Hn Hr. destruct (appendInt_head n Hn) as (b & tl & E & Hb).
  cbn [value]. rewrite E. cbn [app]. destruct (number_first b (tl ++ r) Hb) as [-> ->].
  change (b :: tl ++ r) with ((b :: tl) ++ r). rewrite <- E, lex_number_appendInt by done. done.
Qed.

(** Strings without escapes. *)
Definition plain (b : byte) : bool :=
  negb (Byte.eqb b x22) && negb (Byte.eqb b x5c) && (32 <=? byteZ b) && (byteZ b <? 128).

Lemma rune_size_ascii b r : byteZ b < 128 -> rune_size (b :: r) = 1%nat.
Proof. intros Hb. unfold rune_size. by rewrite (proj2 (Z.ltb_lt _ _) Hb). Qed.

Lemma unquote_plain b r : plain b = true -> unquote None 0 (b :: r) = prepend [b] (unquote None 0 r).
Proof.
  intros Hb. unfold plain in Hb. breflect. cbn [unquote]. rewrite H, H2.
  destruct (byteZ b <? 32) eqn:E; breflect; [lia|]. by rewrite rune_size_ascii.
Qed.

Lemma lex_string_plain s r : forallb plain s = true ->
  lex_string (s ++ x22 :: r) = Some (s, r).
Proof.
  unfold lex_string. induction s as [|b s IH]; intros Hs; [done|]. cbn in Hs. apply andb_true_iff in Hs as [Hb Hs].
  cbn [app]. rewrite unquote_plain, IH by done. done.
Qed.

(** ** Base64 *)

Lemma decode6_encode6 s : decode6 (encode6 s) = Some s.
Proof. destruct s as [[[[[[] []] []] []] []] []]; vm_compute; reflexivity. Qed.

Lemma encode6_char s : plain (encode6 s) = true /\ encode6 s <> pad /\ is_newline (encode6 s) = false.
Proof. destruct s as [[[[[[] []] []] []] []] []]; vm_compute; done. Qed.

Lemma dec3_enc3 x y z :
  let '(p, q, r, s) := enc3 x y z in dec3 p q r s = (x, y, z).
Proof.
  unfold enc3, dec3.
  destruct (Byte.to_bits x) as (x0 & x1 & x2 & x3 & x4 & x5 & x6 & x7) eqn:Ex.
  destruct (Byte.to_bits y) as (y0 & y1 & y2 & y3 & y4 & y5 & y6 & y7) eqn:Ey.
  destruct (Byte.to_bits z) as (z0 & z1 & z2 & z3 & z4 & z5 & z6 & z7) eqn:Ez.
  cbv beta iota. by rewrite <- Ex, <- Ey, <- Ez, !Byte.of_bits_to_bits.
Qed.

Lemma dec3_enc3_pad x y :
  (let '(p, q, _, _) := enc3 x x00 x00 in
   let '(a, _, _) := dec3 p q (sextet_of_nat 0) (sextet_of_nat 0) in a = x) /\
  (let '(p, q, r, _) := enc3 x y x00 in
   let '(a, b, _) := dec3 p q r (sextet_of_nat 0) in (a, b) = (x, y)).
Proof.
  unfold enc3, dec3.
  destruct (Byte.to_bits x) as (x0 & x1 & x2 & x3 & x4 & x5 & x6 & x7) eqn:Ex.
  destruct (Byte.to_bits y) as (y0 & y1 & y2 & y3 & y4 & y5 & y6 & y7) eqn:Ey.
  cbn -[Byte.of_bits]. split; by rewrite <- ?Ex, <- ?Ey, ?Byte.of_bits_to_bits.
Qed.

(** Induction on groups of three bytes. *)
Lemma groups_ind (P : list byte -> Prop) :
  P [] -> (forall x, P [x]) -> (forall x y, P [x; y]) ->
  (forall x y z l, P l -> P (x :: y :: z :: l)) -> forall l, P l.
Proof.
  intros H0 H1 H2 H3. fix go 1. intros [|x [|y [|z l]]]; [done|apply H1|apply H2|].
  apply H3, go.
Qed.

Lemma bool_decide_pad s : bool_decide (encode6 s = pad) = false.
Proof. apply bool_decide_eq_false. apply encode6_char. Qed.

Lemma base64_groups_encode l : base64_groups (base64_encode l) = Some l.
Proof.
  induction l as [|x|x y|x y z l IH] using groups_ind; [done| | |].
  - cbn [base64_encode]. destruct (dec3_enc3_pad x x) as [Hx _].
    destruct (enc3 x x00 x00) as [[[p q] r] s]. cbn [base64_groups].
    rewrite !decode6_encode6. cbn [mbind option_bind].
    rewrite !bool_decide_eq_true_2 by done. by destruct (dec3 p q _ _) as [[? ?] ?]; subst.
  - cbn [base64_encode]. destruct (dec3_enc3_pad x y) as [_ Hx].
    destruct (enc3 x y x00) as [[[p q] r] s]. cbn [base64_groups].
    rewrite !decode6_encode6. cbn [mbind option_bind].
    rewrite !(bool_decide_eq_true_2 (pad = pad)), bool_decide_eq_true_2, bool_decide_pad by done.
    cbn. by destruct (dec3 p q r _) as [[? ?] ?]; simplify_eq.
  - cbn [base64_encode]. pose proof (dec3_enc3 x y z) as Hx.
    destruct (enc3 x y z) as [[[p q] r] s]. cbn [base64_groups].
    rewrite !decode6_encode6. cbn [mbind option_bind].
    rewrite bool_decide_pad. cbn [mbind option_bind]. rewrite IH. cbn [mbind option_bind].
    by rewrite Hx.
Qed.

Lemma base64_encode_chars l :
  forallb (fun b => plain b && negb (is_newline b)) (base64_encode l) = true.
Proof.
  assert (He : forall s, plain (encode6 s) && negb (is_newline (encode6 s)) = true).
  { intros s. destruct (encode6_char s) as (-> & _ & ->). done. }
  induction l as [|x|x y|x y z l IH] using groups_ind; [done| | |]; cbn [base64_encode];
    destruct (enc3 _ _ _) as [[[p q] r] s]; cbn [forallb]; rewrite !He; [done|done|done].
Qed.

Lemma base64_encode_plain l : forallb plain (base64_encode l) = true.
Proof.
  apply forallb_forall. intros b Hb.
  pose proof (base64_encode_chars l) as Hc. rewrite forallb_forall in Hc.
  apply Hc in Hb. by apply andb_true_iff in Hb as [? _].
Qed.

Lemma base64_decode_encode l : base64_decode (base64_encode l) = Some l.
Proof.
  unfold base64_decode. etrans; [|apply base64_groups_encode]. f_equal.
  pose proof (base64_encode_chars l) as Hc. induction (base64_encode l) as [|b s IH]; [done|].
  cbn in *. apply andb_true_iff in Hc as [Hb Hc]. apply andb_true_iff in Hb as [_ ->].
  by rewrite IH.
Qed.

Lemma base64_encode_length l :
  Z.of_nat (length (base64_encode l)) = 4 * ((Z.of_nat (length l) + 2) / 3).
Proof.
  induction l as [|x|x y|x y z l IH] using groups_ind; [done| | |]; cbn [base64_encode];
    destruct (enc3 _ _ _) as [[[p q] r] s]; cbn [length]; [done|done|].
  replace (Z.of_nat (S (S (S (length l)))) + 2) with (Z.of_nat (length l) + 2 + 1 * 3) by lia.
  rewrite Z.div_add by lia. lia.
Qed.

(** ** The fuel is enough

    Every reader leaves less text than it was given, and the fuel goes down by
    at most two per character read. *)

Lemma skip_ws_length l : (length (skip_ws l) <= length l)%nat.
Proof. induction l as [|b l IH]; cbn; [lia|]. destruct (is_space b); cbn; lia. Qed.

Lemma eat_length x l r : eat x l = Some r -> length l = S (length r).
Proof. destruct l as [|b l]; cbn; [done|]. case_match; intros; simplify_eq. done. Qed.

Lemma strip_length p : forall l r, strip p l = Some r -> length l = (length p + length r)%nat.
Proof.
  induction p as [|x p IH]; cbn; intros l r; [by intros [= ->]|].
  intros (r' & Hr%eat_length & He%IH)%bind_Some. lia.
Qed.

Lemma span_digits_length l ds r : span_digits l = (ds, r) -> length l = (length ds + length r)%nat.
Proof.
  revert ds r. induction l as [|b l IH]; cbn; intros ds r; [by intros [= <- <-]|].
  destruct (is_digit b); [|by intros [= <- <-]].
  destruct (span_digits l) as [ds' r']. intros [= <- <-]. cbn. by rewrite (IH ds' r').
Qed.

Lemma some_digits_length l ds r : some_digits l = Some (ds, r) -> (length r < length l)%nat.
Proof.
  unfold some_digits. destruct (span_digits l) as [ds' r'] eqn:E.
  apply span_digits_length in E. destruct ds'; [done|]. intros [= <- <-]. cbn in E. lia.
Qed.

Lemma one_of_length xs l b r : one_of xs l = Some (b, r) -> length l = S (length r).
Proof. destruct l as [|x l]; cbn; [done|]. case_match; intros; simplify_eq. done. Qed.

(** Take an option computation that returned apart, collecting the lengths. *)
Ltac lengths :=
  repeat match goal with
  | H : None = Some _ |- _ => discriminate H
  | H : Some _ = Some _ |- _ => injection H as H; subst
  | H : (_, _) = (_, _) |- _ => injection H as H; subst
  | H : _ ≫= _ = Some _ |- _ =>
      let p := fresh "p" in let E := fresh "E" in
      apply bind_Some in H as (p & E & H); try destruct p as [? ?]; cbn beta iota in H
  | H : eat _ _ = Some _ |- _ => apply eat_length in H
  | H : some_digits _ = Some _ |- _ => apply some_digits_length in H
  | H : one_of _ _ = Some _ |- _ => apply one_of_length in H
  | H : (match ?m with _ => _ end) = Some _ |- _ => destruct m eqn:?
  end.

Lemma lex_number_length l n r : lex_number l = Some (n, r) -> (length r < length l)%nat.
Proof.
  unfold lex_number, lex_int, lex_frac, lex_exp. intros H.
  lengths; try case_match; lengths; cbn [length] in *; lia.
Qed.

Lemma prepend_Some s o t r : prepend s o = Some (t, r) -> exists t', o = Some (t', r).
Proof. destruct o as [[t' r']|]; [|done]. intros [= _ <-]. eauto. Qed.

Lemma unquote_length n : forall hi k l s r, (length l <= n)%nat ->
  unquote hi k l = Some (s, r) -> (length r < length l)%nat.
Proof.
  induction n as [|n IH]; intros hi k [|b l] s r Hn; cbn [unquote length] in *; try done; [lia|].
  intros H. destruct k as [|k]; lengths; cbn [length] in *; try lia;
    match goal with E : prepend _ (unquote _ _ ?t) = Some _ |- _ =>
      apply prepend_Some in E as [? E]; apply IH in E; cbn [length] in *; lia end.
Qed.

Lemma lex_string_length l s r : lex_string l = Some (s, r) -> (length r < length l)%nat.
Proof. by eapply unquote_length. Qed.

Lemma keyword_length s tk l tk' r : keyword s tk l = Some (tk', r) ->
  tk' = tk /\ length l = (length (lit s) + length r)%nat.
Proof. unfold keyword. by intros (r' & H%strip_length & [= <- <-])%bind_Some. Qed.

Lemma first_token_length l tk r : first_token l = (tk, r) ->
  match tk with TOther => r = l | _ => (length r < length l)%nat end.
Proof.
  unfold first_token.
  destruct (eat x22 l) eqn:E1; [|destruct (eat x5b l) eqn:E2; [|destruct (eat x7b l) eqn:E3]];
    [intros [= <- <-]; lengths; lia..|].
  destruct (keyword "null" TNull l) as [[? ?]|] eqn:K1;
    [|destruct (keyword "true" TTrue l) as [[? ?]|] eqn:K2;
      [|destruct (keyword "false" TFalse l) as [[? ?]|] eqn:K3]];
    [intros [= <- <-]; repeat match goal with H : keyword _ _ _ = Some _ |- _ =>
       apply keyword_length in H as [-> ?] end; cbn in *; lia..|].
  by intros [= <- <-].
Qed.

Lemma first_token_brace l : first_token (x7b :: l) = (TBrace, l).
Proof. done. Qed.

Lemma first_token_quote l : first_token (x22 :: l) = (TQuote, l).
Proof. done. Qed.

(** One unfolding of the three readers. *)
Lemma value_S fuel l : value (S fuel) l =
  let '(tk, r) := first_token (skip_ws l) in
  match tk with
  | TNull => Some (JNull, r)
  | TTrue => Some (JBool true, r)
  | TFalse => Some (JBool false, r)
  | TQuote => '(s, r) ← lex_string r; Some (JStr s, r)
  | TBracket =>
      match eat x5d (skip_ws r) with
      | Some r => Some (JArr [], r)
      | None => '(es, r) ← elements fuel r; Some (JArr es, r)
      end
  | TBrace =>
      match eat x7d (skip_ws r) with
      | Some r => Some (JObj [], r)
      | None => '(ms, r) ← members fuel r; Some (JObj ms, r)
      end
  | TOther => '(n, r) ← lex_number r; Some (JNum n, r)
  end.
Proof. done. Qed.

Lemma elements_S fuel l : elements (S fuel) l =
  '(v, r) ← value fuel l;
  match eat x2c (skip_ws r) with
  | Some r => '(vs, r) ← elements fuel r; Some (v :: vs, r)
  | None => r ← eat x5d (skip_ws r); Some ([v], r)
  end.
Proof. done. Qed.

Lemma members_S fuel l : members (S fuel) l =
  r ← eat x22 (skip_ws l);
  '(k, r) ← lex_string r;
  r ← eat x3a (skip_ws r);
  '(v, r) ← value fuel r;
  match eat x2c (skip_ws r) with
  | Some r => '(ms, r) ← members fuel r; Some ((k, v) :: ms, r)
  | None => r ← eat x7d (skip_ws r); Some ([(k, v)], r)
  end.
Proof. done. Qed.

#[local] Arguments value : simpl never.
#[local] Arguments elements : simpl never.
#[local] Arguments members : simpl never.

Ltac ws_lengths :=
  repeat match goal with
  | _ : context [skip_ws ?l] |- _ =>
      lazymatch goal with
      | _ : (length (skip_ws l) <= length l)%nat |- _ => fail
      | _ => pose proof (skip_ws_length l)
      end
  end.

Lemma readers_consume fuel : forall l,
  (forall v r, value fuel l = Some (v, r) -> (length r < length l)%nat) /\
  (forall v r, elements fuel l = Some (v, r) -> (length r < length l)%nat) /\
  (forall v r, members fuel l = Some (v, r) -> (length r < length l)%nat).
Proof.
  induction fuel as [|fuel IH]; intros l; [done|].
  assert (Hv : forall l v r, value fuel l = Some (v, r) -> (length r < length l)%nat) by apply IH.
  assert (He : forall l v r, elements fuel l = Some (v, r) -> (length r < length l)%nat) by apply IH.
  assert (Hm : forall l v r, members fuel l = Some (v, r) -> (length r < length l)%nat) by apply IH.
  split_and!; intros v r.
  - rewrite value_S. destruct (first_token (skip_ws l)) as [tk r0] eqn:Et.
    apply first_token_length in Et. pose proof (skip_ws_length l).
    intros Hres; destruct tk; lengths; ws_lengths;
      repeat match goal with
      | H : lex_string _ = Some _ |- _ => apply lex_string_length in H
      | H : lex_number _ = Some _ |- _ => apply lex_number_length in H
      | H : elements _ _ = Some _ |- _ => apply He in H
      | H : members _ _ = Some _ |- _ => apply Hm in H
      end; subst; lia.
  - rewrite elements_S. intros H. lengths; ws_lengths;
      repeat match goal with
      | H : value _ _ = Some _ |- _ => apply Hv in H
      | H : elements _ _ = Some _ |- _ => apply He in H
      end; lia.
  - rewrite members_S. intros H. lengths; ws_lengths;
      repeat match goal with
      | H : lex_string _ = Some _ |- _ => apply lex_string_length in H
      | H : value _ _ = Some _ |- _ => apply Hv in H
      | H : members _ _ = Some _ |- _ => apply Hm in H
      end; lia.
Qed.

(** Two computations agree when their continuations agree on what the first
    part returned. *)
Lemma bind_ext {A B} (m : option A) (f g : A -> option B) :
  (forall a, m = Some a -> f a = g a) -> m ≫= f = m ≫= g.
Proof. destruct m; cbn; auto. Qed.

Lemma readers_fuel f : forall g l,
  ((2 * length l + 1 <= f)%nat -> (2 * length l + 1 <= g)%nat -> value f l = value g l) /\
  ((2 * length l + 2 <= f)%nat -> (2 * length l + 2 <= g)%nat -> elements f l = elements g l) /\
  ((2 * length l + 2 <= f)%nat -> (2 * length l + 2 <= g)%nat -> members f l = members g l).
Proof.
  induction f as [|f IH]; intros [|g] l; try (split_and!; lia).
  split_and!; intros Hf Hg.
  - rewrite !value_S. destruct (first_token (skip_ws l)) as [tk r] eqn:Et.
    apply first_token_length in Et. pose proof (skip_ws_length l).
    destruct tk; cbn iota in Et; try done; (case_match; [done|]).
    + by rewrite (proj1 (proj2 (IH g r))) by lia.
    + by rewrite (proj2 (proj2 (IH g r))) by lia.
  - rewrite !elements_S. rewrite (proj1 (IH g l)) by lia.
    apply bind_ext. intros [v r] Hv. apply readers_consume in Hv.
    destruct (eat x2c (skip_ws r)) as [r'|] eqn:E; [|done]. apply eat_length in E.
    pose proof (skip_ws_length r). by rewrite (proj1 (proj2 (IH g r'))) by lia.
  - rewrite !members_S. apply bind_ext. intros r E%eat_length.
    pose proof (skip_ws_length l). apply bind_ext. intros [k r1] E1%lex_string_length.
    apply bind_ext. intros r2 E2%eat_length. pose proof (skip_ws_length r1).
    rewrite (proj1 (IH g r2)) by lia.
    apply bind_ext. intros [v r3] Hv. apply readers_consume in Hv.
    destruct (eat x2c (skip_ws r3)) as [r4|] eqn:E4; [|done]. apply eat_length in E4.
    pose proof (skip_ws_length r3). by rewrite (proj2 (proj2 (IH g r4))) by lia.
Qed.

(** Any more fuel gives the same result. *)
Lemma parse_fuel_enough l fuel : (2 * length l + 2 <= fuel)%nat ->
  value fuel l = value (2 * length l + 2) l.
Proof. intros. apply readers_fuel; lia. Qed.

(** ** Objects, member by member *)

Definition quoted (s : text) : text := x22 :: s ++ [x22].
Definition colon : text := [x3a].
Definition comma : text := [x2c].

Lemma members_key k l fuel :
  forallb plain k = true ->
  members (S fuel) (quoted k ++ colon ++ l) =
    '(v, r) ← value fuel l;
    match eat x2c (skip_ws r) with
    | Some r => '(ms, r) ← members fuel r; Some ((k, v) :: ms, r)
    | None => r ← eat x7d (skip_ws r); Some ([(k, v)], r)
    end.
Proof.
  intros Hk. rewrite members_S. unfold quoted, colon. cbn [app skip_ws is_space].
  rewrite eat_hd, byte_eqb_refl. cbn [mbind option_bind]. rewrite <- !app_assoc.
  cbn [app]. rewrite lex_string_plain by done. done.
Qed.

Lemma ends_number_comma l : ends_number (comma ++ l).
Proof. done. Qed.

Lemma ends_number_brace l : ends_number (x7d :: l).
Proof. done. Qed.

Lemma value_numeral fuel n ds r : numeral n ds -> ends_number r ->
  value (S fuel) (ds ++ r) = Some (JNum ds, r).
Proof.
  intros Hn (Hr & Hdot & He). pose proof Hn as [Hd _ _ Hne]. destruct ds as [|b ds]; [done|].
  assert (Hb : is_digit b = true) by (cbn in Hd; by apply andb_true_iff in Hd as [? _]).
  rewrite value_S. cbn [app]. destruct (number_first b (ds ++ r) (or_intror Hb)) as [-> ->].
  unfold lex_number. destruct (digit_not_sign b (ds ++ r) Hb) as [-> _].
  change (b :: ds ++ r) with ((b :: ds) ++ r). rewrite (lex_int_numeral _ _ _ Hn Hr).
  cbn [mbind option_bind]. unfold lex_frac. rewrite Hdot. cbn. unfold lex_exp. rewrite He. cbn.
  by rewrite app_nil_r.
Qed.

(** ** Strings: printing then parsing *)

(** A character of several bytes is recognised by those bytes alone. *)
Lemma rune_size_multi b r k : rune_size (b :: r) = S (S k) ->
  128 <= byteZ b /\ exists cs r', r = cs ++ r' /\ length cs = S k /\
    forall t, rune_size (b :: cs ++ t) = S (S k).
Proof.
  unfold rune_size. destruct (byteZ b <? 128) eqn:E1; [done|].
  destruct (byteZ b <? 194) eqn:E2; [done|]. breflect. destruct r as [|c r]; [done|].
  destruct (byteZ b <? 224) eqn:E3.
  { destruct (cont c) eqn:Ec; [|done]. intros [= <-]. split; [lia|]. exists [c], r.
    split_and!; [done|done|]. intros t. cbn [app]. by rewrite Ec. }
  destruct (_ || _) eqn:E4; [done|]. destruct r as [|d r]; [done|].
  destruct (byteZ b <? 240) eqn:E5.
  { destruct (cont d) eqn:Ed; [|done]. intros [= <-]. split; [lia|]. exists [c; d], r.
    split_and!; [done|done|]. intros t. cbn [app]. by rewrite E4, Ed. }
  destruct r as [|e r]; [done|]. destruct (_ && _ && _) eqn:E6; [|done]. intros [= <-]. split; [lia|].
  exists [c; d; e], r. split_and!; [done|done|]. intros t. cbn [app]. by rewrite E4, E6.
Qed.

Lemma prepend_app s t o : prepend s (prepend t o) = prepend (s ++ t) o.
Proof. destruct o as [[u r]|]; [|done]. cbn. by rewrite app_assoc. Qed.

Lemma unquote_rest cs : forall k t, length cs = k ->
  unquote None k (cs ++ t) = prepend cs (unquote None 0 t).
Proof.
  induction cs as [|c cs IH]; intros k t <-; cbn [length app].
  - by destruct (unquote None 0 t) as [[u r]|].
  - cbn [unquote]. rewrite IH by done. by rewrite prepend_app.
Qed.

Lemma quote_rest cs : forall k t, length cs = k -> quote_body k (cs ++ t) = cs ++ quote_body 0 t.
Proof. induction cs as [|c cs IH]; intros k t <-; cbn [length app quote_body]; [done|]. by rewrite IH. Qed.

Lemma coerce_rest cs : forall k t, length cs = k -> coerce k (cs ++ t) = cs ++ coerce 0 t.
Proof. induction cs as [|c cs IH]; intros k t <-; cbn [length app coerce]; [done|]. by rewrite IH. Qed.

Lemma unquote_multi b cs k t : 128 <= byteZ b -> length cs = S k ->
  rune_size (b :: cs ++ t) = S (S k) ->
  unquote None 0 (b :: cs ++ t) = prepend (b :: cs) (unquote None 0 t).
Proof.
  intros Hb Hlen Hs. cbn [unquote].
  rewrite !byte_eqb_ne by (intros ->; vm_compute in Hb; by apply Hb).
  rewrite (proj2 (Z.ltb_ge _ _)) by lia. rewrite Hs, unquote_rest by done.
  by rewrite prepend_app.
Qed.

Lemma unquote_escape b t : byteZ b < 128 ->
  unquote None 0 (escape b ++ t) = prepend [b] (unquote None 0 t).
Proof. intros Hb. destruct b; try reflexivity; vm_compute in Hb; discriminate. Qed.

Lemma quote_body_multi b cs k t : length cs = S k -> rune_size (b :: cs ++ t) = S (S k) ->
  quote_body 0 (b :: cs ++ t) = b :: cs ++ quote_body 0 t \/
  (exists d, b = xe2 /\ cs = [x80; d] /\ (d = xa8 \/ d = xa9) /\
     quote_body 0 (b :: cs ++ t) = lit "\u202" ++ [byteOf (byteZ d - 112)] ++ quote_body 0 t).
Proof.
  intros Hlen Hs. destruct cs as [|c cs]; [done|]. cbn [app] in *. cbn [quote_body]. rewrite Hs.
  assert (Hgo : quote_body (S k) (c :: cs ++ t) = (c :: cs) ++ quote_body 0 t) by (by apply (quote_rest (c :: cs))).
  destruct (cs ++ t) as [|d r'] eqn:Er; [by left; f_equal|].
  destruct (Byte.eqb b xe2) eqn:Eb; cbn [andb]; [|by left; f_equal].
  destruct (Byte.eqb c x80) eqn:Ec; cbn [andb]; [|by left; f_equal].
  destruct (Byte.eqb d xa8 || Byte.eqb d xa9) eqn:Ed; [|by left; f_equal].
  apply Byte.byte_dec_bl in Eb as ->, Ec as ->. right.
  assert (k = 1%nat) as ->.
  { unfold rune_size in Hs. cbn in Hs. destruct (cont d); [by injection Hs|done]. }
  destruct cs as [|d' [|]]; try done. cbn in Er. injection Er as -> ->. exists d.
  split_and!; [done|done|..|done].
  apply orb_true_iff in Ed as [Ed|Ed]; apply Byte.byte_dec_bl in Ed; auto.
Qed.

Lemma unquote_separator d t : d = xa8 \/ d = xa9 ->
  unquote None 0 (lit "\u202" ++ [byteOf (byteZ d - 112)] ++ t) = prepend [xe2; x80; d] (unquote None 0 t).
Proof. by intros [-> | ->]. Qed.

Lemma unquote_quote_aux n : forall s r, (length s <= n)%nat ->
  unquote None 0 (quote_body 0 s ++ x22 :: r) = Some (coerce 0 s, r).
Proof.
  induction n as [|n IH]; intros [|b s] r Hn; cbn [length] in Hn; try done; [lia|].
  destruct (rune_size (b :: s)) as [|[|k]] eqn:Es.
  - cbn [quote_body coerce]. rewrite Es. cbn [lit]. rewrite <- app_assoc.
    change (unquote None 0 (lit "\ufffd" ++ ?t)) with (prepend replacement (unquote None 0 t)).
    rewrite IH by lia. done.
  - cbn [quote_body coerce]. rewrite Es.
    assert (Hb : byteZ b < 128).
    { unfold rune_size in Es. destruct (byteZ b <? 128) eqn:E; breflect; [done|]. exfalso.
      revert Es. repeat case_match; done. }
    rewrite <- app_assoc, unquote_escape, IH by (done || lia). done.
  - destruct (rune_size_multi _ _ _ Es) as (Hb & cs & r' & -> & Hlen & Hs).
    rewrite length_app in Hn. cbn [coerce]. rewrite Es, coerce_rest by done.
    destruct (quote_body_multi b cs k r' Hlen Es) as [->|(d & -> & -> & Hd & ->)].
    + cbn [app]. rewrite <- app_assoc, (unquote_multi b cs k), IH by (done || lia || apply Hs). done.
    + change (xe2 :: [x80; d] ++ coerce 0 r') with ([xe2; x80; d] ++ coerce 0 r').
      rewrite <- !app_assoc, unquote_separator, IH by (done || lia). done.
Qed.

(** What [Marshal] writes, [Unmarshal] reads, as far as it is UTF-8. *)
Lemma lex_string_quote s r : lex_string (quote_body 0 s ++ x22 :: r) = Some (coerce 0 s, r).
Proof. by eapply unquote_quote_aux. Qed.

Lemma value_quote fuel s r :
  value (S fuel) (quote s ++ r) = Some (JStr (coerce 0 s), r).
Proof.
  unfold quote. rewrite value_S. cbn [app skip_ws is_space]. rewrite first_token_quote, <- app_assoc.
  cbn [app]. by rewrite lex_string_quote.
Qed.

(** Replacing twice changes nothing more. *)
Lemma coerce_idemp n : forall s, (length s <= n)%nat -> coerce 0 (coerce 0 s) = coerce 0 s.
Proof.
  induction n as [|n IH]; intros [|b s] Hn; cbn [length] in Hn; try done; [lia|].
  destruct (rune_size (b :: s)) as [|[|k]] eqn:Es; cbn [coerce]; rewrite Es.
  - change (coerce 0 (replacement ++ ?t)) with (replacement ++ coerce 0 t). by rewrite IH by lia.
  - assert (Hb : byteZ b < 128).
    { unfold rune_size in Es. destruct (byteZ b <? 128) eqn:E; breflect; [done|]. exfalso.
      revert Es. repeat case_match; done. }
    cbn [coerce]. by rewrite rune_size_ascii, IH by (done || lia).
  - destruct (rune_size_multi _ _ _ Es) as (_ & cs & r' & -> & Hlen & Hs).
    rewrite length_app in Hn. rewrite coerce_rest by done. cbn [coerce].
    by rewrite Hs, coerce_rest, IH by (done || lia).
Qed.

Lemma coerce_ascii s : Forall (fun b => byteZ b < 128) s -> coerce 0 s = s.
Proof. induction 1 as [|b s Hb _ IH]; [done|]. cbn [coerce]. by rewrite rune_size_ascii, IH. Qed.

Lemma parseUint_appendUint n : 0 <= n <= max_uint64 ->
  parseUint (appendUint n) = Some n /\ numeral n (appendUint n).
Proof.
  intros Hn. unfold max_uint64 in Hn. destruct (digits_spec 20 n []) as (ds & E & Hnu & _); [lia|lia|].
  unfold appendUint. rewrite E, app_nil_r. split; [|done]. destruct Hnu as [H1 H2 _ H4].
  unfold parseUint. rewrite H1, H2. destruct ds; [done|]. cbn [length Nat.eqb negb andb].
  by rewrite (proj2 (Z.leb_le _ _)) by (unfold max_uint64; lia).
Qed.

(** ** Members of an object, and strings *)

(** A Go string and its bytes. *)
Definition bytes (s : string) : text := String.list_byte_of_string s.
Definition str (l : text) : string := String.string_of_list_byte l.

(** The string that comes out at the other end. *)
Definition coerceS (s : string) : string := str (coerce 0 (bytes s)).

Definition member (k : string) (v : text) : text := quoted (lit k) ++ colon ++ v.

(** Storing a string in a field; [null] leaves it as it is, and [None] is an
    error of [Unmarshal]. *)
Definition setString (v : json) (old : string) : option string :=
  match v with JNull => Some old | JStr s => Some (str s) | _ => None end.

Lemma members_more k fuel ds v l : forallb plain (lit k) = true ->
  value (S fuel) (ds ++ comma ++ l) = Some (v, comma ++ l) ->
  members (S (S fuel)) (member k ds ++ comma ++ l) =
    '(ms, r) ← members (S fuel) l; Some ((lit k, v) :: ms, r).
Proof.
  intros Hk Hv. unfold member. rewrite <- !app_assoc, members_key by done. rewrite Hv. done.
Qed.

Lemma members_last k fuel ds v : forallb plain (lit k) = true ->
  value (S fuel) (ds ++ [x7d]) = Some (v, [x7d]) ->
  members (S (S fuel)) (member k ds ++ [x7d]) = Some ([(lit k, v)], []).
Proof.
  intros Hk Hv. unfold member. rewrite <- !app_assoc, members_key by done. rewrite Hv. done.
Qed.

(** Compare the names of the fields. *)
Ltac keys :=
  repeat match goal with
  | |- context [key_is ?a ?b] => let v := eval vm_compute in (key_is a b) in change (key_is a b) with v
  end.

Lemma coerceS_idemp s : coerceS (coerceS s) = coerceS s.
Proof.
  unfold coerceS, bytes, str. rewrite String.list_byte_of_string_of_list_byte.
  by rewrite (coerce_idemp (length (String.list_byte_of_string s))).
Qed.

(** Plain text arrives unchanged. *)
Lemma coerceS_ascii s : Forall (fun b => byteZ b < 128) (bytes s) -> coerceS s = s.
Proof. intros Hs. unfold coerceS. rewrite coerce_ascii by done. apply String.string_of_list_byte_of_string. Qed.

Example coerceS_latin1 : coerceS (str [x63; x61; x66; xe9]) = str [x63; x61; x66; xef; xbf; xbd].
Proof. reflexivity. Qed.

End Json.
