(* ===== verification/GoFlag.v ===== *)
(** * GoFlag: what the command-line programs use of the Go library

    [flag.Arg] and [flag.NArg], [fmt.Println], [strings.Split], and
    [strconv.Itoa]; and the table of commands that the programs share. *)
From Stdlib Require Import Strings.Ascii.
From S2P Require Import Prelude GoJson.
Open Scope Z_scope.

(** The arguments after the flags; beyond the last there is the empty string. *)
Definition Arg (i : nat) (args : list string) : string := nth i args "".
Definition NArg (args : list string) : nat := length args.

(** [fmt.Println]: the operands with spaces between them. *)
Definition Println (l : list string) : string := String.concat " " l.

(** [strconv.Itoa], the text of an [int]. *)
Definition Itoa (n : Z) : string := Json.str (Json.appendInt n).

(** How [fmt] prints a boolean and a slice of strings. *)
Definition fmt_bool (b : bool) : string := if b then "true" else "false".
Definition fmt_strings (l : list string) : string := "[" +:+ String.concat " " l +:+ "]".

(** [strings.Split] by a one-character separator. *)
Fixpoint Split (sep : ascii) (s : string) : list string :=
  match s with
  | EmptyString => [""]
  | String a s' =>
      if Ascii.eqb a sep then "" :: Split sep s'
      else match Split sep s' with [] => [] | x :: l => String a x :: l end
  end.

(** The pieces, joined by the separator, are the string. *)
Lemma concat_Split sep s : String.concat (String sep "") (Split sep s) = s /\ Split sep s <> [].
Proof.
  induction s as [|a s [IH Hne]]; [done|]. cbn [Split].
  destruct (Ascii.eqb_spec a sep) as [->|Ha].
  - split; [|done]. destruct (Split sep s) as [|x l] eqn:E; [done|].
    change (String.concat (String sep "") ("" :: x :: l)) with (String sep (String.concat (String sep "") (x :: l))).
    by rewrite IH.
  - destruct (Split sep s) as [|x l]; [done|]. split; [|done]. rewrite <- IH. by destruct l.
Qed.

(** No piece holds the separator. *)
Lemma Split_pieces sep s x : x ∈ Split sep s -> forall i, String.get i x <> Some sep.
Proof.
  revert x. induction s as [|a s IH]; intros x; cbn [Split].
  - intros ->%list_elem_of_singleton i. by destruct i.
  - destruct (Ascii.eqb_spec a sep) as [->|Ha].
    + intros [->|Hx]%elem_of_cons; [by intros []|by apply IH].
    + destruct (Split sep s) as [|y l]; [by intros ?%elem_of_nil|].
      intros [->|Hx]%elem_of_cons; [|apply IH; by right].
      intros [|i]; cbn; [congruence|apply IH; by left].
Qed.

(** ** The table of commands: the word, the name reported, the operands *)

Record cmdInfo := mkCmdInfo { cmdline : string; funcname : string; nargs : nat }.

(** The loop that fills [cmdmap]. *)
Definition commands (l : list cmdInfo) : gmap string cmdInfo := list_to_map ((fun j => (cmdline j, j)) <$> l).

Lemma commands_unknown cmd l : cmd ∉ (cmdline <$> l) -> commands l !! cmd = None.
Proof. intros Hcmd. apply not_elem_of_list_to_map_1. by rewrite <- list_fmap_compose. Qed.

(** The entry of a command that is known. *)
Ltac look_up_command :=
  match goal with
  | |- context [commands ?l !! ?c] => let ci := eval vm_compute in (commands l !! c) in change (commands l !! c) with ci
  end.

(** Case analysis on a command, one case for each word it is compared with. *)
Ltac by_command cmd :=
  repeat match goal with
  | |- context [String.eqb cmd ?x] => destruct (String.eqb_spec cmd x) as [->|?]
  end.

Example Split_peers : Split "," "a:1,b:2,,c:3" = ["a:1"; "b:2"; ""; "c:3"].
Proof. reflexivity. Qed.
Example Split_empty : Split "," "" = [""].
Proof. reflexivity. Qed.
