(* ===== verification/GoTime.v ===== *)
(** * GoTime: dates and times of the Go library

    - [Module Calendar]: the days of the calendar a date stands for (without
      gaps, in both directions), and [time.Parse] for the layout ["2006.1.2"]
      of the flight clients (what is accepted is a date; printing and parsing
      round-trip).
    - [Module Rfc3339]: the text a [time.Time] has in JSON, in the zone of the
      machine that writes it, and its parser. *)
From Stdlib Require Import Strings.Byte.
From S2P Require Import Prelude GoJson.
Open Scope Z_scope.

Module Calendar.
Import Json.

(** ** Days *)

Record date := mkDate { year : Z; month : Z; day : Z }.

Definition isLeap (y : Z) : bool :=
  (y `mod` 4 =? 0) && (negb (y `mod` 100 =? 0) || (y `mod` 400 =? 0)).

Definition daysIn (y m : Z) : Z :=
  if m =? 2 then (if isLeap y then 29 else 28)
  else if (m =? 4) || (m =? 6) || (m =? 9) || (m =? 11) then 30 else 31.

Definition valid (d : date) : Prop :=
  0 <= year d <= 9999 /\ 1 <= month d <= 12 /\ 1 <= day d <= daysIn (year d) (month d).

(** The leap years before year [y] (of the proleptic calendar). *)
Definition leapsBefore (y : Z) : Z := (y - 1) / 4 - (y - 1) / 100 + (y - 1) / 400.

(** The days of the months before month [m]. *)
Definition daysBefore (y m : Z) : Z :=
  foldl Z.add 0 (daysIn y <$> seqZ 1 (m - 1)).

(** Days since January 1, 1970. *)
Definition dayNumber (d : date) : Z :=
  365 * (year d - 1970) + leapsBefore (year d) - leapsBefore 1970 +
  daysBefore (year d) (month d) + day d - 1.

(** The start of a day. *)
Definition instant (d : date) : Z := dayNumber d * oneDay.

(** The day after. *)
Definition nextDate (d : date) : date :=
  if day d <? daysIn (year d) (month d) then mkDate (year d) (month d) (day d + 1)
  else if month d <? 12 then mkDate (year d) (month d + 1) 1
  else mkDate (year d + 1) 1 1.

Example dayNumber_epoch : dayNumber (mkDate 1970 1 1) = 0.
Proof. reflexivity. Qed.
Example dayNumber_2014 : dayNumber (mkDate 2014 6 1) = 16222.
Proof. reflexivity. Qed.

Lemma div_step y k : 0 < k -> y / k - (y - 1) / k = if y `mod` k =? 0 then 1 else 0.
Proof.
  intros Hk. pose proof (Z.div_mod y k ltac:(lia)) as E. pose proof (Z.mod_pos_bound y k Hk).
  destruct (y `mod` k =? 0) eqn:Em; breflect.
  - assert ((y - 1) / k = y / k - 1); [|lia]. symmetry. apply (Z.div_unique_pos _ _ _ (k - 1)); lia.
  - assert ((y - 1) / k = y / k); [|lia]. symmetry. apply (Z.div_unique_pos _ _ _ (y `mod` k - 1)); lia.
Qed.

Lemma mod_multiple y a b : 0 < a -> 0 < b -> y `mod` (a * b) = 0 -> y `mod` a = 0.
Proof.
  intros Ha Hb H. apply Z.mod_divide in H as [q ->]; [|lia].
  replace (q * (a * b)) with ((q * b) * a) by ring. apply Z.mod_mul. lia.
Qed.

Lemma leap_step y : leapsBefore (y + 1) - leapsBefore y = if isLeap y then 1 else 0.
Proof.
  unfold leapsBefore, isLeap. replace (y + 1 - 1) with y by lia.
  pose proof (div_step y 4 ltac:(lia)). pose proof (div_step y 100 ltac:(lia)).
  pose proof (div_step y 400 ltac:(lia)).
  pose proof (mod_multiple y 4 25 ltac:(lia) ltac:(lia)) as Hm4.
  pose proof (mod_multiple y 100 4 ltac:(lia) ltac:(lia)) as Hm100. cbn [Z.mul Pos.mul Pos.add] in Hm4, Hm100.
  destruct (y `mod` 4 =? 0) eqn:E4, (y `mod` 100 =? 0) eqn:E1, (y `mod` 400 =? 0) eqn:E0;
    cbn [andb orb negb]; breflect; try lia; exfalso; eauto.
Qed.

Lemma daysIn_pos y m : 28 <= daysIn y m <= 31.
Proof. unfold daysIn. repeat case_match; lia. Qed.

Lemma daysBefore_step y m : 1 <= m -> daysBefore y (m + 1) = daysBefore y m + daysIn y m.
Proof.
  intros Hm. unfold daysBefore. replace (m + 1 - 1) with ((m - 1) + 1) by lia.
  rewrite seqZ_app by lia. rewrite fmap_app, foldl_app.
  by replace (1 + (m - 1)) with m by lia.
Qed.

Lemma daysBefore_year y : daysBefore y 12 + daysIn y 12 = if isLeap y then 366 else 365.
Proof. unfold daysBefore, daysIn. cbn. destruct (isLeap y); reflexivity. Qed.

(** The calendar has no gaps. *)
Lemma dayNumber_next d : 1 <= month d <= 12 -> 1 <= day d <= daysIn (year d) (month d) ->
  dayNumber (nextDate d) = dayNumber d + 1.
Proof.
  intros Hm Hd. unfold dayNumber, nextDate. destruct d as [y m d]. cbn [year month day] in *.
  destruct (d <? daysIn y m) eqn:E1; breflect; cbn [year month day]; [lia|].
  destruct (m <? 12) eqn:E2; breflect; cbn [year month day].
  - rewrite daysBefore_step by lia. lia.
  - assert (m = 12) as -> by lia.
    pose proof (leap_step y). pose proof (daysBefore_year y).
    change (daysBefore (y + 1) 1) with 0. destruct (isLeap y); lia.
Qed.

Lemma nextDate_valid d : valid d -> dayNumber d < dayNumber (mkDate 9999 12 31) -> valid (nextDate d).
Proof.
  intros (Hy & Hm & Hd) Hlt. unfold valid, nextDate. destruct d as [y m d]. cbn [year month day] in *.
  destruct (d <? daysIn y m) eqn:E1; breflect; cbn [year month day]; [lia|].
  destruct (m <? 12) eqn:E2; breflect; cbn [year month day].
  - pose proof (daysIn_pos y (m + 1)). lia.
  - assert (m = 12) as -> by lia. pose proof (daysIn_pos (y + 1) 1).
    assert (y <> 9999); [|lia]. intros ->. assert (d = daysIn 9999 12) as -> by lia.
    change (daysIn 9999 12) with 31 in Hlt. lia.
Qed.

Lemma daysBefore_bound y m : 1 <= m <= 12 -> 0 <= daysBefore y m /\
  daysBefore y m + daysIn y m <= if isLeap y then 366 else 365.
Proof.
  intros Hm. unfold daysBefore, daysIn.
  assert (m = 1 \/ m = 2 \/ m = 3 \/ m = 4 \/ m = 5 \/ m = 6 \/ m = 7 \/ m = 8 \/ m = 9 \/
          m = 10 \/ m = 11 \/ m = 12) as Hc by lia.
  decompose [or] Hc; subst; destruct (isLeap y); vm_compute; split; discriminate.
Qed.

Lemma daysBefore_mono y m m' : 1 <= m -> m < m' -> daysBefore y m + daysIn y m <= daysBefore y m'.
Proof.
  intros Hm Hlt. assert (Hk : exists k, 0 <= k /\ m' = m + 1 + k) by (exists (m' - m - 1); lia).
  destruct Hk as (k & Hk & ->). clear Hlt. pattern k. revert k Hk. apply natlike_ind.
  - rewrite Z.add_0_r, daysBefore_step by lia. lia.
  - intros k Hk IH. replace (m + 1 + Z.succ k) with ((m + 1 + k) + 1) by lia.
    rewrite daysBefore_step by lia. pose proof (daysIn_pos y (m + 1 + k)). lia.
Qed.

Lemma yearStart_mono y y' : y < y' ->
  365 * y + leapsBefore y + (if isLeap y then 366 else 365) <= 365 * y' + leapsBefore y'.
Proof.
  intros Hlt. assert (Hk : exists k, 0 <= k /\ y' = y + 1 + k) by (exists (y' - y - 1); lia).
  destruct Hk as (k & Hk & ->). clear Hlt. pattern k. revert k Hk. apply natlike_ind.
  - rewrite Z.add_0_r. pose proof (leap_step y). destruct (isLeap y); lia.
  - intros k Hk IH. replace (y + 1 + Z.succ k) with ((y + 1 + k) + 1) by lia.
    pose proof (leap_step (y + 1 + k)). destruct (isLeap (y + 1 + k)); lia.
Qed.

(** Different dates are different days. *)
Lemma dayNumber_inj d d' : valid d -> valid d' -> dayNumber d = dayNumber d' -> d = d'.
Proof.
  destruct d as [y m d], d' as [y' m' d']. unfold valid, dayNumber. cbn [year month day].
  intros (Hy & Hm & Hd) (Hy' & Hm' & Hd') E.
  pose proof (daysBefore_bound y m Hm) as [? Hb]. pose proof (daysBefore_bound y' m' Hm') as [? Hb'].
  destruct (Z.lt_trichotomy y y') as [Hlt|[->|Hlt]].
  - pose proof (yearStart_mono _ _ Hlt). lia.
  - destruct (Z.lt_trichotomy m m') as [Hlt|[->|Hlt]].
    + pose proof (daysBefore_mono y' m m' ltac:(lia) Hlt). lia.
    + f_equal. lia.
    + pose proof (daysBefore_mono y' m' m ltac:(lia) Hlt). lia.
  - pose proof (yearStart_mono _ _ Hlt). lia.
Qed.

(** Every day from a date to another is a date. *)
Lemma day_between d d' n : valid d -> valid d' -> dayNumber d <= n <= dayNumber d' ->
  exists d'', valid d'' /\ dayNumber d'' = n.
Proof.
  intros Hd Hd' Hn. assert (Hmax : dayNumber d' <= dayNumber (mkDate 9999 12 31)).
  { clear -Hd'. destruct d' as [y m d]. destruct Hd' as (Hy & Hm & Hd). unfold dayNumber.
    cbn [year month day] in *. pose proof (daysBefore_bound y m Hm) as [_ Hb].
    change (daysBefore 9999 12) with 334.
    destruct (decide (y = 9999)) as [->|Hne]; [change (isLeap 9999) with false in Hb; cbn iota in Hb; lia|].
    pose proof (yearStart_mono y 9999 ltac:(lia)). lia. }
  assert (Hk : exists k, 0 <= k /\ n = dayNumber d + k) by (exists (n - dayNumber d); lia).
  destruct Hk as (k & Hk & ->). assert (Hle : dayNumber d + k <= dayNumber d') by lia. clear Hn.
  revert Hle. pattern k. revert k Hk. apply natlike_ind.
  - intros _. exists d. split; [done|lia].
  - intros k Hk IH Hle. destruct IH as (d1 & Hv & E); [lia|]. exists (nextDate d1). split.
    + apply nextDate_valid; [done|lia].
    + destruct Hv as (_ & ? & ?). rewrite dayNumber_next by done. lia.
Qed.

(** ** Texts *)

Definition is_digit_at (i : nat) (l : text) : bool :=
  match l !! i with Some b => is_digit b | None => false end.

(** [getnum(s, false)]: one digit, or two when a digit follows. *)
Definition getnum (l : text) : option (Z * text) :=
  match l with
  | a :: l' =>
      if is_digit a then
        match l' with
        | b :: l'' =>
            if is_digit b then Some ((byteZ a - 48) * 10 + (byteZ b - 48), l'')
            else Some (byteZ a - 48, l')
        | [] => Some (byteZ a - 48, [])
        end
      else None
  | [] => None
  end.

(** The year: four digits. *)
Definition getyear (l : text) : option (Z * text) :=
  let p := take 4 l in
  if Nat.eqb (length p) 4 && forallb is_digit p then Some (digits_value p, drop 4 l) else None.

(** [time.Parse(shortForm, _)] of the Go library: a year of four digits, a
    month and a day of one or two digits, in range, and nothing after them. *)
Definition parseDate (s : string) : option date :=
  '(y, l) ← getyear (lit s);
  l ← eat x2e l;
  '(m, l) ← getnum l;
  if (m <=? 0) || (12 <? m) then None
  else
    l ← eat x2e l;
    '(d, l) ← getnum l;
    match l with
    | _ :: _ => None
    | [] => if (d <? 1) || (daysIn y m <? d) then None else Some (mkDate y m d)
    end.

Definition parse (s : string) : option Z := instant <$> parseDate s.

(** [Format(shortForm)] of a date. *)
Definition num (n : Z) : text := if n <? 10 then [digit n] else [digit (n / 10); digit (n `mod` 10)].
Definition formatDate (d : date) : string :=
  String.string_of_list_byte
    ([digit (year d / 1000); digit ((year d / 100) `mod` 10); digit ((year d / 10) `mod` 10);
      digit (year d `mod` 10)] ++ x2e :: num (month d) ++ x2e :: num (day d)).

Lemma digits_value_bound l : forallb is_digit l = true ->
  0 <= digits_value l < 10 ^ Z.of_nat (length l).
Proof.
  induction l as [|b l IH] using rev_ind; [done|]. rewrite forallb_app, digits_value_snoc, length_app.
  intros [Hl Hb]%andb_true_iff. cbn in Hb. rewrite andb_true_r in Hb. specialize (IH Hl).
  unfold is_digit in Hb. apply andb_true_iff in Hb as [? ?]. breflect. cbn [length].
  replace (Z.of_nat (length l + 1)) with (Z.succ (Z.of_nat (length l))) by lia.
  rewrite Z.pow_succ_r by lia. lia.
Qed.

(** What is accepted is a date of the calendar. *)
Lemma parseDate_valid s d : parseDate s = Some d -> valid d.
Proof.
  unfold parseDate, getyear. destruct (_ && _) eqn:Ey; [|done]. apply andb_true_iff in Ey as [Hlen Hdig].
  apply Nat.eqb_eq in Hlen. cbn -[Z.leb Z.ltb daysIn getnum].
  pose proof (digits_value_bound _ Hdig) as Hb. rewrite Hlen in Hb. change (10 ^ Z.of_nat 4) with 10000 in Hb.
  destruct (eat x2e _) as [l1|]; [|done]. cbn -[Z.leb Z.ltb daysIn getnum].
  destruct (getnum l1) as [[m l2]|]; [|done]. cbn -[Z.leb Z.ltb daysIn getnum].
  destruct (m <=? 0) eqn:E1; [done|]. destruct (12 <? m) eqn:E2; [done|]. cbn -[Z.leb Z.ltb daysIn getnum].
  destruct (eat x2e _) as [l3|]; [|done]. cbn -[Z.leb Z.ltb daysIn getnum].
  destruct (getnum l3) as [[d' [|]]|]; [|done..]. cbn -[Z.leb Z.ltb daysIn getnum].
  destruct (d' <? 1) eqn:E3; [done|]. destruct (daysIn _ m <? d') eqn:E4; [done|].
  intros [= <-]. breflect. unfold valid. cbn [year month day]. split; [lia|]. split; lia.
Qed.

Lemma getnum_num n l : 0 <= n < 100 -> (forall b r, l = b :: r -> is_digit b = false) ->
  getnum (num n ++ l) = Some (n, l).
Proof.
  intros Hn Hl. unfold num. destruct (n <? 10) eqn:E; breflect; cbn [app getnum].
  - destruct (digit_ok n ltac:(lia)) as [-> Hv]. rewrite Hv. replace (48 + n - 48) with n by lia.
    destruct l as [|b r]; [done|]. by rewrite (Hl b r eq_refl).
  - assert (0 <= n / 10 < 10) by (split; [apply Z.div_pos; lia|apply Z.div_lt_upper_bound; lia]).
    destruct (digit_ok (n / 10) ltac:(lia)) as [-> Hv].
    pose proof (Z.mod_pos_bound n 10 ltac:(lia)). destruct (digit_ok (n `mod` 10) ltac:(lia)) as [-> Hw].
    rewrite Hv, Hw. do 2 f_equal. pose proof (Z.div_mod n 10). lia.
Qed.

Lemma getyear_digits y l : 0 <= y <= 9999 ->
  getyear ([digit (y / 1000); digit ((y / 100) `mod` 10); digit ((y / 10) `mod` 10); digit (y `mod` 10)] ++ l)
    = Some (y, l).
Proof.
  intros Hy. unfold getyear. cbn [app take drop length Nat.eqb andb forallb].
  assert (0 <= y / 1000 < 10) by (split; [apply Z.div_pos; lia|apply Z.div_lt_upper_bound; lia]).
  pose proof (Z.mod_pos_bound (y / 100) 10 ltac:(lia)). pose proof (Z.mod_pos_bound (y / 10) 10 ltac:(lia)).
  pose proof (Z.mod_pos_bound y 10 ltac:(lia)).
  destruct (digit_ok (y / 1000) ltac:(lia)) as [-> Ha].
  destruct (digit_ok ((y / 100) `mod` 10) ltac:(lia)) as [-> Hb].
  destruct (digit_ok ((y / 10) `mod` 10) ltac:(lia)) as [-> Hc].
  destruct (digit_ok (y `mod` 10) ltac:(lia)) as [-> Hd]. cbn [andb].
  do 2 f_equal. unfold digits_value. rewrite take_0. cbn [foldl]. rewrite Ha, Hb, Hc, Hd.
  pose proof (Z.div_mod y 10 ltac:(lia)) as E1. pose proof (Z.div_mod (y / 10) 10 ltac:(lia)) as E2.
  pose proof (Z.div_mod (y / 100) 10 ltac:(lia)) as E3.
  rewrite Z.div_div in E2 by lia. rewrite Z.div_div in E3 by lia.
  change (10 * 10) with 100 in E2. change (100 * 10) with 1000 in E3. lia.
Qed.

(** Printing a date and reading it back. *)
Lemma parseDate_formatDate d : valid d -> parseDate (formatDate d) = Some d.
Proof.
  intros (Hy & Hm & Hd). pose proof (daysIn_pos (year d) (month d)) as Hb.
  unfold parseDate, formatDate, lit. rewrite String.list_byte_of_string_of_list_byte.
  rewrite getyear_digits by done. cbn -[Z.leb Z.ltb daysIn getnum num].
  rewrite getnum_num by (lia || intros b r [= <- _]; done). cbn -[Z.leb Z.ltb daysIn getnum num].
  rewrite (proj2 (Z.leb_gt (month d) 0)), (proj2 (Z.ltb_ge 12 (month d))) by lia.
  cbn -[Z.leb Z.ltb daysIn getnum num].
  rewrite <- (app_nil_r (num (day d))), getnum_num by (lia || done). cbn -[Z.leb Z.ltb daysIn getnum num].
  rewrite (proj2 (Z.ltb_ge (day d) 1)), (proj2 (Z.ltb_ge (daysIn (year d) (month d)) (day d))) by lia.
  by destruct d.
Qed.

Example parse_short : parse "2014.6.1" = Some (16222 * oneDay).
Proof. vm_compute. reflexivity. Qed.
Example parse_padded : parse "2014.06.01" = Some (16222 * oneDay).
Proof. vm_compute. reflexivity. Qed.
Example parse_range : parse "2014.2.29" = None /\ parse "2014.13.1" = None /\ parse "2014.6.1 " = None.
Proof. vm_compute. auto. Qed.
(** The format the usage texts of the runners announce is not accepted. *)
Example parse_dashes : parse "2014-06-01" = None.
Proof. vm_compute. reflexivity. Qed.

End Calendar.

Module Rfc3339.
Import Json Calendar.

(** ** The date of a day *)

(** The first day of a year. *)
Definition yearStart (y : Z) : Z := 365 * (y - 1970) + leapsBefore y - leapsBefore 1970.

Fixpoint findYear (fuel : nat) (y n : Z) : Z :=
  match fuel with
  | O => y
  | S fuel' => if yearStart (y + 1) <=? n then findYear fuel' (y + 1) n else y
  end.

(** The month and the day of the month of day [n] of a year, from month [m] on. *)
Fixpoint findMonth (fuel : nat) (y m n : Z) : Z * Z :=
  match fuel with
  | O => (m, n + 1)
  | S fuel' => if daysIn y m <=? n then findMonth fuel' y (m + 1) (n - daysIn y m) else (m, n + 1)
  end.

(** The date of day [n], for the years 0 to 9999. *)
Definition dateOf (n : Z) : date :=
  let y := findYear (Z.to_nat 9999) 0 n in
  let '(m, d) := findMonth 11 y 1 (n - yearStart y) in mkDate y m d.

Definition in_years (n : Z) : Prop := yearStart 0 <= n < yearStart 10000.

Lemma findYear_spec n fuel : forall y, y + Z.of_nat fuel = 9999 -> yearStart y <= n < yearStart 10000 ->
  y <= findYear fuel y n <= 9999 /\ yearStart (findYear fuel y n) <= n < yearStart (findYear fuel y n + 1).
Proof.
  induction fuel as [|fuel IH]; intros y Hy Hn; cbn [findYear].
  - replace y with 9999 in * by lia. change (9999 + 1) with 10000. lia.
  - destruct (yearStart (y + 1) <=? n) eqn:E; breflect; [|lia].
    destruct (IH (y + 1)) as [? ?]; lia.
Qed.

Lemma findMonth_spec y fuel : forall m n, m + Z.of_nat fuel = 12 -> 1 <= m -> 0 <= n ->
  daysBefore y m + n < daysBefore y 13 ->
  let '(m', d) := findMonth fuel y m n in
  m <= m' <= 12 /\ 1 <= d <= daysIn y m' /\ daysBefore y m' + d - 1 = daysBefore y m + n.
Proof.
  assert (Hlast : daysBefore y 13 = daysBefore y 12 + daysIn y 12) by (apply (daysBefore_step y 12); lia).
  induction fuel as [|fuel IH]; intros m n Hm H1 Hn Hlt; cbn [findMonth].
  - replace m with 12 in * by lia. lia.
  - pose proof (daysBefore_step y m H1) as Hs.
    destruct (daysIn y m <=? n) eqn:E; breflect; [|lia].
    specialize (IH (m + 1) (n - daysIn y m)). destruct (findMonth fuel y (m + 1) (n - daysIn y m)) as [m' d].
    destruct IH as (? & ? & ?); lia.
Qed.

Lemma dateOf_spec n : in_years n -> valid (dateOf n) /\ dayNumber (dateOf n) = n.
Proof.
  intros Hn. unfold dateOf. pose proof (findYear_spec n (Z.to_nat 9999) 0 eq_refl Hn) as [Hy Hyn].
  set (y := findYear _ 0 n) in *. clearbody y.
  assert (Hlen : yearStart (y + 1) = yearStart y + daysBefore y 13).
  { unfold yearStart. pose proof (leap_step y). pose proof (daysBefore_year y) as Hd.
    rewrite <- (daysBefore_step y 12) in Hd by lia. change (12 + 1) with 13 in Hd. destruct (isLeap y); lia. }
  pose proof (findMonth_spec y 11 1 (n - yearStart y) eq_refl ltac:(lia) ltac:(lia)) as Hf.
  change (daysBefore y 1) with 0 in Hf. destruct (findMonth 11 y 1 (n - yearStart y)) as [m d].
  destruct Hf as (Hm & Hd & E); [lia|]. split; [unfold valid; cbn [year month day]; lia|].
  unfold dayNumber. cbn [year month day]. unfold yearStart in *. lia.
Qed.

Lemma valid_in_years d : valid d -> in_years (dayNumber d).
Proof.
  intros (Hy & Hm & Hd). destruct (daysBefore_bound (year d) (month d) Hm) as [Hb Hb'].
  pose proof (yearStart_mono (year d) 10000 ltac:(lia)).
  assert (year d = 0 \/ 0 < year d) as [E|Hlt] by lia.
  - unfold in_years, dayNumber, yearStart. rewrite E in *. destruct (isLeap 0); lia.
  - pose proof (yearStart_mono 0 (year d) Hlt). change (isLeap 0) with true in *.
    unfold in_years, dayNumber, yearStart. destruct (isLeap (year d)); lia.
Qed.

Lemma dateOf_dayNumber d : valid d -> dateOf (dayNumber d) = d.
Proof.
  intros Hd. destruct (dateOf_spec (dayNumber d) (valid_in_years d Hd)) as [Hv E]. by apply dayNumber_inj.
Qed.

(** ** The text *)

Definition two (n : Z) : text := [digit (n / 10); digit (n `mod` 10)].
Definition four (n : Z) : text :=
  [digit (n / 1000); digit ((n / 100) `mod` 10); digit ((n / 10) `mod` 10); digit (n `mod` 10)].

(** [n] with [k] digits. *)
Fixpoint fixed (k : nat) (n : Z) : text :=
  match k with
  | O => []
  | S k' => fixed k' (n / 10) ++ [digit (n `mod` 10)]
  end.

Fixpoint drop_zeros (l : text) : text :=
  match l with
  | b :: l' => if Byte.eqb b x30 then drop_zeros l' else l
  | [] => []
  end.

(** The fraction of a second, without zeros at its end. *)
Definition fraction (ns : Z) : text :=
  match rev (drop_zeros (rev (fixed 9 ns))) with
  | [] => []
  | l => x2e :: l
  end.

(** The zone [off] minutes east of Greenwich. *)
Definition zone (off : Z) : text :=
  if off =? 0 then [x5a]
  else (if off <? 0 then x2d else x2b) :: two (Z.abs off / 60) ++ x3a :: two (Z.abs off `mod` 60).

(** [Format(time.RFC3339Nano)] of a [time.Time] in the zone [off]. *)
Definition format (off t : Z) : text :=
  let s := t / 10 ^ 9 + off * 60 in
  let d := dateOf (s / 86400) in
  let c := s `mod` 86400 in
  four (year d) ++ x2d :: two (month d) ++ x2d :: two (day d) ++ x54 ::
  two (c / 3600) ++ x3a :: two ((c / 60) `mod` 60) ++ x3a :: two (c `mod` 60) ++
  fraction (t `mod` 10 ^ 9) ++ zone off.

(** [getnum(s, true)]: two digits. *)
Definition get2 (l : text) : option (Z * text) :=
  match l with
  | a :: b :: l' =>
      if is_digit a && is_digit b then Some ((byteZ a - 48) * 10 + (byteZ b - 48), l') else None
  | _ => None
  end.

(** A point and digits, if they follow. *)
Definition getfraction (l : text) : option (Z * text) :=
  match eat x2e l with
  | Some l' =>
      match span_digits l' with
      | ([], _) => Some (0, l)
      | (ds, r) =>
          if digits_value ds <? 10 ^ 9
          then Some (digits_value ds * 10 ^ Z.max 0 (9 - Z.of_nat (length ds)), r) else None
      end
  | None => Some (0, l)
  end.

(** The minutes of the zone, which is the end of the text. *)
Definition getzone (l : text) : option Z :=
  match l with
  | [] => None
  | sign :: l =>
      '(off, l) ←
        (if Byte.eqb sign x5a then Some (0, l)
         else
           s ← (if Byte.eqb sign x2b then Some 1 else if Byte.eqb sign x2d then Some (-1) else None);
           '(h, l) ← get2 l;
           l ← eat x3a l;
           '(m, l) ← get2 l;
           Some (s * (h * 60 + m), l));
      match l with [] => Some off | _ => None end
  end.

Definition within (lo hi n : Z) : option unit := if (lo <=? n) && (n <=? hi) then Some tt else None.

(** [time.Parse(time.RFC3339, _)]. *)
Definition parse (l : text) : option Z :=
  '(y, l) ← getyear l;
  l ← eat x2d l;
  '(mo, l) ← get2 l;
  _ ← within 1 12 mo;
  l ← eat x2d l;
  '(d, l) ← get2 l;
  l ← eat x54 l;
  '(h, l) ← getnum l;
  _ ← within 0 23 h;
  l ← eat x3a l;
  '(mi, l) ← get2 l;
  _ ← within 0 59 mi;
  l ← eat x3a l;
  '(s, l) ← get2 l;
  _ ← within 0 59 s;
  '(ns, l) ← getfraction l;
  off ← getzone l;
  _ ← within 1 (daysIn y mo) d;
  Some (instant (mkDate y mo d) + (h * 3600 + mi * 60 + s - off * 60) * 10 ^ 9 + ns).

Example format_utc : format 0 1398088800123456000 = lit "2014-04-21T14:00:00.123456Z".
Proof. vm_compute. reflexivity. Qed.
Example format_pittsburgh : format (-240) 1398088800000000000 = lit "2014-04-21T10:00:00-04:00".
Proof. vm_compute. reflexivity. Qed.
Example parse_pittsburgh : parse (lit "2014-04-21T10:00:00-04:00") = Some 1398088800000000000.
Proof. vm_compute. reflexivity. Qed.

(** ** Round trip *)

Lemma get2_two n l : 0 <= n < 100 -> get2 (two n ++ l) = Some (n, l).
Proof.
  intros Hn. unfold two, get2. cbn [app].
  assert (0 <= n / 10 < 10) by (split; [apply Z.div_pos; lia|apply Z.div_lt_upper_bound; lia]).
  pose proof (Z.mod_pos_bound n 10 ltac:(lia)).
  destruct (digit_ok (n / 10) ltac:(lia)) as [-> ->], (digit_ok (n `mod` 10) ltac:(lia)) as [-> ->].
  cbn [andb]. do 2 f_equal. pose proof (Z.div_mod n 10). lia.
Qed.

Lemma getnum_two n l : 0 <= n < 100 -> getnum (two n ++ l) = Some (n, l).
Proof.
  intros Hn. pose proof (get2_two n l Hn) as E. unfold two, get2, getnum in *. cbn [app] in *.
  destruct (is_digit (digit (n / 10))); [|done]. by destruct (is_digit (digit (n `mod` 10))).
Qed.

Lemma fixed_spec k : forall n, 0 <= n < 10 ^ Z.of_nat k ->
  forallb is_digit (fixed k n) = true /\ digits_value (fixed k n) = n /\ length (fixed k n) = k.
Proof.
  induction k as [|k IH]; intros n Hn; cbn [fixed].
  - change (10 ^ Z.of_nat 0) with 1 in Hn. split; [done|]. split; [cbn; lia|done].
  - rewrite Nat2Z.inj_succ, Z.pow_succ_r in Hn by lia.
    destruct (IH (n / 10)) as (Hd & Hv & Hl); [split; [apply Z.div_pos; lia|apply Z.div_lt_upper_bound; lia]|].
    pose proof (Z.mod_pos_bound n 10 ltac:(lia)). destruct (digit_ok (n `mod` 10) ltac:(lia)) as [Hb Hw].
    rewrite forallb_app, Hd, digits_value_snoc, Hv, Hw, length_app, Hl. cbn [forallb length]. rewrite Hb.
    split; [done|]. split; [pose proof (Z.div_mod n 10); lia|lia].
Qed.

Lemma drop_zeros_spec l : exists z, l = repeat x30 z ++ drop_zeros l.
Proof.
  induction l as [|b l [z IH]]; [by exists O|]. cbn [drop_zeros].
  destruct (Byte.eqb b x30) eqn:Eb; [|by exists O].
  apply Byte.byte_dec_bl in Eb as ->. exists (S z). cbn. by rewrite <- IH.
Qed.

Lemma digits_value_zeros l z : digits_value (l ++ repeat x30 z) = digits_value l * 10 ^ Z.of_nat z.
Proof.
  induction z as [|z IH]; [cbn; by rewrite app_nil_r, Z.mul_1_r|].
  replace (repeat x30 (S z)) with (repeat x30 z ++ [x30]) by (by rewrite <- repeat_cons).
  rewrite app_assoc, digits_value_snoc, IH, Nat2Z.inj_succ, Z.pow_succ_r by lia.
  change (byteZ x30 - 48) with 0. ring.
Qed.

Lemma repeat_rev {A} (x : A) n : rev (repeat x n) = repeat x n.
Proof. induction n as [|n IH]; [done|]. cbn. by rewrite IH, <- repeat_cons. Qed.

(** What follows a number that is read up to its last digit. *)
Definition no_digit (l : text) : Prop := exists b r, l = b :: r /\ is_digit b = false /\ b <> x2e.

Lemma getfraction_fraction ns l : 0 <= ns < 10 ^ 9 -> no_digit l -> getfraction (fraction ns ++ l) = Some (ns, l).
Proof.
  intros Hns (b & r & -> & Hb & Hpt). destruct (fixed_spec 9 ns Hns) as (Hd & Hv & Hl). unfold fraction.
  destruct (drop_zeros_spec (rev (fixed 9 ns))) as [z Hz]. set (l0 := rev (drop_zeros (rev (fixed 9 ns)))) in *.
  assert (Hsplit : fixed 9 ns = l0 ++ repeat x30 z).
  { apply (f_equal (@rev _)) in Hz. rewrite rev_involutive, rev_app_distr, repeat_rev in Hz. exact Hz. }
  rewrite Hsplit in Hd, Hv, Hl. rewrite forallb_app in Hd. apply andb_true_iff in Hd as [Hd _].
  rewrite digits_value_zeros in Hv. rewrite length_app, repeat_length in Hl. clearbody l0.
  destruct l0 as [|d l0].
  - cbn [app]. unfold digits_value in Hv. cbn in Hv. assert (ns = 0) as -> by lia.
    unfold getfraction. by rewrite eat_hd, byte_eqb_ne.
  - cbn [app]. unfold getfraction. rewrite eat_hd, byte_eqb_refl. change (d :: l0 ++ b :: r) with ((d :: l0) ++ b :: r).
    rewrite span_digits_app by (done || by cbn; rewrite Hb).
    pose proof (digits_value_bound _ Hd) as Hbnd. set (v := digits_value (d :: l0)) in *.
    assert (Hle : v < 10 ^ 9).
    { assert (1 <= 10 ^ Z.of_nat z) by (apply (Z.pow_le_mono_r 10 0); lia). nia. }
    rewrite (proj2 (Z.ltb_lt v (10 ^ 9))) by done. do 2 f_equal.
    rewrite Z.max_r by lia. replace (9 - Z.of_nat (length (d :: l0))) with (Z.of_nat z) by lia. exact Hv.
Qed.

Lemma zone_no_digit off : no_digit (zone off).
Proof.
  unfold zone. destruct (off =? 0); [by exists x5a, []|]. destruct (off <? 0); do 2 eexists; (split; [reflexivity|done]).
Qed.

Lemma getzone_zone off : Z.abs off < 6000 -> getzone (zone off) = Some off.
Proof.
  intros Ho. unfold zone. destruct (off =? 0) eqn:E0; breflect; [by subst|].
  assert (0 <= Z.abs off / 60 < 100) by (split; [apply Z.div_pos; lia|apply Z.div_lt_upper_bound; lia]).
  pose proof (Z.mod_pos_bound (Z.abs off) 60 ltac:(lia)). pose proof (Z.div_mod (Z.abs off) 60 ltac:(lia)).
  assert (Hgo : forall s sign,
    (if Byte.eqb sign x2b then Some 1 else if Byte.eqb sign x2d then Some (-1) else None) = Some s ->
    s * Z.abs off = off -> Byte.eqb sign x5a = false ->
    getzone (sign :: two (Z.abs off / 60) ++ x3a :: two (Z.abs off `mod` 60)) = Some off).
  { intros s sign Hs Hso Hne. unfold getzone. rewrite Hne, Hs. cbn [mbind option_bind].
    rewrite get2_two by done. cbn [mbind option_bind]. rewrite eat_hd, byte_eqb_refl. cbn [mbind option_bind].
    rewrite <- (app_nil_r (two (Z.abs off `mod` 60))), get2_two by lia. cbn [mbind option_bind]. f_equal. nia. }
  destruct (off <? 0) eqn:E; breflect; [apply (Hgo (-1))|apply (Hgo 1)]; done || lia.
Qed.

Lemma within_ok lo hi n : lo <= n <= hi -> within lo hi n = Some tt.
Proof. intros H. unfold within. rewrite !(proj2 (Z.leb_le _ _)) by lia. done. Qed.

(** Hours, minutes and seconds of a second of the day. *)
Lemma clock_split c : 0 <= c < 86400 ->
  0 <= c / 3600 <= 23 /\ 0 <= (c / 60) `mod` 60 <= 59 /\ 0 <= c `mod` 60 <= 59 /\
  c / 3600 * 3600 + (c / 60) `mod` 60 * 60 + c `mod` 60 = c.
Proof.
  intros Hc. pose proof (Z.mod_pos_bound (c / 60) 60 ltac:(lia)). pose proof (Z.mod_pos_bound c 60 ltac:(lia)).
  assert (c / 3600 = c / 60 / 60) as E by (by rewrite Z.div_div by lia).
  pose proof (Z.div_mod (c / 60) 60 ltac:(lia)). pose proof (Z.div_mod c 60 ltac:(lia)).
  assert (0 <= c / 3600 < 24) by (split; [apply Z.div_pos; lia|apply Z.div_lt_upper_bound; lia]).
  split_and!; lia.
Qed.

(** The time and its zone are such that the local year has four digits. *)
Definition printable (off t : Z) : Prop :=
  Z.abs off < 1440 /\ in_years ((t / 10 ^ 9 + off * 60) / 86400).

Lemma parse_format off t : printable off t -> parse (format off t) = Some t.
Proof.
  intros [Ho Hy]. unfold format. set (s := t / 10 ^ 9 + off * 60) in *. set (c := s `mod` 86400).
  destruct (dateOf_spec _ Hy) as [(Hyr & Hm & Hd) En]. set (d := dateOf (s / 86400)) in *. clearbody d.
  pose proof (daysIn_pos (year d) (month d)) as Hb.
  destruct (clock_split c) as (Hh & Hmi & Hs & Hc); [by apply Z.mod_pos_bound|].
  unfold parse. unfold four. rewrite getyear_digits by done. cbn [mbind option_bind].
  rewrite eat_hd, byte_eqb_refl. cbn [mbind option_bind]. rewrite get2_two by lia. cbn [mbind option_bind].
  rewrite within_ok by lia. cbn [mbind option_bind].
  rewrite eat_hd, byte_eqb_refl. cbn [mbind option_bind]. rewrite get2_two by lia. cbn [mbind option_bind].
  rewrite eat_hd, byte_eqb_refl. cbn [mbind option_bind]. rewrite getnum_two by lia. cbn [mbind option_bind].
  rewrite within_ok by lia. cbn [mbind option_bind].
  rewrite eat_hd, byte_eqb_refl. cbn [mbind option_bind]. rewrite get2_two by lia. cbn [mbind option_bind].
  rewrite within_ok by lia. cbn [mbind option_bind].
  rewrite eat_hd, byte_eqb_refl. cbn [mbind option_bind]. rewrite get2_two by lia. cbn [mbind option_bind].
  rewrite within_ok by lia. cbn [mbind option_bind].
  rewrite getfraction_fraction by (apply Z.mod_pos_bound; lia) || apply zone_no_digit.
  cbn [mbind option_bind]. rewrite getzone_zone by lia. cbn [mbind option_bind].
  rewrite within_ok by lia. cbn [mbind option_bind]. f_equal.
  unfold instant, oneDay. replace (mkDate (year d) (month d) (day d)) with d by (by destruct d).
  rewrite En, Hc. pose proof (Z.div_mod s 86400 ltac:(lia)) as Es. fold c in Es.
  pose proof (Z.div_mod t (10 ^ 9) ltac:(lia)) as Et. unfold s in *. lia.
Qed.

(** No character needs an escape. *)
Lemma digit_plain b : is_digit b = true -> plain b = true.
Proof. by destruct b. Qed.

Lemma digits_plain l : forallb is_digit l = true -> forallb plain l = true.
Proof.
  intros Hl. apply forallb_forall. intros b Hb. rewrite forallb_forall in Hl. by apply digit_plain, Hl.
Qed.

Lemma two_plain n : 0 <= n < 100 -> forallb plain (two n) = true.
Proof.
  intros Hn. apply digits_plain. unfold two. cbn [forallb].
  assert (0 <= n / 10 < 10) by (split; [apply Z.div_pos; lia|apply Z.div_lt_upper_bound; lia]).
  pose proof (Z.mod_pos_bound n 10 ltac:(lia)).
  by destruct (digit_ok (n / 10) ltac:(lia)) as [-> _], (digit_ok (n `mod` 10) ltac:(lia)) as [-> _].
Qed.

Lemma four_plain n : 0 <= n < 10000 -> forallb plain (four n) = true.
Proof.
  intros Hn. apply digits_plain. unfold four. cbn [forallb].
  assert (0 <= n / 1000 < 10) by (split; [apply Z.div_pos; lia|apply Z.div_lt_upper_bound; lia]).
  pose proof (Z.mod_pos_bound (n / 100) 10 ltac:(lia)). pose proof (Z.mod_pos_bound (n / 10) 10 ltac:(lia)).
  pose proof (Z.mod_pos_bound n 10 ltac:(lia)).
  rewrite (proj1 (digit_ok (n / 1000) ltac:(lia))), (proj1 (digit_ok ((n / 100) `mod` 10) ltac:(lia))).
  by rewrite (proj1 (digit_ok ((n / 10) `mod` 10) ltac:(lia))), (proj1 (digit_ok (n `mod` 10) ltac:(lia))).
Qed.

Lemma drop_zeros_digits l : forallb is_digit l = true -> forallb is_digit (drop_zeros l) = true.
Proof.
  intros Hl. destruct (drop_zeros_spec l) as [z E]. rewrite E, forallb_app in Hl.
  by apply andb_true_iff in Hl as [_ ?].
Qed.

Lemma forallb_rev {A} (f : A -> bool) l : forallb f (rev l) = forallb f l.
Proof.
  induction l as [|x l IH]; [done|]. cbn. rewrite forallb_app, IH. cbn. rewrite andb_true_r. apply andb_comm.
Qed.

Lemma fraction_plain ns : 0 <= ns < 10 ^ 9 -> forallb plain (fraction ns) = true.
Proof.
  intros Hns. destruct (fixed_spec 9 ns Hns) as (Hd & _ & _). unfold fraction.
  assert (Hl : forallb plain (rev (drop_zeros (rev (fixed 9 ns)))) = true).
  { apply digits_plain. rewrite forallb_rev. apply drop_zeros_digits. by rewrite forallb_rev. }
  destruct (rev _); [done|exact Hl].
Qed.

Lemma zone_plain off : Z.abs off < 6000 -> forallb plain (zone off) = true.
Proof.
  intros Ho. unfold zone. destruct (off =? 0); [done|].
  assert (0 <= Z.abs off / 60 < 100) by (split; [apply Z.div_pos; lia|apply Z.div_lt_upper_bound; lia]).
  pose proof (Z.mod_pos_bound (Z.abs off) 60 ltac:(lia)). cbn [forallb]. rewrite forallb_app. cbn [forallb].
  rewrite !two_plain by lia. by destruct (off <? 0).
Qed.

Lemma format_plain off t : printable off t -> forallb plain (format off t) = true.
Proof.
  intros [Ho Hy]. unfold format. set (s := t / 10 ^ 9 + off * 60) in *.
  destruct (dateOf_spec _ Hy) as [(Hyr & Hm & Hd) _]. set (d := dateOf (s / 86400)) in *. clearbody d.
  pose proof (daysIn_pos (year d) (month d)) as Hb.
  destruct (clock_split (s `mod` 86400)) as (Hh & Hmi & Hs & _); [by apply Z.mod_pos_bound|].
  repeat (rewrite forallb_app; cbn [forallb]). rewrite four_plain by lia.
  rewrite !two_plain by lia.
  rewrite fraction_plain by (apply Z.mod_pos_bound; lia). rewrite zone_plain by lia. done.
Qed.

(** A reading of the clock after 1970, as [UnixNano] can give it, has a local
    year of four digits in every zone. *)
Lemma clock_printable off t : Z.abs off < 1440 -> 0 <= t < 2 ^ 63 -> printable off t.
Proof.
  intros Ho Ht. split; [done|]. unfold in_years.
  assert (yearStart 0 <= -1 /\ 106752 < yearStart 10000) as [H0 H1] by (split; vm_compute; congruence).
  assert (0 <= t / 10 ^ 9 < 9223372037) by (split; [apply Z.div_pos; lia|apply Z.div_lt_upper_bound; lia]).
  split.
  - assert (-1 <= (t / 10 ^ 9 + off * 60) / 86400) by (apply Z.div_le_lower_bound; lia). lia.
  - assert ((t / 10 ^ 9 + off * 60) / 86400 < 106753) by (apply Z.div_lt_upper_bound; lia). lia.
Qed.
End Rfc3339.
