(* ===== verification/LspCommon.v ===== *)
(** * LspCommon: requests, replies and effects of the lsp event handlers

    [common.go]'s [request] and [retType], the packets of [network.go], and the
    effects a handler has on the world: a message handed to the network
    utility, or a value sent on a request's reply channel.  Messages travel as
    [Message] values here; [LspNetwork] adds [json.Marshal]/[json.Unmarshal]
    and the UDP layer underneath. *)
From S2P Require Import Prelude LspBuffer.
Open Scope Z_scope.

(** [lspnet.UDPAddr], identified by what its [String] method prints. *)
Abbreviation UDPAddr := string (only parsing).

(** The operation codes of [common.go]. *)
Inductive opcode :=
  | doread | dowrite | doclose | docloseconn | doconnid | doconnect
  | epochtimer | receivemsg.

#[export] Instance opcode_eq_dec : EqDecision opcode.
Proof. solve_decision. Defined.

Record receivedPacket := mkPacket { msg : Message; raddr : UDPAddr }.

Record connIdPayloadBundle := mkBundle { connId_ : Z; payload_ : list byte }.

(** The dynamic types stored in an [interface{}] by this package. *)
Inductive iface :=
  | INil
  | IBytes (b : list byte)
  | IInt (n : Z)
  | IPacket (p : receivedPacket)
  | IBundle (b : connIdPayloadBundle).

(** The reply channel of a request is identified by a number. *)
Record request := mkRequest { op : opcode; val : iface; replyc : Z }.

Record retType := mkRet { rval : iface; rerr : option string }.

(** Type assertions panic when the dynamic type differs. *)
Definition as_bytes (v : iface) : outcome (list byte) :=
  match v with IBytes b => Ret b | _ => Panic end.
Definition as_int (v : iface) : outcome Z :=
  match v with IInt n => Ret n | _ => Panic end.
Definition as_packet (v : iface) : outcome receivedPacket :=
  match v with IPacket p => Ret p | _ => Panic end.
Definition as_bundle (v : iface) : outcome connIdPayloadBundle :=
  match v with IBundle b => Ret b | _ => Panic end.

(** What a handler does besides updating its state: [SendMsg] is
    [sendMessage] (client, no address) or [sendMessageToAddr] (server). *)
Inductive effect :=
  | SendMsg (to : option UDPAddr) (m : Message)
  | Reply (ch : Z) (r : retType).

(** The payloads that successful reads returned, in order. *)
Definition read_payloads (es : list effect) : list (list byte) :=
  omap (fun e => match e with
                 | Reply _ (mkRet (IBytes b) None) => Some b
                 | _ => None end) es.

Lemma read_payloads_app es es' :
  read_payloads (es ++ es') = read_payloads es ++ read_payloads es'.
Proof. apply omap_app. Qed.

Lemma read_payloads_cons e es :
  read_payloads (e :: es) = read_payloads [e] ++ read_payloads es.
Proof. apply (read_payloads_app [e]). Qed.

Lemma read_payloads_fmap {A} (f : A -> effect) l :
  (forall a, read_payloads [f a] = []) -> read_payloads (f <$> l) = [].
Proof.
  intros Hf. induction l as [|a l IH]; [done|].
  change (read_payloads (f a :: (f <$> l)) = []). by rewrite read_payloads_cons, Hf, IH.
Qed.

Definition sent (es : list effect) : list Message :=
  omap (fun e => match e with SendMsg _ m => Some m | _ => None end) es.

(** A request carries the dynamic type its operation asserts. *)
Definition well_typed (r : request) : bool :=
  match op r, val r with
  | dowrite, IBytes _ => true
  | receivemsg, IPacket _ => true
  | dowrite, _ | receivemsg, _ => false
  | _, _ => true
  end.

(** The window check shared by both ends: is the front of [b] numbered [n]?
    [b.Len() > 0 && b.Front().SeqNum == n]. *)
Definition front_is (b : Buffer.buffer) (n : Z) : outcome bool :=
  if Buffer.Len b =? 0 then Ret false
  else m ← Buffer.Front b; Ret (SeqNum m =? n).

Lemma front_is_spec b n :
  front_is b n = Ret (match b with m :: _ => SeqNum m =? n | [] => false end).
Proof. destruct b as [|m b]; cbn; [done|]. unfold front_is, Buffer.Len. cbn. done. Qed.
