(* ===== verification/LspNetwork.v ===== *)
(** * LspNetwork: messages on the wire and the goroutines around the event loop

    [network.go] and [epoch_timer.go] of package lsp and the package lspnet
    underneath ([conn.go], [net.go], [staff.go]), which wraps the UDP sockets
    of package net and drops packets on purpose.

    - [Module Codec]: [json.Marshal] of a [Message] and [json.Unmarshal] into
      one; a round trip.
    - [Module Lspnet]: the connection table, the drop percentages, reading and
      writing through a [UDPConn].  What the operating system answers and what
      [rand.Intn(100)] draws are arguments.
    - [Module Network]: [networkUtility]; a message sent is the message the
      other side's event loop gets, up to the size of the receive buffer.
    - [Module Helpers]: the event loop, the network handler and the epoch timer
      as three goroutines with the request queue between them, while the loop
      shuts the others down; the handler may be inside a read that drops what
      arrives. *)
From S2P Require Import Prelude LspBuffer LspCommon GoJson.
Open Scope Z_scope.

Module Codec.
Import Json.

(** A nil slice is written [null], any other one as a base64 string.  The model
    of a payload does not tell nil from empty: [nilPayload] does. *)
Definition payloadText (nilPayload : bool) (p : list byte) : text :=
  if nilPayload && bool_decide (p = []) then lit "null" else quoted (base64_encode p).

(** [json.Marshal(msg)]. *)
Definition Marshal (nilPayload : bool) (m : Message) : text :=
  x7b :: quoted (lit "Type") ++ colon ++ appendInt (Type_ m) ++
  comma ++ quoted (lit "ConnID") ++ colon ++ appendInt (ConnID m) ++
  comma ++ quoted (lit "SeqNum") ++ colon ++ appendInt (SeqNum m) ++
  comma ++ quoted (lit "Payload") ++ colon ++ payloadText nilPayload (Payload m) ++ [x7d].

(** Storing a value in a field of type int; [null] leaves it as it is.  [None]
    is an error of [Unmarshal]. *)
Definition setInt (v : json) (old : Z) : option Z :=
  match v with JNull => Some old | JNum l => parseInt l | _ => None end.

Definition setByte (v : json) : option byte :=
  match v with JNull => Some x00 | JNum l => parseUint8 l | _ => None end.

(** A []byte takes a base64 string, [null], or an array of small numbers. *)
Definition setBytes (v : json) : option (list byte) :=
  match v with
  | JNull => Some []
  | JStr s => base64_decode s
  | JArr l => mapM setByte l
  | _ => None
  end.

Definition setField (m : Message) (k : text) (v : json) : option Message :=
  if key_is "Type" k then
    t ← setInt v (Type_ m); Some (mkMessage t (ConnID m) (SeqNum m) (Payload m))
  else if key_is "ConnID" k then
    c ← setInt v (ConnID m); Some (mkMessage (Type_ m) c (SeqNum m) (Payload m))
  else if key_is "SeqNum" k then
    n ← setInt v (SeqNum m); Some (mkMessage (Type_ m) (ConnID m) n (Payload m))
  else if key_is "Payload" k then
    p ← setBytes v; Some (mkMessage (Type_ m) (ConnID m) (SeqNum m) p)
  else Some m.

Fixpoint setFields (m : Message) (ms : list (text * json)) : option Message :=
  match ms with
  | [] => Some m
  | (k, v) :: ms' => m' ← setField m k v; setFields m' ms'
  end.

(** [json.Unmarshal(l, msg)] into a new [Message]; [None] is an error. *)
Definition Unmarshal (l : text) : option Message :=
  v ← parse l;
  match v with
  | JObj ms => setFields (mkMessage 0 0 0 []) ms
  | JNull => Some (mkMessage 0 0 0 [])
  | _ => None
  end.

(** A message whose numbers are Go ints. *)
Definition int64 (n : Z) : Prop := min_int64 <= n <= max_int64.
Definition encodable (m : Message) : Prop :=
  int64 (Type_ m) /\ int64 (ConnID m) /\ int64 (SeqNum m).

#[export] Instance encodable_dec m : Decision (encodable m).
Proof. unfold encodable, int64. apply _. Defined.

Lemma members_number k n l fuel :
  forallb plain k = true -> int64 n ->
  members (S (S fuel)) (quoted k ++ colon ++ appendInt n ++ comma ++ l) =
    '(ms, r) ← members (S fuel) l; Some ((k, JNum (appendInt n)) :: ms, r).
Proof.
  intros Hk Hn. rewrite members_key by done. rewrite value_number; [|done|apply ends_number_comma].
  done.
Qed.

Definition payloadJson (nilPayload : bool) (p : list byte) : json :=
  if nilPayload && bool_decide (p = []) then JNull else JStr (base64_encode p).

Lemma members_payload k np p fuel :
  forallb plain k = true ->
  members (S (S fuel)) (quoted k ++ colon ++ payloadText np p ++ [x7d]) =
    Some ([(k, payloadJson np p)], []).
Proof.
  intros Hk. rewrite members_key by done. unfold payloadText, payloadJson.
  destruct (np && bool_decide (p = [])); [done|].
  rewrite value_S. unfold quoted. cbn [app skip_ws is_space]. rewrite first_token_quote.
  rewrite <- app_assoc. cbn [app].
  rewrite lex_string_plain by apply base64_encode_plain. done.
Qed.

Lemma setBytes_payload np p : setBytes (payloadJson np p) = Some p.
Proof.
  unfold payloadJson. destruct np, (bool_decide (p = [])) eqn:E; cbn;
    try apply base64_decode_encode. breflect. by subst.
Qed.

(** The members of a marshalled message. *)
Definition fields (np : bool) (m : Message) : list (text * json) :=
  [(lit "Type", JNum (appendInt (Type_ m))); (lit "ConnID", JNum (appendInt (ConnID m)));
   (lit "SeqNum", JNum (appendInt (SeqNum m))); (lit "Payload", payloadJson np (Payload m))].

Lemma value_Marshal fuel np m : encodable m ->
  value (6 + fuel) (Marshal np m) = Some (JObj (fields np m), []).
Proof.
  intros (Ht & Hc & Hs). unfold Marshal. cbn [Nat.add]. rewrite value_S.
  cbn [skip_ws is_space]. rewrite first_token_brace. cbn iota beta.
  assert (Hq : forall s r, eat x7d (skip_ws (quoted s ++ r)) = None) by done. rewrite Hq.
  rewrite !members_number by done. rewrite members_payload by done. done.
Qed.

(** The parser reads the four members back. *)
Lemma parse_Marshal np m : encodable m -> parse (Marshal np m) = Some (JObj (fields np m)).
Proof.
  intros Hm. unfold parse.
  rewrite <- (parse_fuel_enough _ (6 + (2 * length (Marshal np m) + 2))) by lia.
  by rewrite value_Marshal.
Qed.

Lemma setField_Type m n : int64 n ->
  setField m (lit "Type") (JNum (appendInt n)) = Some (mkMessage n (ConnID m) (SeqNum m) (Payload m)).
Proof.
  intros Hn. unfold setField. change (key_is "Type" (lit "Type")) with true.
  cbn [setInt]. by rewrite parseInt_appendInt.
Qed.

Lemma setField_ConnID m n : int64 n ->
  setField m (lit "ConnID") (JNum (appendInt n)) = Some (mkMessage (Type_ m) n (SeqNum m) (Payload m)).
Proof.
  intros Hn. unfold setField. change (key_is "Type" (lit "ConnID")) with false.
  change (key_is "ConnID" (lit "ConnID")) with true.
  cbn [setInt]. by rewrite parseInt_appendInt.
Qed.

Lemma setField_SeqNum m n : int64 n ->
  setField m (lit "SeqNum") (JNum (appendInt n)) = Some (mkMessage (Type_ m) (ConnID m) n (Payload m)).
Proof.
  intros Hn. unfold setField. change (key_is "Type" (lit "SeqNum")) with false.
  change (key_is "ConnID" (lit "SeqNum")) with false.
  change (key_is "SeqNum" (lit "SeqNum")) with true.
  cbn [setInt]. by rewrite parseInt_appendInt.
Qed.

Lemma setField_Payload m np p :
  setField m (lit "Payload") (payloadJson np p) = Some (mkMessage (Type_ m) (ConnID m) (SeqNum m) p).
Proof.
  unfold setField. change (key_is "Type" (lit "Payload")) with false.
  change (key_is "ConnID" (lit "Payload")) with false.
  change (key_is "SeqNum" (lit "Payload")) with false.
  change (key_is "Payload" (lit "Payload")) with true.
  by rewrite setBytes_payload.
Qed.

Lemma Unmarshal_Marshal np m : encodable m -> Unmarshal (Marshal np m) = Some m.
Proof.
  intros Hm. unfold Unmarshal. rewrite parse_Marshal by done. destruct Hm as (Ht & Hc & Hs).
  cbn [mbind option_bind]. unfold fields. cbn [setFields].
  rewrite setField_Type by done. cbn [mbind option_bind].
  rewrite setField_ConnID by done. cbn [mbind option_bind].
  rewrite setField_SeqNum by done. cbn [mbind option_bind].
  rewrite setField_Payload. by destruct m.
Qed.

(** ** Sizes *)

Lemma Marshal_length np m : Z.of_nat (length (Marshal np m)) =
  42 + Z.of_nat (length (appendInt (Type_ m))) + Z.of_nat (length (appendInt (ConnID m)))
  + Z.of_nat (length (appendInt (SeqNum m))) +
  (if np && bool_decide (Payload m = []) then 2 else 4 * ((Z.of_nat (length (Payload m)) + 2) / 3)).
Proof.
  unfold Marshal, quoted, colon, comma, payloadText. rewrite <- base64_encode_length.
  unfold quoted. repeat (rewrite length_cons || rewrite length_app).
  destruct (np && bool_decide (Payload m = [])); repeat (rewrite length_cons || rewrite length_app);
    change (length (lit "Type")) with 4%nat; change (length (lit "ConnID")) with 6%nat;
    change (length (lit "SeqNum")) with 6%nat; change (length (lit "Payload")) with 7%nat;
    change (length (lit "null")) with 4%nat; change (@length byte []) with 0%nat; lia.
Qed.

End Codec.

Module Lspnet.

(** A [UDPConn] is a pointer, identified by a number; [connectionMap] says
    which of them a server created.  The percentages are package variables. *)
Record lspnet := mkLspnet {
  connectionMap : gmap Z bool;
  clientReadDropPercent : Z;
  clientWriteDropPercent : Z;
  serverReadDropPercent : Z;
  serverWriteDropPercent : Z }.

#[export] Instance eta_lspnet : EtaRecord lspnet := fun s =>
  mkLspnet (connectionMap s) (clientReadDropPercent s) (clientWriteDropPercent s)
    (serverReadDropPercent s) (serverWriteDropPercent s).

Definition percent (p : Z) : bool := (0 <=? p) && (p <=? 100).

Definition SetClientReadDropPercent (p : Z) (s : lspnet) : lspnet :=
  if percent p then s <| clientReadDropPercent := p |> else s.
Definition SetClientWriteDropPercent (p : Z) (s : lspnet) : lspnet :=
  if percent p then s <| clientWriteDropPercent := p |> else s.
Definition SetServerReadDropPercent (p : Z) (s : lspnet) : lspnet :=
  if percent p then s <| serverReadDropPercent := p |> else s.
Definition SetServerWriteDropPercent (p : Z) (s : lspnet) : lspnet :=
  if percent p then s <| serverWriteDropPercent := p |> else s.

Definition SetReadDropPercent (p : Z) (s : lspnet) : lspnet :=
  SetServerReadDropPercent p (SetClientReadDropPercent p s).
Definition SetWriteDropPercent (p : Z) (s : lspnet) : lspnet :=
  SetServerWriteDropPercent p (SetClientWriteDropPercent p s).
Definition ResetDropPercent (s : lspnet) : lspnet :=
  SetWriteDropPercent 0 (SetReadDropPercent 0 s).

(** [c] may be the nil pointer, which is not in the table. *)
Definition readDropPercent (c : option Z) (s : lspnet) : Z :=
  match c ≫= (fun id => connectionMap s !! id) with
  | Some true => serverReadDropPercent s
  | Some false => clientReadDropPercent s
  | None => 0
  end.
Definition writeDropPercent (c : option Z) (s : lspnet) : Z :=
  match c ≫= (fun id => connectionMap s !! id) with
  | Some true => serverWriteDropPercent s
  | Some false => clientWriteDropPercent s
  | None => 0
  end.

(** [r] is the draw of [rand.Intn(100)]. *)
Definition dropIt (r dropPercent : Z) : bool := r <? dropPercent.

(** What a read of the operating system's socket gives. *)
Inductive osRead :=
  | OsData (data : list byte) (from : UDPAddr)
  | OsError (e : string).

(** The size of the buffer a socket is read into. *)
Definition readBufferSize : nat := 2000.

(** [c.nconn.ReadFromUDP(buffer[0:])]: the datagram is cut to the buffer; the
    rest of the buffer keeps what it held. *)
Definition nconnRead (o : osRead) (buffer : list byte)
  : nat * option UDPAddr * option string * list byte :=
  match o with
  | OsData data from =>
      let data := take readBufferSize data in
      (length data, Some from, None, data ++ drop (length data) buffer)
  | OsError e => (O, None, Some e, buffer)
  end.

(** [copy(b, src)]. *)
Definition copy (b src : list byte) : list byte :=
  take (length b) src ++ drop (length src) b.

Record readResult := mkRead {
  rd_n : nat; rd_addr : option UDPAddr; rd_err : option string; rd_buf : list byte }.

(** The loop of [Read] and [ReadFromUDP]: [evs] is what the socket gives one
    read after the other, each with the draw that decides whether to drop it.
    It blocks when nothing arrives. *)
Fixpoint readLoop (dropPercent : Z) (b buffer : list byte) (evs : list (osRead * Z))
  : outcome (readResult * list (osRead * Z)) :=
  match evs with
  | [] => Hang
  | (o, r) :: evs' =>
      let '(n, naddr, err, buffer) := nconnRead o buffer in
      if dropIt r dropPercent then readLoop dropPercent b buffer evs'
      else Ret (mkRead n naddr err (copy b buffer), evs')
  end.

Definition ReadFromUDP (c : option Z) (b : list byte) (evs : list (osRead * Z)) (s : lspnet)
  : outcome (readResult * list (osRead * Z)) :=
  let dropPercent := readDropPercent c s in
  _ ← deref c;
  readLoop dropPercent b (replicate readBufferSize x00) evs.

(** [Read] is the same without the address. *)
Definition Read (c : option Z) (b : list byte) (evs : list (osRead * Z)) (s : lspnet)
  : outcome (nat * option string * list byte * list (osRead * Z)) :=
  let dropPercent := readDropPercent c s in
  _ ← deref c;
  '(r, evs) ← readLoop dropPercent b (replicate readBufferSize x00) evs;
  Ret (rd_n r, rd_err r, rd_buf r, evs).

(** A datagram given to the operating system; without an address it goes to
    the peer of a connected socket. *)
Definition datagram : Type := option UDPAddr * list byte.

(** [write]: the number of bytes, the error and the datagram sent, if any;
    [osw] is the operating system's answer. *)
Definition write (b : list byte) (addr : option UDPAddr) (r : Z) (osw : nat + string)
    (c : option Z) (s : lspnet) : outcome (nat * option string * option datagram) :=
  if dropIt r (writeDropPercent c s) then Ret (length b, None, None)
  else
    _ ← deref c;
    match addr with
    | None => match osw with
              | inr _ => Ret (O, None, None)
              | inl n => Ret (n, None, Some (None, b))
              end
    | Some a => match osw with
                | inr e => Ret (O, Some e, None)
                | inl n => Ret (n, None, Some (Some a, b))
                end
    end.

Definition Write (b : list byte) (r : Z) (osw : nat + string) (c : option Z) (s : lspnet) :=
  write b None r osw c s.

Definition WriteToUDP (b : list byte) (addr : option UDPAddr) (r : Z) (osw : nat + string)
    (c : option Z) (s : lspnet) : outcome (nat * option string * option datagram) :=
  match addr with
  | None => Ret (O, Some "addr must not be nil", None)
  | Some _ => write b addr r osw c s
  end.

(** [Close] takes the connection off the table; [oserr] is the socket's error. *)
Definition Close (c : option Z) (oserr : option string) (s : lspnet)
  : outcome (option string * lspnet) :=
  id ← deref c;
  Ret (oserr, s <| connectionMap := delete id (connectionMap s) |>).

(** [ListenUDP] and [DialUDP]: [new] is the new connection, or the error of
    package net. *)
Definition ListenUDP (new : Z + string) (s : lspnet) : (Z + string) * lspnet :=
  match new with
  | inl id => (inl id, s <| connectionMap := <[id := true]> (connectionMap s) |>)
  | inr e => (inr e, s)
  end.
Definition DialUDP (new : Z + string) (s : lspnet) : (Z + string) * lspnet :=
  match new with
  | inl id => (inl id, s <| connectionMap := <[id := false]> (connectionMap s) |>)
  | inr e => (inr e, s)
  end.

(** Nothing is dropped once the percentages are reset. *)
Lemma reset_drops_nothing s c r : 0 <= r ->
  dropIt r (readDropPercent c (ResetDropPercent s)) = false /\
  dropIt r (writeDropPercent c (ResetDropPercent s)) = false.
Proof.
  intros Hr. unfold readDropPercent, writeDropPercent, dropIt. cbn.
  destruct (c ≫= _) as [[]|]; split; apply Z.ltb_ge; cbn; lia.
Qed.

(** A percentage out of range is ignored. *)
Lemma bad_percent_ignored p s : percent p = false ->
  SetReadDropPercent p s = s /\ SetWriteDropPercent p s = s.
Proof.
  intros Hp. unfold SetReadDropPercent, SetWriteDropPercent, SetServerReadDropPercent,
    SetClientReadDropPercent, SetServerWriteDropPercent, SetClientWriteDropPercent.
  by rewrite Hp.
Qed.

End Lspnet.

Module Network.
Import Json Codec Lspnet.

Record networkUtility := mkUtility { conn : option Z }.

Definition NewNetworkUtility : networkUtility := mkUtility None.

(** [resolved] is what [lspnet.ResolveUDPAddr] gives, [new] what opening the
    socket gives. *)
Definition dial (resolved : UDPAddr + string) (new : Z + string) (h : networkUtility) (s : lspnet)
  : option string * networkUtility * lspnet :=
  match resolved with
  | inr e => (Some e, h, s)
  | inl _ =>
      match DialUDP new s with
      | (inr e, s) => (Some e, h, s)
      | (inl c, s) => (None, mkUtility (Some c), s)
      end
  end.

(** [listen] returns nil when the address does not resolve. *)
Definition listen (resolved : UDPAddr + string) (new : Z + string) (h : networkUtility) (s : lspnet)
  : option string * networkUtility * lspnet :=
  match resolved with
  | inr _ => (None, h, s)
  | inl _ =>
      match ListenUDP new s with
      | (inr e, s) => (Some e, h, s)
      | (inl c, s) => (None, mkUtility (Some c), s)
      end
  end.

(** The error returned and the datagram sent. *)
Definition sendMessage (np : bool) (msg : Message) (r : Z) (osw : nat + string)
    (h : networkUtility) (s : lspnet) : outcome (option string * option datagram) :=
  let buf := Marshal np msg in
  '(_, err, d) ← Write buf r osw (conn h) s;
  Ret (err, d).

Definition sendMessageToAddr (raddr : option UDPAddr) (np : bool) (msg : Message) (r : Z)
    (osw : nat + string) (h : networkUtility) (s : lspnet)
  : outcome (option string * option datagram) :=
  let buf := Marshal np msg in
  '(_, err, d) ← WriteToUDP buf raddr r osw (conn h) s;
  Ret (err, d).

(** The buffer [networkHandler] reads into. *)
Definition handlerBufferSize : nat := 1500.

(** [buf[:n]] of a slice without spare capacity. *)
Definition slice (n : nat) (buf : list byte) : outcome (list byte) :=
  if Nat.leb n (length buf) then Ret (take n buf) else Panic.

(** One turn of [networkHandler]: stop on the close signal, else read, decode
    and hand the event loop a request on a fresh channel [ch]. *)
Definition networkHandler (closeSignal : bool) (ch : Z) (buf : list byte)
    (evs : list (osRead * Z)) (h : networkUtility) (s : lspnet)
  : outcome (option (option request * list byte * list (osRead * Z))) :=
  if closeSignal then Ret None
  else
    '(res, evs) ← ReadFromUDP (conn h) buf evs s;
    let buf := rd_buf res in
    match rd_err res with
    | Some _ => Ret (Some (None, buf, evs))
    | None =>
        b ← slice (rd_n res) buf;
        match Unmarshal b with
        | None => Ret (Some (None, buf, evs))
        | Some m =>
            addr ← deref (rd_addr res);
            Ret (Some (Some (mkRequest receivemsg (IPacket (mkPacket m addr)) ch), buf, evs))
        end
    end.

(** [epochTimer]: one turn of its select. *)
Definition epochTimer (closeSignal : bool) (ch : Z) : option request :=
  if closeSignal then None else Some (mkRequest epochtimer INil ch).

(** What [networkHandler] does with the first datagram that is not dropped. *)
Lemma networkHandler_data ch buf data from r evs h s c :
  conn h = Some c -> dropIt r (readDropPercent (Some c) s) = false ->
  length buf = handlerBufferSize ->
  networkHandler false ch buf ((OsData data from, r) :: evs) h s =
    if Nat.leb (length data) handlerBufferSize then
      Ret (Some (match Unmarshal data with
                 | Some m => Some (mkRequest receivemsg (IPacket (mkPacket m from)) ch)
                 | None => None end,
                 copy buf (data ++ replicate (readBufferSize - length data) x00), evs))
    else Panic.
Proof.
  intros Hc Hdrop Hbuf. unfold networkHandler, ReadFromUDP. rewrite Hc. cbn [deref mbind outcome_bind].
  cbn [readLoop nconnRead]. rewrite Hdrop. cbn [mbind outcome_bind rd_buf rd_err rd_n rd_addr].
  rewrite length_take. unfold slice.
  set (buf' := copy buf _).
  assert (Hlen : length buf' = handlerBufferSize).
  { unfold buf', copy. rewrite length_app, length_take, length_drop, length_app, length_take, length_drop,
      length_replicate. unfold handlerBufferSize, readBufferSize in *. lia. }
  rewrite Hlen. destruct (Nat.leb (length data) handlerBufferSize) eqn:El.
  - apply Nat.leb_le in El. unfold handlerBufferSize, readBufferSize in *.
    rewrite Nat.min_r by lia. rewrite (proj2 (Nat.leb_le _ _)) by lia. cbn [mbind outcome_bind].
    assert (Hb : buf' = copy buf (data ++ replicate (2000 - length data) x00)).
    { unfold buf'. rewrite take_ge by lia. rewrite drop_replicate. by rewrite Nat.min_r by lia. }
    assert (Ht : take (length data) buf' = data).
    { rewrite Hb. unfold copy. rewrite take_app_le, take_take by
        (rewrite length_take, length_app, length_replicate; lia).
      rewrite Nat.min_l by lia. by rewrite take_app_length. }
    rewrite Ht, Hb. by destruct (Unmarshal data).
  - apply Nat.leb_gt in El. unfold handlerBufferSize, readBufferSize in *.
    rewrite (proj2 (Nat.leb_gt _ _)) by lia. done.
Qed.

(** [d] is a datagram that sending [m] put on the wire. *)
Definition puts_on_wire (m : Message) (h : networkUtility) (s : lspnet) (d : datagram) : Prop :=
  exists np r osw err,
    sendMessage np m r osw h s = Ret (err, Some d) \/
    exists raddr, sendMessageToAddr raddr np m r osw h s = Ret (err, Some d).

Lemma write_datagram b addr r osw c s n err d :
  write b addr r osw c s = Ret (n, err, Some d) -> d.2 = b.
Proof.
  unfold write. case_match; [done|]. intros H'. bind_inv.
  repeat case_match; bind_inv; simplify_eq; done.
Qed.

Lemma puts_on_wire_bytes m h s d : puts_on_wire m h s d -> exists np, d.2 = Marshal np m.
Proof.
  intros (np & r & osw & err & [H|(raddr & H)]); exists np;
    apply bind_Ret_inv in H as ([[n e] d'] & E & [= <- ->]).
  - by eapply write_datagram.
  - destruct raddr; [by eapply write_datagram|discriminate].
Qed.

(** The other side's handler on a datagram a message was put into. *)
Lemma receive_sent ch buf d from r evs m h s h' s' c :
  puts_on_wire m h s d -> encodable m -> conn h' = Some c ->
  dropIt r (readDropPercent (Some c) s') = false -> length buf = handlerBufferSize ->
  (if Nat.leb (length d.2) handlerBufferSize
   then exists buf', length buf' = handlerBufferSize /\
     networkHandler false ch buf ((OsData d.2 from, r) :: evs) h' s' =
       Ret (Some (Some (mkRequest receivemsg (IPacket (mkPacket m from)) ch), buf', evs))
   else networkHandler false ch buf ((OsData d.2 from, r) :: evs) h' s' = Panic).
Proof.
  intros [np Hd]%puts_on_wire_bytes Hm Hc Hr Hbuf.
  rewrite (networkHandler_data ch buf _ from r evs h' s' c) by done.
  rewrite Hd, Unmarshal_Marshal by done.
  destruct (Nat.leb _ _) eqn:El; [|done]. eexists. split; [|done].
  apply Nat.leb_le in El. unfold copy. rewrite length_app, length_take, length_drop, length_app,
    length_replicate. unfold handlerBufferSize, readBufferSize in *. lia.
Qed.

Lemma data_datagram_length np id n p : 0 <= id <= max_int64 -> 0 <= n <= max_int64 ->
  exists a, 3 <= a <= 41 /\
  Z.of_nat (length (Marshal np (NewData id n p))) <=
    42 + a + Z.max 2 (4 * ((Z.of_nat (length p) + 2) / 3)) /\
  (p <> [] -> Z.of_nat (length (Marshal np (NewData id n p))) =
     42 + a + 4 * ((Z.of_nat (length p) + 2) / 3)).
Proof.
  intros Hid Hn. unfold max_int64 in *.
  exists (1 + Z.of_nat (length (appendInt id)) + Z.of_nat (length (appendInt n))).
  assert (Hlen : forall z, 0 <= z <= 2 ^ 63 - 1 -> 1 <= Z.of_nat (length (appendInt z)) <= 20).
  { intros z Hz. unfold appendInt. destruct (z <? 0) eqn:E; breflect; [lia|].
    destruct (digits_int64 z) as (ds & -> & [_ _ _ Hne] & ?); [lia|].
    destruct ds; [done|]. cbn [length] in *. lia. }
  pose proof (Hlen id Hid). pose proof (Hlen n Hn). rewrite Marshal_length.
  cbn [Type_ ConnID SeqNum Payload NewData]. change (length (appendInt MsgData)) with 1%nat.
  split; [lia|]. split.
  - case_match; [|lia]. assert (0 <= (Z.of_nat (length p) + 2) / 3) by (apply Z.div_pos; lia). lia.
  - intros Hp. rewrite (bool_decide_eq_false_2 _ Hp), andb_false_r. lia.
Qed.

(** ** Properties *)

(** C9: a message survives the wire.  Whatever message with 64-bit numbers one
    side's [sendMessage] or [sendMessageToAddr] puts on the wire, in a datagram
    of at most 1500 bytes, the other side's network handler turns into a
    [receivemsg] request that carries the same message and the sender's
    address, ready for the next read. *)
Theorem message_roundtrip m h s d ch buf from r evs h' s' c :
  puts_on_wire m h s d -> encodable m -> (length d.2 <= handlerBufferSize)%nat ->
  conn h' = Some c -> dropIt r (readDropPercent (Some c) s') = false ->
  length buf = handlerBufferSize ->
  exists buf', length buf' = handlerBufferSize /\
    networkHandler false ch buf ((OsData d.2 from, r) :: evs) h' s' =
      Ret (Some (Some (mkRequest receivemsg (IPacket (mkPacket m from)) ch), buf', evs)).
Proof.
  intros Hd Hm Hlen Hc Hr Hbuf.
  pose proof (receive_sent ch buf d from r evs m h s h' s' c Hd Hm Hc Hr Hbuf) as H.
  by rewrite (proj2 (Nat.leb_le _ _) Hlen) in H.
Qed.

Definition demo_net : lspnet := mkLspnet {[1 := true; 2 := false]} 10 0 20 0.
Definition demo_bytes : list byte := Marshal false (NewData 7 (-3) [x68; x69]).

Example demo_bytes_text : demo_bytes =
  [x7b; x22] ++ lit "Type" ++ [x22] ++ lit ":1," ++ [x22] ++ lit "ConnID" ++ [x22] ++ lit ":7," ++
  [x22] ++ lit "SeqNum" ++ [x22] ++ lit ":-3," ++ [x22] ++ lit "Payload" ++ [x22] ++ lit ":" ++
  [x22] ++ lit "aGk=" ++ [x22; x7d].
Proof. vm_compute. reflexivity. Qed.

Lemma message_roundtrip_witness : exists buf', length buf' = handlerBufferSize /\
  networkHandler false 5 (replicate 1500 x00) [(OsData demo_bytes "10.0.0.1:80", 40)]
    (mkUtility (Some 1)) demo_net =
  Ret (Some (Some (mkRequest receivemsg
    (IPacket (mkPacket (NewData 7 (-3) [x68; x69]) "10.0.0.1:80")) 5), buf', [])).
Proof.
  apply (message_roundtrip (NewData 7 (-3) [x68; x69]) (mkUtility (Some 2)) demo_net
           (None, demo_bytes) 5 (replicate 1500 x00) "10.0.0.1:80" 40 [] (mkUtility (Some 1))
           demo_net 1).
  - exists false, 0, (inl 60%nat), None. left. vm_compute. reflexivity.
  - repeat split; vm_compute; discriminate.
  - vm_compute. lia.
  - reflexivity.
  - reflexivity.
  - reflexivity.
Defined.

(** C31: the limit on payloads, and what lies beyond.  A data message with a
    payload of at most 1062 bytes always reaches the other side's event loop; a
    payload of 1090 bytes or more makes the network handler that receives it
    panic, since it slices its 1500-byte buffer with the length of a datagram
    read into a 2000-byte one. *)
Theorem large_payload_crashes_receiver id n p h s d ch buf from r evs h' s' c :
  puts_on_wire (NewData id n p) h s d -> 0 <= id <= max_int64 -> 0 <= n <= max_int64 ->
  conn h' = Some c -> dropIt r (readDropPercent (Some c) s') = false ->
  length buf = handlerBufferSize ->
  let turn := networkHandler false ch buf ((OsData d.2 from, r) :: evs) h' s' in
  ((length p <= 1062)%nat -> exists buf', turn =
     Ret (Some (Some (mkRequest receivemsg (IPacket (mkPacket (NewData id n p) from)) ch), buf', evs)))
  /\ ((1090 <= length p)%nat -> turn = Panic).
Proof.
  intros Hd Hid Hn Hc Hr Hbuf turn.
  assert (Hm : encodable (NewData id n p)).
  { unfold encodable, int64, min_int64, max_int64, NewData in *. cbn [Type_ ConnID SeqNum].
    unfold MsgData. lia. }
  pose proof (receive_sent ch buf d from r evs _ h s h' s' c Hd Hm Hc Hr Hbuf) as H.
  apply puts_on_wire_bytes in Hd as [np Hb].
  destruct (data_datagram_length np id n p Hid Hn) as (a & Ha & Hle & Heq). rewrite <- Hb in Hle, Heq.
  split; intros Hp.
  - assert ((Z.of_nat (length p) + 2) / 3 < 355) by (apply Z.div_lt_upper_bound; lia).
    rewrite (proj2 (Nat.leb_le _ _)) in H by (unfold handlerBufferSize; lia).
    destruct H as (buf' & _ & H). by exists buf'.
  - assert (364 <= (Z.of_nat (length p) + 2) / 3) by (apply Z.div_le_lower_bound; lia).
    specialize (Heq ltac:(intros ->; cbn in Hp; lia)).
    rewrite (proj2 (Nat.leb_gt _ _)) in H; [done|]. unfold handlerBufferSize. lia.
Qed.

Lemma large_payload_crashes_receiver_witness :
  networkHandler false 5 (replicate 1500 x00)
    [(OsData (Marshal false (NewData 1 1 (replicate 1090 x41))) "10.0.0.1:80", 40)]
    (mkUtility (Some 1)) demo_net = Panic.
Proof.
  apply (large_payload_crashes_receiver 1 1 (replicate 1090 x41) (mkUtility (Some 2)) demo_net
           (None, Marshal false (NewData 1 1 (replicate 1090 x41))) 5 (replicate 1500 x00)
           "10.0.0.1:80" 40 [] (mkUtility (Some 1)) demo_net 1).
  - exists false, 0, (inl 1501%nat), None. left. vm_compute. reflexivity.
  - vm_compute. split; discriminate.
  - vm_compute. split; discriminate.
  - reflexivity.
  - reflexivity.
  - reflexivity.
  - rewrite length_replicate. lia.
Defined.

(** [listen] reports success when the address does not resolve; the network
    handler that [NewServer] then starts dereferences the nil connection. *)
Lemma listen_hides_resolve_error e new s ch buf evs :
  listen (inr e) new NewNetworkUtility s = (None, NewNetworkUtility, s) /\
  networkHandler false ch buf evs NewNetworkUtility s = Panic.
Proof. done. Qed.

(** A datagram that is not the JSON of a message is dropped. *)
Example garbage_dropped :
  networkHandler false 5 (replicate 1500 x00) [(OsData (lit "[1,2]") "10.0.0.1:80", 40)]
    (mkUtility (Some 1)) demo_net =
  Ret (Some (None, lit "[1,2]" ++ replicate 1495 x00, [])).
Proof. vm_compute. reflexivity. Qed.

(** The text [null] is taken for a connect message. *)
Example null_connects :
  networkHandler false 5 (replicate 1500 x00) [(OsData (lit " null ") "10.0.0.1:80", 40)]
    (mkUtility (Some 1)) demo_net =
  Ret (Some (Some (mkRequest receivemsg (IPacket (mkPacket NewConnect "10.0.0.1:80")) 5),
             lit " null " ++ replicate 1494 x00, [])).
Proof. vm_compute. reflexivity. Qed.

End Network.

(** ** Shutting down the goroutines *)

Module Helpers.

(** The network handler is at its select, inside a [ReadFromUDP] that began with
    a drop percentage, or blocked sending a request on [requestc]; the epoch
    timer is in its select or blocked likewise; the event loop is serving, or in
    [shutDown]: the connection closed, sending the close signal to the one and
    then to the other. *)
Inductive nhState := AtSelect | InRead (dropPercent : Z) | SendingPacket | NHDone.
Inductive etState := Waiting | SendingTick | ETDone.
Inductive loopState := Looping | ConnClosed | ClosingNH | ClosingET | ShutDown.

(** [readPercent] is the package variable of lspnet for this side. *)
Record state := mkState {
  queue : nat; nh : nhState; et : etState; loop : loopState; readPercent : Z }.

#[export] Instance eta_state : EtaRecord state := fun s =>
  mkState (queue s) (nh s) (et s) (loop s) (readPercent s).

(** The capacity of [requestc]. *)
Definition capacity : nat := 100.

Definition init : state := mkState 0 AtSelect Waiting Looping 0.

(** A draw of [rand.Intn(100)]. *)
Definition draw (r : Z) : Prop := 0 <= r < 100.

(** What [readDropPercent] gives: a closed connection is not in the table. *)
Definition currentPercent (s : state) : Z :=
  match loop s with Looping => readPercent s | _ => 0 end.

Inductive step (s : state) : state -> Prop :=
  (* SetReadDropPercent, by anyone *)
  | step_percent p : Lspnet.percent p = true -> step s (s <| readPercent := p |>)
  (* networkHandler: no close signal is there, so it reads *)
  | step_read : nh s = AtSelect -> loop s <> ClosingNH ->
      step s (s <| nh := InRead (currentPercent s) |>)
  (* the loop of ReadFromUDP drops what the socket gives, an error too *)
  | step_drop p r : nh s = InRead p -> draw r -> Lspnet.dropIt r p = true -> step s s
  (* a datagram is kept and decoded; after conn.Close reads only fail *)
  | step_packet p r : nh s = InRead p -> draw r -> Lspnet.dropIt r p = false ->
      loop s = Looping -> step s (s <| nh := SendingPacket |>)
  (* the read returns an error, or bytes that are not a message *)
  | step_no_packet p r : nh s = InRead p -> draw r -> Lspnet.dropIt r p = false ->
      step s (s <| nh := AtSelect |>)
  | step_packet_queued : nh s = SendingPacket -> (queue s < capacity)%nat ->
      step s (s <| nh := AtSelect |> <| queue := S (queue s) |>)
  (* epochTimer: the timer fires *)
  | step_tick : et s = Waiting -> step s (s <| et := SendingTick |>)
  | step_tick_queued : et s = SendingTick -> (queue s < capacity)%nat ->
      step s (s <| et := Waiting |> <| queue := S (queue s) |>)
  (* doRequest of some user goroutine *)
  | step_user : (queue s < capacity)%nat -> step s (s <| queue := S (queue s) |>)
  (* eventHandler: receive a request; begin shutDown; send the first signal *)
  | step_receive n : loop s = Looping -> queue s = S n -> step s (s <| queue := n |>)
  | step_close : loop s = Looping -> step s (s <| loop := ConnClosed |>)
  | step_signal : loop s = ConnClosed -> step s (s <| loop := ClosingNH |>)
  (* the unbuffered close signals are received in the selects *)
  | step_close_nh : loop s = ClosingNH -> nh s = AtSelect ->
      step s (s <| loop := ClosingET |> <| nh := NHDone |>)
  | step_close_et : loop s = ClosingET -> et s = Waiting ->
      step s (s <| loop := ShutDown |> <| et := ETDone |>).

(** In [shutDown], and with the network handler still to be stopped. *)
Definition before_nh (s : state) : Prop := loop s = ConnClosed \/ loop s = ClosingNH.
Definition closing (s : state) : Prop := before_nh s \/ loop s = ClosingET.

(** Requests the helpers are blocked on and must get rid of before they can
    take the close signal. *)
Definition pending (s : state) : nat :=
  (match loop s, nh s with ConnClosed, SendingPacket | ClosingNH, SendingPacket => 1 | _, _ => 0 end) +
  (match et s with SendingTick => 1 | _ => 0 end).

(** A read that drops everything. *)
Definition deaf (s : state) : Prop := before_nh s /\ nh s = InRead 100.

(** A helper the loop has not yet stopped is alive, and percentages are such. *)
Definition alive (s : state) : Prop :=
  (loop s <> ClosingET -> loop s <> ShutDown -> nh s <> NHDone) /\
  (loop s <> ShutDown -> et s <> ETDone) /\
  (queue s <= capacity)%nat /\ 0 <= readPercent s <= 100 /\
  (forall p, nh s = InRead p -> 0 <= p <= 100).

Lemma alive_reachable s : rtc step init s -> alive s.
Proof.
  apply rtc_invariant.
  - unfold alive. intros x y (H1 & H2 & H3 & H4 & H5) Hs.
    destruct Hs as [p Hp| | | | | | | | | | | | |]; cbn;
      try (apply andb_true_iff in Hp as [H6%Z.leb_le H7%Z.leb_le]);
      (split_and!; [intuition (try congruence; try lia)..|]); intros p' Hn; simplify_eq; auto.
    unfold currentPercent. destruct (loop x); lia.
  - unfold alive. cbn. unfold capacity. split_and!; try done; lia.
Qed.

(** Once the queue cannot take what is pending, this stays so; and so does a
    read that drops everything. *)
Definition overfull (s : state) : Prop :=
  closing s /\ (queue s <= capacity)%nat /\ (capacity < queue s + pending s)%nat.

Lemma overfull_step s s' : overfull s -> step s s' -> overfull s'.
Proof.
  unfold overfull, closing, before_nh, pending. destruct s as [q h e l p]. intros (Hc & Hq & Ho) Hs.
  inversion Hs; cbn in *; destruct Hc as [[Hc|Hc]|Hc]; simplify_eq; cbn in *;
    try destruct h; try destruct e; try congruence; try lia; (split; [by auto|]); lia.
Qed.

Lemma deaf_step s s' : deaf s -> step s s' -> deaf s'.
Proof.
  unfold deaf, before_nh. destruct s as [q h e l p]. cbn. intros [Hl ->] Hs.
  assert (Hdrop : forall r, draw r -> Lspnet.dropIt r 100 = false -> False).
  { unfold draw, Lspnet.dropIt. intros r Hr H%Z.ltb_ge. lia. }
  inversion Hs; cbn in *; simplify_eq; try done; try (exfalso; by eapply Hdrop);
    destruct Hl; simplify_eq; auto.
Qed.

(** Otherwise the two signals get through. *)
Lemma stop_et q h n p :
  (q + (match n with SendingTick => 1 | _ => 0 end) <= capacity)%nat -> n <> ETDone ->
  exists s', rtc step (mkState q h n ClosingET p) s' /\ loop s' = ShutDown.
Proof.
  intros Hq Hn.
  assert (Hlast : forall q', rtc step (mkState q' h Waiting ClosingET p) (mkState q' h ETDone ShutDown p)).
  { intros q'. apply rtc_once. by apply (step_close_et (mkState q' h Waiting ClosingET p)). }
  destruct n; cbn in Hq; [by eauto| |done]. exists (mkState (S q) h ETDone ShutDown p).
  split; [|done]. eapply rtc_l; [|apply Hlast].
  apply (step_tick_queued (mkState q h SendingTick ClosingET p)); cbn; [done|lia].
Qed.

Lemma stop_nh q h n p :
  (q + (match h with SendingPacket => 1 | _ => 0 end)
     + (match n with SendingTick => 1 | _ => 0 end) <= capacity)%nat ->
  h <> NHDone -> (forall d, h = InRead d -> 0 <= d <= 100) -> h <> InRead 100 -> n <> ETDone ->
  exists s', rtc step (mkState q h n ClosingNH p) s' /\ loop s' = ShutDown.
Proof.
  intros Hq Hh Hd H100 Hn.
  assert (Hgo : forall q', (q' + (match n with SendingTick => 1 | _ => 0 end) <= capacity)%nat ->
    exists s', rtc step (mkState q' AtSelect n ClosingNH p) s' /\ loop s' = ShutDown).
  { intros q' Hq'. destruct (stop_et q' NHDone n p Hq' Hn) as (s' & Hr & Hl).
    exists s'. split; [|done]. eapply rtc_l; [|exact Hr].
    by apply (step_close_nh (mkState q' AtSelect n ClosingNH p)). }
  destruct h as [|d| |]; [apply Hgo; lia| | |done].
  - destruct (Hgo q) as (s' & Hr & Hl); [lia|]. exists s'. split; [|done]. eapply rtc_l; [|exact Hr].
    assert (0 <= d <= 100) by auto. assert (d <> 100) by congruence.
    apply (step_no_packet (mkState q (InRead d) n ClosingNH p) d d); [done|unfold draw; lia|].
    apply Z.ltb_irrefl.
  - destruct (Hgo (S q)) as (s' & Hr & Hl); [lia|]. exists s'. split; [|done].
    eapply rtc_l; [|exact Hr].
    apply (step_packet_queued (mkState q SendingPacket n ClosingNH p)); cbn; [done|lia].
Qed.

Lemma shutdown_completes s :
  alive s -> closing s -> (queue s + pending s <= capacity)%nat -> ~ deaf s ->
  exists s', rtc step s s' /\ loop s' = ShutDown.
Proof.
  destruct s as [q h n l p]. unfold alive, closing, deaf, before_nh, pending. cbn.
  intros (H1 & H2 & _ & _ & H5) [[->| ->]| ->] Hq Hd.
  - destruct (stop_nh q h n p) as (s' & Hr & Hl);
      [destruct h; lia|by apply H1|done|intros ->; tauto|by apply H2|]. exists s'. split; [|done].
    eapply rtc_l; [|exact Hr]. by apply (step_signal (mkState q h n ConnClosed p)).
  - apply stop_nh; [destruct h; lia|by apply H1|done|intros ->; tauto|by apply H2].
  - apply stop_et; [lia|by apply H2].
Qed.

(** C32: when shutting down hangs.  In every reachable state in which the event
    loop is inside [shutDown], the call can never return, whatever happens, if
    and only if the request queue has no room for what the network handler and
    the epoch timer are blocked on, since the loop no longer empties the queue,
    or the network handler is inside a read that began with a drop percentage of
    100, which goes on dropping the errors of the closed connection. *)
Theorem shutDown_hangs_iff s :
  rtc step init s -> closing s ->
  ((forall s', rtc step s s' -> loop s' <> ShutDown) <->
   (capacity < queue s + pending s)%nat \/ before_nh s /\ nh s = InRead 100).
Proof.
  intros Hr%alive_reachable Hc. split.
  - intros Hn. destruct (decide (queue s + pending s <= capacity)%nat) as [Hle|]; [|left; lia].
    right. assert (Hdec : deaf s \/ ~ deaf s).
    { unfold deaf, before_nh. destruct (loop s), (nh s) as [|d| |];
        try (right; naive_solver). all: destruct (decide (d = 100)); naive_solver. }
    destruct Hdec as [|Hd]; [done|].
    destruct (shutdown_completes s Hr Hc Hle Hd) as (s' & Hs & Hl). by destruct (Hn s').
  - intros [Ho|Hd] s' Hs.
    + destruct (rtc_invariant step overfull s s' overfull_step) as [[[-> | ->]| ->] _]; try done.
      split_and!; [done|apply Hr|done].
    + by destruct (rtc_invariant step deaf s s' deaf_step Hd Hs) as [[-> | ->] _].
Qed.

(** [n] requests of user goroutines. *)
Lemma users n s : (queue s + n <= capacity)%nat ->
  rtc step s (s <| queue := (queue s + n)%nat |>).
Proof.
  intros Hn. destruct s as [q h e l p]. cbn in *. induction n as [|n IH].
  - rewrite Nat.add_0_r. done.
  - eapply rtc_r; [apply IH; lia|].
    replace (q + S n)%nat with (S (q + n)) by lia.
    apply (step_user (mkState (q + n) h e l p)). cbn. lia.
Qed.

Lemma hang_reachable : rtc step init (mkState 100 SendingPacket Waiting ClosingNH 0).
Proof.
  eapply rtc_l; [by apply (step_read init)|].
  eapply rtc_l; [by apply (step_packet (mkState 0 (InRead 0) Waiting Looping 0) 0 7)|].
  eapply rtc_l; [by apply (step_close (mkState 0 SendingPacket Waiting Looping 0))|].
  eapply rtc_l; [by apply (step_signal (mkState 0 SendingPacket Waiting ConnClosed 0))|].
  apply (users 100 (mkState 0 SendingPacket Waiting ClosingNH 0)). unfold capacity. cbn. lia.
Qed.

Lemma deaf_reachable : rtc step init (mkState 0 (InRead 100) Waiting ClosingNH 100).
Proof.
  eapply rtc_l; [by apply (step_percent init 100)|].
  eapply rtc_l; [by apply (step_read (init <| readPercent := 100 |>))|].
  eapply rtc_l; [by apply (step_close (mkState 0 (InRead 100) Waiting Looping 100))|].
  apply rtc_once. by apply (step_signal (mkState 0 (InRead 100) Waiting ConnClosed 100)).
Qed.

Lemma shutDown_hangs_iff_witness :
  (forall s', rtc step (mkState 100 SendingPacket Waiting ClosingNH 0) s' -> loop s' <> ShutDown) /\
  (forall s', rtc step (mkState 0 (InRead 100) Waiting ClosingNH 100) s' -> loop s' <> ShutDown).
Proof.
  split.
  - apply (shutDown_hangs_iff _ hang_reachable); [left; right; reflexivity|].
    left. unfold capacity. cbn. lia.
  - apply (shutDown_hangs_iff _ deaf_reachable); [left; right; reflexivity|].
    right. split; [right|]; reflexivity.
Defined.

End Helpers.
