(* ===== verification/LspWindow.v ===== *)
(** * LspWindow: the sliding window both ends of lsp implement

    The window test of [handleWrite] and the window-sliding part of the
    [MsgAck] case appear twice in the source, in [client_impl.go] and, per
    connection, in [server_impl.go].  They are modelled once, parameterised by
    how a message is sent, with the invariants of a sending side
    ([sender_ok]) and of a receiving side ([receiver_ok]). *)
From S2P Require Import Prelude LspBuffer LspCommon.
Open Scope Z_scope.
Import Buffer.

(** [writeBuffer.Len() == 0 && (unAcked.Len() == 0 ||
    seq - windowSize < unAcked.Front().SeqNum)]. *)
Definition fitsWindow (wb ub : buffer) (seq windowSize : Z) : outcome bool :=
  if negb (Len wb =? 0) then Ret false
  else if Len ub =? 0 then Ret true
  else f ← Front ub; Ret (seq - windowSize <? SeqNum f).

(** The loop of the [MsgAck] case: move messages from the front of the write
    buffer into the window that starts at [wLeft]. *)
Fixpoint fillWindow (out : Message -> effect) (wLeft wSize : Z)
    (ub wb : buffer) : outcome (buffer * buffer * list effect) :=
  match wb with
  | [] => Ret (ub, wb, [])
  | sentMsg :: wb' =>
      if wLeft <=? SeqNum sentMsg - wSize then Ret (ub, wb, [])
      else
        ub' ← Insert sentMsg ub;
        '(u, w, es) ← fillWindow out wLeft wSize ub' wb';
        Ret (u, w, out sentMsg :: es)
  end.

(** The sliding part of the [MsgAck] case. *)
Definition slideWindow (out : Message -> effect) (wSize : Z) (ub wb : buffer)
  : outcome (buffer * buffer * list effect) :=
  '(ub, wb, es) ←
    (if Len ub =? 0 then
       '(sentMsg, wb') ← Remove wb;
       ub' ← Insert sentMsg ub;
       Ret (ub', wb', [out sentMsg])
     else Ret (ub, wb, []));
  f ← Front ub;
  let wLeft := SeqNum f in
  '(ub, wb, es') ← fillWindow out wLeft wSize ub wb;
  Ret (ub, wb, es ++ es').

(** ** The sending side *)

(** Every unacknowledged message lies in the window that starts at the oldest
    one.  A window of size 0 or less still lets one message out. *)
Definition window_ok (wSize : Z) (ub : buffer) : Prop :=
  match ub with
  | [] => True
  | f :: _ => Forall (fun m => SeqNum m < SeqNum f + Z.max 1 wSize) ub
  end.

Record sender_ok (wSize seq : Z) (ub wb : buffer) : Prop := {
  so_wf : wf (ub ++ wb);
  so_le : Forall (fun m => SeqNum m <= seq) (ub ++ wb);
  so_window : window_ok wSize ub }.

Lemma sender_ok_init wSize : sender_ok wSize 0 [] [].
Proof. split; [apply wf_nil|constructor|done]. Qed.

Lemma fitsWindow_ret wb ub seq wSize : exists b : bool, fitsWindow wb ub seq wSize = Ret b.
Proof.
  unfold fitsWindow. destruct (negb _); [eauto|].
  destruct ub; cbn; [eauto|]. unfold Len. cbn. eauto.
Qed.

Lemma fitsWindow_true wb ub seq wSize :
  fitsWindow wb ub seq wSize = Ret true ->
  wb = [] /\ match ub with [] => True | f :: _ => seq < SeqNum f + wSize end.
Proof.
  unfold fitsWindow. destruct wb; [|discriminate]. split; [done|].
  destruct ub as [|f ub]; [done|]. cbn in *. injection H as H. breflect. lia.
Qed.

Lemma window_ok_snoc wSize ub m :
  window_ok wSize ub -> match ub with [] => True | f :: _ => SeqNum m < SeqNum f + Z.max 1 wSize end ->
  window_ok wSize (ub ++ [m]).
Proof.
  destruct ub as [|f ub]; cbn; intros Hw Hm.
  - constructor; [lia|constructor].
  - apply Forall_cons in Hw as [? ?]. constructor; [done|]. apply Forall_app; auto.
Qed.

Lemma sender_ok_new wSize seq ub wb m :
  sender_ok wSize seq ub wb -> SeqNum m = seq + 1 ->
  wf ((ub ++ wb) ++ [m]) /\ Forall (fun x => SeqNum x <= seq + 1) ((ub ++ wb) ++ [m]).
Proof.
  intros [Hwf Hle _] Hm. rewrite Forall_forall in Hle. split.
  - apply wf_app. repeat split; [done|repeat constructor|].
    intros x y Hx ->%list_elem_of_singleton. apply Hle in Hx. lia.
  - apply Forall_app. split; [|constructor; [lia|constructor]].
    apply Forall_forall. intros x Hx. apply Hle in Hx. lia.
Qed.

(** Accepting a new message, in the window or behind it. *)
Lemma sender_write_fits wSize seq ub wb m :
  sender_ok wSize seq ub wb -> SeqNum m = seq + 1 ->
  fitsWindow wb ub (SeqNum m) wSize = Ret true ->
  Insert m ub = Ret (ub ++ [m]) /\ sender_ok wSize (seq + 1) (ub ++ [m]) wb.
Proof.
  intros Hok Hm [-> Hwin]%fitsWindow_true.
  pose proof (sender_ok_new _ _ _ _ _ Hok Hm) as [Hwf Hle]. rewrite app_nil_r in *.
  split; [by apply Insert_back|]. split; rewrite ?app_nil_r; auto.
  apply window_ok_snoc; [apply Hok|]. destruct ub; [done|lia].
Qed.

Lemma sender_write_waits wSize seq ub wb m :
  sender_ok wSize seq ub wb -> SeqNum m = seq + 1 ->
  Insert m wb = Ret (wb ++ [m]) /\ sender_ok wSize (seq + 1) ub (wb ++ [m]).
Proof.
  intros Hok Hm. pose proof (sender_ok_new _ _ _ _ _ Hok Hm) as [Hwf Hle].
  rewrite <- app_assoc in Hwf, Hle. split.
  - apply Insert_back. by apply wf_app in Hwf as (_ & ? & _).
  - split; auto. apply Hok.
Qed.

Lemma sender_ok_delete wSize seq ub wb k :
  sender_ok wSize seq ub wb -> sender_ok wSize seq (Delete k ub).2 wb.
Proof.
  intros [Hwf Hle Hwin].
  assert (Hsub : (Delete k ub).2 ++ wb `sublist_of` ub ++ wb).
  { apply sublist_app; [apply Delete_sublist|done]. }
  split.
  - eauto using wf_sublist.
  - rewrite Forall_forall in *. intros x Hx. apply Hle. eauto using elem_of_sublist.
  - apply wf_app in Hwf as (Hub & _ & _).
    assert (Hin : forall x, x ∈ (Delete k ub).2 -> x ∈ ub).
    { intros x Hx. eauto using elem_of_sublist, Delete_sublist. }
    destruct (Delete k ub).2 as [|g ub'] eqn:E; [done|]. cbn.
    destruct ub as [|f ub]; [discriminate|]. cbn in Hwin.
    assert (SeqNum f <= SeqNum g).
    { eapply wf_front_le; [done|]. apply Hin. by left. }
    rewrite Forall_forall in *. intros x Hx. specialize (Hwin x (Hin x Hx)). cbn in Hwin. lia.
Qed.

(** Sliding moves a prefix of the write buffer, in order, and sends it. *)
Lemma fillWindow_spec out wSize f wb : forall ub,
  wf ((f :: ub) ++ wb) ->
  exists moved rest, wb = moved ++ rest /\
    fillWindow out (SeqNum f) wSize (f :: ub) wb =
      Ret ((f :: ub) ++ moved, rest, out <$> moved) /\
    Forall (fun m => SeqNum m < SeqNum f + wSize) moved /\
    match rest with [] => True | m :: _ => SeqNum f + wSize <= SeqNum m end.
Proof.
  induction wb as [|m wb IH]; intros ub Hwf; cbn [fillWindow].
  - exists [], []. rewrite !app_nil_r. split_and!; [done|done|constructor|done].
  - destruct (SeqNum f <=? SeqNum m - wSize) eqn:E; breflect.
    + exists [], (m :: wb). rewrite app_nil_r. split_and!; [done|done|constructor|lia].
    + replace ((f :: ub) ++ m :: wb) with (((f :: ub) ++ [m]) ++ wb) in Hwf
        by (by rewrite <- app_assoc).
      rewrite Insert_back by (apply wf_app in Hwf; tauto).
      destruct (IH (ub ++ [m]) Hwf) as (moved & rest & -> & Heq & Hall & Hrest).
      exists (m :: moved), rest. split; [done|]. split.
      * cbn [mbind outcome_bind]. cbn [app] in Heq |- *. rewrite Heq. cbn.
        by rewrite <- app_assoc.
      * split; [|done]. constructor; [lia|done].
Qed.

Lemma slideWindow_spec out wSize seq ub wb :
  sender_ok wSize seq ub wb -> wb <> [] ->
  exists moved rest, wb = moved ++ rest /\
    slideWindow out wSize ub wb = Ret (ub ++ moved, rest, out <$> moved) /\
    sender_ok wSize seq (ub ++ moved) rest.
Proof.
  intros [Hwf Hle Hwin] Hne.
  assert (Hgo : forall f u w pre, wf ((f :: u) ++ w) -> f :: u = ub ++ pre -> wb = pre ++ w ->
    window_ok wSize (f :: u) ->
    exists moved rest, wb = pre ++ moved ++ rest /\
      fillWindow out (SeqNum f) wSize (f :: u) w = Ret (ub ++ pre ++ moved, rest, out <$> moved)
      /\ sender_ok wSize seq (ub ++ pre ++ moved) rest).
  { intros f u w pre Hw Hu -> Hwu.
    destruct (fillWindow_spec out wSize f w u Hw) as (moved & rest & -> & Heq & Hall & _).
    exists moved, rest. split; [done|]. rewrite Heq, Hu, <- app_assoc. split; [done|].
    split.
    - by rewrite <- !app_assoc.
    - by rewrite <- !app_assoc.
    - rewrite app_assoc, <- Hu. change (Forall (fun m => SeqNum m < SeqNum f + Z.max 1 wSize) ((f :: u) ++ moved)).
      apply Forall_app. split; [done|].
      eapply Forall_impl; [done|]. cbn. lia. }
  unfold slideWindow. destruct ub as [|f ub].
  - destruct wb as [|m wb]; [done|]. rewrite Len_eqb. cbn.
    destruct (Hgo m [] wb [m]) as (moved & rest & Heq & Hf & Hok); auto.
    { constructor; [lia|constructor]. }
    exists (m :: moved), rest. injection Heq as ->. split; [done|].
    cbn in Hf. rewrite Hf. auto.
  - rewrite Len_eqb. cbn. destruct (Hgo f ub wb []) as (moved & rest & Heq & Hf & Hok); auto.
    { by rewrite app_nil_r. }
    exists moved, rest. split; [done|]. cbn in Hf. rewrite Hf. auto.
Qed.

(** ** The receiving side *)

Record receiver_ok (expected : Z) (rb : buffer) : Prop := {
  ro_wf : wf rb;
  ro_ge : Forall (fun m => expected <= SeqNum m) rb }.

Lemma receiver_ok_init : receiver_ok 1 [].
Proof. split; [apply wf_nil|constructor]. Qed.

(** A data message that is not old is inserted. *)
Lemma receiver_insert expected rb m :
  receiver_ok expected rb -> expected <= SeqNum m ->
  exists rb', Insert m rb = Ret rb' /\ receiver_ok expected rb' /\ inserted m rb rb'.
Proof.
  intros [Hwf Hge] Hm. destruct (Insert_spec m rb Hwf) as (rb' & E & Hwf' & Hins).
  exists rb'. split; [done|]. split; [|done]. split; [done|].
  rewrite Forall_forall in *. intros x Hx. apply Hins in Hx as [?|[-> _]]; auto.
Qed.

(** Delivering the expected message. *)
Lemma receiver_deliver expected m rb :
  receiver_ok expected (m :: rb) -> SeqNum m = expected -> receiver_ok (expected + 1) rb.
Proof.
  intros [Hwf _] <-. apply wf_cons in Hwf as [? Hgt]. split; [done|].
  eapply Forall_impl; [done|]. cbn. lia.
Qed.

(** Recording an acknowledgement and trimming the list to the window. *)
Lemma latestAck_update wSize lb m :
  wf lb -> exists lb' lb'', Insert m lb = Ret lb' /\
    AdjustUsingWindow wSize lb' = Ret lb'' /\ wf lb''.
Proof.
  intros Hwf. destruct (Insert_spec m lb Hwf) as (lb' & E & Hwf' & Hins).
  exists lb'. destruct (last lb') as [b|] eqn:Hlast.
  - unfold AdjustUsingWindow. rewrite Hlast. cbn. eauto with s2p.
  - exfalso. apply last_None in Hlast as ->.
    destruct (decide (SeqNum m ∈ seqs lb)) as [(x & Hx & _)%elem_of_seqs|Hn].
    + assert (x ∈ []) by (apply Hins; auto). by eapply not_elem_of_nil.
    + assert (m ∈ []) by (apply Hins; auto). by eapply not_elem_of_nil.
Qed.

#[export] Hint Resolve sender_ok_init receiver_ok_init sender_ok_delete : s2p.
