(* ===== verification/LspClient.v ===== *)
(** * LspClient: the LSP client ([p1/.../lsp/client_impl.go])

    The state of [client], its request handlers and one iteration of the
    [eventHandler] loop.  A blocking channel operation that nobody can serve
    is the outcome [Hang]: a send on [connLostSignal] or
    [connEstablishedSignal] (capacity 1) when the slot is taken, and
    [shutDown]'s unbuffered sends when the network handler and epoch timer
    goroutines are already gone. *)
From S2P Require Import Prelude LspBuffer LspCommon LspWindow.
Open Scope Z_scope.

Module Client.
Import Buffer.

Record client := mkClient {
  params : Params;
  writeBuffer : buffer;
  unAckedMsgBuffer : buffer;
  latestAckBuffer : buffer;
  readBuffer : buffer;
  deferedRead : list request;
  deferedClose : list request;
  connId : Z;
  seqNum : Z;
  expectedSeqNum : Z;
  currEpoch : Z;
  latestActiveEpoch : Z;
  clientRunning : bool;
  connLost : bool;
  (** values buffered in the two signal channels (capacity 1) *)
  connLostSignal : nat;
  connEstablishedSignal : nat;
  (** the network handler and epoch timer goroutines are running *)
  helpersUp : bool }.

#[export] Instance eta_client : EtaRecord client := fun c =>
  mkClient (params c) (writeBuffer c) (unAckedMsgBuffer c) (latestAckBuffer c)
    (readBuffer c) (deferedRead c) (deferedClose c) (connId c) (seqNum c)
    (expectedSeqNum c) (currEpoch c) (latestActiveEpoch c) (clientRunning c)
    (connLost c) (connLostSignal c) (connEstablishedSignal c) (helpersUp c).

(** The struct literal of [NewClient], with its goroutines started. *)
Definition NewClient (p : Params) : client :=
  mkClient p NewBuffer NewBuffer NewBuffer NewBuffer [] [] 0 0 1 0 0 true false 0 0 true.

Definition handled := outcome (client * list effect).

Definition replyErr (req : request) (e : string) : effect :=
  Reply (replyc req) (mkRet INil (Some e)).
Definition replyNil (req : request) : effect := Reply (replyc req) (mkRet INil None).
Definition send (m : Message) : effect := SendMsg None m.

(** A send on a channel of capacity 1 holding [n] values. *)
Definition signal (n : nat) : outcome nat :=
  match n with O => Ret 1%nat | _ => Hang end.

Definition shutDown (c : client) : outcome client :=
  if helpersUp c then Ret (c <| helpersUp := false |>) else Hang.

Definition handleRead (req : request) (c : client) : handled :=
  if negb (Nat.eqb (length (deferedClose c)) 0) then
    Ret (c, [replyErr req "client closed"])
  else
    ready ← front_is (readBuffer c) (expectedSeqNum c);
    if negb ready then Ret (c, [replyErr req "connection lost"])
    else
      readMsg ← Front (readBuffer c);
      '(_, rb) ← Remove (readBuffer c);
      Ret (c <| readBuffer := rb |> <| expectedSeqNum := expectedSeqNum c + 1 |>,
           [Reply (replyc req) (mkRet (IBytes (Payload readMsg)) None)]).

Definition handleWrite (req : request) (c : client) : handled :=
  if connLost c then Ret (c, [replyErr req "connection lost"])
  else if negb (Nat.eqb (length (deferedClose c)) 0) then
    Ret (c, [replyErr req "client closed"])
  else
    payload ← as_bytes (val req);
    let c := c <| seqNum := seqNum c + 1 |> in
    let sentMsg := NewData (connId c) (seqNum c) payload in
    let windowSize := WindowSize (params c) in
    fits ← fitsWindow (writeBuffer c) (unAckedMsgBuffer c) (SeqNum sentMsg) windowSize;
    if fits : bool then
      ub ← Insert sentMsg (unAckedMsgBuffer c);
      Ret (c <| unAckedMsgBuffer := ub |>, [send sentMsg; replyNil req])
    else
      wb ← Insert sentMsg (writeBuffer c);
      Ret (c <| writeBuffer := wb |>, [replyNil req]).

Definition handleEpoch (c : client) : handled :=
  let c := c <| currEpoch := currEpoch c + 1 |> in
  if EpochLimit (params c) <=? currEpoch c - latestActiveEpoch c then
    let c := c <| connLost := true |> in
    s ← signal (connLostSignal c);
    c ← shutDown (c <| connLostSignal := s |>);
    Ret (c, [])
  else
    let ack0 :=
      if (0 <? connId c) && (Len (latestAckBuffer c) =? 0) &&
         Nat.eqb (length (deferedClose c)) 0
      then [send (NewAck (connId c) 0)] else [] in
    let unAcked := send <$> ReturnAll (unAckedMsgBuffer c) in
    let acks :=
      if Nat.eqb (length (deferedClose c)) 0
      then send <$> ReturnAll (latestAckBuffer c) else [] in
    Ret (c, ack0 ++ unAcked ++ acks).

Definition handleReceivedMsg (req : request) (c : client) : handled :=
  let c := c <| latestActiveEpoch := currEpoch c |> in
  packet ← as_packet (val req);
  let receivedMsg := msg packet in
  if Type_ receivedMsg =? MsgAck then
    let '(msgExist, ub) := Delete (SeqNum receivedMsg) (unAckedMsgBuffer c) in
    '(ub, wb, es) ←
      (if msgExist && (0 <? Len (writeBuffer c))
       then slideWindow send (WindowSize (params c)) ub (writeBuffer c)
       else Ret (ub, writeBuffer c, []));
    let c := c <| unAckedMsgBuffer := ub |> <| writeBuffer := wb |> in
    if msgExist && (SeqNum receivedMsg =? 0) then
      s ← signal (connEstablishedSignal c);
      Ret (c <| connId := ConnID receivedMsg |> <| connEstablishedSignal := s |>, es)
    else Ret (c, es)
  else if Type_ receivedMsg =? MsgData then
    if (connId c =? 0) || negb (Nat.eqb (length (deferedClose c)) 0) then Ret (c, [])
    else if expectedSeqNum c <=? SeqNum receivedMsg then
      rb ← Insert receivedMsg (readBuffer c);
      let ackMsg := NewAck (connId c) (SeqNum receivedMsg) in
      lb ← Insert ackMsg (latestAckBuffer c);
      lb ← AdjustUsingWindow (WindowSize (params c)) lb;
      Ret (c <| readBuffer := rb |> <| latestAckBuffer := lb |>, [send ackMsg])
    else Ret (c, [])
  else Ret (c, []).

Definition handleConnId (req : request) (c : client) : handled :=
  Ret (c, [Reply (replyc req) (mkRet (IInt (connId c)) None)]).

(** The reply of [handleClose] to one closer. *)
Definition closeReply (c : client) (req : request) : effect :=
  if (0 <? Len (writeBuffer c)) || (0 <? Len (unAckedMsgBuffer c))
  then replyErr req "connection lost before sending out all pending messages"
  else replyNil req.

Definition handleClose (req : request) (c : client) : handled :=
  c ← (if negb (connLost c) then shutDown c else Ret c);
  let es := closeReply c <$> (req :: deferedClose c) in
  Ret (c <| clientRunning := false |>, es).

Definition handleConnect (req : request) (c : client) : handled :=
  let m := NewConnect in
  ub ← Insert m (unAckedMsgBuffer c);
  Ret (c <| unAckedMsgBuffer := ub |>, [send m; replyNil req]).

(** The dispatch at the end of the loop body. *)
Definition dispatch (req : request) (c : client) : handled :=
  match op req with
  | doread => handleRead req c
  | dowrite => handleWrite req c
  | doclose => handleClose req c
  | doconnid => handleConnId req c
  | doconnect => handleConnect req c
  | epochtimer => handleEpoch c
  | receivemsg => handleReceivedMsg req c
  | docloseconn => Ret (c, [])
  end.

(** What the loop does next: stop, serve a deferred request, or receive. *)
Inductive choice := Stop | Serve (req : request) (c : client) | Receive.

Definition choose (c : client) : outcome choice :=
  if negb (clientRunning c) then Ret Stop
  else if (connId c =? 0) && connLost c then Ret Stop
  else
    ready ← front_is (readBuffer c) (expectedSeqNum c);
    let closing := negb (Nat.eqb (length (deferedClose c)) 0) in
    let flushed := (Len (writeBuffer c) =? 0) && (Len (unAckedMsgBuffer c) =? 0) in
    let serveClose :=
      match deferedClose c with
      | req :: rest =>
          if flushed || connLost c
          then Serve req (c <| deferedClose := rest |>) else Receive
      | [] => Receive
      end in
    match deferedRead c with
    | req :: rest =>
        if ready || connLost c || closing
        then Ret (Serve req (c <| deferedRead := rest |>)) else Ret serveClose
    | [] => Ret serveClose
    end.

(** Receive [req] from [requestc]: defer it or handle it. *)
Definition receive (req : request) (c : client) : handled :=
  ready ← front_is (readBuffer c) (expectedSeqNum c);
  match op req with
  | doread =>
      if negb ready then Ret (c <| deferedRead := deferedRead c ++ [req] |>, [])
      else dispatch req c
  | doclose =>
      if (0 <? Len (writeBuffer c)) || (0 <? Len (unAckedMsgBuffer c))
      then Ret (c <| deferedClose := deferedClose c ++ [req] |>, [])
      else dispatch req c
  | _ => dispatch req c
  end.

(** One iteration of [eventHandler]; [inp] is the request waiting in
    [requestc], if any. *)
Definition eventHandler (inp : option request) (c : client) : handled :=
  ch ← choose c;
  match ch with
  | Stop => Ret (c, [])
  | Serve req c' => dispatch req c'
  | Receive => match inp with Some req => receive req c | None => Ret (c, []) end
  end.

(** A request of a background goroutine rather than of the user. *)
Definition internal (req : request) : bool :=
  match op req with epochtimer | receivemsg => true | _ => false end.

(** Requests carry the payload type of their operation, and [connect] is
    called by [NewClient] only, before it hands the client to the user. *)
Definition admissible (ins : list request) (req : request) : Prop :=
  well_typed req = true /\ (op req = doconnect -> Forall (fun r => internal r = true) ins).

(** A run: iterations of the loop over admissible requests, and the receives
    of [NewClient]'s select from the two signal channels.  The run records
    the requests taken and the effects. *)
Inductive run (p : Params) : client -> list request -> list effect -> Prop :=
  | run_init : run p (NewClient p) [] []
  | run_turn c ins es inp c' es' :
      run p c ins es ->
      (forall req, inp = Some req -> choose c = Ret Receive /\ admissible ins req) ->
      eventHandler inp c = Ret (c', es') ->
      run p c' (ins ++ option_list inp) (es ++ es')
  | run_established c ins es :
      run p c ins es -> connEstablishedSignal c = 1%nat ->
      run p (c <| connEstablishedSignal := 0%nat |>) ins es
  | run_lost c ins es :
      run p c ins es -> connLostSignal c = 1%nat ->
      run p (c <| connLostSignal := 0%nat |>) ins es.

(** ** The invariant *)

Record inv (c : client) : Prop := {
  inv_sender : sender_ok (WindowSize (params c)) (seqNum c)
                 (unAckedMsgBuffer c) (writeBuffer c);
  inv_receiver : receiver_ok (expectedSeqNum c) (readBuffer c);
  inv_acks : wf (latestAckBuffer c);
  inv_reads : Forall (fun r => op r = doread) (deferedRead c);
  inv_closes : Forall (fun r => op r = doclose) (deferedClose c);
  inv_seq : 0 <= seqNum c }.

(** A handler never panics and leaves [P] true when it returns. *)
Definition handled_ok (P : client -> list effect -> Prop) (h : handled) : Prop :=
  match h with Ret (c, es) => P c es | Panic => False | Hang => True end.

Lemma handled_ok_impl (P Q : client -> list effect -> Prop) h :
  (forall c es, P c es -> Q c es) -> handled_ok P h -> handled_ok Q h.
Proof. destruct h as [[c es]| |]; cbn; auto. Qed.

Lemma inv_NewClient p : inv (NewClient p).
Proof.
  split; cbn; [apply sender_ok_init|apply receiver_ok_init|apply wf_nil|constructor|constructor|lia].
Qed.

Abbreviation keeps := (handled_ok (fun c _ => inv c)).

Ltac inv_client H := destruct H as [Hs Hr Ha Hdr Hdc Hsq].

Lemma handleRead_ok req c : inv c -> keeps (handleRead req c).
Proof.
  intros Hi. unfold handleRead. destruct (negb _); [done|].
  rewrite front_is_spec. cbn. destruct (readBuffer c) as [|m rb] eqn:E; [done|].
  destruct (SeqNum m =? expectedSeqNum c) eqn:Em; [|done]. cbn. breflect.
  inv_client Hi. split; cbn; auto. rewrite E in Hr. eauto using receiver_deliver.
Qed.

Lemma handleWrite_ok req c : inv c -> op req = dowrite -> well_typed req = true ->
  keeps (handleWrite req c).
Proof.
  intros Hi Hop Hty. unfold handleWrite. destruct (connLost c); [done|].
  destruct (negb _); [done|]. unfold well_typed in Hty. rewrite Hop in Hty.
  destruct (val req) as [|payload| | |]; try discriminate. cbn.
  set (m := NewData _ _ _).
  destruct (fitsWindow_ret (writeBuffer c) (unAckedMsgBuffer c) (SeqNum m)
              (WindowSize (params c))) as [b Hb].
  cbn in Hb. rewrite Hb. cbn. inv_client Hi. destruct b.
  - destruct (sender_write_fits _ _ _ _ m Hs eq_refl Hb) as [-> Hok].
    split; cbn; auto. lia.
  - destruct (sender_write_waits _ _ _ _ m Hs eq_refl) as [-> Hok].
    split; cbn; auto. lia.
Qed.

Lemma handleEpoch_ok c : inv c -> keeps (handleEpoch c).
Proof.
  intros Hi. unfold handleEpoch. cbn. destruct (_ <=? _).
  - destruct (connLostSignal c); [|done]. cbn. unfold shutDown. cbn.
    destruct (helpersUp c); [|done]. cbn. by inv_client Hi.
  - by inv_client Hi.
Qed.

Lemma handleReceivedMsg_ok req c : inv c -> op req = receivemsg -> well_typed req = true ->
  keeps (handleReceivedMsg req c).
Proof.
  intros Hi Hop Hty. unfold handleReceivedMsg, well_typed in *. rewrite Hop in Hty.
  destruct (val req) as [| | |pk|]; try discriminate. cbn. inv_client Hi.
  destruct (Type_ (msg pk) =? MsgAck); [|destruct (Type_ (msg pk) =? MsgData); [|done]].
  - destruct (Delete (SeqNum (msg pk)) (unAckedMsgBuffer c)) as [ex ub] eqn:Ed.
    pose proof (sender_ok_delete _ _ _ _ (SeqNum (msg pk)) Hs) as Hs'. rewrite Ed in Hs'.
    cbn in Hs'. rewrite Len_ltb.
    assert (Hgo : exists u w es,
      (if ex && match writeBuffer c with [] => false | _ => true end
       then slideWindow send (WindowSize (params c)) ub (writeBuffer c)
       else Ret (ub, writeBuffer c, [])) = Ret (u, w, es) /\
      sender_ok (WindowSize (params c)) (seqNum c) u w).
    { destruct (writeBuffer c) as [|w0 wb] eqn:Ew.
      - rewrite andb_false_r. eauto 10.
      - destruct ex; cbn [andb]; [|eauto 10].
        destruct (slideWindow_spec send _ _ _ _ Hs' ltac:(done)) as (mv & rest & _ & -> & Hok).
        eauto 10. }
    destruct Hgo as (u & w & es & -> & Hok). cbn.
    destruct (ex && _); [destruct (connEstablishedSignal c); cbn; [|done]|];
      split; cbn; auto.
  - destruct (_ || _); [done|]. destruct (expectedSeqNum c <=? _) eqn:Ee; [|done]. breflect.
    destruct (receiver_insert _ _ _ Hr Ee) as (rb & -> & Hr' & _). cbn.
    destruct (latestAck_update (WindowSize (params c)) _ (NewAck (connId c) (SeqNum (msg pk))) Ha)
      as (lb & lb' & -> & Hadj & Hwf).
    cbn. rewrite Hadj. split; cbn; auto.
Qed.

Lemma handleClose_ok req c : inv c -> keeps (handleClose req c).
Proof.
  intros Hi. unfold handleClose. inv_client Hi. destruct (connLost c); cbn; [by split|].
  unfold shutDown. destruct (helpersUp c); cbn; by try split.
Qed.

Lemma handleConnect_ok req c : inv c ->
  unAckedMsgBuffer c = [] -> writeBuffer c = [] -> keeps (handleConnect req c).
Proof.
  intros Hi Hu Hw. unfold handleConnect. rewrite Hu. cbn. inv_client Hi.
  split; cbn; auto. rewrite Hw. split; cbn -[Z.max Z.add].
  - repeat constructor.
  - constructor; [done|constructor].
  - constructor; [cbn -[Z.max Z.add]; lia|constructor].
Qed.

Lemma dispatch_ok req c : inv c -> well_typed req = true ->
  (op req = doconnect -> unAckedMsgBuffer c = [] /\ writeBuffer c = []) ->
  keeps (dispatch req c).
Proof.
  intros Hi Hty Hconn. unfold dispatch. destruct (op req) eqn:Hop; try done.
  - by apply handleRead_ok.
  - by apply handleWrite_ok.
  - by apply handleClose_ok.
  - destruct Hconn; [done|]. by apply handleConnect_ok.
  - by apply handleEpoch_ok.
  - by apply handleReceivedMsg_ok.
Qed.

Lemma choose_ok c : inv c -> exists ch, choose c = Ret ch /\
  match ch with
  | Serve req c' => inv c' /\ (op req = doread \/ op req = doclose)
  | _ => True
  end.
Proof.
  intros Hi. unfold choose. destruct (clientRunning c); cbn; [|by eexists].
  destruct ((connId c =? 0) && connLost c); [by eexists|].
  rewrite front_is_spec. cbn. inv_client Hi.
  destruct (deferedRead c) as [|r rs]; [|apply Forall_cons in Hdr as [Hdr Hdrs]];
    (destruct (deferedClose c) as [|q qs]; [|apply Forall_cons in Hdc as [Hdc Hdcs]]);
    repeat match goal with |- context [if ?b then _ else _] => destruct b end;
    cbn; eexists; (split; [done|]); cbn; try done;
    (split; [split; cbn; auto|auto]).
Qed.

Lemma receive_ok req c : inv c -> well_typed req = true ->
  (op req = doconnect -> unAckedMsgBuffer c = [] /\ writeBuffer c = []) ->
  keeps (receive req c).
Proof.
  intros Hi Hty Hconn. unfold receive. rewrite front_is_spec. cbn.
  pose proof (dispatch_ok req c Hi Hty Hconn) as Hd.
  destruct (op req) eqn:Hop; try done.
  - destruct (negb _); [|done]. inv_client Hi. split; cbn; auto.
    apply Forall_app. auto.
  - destruct (_ || _); [|done]. inv_client Hi. split; cbn; auto.
    apply Forall_app. auto.
Qed.

Lemma eventHandler_ok inp c : inv c ->
  (forall req, inp = Some req -> choose c = Ret Receive -> well_typed req = true /\
    (op req = doconnect -> unAckedMsgBuffer c = [] /\ writeBuffer c = [])) ->
  keeps (eventHandler inp c).
Proof.
  intros Hi Hinp. unfold eventHandler.
  destruct (choose_ok c Hi) as (ch & Ech & Hch). rewrite Ech. cbn.
  destruct ch as [|req c'|]; [done| |].
  - destruct Hch as [Hi' Hop]. apply dispatch_ok; [done| |].
    + unfold well_typed. destruct Hop as [-> | ->]; by destruct (val req).
    + destruct Hop as [-> | ->]; discriminate.
  - destruct inp as [req|]; [|done]. destruct (Hinp req eq_refl Ech). by apply receive_ok.
Qed.

(** ** Before the connect request nothing is buffered *)

Definition unsent (c : client) : Prop := unAckedMsgBuffer c = [] /\ writeBuffer c = [].

Lemma dispatch_unsent req c : unsent c -> op req <> dowrite -> op req <> doconnect ->
  forall c' es, dispatch req c = Ret (c', es) -> unsent c'.
Proof.
  intros [Hu Hw] Hn1 Hn2 c' es. unfold dispatch, unsent. destruct (op req); try done.
  - unfold handleRead. destruct (negb _); [by intros [= <- _]|].
    rewrite front_is_spec. cbn. destruct (negb _); [by intros [= <- _]|].
    intros H. bind_inv. destruct x0. bind_inv. done.
  - unfold handleClose. intros H. bind_inv. destruct (connLost c); cbn in *; bind_inv; [done|].
    unfold shutDown in *. by destruct (helpersUp c); bind_inv.
  - by intros [= <- _].
  - unfold handleConnId. by intros [= <- _].
  - unfold handleEpoch. cbn. destruct (_ <=? _); [|by intros [= <- _]].
    intros H. bind_inv. unfold shutDown in *. cbn in *. by destruct (helpersUp c); bind_inv.
  - unfold handleReceivedMsg. intros H. bind_inv. rewrite Hu, Hw in H. cbn in H.
    repeat case_match; bind_inv; done.
Qed.

Lemma eventHandler_unsent inp c : inv c -> unsent c ->
  (forall req, inp = Some req -> op req <> dowrite /\ op req <> doconnect) ->
  forall c' es, eventHandler inp c = Ret (c', es) -> unsent c'.
Proof.
  intros Hi Hun Hinp c' es. unfold eventHandler.
  destruct (choose_ok c Hi) as (ch & Ech & Hch). rewrite Ech. cbn.
  destruct ch as [|req c0|].
  - by intros [= <- _].
  - destruct Hch as [_ Hop]. assert (unsent c0).
    { unfold choose in Ech. rewrite front_is_spec in Ech. cbn in Ech.
      repeat case_match; simplify_eq; done. }
    apply dispatch_unsent; [done| |]; destruct Hop as [-> | ->]; done.
  - destruct inp as [req|]; [|by intros [= <- _]]. destruct (Hinp req eq_refl) as [Hn1 Hn2].
    unfold receive. rewrite front_is_spec. cbn.
    destruct (op req) eqn:Hop; try done; repeat case_match;
      try (by intros [= <- _]); apply dispatch_unsent; congruence.
Qed.

(** Every reachable state satisfies the invariant. *)
Lemma run_inv p c ins es : run p c ins es ->
  inv c /\ (Forall (fun r => internal r = true) ins -> unsent c).
Proof.
  induction 1 as [|c ins es inp c' es' Hr [IHi IHu] Hadm Hev|c ins es Hr [IHi IHu] Hs
    |c ins es Hr [IHi IHu] Hs].
  - split; [apply inv_NewClient|done].
  - assert (Hin : forall req, inp = Some req -> choose c = Ret Receive ->
      well_typed req = true /\
      (op req = doconnect -> unAckedMsgBuffer c = [] /\ writeBuffer c = [])).
    { intros req Ereq _. destruct (Hadm req Ereq) as (_ & Hty & Hc). split; [done|].
      intros Hop. by apply IHu, Hc. }
    pose proof (eventHandler_ok inp c IHi Hin) as Hok. rewrite Hev in Hok. split; [done|].
    intros Hall. apply Forall_app in Hall as [Hall Hreq].
    eapply (eventHandler_unsent inp c); [done|by apply IHu| |done].
    intros req ->. cbn in Hreq. apply Forall_cons in Hreq as [Hreq _].
    unfold internal in Hreq. by destruct (op req).
  - split; [|done]. by destruct IHi.
  - split; [|done]. by destruct IHi.
Qed.

(** ** What reads deliver *)

(** [m] arrived from the network during the run. *)
Definition arrived (ins : list request) (m : Message) : Prop :=
  exists req pk, req ∈ ins /\ op req = receivemsg /\ val req = IPacket pk /\ msg pk = m /\ Type_ m = MsgData.

Record tinv (c : client) (ins : list request) (es : list effect) : Prop := {
  ti_pos : 1 <= expectedSeqNum c;
  ti_len : Z.of_nat (length (read_payloads es)) = expectedSeqNum c - 1;
  ti_read : forall i b, read_payloads es !! i = Some b ->
    exists m, arrived ins m /\ SeqNum m = Z.of_nat i + 1 /\ Payload m = b;
  ti_buf : forall m, m ∈ readBuffer c -> arrived ins m }.

(** One handler either delivers the expected message or nothing. *)
Definition delivery (req : request) (c c' : client) (es : list effect) : Prop :=
  (read_payloads es = [] /\ expectedSeqNum c' = expectedSeqNum c /\
   forall m, m ∈ readBuffer c' -> m ∈ readBuffer c \/ arrived [req] m) \/
  (exists m, m ∈ readBuffer c /\ SeqNum m = expectedSeqNum c /\
   read_payloads es = [Payload m] /\ expectedSeqNum c' = expectedSeqNum c + 1 /\
   forall x, x ∈ readBuffer c' -> x ∈ readBuffer c).

Lemma read_payloads_close c l : read_payloads (closeReply c <$> l) = [].
Proof.
  apply read_payloads_fmap. intros r. unfold closeReply. by case_match.
Qed.

Lemma fillWindow_payloads wl ws wb : forall ub u w es,
  fillWindow send wl ws ub wb = Ret (u, w, es) -> read_payloads es = [].
Proof.
  induction wb as [|m wb IH]; cbn; intros ub u w es H; [bind_inv; done|].
  case_match; bind_inv; [done|]. destruct x0 as [[u0 w0] es0]. bind_inv.
  apply IH in E0. by rewrite read_payloads_cons, E0.
Qed.

Lemma slideWindow_payloads ws ub wb u w es :
  slideWindow send ws ub wb = Ret (u, w, es) -> read_payloads es = [].
Proof.
  unfold slideWindow. intros H. bind_inv. destruct x as [[u0 w0] es0]. bind_inv.
  destruct x0 as [[u1 w1] es1]. bind_inv. rewrite read_payloads_app.
  apply fillWindow_payloads in E1. rewrite E1, app_nil_r.
  case_match; bind_inv; [|done]. destruct x0. bind_inv. done.
Qed.

(** A handler that leaves the receiving side alone delivers nothing. *)
Lemma delivery_none req c c' es :
  read_payloads es = [] -> expectedSeqNum c' = expectedSeqNum c ->
  readBuffer c' = readBuffer c -> delivery req c c' es.
Proof. intros He Hx Hb. left. rewrite Hb. auto. Qed.

Lemma handleRead_delivery req c c' es :
  handleRead req c = Ret (c', es) -> delivery req c c' es.
Proof.
  unfold handleRead. destruct (negb _); [by intros [= <- <-]; apply delivery_none|].
  rewrite front_is_spec. destruct (readBuffer c) as [|m rb] eqn:E; cbn.
  { intros [= <- <-]. by apply delivery_none. }
  destruct (SeqNum m =? expectedSeqNum c) eqn:Em; cbn; breflect; intros [= <- <-].
  - right. exists m. rewrite E. cbn. split_and!; auto; [by left|]. intros. by right.
  - by apply delivery_none.
Qed.

Lemma handleReceivedMsg_delivery req c c' es :
  inv c -> op req = receivemsg -> handleReceivedMsg req c = Ret (c', es) -> delivery req c c' es.
Proof.
  intros Hi Hop. unfold handleReceivedMsg.
  destruct (val req) as [| | |pk|] eqn:Ev; cbn; try done.
  destruct (Type_ (msg pk) =? MsgAck) eqn:Et; [|destruct (Type_ (msg pk) =? MsgData) eqn:Et'].
  - destruct (Delete _ _) as [ex ub]. intros H. bind_inv. destruct x as [[u w] es0].
    assert (read_payloads es0 = []).
    { destruct (ex && _); [by eapply slideWindow_payloads|by bind_inv]. }
    case_match; bind_inv; by apply delivery_none.
  - destruct (_ || _); [by intros [= <- <-]; apply delivery_none|].
    destruct (expectedSeqNum c <=? _) eqn:Ee; [|by intros [= <- <-]; apply delivery_none].
    intros H. bind_inv. breflect.
    destruct (receiver_insert _ _ (msg pk) (inv_receiver c Hi) Ee) as (rb & Erb & _ & Hins).
    rewrite Erb in E. injection E as <-. left. cbn. split_and!; auto.
    intros m Hm. apply Hins in Hm as [?|[-> _]]; [auto|right].
    exists req, pk. split_and!; auto. by left.
  - intros [= <- <-]. by apply delivery_none.
Qed.

Lemma dispatch_delivery req c c' es :
  inv c -> dispatch req c = Ret (c', es) -> delivery req c c' es.
Proof.
  intros Hi. unfold dispatch. destruct (op req) eqn:Hop.
  - apply handleRead_delivery.
  - unfold handleWrite. intros Hd. repeat case_match; bind_inv; try by apply delivery_none.
    all: repeat case_match; bind_inv; by apply delivery_none.
  - unfold handleClose. intros H. bind_inv. apply delivery_none.
    + apply (read_payloads_close x (req :: deferedClose x)).
    + case_match; bind_inv; [|done]. unfold shutDown in *. by case_match; bind_inv.
    + case_match; bind_inv; [|done]. unfold shutDown in *. by case_match; bind_inv.
  - intros [= <- <-]. by apply delivery_none.
  - intros [= <- <-]. by apply delivery_none.
  - unfold handleConnect. intros H. bind_inv. by apply delivery_none.
  - unfold handleEpoch. intros Hd. case_match; bind_inv.
    + unfold shutDown in *. case_match; bind_inv. by apply delivery_none.
    + apply delivery_none; [|done|done]. rewrite !read_payloads_app.
      rewrite (read_payloads_fmap send) by done.
      repeat case_match; try done; by rewrite (read_payloads_fmap send).
  - by apply handleReceivedMsg_delivery.
Qed.

Lemma receive_delivery req c c' es :
  inv c -> receive req c = Ret (c', es) -> delivery req c c' es.
Proof.
  intros Hi. unfold receive. rewrite front_is_spec. cbn. intros H.
  destruct (op req); try (by apply dispatch_delivery);
    (case_match; [bind_inv; by apply delivery_none|by apply dispatch_delivery]).
Qed.

Lemma choose_reader c req c' : choose c = Ret (Serve req c') ->
  readBuffer c' = readBuffer c /\ expectedSeqNum c' = expectedSeqNum c.
Proof.
  unfold choose. rewrite front_is_spec. cbn. intros H.
  repeat case_match; simplify_eq; done.
Qed.

(** A delivery extends the history of reads. *)
Lemma tinv_delivery c ins es req c' es' ins' :
  tinv c ins es -> delivery req c c' es' -> ins ⊆ ins' ->
  (forall m, arrived [req] m -> arrived ins' m) -> tinv c' ins' (es ++ es').
Proof.
  intros [Hp Hl Hr Hb] Hd Hsub Hreq.
  assert (Hmon : forall m, arrived ins m -> arrived ins' m).
  { intros m (r & pk & Hin & ?). exists r, pk. split; [by apply Hsub|done]. }
  destruct Hd as [(He & Hx & Hbuf)|(m & Hm & Hseq & He & Hx & Hbuf)];
    split; rewrite ?read_payloads_app, ?He, ?app_nil_r, ?Hx; auto; try lia.
  - intros i b Hi. destruct (Hr i b Hi) as (x & ? & ?). eauto.
  - intros x Hx'. apply Hbuf in Hx' as [?|?]; auto.
  - rewrite length_app. cbn. lia.
  - intros i b Hi. apply lookup_app_Some in Hi as [Hi|[Hge Hi]].
    + destruct (Hr i b Hi) as (x & ? & ?). eauto.
    + apply list_lookup_singleton_Some in Hi as [Hi <-].
      exists m. split_and!; auto. lia.
Qed.

Lemma run_tinv p c ins es : run p c ins es -> tinv c ins es.
Proof.
  induction 1 as [|c ins es inp c' es' Hr IH Hadm Hev|c ins es Hr IH Hs|c ins es Hr IH Hs].
  - split; cbn; try lia; intros ?; [intros ?; rewrite lookup_nil; done|].
    intros Hm. by apply not_elem_of_nil in Hm.
  - destruct (run_inv _ _ _ _ Hr) as [Hi _]. unfold eventHandler in Hev.
    destruct (choose_ok c Hi) as (ch & Ech & Hch). rewrite Ech in Hev. cbn in Hev.
    assert (Hnone : forall c0 es0, c0 = c -> es0 = [] ->
      tinv c0 (ins ++ option_list inp) (es ++ es0)).
    { intros c0 es0 -> ->. rewrite app_nil_r. destruct IH as [Hp Hl Hrd Hb].
      split; auto.
      - intros i b Hib. destruct (Hrd i b Hib) as (m & (r & pk & ? & ?) & ?). exists m.
        split; [|done]. exists r, pk. split; [|done]. apply elem_of_app. auto.
      - intros m Hm. destruct (Hb m Hm) as (r & pk & ? & ?). exists r, pk.
        split; [|done]. apply elem_of_app. auto. }
    destruct ch as [|req c0|].
    + injection Hev as <- <-. by apply Hnone.
    + destruct Hch as [Hi0 Hop]. apply dispatch_delivery in Hev; [|done].
      destruct (choose_reader _ _ _ Ech) as [Erb Eex].
      destruct inp as [r|]; [destruct (Hadm r eq_refl) as [Hrc _]; congruence|].
      cbn. rewrite app_nil_r.
      eapply tinv_delivery; [|done|done|].
      * destruct IH. split; rewrite ?Erb, ?Eex; auto.
      * intros m (r & pk & ->%list_elem_of_singleton & Hop' & _).
        destruct Hop; congruence.
    + destruct inp as [req|]; [|injection Hev as <- <-; by apply Hnone].
      apply receive_delivery in Hev; [|done]. cbn.
      eapply tinv_delivery; [done|done|set_solver|].
      intros m (r & pk & ->%list_elem_of_singleton & ?). exists req, pk.
      split; [set_solver|done].
  - by destruct IH.
  - by destruct IH.
Qed.

(** ** Executing a run *)

Definition admissibleb (ins : list request) (req : request) : bool :=
  well_typed req &&
  match op req with doconnect => forallb internal ins | _ => true end.

Lemma admissibleb_admissible ins req : admissibleb ins req = true -> admissible ins req.
Proof.
  unfold admissibleb. intros [Hty Hc]%andb_true_iff. split; [done|].
  intros Hop. rewrite Hop in Hc. apply Forall_forall. intros r Hin.
  rewrite forallb_forall in Hc. apply list_elem_of_In in Hin. auto.
Qed.

Definition simulate1 (inp : option request) (s : client * list request * list effect)
  : option (client * list request * list effect) :=
  let '(c, ins, es) := s in
  let ok := match inp with
            | None => true
            | Some req => match choose c with Ret Receive => admissibleb ins req | _ => false end
            end in
  if ok : bool then
    match eventHandler inp c with
    | Ret (c', es') => Some (c', ins ++ option_list inp, es ++ es')
    | _ => None
    end
  else None.

Fixpoint simulate (l : list (option request)) (s : client * list request * list effect)
  : option (client * list request * list effect) :=
  match l with
  | [] => Some s
  | inp :: l' => match simulate1 inp s with Some s' => simulate l' s' | None => None end
  end.

Lemma simulate_run p l : forall c ins es c' ins' es',
  run p c ins es -> simulate l (c, ins, es) = Some (c', ins', es') -> run p c' ins' es'.
Proof.
  induction l as [|inp l IH]; intros c ins es c' ins' es' Hr.
  - by intros [= <- <- <-].
  - cbn [simulate]. destruct (simulate1 inp (c, ins, es)) as [[[c1 i1] e1]|] eqn:E; [|done].
    apply IH. unfold simulate1 in E. case_match eqn:Hok; [|done].
    destruct (eventHandler inp c) as [[c2 e2]| |] eqn:Ev; simplify_eq.
    eapply run_turn; [done| |done]. intros req ->.
    destruct (choose c) as [[| |]| |]; try done. split; [done|].
    by apply admissibleb_admissible.
Qed.

(** A short session: connect, get the ack, write twice with window 1, receive
    messages 2 and 1 out of order, and read both. *)
Definition demo_packet (m : Message) : request :=
  mkRequest receivemsg (IPacket (mkPacket m "server:9999")) 0.
Definition demo_data (n : Z) (b : byte) : request := demo_packet (NewData 1 n [b]).
Definition demo_session : list (option request) :=
  Some <$>
  [ mkRequest epochtimer INil 0;
    mkRequest doconnect INil 1;
    demo_packet (NewAck 1 0);
    mkRequest dowrite (IBytes [x61]) 2;
    mkRequest dowrite (IBytes [x62]) 3;
    demo_data 2 x42; demo_data 1 x41; demo_data 1 x41;
    mkRequest doread INil 4;
    demo_packet (NewAck 1 1);
    mkRequest doread INil 5 ].

Definition demo_end : client * list request * list effect :=
  default (NewClient NewParams, [], [])
    (simulate demo_session (NewClient NewParams, [], [])).

Lemma demo_run : run NewParams demo_end.1.1 demo_end.1.2 demo_end.2.
Proof.
  apply (simulate_run NewParams demo_session (NewClient NewParams) [] []).
  - apply run_init.
  - vm_compute. reflexivity.
Qed.

Example demo_reads : read_payloads demo_end.2 = [[x41]; [x42]].
Proof. vm_compute. reflexivity. Qed.

(** ** Epochs *)

(** [n] epoch signals in a row. *)
Fixpoint epochs (n : nat) (c : client) : handled :=
  match n with
  | O => Ret (c, [])
  | S n' => '(c1, es1) ← epochs n' c; '(c2, es2) ← handleEpoch c1; Ret (c2, es1 ++ es2)
  end.

(** An epoch before the limit changes nothing but the epoch counter and sends
    every unacknowledged message again. *)
Lemma handleEpoch_alive c :
  currEpoch c + 1 - latestActiveEpoch c < EpochLimit (params c) ->
  exists es, handleEpoch c = Ret (c <| currEpoch := currEpoch c + 1 |>, es) /\
    (forall m, m ∈ unAckedMsgBuffer c -> SendMsg None m ∈ es).
Proof.
  intros Hlt. unfold handleEpoch. cbn.
  destruct (EpochLimit (params c) <=? _) eqn:E; breflect; [lia|].
  eexists. split; [done|]. intros m Hm. apply elem_of_app. right. apply elem_of_app. left.
  apply list_elem_of_fmap. eauto.
Qed.

Lemma handleEpoch_lost c :
  EpochLimit (params c) <= currEpoch c + 1 - latestActiveEpoch c ->
  handleEpoch c =
    match connLostSignal c, helpersUp c with
    | O, true => Ret (c <| currEpoch := currEpoch c + 1 |> <| connLost := true |>
                        <| connLostSignal := 1%nat |> <| helpersUp := false |>, [])
    | _, _ => Hang
    end.
Proof.
  intros Hge. unfold handleEpoch. cbn.
  destruct (EpochLimit (params c) <=? _) eqn:E; breflect; [|lia].
  destruct (connLostSignal c); cbn; [|done]. unfold shutDown. cbn.
  by destruct (helpersUp c).
Qed.

Lemma epochs_silent n c :
  Z.of_nat n < EpochLimit (params c) -> latestActiveEpoch c = currEpoch c ->
  exists es, epochs n c = Ret (c <| currEpoch := currEpoch c + Z.of_nat n |>, es).
Proof.
  induction n as [|n IH]; intros Hn Hact; cbn [epochs].
  - exists []. destruct c; cbn. by rewrite Z.add_0_r.
  - destruct IH as (es1 & ->); [lia|done|]. cbn [mbind outcome_bind].
    destruct (handleEpoch_alive (c <| currEpoch := currEpoch c + Z.of_nat n |>)) as (es2 & -> & _).
    { cbn. lia. }
    exists (es1 ++ es2). destruct c; cbn. do 3 f_equal. lia.
Qed.

(** ** Properties *)

(** C24: the client never panics.  In every state its event loop can reach from
    [NewClient], whatever packets the network delivered and whatever the user
    called, the next iteration neither dereferences the front of an empty
    buffer nor fails a type assertion. *)
Theorem client_never_panics p c ins es inp :
  run p c ins es ->
  (forall req, inp = Some req -> choose c = Ret Receive /\ admissible ins req) ->
  eventHandler inp c <> Panic.
Proof.
  intros Hr Hadm E. destruct (run_inv _ _ _ _ Hr) as [Hi Hu].
  pose proof (eventHandler_ok inp c Hi) as Hok. rewrite E in Hok. apply Hok.
  intros req Hreq _. destruct (Hadm req Hreq) as (_ & ? & Hc). split; [done|].
  intros Hop. by apply Hu, Hc.
Qed.

Lemma client_never_panics_witness : eventHandler None demo_end.1.1 <> Panic.
Proof. apply (client_never_panics NewParams _ _ _ None demo_run). discriminate. Defined.

(** The sliding window is respected.  In every reachable state the
    unacknowledged messages lie in a window of [WindowSize] sequence numbers
    (of one when the size is not positive), and the unacknowledged messages
    followed by the waiting ones are strictly ordered by sequence number with
    none above the last number assigned. *)
Lemma client_window_respected p c ins es :
  run p c ins es ->
  (forall a b, a ∈ unAckedMsgBuffer c -> b ∈ unAckedMsgBuffer c ->
     SeqNum b - SeqNum a < Z.max 1 (WindowSize (params c))) /\
  increasing (seqs (unAckedMsgBuffer c ++ writeBuffer c)) /\
  (forall m, m ∈ unAckedMsgBuffer c ++ writeBuffer c -> SeqNum m <= seqNum c).
Proof.
  intros Hr. destruct (run_inv _ _ _ _ Hr) as [[[Hwf Hle Hwin] _ _ _ _ _] _].
  rewrite Forall_forall in Hle. split_and!; auto.
  intros a b Hin Hb. unfold window_ok in Hwin.
  destruct (unAckedMsgBuffer c) as [|f ub]; [by apply not_elem_of_nil in Hin|].
  rewrite Forall_forall in Hwin. specialize (Hwin b Hb).
  apply wf_app in Hwf as (Hub & _ & _). pose proof (wf_front_le _ _ _ Hub Hin). lia.
Qed.

(** Reads deliver the data messages in order, exactly once, without gaps.
    The successful reads of any run returned, in order, the payloads of data
    messages numbered 1, 2, 3, ..., each of which had arrived from the network,
    and their number is [expectedSeqNum - 1]. *)
Lemma client_reads_in_order p c ins es :
  run p c ins es ->
  Z.of_nat (length (read_payloads es)) = expectedSeqNum c - 1 /\
  forall i b, read_payloads es !! i = Some b ->
    exists m, arrived ins m /\ SeqNum m = Z.of_nat i + 1 /\ Payload m = b.
Proof. intros Hr. by destruct (run_tinv _ _ _ _ Hr). Qed.

Lemma client_reads_in_order_demo :
  Z.of_nat (length (read_payloads demo_end.2)) = expectedSeqNum demo_end.1.1 - 1.
Proof. apply (client_reads_in_order NewParams _ _ _ demo_run). Defined.

(** C33: silence is detected after exactly [EpochLimit] epochs.  A client that
    has just heard from the server stays connected, unchanged but for the
    epoch counter, through any smaller number of epochs without a message, and
    is marked lost, its helpers shut down, by epoch number [EpochLimit]; an
    epoch signal that was already queued behind that one hangs the handler on
    the full [connLostSignal] channel. *)
Theorem client_silence_detected c :
  0 < EpochLimit (params c) -> latestActiveEpoch c = currEpoch c ->
  connLostSignal c = 0%nat -> helpersUp c = true ->
  (forall n, Z.of_nat n < EpochLimit (params c) ->
     exists es, epochs n c = Ret (c <| currEpoch := currEpoch c + Z.of_nat n |>, es)) /\
  (exists c' es, epochs (Z.to_nat (EpochLimit (params c))) c = Ret (c', es) /\
     connLost c' = true /\ helpersUp c' = false /\ handleEpoch c' = Hang).
Proof.
  intros Hpos Hact Hsig Hup. split; [intros; by apply epochs_silent|].
  destruct (Z.to_nat (EpochLimit (params c))) as [|n] eqn:En; [lia|].
  destruct (epochs_silent n c) as (es1 & E1); [lia|done|]. cbn [epochs]. rewrite E1.
  cbn [mbind outcome_bind]. rewrite handleEpoch_lost by (cbn; lia). cbn. rewrite Hsig, Hup. cbn.
  do 2 eexists. split_and!; [done|done|done|].
  rewrite handleEpoch_lost by (cbn; lia). done.
Qed.

Lemma client_silence_detected_witness :
  exists c' es, epochs 5 demo_end.1.1 = Ret (c', es) /\ connLost c' = true /\
    helpersUp c' = false /\ handleEpoch c' = Hang.
Proof.
  apply (client_silence_detected demo_end.1.1); vm_compute; reflexivity.
Defined.

End Client.
