(* ===== verification/LspServer.v ===== *)
(** * LspServer: the LSP server ([p1/.../lsp/server_impl.go])

    The state of [server], the handlers of its event loop and the loop body.
    The per-connection tables are finite maps; [map[int]*buffer] entries that
    are missing are nil pointers, whose methods panic.  Go iterates over maps
    in an unspecified order: [range i ks] is the order of loop number [i] over
    the keys [ks], any permutation of them.  In the effects of this file
    [SendMsg None m] is a send to a nil address, which [WriteToUDP] rejects. *)
From S2P Require Import Prelude LspBuffer LspCommon LspWindow.
Open Scope Z_scope.

Module Server.
Import Buffer.

Record server := mkServer {
  params : Params;
  readBuffer : gmap Z buffer;
  writeBuffer : gmap Z buffer;
  unAckedMsgBuffer : gmap Z buffer;
  latestAckBuffer : gmap Z buffer;
  deferedRead : list request;
  deferedClose : list request;
  hostportConnIdMap : gmap string Z;
  connIdHostportMap : gmap Z UDPAddr;
  activeConn : gmap Z bool;
  expectedSeqNum : gmap Z Z;
  seqNum : gmap Z Z;
  latestActiveEpoch : gmap Z Z;
  currEpoch : Z;
  connId : Z;
  serverRunning : bool;
  connLostInClosing : bool;
  (** the network handler and epoch timer goroutines are running *)
  helpersUp : bool }.

#[export] Instance eta_server : EtaRecord server := fun s =>
  mkServer (params s) (readBuffer s) (writeBuffer s) (unAckedMsgBuffer s)
    (latestAckBuffer s) (deferedRead s) (deferedClose s) (hostportConnIdMap s)
    (connIdHostportMap s) (activeConn s) (expectedSeqNum s) (seqNum s)
    (latestActiveEpoch s) (currEpoch s) (connId s) (serverRunning s)
    (connLostInClosing s) (helpersUp s).

Definition NewServer (p : Params) : server :=
  mkServer p ∅ ∅ ∅ ∅ [] [] ∅ ∅ ∅ ∅ ∅ ∅ 0 0 true false true.

Abbreviation handled := (outcome (server * list effect)).

Definition isActive (s : server) (id : Z) : bool := map_get false (activeConn s) id.
Definition closing (s : server) : bool := negb (Nat.eqb (length (deferedClose s)) 0).

Definition replyBundle (req : request) (id : Z) (p : list byte) (e : option string) : effect :=
  Reply (replyc req) (mkRet (IBundle (mkBundle id p)) e).
Definition replyErr (req : request) (e : string) : effect :=
  Reply (replyc req) (mkRet INil (Some e)).
Definition replyNil (req : request) : effect := Reply (replyc req) (mkRet INil None).

(** [Read] of the public API asserts the dynamic type of the reply's value. *)
Definition Read (r : retType) : outcome (Z * list byte * option string) :=
  b ← as_bundle (rval r); Ret (connId_ b, payload_ b, rerr r).

Definition shutDown (s : server) : outcome server :=
  if helpersUp s then Ret (s <| helpersUp := false |>) else Hang.

Section handlers.
Context (range : nat -> list Z -> list Z).

(** First loop of [handleRead]: a connection whose next message is ready. *)
Fixpoint readReady (ks : list Z) (req : request) (s : server)
  : outcome (option (server * list effect)) :=
  match ks with
  | [] => Ret None
  | id :: ks' =>
      rb ← deref (readBuffer s !! id);
      ready ← front_is rb (map_get 0 (expectedSeqNum s) id);
      if ready : bool then
        '(readMsg, rb') ← Remove rb;
        Ret (Some (s <| readBuffer := <[id := rb']> (readBuffer s) |>
                     <| expectedSeqNum :=
                          <[id := map_get 0 (expectedSeqNum s) id + 1]> (expectedSeqNum s) |>,
                   [replyBundle req id (Payload readMsg) None]))
      else readReady ks' req s
  end.

(** Second loop: a lost connection with nothing left to read. *)
Fixpoint readLost (ks : list Z) (req : request) (s : server)
  : option (server * list effect) :=
  match ks with
  | [] => None
  | id :: ks' =>
      if negb (isActive s id) then
        Some (s <| readBuffer := delete id (readBuffer s) |>
                <| expectedSeqNum := delete id (expectedSeqNum s) |>,
              [replyBundle req id [] (Some "some connection is lost")])
      else readLost ks' req s
  end.

Definition handleRead (req : request) (s : server) : handled :=
  if closing s then Ret (s, [replyErr req "server is closed"])
  else
    r ← readReady (range 1 (keys (readBuffer s))) req s;
    match r with
    | Some res => Ret res
    | None =>
        match readLost (range 2 (keys (readBuffer s))) req s with
        | Some res => Ret res
        | None => Ret (s <| deferedRead := deferedRead s ++ [req] |>, [])
        end
    end.

Definition handleWrite (req : request) (s : server) : handled :=
  b ← as_bundle (val req);
  let id := connId_ b in
  let payload := payload_ b in
  if closing s || negb (isActive s id) then
    Ret (s, [replyErr req "server/connection closed or connection lost"])
  else
    match connIdHostportMap s !! id with
    | Some clientAddr =>
        let n := map_get 0 (seqNum s) id + 1 in
        let s := s <| seqNum := <[id := n]> (seqNum s) |> in
        let windowSize := WindowSize (params s) in
        let sentMsg := NewData id n payload in
        ub ← deref (unAckedMsgBuffer s !! id);
        wb ← deref (writeBuffer s !! id);
        fits ← fitsWindow wb ub n windowSize;
        if fits : bool then
          ub' ← Insert sentMsg ub;
          Ret (s <| unAckedMsgBuffer := <[id := ub']> (unAckedMsgBuffer s) |>,
               [SendMsg (Some clientAddr) sentMsg; replyNil req])
        else
          wb' ← Insert sentMsg wb;
          Ret (s <| writeBuffer := <[id := wb']> (writeBuffer s) |>, [replyNil req])
    | None => Ret (s, [replyErr req "connection doesn't exist"])
    end.

(** Resources of a connection removed once its last message is acknowledged. *)
Definition cleanUp (clientAddr : UDPAddr) (id : Z) (s : server) : server :=
  s <| hostportConnIdMap := delete clientAddr (hostportConnIdMap s) |>
    <| connIdHostportMap := delete id (connIdHostportMap s) |>
    <| readBuffer := delete id (readBuffer s) |>
    <| writeBuffer := delete id (writeBuffer s) |>
    <| unAckedMsgBuffer := delete id (unAckedMsgBuffer s) |>
    <| latestAckBuffer := delete id (latestAckBuffer s) |>
    <| latestActiveEpoch := delete id (latestActiveEpoch s) |>
    <| expectedSeqNum := delete id (expectedSeqNum s) |>
    <| seqNum := delete id (seqNum s) |>.

(** The [MsgConnect] case. *)
Definition recvConnect (clientAddr : UDPAddr) (s : server) : handled :=
  if negb (closing s) && (map_get 0 (hostportConnIdMap s) clientAddr =? 0) then
    let id := connId s + 1 in
    Ret (s <| connId := id |>
           <| hostportConnIdMap := <[clientAddr := id]> (hostportConnIdMap s) |>
           <| connIdHostportMap := <[id := clientAddr]> (connIdHostportMap s) |>
           <| readBuffer := <[id := NewBuffer]> (readBuffer s) |>
           <| writeBuffer := <[id := NewBuffer]> (writeBuffer s) |>
           <| unAckedMsgBuffer := <[id := NewBuffer]> (unAckedMsgBuffer s) |>
           <| latestAckBuffer := <[id := NewBuffer]> (latestAckBuffer s) |>
           <| expectedSeqNum := <[id := 1]> (expectedSeqNum s) |>
           <| seqNum := <[id := 0]> (seqNum s) |>
           <| latestActiveEpoch := <[id := currEpoch s]> (latestActiveEpoch s) |>
           <| activeConn := <[id := true]> (activeConn s) |>,
         [SendMsg (Some clientAddr) (NewAck id 0)])
  else Ret (s, []).

(** The [MsgAck] case. *)
Definition recvAck (clientAddr : UDPAddr) (receivedMsg : Message) (s : server) : handled :=
  let id := map_get 0 (hostportConnIdMap s) clientAddr in
  if 0 <? id then
    let s := s <| latestActiveEpoch := <[id := currEpoch s]> (latestActiveEpoch s) |> in
    ub ← deref (unAckedMsgBuffer s !! id);
    let '(msgExist, ub) := Delete (SeqNum receivedMsg) ub in
    '(ub, wb, es) ←
      (if msgExist then
         wb ← deref (writeBuffer s !! id);
         if 0 <? Len wb
         then '(u, w, es) ← slideWindow (SendMsg (Some clientAddr)) (WindowSize (params s)) ub wb;
              Ret (u, Some w, es)
         else Ret (ub, None, [])
       else Ret (ub, None, []));
    let s := s <| unAckedMsgBuffer := <[id := ub]> (unAckedMsgBuffer s) |>
               <| writeBuffer := match wb with
                                 | Some w => <[id := w]> (writeBuffer s)
                                 | None => writeBuffer s end |> in
    if msgExist && (Len ub =? 0) && (negb (isActive s id) || closing s)
    then Ret (cleanUp clientAddr id s, es)
    else Ret (s, es)
  else Ret (s, []).

(** The [MsgData] case. *)
Definition recvData (clientAddr : UDPAddr) (receivedMsg : Message) (s : server) : handled :=
  let id := map_get 0 (hostportConnIdMap s) clientAddr in
  if (0 <? id) && isActive s id && negb (closing s) then
    let s := s <| latestActiveEpoch := <[id := currEpoch s]> (latestActiveEpoch s) |> in
    let expected := map_get 0 (expectedSeqNum s) id in
    if expected <=? SeqNum receivedMsg then
      rb ← deref (readBuffer s !! id);
      rb' ← Insert receivedMsg rb;
      let ackMsg := NewAck id (SeqNum receivedMsg) in
      lb ← deref (latestAckBuffer s !! id);
      lb' ← Insert ackMsg lb;
      lb'' ← AdjustUsingWindow (WindowSize (params s)) lb';
      let s := s <| readBuffer := <[id := rb']> (readBuffer s) |>
                 <| latestAckBuffer := <[id := lb'']> (latestAckBuffer s) |> in
      let es := [SendMsg (Some clientAddr) ackMsg] in
      match deferedRead s with
      | readReq :: rest =>
          if SeqNum receivedMsg =? expected then
            '(s', es') ← handleRead readReq (s <| deferedRead := rest |>);
            Ret (s', es ++ es')
          else Ret (s, es)
      | [] => Ret (s, es)
      end
    else Ret (s, [])
  else Ret (s, []).

Definition handleReceivedMsg (req : request) (s : server) : handled :=
  packet ← as_packet (val req);
  let clientAddr := raddr packet in
  let receivedMsg := msg packet in
  if Type_ receivedMsg =? MsgConnect then recvConnect clientAddr s
  else if Type_ receivedMsg =? MsgAck then recvAck clientAddr receivedMsg s
  else if Type_ receivedMsg =? MsgData then recvData clientAddr receivedMsg s
  else Ret (s, []).

(** The body of the loss-detection loop for a connection that timed out. *)
Definition loseConn (id : Z) (s : server) : handled :=
  let s := if closing s then s <| connLostInClosing := true |> else s in
  let s := s <| activeConn := delete id (activeConn s) |> in
  rb ← deref (readBuffer s !! id);
  ready ← front_is rb (map_get 0 (expectedSeqNum s) id);
  let '(s, es) :=
    match deferedRead s with
    | readReq :: rest =>
        if negb ready then
          (s <| readBuffer := delete id (readBuffer s) |>
             <| expectedSeqNum := delete id (expectedSeqNum s) |>
             <| deferedRead := rest |>,
           [replyBundle readReq id [] (Some "some connection gets lost")])
        else (s, [])
    | [] => (s, [])
    end in
  clientAddr ← deref (connIdHostportMap s !! id);
  Ret (s <| hostportConnIdMap := delete clientAddr (hostportConnIdMap s) |>
         <| connIdHostportMap := delete id (connIdHostportMap s) |>
         <| writeBuffer := delete id (writeBuffer s) |>
         <| unAckedMsgBuffer := delete id (unAckedMsgBuffer s) |>
         <| latestAckBuffer := delete id (latestAckBuffer s) |>
         <| latestActiveEpoch := delete id (latestActiveEpoch s) |>
         <| seqNum := delete id (seqNum s) |>, es).

Fixpoint detectLost (ks : list Z) (s : server) : handled :=
  match ks with
  | [] => Ret (s, [])
  | id :: ks' =>
      match latestActiveEpoch s !! id with
      | Some latest =>
          '(s, es) ←
            (if EpochLimit (params s) <=? currEpoch s - latest
             then loseConn id s else Ret (s, []));
          '(s, es') ← detectLost ks' s;
          Ret (s, es ++ es')
      | None => detectLost ks' s
      end
  end.

(** What the acknowledgement loop sends for one connection. *)
Definition resendAcks (s : server) (id : Z) : list effect :=
  match latestAckBuffer s !! id with
  | Some lb =>
      if isActive s id then
        let clientAddr := connIdHostportMap s !! id in
        if Len lb =? 0 then [SendMsg clientAddr (NewAck id 0)]
        else SendMsg clientAddr <$> ReturnAll lb
      else []
  | None => []
  end.

(** What the retransmission loop sends for one connection. *)
Definition resendUnacked (s : server) (id : Z) : list effect :=
  match unAckedMsgBuffer s !! id with
  | Some ub => SendMsg (connIdHostportMap s !! id) <$> ReturnAll ub
  | None => []
  end.

(** [nonEmptyBuffer]: how many connections still have something to deliver. *)
Fixpoint countPending (ks : list Z) (s : server) : outcome Z :=
  match ks with
  | [] => Ret 0
  | id :: ks' =>
      ub ← deref (unAckedMsgBuffer s !! id);
      pending ← (if 0 <? Len ub then Ret true
                 else wb ← deref (writeBuffer s !! id); Ret (0 <? Len wb));
      n ← countPending ks' s;
      Ret (if pending : bool then n + 1 else n)
  end.

Definition handleEpoch (s : server) : handled :=
  let s := s <| currEpoch := currEpoch s + 1 |> in
  '(s, es1) ← detectLost (range 3 (keys (latestActiveEpoch s))) s;
  let es2 :=
    if negb (closing s)
    then concat (resendAcks s <$> range 4 (keys (latestAckBuffer s))) else [] in
  let ks := range 5 (keys (unAckedMsgBuffer s)) in
  nonEmptyBuffer ← countPending ks s;
  let es3 := concat (resendUnacked s <$> ks) in
  if closing s && (nonEmptyBuffer =? 0) then
    let es4 := (fun closeReq =>
      if connLostInClosing s
      then replyErr closeReq "some connections lost in the cleaning up process"
      else replyNil closeReq) <$> deferedClose s in
    s ← shutDown (s <| serverRunning := false |>);
    Ret (s, es1 ++ es2 ++ es3 ++ es4)
  else Ret (s, es1 ++ es2 ++ es3).

Definition handleCloseConn (req : request) (s : server) : handled :=
  id ← as_int (val req);
  if isActive s id then
    (* the code reads the front of deferedClose here, not of deferedRead *)
    '(s, es) ←
      match deferedRead s with
      | _ :: rest =>
          readReq ← deref (head (deferedClose s));
          Ret (s <| deferedRead := rest |>,
               [replyBundle readReq id [] (Some "some connection gets closed explicitly")])
      | [] => Ret (s, [])
      end;
    ub ← deref (unAckedMsgBuffer s !! id);
    pending ← (if 0 <? Len ub then Ret true
               else wb ← deref (writeBuffer s !! id); Ret (0 <? Len wb));
    s ← (if negb pending then
           clientAddr ← deref (connIdHostportMap s !! id);
           Ret (s <| writeBuffer := delete id (writeBuffer s) |>
                  <| unAckedMsgBuffer := delete id (unAckedMsgBuffer s) |>
                  <| hostportConnIdMap := delete clientAddr (hostportConnIdMap s) |>
                  <| connIdHostportMap := delete id (connIdHostportMap s) |>)
         else Ret s);
    Ret (s <| readBuffer := delete id (readBuffer s) |>
           <| latestAckBuffer := delete id (latestAckBuffer s) |>
           <| latestActiveEpoch := delete id (latestActiveEpoch s) |>
           <| expectedSeqNum := delete id (expectedSeqNum s) |>
           <| seqNum := delete id (seqNum s) |>
           <| activeConn := delete id (activeConn s) |>, es ++ [replyNil req])
  else Ret (s, [replyErr req "connection ID doesn't exist"]).

(** The loop at the start of [handleClose], which also reads the front of
    [deferedClose] for every deferred read. *)
Fixpoint unblockReads (reads : list request) (s : server) : outcome (list effect) :=
  match reads with
  | [] => Ret []
  | _ :: rest =>
      readReq ← deref (head (deferedClose s));
      es ← unblockReads rest s;
      Ret (replyBundle readReq 0 [] (Some "the server is closed") :: es)
  end.

(** The second loop of [handleClose] stops at the first pending connection. *)
Fixpoint anyPending (ks : list Z) (s : server) : outcome bool :=
  match ks with
  | [] => Ret false
  | id :: ks' =>
      ub ← deref (unAckedMsgBuffer s !! id);
      pending ← (if 0 <? Len ub then Ret true
                 else wb ← deref (writeBuffer s !! id); Ret (0 <? Len wb));
      if pending : bool then Ret true else anyPending ks' s
  end.

Definition handleClose (req : request) (s : server) : handled :=
  es ← unblockReads (deferedRead s) s;
  let s := s <| deferedRead := [] |> in
  pending ← anyPending (range 6 (keys (unAckedMsgBuffer s))) s;
  if negb pending then
    s ← shutDown s;
    Ret (s <| serverRunning := false |>, es ++ [replyNil req])
  else Ret (s <| deferedClose := deferedClose s ++ [req] |>, es).

(** One iteration of [eventHandler] on a request. *)
Definition eventHandler (req : request) (s : server) : handled :=
  match op req with
  | receivemsg => handleReceivedMsg req s
  | epochtimer => handleEpoch s
  | doread => handleRead req s
  | dowrite => handleWrite req s
  | docloseconn => handleCloseConn req s
  | doclose => handleClose req s
  | _ => Ret (s, [])
  end.

End handlers.

Definition well_typed_req (req : request) : bool :=
  match op req, val req with
  | dowrite, IBundle _ | receivemsg, IPacket _ | docloseconn, IInt _ => true
  | dowrite, _ | receivemsg, _ | docloseconn, _ => false
  | _, _ => true
  end.

Definition is_range (range : nat -> list Z -> list Z) : Prop :=
  forall i ks, range i ks ≡ₚ ks.

(** A run of the event loop, recording its requests and effects. *)
Inductive run (p : Params) : server -> list request -> list effect -> Prop :=
  | run_init : run p (NewServer p) [] []
  | run_turn s ins es range req s' es' :
      run p s ins es -> is_range range -> serverRunning s = true ->
      well_typed_req req = true ->
      eventHandler range req s = Ret (s', es') ->
      run p s' (ins ++ [req]) (es ++ es').

(** ** What reads deliver *)

(** The payloads successful reads returned for connection [id], in order. *)
Definition reads_of (id : Z) (es : list effect) : list (list byte) :=
  omap (fun e => match e with
                 | Reply _ (mkRet (IBundle b) None) =>
                     if connId_ b =? id then Some (payload_ b) else None
                 | _ => None end) es.

(** [m] arrived from [addr] during the run. *)
Definition arrived_from (ins : list request) (addr : UDPAddr) (m : Message) : Prop :=
  exists req, req ∈ ins /\ op req = receivemsg /\ val req = IPacket (mkPacket m addr) /\
    Type_ m = MsgData.

(** The server announced connection [id] to [addr]. *)
Definition granted (es : list effect) (id : Z) (addr : UDPAddr) : Prop :=
  SendMsg (Some addr) (NewAck id 0) ∈ es.

(** [m] is a data message of connection [id]. *)
Definition from_conn (ins : list request) (es : list effect) (id : Z) (m : Message) : Prop :=
  exists addr, granted es id addr /\ arrived_from ins addr m.

(** The receiving side of the server: read buffers, expected numbers, the
    address table and the last connection number. *)
Record tinv (rbs : gmap Z buffer) (exs : gmap Z Z) (hp : gmap string Z) (ci : Z)
    (ins : list request) (es : list effect) : Prop := {
  ti_pos : 0 <= ci;
  ti_host : forall addr id, hp !! addr = Some id -> granted es id addr /\ id <= ci;
  ti_fresh : forall id, ci < id -> rbs !! id = None /\ reads_of id es = [];
  ti_conn : forall id rb, rbs !! id = Some rb -> exists ex,
    exs !! id = Some ex /\ receiver_ok ex rb /\
    Z.of_nat (length (reads_of id es)) = ex - 1 /\
    forall m, m ∈ rb -> from_conn ins es id m;
  ti_read : forall id i b, reads_of id es !! i = Some b ->
    exists m, from_conn ins es id m /\ SeqNum m = Z.of_nat i + 1 /\ Payload m = b }.

Definition tinv_of (s : server) : list request -> list effect -> Prop :=
  tinv (readBuffer s) (expectedSeqNum s) (hostportConnIdMap s) (connId s).

(** Effects that complete no read. *)
Definition quiet (es : list effect) : Prop := forall id, reads_of id es = [].

Lemma reads_of_app id es es' : reads_of id (es ++ es') = reads_of id es ++ reads_of id es'.
Proof. apply omap_app. Qed.

Lemma quiet_nil : quiet [].
Proof. done. Qed.

Lemma quiet_cons e es : quiet [e] -> quiet es -> quiet (e :: es).
Proof.
  intros He Hes id. change (e :: es) with ([e] ++ es). by rewrite reads_of_app, He, Hes.
Qed.

Lemma quiet_app es es' : quiet es -> quiet es' -> quiet (es ++ es').
Proof. intros H1 H2 id. by rewrite reads_of_app, H1, H2. Qed.

Lemma quiet_fmap {A} (f : A -> effect) l : (forall a, quiet [f a]) -> quiet (f <$> l).
Proof.
  intros Hf. induction l as [|a l IH]; [done|]. by apply (quiet_cons (f a)).
Qed.

Lemma quiet_concat {A} (f : A -> list effect) l : (forall a, quiet (f a)) -> quiet (concat (f <$> l)).
Proof. intros Hf. induction l as [|a l IH]; [done|]. cbn. by apply quiet_app. Qed.

#[local] Hint Resolve quiet_nil quiet_app quiet_cons : core.

Lemma granted_app es es' id addr : granted es id addr -> granted (es ++ es') id addr.
Proof. unfold granted. rewrite elem_of_app. auto. Qed.

Lemma from_conn_mono ins ins' es es' id m :
  from_conn ins es id m -> from_conn (ins ++ ins') (es ++ es') id m.
Proof.
  intros (addr & Hg & req & Hin & ?). exists addr. split; [by apply granted_app|].
  exists req. rewrite elem_of_app. auto.
Qed.

(** Quiet effects and more requests preserve the history. *)
Lemma tinv_quiet rbs exs hp ci ins es ins' es' :
  tinv rbs exs hp ci ins es -> quiet es' -> tinv rbs exs hp ci (ins ++ ins') (es ++ es').
Proof.
  intros [Hp Hh Hf Hc Hr] Hq. split; [done| | | |].
  - intros addr id Ha. destruct (Hh addr id Ha). split; [by apply granted_app|done].
  - intros id Hid. rewrite reads_of_app, (Hq id), app_nil_r. auto.
  - intros id rb Hrb. destruct (Hc id rb Hrb) as (ex & ? & ? & ? & ?).
    exists ex. rewrite reads_of_app, (Hq id), app_nil_r. split_and!; auto.
    intros m Hm. apply from_conn_mono. auto.
  - intros id i b. rewrite reads_of_app, (Hq id), app_nil_r. intros Hi.
    destruct (Hr id i b Hi) as (m & ? & ?). exists m. split; [by apply from_conn_mono|done].
Qed.

Lemma tinv_delete rbs exs hp ci ins es id :
  tinv rbs exs hp ci ins es -> tinv (delete id rbs) (delete id exs) hp ci ins es.
Proof.
  intros [Hp Hh Hf Hc Hr]. split; auto.
  - intros j Hj. destruct (Hf j Hj). split; [|done]. rewrite lookup_delete. by case_decide.
  - intros j rb. rewrite !lookup_delete. case_decide; [done|]. apply Hc.
Qed.

Lemma tinv_host_delete rbs exs hp ci ins es addr :
  tinv rbs exs hp ci ins es -> tinv rbs exs (delete addr hp) ci ins es.
Proof.
  intros [Hp Hh Hf Hc Hr]. split; auto.
  intros a id. rewrite lookup_delete. case_decide; [done|]. apply Hh.
Qed.

(** Inserting a data message of the connection. *)
Lemma tinv_insert rbs exs hp ci ins es id rb rb' ex m :
  tinv rbs exs hp ci ins es -> rbs !! id = Some rb -> exs !! id = Some ex ->
  receiver_ok ex rb' -> inserted m rb rb' -> from_conn ins es id m ->
  tinv (<[id := rb']> rbs) exs hp ci ins es.
Proof.
  intros [Hp Hh Hf Hc Hr] Hrb Hex Hok Hins Hm. split; auto.
  - intros j Hj. destruct (Hf j Hj) as [Hn ?]. split; [|done].
    rewrite lookup_insert_ne; [done|]. intros ->. congruence.
  - intros j rbj. rewrite lookup_insert. case_decide as E; [subst j|apply Hc].
    intros [= <-]. destruct (Hc id rb Hrb) as (ex' & Hex' & _ & Hl & Hb).
    assert (ex' = ex) as -> by congruence. exists ex. split_and!; auto.
    intros x Hx. apply Hins in Hx as [?|[-> _]]; auto.
Qed.

(** Delivering the expected message of connection [id]. *)
Lemma tinv_deliver rbs exs hp ci ins es id rb m ch :
  tinv rbs exs hp ci ins es -> rbs !! id = Some (m :: rb) ->
  SeqNum m = map_get 0 exs id ->
  tinv (<[id := rb]> rbs) (<[id := map_get 0 exs id + 1]> exs) hp ci ins
    (es ++ [Reply ch (mkRet (IBundle (mkBundle id (Payload m))) None)]).
Proof.
  intros [Hp Hh Hf Hc Hr] Hrb Hm.
  destruct (Hc id _ Hrb) as (ex & Hex & Hok & Hl & Hb).
  assert (map_get 0 exs id = ex) as Hge by (unfold map_get; by rewrite Hex).
  rewrite Hge in *. set (e := Reply _ _).
  assert (Hself : reads_of id [e] = [Payload m]) by (cbn; by rewrite Z.eqb_refl).
  assert (Hother : forall j, j <> id -> reads_of j [e] = []).
  { intros j Hj. cbn. destruct (id =? j) eqn:E; [|done]. breflect. congruence. }
  assert (Hmono : forall j x, from_conn ins es j x -> from_conn ins (es ++ [e]) j x).
  { intros j x Hx. rewrite <- (app_nil_r ins). by apply from_conn_mono. }
  split; [done| | | |].
  - intros addr j Ha. destruct (Hh addr j Ha). split; [by apply granted_app|done].
  - intros j Hj. destruct (Hf j Hj) as [Hn Hrd].
    assert (j <> id) by (intros ->; pose proof (eq_trans (eq_sym Hn) Hrb); discriminate).
    rewrite lookup_insert_ne by done. rewrite reads_of_app, Hother, Hrd by done. auto.
  - intros j rbj. rewrite !lookup_insert. case_decide as E.
    + subst j. intros [= <-]. exists (ex + 1). rewrite reads_of_app, Hself, length_app. cbn.
      split_and!; auto; [by eapply receiver_deliver|lia|].
      intros x Hx. apply Hmono, Hb. by right.
    + intros Hj. destruct (Hc j rbj Hj) as (exj & ? & ? & ? & ?). exists exj.
      rewrite reads_of_app, Hother, app_nil_r by done. split_and!; auto.
  - intros j i b. rewrite reads_of_app. intros Hi.
    apply lookup_app_Some in Hi as [Hi|[Hge' Hi]].
    + destruct (Hr j i b Hi) as (x & ? & ?). eauto.
    + destruct (decide (j = id)) as [->|Hj]; [|rewrite Hother in Hi by done; done].
      rewrite Hself in Hi. apply list_lookup_singleton_Some in Hi as [Hi <-].
      exists m. split_and!; [|lia|done]. apply Hmono, Hb. by left.
Qed.

(** Accepting a connection. *)
Lemma tinv_connect rbs exs hp ci ins es addr :
  tinv rbs exs hp ci ins es ->
  tinv (<[ci + 1 := NewBuffer]> rbs) (<[ci + 1 := 1]> exs) (<[addr := ci + 1]> hp) (ci + 1)
    ins (es ++ [SendMsg (Some addr) (NewAck (ci + 1) 0)]).
Proof.
  intros [Hp Hh Hf Hc Hr].
  destruct (tinv_quiet _ _ _ _ ins es [] [SendMsg (Some addr) (NewAck (ci + 1) 0)]
              (Build_tinv _ _ _ _ _ _ Hp Hh Hf Hc Hr)) as [Hp' Hh' Hf' Hc' Hr']; [done|].
  rewrite app_nil_r in *. split; [lia| | | |done].
  - intros a id. rewrite lookup_insert. case_decide as E.
    + subst a. intros [= <-]. split; [|lia]. apply elem_of_app. right. by left.
    + intros Ha. destruct (Hh' a id Ha). split; [done|lia].
  - intros id Hid. rewrite lookup_insert_ne by lia. apply Hf'. lia.
  - intros id rb. rewrite !lookup_insert. case_decide as E; [subst id|apply Hc'].
    intros [= <-]. exists 1. destruct (Hf' (ci + 1)) as [_ ->]; [lia|].
    split_and!; [done|apply receiver_ok_init|done|]. intros m Hm. by apply not_elem_of_nil in Hm.
Qed.

Section preservation.
Context (range : nat -> list Z -> list Z).

Lemma readReady_tinv ks req s ins es s' es' :
  tinv_of s ins es -> readReady ks req s = Ret (Some (s', es')) -> tinv_of s' ins (es ++ es').
Proof.
  intros Ht. induction ks as [|id ks IH]; cbn; [done|]. intros H. bind_inv.
  rewrite front_is_spec in E0. injection E0 as <-.
  destruct x as [|m rb]; [by apply IH|]. destruct (SeqNum m =? _) eqn:Em; [|by apply IH].
  breflect. cbn in H. simplify_eq. by apply tinv_deliver.
Qed.

Lemma readLost_tinv ks req s ins es s' es' :
  tinv_of s ins es -> readLost ks req s = Some (s', es') -> tinv_of s' ins (es ++ es').
Proof.
  intros Ht. induction ks as [|id ks IH]; cbn; [done|].
  destruct (isActive s id); cbn; [done|]. intros [= <- <-].
  rewrite <- (app_nil_r ins). apply tinv_quiet; [by apply tinv_delete|done].
Qed.

Lemma handleRead_tinv req s ins es s' es' :
  tinv_of s ins es -> handleRead range req s = Ret (s', es') -> tinv_of s' ins (es ++ es').
Proof.
  intros Ht. unfold handleRead. destruct (closing s).
  - intros [= <- <-]. rewrite <- (app_nil_r ins). by apply tinv_quiet.
  - intros H. bind_inv. destruct x as [[s1 es1]|].
    + bind_inv. by eapply readReady_tinv.
    + destruct (readLost _ req s) as [[s1 es1]|] eqn:El.
      * bind_inv. by eapply readLost_tinv.
      * bind_inv. by rewrite app_nil_r.
Qed.

End preservation.

(** The receiving side is untouched and the effects are quiet. *)
Lemma tinv_frame s s' ins es es' :
  tinv_of s ins es -> quiet es' ->
  readBuffer s' = readBuffer s -> expectedSeqNum s' = expectedSeqNum s ->
  hostportConnIdMap s' = hostportConnIdMap s -> connId s' = connId s ->
  tinv_of s' ins (es ++ es').
Proof.
  unfold tinv_of. intros Ht Hq -> -> -> ->. rewrite <- (app_nil_r ins). by apply tinv_quiet.
Qed.

Ltac frame := eapply tinv_frame; [eassumption|try done|reflexivity..].

Lemma tinv_effects rbs exs hp ci ins es es' :
  tinv rbs exs hp ci ins es -> quiet es' -> tinv rbs exs hp ci ins (es ++ es').
Proof. intros. rewrite <- (app_nil_r ins). by apply tinv_quiet. Qed.

Lemma slideWindow_quiet to wSize ub wb ub' wb' es :
  slideWindow (SendMsg to) wSize ub wb = Ret (ub', wb', es) -> quiet es.
Proof.
  assert (Hfill : forall w wl u u' w' es, fillWindow (SendMsg to) wl wSize u w = Ret (u', w', es) ->
    quiet es).
  { induction w as [|m w IH]; intros wl u u' w' es'; cbn; [by intros [= <- <- <-]|].
    destruct (_ <=? _); [by intros [= <- <- <-]|]. intros H. bind_inv.
    destruct x0 as [[? ?] ?]. bind_inv. apply IH in E0. by apply quiet_cons. }
  unfold slideWindow. intros H. bind_inv. destruct x as [[u w] e1]. bind_inv.
  destruct x0 as [[u2 w2] e2]. bind_inv. apply quiet_app; [|by eapply Hfill].
  destruct (Len ub =? 0); bind_inv; [|done]. destruct x0. bind_inv. done.
Qed.

Lemma handleWrite_tinv req s ins es s' es' :
  tinv_of s ins es -> handleWrite req s = Ret (s', es') -> tinv_of s' ins (es ++ es').
Proof.
  intros Ht. unfold handleWrite. intros H. bind_inv.
  destruct (_ || _); [bind_inv; frame|].
  destruct (connIdHostportMap s !! _); [|bind_inv; frame].
  bind_inv. destruct x2; bind_inv; frame.
Qed.

Lemma cleanUp_tinv addr id s ins es :
  tinv_of s ins es -> tinv_of (cleanUp addr id s) ins es.
Proof.
  unfold tinv_of, cleanUp. cbn. intros Ht. apply tinv_host_delete. apply tinv_delete. exact Ht.
Qed.

Lemma recvAck_tinv addr m s ins es s' es' :
  tinv_of s ins es -> recvAck addr m s = Ret (s', es') -> tinv_of s' ins (es ++ es').
Proof.
  intros Ht. unfold recvAck.
  destruct (0 <? _); [|intros [= <- <-]; frame].
  intros H. bind_inv. destruct (Delete _ x) as [ex ub] eqn:Ed. bind_inv.
  destruct x0 as [[u w] es0]. cbn in H.
  assert (Hq : quiet es0).
  { destruct ex; [|by bind_inv]. bind_inv. destruct (0 <? _); bind_inv; [|done].
    destruct x1 as [[? ?] ?]. bind_inv. by eapply slideWindow_quiet. }
  case_match; bind_inv; [apply cleanUp_tinv|]; frame.
Qed.

Lemma recvData_tinv range addr m req s ins es s' es' :
  tinv_of s ins es -> op req = receivemsg -> val req = IPacket (mkPacket m addr) ->
  Type_ m = MsgData -> recvData range addr m s = Ret (s', es') ->
  tinv_of s' (ins ++ [req]) (es ++ es').
Proof.
  intros Ht Hop Hv Hty. unfold recvData.
  assert (Ht' : tinv_of s (ins ++ [req]) es).
  { unfold tinv_of. rewrite <- (app_nil_r es). by apply tinv_quiet. }
  destruct (_ && _) eqn:Hg; [|intros [= <- <-]; frame]. breflect. cbn.
  destruct (_ <=? SeqNum m) eqn:Ele; [|intros [= <- <-]; frame].
  intros Hr. bind_inv. breflect.
  assert (Hhost : 0 < map_get 0 (hostportConnIdMap s) addr) by done.
  apply map_get_pos in Hhost. set (id := map_get 0 (hostportConnIdMap s) addr) in *.
  destruct Ht' as [Hp Hh Hf Hc Hrd].
  destruct (Hc id x) as (ex & Hex & Hok & _); [done|].
  assert (map_get 0 (expectedSeqNum s) id = ex) as Hge by (unfold map_get; by rewrite Hex).
  rewrite Hge in *.
  destruct (receiver_insert ex x m Hok Ele) as (rb & Erb & Hok' & Hins).
  rewrite Erb in E0. injection E0 as <-.
  assert (Ht2 : tinv (<[id:=rb]> (readBuffer s)) (expectedSeqNum s) (hostportConnIdMap s) (connId s)
                  (ins ++ [req]) (es ++ [SendMsg (Some addr) (NewAck id (SeqNum m))])).
  { apply tinv_effects; [|done]. eapply tinv_insert; [by split|done..|].
    exists addr. split; [by apply Hh|]. exists req. split_and!; auto. set_solver. }
  destruct (deferedRead s) as [|rq rest]; [by bind_inv|].
  destruct (SeqNum m =? ex); [|by bind_inv]. bind_inv. destruct x0 as [s3 es3]. bind_inv.
  rewrite (app_assoc es [_] es3 : es ++ SendMsg _ _ :: es3 = _).
  eapply handleRead_tinv; [|done]. exact Ht2.
Qed.

Lemma recvConnect_tinv addr s ins es s' es' :
  tinv_of s ins es -> recvConnect addr s = Ret (s', es') -> tinv_of s' ins (es ++ es').
Proof.
  intros Ht. unfold recvConnect. destruct (_ && _).
  - intros [= <- <-]. by apply tinv_connect.
  - intros [= <- <-]. frame.
Qed.

Lemma loseConn_tinv id s ins es s' es' :
  tinv_of s ins es -> loseConn id s = Ret (s', es') -> tinv_of s' ins (es ++ es').
Proof.
  intros Ht. unfold loseConn. intros H. cbn in H. bind_inv.
  destruct (closing s); cbn in *; destruct (deferedRead s) as [|rq rest]; cbn in *;
    try destruct x0; cbn in *; bind_inv; apply tinv_host_delete;
    (apply tinv_effects; [|done]); try done; by apply tinv_delete.
Qed.

Lemma detectLost_tinv ks : forall s ins es s' es',
  tinv_of s ins es -> detectLost ks s = Ret (s', es') -> tinv_of s' ins (es ++ es').
Proof.
  induction ks as [|id ks IH]; intros s ins es s' es' Ht; cbn.
  - intros [= <- <-]. by rewrite app_nil_r.
  - destruct (latestActiveEpoch s !! id); [|by apply IH]. intros H. bind_inv.
    destruct x as [s1 e1]. bind_inv. destruct x as [s2 e2]. bind_inv. rewrite app_assoc.
    eapply IH; [|done]. destruct (_ <=? _); [by eapply loseConn_tinv|].
    bind_inv. by rewrite app_nil_r.
Qed.

Lemma quiet_sends to l : quiet (SendMsg to <$> l).
Proof. by apply quiet_fmap. Qed.

Lemma resendAcks_quiet s (b : bool) ks :
  quiet (if b then concat (resendAcks s <$> ks) else []).
Proof.
  destruct b; [|done]. apply quiet_concat. intros id. unfold resendAcks.
  destruct (_ !! id); [|done]. destruct (isActive s id); [|done].
  destruct (_ =? _); [done|apply quiet_sends].
Qed.

Lemma resendUnacked_quiet s ks : quiet (concat (resendUnacked s <$> ks)).
Proof.
  apply quiet_concat. intros id. unfold resendUnacked.
  destruct (_ !! id); [apply quiet_sends|done].
Qed.

Lemma shutDown_frame s s' : shutDown s = Ret s' -> s' = s <| helpersUp := false |>.
Proof. unfold shutDown. destruct (helpersUp s); by intros [= <-]. Qed.

Lemma handleEpoch_tinv range s ins es s' es' :
  tinv_of s ins es -> handleEpoch range s = Ret (s', es') -> tinv_of s' ins (es ++ es').
Proof.
  intros Ht. unfold handleEpoch. intros H. bind_inv. destruct x as [s1 e1]. bind_inv.
  apply (detectLost_tinv _ _ ins es) in E; [|done].
  destruct (_ && _); bind_inv; rewrite app_assoc.
  - apply shutDown_frame in E1 as ->.
    eapply tinv_frame; [exact E| |reflexivity..]. apply quiet_app; [apply resendAcks_quiet|].
    apply quiet_app; [apply resendUnacked_quiet|]. apply quiet_fmap. intros rq.
    by destruct (connLostInClosing s1).
  - eapply tinv_frame; [exact E| |reflexivity..].
    apply quiet_app; [apply resendAcks_quiet|apply resendUnacked_quiet].
Qed.

Lemma handleCloseConn_tinv req s ins es s' es' :
  tinv_of s ins es -> handleCloseConn req s = Ret (s', es') -> tinv_of s' ins (es ++ es').
Proof.
  intros Ht. unfold handleCloseConn. intros H. bind_inv.
  destruct (isActive s x); [|bind_inv; frame].
  bind_inv. destruct x0 as [s1 e1]. bind_inv.
  assert (Hq : quiet (e1 ++ [replyNil req])).
  { apply quiet_app; [|done]. destruct (deferedRead s); bind_inv; done. }
  assert (Ht1 : tinv_of s1 ins es).
  { destruct (deferedRead s); bind_inv; done. }
  apply tinv_effects; [|done]. apply tinv_delete.
  destruct x1; cbn in *; bind_inv; [done|]. by apply tinv_host_delete.
Qed.

Lemma unblockReads_quiet s rs : forall es, unblockReads rs s = Ret es -> quiet es.
Proof.
  induction rs as [|rq rs IH]; intros es E; cbn in E; bind_inv; [done|].
  apply quiet_cons; [done|]. by apply IH.
Qed.

Lemma handleClose_tinv range req s ins es s' es' :
  tinv_of s ins es -> handleClose range req s = Ret (s', es') -> tinv_of s' ins (es ++ es').
Proof.
  intros Ht. unfold handleClose. intros H. bind_inv.
  apply unblockReads_quiet in E.
  destruct x0; cbn in *; bind_inv.
  - frame.
  - apply shutDown_frame in E1 as ->. eapply tinv_frame; [done| |done..]. by apply quiet_app.
Qed.

Lemma eventHandler_tinv range req s ins es s' es' :
  tinv_of s ins es -> eventHandler range req s = Ret (s', es') ->
  tinv_of s' (ins ++ [req]) (es ++ es').
Proof.
  intros Ht.
  assert (Ht' : tinv_of s (ins ++ [req]) es).
  { unfold tinv_of. rewrite <- (app_nil_r es). by apply tinv_quiet. }
  unfold eventHandler. destruct (op req) eqn:Hop;
    eauto using handleRead_tinv, handleWrite_tinv, handleClose_tinv, handleCloseConn_tinv,
      handleEpoch_tinv.
  1, 2: intros [= <- <-]; by rewrite app_nil_r.
  unfold handleReceivedMsg. destruct (val req) as [| | |[m addr]|] eqn:Hv; cbn; try done.
  destruct (Type_ m =? MsgConnect); [by apply recvConnect_tinv|].
  destruct (Type_ m =? MsgAck); [by apply recvAck_tinv|].
  destruct (Type_ m =? MsgData) eqn:Ht3.
  - breflect. by eapply recvData_tinv.
  - intros [= <- <-]. by rewrite app_nil_r.
Qed.

Lemma server_run_tinv p s ins es : run p s ins es -> tinv_of s ins es.
Proof.
  induction 1 as [|s ins es range req s' es' _ IH _ _ _ Hev]; [|by eapply eventHandler_tinv].
  split; cbn; done.
Qed.

(** ** Executing a run *)

Definition in_order (i : nat) (ks : list Z) : list Z := ks.

Fixpoint simulate (l : list request) (st : server * list request * list effect)
  : option (server * list request * list effect) :=
  let '(s, ins, es) := st in
  match l with
  | [] => Some st
  | req :: l' =>
      if serverRunning s && well_typed_req req then
        match eventHandler in_order req s with
        | Ret (s', es') => simulate l' (s', ins ++ [req], es ++ es')
        | _ => None
        end
      else None
  end.

Lemma server_simulate_run p l : forall s ins es s' ins' es',
  run p s ins es -> simulate l (s, ins, es) = Some (s', ins', es') -> run p s' ins' es'.
Proof.
  induction l as [|req l IH]; intros s ins es s' ins' es' Hr; cbn [simulate].
  - by intros [= <- <- <-].
  - destruct (serverRunning s && well_typed_req req) eqn:Hok; [|done]. breflect.
    destruct (eventHandler in_order req s) as [[s1 e1]| |] eqn:Ev; [|done..].
    apply IH. apply (run_turn p s ins es in_order); [done|intros i ks; reflexivity|done..].
Qed.

(** Two clients connect; the first sends message 2 before message 1. *)
Definition packet (addr : UDPAddr) (m : Message) : request :=
  mkRequest receivemsg (IPacket (mkPacket m addr)) 0.
Definition read_req (ch : Z) : request := mkRequest doread INil ch.
Definition write_req (id ch : Z) : request :=
  mkRequest dowrite (IBundle (mkBundle id [x77])) ch.
Definition demo_session : list request :=
  [ packet "a:1" NewConnect; packet "b:2" NewConnect;
    packet "a:1" (NewData 1 2 [x42]); packet "a:1" (NewData 1 1 [x41]);
    packet "b:2" (NewData 2 1 [x43]);
    write_req 1 10; write_req 1 11; packet "a:1" (NewAck 1 1);
    read_req 12; read_req 13; read_req 14; read_req 15;
    packet "b:2" (NewData 2 2 [x44]); mkRequest epochtimer INil 0 ].

Definition server0 : server * list request * list effect := (NewServer NewParams, [], []).
Definition after (l : list request) : server * list request * list effect :=
  default server0 (simulate l server0).
Definition demo_end : server * list request * list effect := after demo_session.

Lemma server_demo_run : run NewParams demo_end.1.1 demo_end.1.2 demo_end.2.
Proof.
  apply (server_simulate_run NewParams demo_session (NewServer NewParams) [] []).
  - apply run_init.
  - vm_compute. reflexivity.
Qed.

Example server_demo_reads :
  reads_of 1 demo_end.2 = [[x41]; [x42]] /\ reads_of 2 demo_end.2 = [[x43]; [x44]].
Proof. vm_compute. auto. Qed.

(** ** Runs in which nothing is closed *)

(** The tables of one connection: all present and consistent while it is
    active, all gone once it is lost. *)
Inductive conn_ok (w : Z) (hp : gmap string Z) (id : Z) :
    option buffer -> option buffer -> option buffer -> option Z -> option Z ->
    option UDPAddr -> option bool -> Prop :=
  | conn_up ub wb lb n le addr :
      sender_ok w n ub wb -> wf lb -> hp !! addr = Some id ->
      conn_ok w hp id (Some ub) (Some wb) (Some lb) (Some n) (Some le) (Some addr) (Some true)
  | conn_down : conn_ok w hp id None None None None None None None.

(** The read buffer outlives the connection until it is drained. *)
Inductive read_ok : option buffer -> option Z -> option bool -> Prop :=
  | read_up rb ex act : receiver_ok ex rb -> read_ok (Some rb) (Some ex) act
  | read_down : read_ok None None None.

Record sinv (s : server) : Prop := {
  si_close : deferedClose s = [];
  si_conn : forall id, conn_ok (WindowSize (params s)) (hostportConnIdMap s) id
    (unAckedMsgBuffer s !! id) (writeBuffer s !! id) (latestAckBuffer s !! id)
    (seqNum s !! id) (latestActiveEpoch s !! id) (connIdHostportMap s !! id)
    (activeConn s !! id);
  si_read : forall id, read_ok (readBuffer s !! id) (expectedSeqNum s !! id) (activeConn s !! id);
  si_host : forall addr id, hostportConnIdMap s !! addr = Some id ->
    connIdHostportMap s !! id = Some addr /\ 0 < id <= connId s;
  si_id : 0 <= connId s }.

Lemma sinv_init p : sinv (NewServer p).
Proof. split; cbn; try done; intros id; rewrite ?lookup_empty; constructor. Qed.

(** The handler returns, and keeps [sinv]. *)
Definition safe (h : handled) : Prop := exists s es, h = Ret (s, es) /\ sinv s.

Lemma safe_ret s es : sinv s -> safe (Ret (s, es)).
Proof. intros. by exists s, es. Qed.

Lemma sinv_closing s : sinv s -> closing s = false.
Proof. intros Hs. unfold closing. by rewrite (si_close s Hs). Qed.

(** An active connection has all its tables. *)
Lemma sinv_active s id : sinv s -> isActive s id = true ->
  exists ub wb lb n le addr, unAckedMsgBuffer s !! id = Some ub /\ writeBuffer s !! id = Some wb /\
    latestAckBuffer s !! id = Some lb /\ seqNum s !! id = Some n /\
    latestActiveEpoch s !! id = Some le /\ connIdHostportMap s !! id = Some addr /\
    activeConn s !! id = Some true /\
    sender_ok (WindowSize (params s)) n ub wb /\ wf lb /\ hostportConnIdMap s !! addr = Some id.
Proof.
  intros Hs Hact. pose proof (si_conn s Hs id) as Hc. unfold isActive, map_get in Hact.
  inversion Hc; [by eauto 20|]. 
  match goal with H : None = activeConn s !! id |- _ => rewrite <- H in Hact end. done.
Qed.

Lemma sinv_inactive s id : sinv s -> isActive s id = false -> activeConn s !! id = None.
Proof.
  intros Hs Hact. pose proof (si_conn s Hs id) as Hc. unfold isActive, map_get in Hact.
  inversion Hc; [|done].
  match goal with H : Some true = activeConn s !! id |- _ => rewrite <- H in Hact end. done.
Qed.

Lemma sinv_known s addr id : sinv s -> hostportConnIdMap s !! addr = Some id ->
  isActive s id = true.
Proof.
  intros Hs Ha. destruct (si_host s Hs addr id Ha) as [Hc _].
  destruct (isActive s id) eqn:E; [done|]. pose proof (si_conn s Hs id) as Hok.
  rewrite (sinv_inactive s id Hs E), Hc in Hok. inversion Hok.
Qed.

Lemma keys_lookup {A} (m : gmap Z A) id : id ∈ keys m -> is_Some (m !! id).
Proof.
  unfold keys. intros ([i x] & -> & Hin)%list_elem_of_fmap.
  apply elem_of_map_to_list in Hin. by exists x.
Qed.

Lemma readReady_safe ks req s :
  sinv s -> (forall id, id ∈ ks -> is_Some (readBuffer s !! id)) ->
  readReady ks req s = Ret None \/
  exists s' es, readReady ks req s = Ret (Some (s', es)) /\ sinv s'.
Proof.
  intros Hs. induction ks as [|id ks IH]; intros Hks; cbn [readReady]; [by left|].
  destruct (Hks id) as [rb Hrb]; [by left|]. rewrite Hrb. cbn [deref mbind outcome_bind].
  rewrite front_is_spec. cbn [mbind outcome_bind].
  assert (Hks' : forall j, j ∈ ks -> is_Some (readBuffer s !! j)) by (intros; apply Hks; by right).
  destruct rb as [|m rb]; [by apply IH|]. destruct (SeqNum m =? _) eqn:E; [|by apply IH].
  breflect. right. do 2 eexists. split; [reflexivity|]. destruct Hs as [H1 H2 H3 H4 H5].
  split; cbn; auto. intros j. rewrite !lookup_insert. case_decide as Ej; [subst j|apply H3].
  pose proof (H3 id) as Hok. rewrite Hrb in Hok. inversion Hok as [? ex ? Hro Hb He|]; subst.
  constructor. symmetry in He. apply (map_get_Some 0) in He as Hg. rewrite Hg in *.
  by eapply receiver_deliver.
Qed.

Lemma readLost_safe ks req s : sinv s ->
  forall s' es, readLost ks req s = Some (s', es) -> sinv s'.
Proof.
  intros Hs s' es. induction ks as [|id ks IH]; cbn; [done|].
  destruct (isActive s id) eqn:Ea; cbn; [done|]. intros [= <- <-].
  apply sinv_inactive in Ea; [|done]. destruct Hs as [H1 H2 H3 H4 H5]. split; cbn; auto.
  intros j. rewrite !lookup_delete. case_decide as Ej; [subst j|apply H3].
  rewrite Ea. constructor.
Qed.

Section safety.
Context (range : nat -> list Z -> list Z) (Hrange : is_range range).

Lemma range_keys {A} i (m : gmap Z A) id : id ∈ range i (keys m) -> is_Some (m !! id).
Proof. rewrite (Hrange i (keys m)). apply keys_lookup. Qed.

Lemma handleRead_safe req s : sinv s -> safe (handleRead range req s).
Proof.
  intros Hs. unfold handleRead. rewrite (sinv_closing s Hs).
  destruct (readReady_safe (range 1%nat (keys (readBuffer s))) req s Hs) as [->|(s' & es & -> & Hs')].
  { intros id. apply range_keys. }
  - cbn. destruct (readLost _ _ _) as [[s' es]|] eqn:E; apply safe_ret.
    + by eapply readLost_safe.
    + by destruct Hs.
  - by apply safe_ret.
Qed.

Lemma handleWrite_safe req s :
  sinv s -> op req = dowrite -> well_typed_req req = true -> safe (handleWrite req s).
Proof.
  intros Hs Hop Hty. unfold well_typed_req in Hty. rewrite Hop in Hty. unfold handleWrite.
  destruct (val req) as [| | | |[id payload]]; try done. cbn.
  rewrite (sinv_closing s Hs). cbn.
  destruct (isActive s id) eqn:Ea; cbn; [|by apply safe_ret].
  destruct (sinv_active s id Hs Ea) as
    (ub & wb & lb & n & le & addr & Hub & Hwb & Hlb & Hn & Hle & Haddr & Hact & Hso & Hwf & Hhp).
  rewrite Haddr, Hub, Hwb, (map_get_Some 0 _ _ _ Hn). cbn.
  destruct (fitsWindow_ret wb ub (n + 1) (WindowSize (params s))) as [b Hfit]. rewrite Hfit. cbn.
  set (m := NewData id (n + 1) payload).
  assert (Hupd : forall ub' wb', sender_ok (WindowSize (params s)) (n + 1) ub' wb' ->
    sinv (s <| seqNum := <[id := n + 1]> (seqNum s) |>
            <| unAckedMsgBuffer := <[id := ub']> (unAckedMsgBuffer s) |>
            <| writeBuffer := <[id := wb']> (writeBuffer s) |>)).
  { intros ub' wb' Hok. destruct Hs as [H1 H2 H3 H4 H5]. split; cbn; auto.
    intros j. rewrite !lookup_insert. case_decide as Ej; [subst j|apply H2].
    rewrite Hlb, Hle, Haddr, Hact. by constructor. }
  destruct b.
  - destruct (sender_write_fits _ _ _ _ m Hso eq_refl Hfit) as [-> Hok]. apply safe_ret.
    specialize (Hupd _ _ Hok). cbn in Hupd. by rewrite (insert_id (writeBuffer s) id wb Hwb) in Hupd.
  - destruct (sender_write_waits _ _ _ _ m Hso eq_refl) as [-> Hok]. apply safe_ret.
    specialize (Hupd _ _ Hok). cbn in Hupd.
    by rewrite (insert_id (unAckedMsgBuffer s) id ub Hub) in Hupd.
Qed.

Lemma recvConnect_safe addr s : sinv s -> safe (recvConnect addr s).
Proof.
  intros Hs. unfold recvConnect. destruct (_ && _) eqn:Hg; apply safe_ret; [|done].
  breflect. destruct Hs as [H1 H2 H3 H4 H5].
  assert (Hnone : hostportConnIdMap s !! addr = None).
  { destruct (hostportConnIdMap s !! addr) as [id|] eqn:E; [|done].
    rewrite (map_get_Some 0 _ _ _ E) in *. destruct (H4 addr id E). lia. }
  split; cbn; [done| | | |lia].
  - intros j. rewrite !lookup_insert. case_decide as Ej; [subst j|].
    + econstructor; [apply sender_ok_init|apply wf_nil|]. by rewrite lookup_insert_eq.
    + destruct (H2 j) as [ub wb lb n le a Hso Hwf Ha|]; [|constructor].
      econstructor; [done..|]. rewrite lookup_insert_ne; [done|]. intros <-. congruence.
  - intros j. rewrite !lookup_insert. case_decide as Ej; [|apply H3].
    constructor. apply receiver_ok_init.
  - intros a j. rewrite !lookup_insert. case_decide as Ea.
    + intros [= <-]. subst. rewrite decide_True by done. split; [done|lia].
    + intros Ha. destruct (H4 a j Ha). rewrite decide_False by lia. split; [done|lia].
Qed.

Lemma recvAck_safe addr m s : sinv s -> safe (recvAck addr m s).
Proof.
  intros Hs. unfold recvAck. destruct (0 <? _) eqn:Hg; [|by apply safe_ret]. breflect.
  apply map_get_pos in Hg. set (id := map_get 0 (hostportConnIdMap s) addr) in *.
  pose proof (sinv_known s addr id Hs Hg) as Ea. cbn.
  destruct (sinv_active s id Hs Ea) as
    (ub & wb & lb & n & le & addr' & Hub & Hwb & Hlb & Hn & Hle & Haddr & Hact & Hso & Hwf & Hhp).
  rewrite Hub, Hwb. cbn.
  assert (Hupd : forall ub' wb', sender_ok (WindowSize (params s)) n ub' wb' ->
    sinv (s <| latestActiveEpoch := <[id := currEpoch s]> (latestActiveEpoch s) |>
            <| unAckedMsgBuffer := <[id := ub']> (unAckedMsgBuffer s) |>
            <| writeBuffer := <[id := wb']> (writeBuffer s) |>)).
  { intros ub' wb' Hok. destruct Hs as [H1 H2 H3 H4 H5]. split; cbn; auto.
    intros j. rewrite !lookup_insert. case_decide as Ej; [subst j|apply H2].
    rewrite Hlb, Hn, Haddr, Hact. by econstructor. }
  assert (Hact' : forall t, activeConn t = activeConn s -> deferedClose t = deferedClose s ->
    negb (isActive t id) || closing t = false).
  { intros t Ht Hc. unfold isActive, closing. rewrite Ht, Hc, (si_close s Hs). cbn.
    unfold map_get. rewrite Hact. done. }
  pose proof (sender_ok_delete _ _ _ _ (SeqNum m) Hso) as Hdel.
  destruct (Delete (SeqNum m) ub) as [ex ub1] eqn:Ed. cbn in Hdel |- *.
  assert (Hwait : sinv (s <| latestActiveEpoch := <[id := currEpoch s]> (latestActiveEpoch s) |>
            <| unAckedMsgBuffer := <[id := ub1]> (unAckedMsgBuffer s) |>)).
  { specialize (Hupd _ _ Hdel). cbn in Hupd. by rewrite (insert_id (writeBuffer s) id wb Hwb) in Hupd. }
  destruct ex; cbn; [|by apply safe_ret].
  destruct (0 <? Len wb) eqn:El; cbn.
  - destruct (slideWindow_spec (SendMsg (Some addr)) _ _ _ _ Hdel) as (mv & rest & -> & -> & Hok).
    { intros ->. done. }
    cbn. rewrite Hact' by done. rewrite andb_false_r. apply safe_ret. by apply Hupd.
  - rewrite Hact' by done. rewrite andb_false_r. by apply safe_ret.
Qed.

Lemma recvData_safe addr m s : sinv s -> safe (recvData range addr m s).
Proof.
  intros Hs. unfold recvData. destruct (_ && _) eqn:Hg; [|by apply safe_ret]. breflect. cbn.
  assert (Hhost : 0 < map_get 0 (hostportConnIdMap s) addr) by done.
  apply map_get_pos in Hhost. set (id := map_get 0 (hostportConnIdMap s) addr) in *.
  destruct (sinv_active s id Hs) as
    (ub & wb & lb & n & le & addr' & Hub & Hwb & Hlb & Hn & Hle & Haddr & Hact & Hso & Hwf & Hhp);
    [done|].
  assert (Hepoch : forall lb', wf lb' -> sinv (s <| latestActiveEpoch := <[id := currEpoch s]> (latestActiveEpoch s) |>
                                    <| latestAckBuffer := <[id := lb']> (latestAckBuffer s) |>)).
  { intros lb' Hwf'. destruct Hs as [G1 G2 G3 G4 G5]. split; cbn; auto. intros j.
    rewrite !lookup_insert. case_decide as Ej; [subst j|apply G2].
    rewrite Hub, Hwb, Hn, Haddr, Hact. by econstructor. }
  destruct (_ <=? SeqNum m) eqn:Ele.
  2: { apply safe_ret. specialize (Hepoch _ Hwf).
       by rewrite (insert_id (latestAckBuffer s) id lb Hlb) in Hepoch. }
  breflect. pose proof (si_read s Hs id) as Hrd. rewrite Hact in Hrd.
  inversion Hrd as [rb ex act Hro Hrb Hex Eact|]; subst act. symmetry in Hrb, Hex.
  rewrite (map_get_Some 0 _ _ _ Hex) in *. cbn.
  destruct (receiver_insert ex rb m Hro Ele) as (rb' & -> & Hro' & _). cbn. rewrite Hlb. cbn.
  destruct (latestAck_update (WindowSize (params s)) lb (NewAck id (SeqNum m)) Hwf)
    as (lb' & lb'' & -> & Eadj & Hwf'). cbn. rewrite Eadj. cbn.
  assert (Hnew : forall dr, sinv (s <| latestActiveEpoch := <[id := currEpoch s]> (latestActiveEpoch s) |>
            <| readBuffer := <[id := rb']> (readBuffer s) |>
            <| latestAckBuffer := <[id := lb'']> (latestAckBuffer s) |>
            <| deferedRead := dr |>)).
  { intros dr. destruct (Hepoch _ Hwf') as [G1 G2 G3 G4 G5]. cbn in *. split; cbn; auto.
    intros j. rewrite lookup_insert. case_decide as Ej; [subst j|apply G3].
    rewrite Hex. by constructor. }
  destruct (deferedRead s) as [|rq rest] eqn:Edr.
  - apply safe_ret. exact (Hnew []).
  - destruct (SeqNum m =? ex); cbn.
    + destruct (handleRead_safe rq _ (Hnew rest)) as (s' & es' & E & Hs'). cbn in E.
      rewrite E. cbn. by apply safe_ret.
    + apply safe_ret. exact (Hnew (rq :: rest)).
Qed.

Lemma handleReceivedMsg_safe req s :
  sinv s -> op req = receivemsg -> well_typed_req req = true -> safe (handleReceivedMsg range req s).
Proof.
  intros Hs Hop Hty. unfold well_typed_req in Hty. rewrite Hop in Hty. unfold handleReceivedMsg.
  destruct (val req) as [| | |[m addr]|]; try done. cbn.
  destruct (_ =? MsgConnect); [by apply recvConnect_safe|].
  destruct (_ =? MsgAck); [by apply recvAck_safe|].
  destruct (_ =? MsgData); [by apply recvData_safe|by apply safe_ret].
Qed.

Lemma loseConn_safe id s : sinv s -> is_Some (latestActiveEpoch s !! id) -> safe (loseConn id s).
Proof.
  intros Hs [le0 Hle0].
  assert (Ea : isActive s id = true).
  { pose proof (si_conn s Hs id) as Hc. rewrite Hle0 in Hc. unfold isActive, map_get.
    by inversion Hc. }
  destruct (sinv_active s id Hs Ea) as
    (ub & wb & lb & n & le & addr & Hub & Hwb & Hlb & Hn & Hle & Haddr & Hact & Hso & Hwf & Hhp).
  pose proof (si_read s Hs id) as Hrd. rewrite Hact in Hrd.
  inversion Hrd as [rb ex act Hro Hrb Hex Eact|]; subst act. symmetry in Hrb, Hex.
  unfold loseConn. rewrite (sinv_closing s Hs). cbn. rewrite Hrb. cbn. rewrite front_is_spec. cbn.
  destruct Hs as [H1 H2 H3 H4 H5].
  assert (Hlost : forall rbs exs dr,
    (forall j, j <> id -> rbs !! j = readBuffer s !! j /\ exs !! j = expectedSeqNum s !! j) ->
    read_ok (rbs !! id) (exs !! id) None ->
    sinv (s <| readBuffer := rbs |> <| expectedSeqNum := exs |> <| deferedRead := dr |>
         <| activeConn := delete id (activeConn s) |>
         <| hostportConnIdMap := delete addr (hostportConnIdMap s) |>
         <| connIdHostportMap := delete id (connIdHostportMap s) |>
         <| writeBuffer := delete id (writeBuffer s) |>
         <| unAckedMsgBuffer := delete id (unAckedMsgBuffer s) |>
         <| latestAckBuffer := delete id (latestAckBuffer s) |>
         <| latestActiveEpoch := delete id (latestActiveEpoch s) |>
         <| seqNum := delete id (seqNum s) |>)).
  { intros rbs exs dr Hother Hid. split; cbn; [done| | | |done].
    - intros j. rewrite !lookup_delete. case_decide as Ej; [constructor|].
      destruct (H2 j) as [ub' wb' lb' n' le' a Hso' Hwf' Ha|]; [|constructor].
      econstructor; [done..|]. rewrite lookup_delete_ne; [done|]. intros <-. congruence.
    - intros j. rewrite lookup_delete. case_decide as Ej; [by subst j|].
      destruct (Hother j) as [-> ->]; [done|]. apply H3.
    - intros a j. rewrite !lookup_delete. case_decide as Ea'; [done|]. intros Ha.
      destruct (H4 a j Ha) as [Hc ?]. rewrite decide_False; [done|]. intros ->. congruence. }
  cbn in Hlost.
  assert (Hkeep : read_ok (readBuffer s !! id) (expectedSeqNum s !! id) None).
  { rewrite Hrb, Hex. by constructor. }
  destruct (deferedRead s) as [|rq rest] eqn:Edr; cbn.
  - rewrite Haddr. apply safe_ret.
    rewrite <- Edr. exact (Hlost (readBuffer s) (expectedSeqNum s) _ (fun _ _ => conj eq_refl eq_refl) Hkeep).
  - destruct (negb _); cbn; rewrite Haddr; apply safe_ret.
    + apply (Hlost (delete id (readBuffer s)) (delete id (expectedSeqNum s)) rest);
        [|rewrite !lookup_delete_eq; constructor].
      intros j Hj. by rewrite !lookup_delete_ne by done.
    + rewrite <- Edr. exact (Hlost (readBuffer s) (expectedSeqNum s) _ (fun _ _ => conj eq_refl eq_refl) Hkeep).
Qed.

Lemma detectLost_safe ks : forall s, sinv s -> safe (detectLost ks s).
Proof.
  induction ks as [|id ks IH]; intros s Hs; cbn [detectLost]; [by apply safe_ret|].
  destruct (latestActiveEpoch s !! id) as [le|] eqn:Hle; [|by apply IH].
  assert (Hl : safe (if EpochLimit (params s) <=? currEpoch s - le then loseConn id s else Ret (s, []))).
  { destruct (_ <=? _); [by apply loseConn_safe|by apply safe_ret]. }
  destruct Hl as (s1 & e1 & -> & Hs1). cbn.
  destruct (IH s1 Hs1) as (s2 & e2 & -> & Hs2). by apply safe_ret.
Qed.

Lemma countPending_ret s : sinv s -> forall ks,
  (forall id, id ∈ ks -> is_Some (unAckedMsgBuffer s !! id)) -> exists n, countPending ks s = Ret n.
Proof.
  intros Hs. induction ks as [|id ks IH]; intros Hks; cbn [countPending]; [eauto|].
  destruct (Hks id) as [ub Hub]; [by left|]. destruct IH as [n Hn]; [intros; apply Hks; by right|].
  pose proof (si_conn s Hs id) as Hc. rewrite Hub in *. inversion Hc. cbn.
  destruct (0 <? Len ub); cbn; rewrite Hn; cbn; eauto.
Qed.

Lemma handleEpoch_safe s : sinv s -> safe (handleEpoch range s).
Proof.
  intros Hs. unfold handleEpoch.
  assert (Hs0 : sinv (s <| currEpoch := currEpoch s + 1 |>)) by by destruct Hs.
  destruct (detectLost_safe (range 3%nat (keys (latestActiveEpoch s))) _ Hs0) as (s1 & e1 & E & Hs1).
  cbn in E |- *. rewrite E. cbn.
  destruct (countPending_ret s1 Hs1 (range 5%nat (keys (unAckedMsgBuffer s1)))) as [n ->].
  { intros id. apply range_keys. }
  cbn. rewrite (sinv_closing s1 Hs1). by apply safe_ret.
Qed.

Lemma eventHandler_safe req s :
  sinv s -> well_typed_req req = true -> op req <> docloseconn -> op req <> doclose ->
  safe (eventHandler range req s).
Proof.
  intros Hs Hty H1 H2. unfold eventHandler. destruct (op req) eqn:Hop; try done.
  - by apply handleRead_safe.
  - by apply handleWrite_safe.
  - by apply safe_ret.
  - by apply safe_ret.
  - by apply handleEpoch_safe.
  - by apply handleReceivedMsg_safe.
Qed.

End safety.

(** No connection and no server is closed by the user. *)
Definition never_closed (ins : list request) : Prop :=
  Forall (fun r => op r <> docloseconn /\ op r <> doclose) ins.

Lemma run_sinv p s ins es : run p s ins es -> never_closed ins -> sinv s.
Proof.
  induction 1 as [|s ins es range req s' es' _ IH Hrange _ Hty Hev]; intros Hnc.
  - apply sinv_init.
  - apply Forall_app in Hnc as [Hnc [[H1 H2] _]%Forall_cons].
    destruct (eventHandler_safe range Hrange req s (IH Hnc) Hty H1 H2) as (s1 & e1 & E & Hs1).
    rewrite Hev in E. by injection E as <- <-.
Qed.

(** ** Properties *)

(** C10: the server's reads are in order on every connection.  In any run, the
    successful reads for a connection returned, in order, the payloads of data
    messages numbered 1, 2, 3, ... that arrived from an address to which the
    server had granted that connection: no payload is lost, duplicated or
    taken from another client. *)
Theorem server_reads_in_order p s ins es id i b :
  run p s ins es -> reads_of id es !! i = Some b ->
  exists addr m, granted es id addr /\ arrived_from ins addr m /\
    SeqNum m = Z.of_nat i + 1 /\ Payload m = b.
Proof.
  intros Hr Hi. destruct (ti_read _ _ _ _ _ _ (server_run_tinv _ _ _ _ Hr) id i b Hi)
    as (m & (addr & ? & ?) & ? & ?). by exists addr, m.
Qed.

Lemma server_reads_in_order_witness :
  exists addr m, granted demo_end.2 1 addr /\ arrived_from demo_end.1.2 addr m /\
    SeqNum m = 2 /\ Payload m = [x42].
Proof.
  apply (server_reads_in_order NewParams demo_end.1.1 demo_end.1.2 demo_end.2 1 1%nat [x42] server_demo_run).
  vm_compute. reflexivity.
Defined.

(** C12: while nothing is closed the server handles every request.  In every
    state reached without a CloseConn or Close request, a further request of
    that kind is handled: the handler neither panics (no table entry is
    missing, no front of an empty buffer is read) nor hangs, whatever the
    iteration order of the maps. *)
Theorem server_total_while_open p s ins es range req :
  run p s ins es -> never_closed ins -> is_range range ->
  well_typed_req req = true -> op req <> docloseconn -> op req <> doclose ->
  exists s' es', eventHandler range req s = Ret (s', es').
Proof.
  intros Hr Hnc Hrange Hty H1 H2.
  destruct (eventHandler_safe range Hrange req s (run_sinv _ _ _ _ Hr Hnc) Hty H1 H2)
    as (s' & es' & E & _). eauto.
Qed.

Lemma demo_never_closed : never_closed demo_end.1.2.
Proof.
  replace demo_end.1.2 with demo_session by (vm_compute; reflexivity).
  repeat constructor; discriminate.
Qed.

Lemma server_total_while_open_witness :
  exists s' es', eventHandler in_order (mkRequest epochtimer INil 0) demo_end.1.1 = Ret (s', es').
Proof.
  apply (server_total_while_open NewParams _ _ _ in_order _ server_demo_run demo_never_closed);
    [intros i ks; reflexivity|reflexivity|discriminate|discriminate].
Defined.

(** The server respects the window of every connection.  While nothing is
    closed, the unacknowledged messages of each connection lie in a window of
    [WindowSize] sequence numbers, in strictly increasing order together with
    the waiting ones, and the address tables of live connections are inverse
    to each other. *)
Lemma server_window_respected p s ins es :
  run p s ins es -> never_closed ins ->
  (forall id ub, unAckedMsgBuffer s !! id = Some ub ->
     (forall a b, a ∈ ub -> b ∈ ub -> SeqNum b - SeqNum a < Z.max 1 (WindowSize (params s))) /\
     exists wb addr, writeBuffer s !! id = Some wb /\ increasing (seqs (ub ++ wb)) /\
       connIdHostportMap s !! id = Some addr /\ hostportConnIdMap s !! addr = Some id) /\
  (forall addr id, hostportConnIdMap s !! addr = Some id -> connIdHostportMap s !! id = Some addr).
Proof.
  intros Hr Hnc. pose proof (run_sinv _ _ _ _ Hr Hnc) as Hs. split.
  - intros id ub Hub. pose proof (si_conn s Hs id) as Hc. rewrite Hub in Hc.
    inversion Hc as [ub' wb lb n le addr [Hwf Hle Hwin] Hlb Hhp|]; subst. split; [|by eauto 10].
    intros a b Ha Hb. unfold window_ok in Hwin.
    destruct ub as [|f ub]; [by apply not_elem_of_nil in Ha|].
    rewrite Forall_forall in Hwin. specialize (Hwin b Hb).
    apply wf_app in Hwf as (Hwf & _ & _). pose proof (wf_front_le _ _ _ Hwf Ha). lia.
  - intros addr id Ha. by destruct (si_host s Hs addr id Ha).
Qed.

(** The server after a client connected and a Read found nothing to return. *)
Definition blocked_reader : list request := [packet "a:1" NewConnect; read_req 7].

(** Closing while a Read is blocked crashes the server.  Both
    [handleCloseConn], on a live connection, and [handleClose] take the
    request to unblock from [deferedClose] instead of [deferedRead], so with a
    Read waiting and no Close waiting they dereference a nil list element; and
    such a state is reached by one connecting client and one Read. *)
Lemma server_close_panics_on_blocked_read :
  (forall range req s, op req = doclose -> deferedRead s <> [] -> deferedClose s = [] ->
     eventHandler range req s = Panic) /\
  (forall range req s id, op req = docloseconn -> val req = IInt id -> isActive s id = true ->
     deferedRead s <> [] -> deferedClose s = [] -> eventHandler range req s = Panic) /\
  exists s ins es, run NewParams s ins es /\ never_closed ins /\
     eventHandler in_order (mkRequest doclose INil 8) s = Panic /\
     eventHandler in_order (mkRequest docloseconn (IInt 1) 8) s = Panic.
Proof.
  split_and!.
  - intros range req s Hop Hr Hc. unfold eventHandler, handleClose. rewrite Hop.
    destruct (deferedRead s); [done|]. cbn. by rewrite Hc.
  - intros range req s id Hop Hv Ha Hr Hc. unfold eventHandler, handleCloseConn.
    rewrite Hop, Hv. cbn. rewrite Ha. destruct (deferedRead s); [done|]. by rewrite Hc.
  - exists (after blocked_reader).1.1, (after blocked_reader).1.2, (after blocked_reader).2.
    split_and!; [|repeat constructor; discriminate|vm_compute; reflexivity..].
    apply (server_simulate_run NewParams blocked_reader (NewServer NewParams) [] []).
    + apply run_init.
    + vm_compute. reflexivity.
Qed.

(** A connection closed with a message in flight, then acknowledged: the ack
    for message 1 of 2 puts the connection back under loss detection. *)
Definition closed_in_flight : list request :=
  [packet "a:1" NewConnect; write_req 1 1; write_req 1 2;
   mkRequest docloseconn (IInt 1) 3; packet "a:1" (NewAck 1 1)] ++
  repeat (mkRequest epochtimer INil 0) 4.

(** An acknowledgement after CloseConn can crash the server later.
    [handleCloseConn] removes the loss-detection entry of a connection that
    still has messages to deliver; an ack re-creates it, and when the client
    then stays silent for the epoch limit, [handleEpoch] dereferences the
    deleted read buffer of that connection. *)
Lemma server_epoch_panics_after_closeconn :
  exists s ins es, run NewParams s ins es /\
    eventHandler in_order (mkRequest epochtimer INil 0) s = Panic.
Proof.
  exists (after closed_in_flight).1.1, (after closed_in_flight).1.2, (after closed_in_flight).2.
  split; [|vm_compute; reflexivity].
  apply (server_simulate_run NewParams closed_in_flight (NewServer NewParams) [] []).
  - apply run_init.
  - vm_compute. reflexivity.
Qed.

(** C36: closing can crash the server.  Both [handleCloseConn], on a live
    connection, and [handleClose] take the request to unblock from
    [deferedClose] instead of [deferedRead], so with a Read waiting and no Close
    waiting they dereference a nil list element; such a state is reached by one
    connecting client and one Read.  And after a CloseConn with messages still
    to deliver, an acknowledgement followed by the client's silence makes
    [handleEpoch] dereference the deleted read buffer. *)
Theorem server_closing_crashes :
  (forall range req s, op req = doclose -> deferedRead s <> [] -> deferedClose s = [] ->
     eventHandler range req s = Panic) /\
  (forall range req s id, op req = docloseconn -> val req = IInt id -> isActive s id = true ->
     deferedRead s <> [] -> deferedClose s = [] -> eventHandler range req s = Panic) /\
  (exists s ins es, run NewParams s ins es /\ never_closed ins /\
     eventHandler in_order (mkRequest doclose INil 8) s = Panic /\
     eventHandler in_order (mkRequest docloseconn (IInt 1) 8) s = Panic) /\
  (exists s ins es, run NewParams s ins es /\
     eventHandler in_order (mkRequest epochtimer INil 0) s = Panic).
Proof.
  destruct server_close_panics_on_blocked_read as (H1 & H2 & H3).
  split_and!; [exact H1|exact H2|exact H3|exact server_epoch_panics_after_closeconn].
Qed.

Lemma server_closing_crashes_witness :
  eventHandler in_order (mkRequest doclose INil 8) (after blocked_reader).1.1 = Panic.
Proof. apply server_closing_crashes; [|vm_compute; discriminate|]; vm_compute; reflexivity. Defined.

End Server.
