(* ===== verification/LspApi.v ===== *)
(** * LspApi: the public methods of the lsp client and server

    The methods of [client_impl.go] and [server_impl.go] that users call: each
    puts a request with a fresh reply channel into the queue ([doRequest]),
    waits for the reply and asserts its dynamic type.  The types the event
    loops send are the types the methods assert, but for the server's [Read]
    while the server is closing. *)
From S2P Require Import Prelude LspBuffer LspCommon LspWindow LspClient LspServer.
Open Scope Z_scope.

(** A method call: the request that goes into the queue, and what the method
    returns for the reply. *)
Record apiCall (A : Type) := mkApiCall { sent : request; returns : retType -> A }.
Arguments mkApiCall {A} _ _.
Arguments sent {A} _.
Arguments returns {A} _ _.

(** [doRequest], on a fresh channel [ch]; the caller goes on with the value and
    the error of the reply. *)
Definition doRequest {A} (o : opcode) (v : iface) (ch : Z) (k : iface -> option string -> A)
  : apiCall A :=
  mkApiCall (mkRequest o v ch) (fun retV => k (rval retV) (rerr retV)).

Fixpoint awaitReply (ch : Z) (es : list effect) : option retType :=
  match es with
  | Reply ch' r :: es' => if ch' =? ch then Some r else awaitReply ch es'
  | SendMsg _ _ :: es' => awaitReply ch es'
  | [] => None
  end.

Lemma awaitReply_elem ch es r : awaitReply ch es = Some r -> Reply ch r ∈ es.
Proof.
  induction es as [|[to m|ch' r'] es IH]; cbn; [done| |].
  - intros H. right. auto.
  - destruct (ch' =? ch) eqn:E; [|intros H; right; auto].
    breflect. intros [= ->]. subst. by left.
Qed.

(** Replies go to known requests, with the right type. *)
Definition typed_for (ok : opcode -> retType -> Prop) (reqs : list request) (es : list effect) : Prop :=
  forall ch r, Reply ch r ∈ es -> exists q, q ∈ reqs /\ replyc q = ch /\ ok (op q) r.

Section typed.
Context (ok : opcode -> retType -> Prop).

Lemma typed_nil reqs : typed_for ok reqs [].
Proof. intros ch r H. by apply not_elem_of_nil in H. Qed.

Lemma typed_app reqs es es' :
  typed_for ok reqs es -> typed_for ok reqs es' -> typed_for ok reqs (es ++ es').
Proof. intros H1 H2 ch r [H|H]%elem_of_app; auto. Qed.

Lemma typed_mono reqs reqs' es : reqs ⊆ reqs' -> typed_for ok reqs es -> typed_for ok reqs' es.
Proof. intros Hs H ch r Hr. destruct (H ch r Hr) as (q & ? & ?). eauto. Qed.

Lemma typed_reply reqs q r : q ∈ reqs -> ok (op q) r -> typed_for ok reqs [Reply (replyc q) r].
Proof. intros Hq Hok ch r' [= -> ->]%list_elem_of_singleton. eauto. Qed.

Lemma typed_send reqs to m es : typed_for ok reqs es -> typed_for ok reqs (SendMsg to m :: es).
Proof. intros H ch r [?|Hr]%elem_of_cons; [done|auto]. Qed.

Lemma typed_sends {A} reqs (f : A -> effect) l :
  (forall x, exists to m, f x = SendMsg to m) -> typed_for ok reqs (f <$> l).
Proof.
  intros Hf. induction l as [|x l IH]; [apply typed_nil|]. cbn.
  destruct (Hf x) as (to & m & ->). by apply typed_send.
Qed.

Lemma typed_concat {A} reqs (f : A -> list effect) l :
  (forall x, typed_for ok reqs (f x)) -> typed_for ok reqs (concat (f <$> l)).
Proof. intros Hf. induction l as [|x l IH]; [apply typed_nil|]. by apply typed_app. Qed.

Lemma typed_replies reqs (f : request -> effect) l :
  (forall q, q ∈ l -> typed_for ok reqs [f q]) -> typed_for ok reqs (f <$> l).
Proof.
  induction l as [|q l IH]; intros Hf; [apply typed_nil|].
  apply (typed_app _ [f q]); [apply Hf; by left|]. apply IH. intros x Hx. apply Hf. by right.
Qed.

(** A reply that arrived has the type of the request it answers, channels being
    fresh. *)
Lemma typed_await reqs es q r :
  typed_for ok reqs es -> q ∈ reqs ->
  (forall q', q' ∈ reqs -> replyc q' = replyc q -> q' = q) ->
  awaitReply (replyc q) es = Some r -> ok (op q) r.
Proof.
  intros Ht Hq Hfresh Hr%awaitReply_elem. destruct (Ht _ _ Hr) as (q' & Hq' & Hch & Hok).
  by rewrite <- (Hfresh q' Hq' Hch).
Qed.

End typed.

Lemma slideWindow_typed ok reqs to ws ub wb u w es :
  slideWindow (SendMsg to) ws ub wb = Ret (u, w, es) -> typed_for ok reqs es.
Proof.
  intros H ch r Hr. assert (Hs : forall e, e ∈ es -> exists m, e = SendMsg to m).
  2: { by destruct (Hs _ Hr). }
  clear Hr. revert H. unfold slideWindow. intros ([[u0 w0] es0] & H0 & H)%bind_Ret_inv.
  apply bind_Ret_inv in H as (f & _ & H). apply bind_Ret_inv in H as ([[u1 w1] es1] & Hf & [= <- <- <-]).
  assert (Hfill : forall wl ws' w ub u w' es, fillWindow (SendMsg to) wl ws' ub w = Ret (u, w', es) ->
    forall e, e ∈ es -> exists m, e = SendMsg to m).
  { clear. intros wl ws' w. induction w as [|m w IH]; intros ub u w' es; cbn [fillWindow].
    - intros [= <- <- <-] e He. by apply not_elem_of_nil in He.
    - destruct (_ <=? _); [intros [= <- <- <-] e He; by apply not_elem_of_nil in He|].
      intros (ub' & _ & H)%bind_Ret_inv. apply bind_Ret_inv in H as ([[u1 w1] es1] & H & [= <- <- <-]).
      intros e [->|He]%elem_of_cons; eauto. }
  intros e [He|He]%elem_of_app; [|by eapply Hfill].
  destruct (_ =? 0); [|injection H0 as <- <- <-; by apply not_elem_of_nil in He].
  apply bind_Ret_inv in H0 as ([m wb'] & _ & H0). apply bind_Ret_inv in H0 as (ub' & _ & [= <- <- <-]).
  apply list_elem_of_singleton in He. eauto.
Qed.

(** ** The client *)

Module ClientApi.
Import Client.

Definition ConnID (ch : Z) : apiCall (outcome Z) :=
  doRequest doconnid INil ch (fun ret _ => as_int ret).

Definition Read (ch : Z) : apiCall (outcome (list byte + string)) :=
  doRequest doread INil ch (fun ret err =>
    match err with
    | Some e => Ret (inr e)
    | None => b ← as_bytes ret; Ret (inl b)
    end).

Definition Write (payload : list byte) (ch : Z) : apiCall (option string) :=
  doRequest dowrite (IBytes payload) ch (fun _ err => err).
Definition Close (ch : Z) : apiCall (option string) :=
  doRequest doclose INil ch (fun _ err => err).
Definition connect (ch : Z) : apiCall (option string) :=
  doRequest doconnect INil ch (fun _ err => err).

(** What [NewClient]'s select may return: the error, if any, for each signal
    that is there. *)
Definition awaitConnection (c : client) : list (option string) :=
  (if Nat.eqb (connEstablishedSignal c) 0 then [] else [None]) ++
  (if Nat.eqb (connLostSignal c) 0 then [] else [Some "connection lost before established"]).

(** The types the methods assert. *)
Definition ok (o : opcode) (r : retType) : Prop :=
  match o with
  | doread => rerr r = None -> exists b, rval r = IBytes b
  | doconnid => exists n, rval r = IInt n
  | _ => True
  end.

Abbreviation typed := (typed_for ok).

Lemma handleRead_typed req c c' es : op req = doread -> handleRead req c = Ret (c', es) ->
  typed [req] es.
Proof.
  intros Hop. unfold handleRead.
  assert (Herr : forall e, typed [req] [replyErr req e]).
  { intros e. apply typed_reply; [by left|]. by rewrite Hop. }
  destruct (negb _); [intros [= <- <-]; apply Herr|].
  intros (b & _ & H)%bind_Ret_inv. destruct (negb b); [injection H as <- <-; apply Herr|].
  apply bind_Ret_inv in H as (m & _ & H). apply bind_Ret_inv in H as ([x rb] & _ & [= <- <-]).
  apply typed_reply; [by left|]. rewrite Hop. cbn. eauto.
Qed.

Lemma handleWrite_typed req c c' es : op req = dowrite -> handleWrite req c = Ret (c', es) ->
  typed [req] es.
Proof.
  intros Hop. assert (Hr : forall r, typed [req] [Reply (replyc req) r]).
  { intros r. apply typed_reply; [by left|]. by rewrite Hop. }
  unfold handleWrite. destruct (connLost c); [intros [= <- <-]; apply Hr|].
  destruct (negb _); [intros [= <- <-]; apply Hr|].
  intros (p & _ & H)%bind_Ret_inv. cbn in H. apply bind_Ret_inv in H as (b & _ & H).
  destruct b; apply bind_Ret_inv in H as (buf & _ & [= <- <-]); [apply typed_send|]; apply Hr.
Qed.

Lemma handleReceivedMsg_typed req c c' es : handleReceivedMsg req c = Ret (c', es) ->
  typed [req] es.
Proof.
  unfold handleReceivedMsg. intros (pk & _ & H)%bind_Ret_inv. cbn in H.
  destruct (_ =? MsgAck); [|destruct (_ =? MsgData)].
  - destruct (Buffer.Delete _ _) as [ex ub]. apply bind_Ret_inv in H as ([[u w] es1] & H1 & H).
    assert (typed [req] es1).
    { destruct (ex && _); [by eapply slideWindow_typed|injection H1 as <- <- <-; apply typed_nil]. }
    destruct (ex && (_ =? 0)); [apply bind_Ret_inv in H as (n & _ & H)|]; by injection H as <- <-.
  - destruct (_ || _); [injection H as <- <-; apply typed_nil|].
    destruct (_ <=? _); [|injection H as <- <-; apply typed_nil].
    apply bind_Ret_inv in H as (rb & _ & H). apply bind_Ret_inv in H as (lb & _ & H).
    apply bind_Ret_inv in H as (lb' & _ & [= <- <-]). apply typed_send, typed_nil.
  - injection H as <- <-. apply typed_nil.
Qed.

Lemma handleEpoch_typed c c' es reqs : handleEpoch c = Ret (c', es) -> typed reqs es.
Proof.
  unfold handleEpoch. cbn. destruct (_ <=? _).
  - intros (n & _ & H)%bind_Ret_inv. apply bind_Ret_inv in H as (c1 & _ & [= <- <-]). apply typed_nil.
  - intros [= <- <-]. assert (Hs : forall l, typed reqs (send <$> l)).
    { intros l. apply typed_sends. unfold send. eauto. }
    repeat apply typed_app; [|apply Hs|].
    + destruct (_ && _); [apply typed_send|]; apply typed_nil.
    + destruct (Nat.eqb _ _); [apply Hs|apply typed_nil].
Qed.

Lemma dispatch_typed req c c' es :
  Forall (fun r => op r = doclose) (deferedClose c) -> dispatch req c = Ret (c', es) ->
  typed (req :: deferedClose c) es.
Proof.
  intros Hcl. assert (Hsub : [req] ⊆ req :: deferedClose c) by set_solver.
  unfold dispatch. destruct (op req) eqn:Hop.
  - intros H. eapply typed_mono; [done|]. by eapply handleRead_typed.
  - intros H. eapply typed_mono; [done|]. by eapply handleWrite_typed.
  - unfold handleClose. intros (c1 & Hc1 & [= <- <-])%bind_Ret_inv.
    assert (Hd : deferedClose c1 = deferedClose c).
    { destruct (negb (connLost c)); [|by injection Hc1 as <-].
      unfold shutDown in Hc1. case_match; [|done]. by injection Hc1 as <-. }
    rewrite Hd. apply (typed_replies ok _ (closeReply c1) (req :: deferedClose c)). intros q Hq.
    assert (Hq' : op q = doclose).
    { apply elem_of_cons in Hq as [->|Hq]; [done|]. rewrite Forall_forall in Hcl. auto. }
    unfold closeReply, replyErr, replyNil.
    destruct (_ || _); (apply typed_reply; [done|]); by rewrite Hq'.
  - intros [= <- <-]. apply typed_nil.
  - intros [= <- <-]. apply typed_reply; [by left|]. rewrite Hop. cbn. eauto.
  - unfold handleConnect. intros (ub & _ & [= <- <-])%bind_Ret_inv. apply typed_send.
    apply typed_reply; [by left|]. by rewrite Hop.
  - intros H. by eapply handleEpoch_typed.
  - intros H. eapply typed_mono; [done|]. by eapply handleReceivedMsg_typed.
Qed.

(** Deferred requests were received. *)
Definition deferred_known (c : client) (ins : list request) : Prop :=
  deferedRead c ⊆ ins /\ deferedClose c ⊆ ins.

Lemma dispatch_deferred req c c' es : dispatch req c = Ret (c', es) ->
  deferedRead c' = deferedRead c /\ deferedClose c' = deferedClose c.
Proof.
  unfold dispatch, handleRead, handleWrite, handleClose, handleConnId, handleConnect, handleEpoch,
    handleReceivedMsg, shutDown.
  destruct (op req); cbn; intros H; repeat (case_match; bind_inv; try done); bind_inv; try done;
    repeat (case_match; bind_inv; try done).
Qed.

Lemma choose_deferred c req c0 : choose c = Ret (Serve req c0) ->
  (req ∈ deferedRead c \/ req ∈ deferedClose c) /\
  deferedRead c0 ⊆ deferedRead c /\ deferedClose c0 ⊆ deferedClose c.
Proof.
  unfold choose. rewrite front_is_spec. cbn. intros H.
  destruct (clientRunning c); cbn in H; [|done].
  destruct (_ && _); [done|].
  destruct (deferedRead c) as [|r rs] eqn:Er, (deferedClose c) as [|q qs] eqn:Eq;
    repeat case_match; simplify_eq; cbn; rewrite ?Er, ?Eq; set_solver.
Qed.

Lemma eventHandler_typed inp c c' es ins :
  inv c -> deferred_known c ins ->
  (forall req, inp = Some req -> choose c = Ret Receive) ->
  eventHandler inp c = Ret (c', es) ->
  typed (ins ++ option_list inp) es /\ deferred_known c' (ins ++ option_list inp).
Proof.
  intros Hinv [Hr Hc] Hinp. unfold eventHandler.
  destruct (choose_ok c Hinv) as (ch & Ech & Hch). rewrite Ech. cbn [mbind outcome_bind].
  assert (Hstay : forall x, typed (ins ++ x) [] /\ deferred_known c (ins ++ x)).
  { intros x. split; [apply typed_nil|]. split; set_solver. }
  destruct ch as [|req c0|].
  - intros [= <- <-]. apply Hstay.
  - intros Hd. destruct Hch as [Hinv0 _]. destruct (choose_deferred _ _ _ Ech) as (Hreq & H1 & H2).
    destruct (dispatch_deferred _ _ _ _ Hd) as [E1 E2]. split.
    + eapply typed_mono; [|by eapply dispatch_typed; [apply Hinv0|]]. set_solver.
    + unfold deferred_known. rewrite E1, E2. set_solver.
  - destruct inp as [req|]; [|intros [= <- <-]; apply Hstay]. cbn [option_list].
    assert (Hd : dispatch req c = Ret (c', es) ->
      typed (ins ++ [req]) es /\ deferred_known c' (ins ++ [req])).
    { intros Hd. destruct (dispatch_deferred _ _ _ _ Hd) as [E1 E2]. split.
      - eapply typed_mono; [|by eapply dispatch_typed; [apply Hinv|]]. set_solver.
      - unfold deferred_known. rewrite E1, E2. set_solver. }
    unfold receive. rewrite front_is_spec. cbn [mbind outcome_bind].
    destruct (op req); try done; (case_match; [|done]); intros [= <- <-];
      (split; [apply typed_nil|]; unfold deferred_known; cbn; set_solver).
Qed.

(** Everything replied in a run is typed, and what is deferred was received. *)
Lemma run_typed p c ins es : run p c ins es -> typed ins es /\ deferred_known c ins.
Proof.
  induction 1 as [|c ins es inp c' es' Hr [IHt IHd] Hadm Hev|c ins es Hr IH Hs|c ins es Hr IH Hs];
    [|  |by destruct IH|by destruct IH].
  - split; [apply typed_nil|]. by split.
  - destruct (run_inv _ _ _ _ Hr) as [Hinv _].
    destruct (eventHandler_typed inp c c' es' ins Hinv IHd) as [Ht Hd]; [|done|].
    { intros req Hreq. by destruct (Hadm req Hreq). }
    split; [|done]. apply typed_app; [|done]. eapply typed_mono; [|done]. set_solver.
Qed.

(** [ch] is the reply channel of one request only. *)
Definition fresh_channel (ins : list request) (q : request) : Prop :=
  q ∈ ins /\ forall q', q' ∈ ins -> replyc q' = replyc q -> q' = q.

Lemma run_await p c ins es q r :
  run p c ins es -> fresh_channel ins q -> awaitReply (replyc q) es = Some r -> ok (op q) r.
Proof. intros Hr [Hq Hf]. apply (typed_await ok ins); [by eapply run_typed|done..]. Qed.

End ClientApi.

(** ** The server *)

Module ServerApi.
Import Server.

(** What [Read] makes of its reply is modelled in [LspServer]: it asserts a
    bundle. *)
Definition doRead (ch : Z) : apiCall (outcome (Z * list byte * option string)) :=
  doRequest doread INil ch (fun retVal err => Server.Read (mkRet retVal err)).
Definition Write (connID : Z) (payload : list byte) (ch : Z) : apiCall (option string) :=
  doRequest dowrite (IBundle (mkBundle connID payload)) ch (fun _ err => err).
Definition CloseConn (connID : Z) (ch : Z) : apiCall (option string) :=
  doRequest docloseconn (IInt connID) ch (fun _ err => err).
Definition Close (ch : Z) : apiCall (option string) :=
  doRequest doclose INil ch (fun _ err => err).

(** A reply to a read is a bundle, unless the server is closing. *)
Definition ok (o : opcode) (r : retType) : Prop :=
  match o with
  | doread => (exists b, rval r = IBundle b) \/ r = mkRet INil (Some "server is closed")
  | _ => True
  end.

Abbreviation typed := (typed_for ok).

Lemma readReady_typed ks req s s' es : readReady ks req s = Ret (Some (s', es)) -> typed [req] es.
Proof.
  induction ks as [|id ks IH]; cbn [readReady]; [done|]. intros H.
  apply bind_Ret_inv in H as (rb & _ & H). apply bind_Ret_inv in H as (b & _ & H).
  destruct b; [|auto]. apply bind_Ret_inv in H as ([m rb'] & _ & [= <- <-]).
  apply typed_reply; [by left|]. unfold ok. cbn. destruct (op req); eauto.
Qed.

Lemma readLost_typed ks req s s' es : readLost ks req s = Some (s', es) -> typed [req] es.
Proof.
  induction ks as [|id ks IH]; cbn [readLost]; [done|]. destruct (negb _); [|auto].
  intros [= <- <-]. apply typed_reply; [by left|]. unfold ok. cbn. destruct (op req); eauto.
Qed.

(** Requests waiting in the two deferred lists were received. *)
Definition deferred_known (s : server) (ins : list request) : Prop :=
  deferedRead s ⊆ ins /\ deferedClose s ⊆ ins /\ Forall (fun q => op q = doclose) (deferedClose s).

Lemma handleRead_read_typed range req s s' es ins :
  handleRead range req s = Ret (s', es) -> deferred_known s ins -> req ∈ ins ->
  typed [req] es /\ deferred_known s' ins.
Proof.
  intros H [Hr Hc] Hin. revert H. unfold handleRead. destruct (closing s).
  { intros [= <- <-]. split; [|done]. apply typed_reply; [by left|]. unfold ok. destruct (op req); eauto. }
  intros (r & Hrd & H)%bind_Ret_inv. destruct r as [[s1 es1]|].
  { injection H as <- <-. split; [by eapply readReady_typed|].
    clear - Hrd Hr Hc. revert Hrd. generalize (range 1%nat (keys (readBuffer s))) as ks.
    induction ks as [|id ks IH]; cbn [readReady]; [done|]. intros H.
    apply bind_Ret_inv in H as (rb & _ & H). apply bind_Ret_inv in H as (b & _ & H).
    destruct b; [|auto]. by apply bind_Ret_inv in H as ([m rb'] & _ & [= <- <-]). }
  destruct (readLost _ _ _) as [[s1 es1]|] eqn:El.
  { injection H as <- <-. split; [by eapply readLost_typed|].
    clear - El Hr Hc. revert El. generalize (range 2%nat (keys (readBuffer s))) as ks.
    induction ks as [|id ks IH]; cbn [readLost]; [done|]. destruct (negb _); [|auto].
    by intros [= <- <-]. }
  injection H as <- <-. split; [apply typed_nil|]. split; cbn; [set_solver|done].
Qed.

(** What a turn must do: reply with the right types and keep track of what it
    deferred. *)
Definition good (ins : list request) (s' : server) (es : list effect) : Prop :=
  typed ins es /\ deferred_known s' ins.

Lemma good_quiet ins s s' es : deferred_known s ins -> typed ins es ->
  deferedRead s' = deferedRead s -> deferedClose s' = deferedClose s -> good ins s' es.
Proof. intros Hd Ht E1 E2. split; [done|]. unfold deferred_known. by rewrite E1, E2. Qed.

Lemma any_reply ins q r : q ∈ ins -> op q <> doread -> typed ins [Reply (replyc q) r].
Proof. intros Hq Ho. apply typed_reply; [done|]. unfold ok. by destruct (op q). Qed.

Lemma handleWrite_good req s s' es ins : deferred_known s ins -> req ∈ ins -> op req = dowrite ->
  handleWrite req s = Ret (s', es) -> good ins s' es.
Proof.
  intros Hd Hin Hop. assert (Hr : forall r, typed ins [Reply (replyc req) r]).
  { intros r. apply any_reply; [done|congruence]. }
  unfold handleWrite. intros (b & _ & H)%bind_Ret_inv.
  destruct (_ || _); [injection H as <- <-; apply (good_quiet ins s); [done|apply Hr|done..]|].
  destruct (connIdHostportMap s !! _) as [a|];
    [|injection H as <- <-; apply (good_quiet ins s); [done|apply Hr|done..]].
  apply bind_Ret_inv in H as (ub & _ & H). apply bind_Ret_inv in H as (wb & _ & H).
  apply bind_Ret_inv in H as (fits & _ & H).
  destruct fits; apply bind_Ret_inv in H as (buf & _ & [= <- <-]);
    (apply (good_quiet ins s); [done| |done..]); [apply typed_send|]; apply Hr.
Qed.

Lemma recvAck_good a m s s' es ins : deferred_known s ins ->
  recvAck a m s = Ret (s', es) -> good ins s' es.
Proof.
  intros Hd. unfold recvAck. destruct (0 <? _); [|intros [= <- <-]; apply (good_quiet ins s); auto using typed_nil].
  intros (ub & _ & H)%bind_Ret_inv. destruct (Buffer.Delete _ _) as [ex ub1].
  apply bind_Ret_inv in H as ([[u w] es1] & H1 & H).
  assert (Ht : typed ins es1).
  { destruct ex; [|injection H1 as <- <- <-; apply typed_nil].
    apply bind_Ret_inv in H1 as (wb & _ & H1). destruct (0 <? _);
      [|injection H1 as <- <- <-; apply typed_nil].
    apply bind_Ret_inv in H1 as ([[u1 w1] es2] & H1 & [= <- <- <-]). by eapply slideWindow_typed. }
  match type of H with context [if ?b then _ else _] => destruct b end;
    injection H as <- <-; by apply (good_quiet ins s).
Qed.

Lemma recvData_good range a m s s' es ins : deferred_known s ins ->
  recvData range a m s = Ret (s', es) -> good ins s' es.
Proof.
  intros Hd. unfold recvData.
  destruct (_ && _); [|intros [= <- <-]; apply (good_quiet ins s); auto using typed_nil].
  cbn. destruct (_ <=? _); [|intros [= <- <-]; apply (good_quiet ins s); auto using typed_nil].
  intros (rb & _ & H)%bind_Ret_inv. apply bind_Ret_inv in H as (rb' & _ & H).
  apply bind_Ret_inv in H as (lb & _ & H). apply bind_Ret_inv in H as (lb' & _ & H).
  apply bind_Ret_inv in H as (lb'' & _ & H).
  assert (Hack : forall to x, typed ins [SendMsg to x]) by (intros; apply typed_send, typed_nil).
  destruct (deferedRead s) as [|rd rest] eqn:Er; cbn in H.
  { injection H as <- <-. by apply (good_quiet ins s). }
  destruct (_ =? _); [|injection H as <- <-; by apply (good_quiet ins s)].
  apply bind_Ret_inv in H as ([s2 es2] & Hr & [= <- <-]). destruct Hd as [Hdr Hdc].
  assert (Hrd : rd ∈ ins) by (apply Hdr; rewrite Er; by left).
  apply (handleRead_read_typed _ _ _ _ _ ins) in Hr as [Ht Hk]; [| |done].
  - split; [|done]. apply typed_send. eapply typed_mono; [|done]. set_solver.
  - split; cbn; [|done]. intros x Hx. apply Hdr. rewrite Er. by right.
Qed.

Lemma recvConnect_good a s s' es ins : deferred_known s ins ->
  recvConnect a s = Ret (s', es) -> good ins s' es.
Proof.
  intros Hd. unfold recvConnect. destruct (_ && _); intros [= <- <-];
    apply (good_quiet ins s); auto using typed_nil, typed_send.
Qed.

Lemma loseConn_good id s s' es ins : deferred_known s ins ->
  loseConn id s = Ret (s', es) -> good ins s' es.
Proof.
  intros [Hr Hc]. unfold loseConn. intros (rb & _ & H)%bind_Ret_inv.
  apply bind_Ret_inv in H as (ready & _ & H).
  match type of H with (let '(_, _) := ?x in _) = _ => destruct x as [s1 es1] eqn:E1 end.
  apply bind_Ret_inv in H as (a & _ & [= <- <-]).
  assert (Hgo : typed ins es1 /\ deferedRead s1 ⊆ ins /\ deferedClose s1 = deferedClose s).
  { destruct (closing s); cbn in E1; destruct (deferedRead s) as [|q qs] eqn:Eq; cbn in E1;
      try destruct (negb ready); injection E1 as <- <-; cbn; rewrite ?Eq;
      (split; [|split; [set_solver|done]]); try apply typed_nil;
      (apply typed_reply; [set_solver|]; unfold ok; cbn; destruct (op q); eauto). }
  destruct Hgo as (? & ? & E). split; [done|]. split; cbn; [done|]. by rewrite E.
Qed.

Lemma detectLost_good ks ins : forall s s' es, deferred_known s ins ->
  detectLost ks s = Ret (s', es) -> good ins s' es.
Proof.
  induction ks as [|id ks IH]; intros s s' es Hd; cbn [detectLost].
  { intros [= <- <-]. split; [apply typed_nil|done]. }
  destruct (latestActiveEpoch s !! id) as [l|]; [|by apply IH].
  intros ([s1 es1] & H1 & H)%bind_Ret_inv. apply bind_Ret_inv in H as ([s2 es2] & H2 & [= <- <-]).
  assert (Hg : good ins s1 es1).
  { destruct (_ <=? _); [by eapply loseConn_good|]. injection H1 as <- <-.
    split; [apply typed_nil|done]. }
  destruct Hg as [Ht1 Hd1]. destruct (IH _ _ _ Hd1 H2) as [Ht2 Hd2]. split; [by apply typed_app|done].
Qed.

Lemma handleEpoch_good range s s' es ins : deferred_known s ins ->
  handleEpoch range s = Ret (s', es) -> good ins s' es.
Proof.
  intros Hd. unfold handleEpoch. intros ([s1 es1] & H1 & H)%bind_Ret_inv.
  apply (detectLost_good _ ins) in H1 as [Ht1 Hd1]; [|done].
  apply bind_Ret_inv in H as (n & _ & H).
  assert (H2 : typed ins (if negb (closing s1)
    then concat (resendAcks s1 <$> range 4%nat (keys (latestAckBuffer s1))) else [])).
  { destruct (negb _); [|apply typed_nil]. apply typed_concat. intros id. unfold resendAcks.
    destruct (latestAckBuffer s1 !! id); [|apply typed_nil].
    destruct (isActive s1 id); [|apply typed_nil].
    destruct (Buffer.Len _ =? 0); [apply typed_send, typed_nil|]. apply typed_sends. eauto. }
  assert (H3 : typed ins (concat (resendUnacked s1 <$> range 5%nat (keys (unAckedMsgBuffer s1))))).
  { apply typed_concat. intros id. unfold resendUnacked.
    destruct (unAckedMsgBuffer s1 !! id); [|apply typed_nil]. apply typed_sends. eauto. }
  destruct (_ && _).
  - apply bind_Ret_inv in H as (s2 & ->%shutDown_frame & [= <- <-]).
    destruct Hd1 as (Hr & Hc & Hcl). split; [|done].
    repeat (apply typed_app; [done|]). apply typed_replies. intros q Hq.
    rewrite Forall_forall in Hcl. specialize (Hcl q Hq).
    destruct (connLostInClosing s1); apply any_reply; (apply Hc, Hq) || congruence.
  - injection H as <- <-. split; [|done]. by repeat (apply typed_app; [done|]).
Qed.

Lemma closer_reply s ins q r : deferred_known s ins -> head (deferedClose s) = Some q ->
  typed ins [Reply (replyc q) r].
Proof.
  intros (_ & Hc & Hcl) Hq. destruct (deferedClose s) as [|q' qs]; [done|]. injection Hq as ->.
  apply Forall_cons in Hcl as [Hop _]. apply any_reply; [apply Hc; by left|congruence].
Qed.

Lemma handleCloseConn_good req s s' es ins : deferred_known s ins -> req ∈ ins ->
  op req = docloseconn -> handleCloseConn req s = Ret (s', es) -> good ins s' es.
Proof.
  intros Hd Hin Hop. assert (Hr : forall r, typed ins [Reply (replyc req) r]).
  { intros r. apply any_reply; [done|congruence]. }
  unfold handleCloseConn. intros (id & _ & H)%bind_Ret_inv.
  destruct (isActive s id); [|injection H as <- <-; apply (good_quiet ins s); [done|apply Hr|done..]].
  apply bind_Ret_inv in H as ([s1 es1] & H1 & H).
  assert (Hg : good ins s1 es1).
  { destruct (deferedRead s) as [|rd rest] eqn:Er.
    - injection H1 as <- <-. split; [apply typed_nil|done].
    - apply bind_Ret_inv in H1 as (q & Hq%deref_Ret_inv & [= <- <-]).
      split; [by eapply closer_reply|]. destruct Hd as (Hdr & Hc). split; cbn; [|done].
      rewrite Er in Hdr. set_solver. }
  destruct Hg as [Ht1 Hd1]. apply bind_Ret_inv in H as (ub & _ & H).
  apply bind_Ret_inv in H as (pend & _ & H). apply bind_Ret_inv in H as (s2 & H2 & [= <- <-]).
  assert (H2' : deferedRead s2 = deferedRead s1 /\ deferedClose s2 = deferedClose s1).
  { destruct (negb pend); [|by injection H2 as <-]. by apply bind_Ret_inv in H2 as (a & _ & [= <-]). }
  destruct H2' as [E1 E2]. apply (good_quiet ins s1); [done| |done..].
  apply typed_app; [done|apply Hr].
Qed.

Lemma handleClose_good range req s s' es ins : deferred_known s ins -> req ∈ ins ->
  op req = doclose -> handleClose range req s = Ret (s', es) -> good ins s' es.
Proof.
  intros Hd Hin Hop. unfold handleClose. intros (es1 & H1 & H)%bind_Ret_inv.
  assert (Ht1 : typed ins es1).
  { clear H. revert es1 H1. generalize (deferedRead s) as rs. induction rs as [|r rs IH]; intros es1;
      cbn [unblockReads]; [intros [= <-]; apply typed_nil|].
    intros (q & Hq%deref_Ret_inv & H1)%bind_Ret_inv. apply bind_Ret_inv in H1 as (es2 & H2 & [= <-]).
    apply (typed_app ok ins [_]); [by eapply closer_reply|by apply IH]. }
  destruct Hd as (Hdr & Hc & Hcl). apply bind_Ret_inv in H as (pend & _ & H). destruct (negb pend).
  - apply bind_Ret_inv in H as (s1 & ->%shutDown_frame & [= <- <-]). split.
    + apply typed_app; [done|]. apply any_reply; [done|congruence].
    + split; cbn; [set_solver|done].
  - injection H as <- <-. split; [done|]. split; cbn; [set_solver|]. split; [set_solver|].
    apply Forall_app. split; [done|]. by constructor.
Qed.

Lemma eventHandler_good range req s s' es ins : deferred_known s ins -> req ∈ ins ->
  eventHandler range req s = Ret (s', es) -> good ins s' es.
Proof.
  intros Hd Hin. unfold eventHandler. destruct (op req) eqn:Hop.
  - intros H. apply (handleRead_read_typed _ _ _ _ _ ins) in H as [Ht Hk]; [|done..].
    split; [|done]. eapply typed_mono; [|done]. set_solver.
  - by apply handleWrite_good.
  - by apply handleClose_good.
  - by apply handleCloseConn_good.
  - intros [= <- <-]. split; [apply typed_nil|done].
  - intros [= <- <-]. split; [apply typed_nil|done].
  - by apply handleEpoch_good.
  - unfold handleReceivedMsg. intros (pk & _ & H)%bind_Ret_inv.
    destruct (_ =? MsgConnect); [by eapply recvConnect_good|].
    destruct (_ =? MsgAck); [by eapply recvAck_good|].
    destruct (_ =? MsgData); [by eapply recvData_good|].
    injection H as <- <-. split; [apply typed_nil|done].
Qed.

Lemma server_run_typed p s ins es : run p s ins es -> good ins s es.
Proof.
  induction 1 as [|s ins es range req s' es' Hr [IHt IHd] Hrange Hrun Hty Hev].
  - split; [apply typed_nil|]. split; [done|]. split; [done|constructor].
  - apply (eventHandler_good _ _ _ _ _ (ins ++ [req])) in Hev as [Ht Hd].
    + split; [|done]. apply typed_app; [|done]. eapply typed_mono; [|done]. set_solver.
    + destruct IHd as (? & ? & ?). split; [set_solver|]. split; [set_solver|done].
    + set_solver.
Qed.

Lemma server_run_await p s ins es q r :
  run p s ins es -> ClientApi.fresh_channel ins q -> awaitReply (replyc q) es = Some r -> ok (op q) r.
Proof. intros Hr [Hq Hf]. apply (typed_await ok ins); [by eapply server_run_typed|done..]. Qed.

End ServerApi.

(** ** Properties *)

(** The client's methods send requests its event loop takes. *)
Lemma client_methods_typed ch payload :
  well_typed (sent (ClientApi.ConnID ch)) && well_typed (sent (ClientApi.Read ch)) &&
  well_typed (sent (ClientApi.Write payload ch)) && well_typed (sent (ClientApi.Close ch)) &&
  well_typed (sent (ClientApi.connect ch)) = true.
Proof. done. Qed.

(** C30: requests and replies have the types that are asserted.  The server's
    methods send only requests whose assertions in the handlers hold.  In every
    run of the client in which each call waits on a channel of its own, [ConnID]
    and [Read] never fail the assertion on the reply they get; in every run of
    the server [Read] never fails its assertion either, except on the one reply
    that says the server is closed, which carries no bundle: there it panics
    instead of returning the error. *)
Theorem replies_well_typed :
  (forall id payload ch,
     Server.well_typed_req (sent (ServerApi.Write id payload ch)) = true /\
     Server.well_typed_req (sent (ServerApi.CloseConn id ch)) = true /\
     Server.well_typed_req (sent (ServerApi.Close ch)) = true /\
     Server.well_typed_req (sent (ServerApi.doRead ch)) = true) /\
  (forall p c ins es ch r, Client.run p c ins es -> awaitReply ch es = Some r ->
     (ClientApi.fresh_channel ins (sent (ClientApi.ConnID ch)) ->
        exists n, returns (ClientApi.ConnID ch) r = Ret n) /\
     (ClientApi.fresh_channel ins (sent (ClientApi.Read ch)) ->
        exists res, returns (ClientApi.Read ch) r = Ret res)) /\
  (forall p s ins es ch r, Server.run p s ins es -> awaitReply ch es = Some r ->
     ClientApi.fresh_channel ins (sent (ServerApi.doRead ch)) ->
     (exists res, returns (ServerApi.doRead ch) r = Ret res) \/
     (r = mkRet INil (Some "server is closed") /\ returns (ServerApi.doRead ch) r = Panic)).
Proof.
  split; [done|]. split.
  - intros p c ins es ch r Hr Ha. split; intros Hq;
      pose proof (ClientApi.run_await p c ins es _ r Hr Hq Ha) as Hok; cbn in Hok |- *.
    + destruct Hok as [n ->]. by exists n.
    + destruct (rerr r); [by eauto|]. destruct Hok as [b Hb]; [done|]. rewrite Hb. cbn. eauto.
  - intros p s ins es ch r Hr Ha Hq.
    pose proof (ServerApi.server_run_await p s ins es _ r Hr Hq Ha) as Hok.
    destruct Hok as [[b Hb]| ->]; [left|by right].
    cbn. unfold Server.Read. cbn. rewrite Hb. cbn. eauto.
Qed.

(** A request is the only one of its channel. *)
Ltac fresh_in i := split;
  [ apply list_elem_of_lookup_2 with i; vm_compute; reflexivity
  | match goal with |- forall q', q' ∈ ?ins -> replyc q' = replyc ?q -> q' = ?q =>
      cut (Forall (fun q' => replyc q' = replyc q -> q' = q) ins);
      [rewrite Forall_forall; intros Hall; exact Hall|];
      vm_compute; repeat (constructor; [try discriminate; reflexivity|]); constructor
    end ].

Lemma replies_well_typed_witness :
  (exists res, returns (ClientApi.Read 4) (mkRet (IBytes [x41]) None) = Ret res) /\
  ((exists res, returns (ServerApi.doRead 12) (mkRet (IBundle (mkBundle 2 [x43])) None) = Ret res) \/
   (mkRet (IBundle (mkBundle 2 [x43])) None = mkRet INil (Some "server is closed") /\
    returns (ServerApi.doRead 12) (mkRet (IBundle (mkBundle 2 [x43])) None) = Panic)).
Proof.
  destruct replies_well_typed as (_ & Hc & Hs). split.
  - apply (Hc NewParams Client.demo_end.1.1 Client.demo_end.1.2 Client.demo_end.2
             4 (mkRet (IBytes [x41]) None) Client.demo_run); [vm_compute; reflexivity|].
    fresh_in 8%nat.
  - apply (Hs NewParams Server.demo_end.1.1 Server.demo_end.1.2 Server.demo_end.2
             12 (mkRet (IBundle (mkBundle 2 [x43])) None) Server.server_demo_run);
      [vm_compute; reflexivity|]. fresh_in 8%nat.
Defined.
