(* ===== verification/LspSystem.v ===== *)
(** * LspSystem: the clients and the server of lsp over a network

    [LspClient] and [LspServer] run against packets that may be anything.  Here
    the two are put together: any number of clients, one per address, and one
    server exchange the datagrams they send, through the wire format of
    [LspNetwork].  The network may lose, delay, reorder and duplicate
    datagrams; it does not make them up.  Besides the requests and the effects
    of each side the system records the payloads of the writes that were
    accepted; what one side reads is a prefix of what the other wrote. *)
From S2P Require Import Prelude LspBuffer LspCommon LspWindow LspNetwork LspClient LspServer.
Open Scope Z_scope.

(** ** Buffers and their elements *)

Section elements.
Import Buffer.
Context (P : Message -> Prop).

Lemma Insert_Forall m l l' : P m -> Forall P l -> Insert m l = Ret l' -> Forall P l'.
Proof.
  intros Hm Hl. assert (Hscan : forall l l', Forall P l -> insertScan m l = Ret l' -> Forall P l').
  { clear l l' Hl. induction l as [|e l IH]; intros l' Hl; cbn [insertScan]; [done|].
    apply Forall_cons in Hl as [He Hl].
    destruct (SeqNum m <=? SeqNum e); [destruct (SeqNum m <? SeqNum e); intros [= <-]; auto|].
    intros (tl & E & [= <-])%bind_Ret_inv. eauto. }
  unfold Insert. destruct (last l) as [b|]; [destruct (SeqNum b <? SeqNum m)|]; eauto;
    intros [= <-]; apply Forall_app; auto.
Qed.

Lemma Delete_Forall k l : Forall P l -> Forall P (Delete k l).2.
Proof.
  rewrite !Forall_forall. intros Hl x Hx. apply Hl. eapply elem_of_sublist, Delete_sublist. done.
Qed.

Lemma AdjustUsingWindow_Forall w l l' :
  Forall P l -> AdjustUsingWindow w l = Ret l' -> Forall P l'.
Proof.
  unfold AdjustUsingWindow. intros Hl (b & _ & [= <-])%bind_Ret_inv.
  induction Hl as [|e l He Hl IH]; cbn; [done|]. case_match; auto.
Qed.

Lemma fillWindow_Forall out wl ws wb : forall ub u w es,
  Forall P ub -> Forall P wb -> fillWindow out wl ws ub wb = Ret (u, w, es) ->
  Forall P u /\ Forall P w /\ exists mv, es = out <$> mv /\ Forall P mv.
Proof.
  induction wb as [|m wb IH]; intros ub u w es Hu Hw; cbn [fillWindow].
  - intros [= <- <- <-]. split_and!; auto. exists []. split; [done|constructor].
  - apply Forall_cons in Hw as [Hm Hw].
    destruct (wl <=? SeqNum m - ws).
    { intros [= <- <- <-]. split_and!; auto. exists []. split; [done|constructor]. }
    intros (ub' & Hi & H)%bind_Ret_inv. apply bind_Ret_inv in H as ([[u' w'] es'] & Hf & [= -> -> <-]).
    apply IH in Hf as (? & ? & mv & -> & ?); [|eauto using Insert_Forall|done].
    split_and!; auto. exists (m :: mv). split; [done|by constructor].
Qed.

Lemma slideWindow_Forall out ws ub wb u w es :
  Forall P ub -> Forall P wb -> slideWindow out ws ub wb = Ret (u, w, es) ->
  Forall P u /\ Forall P w /\ exists mv, es = out <$> mv /\ Forall P mv.
Proof.
  intros Hu Hw. unfold slideWindow. intros ([[u0 w0] es0] & H0 & H)%bind_Ret_inv.
  assert (Hfirst : Forall P u0 /\ Forall P w0 /\ exists mv, es0 = out <$> mv /\ Forall P mv).
  { destruct (Len ub =? 0).
    - destruct wb as [|m wb]; [done|]. cbn in H0. apply bind_Ret_inv in H0 as (ub' & Hi & [= <- <- <-]).
      apply Forall_cons in Hw as [Hm Hw]. split_and!; [eauto using Insert_Forall|done|].
      exists [m]. auto.
    - injection H0 as <- <- <-. split_and!; auto. exists []. split; [done|constructor]. }
  destruct Hfirst as (Hu0 & Hw0 & mv & -> & Hmv).
  apply bind_Ret_inv in H as (f & _ & H).
  apply bind_Ret_inv in H as ([[u1 w1] es1] & Hf & [= <- <- <-]).
  apply fillWindow_Forall in Hf as (? & ? & mv' & -> & ?); [|done|done].
  split_and!; auto. exists (mv ++ mv'). rewrite fmap_app. split; [done|]. by apply Forall_app.
Qed.

End elements.

(** Every message sent satisfies [P]. *)
Definition sends_ok (P : option UDPAddr -> Message -> Prop) : list effect -> Prop :=
  Forall (fun e => match e with SendMsg to m => P to m | Reply _ _ => True end).

Lemma sends_ok_fmap P to l : Forall (P to) l -> sends_ok P (SendMsg to <$> l).
Proof. unfold sends_ok. rewrite Forall_fmap. done. Qed.

Lemma sends_ok_elem P es to m : sends_ok P es -> SendMsg to m ∈ es -> P to m.
Proof. intros H Hin. unfold sends_ok in H. rewrite Forall_forall in H. by apply H in Hin. Qed.

Lemma sends_ok_impl (P Q : option UDPAddr -> Message -> Prop) es :
  (forall to m, P to m -> Q to m) -> sends_ok P es -> sends_ok Q es.
Proof. intros HPQ H. eapply Forall_impl; [exact H|]. intros [to m|]; cbn; auto. Qed.

(** Goals about a short list of effects. *)
Ltac sends :=
  unfold sends_ok;
  repeat (apply Forall_app; split); repeat (apply Forall_cons; split); try apply Forall_nil;
  cbn; try done; auto.

(** ** Accepted writes *)

(** [m] carries the payload of the write its number says. *)
Definition carries (ws : list (list byte)) (m : Message) : Prop :=
  Type_ m = MsgData -> 1 <= SeqNum m /\ ws !! Z.to_nat (SeqNum m - 1) = Some (Payload m).

Lemma carries_app ws ws' m : carries ws m -> carries (ws ++ ws') m.
Proof. intros H Ht. destruct (H Ht) as [? ?]. split; [done|]. by apply lookup_app_l_Some. Qed.

Lemma carries_new ws id p :
  carries (ws ++ [p]) (NewData id (Z.of_nat (length ws) + 1) p).
Proof.
  intros _. unfold NewData. cbn [SeqNum Payload]. split; [lia|].
  replace (Z.to_nat (Z.of_nat (length ws) + 1 - 1)) with (length ws) by lia.
  by rewrite list_lookup_middle.
Qed.

Lemma carries_ack ws id n : carries ws (NewAck id n).
Proof. done. Qed.

Lemma carries_connect ws : carries ws NewConnect.
Proof. done. Qed.

#[export] Hint Resolve carries_ack carries_connect carries_new carries_app : s2p.

(** The reply of a write that was accepted. *)
Definition accepts (es : list effect) : bool :=
  existsb (fun e => match e with Reply _ (mkRet INil None) => true | _ => false end) es.

(** The payload the client accepted in a turn. *)
Definition client_wrote (inp : option request) (es : list effect) : list (list byte) :=
  match inp with
  | Some (mkRequest dowrite (IBytes b) _) => if accepts es then [b] else []
  | _ => []
  end.

(** ** What the client sends *)

Module ClientSide.
Import Client.

Record cinv (c : client) (es : list effect) (ws : list (list byte)) : Prop := {
  ci_seq : seqNum c = Z.of_nat (length ws);
  ci_unacked : Forall (carries ws) (unAckedMsgBuffer c);
  ci_waiting : Forall (carries ws) (writeBuffer c);
  ci_acks : Forall (carries ws) (latestAckBuffer c);
  ci_sent : sends_ok (fun _ => carries ws) es }.

Lemma cinv_init p : cinv (NewClient p) [] [].
Proof. split; done || constructor. Qed.

(** More writes keep what holds of the old ones. *)
Lemma cinv_more c es ws ws' :
  cinv c es ws ->
  Forall (carries (ws ++ ws')) (unAckedMsgBuffer c) /\
  Forall (carries (ws ++ ws')) (writeBuffer c) /\
  Forall (carries (ws ++ ws')) (latestAckBuffer c) /\
  sends_ok (fun _ => carries (ws ++ ws')) es.
Proof.
  assert (Hl : forall l, Forall (carries ws) l -> Forall (carries (ws ++ ws')) l).
  { intros l Hl. eapply Forall_impl; [exact Hl|]. intros m. apply carries_app. }
  intros [Hq Hu Hw Ha Hs]. split_and!; auto.
  eapply sends_ok_impl; [|exact Hs]. intros to m. apply carries_app.
Qed.

(** A turn that leaves the sending side alone. *)
Lemma cinv_frame c c' es es' ws :
  cinv c es ws -> seqNum c' = seqNum c -> unAckedMsgBuffer c' = unAckedMsgBuffer c ->
  writeBuffer c' = writeBuffer c -> latestAckBuffer c' = latestAckBuffer c ->
  sends_ok (fun _ => carries ws) es' -> cinv c' (es ++ es') ws.
Proof.
  intros [Hq Hu Hw Ha Hs] Eq Eu Ew Ea He. split; rewrite ?Eq, ?Eu, ?Ew, ?Ea; auto.
  by apply Forall_app.
Qed.

Lemma handleRead_cinv req c es ws c' es' : cinv c es ws ->
  handleRead req c = Ret (c', es') -> cinv c' (es ++ es') ws.
Proof.
  intros Hi. unfold handleRead. intros H.
  case_match; [bind_inv; eapply cinv_frame; try done; sends|].
  apply bind_Ret_inv in H as (b & _ & H).
  case_match; [bind_inv; eapply cinv_frame; try done; sends|].
  apply bind_Ret_inv in H as (m & _ & H). apply bind_Ret_inv in H as ([x rb] & _ & [= <- <-]).
  eapply cinv_frame; try done; sends.
Qed.

Lemma handleWrite_cinv req c es ws c' es' : cinv c es ws -> op req = dowrite ->
  handleWrite req c = Ret (c', es') -> cinv c' (es ++ es') (ws ++ client_wrote (Some req) es').
Proof.
  intros Hi Hop. unfold handleWrite. destruct req as [o v ch]. cbn in Hop. subst o.
  destruct (connLost c).
  { intros [= <- <-]. destruct v; cbn; rewrite app_nil_r; eapply cinv_frame; try done; sends. }
  destruct (negb _).
  { intros [= <- <-]. destruct v; cbn; rewrite app_nil_r; eapply cinv_frame; try done; sends. }
  destruct v as [|b| | |]; try done. cbn [val as_bytes mbind outcome_bind].
  intros (fits & _ & H)%bind_Ret_inv.
  destruct (cinv_more c es ws [b] Hi) as (Hu & Hw & Ha & Hs).
  assert (Hnew : carries (ws ++ [b]) (NewData (connId c) (seqNum c + 1) b)).
  { rewrite (ci_seq _ _ _ Hi). apply carries_new. }
  destruct fits; apply bind_Ret_inv in H as (buf & Hins & [= <- <-]); cbn in *;
    apply (Insert_Forall (carries (ws ++ [b]))) in Hins; try done;
    (split; cbn; auto; [rewrite length_app, (ci_seq _ _ _ Hi); cbn; lia|];
     sends).
Qed.

Lemma handleEpoch_cinv c es ws c' es' : cinv c es ws ->
  handleEpoch c = Ret (c', es') -> cinv c' (es ++ es') ws.
Proof.
  intros Hi. unfold handleEpoch. cbn. case_match.
  - intros H'. apply bind_Ret_inv in H' as (n & _ & H').
    apply bind_Ret_inv in H' as (c1 & Hsh & [= <- <-]). unfold shutDown in Hsh. cbn in Hsh.
    case_match; [|done]. injection Hsh as <-. eapply cinv_frame; try done; sends.
  - intros [= <- <-]. eapply cinv_frame; try done.
    destruct Hi as [_ Hu Hw Ha Hs].
    assert (Hout : forall l, Forall (carries ws) l -> sends_ok (fun _ => carries ws) (send <$> l)).
    { intros l Hl. by apply (sends_ok_fmap (fun _ => carries ws)). }
    repeat (apply Forall_app; split); [case_match; sends|by apply Hout|].
    case_match; [by apply Hout|constructor].
Qed.

Lemma handleReceivedMsg_cinv req c es ws c' es' : cinv c es ws ->
  handleReceivedMsg req c = Ret (c', es') -> cinv c' (es ++ es') ws.
Proof.
  intros Hi. unfold handleReceivedMsg. intros (pk & _ & H)%bind_Ret_inv. cbn in H.
  destruct Hi as [Hq Hu Hw Ha Hs].
  destruct (Type_ (msg pk) =? MsgAck); [|destruct (Type_ (msg pk) =? MsgData)].
  - pose proof (Delete_Forall _ (SeqNum (msg pk)) _ Hu) as Hd.
    destruct (Buffer.Delete (SeqNum (msg pk)) (unAckedMsgBuffer c)) as [ex ub]. cbn in Hd.
    apply bind_Ret_inv in H as ([[u w] es1] & H1 & H).
    assert (Hsl : Forall (carries ws) u /\ Forall (carries ws) w /\
                  sends_ok (fun _ => carries ws) es1).
    { destruct (ex && _).
      - apply (slideWindow_Forall (carries ws)) in H1 as (? & ? & mv & -> & ?); [|done|done].
        split_and!; auto. by apply (sends_ok_fmap (fun _ => carries ws)).
      - injection H1 as <- <- <-. split_and!; auto. constructor. }
    destruct Hsl as (? & ? & ?).
    destruct (ex && (SeqNum (msg pk) =? 0)); [apply bind_Ret_inv in H as (n & _ & H)|];
      injection H as <- <-; split; cbn; auto; by apply Forall_app.
  - case_match; [injection H as <- <-; eapply cinv_frame; try done; sends|].
    case_match; [|injection H as <- <-; eapply cinv_frame; try done; sends].
    apply bind_Ret_inv in H as (rb & _ & H). apply bind_Ret_inv in H as (lb & Hlb & H).
    apply bind_Ret_inv in H as (lb' & Hlb' & [= <- <-]).
    apply (Insert_Forall (carries ws)) in Hlb; [|apply carries_ack|done].
    apply (AdjustUsingWindow_Forall (carries ws)) in Hlb'; [|done].
    split; cbn; auto; sends.
  - injection H as <- <-. eapply cinv_frame; try done; sends.
Qed.

Lemma dispatch_cinv req c es ws c' es' : cinv c es ws -> op req <> dowrite ->
  dispatch req c = Ret (c', es') -> cinv c' (es ++ es') ws.
Proof.
  intros Hi Hop. unfold dispatch. destruct (op req) eqn:Eop; try done.
  - by apply handleRead_cinv.
  - unfold handleClose. intros (c1 & Hc1 & [= <- <-])%bind_Ret_inv.
    assert (Hsame : seqNum c1 = seqNum c /\ unAckedMsgBuffer c1 = unAckedMsgBuffer c /\
      writeBuffer c1 = writeBuffer c /\ latestAckBuffer c1 = latestAckBuffer c).
    { destruct (negb (connLost c)); [|by injection Hc1 as <-].
      unfold shutDown in Hc1. case_match; [|done]. by injection Hc1 as <-. }
    destruct Hsame as (? & ? & ? & ?). eapply cinv_frame; try done.
    apply Forall_forall. intros e He. 
    assert (exists r, e = closeReply c1 r) as [r ->].
    { apply elem_of_cons in He as [->|(r & -> & _)%list_elem_of_fmap]; eauto. }
    unfold closeReply, replyErr, replyNil. by destruct (_ || _).
  - intros [= <- <-]. eapply cinv_frame; try done; sends.
  - intros [= <- <-]. eapply cinv_frame; try done; sends.
  - unfold handleConnect. intros (ub & Hub & [= <- <-])%bind_Ret_inv. destruct Hi.
    apply (Insert_Forall (carries ws)) in Hub; [|apply carries_connect|done].
    split; cbn; auto; sends.
  - by apply handleEpoch_cinv.
  - by apply handleReceivedMsg_cinv.
Qed.

Lemma choose_sender c req c0 : choose c = Ret (Serve req c0) ->
  seqNum c0 = seqNum c /\ unAckedMsgBuffer c0 = unAckedMsgBuffer c /\
  writeBuffer c0 = writeBuffer c /\ latestAckBuffer c0 = latestAckBuffer c.
Proof.
  unfold choose. rewrite front_is_spec. cbn. intros H. repeat case_match; simplify_eq; done.
Qed.

Lemma client_wrote_other req es : op req <> dowrite -> client_wrote (Some req) es = [].
Proof. destruct req as [[] v ch]; done. Qed.

Lemma eventHandler_cinv inp c es ws c' es' : inv c -> cinv c es ws ->
  (forall req, inp = Some req -> choose c = Ret Receive) ->
  eventHandler inp c = Ret (c', es') -> cinv c' (es ++ es') (ws ++ client_wrote inp es').
Proof.
  intros Hinv Hi Hinp. unfold eventHandler.
  destruct (choose_ok c Hinv) as (ch & Ech & Hch). rewrite Ech. cbn [mbind outcome_bind].
  assert (Hnone : forall r, ch <> Receive -> inp = Some r -> False).
  { intros r Hne ->. specialize (Hinp r eq_refl). congruence. }
  destruct ch as [|req c0|].
  - destruct inp as [r|]; [by destruct (Hnone r)|]. intros [= <- <-]. cbn. rewrite !app_nil_r. done.
  - destruct inp as [r|]; [by destruct (Hnone r)|]. cbn. rewrite app_nil_r.
    destruct Hch as [_ Hop]. apply dispatch_cinv; [|by destruct Hop as [-> | ->]].
    destruct (choose_sender _ _ _ Ech) as (E1 & E2 & E3 & E4). destruct Hi.
    split; rewrite ?E1, ?E2, ?E3, ?E4; done.
  - destruct inp as [req|]; [|intros [= <- <-]; cbn; rewrite !app_nil_r; done].
    assert (Hd : dispatch req c = Ret (c', es') ->
      cinv c' (es ++ es') (ws ++ client_wrote (Some req) es')).
    { destruct (decide (op req = dowrite)) as [Hop|Hop].
      - unfold dispatch. rewrite Hop. by apply handleWrite_cinv.
      - rewrite client_wrote_other, app_nil_r by done. by apply dispatch_cinv. }
    unfold receive. rewrite front_is_spec. cbn [mbind outcome_bind].
    destruct (op req) eqn:Hop; try done;
      (case_match; [|done]); intros [= <- <-];
      rewrite client_wrote_other, (app_nil_r ws) by congruence;
      (eapply cinv_frame; try done; sends).
Qed.

End ClientSide.

(** ** What the server sends *)

(** The payloads accepted for connection [id], among all accepted writes. *)
Definition writes_of (id : Z) (ws : list (Z * list byte)) : list (list byte) :=
  omap (fun w => if fst w =? id then Some (snd w) else None) ws.

Lemma writes_of_app id ws ws' : writes_of id (ws ++ ws') = writes_of id ws ++ writes_of id ws'.
Proof. apply omap_app. Qed.

Lemma writes_of_self id p : writes_of id [(id, p)] = [p].
Proof. unfold writes_of. cbn. by rewrite Z.eqb_refl. Qed.

Lemma writes_of_other id id' p : id' <> id -> writes_of id [(id', p)] = [].
Proof. intros Hne. unfold writes_of. cbn. by rewrite (proj2 (Z.eqb_neq id' id)). Qed.

Lemma writes_of_fresh id ws : Forall (fun w => fst w <> id) ws -> writes_of id ws = [].
Proof.
  induction 1 as [|[i b] ws Hne _ IH]; [done|]. unfold writes_of in *. cbn in *.
  by rewrite (proj2 (Z.eqb_neq i id)).
Qed.

(** The write the server accepted in a turn. *)
Definition server_wrote (req : request) (es : list effect) : list (Z * list byte) :=
  match req with
  | mkRequest dowrite (IBundle b) _ => if accepts es then [(connId_ b, payload_ b)] else []
  | _ => []
  end.

Module ServerSide.
Import Server.

(** [m] belongs to connection [id]. *)
Definition belongs (ws : list (Z * list byte)) (id : Z) (m : Message) : Prop :=
  ConnID m = id /\ carries (writes_of id ws) m.

(** A message sent to an address belongs to a connection of that address. *)
Definition addressed (owner : gmap Z UDPAddr) (ws : list (Z * list byte))
    (to : option UDPAddr) (m : Message) : Prop :=
  (forall a, to = Some a -> owner !! ConnID m = Some a) /\
  carries (writes_of (ConnID m) ws) m.

(** [owner] remembers the address every connection was granted to. *)
Record winv (owner : gmap Z UDPAddr) (s : server) (es : list effect)
    (ws : list (Z * list byte)) : Prop := {
  wi_fresh : forall id a, owner !! id = Some a -> id <= connId s;
  wi_host : forall a id, hostportConnIdMap s !! a = Some id -> owner !! id = Some a;
  wi_addr : forall id a, connIdHostportMap s !! id = Some a -> owner !! id = Some a;
  wi_unacked : forall id b, unAckedMsgBuffer s !! id = Some b -> Forall (belongs ws id) b;
  wi_waiting : forall id b, writeBuffer s !! id = Some b -> Forall (belongs ws id) b;
  wi_acks : forall id b, latestAckBuffer s !! id = Some b -> Forall (belongs ws id) b;
  wi_seq : forall id n, seqNum s !! id = Some n -> n = Z.of_nat (length (writes_of id ws));
  wi_active : forall id, closing s = false -> isActive s id = true -> is_Some (seqNum s !! id);
  wi_writes : Forall (fun w => is_Some (owner !! fst w)) ws;
  wi_sent : sends_ok (addressed owner ws) es;
  wi_granted : forall id a, owner !! id = Some a -> granted es id a }.

Lemma winv_init p : winv ∅ (NewServer p) [] [].
Proof.
  split; try (intros *; cbn [NewServer connId hostportConnIdMap connIdHostportMap unAckedMsgBuffer
    writeBuffer latestAckBuffer seqNum]; by rewrite lookup_empty).
  all: constructor.
Qed.

(** A turn that at most forgets things and sends good messages. *)
Lemma winv_shrink owner s s' es es' ws :
  winv owner s es ws -> connId s' = connId s ->
  hostportConnIdMap s' ⊆ hostportConnIdMap s -> connIdHostportMap s' ⊆ connIdHostportMap s ->
  unAckedMsgBuffer s' ⊆ unAckedMsgBuffer s -> writeBuffer s' ⊆ writeBuffer s ->
  latestAckBuffer s' ⊆ latestAckBuffer s -> seqNum s' ⊆ seqNum s ->
  (forall id, closing s' = false -> isActive s' id = true -> is_Some (seqNum s' !! id)) ->
  sends_ok (addressed owner ws) es' -> winv owner s' (es ++ es') ws.
Proof.
  intros [Hf Hh Hc Hu Hw Ha Hq Hact Hws Hs Hg] Eci Eh Ec Eu Ew Ea Eq Hact' He.
  split; eauto using lookup_weaken.
  - intros id a. rewrite Eci. eauto.
  - by apply Forall_app.
  - intros id a Ho. by apply granted_app, Hg.
Qed.

Definition replies (es : list effect) : Prop := sends_ok (fun _ _ => False) es.

Lemma replies_ok P es : replies es -> sends_ok P es.
Proof. apply sends_ok_impl. done. Qed.

Ltac shrink :=
  cbn; try reflexivity;
  repeat first [apply delete_subseteq | (etrans; [apply delete_subseteq|])]; try reflexivity.

(** Reading touches the receiving side only. *)
Definition reader_frame (s s' : server) (es : list effect) : Prop :=
  exists rb ex dr, s' = s <| readBuffer := rb |> <| expectedSeqNum := ex |> <| deferedRead := dr |>
    /\ replies es.

Lemma readReady_frame ks req s s' es :
  readReady ks req s = Ret (Some (s', es)) -> reader_frame s s' es.
Proof.
  induction ks as [|id ks IH]; cbn [readReady]; [done|]. intros H.
  apply bind_Ret_inv in H as (rb & _ & H). apply bind_Ret_inv in H as (b & _ & H).
  destruct b; [|auto]. apply bind_Ret_inv in H as ([m rb'] & _ & [= <- <-]).
  exists (<[id := rb']> (readBuffer s)),
    (<[id := map_get 0 (expectedSeqNum s) id + 1]> (expectedSeqNum s)), (deferedRead s). split; [by destruct s|]. unfold replies; sends.
Qed.

Lemma readLost_frame ks req s s' es :
  readLost ks req s = Some (s', es) -> reader_frame s s' es.
Proof.
  induction ks as [|id ks IH]; cbn [readLost]; [done|].
  destruct (negb _); [|auto]. intros [= <- <-].
  exists (delete id (readBuffer s)), (delete id (expectedSeqNum s)), (deferedRead s). split; [by destruct s|]. unfold replies; sends.
Qed.

Lemma handleRead_frame range req s s' es :
  handleRead range req s = Ret (s', es) -> reader_frame s s' es.
Proof.
  unfold handleRead. destruct (closing s).
  { intros [= <- <-]. exists (readBuffer s), (expectedSeqNum s), (deferedRead s).
    split; [by destruct s|]. unfold replies; sends. }
  intros (r & Hr & H)%bind_Ret_inv. destruct r as [[s1 es1]|].
  { injection H as <- <-. by eapply readReady_frame. }
  destruct (readLost _ _ _) as [[s1 es1]|] eqn:El.
  { injection H as <- <-. by eapply readLost_frame. }
  injection H as <- <-. exists (readBuffer s), (expectedSeqNum s), (deferedRead s ++ [req]).
  split; [by destruct s|]. unfold replies; sends.
Qed.

Lemma reader_winv owner s s' es es' ws :
  winv owner s es ws -> reader_frame s s' es' -> winv owner s' (es ++ es') ws.
Proof.
  intros Hi (rb & ex & dr & -> & He). eapply winv_shrink; try done.
  - apply Hi.
  - by apply replies_ok.
Qed.

(** One buffer of one connection is replaced. *)
Lemma Forall_insert_buffer ws id (bufs : gmap Z (list Message)) b :
  (forall i x, bufs !! i = Some x -> Forall (belongs ws i) x) -> Forall (belongs ws id) b ->
  forall i x, <[id := b]> bufs !! i = Some x -> Forall (belongs ws i) x.
Proof.
  intros Hall Hb i x. rewrite lookup_insert. case_decide as Hi; [|apply Hall].
  intros [= <-]. by subst.
Qed.

Lemma belongs_app ws w id m : belongs ws id m -> belongs (ws ++ [w]) id m.
Proof. intros [? ?]. split; [done|]. rewrite writes_of_app. by apply carries_app. Qed.

Lemma belongs_buffers_app ws w (bufs : gmap Z (list Message)) :
  (forall i x, bufs !! i = Some x -> Forall (belongs ws i) x) ->
  forall i x, bufs !! i = Some x -> Forall (belongs (ws ++ [w]) i) x.
Proof. intros Hall i x Hx. eapply Forall_impl; [by eapply Hall|]. intros m. apply belongs_app. Qed.

Lemma addressed_app owner ws w to m : addressed owner ws to m -> addressed owner (ws ++ [w]) to m.
Proof. intros [? ?]. split; [done|]. rewrite writes_of_app. by apply carries_app. Qed.

Lemma belongs_addressed owner ws id a m :
  owner !! id = Some a -> belongs ws id m -> addressed owner ws (Some a) m.
Proof. intros Ho [<- Hc]. split; [|done]. by intros ? [= <-]. Qed.

Lemma sends_to_conn owner ws id a l :
  owner !! id = Some a -> Forall (belongs ws id) l ->
  sends_ok (addressed owner ws) (SendMsg (Some a) <$> l).
Proof.
  intros Ho Hl. apply sends_ok_fmap. eapply Forall_impl; [done|].
  intros m. by apply belongs_addressed.
Qed.

Lemma belongs_ack ws id n : belongs ws id (NewAck id n).
Proof. split; [done|]. apply carries_ack. Qed.

Lemma handleWrite_winv owner req s es ws s' es' : winv owner s es ws -> op req = dowrite ->
  handleWrite req s = Ret (s', es') -> winv owner s' (es ++ es') (ws ++ server_wrote req es').
Proof.
  intros Hi Hop. destruct req as [o v ch]. cbn in Hop. subst o. unfold handleWrite.
  intros (b & Hb & H)%bind_Ret_inv. destruct v as [| | | |b0]; try done. injection Hb as ->.
  assert (Hkeep : forall e, winv owner s (es ++ [replyErr (mkRequest dowrite (IBundle b) ch) e])
    (ws ++ server_wrote (mkRequest dowrite (IBundle b) ch)
             [replyErr (mkRequest dowrite (IBundle b) ch) e])).
  { intros e. cbn. rewrite app_nil_r. eapply winv_shrink; try done; [apply Hi|sends]. }
  destruct (closing s) eqn:Ecl; cbn [orb] in H; [injection H as <- <-; apply Hkeep|].
  destruct (isActive s (connId_ b)) eqn:Eact; cbn [negb] in H; [|injection H as <- <-; apply Hkeep].
  set (id := connId_ b) in *. set (p := payload_ b) in *.
  destruct (connIdHostportMap s !! id) as [a|] eqn:Ea; [|injection H as <- <-; apply Hkeep].
  destruct (wi_active _ _ _ _ Hi id Ecl Eact) as [n En].
  pose proof (wi_seq _ _ _ _ Hi id n En) as Hn. unfold map_get in H. rewrite En in H. cbn in H.
  set (m := NewData id (n + 1) p) in *.
  assert (Hm : belongs (ws ++ [(id, p)]) id m).
  { split; [done|]. unfold m. rewrite writes_of_app, writes_of_self, Hn. apply carries_new. }
  pose proof (wi_addr _ _ _ _ Hi id a Ea) as Ho.
  apply bind_Ret_inv in H as (ub & Hub%deref_Ret_inv & H).
  apply bind_Ret_inv in H as (wb & Hwb%deref_Ret_inv & H).
  apply bind_Ret_inv in H as (fits & _ & H). cbn in H.
  destruct Hi as [Hf Hh Hc Hu Hw Hacks Hq Hact Hws Hs Hg].
  pose proof (belongs_buffers_app ws (id, p) _ Hu) as Hu'.
  pose proof (belongs_buffers_app ws (id, p) _ Hw) as Hw'.
  pose proof (belongs_buffers_app ws (id, p) _ Hacks) as Ha'.
  assert (Hs' : sends_ok (addressed owner (ws ++ [(id, p)])) es).
  { eapply sends_ok_impl; [|done]. intros to x. apply addressed_app. }
  assert (Hq' : forall i k, <[id := n + 1]> (seqNum s) !! i = Some k ->
    k = Z.of_nat (length (writes_of i (ws ++ [(id, p)])))).
  { intros i k. rewrite lookup_insert, writes_of_app. case_decide as Hid.
    - subst i. intros [= <-]. rewrite writes_of_self, length_app. cbn. lia.
    - rewrite writes_of_other, app_nil_r by done. apply Hq. }
  assert (Hact' : forall i, closing s = false -> isActive s i = true ->
    is_Some (<[id := n + 1]> (seqNum s) !! i)).
  { intros i Hcl Hai. rewrite lookup_insert. case_decide; eauto. }
  assert (Hws' : Forall (fun w => is_Some (owner !! fst w)) (ws ++ [(id, p)])).
  { apply Forall_app. split; [done|]. constructor; [cbn; eauto|constructor]. }
  destruct fits; apply bind_Ret_inv in H as (buf & Hins & [= <- <-]);
    apply (Insert_Forall (belongs (ws ++ [(id, p)]) id)) in Hins; eauto;
    change (server_wrote _ _) with [(id, p)];
    (split; cbn; eauto using Forall_insert_buffer, granted_app;
     apply Forall_app; split; [exact Hs'|]; sends; by eapply belongs_addressed).
Qed.

Lemma recvConnect_winv owner a s es ws s' es' : winv owner s es ws ->
  recvConnect a s = Ret (s', es') -> exists owner', owner ⊆ owner' /\ winv owner' s' (es ++ es') ws.
Proof.
  intros Hi. unfold recvConnect. destruct (_ && _).
  2: { intros [= <- <-]. exists owner. split; [done|]. rewrite app_nil_r. done. }
  intros [= <- <-]. set (id := connId s + 1). exists (<[id := a]> owner).
  assert (Hfresh : owner !! id = None).
  { destruct (owner !! id) as [x|] eqn:E; [|done]. apply (wi_fresh _ _ _ _ Hi) in E. lia. }
  assert (Hsub : owner ⊆ <[id := a]> owner) by by apply insert_subseteq.
  split; [done|].
  assert (Hext : forall i x, owner !! i = Some x -> <[id := a]> owner !! i = Some x).
  { intros i x Hx. by eapply lookup_weaken. }
  assert (Hnil : writes_of id ws = []).
  { apply writes_of_fresh. eapply Forall_impl; [apply Hi|]. intros w [x Hx] Heq. congruence. }
  destruct Hi as [Hf Hh Hc Hu Hw Hacks Hq Hact Hws Hs Hg].
  assert (Hnew : forall bufs : gmap Z (list Message),
    (forall i x, bufs !! i = Some x -> Forall (belongs ws i) x) ->
    forall i x, <[id := Buffer.NewBuffer]> bufs !! i = Some x -> Forall (belongs ws i) x).
  { intros bufs Hall. apply Forall_insert_buffer; [done|constructor]. }
  split; cbn; eauto.
  - intros i x. rewrite lookup_insert. case_decide; [lia|]. intros Hx. apply Hf in Hx. lia.
  - intros x i. rewrite lookup_insert. case_decide as Hx; [|eauto].
    intros [= <-]. subst x. by rewrite lookup_insert_eq.
  - intros i x. rewrite lookup_insert. case_decide as Hx; [|eauto].
    intros [= <-]. subst i. by rewrite lookup_insert_eq.
  - intros i n. rewrite lookup_insert. case_decide as Hx; [|eauto].
    intros [= <-]. subst i. by rewrite Hnil.
  - intros i Hcl. unfold isActive, map_get. cbn. rewrite !lookup_insert.
    case_decide; [eauto|]. by apply Hact.
  - eapply Forall_impl; [exact Hws|]. intros w [x Hx]. eauto.
  - apply Forall_app. split.
    + eapply sends_ok_impl; [|exact Hs]. intros to m [Ho Hcar]. split; [|done]. eauto.
    + sends. split; [|apply carries_ack]. intros x [= <-]. cbn. by rewrite lookup_insert_eq.
  - intros i x. rewrite lookup_insert. case_decide as Hx; [|by intros; apply granted_app; auto].
    intros [= <-]. subst i. unfold granted. apply elem_of_app. right. by left.
Qed.

(** Forgetting more, with nothing sent. *)
Lemma winv_forget owner s s' es ws :
  winv owner s es ws -> connId s' = connId s ->
  hostportConnIdMap s' ⊆ hostportConnIdMap s -> connIdHostportMap s' ⊆ connIdHostportMap s ->
  unAckedMsgBuffer s' ⊆ unAckedMsgBuffer s -> writeBuffer s' ⊆ writeBuffer s ->
  latestAckBuffer s' ⊆ latestAckBuffer s -> seqNum s' ⊆ seqNum s ->
  (forall id, closing s' = false -> isActive s' id = true -> is_Some (seqNum s' !! id)) ->
  winv owner s' es ws.
Proof.
  intros Hi ????????. rewrite <- (app_nil_r es). eapply winv_shrink; try done. constructor.
Qed.

Lemma cleanUp_winv owner a id s es ws : winv owner s es ws ->
  negb (isActive s id) || closing s = true -> winv owner (cleanUp a id s) es ws.
Proof.
  intros Hi Hcl. eapply (winv_forget owner s); try done; shrink.
  intros i Hc Ha. change (closing s = false) in Hc. change (isActive s i = true) in Ha.
  unfold cleanUp. cbn. rewrite lookup_delete. case_decide as Hid.
  - subst i. rewrite Hc, Ha in Hcl. done.
  - by apply Hi.
Qed.

Lemma recvAck_winv owner a m s es ws s' es' : winv owner s es ws ->
  recvAck a m s = Ret (s', es') -> winv owner s' (es ++ es') ws.
Proof.
  intros Hi. unfold recvAck. destruct (0 <? _) eqn:Epos.
  2: { intros [= <- <-]. by rewrite app_nil_r. }
  breflect. apply map_get_pos in Epos. set (id := map_get 0 (hostportConnIdMap s) a) in *.
  pose proof (wi_host _ _ _ _ Hi a id Epos) as Ho.
  intros (ub & Hub%deref_Ret_inv & H)%bind_Ret_inv. cbn in Hub.
  pose proof (Delete_Forall _ (SeqNum m) _ (wi_unacked _ _ _ _ Hi id ub Hub)) as Hd.
  destruct (Buffer.Delete (SeqNum m) ub) as [ex ub1]. cbn in Hd.
  apply bind_Ret_inv in H as ([[u w] es1] & H1 & H). cbn in H1.
  assert (Hsl : Forall (belongs ws id) u /\
    (forall x, w = Some x -> Forall (belongs ws id) x) /\ sends_ok (addressed owner ws) es1).
  { destruct ex; [|injection H1 as <- <- <-; split_and!; try done; constructor].
    apply bind_Ret_inv in H1 as (wb & Hwb%deref_Ret_inv & H1).
    destruct (0 <? Buffer.Len wb); [|injection H1 as <- <- <-; split_and!; try done; constructor].
    apply bind_Ret_inv in H1 as ([[u1 w1] es2] & H1 & [= <- <- <-]).
    apply (slideWindow_Forall (belongs ws id)) in H1 as (? & ? & mv & -> & ?);
      [|done|by eapply wi_waiting].
    split_and!; [done|by intros ? [= <-]|by apply (sends_to_conn owner ws id)]. }
  destruct Hsl as (Hu1 & Hw1 & Hes1).
  match type of H with context [cleanUp a id ?x] => set (s1 := x) in H end.
  assert (Hs1 : winv owner s1 (es ++ es1) ws).
  { destruct Hi as [Hf Hh Hc Hu Hw Hacks Hq Hact Hws Hs Hg].
    split; cbn; eauto using Forall_insert_buffer, granted_app.
    - destruct w as [x|]; [|done]. apply Forall_insert_buffer; auto.
    - by apply Forall_app. }
  match type of H with context [if ?b then _ else _] => destruct b eqn:Eb end;
    injection H as <- <-; [|done]. apply andb_true_iff in Eb as [_ Eb]. by apply cleanUp_winv.
Qed.

Lemma recvData_winv range owner a m s es ws s' es' : winv owner s es ws ->
  recvData range a m s = Ret (s', es') -> winv owner s' (es ++ es') ws.
Proof.
  intros Hi. unfold recvData. destruct (_ && _) eqn:Ec.
  2: { intros [= <- <-]. by rewrite app_nil_r. }
  apply andb_true_iff in Ec as [Ec _]. apply andb_true_iff in Ec as [Epos _].
  breflect. apply map_get_pos in Epos. set (id := map_get 0 (hostportConnIdMap s) a) in *.
  pose proof (wi_host _ _ _ _ Hi a id Epos) as Ho. cbn.
  destruct (_ <=? _).
  2: { intros [= <- <-]. rewrite app_nil_r. eapply winv_forget; try done. apply Hi. }
  intros (rb & _ & H)%bind_Ret_inv. apply bind_Ret_inv in H as (rb' & _ & H).
  apply bind_Ret_inv in H as (lb & Hlb%deref_Ret_inv & H).
  apply bind_Ret_inv in H as (lb' & Hlb' & H). apply bind_Ret_inv in H as (lb'' & Hlb'' & H).
  apply (Insert_Forall (belongs ws id)) in Hlb'; [|apply belongs_ack|by eapply wi_acks].
  apply (AdjustUsingWindow_Forall (belongs ws id)) in Hlb''; [|done].
  set (e := SendMsg (Some a) (NewAck id (SeqNum m))) in *.
  assert (Hs1 : forall dr, winv owner
    (s <| latestActiveEpoch := <[id := currEpoch s]> (latestActiveEpoch s) |>
       <| readBuffer := <[id := rb']> (readBuffer s) |>
       <| latestAckBuffer := <[id := lb'']> (latestAckBuffer s) |>
       <| deferedRead := dr |>) (es ++ [e]) ws).
  { intros dr. destruct Hi as [Hf Hh Hc Hu Hw Hacks Hq Hact Hws Hs Hg].
    split; cbn; eauto using Forall_insert_buffer, granted_app.
    apply Forall_app. split; [done|]. sends. eapply belongs_addressed; [done|apply belongs_ack]. }
  cbn in H. destruct (deferedRead s) as [|rd rest] eqn:Edr.
  { injection H as <- <-. rewrite <- Edr. apply (Hs1 (deferedRead s)). }
  destruct (_ =? _).
  - apply bind_Ret_inv in H as ([s2 es2] & Hr%handleRead_frame & [= <- <-]).
    change (e :: es2) with ([e] ++ es2). rewrite app_assoc.
    eapply reader_winv; [apply (Hs1 rest)|exact Hr].
  - injection H as <- <-. rewrite <- Edr. apply (Hs1 (deferedRead s)).
Qed.

Lemma loseConn_winv owner id s es ws s' es' : winv owner s es ws ->
  loseConn id s = Ret (s', es') -> winv owner s' (es ++ es') ws.
Proof.
  intros Hi. unfold loseConn. intros (rb & _ & H)%bind_Ret_inv.
  apply bind_Ret_inv in H as (ready & _ & H).
  match type of H with (let '(_, _) := ?x in _) = _ => destruct x as [s1 es1] eqn:E1 end.
  apply bind_Ret_inv in H as (a & _ & [= <- <-]).
  assert (H1 : replies es1 /\ connId s1 = connId s /\ hostportConnIdMap s1 = hostportConnIdMap s /\
    connIdHostportMap s1 = connIdHostportMap s /\ unAckedMsgBuffer s1 = unAckedMsgBuffer s /\
    writeBuffer s1 = writeBuffer s /\ latestAckBuffer s1 = latestAckBuffer s /\
    seqNum s1 = seqNum s /\ closing s1 = closing s /\ activeConn s1 = delete id (activeConn s)).
  { destruct (closing s) eqn:Ecl; cbn in E1; destruct (deferedRead s); cbn in E1;
      try destruct (negb ready); injection E1 as <- <-;
      (split_and!; try done; unfold replies; sends). }
  destruct H1 as (Hr & E2 & E3 & E4 & E5 & E6 & E7 & E8 & E9 & E10).
  eapply winv_shrink; [exact Hi|..]; cbn; rewrite ?E2, ?E3, ?E4, ?E5, ?E6, ?E7, ?E8; shrink.
  - intros i Hc Ha. change (closing s1 = false) in Hc. rewrite E9 in Hc.
    unfold isActive, map_get in Ha. cbn in Ha. rewrite E10, lookup_delete in Ha.
    rewrite lookup_delete. case_decide; [done|]. by apply Hi.
  - by apply replies_ok.
Qed.

Lemma detectLost_winv owner ks : forall s es ws s' es', winv owner s es ws ->
  detectLost ks s = Ret (s', es') -> winv owner s' (es ++ es') ws.
Proof.
  induction ks as [|id ks IH]; intros s es ws s' es' Hi; cbn [detectLost].
  { intros [= <- <-]. by rewrite app_nil_r. }
  destruct (latestActiveEpoch s !! id) as [l|]; [|by apply IH].
  intros ([s1 es1] & H1 & H)%bind_Ret_inv. apply bind_Ret_inv in H as ([s2 es2] & H2 & [= <- <-]).
  rewrite app_assoc. eapply IH; [|done]. destruct (_ <=? _).
  - by eapply loseConn_winv.
  - injection H1 as <- <-. by rewrite app_nil_r.
Qed.

Lemma resendAcks_ok owner s es ws ks : winv owner s es ws ->
  sends_ok (addressed owner ws) (concat (resendAcks s <$> ks)).
Proof.
  intros Hi. induction ks as [|id ks IH]; [constructor|]. cbn. apply Forall_app. split; [|done].
  unfold resendAcks. destruct (latestAckBuffer s !! id) as [lb|] eqn:El; [|constructor].
  destruct (isActive s id); [|constructor].
  assert (Hgo : forall l, Forall (belongs ws id) l ->
    sends_ok (addressed owner ws) (SendMsg (connIdHostportMap s !! id) <$> l)).
  { intros l Hl. destruct (connIdHostportMap s !! id) as [a|] eqn:Ea.
    - eapply sends_to_conn; [by eapply wi_addr|done].
    - apply sends_ok_fmap. eapply Forall_impl; [exact Hl|]. intros m [<- Hc]. by split. }
  destruct (Buffer.Len lb =? 0).
  - apply (Hgo [NewAck id 0]). constructor; [apply belongs_ack|constructor].
  - apply Hgo. by eapply wi_acks.
Qed.

Lemma resendUnacked_ok owner s es ws ks : winv owner s es ws ->
  sends_ok (addressed owner ws) (concat (resendUnacked s <$> ks)).
Proof.
  intros Hi. induction ks as [|id ks IH]; [constructor|]. cbn. apply Forall_app. split; [|done].
  unfold resendUnacked. destruct (unAckedMsgBuffer s !! id) as [ub|] eqn:El; [|constructor].
  pose proof (wi_unacked _ _ _ _ Hi id ub El) as Hub. apply sends_ok_fmap.
  destruct (connIdHostportMap s !! id) as [a|] eqn:Ea.
  - eapply Forall_impl; [exact Hub|]. intros m. eapply belongs_addressed. by eapply wi_addr.
  - eapply Forall_impl; [exact Hub|]. intros m [<- Hc]. by split.
Qed.

(** What [winv] does not look at may change. *)
Lemma winv_same owner s s' es es' ws :
  winv owner s es ws -> connId s' = connId s -> hostportConnIdMap s' = hostportConnIdMap s ->
  connIdHostportMap s' = connIdHostportMap s -> unAckedMsgBuffer s' = unAckedMsgBuffer s ->
  writeBuffer s' = writeBuffer s -> latestAckBuffer s' = latestAckBuffer s ->
  seqNum s' = seqNum s -> (closing s' = false -> closing s = false) ->
  activeConn s' = activeConn s ->
  sends_ok (addressed owner ws) es' -> winv owner s' (es ++ es') ws.
Proof.
  intros Hi E1 E2 E3 E4 E5 E6 E7 E8 E9 He.
  eapply winv_shrink; [exact Hi|..]; rewrite ?E1, ?E2, ?E3, ?E4, ?E5, ?E6, ?E7; try done.
  intros id Hc. unfold isActive. rewrite E9. apply Hi. auto.
Qed.

Lemma handleEpoch_winv range owner s es ws s' es' : winv owner s es ws ->
  handleEpoch range s = Ret (s', es') -> winv owner s' (es ++ es') ws.
Proof.
  intros Hi. unfold handleEpoch. intros ([s1 es1] & Hd & H)%bind_Ret_inv.
  apply (detectLost_winv owner _ _ es ws) in Hd.
  2: { rewrite <- (app_nil_r es). eapply winv_same; try done. constructor. }
  apply bind_Ret_inv in H as (n & _ & H).
  pose proof (resendAcks_ok owner s1 _ ws (range 4%nat (keys (latestAckBuffer s1))) Hd) as H2.
  pose proof (resendUnacked_ok owner s1 _ ws (range 5%nat (keys (unAckedMsgBuffer s1))) Hd) as H3.
  assert (H2' : sends_ok (addressed owner ws) (if negb (closing s1) then
    concat (resendAcks s1 <$> range 4%nat (keys (latestAckBuffer s1))) else [])).
  { destruct (negb (closing s1)); [exact H2|constructor]. }
  destruct (_ && _).
  - apply bind_Ret_inv in H as (s2 & Hsh & [= <- <-]). rewrite !app_assoc.
    rewrite <- !app_assoc, app_assoc. apply shutDown_frame in Hsh as ->.
    eapply winv_same; [exact Hd|..]; try done.
    apply Forall_app. split; [done|]. apply Forall_app. split; [done|].
    apply Forall_fmap, Forall_forall. intros r _. cbn. by destruct (connLostInClosing _).
  - injection H as <- <-. rewrite app_assoc. eapply winv_same; [exact Hd|..]; try done.
    apply Forall_app. split; done.
Qed.

Lemma handleCloseConn_winv owner req s es ws s' es' : winv owner s es ws ->
  handleCloseConn req s = Ret (s', es') -> winv owner s' (es ++ es') ws.
Proof.
  intros Hi. unfold handleCloseConn. intros (id & _ & H)%bind_Ret_inv.
  destruct (isActive s id); [|injection H as <- <-; eapply winv_same; try done; sends].
  apply bind_Ret_inv in H as ([s1 es1] & H1 & H).
  assert (Hs1 : (s1 = s \/ exists rest, s1 = s <| deferedRead := rest |>) /\ replies es1).
  { destruct (deferedRead s); [injection H1 as <- <-; split; [by left|constructor]|].
    apply bind_Ret_inv in H1 as (q & _ & [= <- <-]). split; [by eauto|]. unfold replies; sends. }
  destruct Hs1 as [Hs1 Hr].
  assert (Hi1 : winv owner s1 (es ++ es1) ws).
  { destruct Hs1 as [->|(rest & ->)]; eapply winv_same; try done; by apply replies_ok. }
  apply bind_Ret_inv in H as (ub & _ & H). apply bind_Ret_inv in H as (pend & _ & H).
  apply bind_Ret_inv in H as (s2 & H2 & [= <- <-]).
  assert (Hi2 : winv owner s2 (es ++ es1) ws /\ closing s2 = closing s1 /\ activeConn s2 = activeConn s1
    /\ seqNum s2 = seqNum s1).
  { destruct (negb pend); [|injection H2 as <-; done].
    apply bind_Ret_inv in H2 as (a & _ & [= <-]). split; [|done].
    eapply winv_forget; [exact Hi1|..]; shrink. apply Hi1. }
  destruct Hi2 as (Hi2 & E1 & E2 & E3). rewrite app_assoc.
  eapply winv_shrink; [exact Hi2|..]; shrink; [|sends].
  intros i Hc Ha. change (closing s2 = false) in Hc. unfold isActive, map_get in Ha. cbn in Ha.
  rewrite lookup_delete in Ha. rewrite lookup_delete. case_decide; [done|]. by apply Hi2.
Qed.

Lemma unblockReads_replies s rs : forall es, unblockReads rs s = Ret es -> replies es.
Proof.
  induction rs as [|r rs IH]; intros es; cbn [unblockReads]; [intros [= <-]; constructor|].
  intros (q & _ & H)%bind_Ret_inv. apply bind_Ret_inv in H as (es1 & H1 & [= <-]).
  constructor; [done|]. by apply IH.
Qed.

Lemma handleClose_winv range owner req s es ws s' es' : winv owner s es ws ->
  handleClose range req s = Ret (s', es') -> winv owner s' (es ++ es') ws.
Proof.
  intros Hi. unfold handleClose. intros (es1 & H1%unblockReads_replies & H)%bind_Ret_inv.
  apply bind_Ret_inv in H as (pend & _ & H). destruct (negb pend).
  - apply bind_Ret_inv in H as (s1 & Hsh%shutDown_frame & [= <- <-]). subst s1.
    eapply winv_same; [exact Hi|..]; try done. apply Forall_app. split; [by apply replies_ok|sends].
  - injection H as <- <-. eapply winv_same; [exact Hi|..]; try done; [|by apply replies_ok].
    unfold closing. cbn. rewrite length_app. cbn. destruct (length (deferedClose s)); done.
Qed.

Lemma server_wrote_other req es : op req <> dowrite -> server_wrote req es = [].
Proof. destruct req as [[] v ch]; done. Qed.

Lemma eventHandler_winv range owner req s es ws s' es' : winv owner s es ws ->
  eventHandler range req s = Ret (s', es') ->
  exists owner', owner ⊆ owner' /\ winv owner' s' (es ++ es') (ws ++ server_wrote req es').
Proof.
  intros Hi. unfold eventHandler. destruct (op req) eqn:Hop;
    try (rewrite server_wrote_other by congruence; rewrite (app_nil_r ws)).
  - intros Hr%handleRead_frame. exists owner. split; [done|]. by eapply reader_winv.
  - intros H. exists owner. split; [done|]. by eapply handleWrite_winv.
  - intros H. exists owner. split; [done|]. by eapply handleClose_winv.
  - intros H. exists owner. split; [done|]. by eapply handleCloseConn_winv.
  - intros [= <- <-]. exists owner. by rewrite app_nil_r.
  - intros [= <- <-]. exists owner. by rewrite app_nil_r.
  - intros H. exists owner. split; [done|]. by eapply handleEpoch_winv.
  - unfold handleReceivedMsg. intros (pk & _ & H)%bind_Ret_inv.
    destruct (_ =? MsgConnect); [by eapply recvConnect_winv|].
    destruct (_ =? MsgAck); [exists owner; split; [done|]; by eapply recvAck_winv|].
    destruct (_ =? MsgData); [exists owner; split; [done|]; by eapply recvData_winv|].
    injection H as <- <-. exists owner. by rewrite app_nil_r.
Qed.

End ServerSide.

(** ** The system *)

Module System.
Import (hints) Client Server.

Record clientSide := mkClientSide {
  cl : Client.client; cins : list request; ceff : list effect; cwrites : list (list byte) }.

Record system := mkSystem {
  clients : gmap string clientSide;
  srv : Server.server; sins : list request; seff : list effect;
  swrites : list (Z * list byte) }.

Definition newClient (p : Params) : clientSide := mkClientSide (Client.NewClient p) [] [] [].
Definition initial (p : Params) : system := mkSystem ∅ (Server.NewServer p) [] [] [].

(** [m'] is what arrives of [m]: its datagram fits the receive buffer and is
    decoded.  The numbers of [m] are within the range of an int. *)
Definition delivered (m m' : Message) : Prop :=
  Codec.encodable m /\ exists np,
    (length (Codec.Marshal np m) <= Network.handlerBufferSize)%nat /\
    Codec.Unmarshal (Codec.Marshal np m) = Some m'.

Lemma delivered_same m m' : delivered m m' -> m' = m.
Proof. intros (Hm & np & _ & H). rewrite Codec.Unmarshal_Marshal in H by done. by injection H. Qed.

(** A packet handed to the client at [a] was sent to it by the server, one
    handed to the server was sent by the client at its address. *)
Definition from_server (seff : list effect) (a : UDPAddr) (req : request) : Prop :=
  op req = receivemsg -> exists pk m, val req = IPacket pk /\
    SendMsg (Some a) m ∈ seff /\ delivered m (msg pk).

Definition from_client (cs : gmap string clientSide) (req : request) : Prop :=
  op req = receivemsg -> exists pk m c, val req = IPacket pk /\ cs !! raddr pk = Some c /\
    SendMsg None m ∈ ceff c /\ delivered m (msg pk).

Inductive reachable (p : Params) : system -> Prop :=
  | reach_init : reachable p (initial p)
  | reach_new s a :
      reachable p s -> clients s !! a = None ->
      reachable p (mkSystem (<[a := newClient p]> (clients s)) (srv s) (sins s) (seff s) (swrites s))
  | reach_client s a c inp c' es :
      reachable p s -> clients s !! a = Some c ->
      (forall req, inp = Some req ->
         Client.choose (cl c) = Ret Client.Receive /\ Client.admissible (cins c) req /\
         from_server (seff s) a req) ->
      Client.eventHandler inp (cl c) = Ret (c', es) ->
      reachable p (mkSystem
        (<[a := mkClientSide c' (cins c ++ option_list inp) (ceff c ++ es)
                  (cwrites c ++ client_wrote inp es)]> (clients s))
        (srv s) (sins s) (seff s) (swrites s))
  | reach_established s a c :
      reachable p s -> clients s !! a = Some c -> Client.connEstablishedSignal (cl c) = 1%nat ->
      reachable p (mkSystem
        (<[a := mkClientSide ((cl c) <| Client.connEstablishedSignal := 0%nat |>)
                  (cins c) (ceff c) (cwrites c)]> (clients s))
        (srv s) (sins s) (seff s) (swrites s))
  | reach_server s range req s' es :
      reachable p s -> Server.is_range range -> Server.serverRunning (srv s) = true ->
      Server.well_typed_req req = true -> from_client (clients s) req ->
      Server.eventHandler range req (srv s) = Ret (s', es) ->
      reachable p (mkSystem (clients s) s' (sins s ++ [req]) (seff s ++ es)
        (swrites s ++ server_wrote req es)).

(** ** Invariant *)

(** What holds of a client with respect to the effects of the server. *)
Record client_ok (p : Params) (seff : list effect) (a : UDPAddr) (c : clientSide) : Prop := {
  ok_run : Client.run p (cl c) (cins c) (ceff c);
  ok_sends : ClientSide.cinv (cl c) (ceff c) (cwrites c);
  ok_packets : forall req pk, req ∈ cins c -> op req = receivemsg -> val req = IPacket pk ->
    SendMsg (Some a) (msg pk) ∈ seff }.

Record sys_ok (p : Params) (s : system) : Prop := {
  sys_clients : forall a c, clients s !! a = Some c -> client_ok p (seff s) a c;
  sys_run : Server.run p (srv s) (sins s) (seff s);
  sys_sends : exists owner, ServerSide.winv owner (srv s) (seff s) (swrites s);
  sys_packets : forall req pk, req ∈ sins s -> op req = receivemsg -> val req = IPacket pk ->
    exists c, clients s !! raddr pk = Some c /\ SendMsg None (msg pk) ∈ ceff c }.

Lemma client_ok_mono p seff es a c : client_ok p seff a c -> client_ok p (seff ++ es) a c.
Proof.
  intros [Hr Hs Hp]. split; auto. intros req pk ???. apply elem_of_app. left. eauto.
Qed.

(** A client is replaced by one that has sent at least as much. *)
Lemma sys_ok_client p s a c' :
  sys_ok p s -> client_ok p (seff s) a c' ->
  (forall c, clients s !! a = Some c -> forall e, e ∈ ceff c -> e ∈ ceff c') ->
  sys_ok p (mkSystem (<[a := c']> (clients s)) (srv s) (sins s) (seff s) (swrites s)).
Proof.
  intros [Hc Hr Hs Hp] Hok Hmore. split; cbn; auto.
  - intros b c. rewrite lookup_insert. case_decide as Hb; [|apply Hc]. intros [= <-]. by subst.
  - intros req pk H1 H2 H3. destruct (Hp req pk H1 H2 H3) as (c & Hl & Hin).
    rewrite lookup_insert. case_decide as Hb; [|by eauto]. subst a. eauto.
Qed.

Lemma reachable_ok p s : reachable p s -> sys_ok p s.
Proof.
  induction 1 as [|s a Hr IH Ha|s a c inp c' es Hr IH Ha Hinp Hev|s a c Hr IH Ha Hsig
    |s range req s' es Hr IH Hrange Hrun Hty Hfrom Hev].
  - split; cbn; try done.
    + constructor.
    + exists ∅. apply ServerSide.winv_init.
    + intros req pk Hin. by apply not_elem_of_nil in Hin.
  - apply sys_ok_client; [done| |by intros c; rewrite Ha].
    split; cbn; [constructor|apply ClientSide.cinv_init|].
    intros req pk Hin. by apply not_elem_of_nil in Hin.
  - pose proof (sys_clients _ _ IH a c Ha) as [Hcr Hcs Hcp].
    apply sys_ok_client; [done| |].
    + split; cbn.
      * eapply Client.run_turn; [done| |done]. intros req Hreq.
        destruct (Hinp req Hreq) as (? & ? & _). done.
      * eapply ClientSide.eventHandler_cinv; [by eapply Client.run_inv|done| |done].
        intros req Hreq. by destruct (Hinp req Hreq).
      * intros req pk [Hin|Hin]%elem_of_app Hop Hv; [by eapply Hcp|].
        destruct inp as [req'|]; [|by apply not_elem_of_nil in Hin].
        apply list_elem_of_singleton in Hin as ->.
        destruct (Hinp req' eq_refl) as (_ & _ & Hfs). destruct (Hfs Hop) as (pk' & m & Hv' & Hm & Hd).
        assert (pk' = pk) as -> by congruence. by apply delivered_same in Hd as ->.
    + intros c0. rewrite Ha. intros [= <-] e He. cbn. apply elem_of_app. by left.
  - pose proof (sys_clients _ _ IH a c Ha) as [Hcr Hcs Hcp].
    apply sys_ok_client; [done| |].
    + split; cbn; [|by destruct Hcs|done]. by apply (Client.run_established p (cl c)).
    + intros c0. rewrite Ha. by intros [= <-] e He.
  - destruct IH as [Hc Hsr [owner Hs] Hp].
    destruct (ServerSide.eventHandler_winv _ _ _ _ _ _ _ _ Hs Hev) as (owner' & _ & Hs').
    split; cbn.
    + intros a c Ha. by apply client_ok_mono, Hc.
    + by eapply Server.run_turn.
    + by exists owner'.
    + intros r pk [Hin|Hin]%elem_of_app Hop Hv; [by eapply Hp|].
      apply list_elem_of_singleton in Hin as ->.
      destruct (Hfrom Hop) as (pk' & m & c & Hv' & Hcl & Hm & Hd).
      assert (pk' = pk) as -> by congruence. apply delivered_same in Hd. rewrite Hd. eauto.
Qed.

(** A list whose elements are found at the same places of another one. *)
Lemma prefix_by_lookup {A} (l k : list A) :
  (forall i x, l !! i = Some x -> k !! i = Some x) -> l `prefix_of` k.
Proof.
  revert k. induction l as [|x l IH]; intros k H; [apply prefix_nil|].
  destruct k as [|y k]; [by specialize (H 0%nat x eq_refl)|].
  pose proof (H 0%nat x eq_refl) as [= ->]. apply prefix_cons, IH.
  intros i z Hz. apply (H (S i) z Hz).
Qed.

(** The address a connection was granted to is unique. *)
Lemma granted_owner owner s es ws id a :
  ServerSide.winv owner s es ws -> Server.granted es id a -> owner !! id = Some a.
Proof.
  intros Hi Hg. apply (sends_ok_elem _ _ _ _ (ServerSide.wi_sent _ _ _ _ Hi)) in Hg as [Ho _].
  by apply (Ho a).
Qed.

Lemma server_reads_prefix p s a c id :
  reachable p s -> clients s !! a = Some c -> Server.granted (seff s) id a ->
  Server.reads_of id (seff s) `prefix_of` cwrites c.
Proof.
  intros [Hc Hsr [owner Hs] Hp]%reachable_ok Ha Hg. apply prefix_by_lookup. intros i b Hb.
  destruct (Server.ti_read _ _ _ _ _ _ (Server.server_run_tinv _ _ _ _ Hsr) id i b Hb)
    as (m & (a' & Hg' & req & Hin & Hop & Hv & Ht) & Hseq & Hpay).
  assert (a' = a) as ->.
  { apply (granted_owner _ _ _ _ _ _ Hs) in Hg, Hg'. congruence. }
  destruct (Hp req _ Hin Hop Hv) as (c0 & Hc0 & Hm). cbn in Hc0, Hm.
  assert (c0 = c) as -> by congruence.
  pose proof (sends_ok_elem _ _ _ _ (ClientSide.ci_sent _ _ _ (ok_sends _ _ _ _ (Hc a c Ha))) Hm) as Hcar.
  destruct (Hcar Ht) as [_ Hl]. rewrite Hseq, Hpay in Hl. rewrite <- Hl. f_equal. lia.
Qed.

Lemma client_reads_prefix p s a c id :
  reachable p s -> clients s !! a = Some c ->
  (forall id', Server.granted (seff s) id' a -> id' = id) ->
  read_payloads (ceff c) `prefix_of` writes_of id (swrites s).
Proof.
  intros [Hc Hsr [owner Hs] Hp]%reachable_ok Ha Huniq. apply prefix_by_lookup. intros i b Hb.
  destruct (Hc a c Ha) as [Hcr Hcs Hcp].
  destruct (Client.ti_read _ _ _ (Client.run_tinv _ _ _ _ Hcr) i b Hb)
    as (m & (req & pk & Hin & Hop & Hv & Hmsg & Ht) & Hseq & Hpay). subst m.
  pose proof (Hcp req pk Hin Hop Hv) as Hm.
  destruct (sends_ok_elem _ _ _ _ (ServerSide.wi_sent _ _ _ _ Hs) Hm) as [Ho Hcar].
  rewrite (Huniq _ (ServerSide.wi_granted _ _ _ _ Hs _ _ (Ho a eq_refl))) in Hcar. destruct (Hcar Ht) as [_ Hl].
  rewrite Hseq, Hpay in Hl. rewrite <- Hl. f_equal. lia.
Qed.

(** ** Executing a schedule *)

Inductive event :=
  | Start (a : UDPAddr)                      (* a new client *)
  | Turn (a : UDPAddr) (inp : option request) (* user, timer or deferred request of a client *)
  | ToClient (a : UDPAddr) (i : nat)         (* effect [i] of the server arrives at [a] *)
  | ToServer (a : UDPAddr) (i : nat)         (* effect [i] of the client at [a] arrives *)
  | AtServer (req : request).                (* user or timer request of the server *)

Definition transmit (m : Message) : option Message :=
  if decide (Codec.encodable m) then
    if Nat.leb (length (Codec.Marshal true m)) Network.handlerBufferSize
    then Codec.Unmarshal (Codec.Marshal true m) else None
  else None.

Lemma transmit_delivered m m' : transmit m = Some m' -> delivered m m'.
Proof.
  unfold transmit. case_decide as Hm; [|done]. destruct (Nat.leb _ _) eqn:El; [|done].
  intros Hu. split; [done|]. exists true. split; [by apply Nat.leb_le|done].
Qed.

Definition packet_request (m : Message) (from : UDPAddr) : request :=
  mkRequest receivemsg (IPacket (mkPacket m from)) 0.

Definition not_packet (inp : option request) : bool :=
  match inp with Some (mkRequest receivemsg _ _) => false | _ => true end.

Definition client_turn (a : UDPAddr) (inp : option request) (s : system) : option system :=
  c ← clients s !! a;
  if match inp with
     | None => true
     | Some req => match Client.choose (cl c) with
                   | Ret Client.Receive => Client.admissibleb (cins c) req
                   | _ => false end
     end then
    match Client.eventHandler inp (cl c) with
    | Ret (c', es) => Some (mkSystem
        (<[a := mkClientSide c' (cins c ++ option_list inp) (ceff c ++ es)
                  (cwrites c ++ client_wrote inp es)]> (clients s))
        (srv s) (sins s) (seff s) (swrites s))
    | _ => None
    end
  else None.

Definition server_turn (req : request) (s : system) : option system :=
  if Server.serverRunning (srv s) && Server.well_typed_req req then
    match Server.eventHandler Server.in_order req (srv s) with
    | Ret (s', es) => Some (mkSystem (clients s) s' (sins s ++ [req]) (seff s ++ es)
        (swrites s ++ server_wrote req es))
    | _ => None
    end
  else None.

Definition exec1 (p : Params) (ev : event) (s : system) : option system :=
  match ev with
  | Start a =>
      match clients s !! a with
      | None => Some (mkSystem (<[a := newClient p]> (clients s)) (srv s) (sins s) (seff s) (swrites s))
      | Some _ => None
      end
  | Turn a inp => if not_packet inp then client_turn a inp s else None
  | ToClient a i =>
      match seff s !! i with
      | Some (SendMsg (Some a') m) =>
          m' ← transmit m;
          if bool_decide (a' = a) then client_turn a (Some (packet_request m' "server:9")) s else None
      | _ => None
      end
  | ToServer a i =>
      c ← clients s !! a;
      match ceff c !! i with
      | Some (SendMsg None m) => m' ← transmit m; server_turn (packet_request m' a) s
      | _ => None
      end
  | AtServer req => if not_packet (Some req) then server_turn req s else None
  end.

Fixpoint exec (p : Params) (evs : list event) (s : system) : option system :=
  match evs with
  | [] => Some s
  | ev :: evs' => s' ← exec1 p ev s; exec p evs' s'
  end.

Lemma client_turn_reachable p a inp s s' : reachable p s ->
  (forall req, inp = Some req -> from_server (seff s) a req) ->
  client_turn a inp s = Some s' -> reachable p s'.
Proof.
  intros Hr Hfrom. unfold client_turn. intros (c & Ha & H)%bind_Some.
  case_match eqn:Hok; [|done].
  destruct (Client.eventHandler inp (cl c)) as [[c' es]| |] eqn:Ev; simplify_eq.
  eapply reach_client; [done|done| |done]. intros req ->.
  destruct (Client.choose (cl c)) as [[| |]| |]; try done.
  split; [done|]. split; [by apply Client.admissibleb_admissible|by apply Hfrom].
Qed.

Lemma server_turn_reachable p req s s' : reachable p s -> from_client (clients s) req ->
  server_turn req s = Some s' -> reachable p s'.
Proof.
  intros Hr Hfrom. unfold server_turn. destruct (_ && _) eqn:Hok; [|done]. breflect.
  destruct (Server.eventHandler _ req (srv s)) as [[s1 es]| |] eqn:Ev; intros; simplify_eq.
  eapply (reach_server p s Server.in_order); [done|intros i ks; reflexivity|done..].
Qed.

Lemma exec_reachable p evs : forall s s',
  reachable p s -> exec p evs s = Some s' -> reachable p s'.
Proof.
  induction evs as [|ev evs IH]; intros s s' Hr; cbn [exec]; [by intros [= <-]|].
  intros (s1 & H1 & H2)%bind_Some. apply (IH s1); [|done]. clear H2 IH.
  destruct ev as [a|a inp|a i|a i|req]; cbn [exec1] in H1.
  - destruct (clients s !! a) eqn:Ea; simplify_eq. by apply reach_new.
  - destruct (not_packet inp) eqn:En; [|done]. eapply client_turn_reachable; [done| |done].
    intros req -> Hop. destruct req as [o v ch]. cbn in Hop. by subst o.
  - destruct (seff s !! i) as [[[a'|] m|]|] eqn:Ei; try done.
    apply bind_Some in H1 as (m' & Hm%transmit_delivered & H1).
    case_bool_decide as Ha; [|done]. subst a'. eapply client_turn_reachable; [done| |done].
    intros req [= <-] _. exists (mkPacket m' "server:9"), m. split_and!; [done| |done].
    by eapply list_elem_of_lookup_2.
  - apply bind_Some in H1 as (c & Hc & H1). destruct (ceff c !! i) as [[[a'|] m|]|] eqn:Ei; try done.
    apply bind_Some in H1 as (m' & Hm%transmit_delivered & H1).
    eapply server_turn_reachable; [done| |done].
    intros _. exists (mkPacket m' a), m, c. split_and!; [done|done| |done].
    by eapply list_elem_of_lookup_2.
  - destruct (not_packet (Some req)) eqn:En; [|done].
    eapply server_turn_reachable; [done| |done]. intros Hop. destruct req as [o v ch].
    cbn in Hop. by subst o.
Qed.

Definition user (o : opcode) (v : iface) (ch : Z) : option request := Some (mkRequest o v ch).
Definition tick : request := mkRequest epochtimer INil 0.
Definition swrite (id : Z) (b : byte) : event :=
  AtServer (mkRequest dowrite (IBundle (mkBundle id [b])) 9).

(** Connect, then one message in each direction. *)
Definition session : list event :=
  [ Start "a:1"; Turn "a:1" (user doconnect INil 1); ToServer "a:1" 0; ToClient "a:1" 0;
    Turn "a:1" (user dowrite (IBytes [x78]) 2); ToServer "a:1" 2; ToServer "a:1" 2;
    AtServer (mkRequest doread INil 3); swrite 1 x77;
    ToClient "a:1" 4; Turn "a:1" (user doread INil 4) ].

Definition run_of (evs : list event) : system :=
  default (initial NewParams) (exec NewParams evs (initial NewParams)).
Definition client_at (a : UDPAddr) (s : system) : clientSide :=
  default (newClient NewParams) (clients s !! a).

Definition a1 : UDPAddr := "a:1".
Definition session_end : system := run_of session.
Definition session_client : clientSide := client_at a1 session_end.

Lemma session_reachable : reachable NewParams session_end.
Proof.
  apply (exec_reachable NewParams session (initial NewParams)); [constructor|].
  vm_compute. reflexivity.
Qed.

(** The connect message of the client is duplicated.  The server loses the
    silent client, whose copy of the connect message then opens connection 2 to
    the same address; an acknowledgement that the client sends for connection 1
    moves connection 2 on. *)
Definition stale_connect : list event :=
  [ Start "a:1"; Turn "a:1" (user doconnect INil 1); ToServer "a:1" 0; ToClient "a:1" 0;
    swrite 1 x77; ToClient "a:1" 1; Turn "a:1" (user doread INil 4);
    AtServer tick; AtServer tick; AtServer tick; AtServer tick; AtServer tick;
    ToServer "a:1" 0; swrite 2 x78; swrite 2 x79;
    Turn "a:1" (Some tick); ToServer "a:1" 4; ToClient "a:1" 15;
    Turn "a:1" (user doread INil 5) ].
Definition stale_end : system := run_of stale_connect.

Lemma stale_connect_reachable : reachable NewParams stale_end.
Proof.
  apply (exec_reachable NewParams stale_connect (initial NewParams)); [constructor|].
  vm_compute. reflexivity.
Qed.

(** ** Properties *)

(** A client may read a mix of two connections.  The client does not look at
    the connection number of a data message: after the server lost it and a
    duplicate of its connect message opened a second connection to the same
    address, the client, which still reports connection 1, reads the first
    message of connection 1 followed by the second one of connection 2. *)
Lemma stale_connect_mixes_connections : exists s c,
  reachable NewParams s /\ clients s !! a1 = Some c /\ Client.connId (cl c) = 1 /\
  Server.granted (seff s) 1 a1 /\ Server.granted (seff s) 2 a1 /\
  writes_of 1 (swrites s) = [[x77]] /\ writes_of 2 (swrites s) = [[x78]; [x79]] /\
  read_payloads (ceff c) = [[x77]; [x79]].
Proof.
  exists stale_end, (client_at a1 stale_end).
  split; [exact stale_connect_reachable|]. split; [vm_compute; reflexivity|].
  split; [vm_compute; reflexivity|].
  split; [apply list_elem_of_lookup_2 with 0%nat; vm_compute; reflexivity|].
  split; [apply list_elem_of_lookup_2 with 11%nat; vm_compute; reflexivity|].
  split_and!; vm_compute; reflexivity.
Qed.

(** C5: what one end reads is a prefix of what the other wrote.  In every state
    that any number of clients and a server reach over a network that loses,
    delays, duplicates and reorders datagrams: the payloads the server's
    successful reads returned for a connection granted to a client are, in
    order and each once, a prefix of the payloads of the client's accepted
    writes; and the payloads the client read are a prefix of those the server
    accepted for that connection, provided the server has granted the client no
    other one.  The proviso is needed: a client does not look at the connection
    number of a data message, and after a duplicate of its connect message
    opened a second connection it can read the first message of connection 1
    followed by the second one of connection 2. *)
Theorem streams_are_prefixes :
  (forall p s a c id,
     reachable p s -> clients s !! a = Some c -> Server.granted (seff s) id a ->
     Server.reads_of id (seff s) `prefix_of` cwrites c /\
     ((forall id', Server.granted (seff s) id' a -> id' = id) ->
      read_payloads (ceff c) `prefix_of` writes_of id (swrites s))) /\
  exists s c,
    reachable NewParams s /\ clients s !! a1 = Some c /\ Client.connId (cl c) = 1 /\
    Server.granted (seff s) 1 a1 /\ Server.granted (seff s) 2 a1 /\
    writes_of 1 (swrites s) = [[x77]] /\ writes_of 2 (swrites s) = [[x78]; [x79]] /\
    read_payloads (ceff c) = [[x77]; [x79]].
Proof.
  split; [|exact stale_connect_mixes_connections].
  intros p s a c id Hr Hc Hg. split; [by eapply server_reads_prefix|].
  intros Hu. by eapply client_reads_prefix.
Qed.

Lemma session_one_grant id : Server.granted (seff session_end) id a1 -> id = 1.
Proof.
  unfold Server.granted. intros Hin.
  assert (Hall : Forall (fun e => match e with
    | SendMsg _ m => SeqNum m = 0 -> ConnID m = 1 | Reply _ _ => True end) (seff session_end)).
  { vm_compute. repeat constructor. }
  rewrite Forall_forall in Hall. specialize (Hall _ Hin). by apply Hall.
Qed.

Lemma streams_are_prefixes_witness :
  [[x78]] `prefix_of` cwrites session_client /\
  [[x77]] `prefix_of` writes_of 1 (swrites session_end).
Proof.
  destruct (proj1 streams_are_prefixes NewParams session_end a1 session_client 1 session_reachable)
    as [H1 H2].
  - vm_compute. reflexivity.
  - apply list_elem_of_lookup_2 with 0%nat. vm_compute. reflexivity.
  - split; [exact H1|]. exact (H2 session_one_grant).
Defined.

(** C37: the sliding windows are respected.  In every state a client can reach
    its unacknowledged messages lie in a window of [WindowSize] sequence numbers
    (of one when the size is not positive), and the unacknowledged followed by
    the waiting messages are strictly ordered, none above the last number
    assigned; while nothing is closed the server keeps the same for each of its
    connections, and the address tables of live connections are inverse to each
    other. *)
Theorem windows_respected p :
  (forall c ins es, Client.run p c ins es ->
     (forall a b, a ∈ Client.unAckedMsgBuffer c -> b ∈ Client.unAckedMsgBuffer c ->
        SeqNum b - SeqNum a < Z.max 1 (WindowSize (Client.params c))) /\
     increasing (Buffer.seqs (Client.unAckedMsgBuffer c ++ Client.writeBuffer c)) /\
     (forall m, m ∈ Client.unAckedMsgBuffer c ++ Client.writeBuffer c ->
        SeqNum m <= Client.seqNum c)) /\
  (forall s ins es, Server.run p s ins es -> Server.never_closed ins ->
     (forall id ub, Server.unAckedMsgBuffer s !! id = Some ub ->
        (forall a b, a ∈ ub -> b ∈ ub ->
           SeqNum b - SeqNum a < Z.max 1 (WindowSize (Server.params s))) /\
        exists wb addr, Server.writeBuffer s !! id = Some wb /\
          increasing (Buffer.seqs (ub ++ wb)) /\
          Server.connIdHostportMap s !! id = Some addr /\
          Server.hostportConnIdMap s !! addr = Some id) /\
     (forall addr id, Server.hostportConnIdMap s !! addr = Some id ->
        Server.connIdHostportMap s !! id = Some addr)).
Proof.
  split.
  - exact (Client.client_window_respected p).
  - exact (Server.server_window_respected p).
Qed.

Lemma windows_respected_witness :
  increasing (Buffer.seqs (Client.unAckedMsgBuffer Client.demo_end.1.1
                                  ++ Client.writeBuffer Client.demo_end.1.1)) /\
  Server.connIdHostportMap Server.demo_end.1.1 !! 1 = Some a1.
Proof.
  destruct (windows_respected NewParams) as [Hc Hs]. split.
  - apply (Hc _ _ _ Client.demo_run).
  - apply (Hs _ _ _ Server.server_demo_run Server.demo_never_closed). vm_compute. reflexivity.
Defined.

End System.
