(* ===== verification/PaxosRpc.v ===== *)
(** * PaxosRpc: the messages between Paxos peers ([p3/.../rpc/paxosrpc/proto.go])

    The arguments and replies of the RPCs.  An [interface{}] that carries a
    slot's value holds nil or a [PaxosValue], the one concrete type the code
    registers with gob.  A [time.Time] is its instant in nanoseconds. *)
From S2P Require Import Prelude.
Open Scope Z_scope.

Abbreviation Time := Z (only parsing).

(** [Status] is a Go [int]; 0 is the zero value of a reply nobody filled. *)
Definition Status := Z.
Definition OK : Status := 1.
Definition Reject : Status := 2.

Definition OpType := Z.
Definition MyReservation : OpType := 1.
Definition CheckTickets : OpType := 2.
Definition ReserveTicket : OpType := 3.
Definition AddFlight : OpType := 4.
Definition CancelFlight : OpType := 5.
Definition EditFlight : OpType := 6.
Definition NoOp : OpType := 7.

Record PaxosValue := mkPaxosValue {
  Type_ : OpType;
  Timestamp : Time;
  UserName : string;
  FlightId : string;
  StartDate : Time;
  EndDate : Time;
  TicketNum : Z }.

#[export] Instance PaxosValue_eq_dec : EqDecision PaxosValue.
Proof. solve_decision. Defined.

(** [PaxosValue{Type: paxosrpc.NoOp}]. *)
Definition NoOpValue : PaxosValue := mkPaxosValue NoOp 0 "" "" 0 0 0.

(** The [interface{}] of a slot. *)
Abbreviation value := (option PaxosValue).

Record SlotValue := mkSlotValue { Value : value; IsDecided : bool }.

Record PrepareArgs := mkPrepareArgs {
  pa_SlotNum : Z; pa_SeqNum : Z; pa_PeerNum : Z; pa_MaxDone : Z }.
Record PrepareReply := mkPrepareReply {
  pr_Status : Status; pr_SeqNumAccepted : Z; pr_ValueAccepted : value; pr_SeqNumHighest : Z }.
Record AcceptArgs := mkAcceptArgs { aa_SlotNum : Z; aa_SeqNum : Z; aa_Value : value }.
Record AcceptReply := mkAcceptReply { ar_Status : Status; ar_SeqNumHighest : Z }.
Record DecideArgs := mkDecideArgs { da_SlotNum : Z; da_Value : value }.
Record DecideReply := mkDecideReply { dr_Status : Status }.
Record PutArgs := mkPutArgs {
  pu_SlotNum : Z; pu_Value : value; pu_SeqNumAccepted : Z; pu_SeqNumHighest : Z }.
Record PutReply := mkPutReply { pur_Status : Status }.
Record GetPeersReply := mkGetPeersReply { gp_Status : Status; gp_Peers : list string }.
Record UpdatePeersArgs := mkUpdatePeersArgs { up_Peers : list string; up_Me : Z }.
Record UpdatePeersReply := mkUpdatePeersReply { upr_Status : Status }.
Record SetLockArgs := mkSetLockArgs { sl_SetLock : bool }.
Record SetLockReply := mkSetLockReply { slr_Status : Status }.
Record SyncPaxosValueArgs := mkSyncPaxosValueArgs { sy_SlotNum : Z }.
Record SyncPaxosValueReply := mkSyncPaxosValueReply {
  syr_Status : Status; syr_SyncedValue : value; syr_SeqNumAccepted : Z; syr_SeqNumHighest : Z }.
Record CheckStatusReply := mkCheckStatusReply { cs_Peers : list string; cs_Status : Status }.
Record MaxDecidedSlotReply := mkMaxDecidedSlotReply { md_SlotNum : Z; md_Status : Status }.
Record MinUndecidedSlotReply := mkMinUndecidedSlotReply { mu_SlotNum : Z; mu_Status : Status }.
Record RemoteKillReply := mkRemoteKillReply { rk_Status : Status }.
Record CheckSlotReply := mkCheckSlotReply { ck_Status : Status; ck_Slot : list SlotValue }.
