(* ===== verification/Paxos.v ===== *)
(** * Paxos: a Paxos peer ([p3/.../paxos/paxos.go])

    The state of one peer, its RPC handlers, and the pieces of the proposer's
    loop ([startHelper]) that the sequential model at the end of this file and
    the concurrent one of [PaxosSafety] share.  A handler runs under the lock
    of its slot, so it is one function on the peer's state; [PaxosLocks]
    models the locks themselves. *)
From S2P Require Import Prelude PaxosRpc.
From Stdlib Require Import Ascii.
Open Scope Z_scope.

Module Paxos.

Record timeSlotValue := mkSlot {
  slotValue : value; isDecided : bool; seqNumAccepted : Z; seqNumHighest : Z }.

#[export] Instance eta_timeSlotValue : EtaRecord timeSlotValue := fun t =>
  mkSlot (slotValue t) (isDecided t) (seqNumAccepted t) (seqNumHighest t).

(** [deaf], [l] (nil, open or closed), and the tables of [type Paxos]. The
    locks that exist are the keys of [timeSLotLock]. *)
Inductive listener := Listening | Closed.

Record px := mkPx {
  l : option listener;
  deaf : bool;
  peers : list string;
  me : Z;
  timeSlot : gmap Z timeSlotValue;
  timeSLotLock : gset Z;
  isLocked : bool;
  maxDone : gmap Z Z;
  maxDecidedSlot : Z;
  minUndecidedSlot : Z }.

#[export] Instance eta_px : EtaRecord px := fun p =>
  mkPx (l p) (deaf p) (peers p) (me p) (timeSlot p) (timeSLotLock p) (isLocked p)
    (maxDone p) (maxDecidedSlot p) (minUndecidedSlot p).

Definition getMax (a b : Z) : Z := if b <? a then a else b.
Definition getMin (a b : Z) : Z := if a <? b then a else b.

Definition emptySlot : timeSlotValue := mkSlot None false 0 0.

(** The slot, created when it is missing. *)
Definition getTimeSlotValue (slotNum : Z) (p : px) : timeSlotValue * px :=
  match timeSlot p !! slotNum with
  | Some t => (t, p)
  | None => (emptySlot, p <| timeSlot := <[slotNum := emptySlot]> (timeSlot p) |>)
  end.

Definition getTimeSlotLock (slotNum : Z) (p : px) : px :=
  p <| timeSLotLock := {[slotNum]} ∪ timeSLotLock p |>.

(** Writing through the pointer to a slot. *)
Definition setSlot (slotNum : Z) (t : timeSlotValue) (p : px) : px :=
  p <| timeSlot := <[slotNum := t]> (timeSlot p) |>.

Definition Prepare (args : PrepareArgs) (p : px) : px * PrepareReply :=
  let p := getTimeSlotLock (pa_SlotNum args) p in
  let '(timeslot, p) := getTimeSlotValue (pa_SlotNum args) p in
  if seqNumHighest timeslot <? pa_SeqNum args then
    (setSlot (pa_SlotNum args) (timeslot <| seqNumHighest := pa_SeqNum args |>) p,
     mkPrepareReply OK (seqNumAccepted timeslot) (slotValue timeslot) 0)
  else (p, mkPrepareReply Reject 0 None (seqNumHighest timeslot)).

Definition Accept (args : AcceptArgs) (p : px) : px * AcceptReply :=
  let p := getTimeSlotLock (aa_SlotNum args) p in
  let '(timeslot, p) := getTimeSlotValue (aa_SlotNum args) p in
  if seqNumHighest timeslot <=? aa_SeqNum args then
    (setSlot (aa_SlotNum args)
       (timeslot <| seqNumAccepted := aa_SeqNum args |> <| seqNumHighest := aa_SeqNum args |>
                 <| slotValue := aa_Value args |>) p,
     mkAcceptReply OK 0)
  else (p, mkAcceptReply Reject (seqNumHighest timeslot)).

Definition Decide (args : DecideArgs) (p : px) : px * DecideReply :=
  let p := getTimeSlotLock (da_SlotNum args) p in
  let '(timeslot, p) := getTimeSlotValue (da_SlotNum args) p in
  let p := setSlot (da_SlotNum args)
             (timeslot <| slotValue := da_Value args |> <| isDecided := true |>) p in
  (p <| maxDecidedSlot := getMax (maxDecidedSlot p) (da_SlotNum args) |>, mkDecideReply OK).

Definition Put (args : PutArgs) (p : px) : px * PutReply :=
  let p := getTimeSlotLock (pu_SlotNum args) p in
  let '(slotVal, p) := getTimeSlotValue (pu_SlotNum args) p in
  if isDecided slotVal then (p, mkPutReply Reject)
  else
    let p := setSlot (pu_SlotNum args)
               (mkSlot (pu_Value args) true (pu_SeqNumAccepted args) (pu_SeqNumHighest args)) p in
    (p <| maxDecidedSlot := getMax (maxDecidedSlot p) (pu_SlotNum args) |>, mkPutReply OK).

(** [GetPeers] returns before it fills its reply. *)
Definition GetPeers (p : px) : px * GetPeersReply := (p, mkGetPeersReply 0 []).

Definition UpdatePeers (args : UpdatePeersArgs) (p : px) : px * UpdatePeersReply :=
  (p <| peers := up_Peers args |> <| me := up_Me args |>, mkUpdatePeersReply OK).

Definition SetLock (args : SetLockArgs) (p : px) : px * SetLockReply :=
  (p <| isLocked := sl_SetLock args |>, mkSetLockReply OK).

Definition CheckStatus (p : px) : px * CheckStatusReply := (p, mkCheckStatusReply (peers p) OK).

(** What [CheckSlot] reports of slot [i]. *)
Definition slotReport (p : px) (i : Z) : SlotValue :=
  match timeSlot p !! i with
  | Some val => mkSlotValue (slotValue val) (isDecided val)
  | None => mkSlotValue None false
  end.

Definition CheckSlot (p : px) : px * CheckSlotReply :=
  let slots := seqZ 0 (maxDecidedSlot p + 1) in
  (p <| timeSLotLock := list_to_set slots ∪ timeSLotLock p |>,
   mkCheckSlotReply OK (slotReport p <$> slots)).

Definition RemoteKill (p : px) : px * RemoteKillReply :=
  (p <| deaf := true |> <| l := match l p with Some _ => Some Closed | None => None end |>,
   mkRemoteKillReply OK).

Definition MaxDecidedSlot (p : px) : px * MaxDecidedSlotReply :=
  (p, mkMaxDecidedSlotReply (maxDecidedSlot p) OK).

(** The loop of [MinUndecidedSlot]; it returns the first slot from [slotNum]
    on that is not decided. *)
Fixpoint scanUndecided (fuel : nat) (slotNum : Z) (p : px) : option (px * Z) :=
  match fuel with
  | O => None
  | S fuel' =>
      let p := getTimeSlotLock slotNum p in
      let '(slotVal, p) := getTimeSlotValue slotNum p in
      if isDecided slotVal then scanUndecided fuel' (slotNum + 1) p else Some (p, slotNum)
  end.

Definition MinUndecidedSlot (fuel : nat) (p : px) : option (px * MinUndecidedSlotReply) :=
  '(p, slotNum) ← scanUndecided fuel (minUndecidedSlot p) p;
  Some (p <| minUndecidedSlot := slotNum |>, mkMinUndecidedSlotReply slotNum OK).

Definition maintenance : string :=
  "The paxos instances are trying to add a new paxos replica, thus unable to do any paxos operation at this moment".

Definition Status (slotNum : Z) (p : px) : px * (bool * value * option string) :=
  if isLocked p then (p, (false, None, Some maintenance))
  else
    let p := getTimeSlotLock slotNum p in
    let '(timeslot, p) := getTimeSlotValue slotNum p in
    (p, (isDecided timeslot, slotValue timeslot, None)).

Definition Deaf (p : px) : px := (RemoteKill p).1.

Definition count_colons (s : string) : nat :=
  length (filter (fun c => c = ":"%char) (String.list_ascii_of_string s)).

(** [Wake] and [Make] retry [net.Listen] until it succeeds, so when they
    return the listener is open. [strings.Split(s, ":")[1]] panics on a string
    without a colon. *)
Definition Wake (p : px) : outcome px :=
  if deaf p then
    self ← deref (if me p <? 0 then None else peers p !! Z.to_nat (me p));
    if Nat.eqb (count_colons self) 0 then Panic
    else Ret (p <| l := Some Listening |> <| deaf := false |>)
  else Ret p.

(** [Make] with its own listener when [rpcs] is nil ([withServer = false]). *)
Definition Make (ps : list string) (me : Z) (withServer : bool) : outcome (px + string) :=
  if forallb (fun peer => Nat.eqb (count_colons peer) 1) ps then
    let p := mkPx None false ps me ∅ ∅ false
               (list_to_map ((fun i => (i, -1)) <$> seqZ 0 (Z.of_nat (length ps)))) 0 0 in
    if withServer then Ret (inl p)
    else
      _ ← deref (if me <? 0 then None else ps !! Z.to_nat me);
      Ret (inl (p <| l := Some Listening |>))
  else Ret (inr "peers format invalid").

(** ** The proposer *)

(** The sequence number of an attempt: the clock times the number [n] of
    peers plus [me], raised above [maxSeqNumHighest] when it is not above
    already, all in [int64].  The remainder by [len(px.peers)] panics on an
    empty peer list. *)
Definition nextSeqNum (now n me maxSeqNumHighest : Z) : outcome Z :=
  let i64 := wrap_s 64 in
  let seqNum := i64 (i64 (now * n) + me) in
  if seqNum <=? maxSeqNumHighest then
    if n =? 0 then Panic
    else
      let diff := i64 (maxSeqNumHighest - seqNum) in
      Ret (i64 (seqNum + i64 (i64 (diff - Z.rem diff n) + n)))
  else Ret seqNum.

(** The local variables of the two collecting loops. A reply is absent when
    the call failed. *)
Record collecting := mkColl {
  numOk : Z; proposeValue : value; maxSeqNumAccepted : Z; maxSeqNumHighest : Z }.

#[export] Instance eta_collecting : EtaRecord collecting := fun c =>
  mkColl (numOk c) (proposeValue c) (maxSeqNumAccepted c) (maxSeqNumHighest c).

Definition startPrepare (v : value) : collecting := mkColl 0 v 0 0.

Definition collectPrepare (rep : option PrepareReply) (c : collecting) : collecting :=
  match rep with
  | Some reply =>
      if pr_Status reply =? OK then
        let c := c <| numOk := numOk c + 1 |> in
        if maxSeqNumAccepted c <? pr_SeqNumAccepted reply then
          c <| maxSeqNumAccepted := pr_SeqNumAccepted reply |>
            <| proposeValue := pr_ValueAccepted reply |>
        else c
      else if maxSeqNumHighest c <? pr_SeqNumHighest reply then
        c <| maxSeqNumHighest := pr_SeqNumHighest reply |>
      else c
  | None => c
  end.

Definition startAccept (c : collecting) : collecting :=
  c <| numOk := 0 |> <| maxSeqNumHighest := 0 |>.

Definition collectAccept (rep : option AcceptReply) (c : collecting) : collecting :=
  match rep with
  | Some reply =>
      if ar_Status reply =? OK then c <| numOk := numOk c + 1 |>
      else if maxSeqNumHighest c <? ar_SeqNumHighest reply then
        c <| maxSeqNumHighest := ar_SeqNumHighest reply |>
      else c
  | None => c
  end.

(** [numOk > len(px.peers)/2]. *)
Definition majority (n : Z) (c : collecting) : bool := Z.quot n 2 <? numOk c.

(** A collecting loop: it stops early once a majority said yes. *)
Fixpoint collect {R} (step : option R -> collecting -> collecting) (n : Z)
    (reps : list (option R)) (c : collecting) : collecting :=
  match reps with
  | [] => c
  | r :: reps' =>
      let c := step r c in if majority n c then c else collect step n reps' c
  end.

(** ** A round with the cluster, one proposer *)

(** What becomes of an RPC to another peer. *)
Inductive fate := Delivered | RequestLost | ReplyLost.

(** Send one request to the peers [order]; the handler of a reached peer runs,
    and the reply is absent when a message was lost.  The call to oneself is a
    function call. *)
Fixpoint broadcast {R} (handler : px -> px * R) (self : nat) (fates : nat -> fate)
    (order : list nat) (cl : list px) : list px * list (option R) :=
  match order with
  | [] => (cl, [])
  | i :: order' =>
      let f := if Nat.eqb i self then Delivered else fates i in
      let '(cl, rep) :=
        match f, cl !! i with
        | RequestLost, _ | _, None => (cl, None)
        | Delivered, Some p => let '(p, r) := handler p in (<[i := p]> cl, Some r)
        | ReplyLost, Some p => let '(p, _) := handler p in (<[i := p]> cl, None)
        end in
      let '(cl, reps) := broadcast handler self fates order' cl in (cl, rep :: reps)
  end.

(** What the network does to the three phases of a round. *)
Record network := mkNet {
  prepare_fate : nat -> fate; accept_fate : nat -> fate; decide_fate : nat -> fate;
  arrival : list nat }.

(** One iteration of the loop of [startHelper]: the value decided, or the
    rejections' highest number. *)
Definition proposeRound (net : network) (self : nat) (maxDone slotNum seqNum : Z) (v : value)
    (cl : list px) : list px * (value + Z) :=
  let n := Z.of_nat (length cl) in
  let prep := mkPrepareArgs slotNum seqNum (Z.of_nat self) maxDone in
  let '(cl, reps) := broadcast (Prepare prep) self (prepare_fate net) (arrival net) cl in
  let c := collect collectPrepare n reps (startPrepare v) in
  if negb (majority n c) then (cl, inr (maxSeqNumHighest c))
  else
    let acc := mkAcceptArgs slotNum seqNum (proposeValue c) in
    let '(cl, reps) := broadcast (Accept acc) self (accept_fate net) (arrival net) cl in
    let c := collect collectAccept n reps (startAccept c) in
    if negb (majority n c) then (cl, inr (maxSeqNumHighest c))
    else
      let dec := mkDecideArgs slotNum (proposeValue c) in
      let '(cl, _) := broadcast (Decide dec) self (decide_fate net) (arrival net) cl in
      (cl, inl (proposeValue c)).

(** The loop of [startHelper] run by peer [self] of the cluster [cl]; [now k]
    and [net k] are the clock and the network during attempt [k]. *)
Fixpoint proposeLoop (fuel : nat) (now : nat -> Z) (net : nat -> network) (k : nat) (self : nat)
    (myMaxDone slotNum : Z) (v : value) (maxHighest : Z) (cl : list px)
  : outcome (list px * value) :=
  match fuel with
  | O => Hang
  | S fuel' =>
      seqNum ← nextSeqNum (now k) (Z.of_nat (length cl)) (Z.of_nat self) maxHighest;
      match proposeRound (net k) self myMaxDone slotNum seqNum v cl with
      | (cl, inl w) => Ret (cl, w)
      | (cl, inr h) => proposeLoop fuel' now net (S k) self myMaxDone slotNum v h cl
      end
  end.

Definition startHelper (fuel : nat) (now : nat -> Z) (net : nat -> network) (self : nat)
    (slotNum : Z) (v : value) (cl : list px) : outcome (list px * value) :=
  p ← deref (cl !! self);
  let p := getTimeSlotLock slotNum p in
  let '(currTimeSlot, p) := getTimeSlotValue slotNum p in
  proposeLoop fuel now net 0 self (map_get 0 (maxDone p) (me p)) slotNum v
    (seqNumHighest currTimeSlot) (<[self := p]> cl).

(** [Start]: refused during maintenance; the error of [startHelper] is dropped
    (it is always nil). *)
Definition Start (fuel : nat) (now : nat -> Z) (net : nat -> network) (self : nat)
    (slotNum : Z) (v : value) (cl : list px) : outcome (list px * option string) :=
  p ← deref (cl !! self);
  if isLocked p then Ret (cl, Some maintenance)
  else '(cl, _) ← startHelper fuel now net self slotNum v cl; Ret (cl, None).

(** [SyncPaxosValue] of peer [self], proposing NoOp for an undecided slot. *)
Definition SyncPaxosValue (fuel : nat) (now : nat -> Z) (net : nat -> network) (self : nat)
    (args : SyncPaxosValueArgs) (cl : list px)
  : outcome (list px * SyncPaxosValueReply * option string) :=
  let slotNum := sy_SlotNum args in
  let answer (t : timeSlotValue) :=
    mkSyncPaxosValueReply OK (slotValue t) (seqNumAccepted t) (seqNumHighest t) in
  p ← deref (cl !! self);
  let '(slotVal, p) := getTimeSlotValue slotNum (getTimeSlotLock slotNum p) in
  let cl := <[self := p]> cl in
  if isDecided slotVal then Ret (cl, answer slotVal, None)
  else
    '(cl, _) ← startHelper fuel now net self slotNum (Some NoOpValue) cl;
    p ← deref (cl !! self);
    let '(slotVal, p) := getTimeSlotValue slotNum p in
    let cl := <[self := p]> cl in
    if isDecided slotVal then Ret (cl, answer slotVal, None)
    else Ret (cl, mkSyncPaxosValueReply Reject None 0 0,
              Some "Cannot get the synced value, something went wrong").

(** ** The slots of a peer *)

(** The contents of a slot; a missing slot reads as an empty one. *)
Definition slotOf (p : px) (s : Z) : timeSlotValue := default emptySlot (timeSlot p !! s).

Lemma slotOf_setSlot s t p s' :
  slotOf (setSlot s t p) s' = if decide (s' = s) then t else slotOf p s'.
Proof.
  unfold slotOf, setSlot. cbn. rewrite lookup_insert.
  destruct (decide (s = s')), (decide (s' = s)); by subst.
Qed.

(** The control fields of a peer, which slot operations leave alone. *)
Definition same_control (p p' : px) : Prop :=
  minUndecidedSlot p' = minUndecidedSlot p /\ peers p' = peers p /\ me p' = me p /\
  isLocked p' = isLocked p /\ maxDone p' = maxDone p.

Lemma same_control_trans p1 p2 p3 : same_control p1 p2 -> same_control p2 p3 -> same_control p1 p3.
Proof. intros (? & ? & ? & ? & ?) (? & ? & ? & ? & ?). split_and!; congruence. Qed.

(** Fetching a slot under its lock, as every handler starts. *)
Lemma enter_spec s p :
  exists p', getTimeSlotValue s (getTimeSlotLock s p) = (slotOf p s, p') /\
    (forall s', slotOf p' s' = slotOf p s') /\
    same_control p p' /\ maxDecidedSlot p' = maxDecidedSlot p.
Proof.
  unfold getTimeSlotValue, slotOf. cbn. destruct (timeSlot p !! s) as [t|] eqn:E.
  - by eexists.
  - eexists. split_and!; try done.
    intros s'. cbn. rewrite lookup_insert. case_decide as Es; [subst s'|done]. by rewrite E.
Qed.

(** [f] applied to the contents of slot [s]. *)
Definition updates (s : Z) (f : timeSlotValue -> timeSlotValue) (p p' : px) : Prop :=
  forall s', slotOf p' s' = if decide (s' = s) then f (slotOf p s) else slotOf p s'.

Lemma updates_id s p p' : (forall s', slotOf p' s' = slotOf p s') -> updates s id p p'.
Proof. intros H s'. rewrite H. case_decide; by subst. Qed.

(** Writing the fetched slot back; [p'] may differ from the peer written to
    in other fields. *)
Lemma updates_set s f p p1 p' :
  (forall s', slotOf p1 s' = slotOf p s') ->
  timeSlot p' = timeSlot (setSlot s (f (slotOf p s)) p1) -> updates s f p p'.
Proof.
  intros Hs Ht s'. unfold slotOf at 1. rewrite Ht.
  change (slotOf (setSlot s (f (slotOf p s)) p1) s' = if decide (s' = s) then f (slotOf p s) else slotOf p s').
  rewrite slotOf_setSlot, Hs. done.
Qed.

Lemma Prepare_spec args p :
  let t := slotOf p (pa_SlotNum args) in
  let '(p', r) := Prepare args p in
  same_control p p' /\ maxDecidedSlot p' = maxDecidedSlot p /\
  if seqNumHighest t <? pa_SeqNum args then
    updates (pa_SlotNum args) (fun t => t <| seqNumHighest := pa_SeqNum args |>) p p' /\
    r = mkPrepareReply OK (seqNumAccepted t) (slotValue t) 0
  else updates (pa_SlotNum args) id p p' /\ r = mkPrepareReply Reject 0 None (seqNumHighest t).
Proof.
  cbn zeta. unfold Prepare.
  destruct (enter_spec (pa_SlotNum args) p) as (p' & -> & Hs & Hc & Hm).
  destruct (_ <? _); split_and!; try done; [|by apply updates_id].
  by eapply updates_set.
Qed.

Lemma Accept_spec args p :
  let t := slotOf p (aa_SlotNum args) in
  let '(p', r) := Accept args p in
  same_control p p' /\ maxDecidedSlot p' = maxDecidedSlot p /\
  if seqNumHighest t <=? aa_SeqNum args then
    updates (aa_SlotNum args)
      (fun t => mkSlot (aa_Value args) (isDecided t) (aa_SeqNum args) (aa_SeqNum args)) p p' /\
    r = mkAcceptReply OK 0
  else updates (aa_SlotNum args) id p p' /\ r = mkAcceptReply Reject (seqNumHighest t).
Proof.
  cbn zeta. unfold Accept.
  destruct (enter_spec (aa_SlotNum args) p) as (p' & -> & Hs & Hc & Hm).
  destruct (_ <=? _); split_and!; try done; [|by apply updates_id].
  by eapply updates_set.
Qed.

Lemma Decide_spec args p :
  let '(p', r) := Decide args p in
  same_control p p' /\ maxDecidedSlot p' = getMax (maxDecidedSlot p) (da_SlotNum args) /\
  updates (da_SlotNum args)
    (fun t => mkSlot (da_Value args) true (seqNumAccepted t) (seqNumHighest t)) p p' /\
  r = mkDecideReply OK.
Proof.
  unfold Decide. destruct (enter_spec (da_SlotNum args) p) as (p' & -> & Hs & Hc & Hm).
  split_and!; try done; [cbn; by rewrite Hm|]. by eapply updates_set.
Qed.

Lemma Put_spec args p :
  let t := slotOf p (pu_SlotNum args) in
  let '(p', r) := Put args p in
  same_control p p' /\
  if isDecided t then
    maxDecidedSlot p' = maxDecidedSlot p /\ updates (pu_SlotNum args) id p p' /\ r = mkPutReply Reject
  else
    maxDecidedSlot p' = getMax (maxDecidedSlot p) (pu_SlotNum args) /\
    updates (pu_SlotNum args)
      (fun _ => mkSlot (pu_Value args) true (pu_SeqNumAccepted args) (pu_SeqNumHighest args)) p p' /\
    r = mkPutReply OK.
Proof.
  cbn zeta. unfold Put.
  destruct (enter_spec (pu_SlotNum args) p) as (p' & -> & Hs & Hc & Hm).
  destruct (isDecided _); split_and!; try done.
  - by apply updates_id.
  - cbn; by rewrite Hm.
  - by eapply updates_set.
Qed.

Lemma getMax_spec a b : getMax a b = Z.max a b.
Proof. unfold getMax. destruct (b <? a) eqn:E; breflect; lia. Qed.

Lemma getMin_spec a b : getMin a b = Z.min a b.
Proof. unfold getMin. destruct (a <? b) eqn:E; breflect; lia. Qed.

(** ** Local steps of a peer *)

(** Any RPC a peer serves, and the local calls of the application. *)
Inductive step (p : px) : px -> Prop :=
  | step_Prepare args : step p (Prepare args p).1
  | step_Accept args : step p (Accept args p).1
  | step_Decide args : step p (Decide args p).1
  | step_Put args : step p (Put args p).1
  | step_GetPeers : step p (GetPeers p).1
  | step_UpdatePeers args : step p (UpdatePeers args p).1
  | step_SetLock args : step p (SetLock args p).1
  | step_CheckStatus : step p (CheckStatus p).1
  | step_CheckSlot : step p (CheckSlot p).1
  | step_RemoteKill : step p (RemoteKill p).1
  | step_MaxDecidedSlot : step p (MaxDecidedSlot p).1
  | step_MinUndecidedSlot fuel p' r : MinUndecidedSlot fuel p = Some (p', r) -> step p p'
  | step_Status s : step p (Status s p).1
  | step_Wake p' : Wake p = Ret p' -> step p p'.

Definition decided (p : px) (s : Z) : Prop := isDecided (slotOf p s) = true.

(** The invariant of the two slot counters. *)
Record counters_ok (p : px) : Prop := {
  co_max : forall s, decided p s -> s <= maxDecidedSlot p;
  co_min : forall s, 0 <= s < minUndecidedSlot p -> decided p s;
  co_pos : 0 <= minUndecidedSlot p;
  co_reached : maxDecidedSlot p = 0 \/ decided p (maxDecidedSlot p) }.

Lemma scanUndecided_spec fuel : forall slotNum p p' n,
  scanUndecided fuel slotNum p = Some (p', n) ->
  (forall s, slotOf p' s = slotOf p s) /\ same_control p p' /\
  maxDecidedSlot p' = maxDecidedSlot p /\
  slotNum <= n /\ ~ decided p n /\ (forall s, slotNum <= s < n -> decided p s).
Proof.
  induction fuel as [|fuel IH]; intros slotNum p p' n; cbn [scanUndecided]; [done|].
  destruct (enter_spec slotNum p) as (p1 & -> & Hs & Hctl & Hmax).
  destruct (isDecided (slotOf p slotNum)) eqn:E.
  - intros H. apply IH in H as (Hs' & Hctl' & Hmax' & Hle & Hn & Hall).
    unfold decided in *. rewrite Hs in Hn. split_and!.
    + intros s. by rewrite Hs', Hs.
    + by eapply same_control_trans.
    + congruence.
    + lia.
    + done.
    + intros s Hle'. destruct (decide (s = slotNum)) as [->|]; [done|].
      rewrite <- Hs. apply Hall. lia.
  - intros [= <- <-]. unfold decided. split_and!; auto; [lia|by rewrite E|]. lia.
Qed.

(** The decided slots from [slotNum] on. *)
Definition decidedFrom (slotNum : Z) (p : px) : gmap Z timeSlotValue :=
  filter (fun st => slotNum <= st.1 /\ isDecided st.2 = true) (timeSlot p).

Lemma decidedFrom_step slotNum p t :
  timeSlot p !! slotNum = Some t -> isDecided t = true ->
  size (decidedFrom slotNum p) = S (size (decidedFrom (slotNum + 1) p)).
Proof.
  intros E Ed.
  assert (Hsub : decidedFrom slotNum p = <[slotNum := t]> (decidedFrom (slotNum + 1) p)).
  { apply map_eq. intros i. rewrite lookup_insert. apply option_eq. intros x.
    unfold decidedFrom. rewrite map_lookup_filter_Some. cbn. case_decide as Ei.
    - subst i. split; [intros [? _]; congruence|intros [= <-]; split; [done|split; [lia|done]]].
    - rewrite map_lookup_filter_Some. cbn. split; intros [? [? ?]]; split_and!; auto; lia. }
  rewrite Hsub, map_size_insert_None; [done|].
  unfold decidedFrom. apply map_lookup_filter_None. right. intros x _ [Hx _]. cbn in Hx. lia.
Qed.

(** The scan ends within the number of stored slots. *)
Lemma scanUndecided_total fuel : forall slotNum p,
  (size (decidedFrom slotNum p) < fuel)%nat -> is_Some (scanUndecided fuel slotNum p).
Proof.
  induction fuel as [|fuel IH]; intros slotNum p Hlt; [lia|]. cbn [scanUndecided].
  unfold getTimeSlotValue. change (timeSlot (getTimeSlotLock slotNum p)) with (timeSlot p).
  destruct (timeSlot p !! slotNum) as [t|] eqn:E; [|cbn; eauto].
  destruct (isDecided t) eqn:Ed; [|eauto]. apply IH.
  rewrite (decidedFrom_step _ _ _ E Ed) in Hlt.
  change (decidedFrom _ (getTimeSlotLock slotNum p)) with (decidedFrom (slotNum + 1) p). lia.
Qed.

Lemma decidedFrom_size slotNum p : (size (decidedFrom slotNum p) <= size (timeSlot p))%nat.
Proof. apply map_size_filter. Qed.

(** The effect of a step on the decided slots and the two counters: at most
    one slot [d] becomes decided. *)
Definition decides (d : option Z) (p p' : px) : Prop :=
  (forall s, decided p' s <-> decided p s \/ d = Some s) /\
  maxDecidedSlot p' = match d with Some s => Z.max (maxDecidedSlot p) s | None => maxDecidedSlot p end /\
  (minUndecidedSlot p' = minUndecidedSlot p \/
   minUndecidedSlot p <= minUndecidedSlot p' /\
   forall s, minUndecidedSlot p <= s < minUndecidedSlot p' -> decided p s).

Lemma decides_None p p' :
  (forall s, isDecided (slotOf p' s) = isDecided (slotOf p s)) ->
  maxDecidedSlot p' = maxDecidedSlot p -> minUndecidedSlot p' = minUndecidedSlot p -> decides None p p'.
Proof.
  intros Hs Hm Hn. split_and!; auto. intros s. unfold decided. rewrite Hs.
  split; [auto|intros [?|?]; done].
Qed.

Lemma decides_updates s f p p' :
  updates s f p p' -> isDecided (f (slotOf p s)) = true ->
  maxDecidedSlot p' = getMax (maxDecidedSlot p) s -> minUndecidedSlot p' = minUndecidedSlot p ->
  decides (Some s) p p'.
Proof.
  intros Hu Hf Hm Hn. split_and!; [|by rewrite Hm, getMax_spec|auto].
  intros s'. unfold decided. rewrite (Hu s'). case_decide; [subst s'; naive_solver|].
  split; [auto|intros [?|[= ->]]; done].
Qed.

Lemma updates_decided s f p p' s' :
  updates s f p p' -> isDecided (f (slotOf p s)) = isDecided (slotOf p s) ->
  isDecided (slotOf p' s') = isDecided (slotOf p s').
Proof. intros Hu Hf. rewrite (Hu s'). by case_decide; subst. Qed.

Lemma step_decides p p' : step p p' -> exists d, decides d p p'.
Proof.
  destruct 1 as [args|args|args|args| | | | | | | |fuel p' r Hm|s|p' Hw];
    try (exists None; by apply decides_None).
  - pose proof (Prepare_spec args p) as H. destruct (Prepare args p) as [p' r].
    destruct H as ((? & _) & ? & H). exists None. apply decides_None; auto. intros s.
    destruct (_ <? _); destruct H as [Hu _]; by apply (updates_decided _ _ _ _ _ Hu).
  - pose proof (Accept_spec args p) as H. destruct (Accept args p) as [p' r].
    destruct H as ((? & _) & ? & H). exists None. apply decides_None; auto. intros s.
    destruct (_ <=? _); destruct H as [Hu _]; by apply (updates_decided _ _ _ _ _ Hu).
  - pose proof (Decide_spec args p) as H. destruct (Decide args p) as [p' r].
    destruct H as ((? & _) & ? & H & _). eexists. by eapply decides_updates.
  - pose proof (Put_spec args p) as H. destruct (Put args p) as [p' r].
    destruct H as ((? & _) & H). destruct (isDecided _) eqn:E; destruct H as (? & Hu & _).
    + exists None. apply decides_None; auto. intros s. by apply (updates_decided _ _ _ _ _ Hu).
    + eexists. by eapply decides_updates.
  - unfold MinUndecidedSlot in Hm.
    destruct (scanUndecided _ _ _) as [[p1 n]|] eqn:E; [|done]. injection Hm as <- <-.
    apply scanUndecided_spec in E as (Hs & Hc & Hmax & Hle & Hn & Hall).
    exists None. split_and!; auto.
    + intros s. split.
      * intros Hd. left. change (isDecided (slotOf p1 s) = true) in Hd. by rewrite Hs in Hd.
      * intros [Hd|?]; [|done]. change (isDecided (slotOf p1 s) = true). by rewrite Hs.
  - unfold Status. destruct (isLocked p); [exists None; by apply decides_None|].
    destruct (enter_spec s p) as (p1 & -> & Hs & Hc & Hmax). exists None.
    apply decides_None; [|done|by destruct Hc]. intros s'. cbn. by rewrite Hs.
  - exists None. unfold Wake in Hw. destruct (deaf p); bind_inv; [|by apply decides_None].
    destruct (Nat.eqb _ 0); bind_inv. by apply decides_None.
Qed.

Lemma counters_step p p' : counters_ok p -> step p p' -> counters_ok p'.
Proof.
  intros [Hmax Hmin Hpos Hr] (d & Hd & Hm & Hn)%step_decides.
  assert (Hmono : forall s, decided p s -> decided p' s) by (intros; apply Hd; auto).
  split.
  - intros s [Hs| ->]%Hd; rewrite Hm; [|lia]. specialize (Hmax s Hs). destruct d; lia.
  - intros s Hs. apply Hmono. destruct Hn as [Hn|[Hle Hall]]; [apply Hmin; lia|].
    destruct (decide (s < minUndecidedSlot p)); [apply Hmin; lia|apply Hall; lia].
  - destruct Hn as [Hn|[Hle _]]; lia.
  - rewrite Hm. destruct d as [s|]; [|naive_solver].
    destruct (Z.max_spec (maxDecidedSlot p) s) as [[_ ->]|[_ ->]]; [|naive_solver].
    right. by apply Hd; auto.
Qed.

Lemma Make_counters ps me b p : Make ps me b = Ret (inl p) -> counters_ok p.
Proof.
  unfold Make. destruct (forallb _ _); [|done]. intros H.
  assert (timeSlot p = ∅ /\ maxDecidedSlot p = 0 /\ minUndecidedSlot p = 0) as (Ht & Hm & Hn).
  { destruct b; bind_inv; done. }
  assert (Hno : forall s, ~ decided p s) by (intros s; unfold decided, slotOf; by rewrite Ht, lookup_empty).
  split; rewrite ?Hm, ?Hn; try lia. intros s Hs. by apply Hno in Hs.
Qed.

(** ** Sequence numbers *)

Lemma wrap_s64_small z : - 2 ^ 63 <= z < 2 ^ 63 -> wrap_s 64 z = z.
Proof. intros. apply wrap_s_small; [lia|]. exact H. Qed.

(** Without overflow the number is above [max], not below the clock's number,
    has the residue of the peer, and is at most [n] above [max] when it had to
    be raised. *)
Lemma nextSeqNum_spec now n me max :
  0 < n -> 0 <= me < n -> 0 <= now -> now * n + me < 2 ^ 63 -> 0 <= max -> max + n < 2 ^ 63 ->
  exists k, nextSeqNum now n me max = Ret k /\ max < k /\ k mod n = me /\
    now * n + me <= k < 2 ^ 63 /\ (k = now * n + me \/ k <= max + n).
Proof.
  intros Hn Hme Hnow Hov Hmax Hov2. unfold nextSeqNum.
  assert (0 <= now * n) by nia.
  rewrite (wrap_s64_small (now * n)), wrap_s64_small by lia.
  set (b := now * n + me) in *.
  assert (Hb : b mod n = me).
  { unfold b. rewrite Z.add_comm, Z.mod_add by lia. apply Z.mod_small. lia. }
  destruct (b <=? max) eqn:E; breflect.
  - destruct (n =? 0) eqn:En; breflect; [lia|].
    rewrite (wrap_s64_small (max - b)) by lia.
    rewrite Z.rem_mod_nonneg by lia.
    pose proof (Z.mod_pos_bound (max - b) n Hn) as Hr.
    pose proof (Z.mod_le (max - b) n ltac:(lia) Hn).
    rewrite (wrap_s64_small (_ - (max - b) mod n)) by lia.
    rewrite (wrap_s64_small (_ + n)), wrap_s64_small by lia.
    pose proof (Z.div_mod (max - b) n ltac:(lia)) as Hd.
    eexists. split; [done|]. split_and!; try lia.
    replace (b + (max - b - (max - b) mod n + n)) with (b + ((max - b) / n + 1) * n) by nia.
    by rewrite Z.mod_add by lia.
  - exists b. split_and!; auto; lia.
Qed.

(** ** Collecting replies *)

Section collecting.
Context {R : Type} (stepR : option R -> collecting -> collecting) (ok : option R -> bool).
Context (Hstep : forall r c, numOk (stepR r c) = numOk c + if ok r then 1 else 0).

Definition count_ok (reps : list (option R)) : Z := Z.of_nat (length (filter (fun r => ok r = true) reps)).

Lemma count_ok_cons r reps : count_ok (r :: reps) = (if ok r then 1 else 0) + count_ok reps.
Proof.
  unfold count_ok. rewrite filter_cons. destruct (ok r); case_decide; try done. cbn. lia.
Qed.

Lemma count_ok_nonneg reps : 0 <= count_ok reps.
Proof. unfold count_ok. lia. Qed.

(** Stopping early does not change whether a majority is found. *)
Lemma collect_majority n reps : forall c,
  majority n (collect stepR n reps c) = true <-> Z.quot n 2 < numOk c + count_ok reps.
Proof.
  induction reps as [|r reps IH]; intros c; cbn [collect].
  - unfold count_ok, majority. cbn. rewrite Z.ltb_lt. lia.
  - rewrite count_ok_cons. pose proof (count_ok_nonneg reps). pose proof (Hstep r c) as Hn.
    destruct (majority n (stepR r c)) eqn:E.
    + rewrite E. unfold majority in E. breflect. split; [|done]. intros _.
      destruct (ok r); lia.
    + rewrite IH, Hn. destruct (ok r); lia.
Qed.

(** A property kept by every reply holds of the result. *)
Lemma collect_ind n reps (P : collecting -> Prop) : forall c,
  P c -> (forall r c, r ∈ reps -> P c -> P (stepR r c)) -> P (collect stepR n reps c).
Proof.
  induction reps as [|r reps IH]; intros c Hc HP; cbn [collect]; [done|].
  assert (P (stepR r c)) by (apply HP; [by left|done]).
  destruct (majority _ _); [done|]. apply IH; [done|]. intros. apply HP; [by right|done].
Qed.

(** Without a majority every reply was looked at. *)
Lemma collect_all n reps (P : option R -> collecting -> Prop) :
  (forall r c, P r (stepR r c)) -> (forall r r' c, P r c -> P r (stepR r' c)) -> forall c,
  majority n (collect stepR n reps c) = false -> forall r, r ∈ reps -> P r (collect stepR n reps c).
Proof.
  intros Hnew Hold.
  assert (Hkeep : forall reps c r, P r c -> P r (collect stepR n reps c)).
  { intros reps' c r Hc. apply collect_ind; auto. }
  induction reps as [|r reps IH]; intros c; cbn [collect]; [intros _ r Hr; by apply not_elem_of_nil in Hr|].
  destruct (majority n (stepR r c)) eqn:E; [congruence|].
  intros Hm r' [->|Hr]%elem_of_cons; [by apply Hkeep|by apply IH].
Qed.

End collecting.

Definition okPrepare (r : option PrepareReply) : bool :=
  match r with Some r => pr_Status r =? OK | None => false end.
Definition okAccept (r : option AcceptReply) : bool :=
  match r with Some r => ar_Status r =? OK | None => false end.

Lemma collectPrepare_numOk r c :
  numOk (collectPrepare r c) = numOk c + if okPrepare r then 1 else 0.
Proof.
  destruct r as [r|]; cbn; [|lia]. destruct (_ =? _); [destruct (_ <? _)|destruct (_ <? _)]; cbn; lia.
Qed.

Lemma collectAccept_numOk r c :
  numOk (collectAccept r c) = numOk c + if okAccept r then 1 else 0.
Proof. destruct r as [r|]; cbn; [|lia]. destruct (_ =? _); [|destruct (_ <? _)]; cbn; lia. Qed.

Lemma collectAccept_value r c : proposeValue (collectAccept r c) = proposeValue c.
Proof. destruct r as [r|]; cbn; [|done]. destruct (_ =? _); [|destruct (_ <? _)]; done. Qed.

(** The value is the initial one or an accepted one from an OK reply. *)
Lemma collectPrepare_value v n reps :
  let c := collect collectPrepare n reps (startPrepare v) in
  proposeValue c = v \/
  exists r, Some r ∈ reps /\ pr_Status r = OK /\ 0 < pr_SeqNumAccepted r /\
    proposeValue c = pr_ValueAccepted r.
Proof.
  cbn zeta.
  assert (H : 0 <= maxSeqNumAccepted (collect collectPrepare n reps (startPrepare v)) /\
    (proposeValue (collect collectPrepare n reps (startPrepare v)) = v \/
     exists r, Some r ∈ reps /\ pr_Status r = OK /\ 0 < pr_SeqNumAccepted r /\
      proposeValue (collect collectPrepare n reps (startPrepare v)) = pr_ValueAccepted r)); [|apply H].
  apply (collect_ind collectPrepare n reps (fun c => 0 <= maxSeqNumAccepted c /\
    (proposeValue c = v \/ exists r, Some r ∈ reps /\ pr_Status r = OK /\ 0 < pr_SeqNumAccepted r /\
      proposeValue c = pr_ValueAccepted r))); [cbn; split; [lia|auto]|].
  intros [r|] c Hr Hc; [|done]. cbn.
  destruct (pr_Status r =? OK) eqn:E1; [destruct (maxSeqNumAccepted c <? _) eqn:E2|destruct (_ <? _)];
    cbn in *; breflect; try done.
  split; [lia|]. right. exists r. split_and!; auto. lia.
Qed.

(** ** A reliable network *)

Definition reliable (net : network) (n : nat) : Prop :=
  (forall i, prepare_fate net i = Delivered) /\ (forall i, accept_fate net i = Delivered) /\
  (forall i, decide_fate net i = Delivered) /\ arrival net ≡ₚ seq 0 n.

Lemma broadcast_delivered {R} (h : px -> px * R) self fates order : forall cl,
  (forall i, fates i = Delivered) -> NoDup order -> Forall (fun i => (i < length cl)%nat) order ->
  exists cl', broadcast h self fates order cl = (cl', (fun i => snd ∘ h <$> cl !! i) <$> order) /\
    length cl' = length cl /\
    forall j, cl' !! j = if decide (j ∈ order) then fst ∘ h <$> cl !! j else cl !! j.
Proof.
  induction order as [|i order IH]; intros cl Hf Hnd Hlt.
  - exists cl. by split_and!.
  - apply NoDup_cons in Hnd as [Hi Hnd]. apply Forall_cons in Hlt as [Hilt Hlt].
    apply lookup_lt_is_Some in Hilt as [p Hp]. cbn. rewrite Hf, Hp.
    replace (if Nat.eqb i self then Delivered else Delivered) with Delivered by (by case_match).
    destruct (h p) as [p' r] eqn:Eh.
    destruct (IH (<[i := p']> cl)) as (cl' & -> & Hlen & Hcl'); [done|done|by rewrite length_insert|].
    rewrite length_insert in Hlen. exists cl'. cbn. rewrite Eh. split_and!; [|done|].
    + do 2 f_equal. apply list_fmap_ext. intros j x Hx. rewrite list_lookup_insert_ne; [done|].
      intros ->. apply list_elem_of_lookup_2 in Hx. done.
    + intros j. rewrite Hcl'. destruct (decide (i = j)) as [<-|Hij].
      * rewrite decide_False by done. rewrite decide_True by (by left).
        rewrite list_lookup_insert_eq by (by eapply lookup_lt_Some). rewrite Hp. cbn. by rewrite Eh.
      * rewrite list_lookup_insert_ne by done.
        destruct (decide (j ∈ order)); [rewrite decide_True by (by right)|rewrite decide_False]; try done.
        rewrite elem_of_cons. naive_solver.
Qed.

(** A broadcast to everybody applies the handler to everybody. *)
Lemma broadcast_all {R} (h : px -> px * R) self fates order cl :
  (forall i, fates i = Delivered) -> order ≡ₚ seq 0 (length cl) ->
  exists reps, broadcast h self fates order cl = (fst ∘ h <$> cl, reps) /\
    reps ≡ₚ (Some ∘ snd ∘ h) <$> cl.
Proof.
  intros Hf Hp.
  destruct (broadcast_delivered h self fates order cl Hf) as (cl' & -> & Hlen & Hcl').
  { rewrite Hp. apply NoDup_seq. }
  { rewrite Hp. apply Forall_forall. intros i Hi%elem_of_seq. lia. }
  exists ((fun i => snd ∘ h <$> cl !! i) <$> order). split.
  - f_equal. apply list_eq. intros j. rewrite Hcl', list_lookup_fmap. case_decide as Hj; [done|].
    rewrite Hp in Hj. destruct (cl !! j) as [p|] eqn:E; [|done].
    destruct Hj. apply elem_of_seq. apply lookup_lt_Some in E. lia.
  - rewrite Hp. clear. apply (eq_ind_r (fun l => l ≡ₚ _) (reflexivity _)).
    apply list_eq. intros j. rewrite !list_lookup_fmap.
    destruct (decide (j < length cl)%nat) as [Hj|Hj].
    + rewrite lookup_seq_lt by done. cbn. by destruct (lookup_lt_is_Some_2 _ _ Hj) as [p ->].
    + rewrite lookup_seq_ge by lia. rewrite (lookup_ge_None_2 cl j) by lia. done.
Qed.

(** A rejection has been taken into account. *)
Definition rejection_seen (r : option PrepareReply) (c : collecting) : Prop :=
  match r with
  | Some r => pr_Status r <> OK -> pr_SeqNumHighest r <= maxSeqNumHighest c
  | None => True
  end.

Lemma rejection_seen_new r c : rejection_seen r (collectPrepare r c).
Proof.
  destruct r as [r|]; [|done]. cbn. intros Hn. rewrite (proj2 (Z.eqb_neq _ _) Hn).
  destruct (_ <? _) eqn:E; breflect; cbn; lia.
Qed.

Lemma rejection_seen_old r r' c : rejection_seen r c -> rejection_seen r (collectPrepare r' c).
Proof.
  assert (maxSeqNumHighest c <= maxSeqNumHighest (collectPrepare r' c)).
  { destruct r' as [r'|]; cbn; [|lia].
    destruct (_ =? _); [by destruct (_ <? _)|]. destruct (_ <? _) eqn:E; breflect; cbn; lia. }
  destruct r as [r|]; [|done]. intros Hs Hn. specialize (Hs Hn). lia.
Qed.

Section reliable_round.
Context (s k : Z).

Abbreviation hi p := (seqNumHighest (slotOf p s)).

Lemma Prepare_reply pn md p :
  (Prepare (mkPrepareArgs s k pn md) p).2 =
    (if hi p <? k then mkPrepareReply OK (seqNumAccepted (slotOf p s)) (slotValue (slotOf p s)) 0
     else mkPrepareReply Reject 0 None (hi p)) /\
  slotOf (Prepare (mkPrepareArgs s k pn md) p).1 s =
    (if hi p <? k then (slotOf p s) <| seqNumHighest := k |> else slotOf p s).
Proof.
  pose proof (Prepare_spec (mkPrepareArgs s k pn md) p) as Hs.
  destruct (Prepare _ p) as [p' r]. destruct Hs as (_ & _ & Hs). cbn in *.
  destruct (hi p <? k); destruct Hs as [Hu ->]; rewrite (Hu s), decide_True by done; done.
Qed.

Lemma Accept_reply w p :
  (Accept (mkAcceptArgs s k w) p).2 =
    (if hi p <=? k then mkAcceptReply OK 0 else mkAcceptReply Reject (hi p)).
Proof.
  pose proof (Accept_spec (mkAcceptArgs s k w) p) as Hs.
  destruct (Accept _ p) as [p' r]. destruct Hs as (_ & _ & Hs). cbn in *.
  by destruct (hi p <=? k); destruct Hs as [Hu ->].
Qed.

Lemma Decide_slot w p :
  let t := slotOf (Decide (mkDecideArgs s w) p).1 s in isDecided t = true /\ slotValue t = w.
Proof.
  pose proof (Decide_spec (mkDecideArgs s w) p) as Hs.
  destruct (Decide _ p) as [p' r]. destruct Hs as (_ & _ & Hu & _). cbn in *.
  rewrite (Hu s), decide_True by done. done.
Qed.

(** [hi p < k] for peers that promise, [hi p <= k] for those that then accept. *)
Lemma count_promises pn md cl reps :
  reps ≡ₚ (Some ∘ snd ∘ Prepare (mkPrepareArgs s k pn md)) <$> cl ->
  count_ok okPrepare reps = Z.of_nat (length (filter (fun p => hi p < k) cl)).
Proof.
  intros Hp. unfold count_ok. f_equal. rewrite Hp. clear. induction cl as [|p cl IH]; [done|].
  rewrite fmap_cons, !filter_cons. cbn -[filter].
  destruct (Prepare_reply pn md p) as [-> _]. destruct (decide (hi p < k)) as [Hlt|Hge].
  - rewrite (proj2 (Z.ltb_lt _ _) Hlt). cbn -[filter]. rewrite decide_True by done. cbn. by f_equal.
  - rewrite (proj2 (Z.ltb_ge _ _)) by lia. cbn -[filter]. by rewrite decide_False by done.
Qed.

Lemma count_accepts pn md w cl reps :
  reps ≡ₚ (Some ∘ snd ∘ Accept (mkAcceptArgs s k w)) <$> (fst ∘ Prepare (mkPrepareArgs s k pn md) <$> cl) ->
  Z.of_nat (length (filter (fun p => hi p < k) cl)) <= count_ok okAccept reps.
Proof.
  intros Hp. unfold count_ok. apply inj_le. rewrite Hp. clear. induction cl as [|p cl IH]; [done|].
  rewrite !fmap_cons, !filter_cons. cbn -[filter]. rewrite Accept_reply.
  destruct (Prepare_reply pn md p) as [_ ->].
  destruct (decide (hi p < k)) as [Hlt|Hge].
  - rewrite (proj2 (Z.ltb_lt _ _) Hlt). cbn -[filter]. rewrite Z.leb_refl. cbn -[filter].
    rewrite decide_True by done. cbn. lia.
  - case_decide; cbn; lia.
Qed.

(** What the proposer may propose: its own value, or one some peer accepted. *)
Definition candidate (v : value) (cl : list px) (w : value) : Prop :=
  w = v \/ exists p, p ∈ cl /\ 0 < seqNumAccepted (slotOf p s) /\ w = slotValue (slotOf p s).

Definition all_decided (w : value) (cl : list px) : Prop :=
  Forall (fun p => isDecided (slotOf p s) = true /\ slotValue (slotOf p s) = w) cl.

Lemma majority_false n c : majority n c = false -> ~ Z.quot n 2 < numOk c.
Proof. unfold majority. rewrite Z.ltb_ge. lia. Qed.

(** The rejections of a failed prepare phase name the highest promise. *)
Lemma failed_prepare pn md v cl reps :
  0 < k -> cl <> [] ->
  reps ≡ₚ (Some ∘ snd ∘ Prepare (mkPrepareArgs s k pn md)) <$> cl ->
  let c := collect collectPrepare (Z.of_nat (length cl)) reps (startPrepare v) in
  majority (Z.of_nat (length cl)) c = false ->
  (exists p, p ∈ cl /\ maxSeqNumHighest c = hi p) /\ k <= maxSeqNumHighest c /\
  (forall p, p ∈ cl -> hi p <= maxSeqNumHighest c).
Proof.
  intros Hk Hne Hp. set (n := Z.of_nat (length cl)). intros c Hm.
  assert (Hrep : forall r, r ∈ reps -> exists p, p ∈ cl /\ r = Some (Prepare (mkPrepareArgs s k pn md) p).2).
  { intros r Hr. rewrite Hp in Hr. apply list_elem_of_fmap in Hr as (p & -> & ?). eauto. }
  assert (Hc : maxSeqNumHighest c = 0 \/ exists p, p ∈ cl /\ maxSeqNumHighest c = hi p).
  { apply (collect_ind collectPrepare n reps
      (fun c => maxSeqNumHighest c = 0 \/ exists p, p ∈ cl /\ maxSeqNumHighest c = hi p)); [by left|].
    intros r c0 Hr Hc0. destruct (Hrep r Hr) as (p & Hpin & ->). cbn.
    destruct (Prepare_reply pn md p) as [-> _].
    destruct (hi p <? k); cbn; [by destruct (_ <? _)|]. destruct (_ <? _); cbn; eauto. }
  assert (Hall : forall p, p ∈ cl -> k <= hi p -> hi p <= maxSeqNumHighest c).
  { intros p Hpin Hge.
    assert (Hin : Some (Prepare (mkPrepareArgs s k pn md) p).2 ∈ reps).
    { rewrite Hp. apply list_elem_of_fmap. eauto. }
    pose proof (collect_all collectPrepare n reps rejection_seen rejection_seen_new
      rejection_seen_old (startPrepare v) Hm _ Hin) as Ha.
    cbn in Ha. destruct (Prepare_reply pn md p) as [Er _]. rewrite Er in Ha.
    rewrite (proj2 (Z.ltb_ge _ _)) in Ha by lia. by apply Ha. }
  assert (Hex : exists p, p ∈ cl /\ k <= hi p).
  { destruct (decide (Exists (fun p => k <= hi p) cl)) as [He|Hn].
    { apply Exists_exists in He. exact He. }
    apply not_Exists_Forall in Hn; [|intros x; apply _]. exfalso.
    assert (Hmt : majority n c = true); [|congruence].
    apply (collect_majority collectPrepare okPrepare collectPrepare_numOk).
    rewrite (count_promises _ _ _ _ Hp). cbn.
    rewrite (length_filter_all (fun p => hi p < k) cl);
      [|eapply Forall_impl; [exact Hn|]; cbn; intros; lia].
    fold n. assert (0 < n) by (unfold n; destruct cl; [done|cbn; lia]).
    apply Z.quot_lt; lia. }
  destruct Hex as (p0 & Hp0 & Hge0). pose proof (Hall p0 Hp0 Hge0).
  split_and!; [destruct Hc as [Hc|Hc]; [lia|done]|lia|].
  intros p Hpin. destruct (decide (k <= hi p)); [by apply Hall|lia].
Qed.

(** A round over a reliable network decides everywhere, or tells the
    proposer the highest promise. *)
Lemma reliable_proposeRound net self md v cl :
  reliable net (length cl) -> 0 < k -> cl <> [] ->
  (exists w cl', proposeRound net self md s k v cl = (cl', inl w) /\ length cl' = length cl /\
     all_decided w cl' /\ candidate v cl w) \/
  (exists h cl', proposeRound net self md s k v cl = (cl', inr h) /\ length cl' = length cl /\
     (exists p, p ∈ cl /\ k <= hi p) /\
     k <= h /\ (exists p, p ∈ cl /\ h = hi p) /\ (forall p, p ∈ cl' -> hi p <= h) /\
     (forall w, candidate v cl' w -> candidate v cl w)).
Proof.
  intros (Hf1 & Hf2 & Hf3 & Hperm) Hk Hne. unfold proposeRound.
  set (prep := mkPrepareArgs _ _ _ _). set (n := Z.of_nat (length cl)).
  destruct (broadcast_all (Prepare prep) self _ _ cl Hf1 Hperm) as (reps & -> & Hreps).
  set (c := collect collectPrepare n reps (startPrepare v)).
  set (cl1 := fst ∘ Prepare prep <$> cl).
  assert (Hlen1 : length cl1 = length cl) by (unfold cl1; by rewrite length_fmap).
  destruct (majority n c) eqn:Hm; cbn [negb].
  - left. set (acc := mkAcceptArgs s k (proposeValue c)).
    rewrite <- Hlen1 in Hperm.
    destruct (broadcast_all (Accept acc) self _ _ cl1 Hf2 Hperm) as (reps2 & -> & Hreps2).
    set (c2 := collect collectAccept n reps2 (startAccept c)).
    assert (Hval : proposeValue c2 = proposeValue c).
    { apply (collect_ind collectAccept n reps2 (fun c2 => proposeValue c2 = proposeValue c)); [done|].
      intros r c0 _ <-. apply collectAccept_value. }
    assert (Hm2 : majority n c2 = true).
    { apply (collect_majority collectAccept okAccept collectAccept_numOk). cbn.
      pose proof (count_accepts _ _ _ _ _ Hreps2).
      apply (collect_majority collectPrepare okPrepare collectPrepare_numOk) in Hm. cbn in Hm.
      rewrite (count_promises _ _ _ _ Hreps) in Hm. lia. }
    rewrite Hm2. cbn [negb]. set (cl2 := fst ∘ Accept acc <$> cl1).
    assert (Hlen2 : length cl2 = length cl1) by (unfold cl2; by rewrite length_fmap).
    rewrite <- Hlen2 in Hperm.
    destruct (broadcast_all (Decide (mkDecideArgs s (proposeValue c2))) self _ _ cl2 Hf3 Hperm)
      as (reps3 & -> & _).
    do 2 eexists. split; [done|]. split_and!.
    + rewrite length_fmap. lia.
    + unfold all_decided. rewrite Forall_fmap. apply Forall_forall. intros p _. apply Decide_slot.
    + rewrite Hval. destruct (collectPrepare_value v n reps) as [Hv|(r & Hr & Hst & Hpos & Hv)].
      { left. exact Hv. }
      right. rewrite Hreps in Hr. apply list_elem_of_fmap in Hr as (p & [= ->] & Hin).
      exists p. split; [done|]. fold c in Hv. rewrite Hv. clear Hv.
      destruct (Prepare_reply (Z.of_nat self) md p) as [Er _]. fold prep in Er.
      rewrite Er in *. destruct (_ <? k); [done|]. by cbn in Hst.
  - right. exists (maxSeqNumHighest c), cl1.
    destruct (failed_prepare _ _ v cl reps Hk Hne Hreps Hm) as ((p0 & Hp0 & E0) & Hge & Hall).
    fold n c in E0, Hge, Hall.
    split; [done|]. split_and!; eauto.
    + exists p0. split; [done|lia].
    + intros p' Hp'. unfold cl1 in Hp'. apply list_elem_of_fmap in Hp' as (p & -> & Hp). cbn.
      destruct (Prepare_reply (Z.of_nat self) md p) as [_ E]. fold prep in E. rewrite E.
      destruct (_ <? k); cbn; [lia|]. by apply Hall.
    + intros w [->|(p' & Hp' & Hpos & ->)]; [by left|right].
      unfold cl1 in Hp'. apply list_elem_of_fmap in Hp' as (p & -> & Hp). exists p. cbn in *.
      destruct (Prepare_reply (Z.of_nat self) md p) as [_ E]. fold prep in E. rewrite E in *.
      by destruct (_ <? k).
Qed.

End reliable_round.

(** A proposer alone with a reliable network needs at most two rounds. *)
Lemma proposeLoop_two_rounds now net self md s v maxHighest cl k :
  let n := Z.of_nat (length cl) in
  (self < length cl)%nat -> (forall j, reliable (net j) (length cl)) ->
  (forall j, 0 <= now j /\ now j * n + Z.of_nat self < 2 ^ 63) ->
  0 <= maxHighest -> maxHighest + n < 2 ^ 63 ->
  (forall p, p ∈ cl -> seqNumHighest (slotOf p s) + n < 2 ^ 63) ->
  exists cl' w, proposeLoop 2 now net k self md s v maxHighest cl = Ret (cl', w) /\
    length cl' = length cl /\ all_decided s w cl' /\ candidate s v cl w.
Proof.
  intros n Hself Hnet Hnow Hm0 Hm Hhi.
  assert (Hn : 0 < n) by (unfold n; lia).
  assert (Hne : cl <> []) by (intros ->; cbn in Hself; lia).
  destruct (nextSeqNum_spec (now k) n (Z.of_nat self) maxHighest) as (k1 & E1 & Hk1 & _ & ? & _);
    try apply Hnow; try lia.
  cbn [proposeLoop]. fold n. rewrite E1. cbn [mbind outcome_bind].
  destruct (reliable_proposeRound s k1 (net k) self md v cl) as
    [(w & cl' & -> & ? & ? & ?)|(h & cl' & -> & Hlen & _ & Hge & (p0 & Hp0 & Eh) & Hall & Hcand)];
    [apply Hnet|lia|done|by exists cl', w|].
  rewrite Hlen. fold n. pose proof (Hhi p0 Hp0).
  destruct (nextSeqNum_spec (now (S k)) n (Z.of_nat self) h) as (k2 & E2 & Hk2 & _ & ? & _);
    try apply Hnow; try lia.
  rewrite E2. cbn [mbind outcome_bind].
  destruct (reliable_proposeRound s k2 (net (S k)) self md v cl') as
    [(w & cl2 & -> & ? & ? & ?)|(h2 & cl2 & _ & _ & (p1 & Hp1 & Hge1) & _)].
  - rewrite Hlen. apply Hnet.
  - lia.
  - intros ->. cbn in Hlen. lia.
  - exists cl2, w. split_and!; auto. congruence.
  - specialize (Hall p1 Hp1). lia.
Qed.

(** ** What a peer never forgets *)

(** Slot by slot: the promise does not go down, a decision is not undone, and
    the accepted number stays at or below the promise. *)
Definition remembers (p p' : px) : Prop :=
  forall s, seqNumHighest (slotOf p s) <= seqNumHighest (slotOf p' s) /\
    (decided p s -> decided p' s) /\
    (seqNumAccepted (slotOf p s) <= seqNumHighest (slotOf p s) ->
     seqNumAccepted (slotOf p' s) <= seqNumHighest (slotOf p' s)).

Lemma remembers_same p p' : (forall s, slotOf p' s = slotOf p s) -> remembers p p'.
Proof. intros Hs s. unfold decided. rewrite Hs. split_and!; auto; lia. Qed.

Lemma remembers_updates s f p p' :
  updates s f p p' ->
  (let t := slotOf p s in seqNumHighest t <= seqNumHighest (f t) /\
     (isDecided t = true -> isDecided (f t) = true) /\
     (seqNumAccepted t <= seqNumHighest t -> seqNumAccepted (f t) <= seqNumHighest (f t))) ->
  remembers p p'.
Proof.
  intros Hu Hf s'. unfold decided. rewrite (Hu s'). case_decide; [by subst|]. split_and!; auto; lia.
Qed.

Lemma step_remembers p p' :
  step p p' -> remembers p p' \/ exists args, p' = (Put args p).1 /\ ~ decided p (pu_SlotNum args).
Proof.
  destruct 1 as [args|args|args|args| | | | | | | |fuel p' r Hm|s|p' Hw];
    try (left; by apply remembers_same).
  - left. pose proof (Prepare_spec args p) as H. destruct (Prepare args p) as [p' r].
    destruct H as (_ & _ & H). destruct (_ <? _) eqn:E; destruct H as [Hu _]; breflect;
      (eapply remembers_updates; [exact Hu|]); cbn; split_and!; auto; lia.
  - left. pose proof (Accept_spec args p) as H. destruct (Accept args p) as [p' r].
    destruct H as (_ & _ & H). destruct (_ <=? _) eqn:E; destruct H as [Hu _]; breflect;
      (eapply remembers_updates; [exact Hu|]); cbn; split_and!; auto; lia.
  - left. pose proof (Decide_spec args p) as H. destruct (Decide args p) as [p' r].
    destruct H as (_ & _ & Hu & _). eapply remembers_updates; [exact Hu|]. cbn. split_and!; auto; lia.
  - pose proof (Put_spec args p) as H. destruct (Put args p) as [p' r] eqn:Ep.
    destruct H as (_ & H). destruct (isDecided _) eqn:E.
    + destruct H as (_ & Hu & _). left. eapply remembers_updates; [exact Hu|]. cbn. split_and!; auto; lia.
    + right. exists args. rewrite Ep. split; [done|]. unfold decided. by rewrite E.
  - left. unfold MinUndecidedSlot in Hm.
    destruct (scanUndecided _ _ _) as [[p1 n]|] eqn:E; [|done]. injection Hm as <- <-.
    apply scanUndecided_spec in E as (Hs & _). by apply remembers_same.
  - left. unfold Status. destruct (isLocked p); [by apply remembers_same|].
    destruct (enter_spec s p) as (p1 & -> & Hs & _). by apply remembers_same.
  - left. unfold Wake in Hw. destruct (deaf p); bind_inv; [|by apply remembers_same].
    destruct (Nat.eqb _ 0); bind_inv. by apply remembers_same.
Qed.

(** ** Properties *)

Definition three : list string := ["a:1"; "b:2"; "c:3"].
Definition freshPeer (i : Z) : px :=
  mkPx None false three i ∅ ∅ false ∅ 0 0.

(** Slot 4: peer 1 accepted number 5, peer 2 promised 900. *)
Definition demoValue (n : Z) : value := Some (mkPaxosValue ReserveTicket n "u" "f" 0 0 1).
Definition demo_cluster : list px :=
  [freshPeer 0; setSlot 4 (mkSlot (demoValue 1) false 5 5) (freshPeer 1);
   setSlot 4 (mkSlot None false 0 900) (freshPeer 2)].
Definition demo_net (j : nat) : network :=
  mkNet (fun _ => Delivered) (fun _ => Delivered) (fun _ => Delivered) [1%nat; 2%nat; 0%nat].

Lemma demo_reliable j : reliable (demo_net j) 3.
Proof.
  split_and!; try done. cbn. change [0%nat; 1%nat; 2%nat] with ([0%nat] ++ [1%nat; 2%nat]).
  by rewrite Permutation_app_comm.
Qed.

(** C15: a proposer alone with a reliable network terminates.  With every RPC
    delivered, no overflow and no other proposer, [startHelper] returns after
    at most two rounds; all peers have then decided the slot on one value,
    which is the proposer's own or one that some peer had accepted. *)
Theorem lone_proposer_decides now net self s v cl :
  let n := Z.of_nat (length cl) in
  (self < length cl)%nat -> (forall j, reliable (net j) (length cl)) ->
  (forall j, 0 <= now j /\ now j * n + Z.of_nat self < 2 ^ 63) ->
  (forall p, p ∈ cl -> 0 <= seqNumHighest (slotOf p s) /\ seqNumHighest (slotOf p s) + n < 2 ^ 63) ->
  exists cl' w, startHelper 2 now net self s v cl = Ret (cl', w) /\ length cl' = length cl /\
    (forall p, p ∈ cl' -> isDecided (slotOf p s) = true /\ slotValue (slotOf p s) = w) /\
    (w = v \/ exists p, p ∈ cl /\ 0 < seqNumAccepted (slotOf p s) /\ w = slotValue (slotOf p s)).
Proof.
  intros n Hself Hnet Hnow Hhi.
  destruct (lookup_lt_is_Some_2 _ _ Hself) as [p Hp].
  assert (Hpin : p ∈ cl) by (by eapply list_elem_of_lookup_2).
  unfold startHelper. rewrite Hp. cbn [deref mbind outcome_bind].
  destruct (enter_spec s p) as (p' & -> & Hs & Hc & _).
  assert (Hback : forall q, q ∈ <[self := p']> cl -> exists q', q' ∈ cl /\ slotOf q s = slotOf q' s).
  { intros q [j Hj]%list_elem_of_lookup. apply list_lookup_insert_Some in Hj as [(_ & <- & _)|[_ Hj]].
    - by exists p.
    - exists q. split; [by eapply list_elem_of_lookup_2|done]. }
  destruct (proposeLoop_two_rounds now net self (map_get 0 (maxDone p') (me p')) s v
              (seqNumHighest (slotOf p s)) (<[self := p']> cl) 0) as (cl' & w & E & Hlen & Hall & Hcand).
  - by rewrite length_insert.
  - intros j. rewrite length_insert. apply Hnet.
  - rewrite length_insert. apply Hnow.
  - by apply Hhi.
  - rewrite length_insert. by apply Hhi.
  - intros q Hq. rewrite length_insert. destruct (Hback q Hq) as (q' & Hq' & ->). by apply Hhi.
  - exists cl', w. rewrite length_insert in Hlen. split_and!; auto.
    + intros q Hq. unfold all_decided in Hall. rewrite Forall_forall in Hall. auto.
    + destruct Hcand as [->|(q & Hq & Hpos & ->)]; [by left|right].
      destruct (Hback q Hq) as (q' & Hq' & Eq). exists q'. rewrite <- Eq. auto.
Qed.

Lemma lone_proposer_decides_witness :
  exists cl' w, startHelper 2 (fun _ => 10) demo_net 0 4 (demoValue 7) demo_cluster = Ret (cl', w) /\
    length cl' = 3%nat.
Proof.
  destruct (lone_proposer_decides (fun _ => 10) demo_net 0 4 (demoValue 7) demo_cluster)
    as (cl' & w & E & Hl & _).
  - cbn. lia.
  - exact demo_reliable.
  - intros j. split; vm_compute; [discriminate|reflexivity].
  - intros p Hp. unfold demo_cluster in Hp. rewrite !elem_of_cons in Hp.
    destruct Hp as [->|[->|[->|Hp]]]; [split; vm_compute; [discriminate|reflexivity]..|by apply not_elem_of_nil in Hp].
  - exists cl', w. split; assumption.
Defined.

(** Sequence numbers obey their rule exactly while [int64] does not
    overflow.  Then the number is above the highest number seen and not below
    the clock's, its residue is the peer's index (so no two peers share a
    number), and a raised number exceeds the highest one by at most the number
    of peers.  With seven peers, though, the clock of April 2014 overflows:
    peer 3 starts from number 1, which has not its residue. *)
Lemma seq_num_rule now n me max :
  0 < n -> 0 <= me < n -> 0 <= now -> now * n + me < 2 ^ 63 -> 0 <= max -> max + n < 2 ^ 63 ->
  (exists k, nextSeqNum now n me max = Ret k /\ max < k /\ k mod n = me /\
     now * n + me <= k < 2 ^ 63 /\ (k = now * n + me \/ k <= max + n)) /\
  nextSeqNum 1398000000000000000 7 3 0 = Ret 1.
Proof.
  intros. split; [by apply nextSeqNum_spec|vm_compute; reflexivity].
Qed.

Lemma seq_num_rule_demo : exists k, nextSeqNum 1398000000000000000 3 2 4194000000000000007 = Ret k /\
  k mod 3 = 2 /\ 4194000000000000007 < k <= 4194000000000000010.
Proof.
  destruct (seq_num_rule 1398000000000000000 3 2 4194000000000000007) as [(k & E & H1 & H2 & H3 & H4) _]; try lia.
  exists k. split; [exact E|split; [exact H2|lia]].
Defined.

(** The slot counters are right.  In every state a peer reaches from
    [Make], [MinUndecidedSlot] terminates within the number of stored slots
    and returns the least slot that is not decided; no decided slot is above
    [maxDecidedSlot], which is itself decided unless it is 0. *)
Lemma slot_counters_correct ps me b p0 p :
  Make ps me b = Ret (inl p0) -> rtc step p0 p ->
  (exists p' r, MinUndecidedSlot (S (size (timeSlot p))) p = Some (p', r) /\ mu_Status r = OK /\
     0 <= mu_SlotNum r /\ ~ decided p (mu_SlotNum r) /\
     (forall s, 0 <= s < mu_SlotNum r -> decided p s)) /\
  (forall s, decided p s -> s <= maxDecidedSlot p) /\
  (maxDecidedSlot p = 0 \/ decided p (maxDecidedSlot p)).
Proof.
  intros Hmk Hr.
  assert (Hc : counters_ok p).
  { eapply (rtc_invariant step); [|by eapply Make_counters|done]. exact counters_step. }
  destruct Hc as [Hmax Hmin Hpos Hreach]. split_and!; auto.
  destruct (scanUndecided_total (S (size (timeSlot p))) (minUndecidedSlot p) p) as [[p' n] E].
  { pose proof (decidedFrom_size (minUndecidedSlot p) p). lia. }
  unfold MinUndecidedSlot. rewrite E. cbn. do 2 eexists. split; [done|]. cbn.
  apply scanUndecided_spec in E as (_ & _ & _ & Hle & Hn & Hall). split_and!; auto; [lia|].
  intros s Hs. destruct (decide (s < minUndecidedSlot p)); [apply Hmin; lia|apply Hall; lia].
Qed.

Definition demo_peer : px := (Decide (mkDecideArgs 2 (demoValue 2)) (Decide (mkDecideArgs 0 (demoValue 1))
  (mkPx None false three 1 ∅ ∅ false (list_to_map ((fun i => (i, -1)) <$> seqZ 0 3)) 0 0)).1).1.

Lemma slot_counters_demo :
  exists p' r, MinUndecidedSlot (S (size (timeSlot demo_peer))) demo_peer = Some (p', r) /\ mu_SlotNum r = 1.
Proof.
  destruct (slot_counters_correct three 1 true _ demo_peer eq_refl) as [(p' & r & E & _) _].
  - eapply rtc_l; [apply step_Decide|]. eapply rtc_l; [apply step_Decide|]. apply rtc_refl.
  - exists p', r. split; [exact E|]. vm_compute in E. injection E as _ <-. reflexivity.
Defined.

(** A peer keeps its promises, except through [Put].  Every RPC and local
    call leaves every slot's promise at least as high, its decision in place
    and its accepted number at or below the promise, unless it is a [Put] on
    an undecided slot, and such a [Put] does break a promise: a slot that
    promised 9 accepts number 6 after it. *)
Lemma peer_keeps_promises :
  (forall p p', step p p' ->
     (forall s, seqNumHighest (slotOf p s) <= seqNumHighest (slotOf p' s) /\
        (decided p s -> decided p' s) /\
        (seqNumAccepted (slotOf p s) <= seqNumHighest (slotOf p s) ->
         seqNumAccepted (slotOf p' s) <= seqNumHighest (slotOf p' s))) \/
     exists args, p' = (Put args p).1 /\ ~ decided p (pu_SlotNum args)) /\
  (let p := (Prepare (mkPrepareArgs 4 9 1 (-1)) (freshPeer 0)).1 in
   pr_Status (Prepare (mkPrepareArgs 4 9 1 (-1)) (freshPeer 0)).2 = OK /\
   ar_Status (Accept (mkAcceptArgs 4 6 (demoValue 1)) p).2 = Reject /\
   ar_Status (Accept (mkAcceptArgs 4 6 (demoValue 1))
                (Put (mkPutArgs 4 (demoValue 2) 5 5) p).1).2 = OK).
Proof. split; [exact step_remembers|]. vm_compute. auto. Qed.

Lemma peer_keeps_promises_demo :
  let p := freshPeer 0 in let p' := (Decide (mkDecideArgs 2 None) p).1 in
  remembers p p' \/ exists args, p' = (Put args p).1 /\ ~ decided p (pu_SlotNum args).
Proof.
  exact (proj1 peer_keeps_promises _ _ (step_Decide (freshPeer 0) (mkDecideArgs 2 None))).
Defined.

End Paxos.
