(* ===== verification/PaxosAdmin.v ===== *)
(** * PaxosAdmin: membership changes ([p3/.../paxosadmin/paxosadmin.go])

    The administration tool talks to the peers over RPC: it shows their slots
    and peer lists, locks them, brings them level and installs a new peer list.
    Peers are found by host and port, so the cluster is a map from addresses to
    peers, and the proposer of [Paxos] is written once more over that map, with
    the peer list and the index each peer itself holds.

    The tool is the only one that acts: what the applications of the peers do
    while it runs, which the lock is there to refuse, is not part of the model.
    What becomes of each RPC and of the messages of each proposal is decided by
    arguments, as are the clock and the order of loops over Go maps. *)
From S2P Require Import Prelude PaxosRpc Paxos.
From Stdlib Require Import OrdersEx.
Open Scope Z_scope.

Module PaxosAdmin.
Import Paxos.

Definition getMax (a b : Z) : Z := if b <? a then a else b.
Definition getMin (a b : Z) : Z := if a <? b then a else b.

Abbreviation peerMap := (gmap string px).

(** A peer answers calls unless it closed its listener. *)
Definition listening (p : px) : bool :=
  match l p with Some Closed => false | _ => true end.

(** ** The proposer over addresses *)

(** [call] of [paxos.go]: dial the peer and run its handler. *)
Definition call {R} (h : px -> px * R) (f : fate) (srv : string) (cl : peerMap)
  : peerMap * option R :=
  match cl !! srv with
  | Some p =>
      if listening p then
        match f with
        | RequestLost => (cl, None)
        | ReplyLost => let '(p, _) := h p in (<[srv := p]> cl, None)
        | Delivered => let '(p, r) := h p in (<[srv := p]> cl, Some r)
        end
      else (cl, None)
  | None => (cl, None)
  end.

(** The call of a peer to its own handler. *)
Definition callSelf {R} (h : px -> px * R) (self : string) (cl : peerMap) : peerMap * option R :=
  match cl !! self with
  | Some p => let '(p, r) := h p in (<[self := p]> cl, Some r)
  | None => (cl, None)
  end.

(** One request to each entry of the list [ps], in the order [order]. *)
Fixpoint broadcast {R} (h : px -> px * R) (self : string) (me : Z) (ps : list string)
    (fates : nat -> fate) (order : list nat) (cl : peerMap) : peerMap * list (option R) :=
  match order with
  | [] => (cl, [])
  | i :: order' =>
      let '(cl, rep) :=
        if Z.of_nat i =? me then callSelf h self cl
        else match ps !! i with
             | Some srv => call h (fates i) srv cl
             | None => (cl, None)
             end in
      let '(cl, reps) := broadcast h self me ps fates order' cl in (cl, rep :: reps)
  end.

Definition proposeRound (net : network) (self : string) (me : Z) (ps : list string)
    (maxDone slotNum seqNum : Z) (v : value) (cl : peerMap) : peerMap * (value + Z) :=
  let n := Z.of_nat (length ps) in
  let prep := mkPrepareArgs slotNum seqNum me maxDone in
  let '(cl, reps) := broadcast (Prepare prep) self me ps (prepare_fate net) (arrival net) cl in
  let c := collect collectPrepare n reps (startPrepare v) in
  if negb (majority n c) then (cl, inr (maxSeqNumHighest c))
  else
    let acc := mkAcceptArgs slotNum seqNum (proposeValue c) in
    let '(cl, reps) := broadcast (Accept acc) self me ps (accept_fate net) (arrival net) cl in
    let c := collect collectAccept n reps (startAccept c) in
    if negb (majority n c) then (cl, inr (maxSeqNumHighest c))
    else
      let dec := mkDecideArgs slotNum (proposeValue c) in
      let '(cl, _) := broadcast (Decide dec) self me ps (decide_fate net) (arrival net) cl in
      (cl, inl (proposeValue c)).

Fixpoint proposeLoop (fuel : nat) (now : nat -> Z) (net : nat -> network) (k : nat)
    (self : string) (me : Z) (ps : list string) (myMaxDone slotNum : Z) (v : value)
    (maxHighest : Z) (cl : peerMap) : outcome peerMap :=
  match fuel with
  | O => Hang
  | S fuel' =>
      seqNum ← nextSeqNum (now k) (Z.of_nat (length ps)) me maxHighest;
      match proposeRound (net k) self me ps myMaxDone slotNum seqNum v cl with
      | (cl, inl _) => Ret cl
      | (cl, inr h) => proposeLoop fuel' now net (S k) self me ps myMaxDone slotNum v h cl
      end
  end.

Definition startHelper (fuel : nat) (now : nat -> Z) (net : nat -> network) (self : string)
    (slotNum : Z) (v : value) (cl : peerMap) : outcome peerMap :=
  p ← deref (cl !! self);
  let '(currTimeSlot, p) := getTimeSlotValue slotNum (getTimeSlotLock slotNum p) in
  proposeLoop fuel now net 0 self (me p) (peers p) (map_get 0 (maxDone p) (me p)) slotNum v
    (seqNumHighest currTimeSlot) (<[self := p]> cl).

(** The reply, or none when the handler returns an error. *)
Definition SyncPaxosValue (fuel : nat) (now : nat -> Z) (net : nat -> network)
    (args : SyncPaxosValueArgs) (self : string) (cl : peerMap)
  : outcome (peerMap * option SyncPaxosValueReply) :=
  let slotNum := sy_SlotNum args in
  let answer (t : timeSlotValue) :=
    mkSyncPaxosValueReply OK (slotValue t) (seqNumAccepted t) (seqNumHighest t) in
  p ← deref (cl !! self);
  let '(slotVal, p) := getTimeSlotValue slotNum (getTimeSlotLock slotNum p) in
  let cl := <[self := p]> cl in
  if isDecided slotVal then Ret (cl, Some (answer slotVal))
  else
    cl ← startHelper fuel now net self slotNum (Some NoOpValue) cl;
    p ← deref (cl !! self);
    let '(slotVal, p) := getTimeSlotValue slotNum p in
    let cl := <[self := p]> cl in
    if isDecided slotVal then Ret (cl, Some (answer slotVal)) else Ret (cl, None).

(** ** The tool *)

(** The peers, the number of calls made so far, and whether this process has
    registered [PaxosValue] with gob. *)
Record world := mkWorld { cluster : peerMap; calls : nat; registered : bool }.

#[export] Instance eta_world : EtaRecord world := fun w =>
  mkWorld (cluster w) (calls w) (registered w).

(** A computation of the tool; its effects stay when it panics. *)
Definition adm (A : Type) : Type := world -> outcome A * world.

#[export] Instance adm_ret : MRet adm := fun A a w => (Ret a, w).
#[export] Instance adm_bind : MBind adm := fun A B f m w =>
  match m w with
  | (Ret a, w) => f a w
  | (Panic, w) => (Panic, w)
  | (Hang, w) => (Hang, w)
  end.

Definition lift {A} (o : outcome A) : adm A := fun w => (o, w).

(** [defer cleanup]: it runs also when the rest panics. *)
Definition defer {A B} (cleanup : adm B) (body : adm A) : adm A := fun w =>
  match body w with
  | (Hang, w) => (Hang, w)
  | (r, w) => let '(_, w) := cleanup w in (r, w)
  end.

Definition register : adm unit := fun w => (Ret tt, w <| registered := true |>).

(** A process that has not registered the type can neither send nor receive an
    [interface{}] that holds one. *)
Definition passes_gob (registered : bool) (vs : list value) : bool :=
  registered || forallb (fun v => match v with None => true | Some _ => false end) vs.

(** What a served call does to the peers. *)
Definition served (R : Type) : Type := string -> peerMap -> outcome (peerMap * option R).

Definition serve {R} (h : px -> px * R) : served R := fun srv cl =>
  match cl !! srv with
  | Some p => let '(p, r) := h p in Ret (<[srv := p]> cl, Some r)
  | None => Ret (cl, None)
  end.

Definition serveMinUndecidedSlot : served MinUndecidedSlotReply := fun srv cl =>
  match cl !! srv with
  | Some p =>
      match MinUndecidedSlot (S (size (timeSlot p))) p with
      | Some (p, r) => Ret (<[srv := p]> cl, Some r)
      | None => Hang
      end
  | None => Ret (cl, None)
  end.

Section tool.
Context (fates : nat -> fate) (now : nat -> nat -> Z) (net : nat -> nat -> network) (fuel : nat).
(** The orders in which Go ranges over a map: a loop of its own for each. *)
Context (range : gmap string (list string) -> list (string * list string)).
Context (rangeKeys : gmap string (list string) -> list (string * list string)).

(** [paxosAdminCall]: the reply, or none when it returns false.  [sent] and
    [carried] are the [interface{}]s in the arguments and in the reply.  A
    handler that panics takes its peer down. *)
Definition paxosAdminCall {R} (srv : string) (h : nat -> served R) (sent : list value)
    (carried : R -> list value) : adm (option R) := fun w =>
  let k := calls w in
  let w := w <| calls := S k |> in
  match cluster w !! srv with
  | Some p =>
      if listening p && passes_gob (registered w) sent then
        match fates k with
        | RequestLost => (Ret None, w)
        | f =>
            match h k srv (cluster w) with
            | Ret (cl, rep) =>
                (Ret (match f, rep with
                      | Delivered, Some r =>
                          if passes_gob (registered w) (carried r) then Some r else None
                      | _, _ => None
                      end), w <| cluster := cl |>)
            | Panic => (Ret None, w <| cluster := delete srv (cluster w) |>)
            | Hang => (Hang, w)
            end
        end
      else (Ret None, w)
  | None => (Ret None, w)
  end.

(** A call of a handler of one peer without [interface{}]s. *)
Definition plainCall {R} (srv : string) (h : px -> px * R) : adm (option R) :=
  paxosAdminCall srv (fun _ => serve h) [] (fun _ => []).

Fixpoint showSlotLoop (ps : list string) (allSlotValue : gmap string (list SlotValue))
  : adm (gmap string (list SlotValue) + string) :=
  match ps with
  | [] => mret (inl allSlotValue)
  | srv :: ps' =>
      reply ← paxosAdminCall srv (fun _ => serve CheckSlot) [] (fun r => Value <$> ck_Slot r);
      match reply with
      | Some r =>
          if ck_Status r =? OK then showSlotLoop ps' (<[srv := ck_Slot r]> allSlotValue)
          else mret (inr "Showallslot error")
      | None => showSlotLoop ps' allSlotValue
      end
  end.

Definition ShowSlot (ps : list string) : adm (gmap string (list SlotValue) + string) :=
  _ ← register; showSlotLoop ps ∅.

Fixpoint showLoop (ps : list string) (goodPeers : gmap string (list string))
    (badPeers : list string) : adm (gmap string (list string) * list string) :=
  match ps with
  | [] => mret (goodPeers, badPeers)
  | srv :: ps' =>
      reply ← plainCall srv CheckStatus;
      match reply with
      | Some r => showLoop ps' (<[srv := cs_Peers r]> goodPeers) badPeers
      | None => showLoop ps' goodPeers (badPeers ++ [srv])
      end
  end.

Definition ShowPeers (ps : list string) : adm (gmap string (list string) * list string) :=
  showLoop ps ∅ [].

Definition errorOf (errMsg : string) : option string :=
  if String.eqb errMsg EmptyString then None else Some errMsg.

Fixpoint lockLoop (i : nat) (ps : list string) (v : bool) (errMsg : string) : adm string :=
  match ps with
  | [] => mret errMsg
  | srv :: ps' =>
      reply ← plainCall srv (SetLock (mkSetLockArgs v));
      lockLoop (S i) ps' v
        (match reply with
         | Some _ => errMsg
         | None => errMsg +:+ "cannot connect to peer " +:+ pretty i
         end)
  end.

Definition lockPeers (ps : list string) (v : bool) : adm (option string) :=
  errMsg ← lockLoop 0 ps v EmptyString; mret (errorOf errMsg).

Definition max_int32 : Z := 2 ^ 31 - 1.
Definition min_int32 : Z := - 2 ^ 31.

Definition minError : string :=
  "error occurs when trying to get minimal undecided slot from peer ".
Definition maxError : string :=
  "error occurs when trying to get maximal decided slot from peer ".

(** The first loop of [syncPeers]. *)
Fixpoint boundsLoop (ps : list string) (minUndecidedSlot maxDecidedSlot : Z) (errMsg : string)
  : adm (Z * Z * string) :=
  match ps with
  | [] => mret (minUndecidedSlot, maxDecidedSlot, errMsg)
  | srv :: ps' =>
      minReply ← paxosAdminCall srv (fun _ => serveMinUndecidedSlot) [] (fun _ => []);
      let '(minUndecidedSlot, errMsg) :=
        match minReply with
        | Some r => if mu_Status r =? Reject then (minUndecidedSlot, errMsg +:+ minError +:+ srv)
                    else (getMin minUndecidedSlot (mu_SlotNum r), errMsg)
        | None => (minUndecidedSlot, errMsg +:+ minError +:+ srv)
        end in
      maxReply ← plainCall srv MaxDecidedSlot;
      let '(maxDecidedSlot, errMsg) :=
        match maxReply with
        | Some r => if md_Status r =? Reject then (maxDecidedSlot, errMsg +:+ maxError +:+ srv)
                    else (getMax maxDecidedSlot (md_SlotNum r), errMsg)
        | None => (maxDecidedSlot, errMsg +:+ maxError +:+ srv)
        end in
      boundsLoop ps' minUndecidedSlot maxDecidedSlot errMsg
  end.

(** The SyncPaxosValue RPC of slot [i]; none also when its status is Reject. *)
Definition syncCall (srv : string) (i : Z) : adm (option SyncPaxosValueReply) :=
  reply ← paxosAdminCall srv
            (fun k => SyncPaxosValue fuel (now k) (net k) (mkSyncPaxosValueArgs i)) []
            (fun r => [syr_SyncedValue r]);
  mret (r ← reply; if syr_Status r =? Reject then None else Some r).

(** The inner loop of the second loop: the message of a failure names
    [peers[i]], where [i] is the number of the slot. *)
Fixpoint syncSlot (all : list string) (i : Z) (ps : list string) (errMsg : string) : adm string :=
  match ps with
  | [] => mret errMsg
  | srv :: ps' =>
      reply ← syncCall srv i;
      errMsg ← match reply with
               | Some _ => mret errMsg
               | None =>
                   name ← lift (deref (if i <? 0 then None else all !! Z.to_nat i));
                   mret (errMsg +:+ "error occurs when trying to sync gapped slot " +:+ pretty i
                           +:+ " on peer " +:+ name)
               end;
      syncSlot all i ps' errMsg
  end.

Fixpoint syncSlots (all : list string) (slots : list Z) (errMsg : string) : adm string :=
  match slots with
  | [] => mret errMsg
  | i :: slots' => errMsg ← syncSlot all i all errMsg; syncSlots all slots' errMsg
  end.

(** The integers from [a] to [b], both included. *)
Definition upTo (a b : Z) : list Z := seqZ a (b - a + 1).

Definition syncPeers (ps : list string) : adm (Z * Z * option string) :=
  '(minUndecidedSlot, maxDecidedSlot, errMsg) ← boundsLoop ps max_int32 min_int32 EmptyString;
  errMsg ← syncSlots ps (upTo minUndecidedSlot maxDecidedSlot) errMsg;
  match errorOf errMsg with
  | None => mret (minUndecidedSlot, maxDecidedSlot, None)
  | Some e => mret (0, 0, Some e)
  end.

(** [>] on strings. *)
Definition strgt (a b : string) : bool := String.ltb b a.

(** The answer, and the two slices, which are sorted in place. *)
Definition sliceEqual (slice1 slice2 : list string) : bool * list string * list string :=
  if negb (Nat.eqb (length slice1) (length slice2)) then (false, slice1, slice2)
  else
    let slice1 := exch_sort strgt slice1 in
    let slice2 := exch_sort strgt slice2 in
    (bool_decide (slice1 = slice2), slice1, slice2).

(** The loop of [AddPeer] and [RemovePeer] that compares every peer's list with
    the one given, which it sorts. *)
Fixpoint consistent (lists : list (list string)) (ps : list string) : bool * list string :=
  match lists with
  | [] => (true, ps)
  | peersList :: lists' =>
      let '(b, _, ps) := sliceEqual peersList ps in
      if b then consistent lists' ps else (false, ps)
  end.

Definition inconsistent : string :=
  "The peers list in some Paxos peer is not consistent with the peers list given, please re-check the peers list on all Paxos peers and update the unconsistent one".

(** The UpdatePeers RPC; false also when its status is Reject. *)
Definition updateCall (srv : string) (ps : list string) (me : Z) : adm bool :=
  reply ← plainCall srv (UpdatePeers (mkUpdatePeersArgs ps me));
  mret (match reply with Some r => negb (upr_Status r =? Reject) | None => false end).

Fixpoint updateLoop (newPeers : list string) (i : nat) (ps : list string) : adm (option string) :=
  match ps with
  | [] => mret None
  | srv :: ps' =>
      ok ← updateCall srv newPeers (Z.of_nat i);
      if ok : bool then updateLoop newPeers (S i) ps'
      else mret (Some "error occurs when updating peers in AddPeer")
  end.

Definition putCall (srv : string) (i : Z) (r : SyncPaxosValueReply) : adm bool :=
  reply ← paxosAdminCall srv
            (fun _ => serve (Put (mkPutArgs i (syr_SyncedValue r) (syr_SeqNumAccepted r)
                                    (syr_SeqNumHighest r))))
            [syr_SyncedValue r] (fun _ => []);
  mret (match reply with Some r => negb (pur_Status r =? Reject) | None => false end).

(** The last loop of [AddPeer]: copy the slots from the first peer. *)
Fixpoint copyLoop (first addPeer : string) (slots : list Z) : adm (option string) :=
  match slots with
  | [] => mret None
  | i :: slots' =>
      reply ← syncCall first i;
      match reply with
      | None => mret (Some "error occurs when trying to sync all slots from one paxos peer to the new added peer")
      | Some r =>
          ok ← putCall addPeer i r;
          if ok : bool then copyLoop first addPeer slots'
          else mret (Some ("slot:" +:+ pretty i +:+ "error occurs when trying to put all slots from one paxos peer to the new added peer"))
      end
  end.

(** What [AddPeer] does under its deferred unlock. *)
Definition addUnderLock (ps newPeers : list string) (addPeer : string) (err : option string)
  : adm (option string) :=
  match err with
  | Some e => mret (Some e)
  | None =>
      '(_, maxDecidedSlot, err) ← syncPeers ps;
      match err with
      | Some e => mret (Some e)
      | None =>
          err ← updateLoop newPeers 0 ps;
          match err with
          | Some e => mret (Some e)
          | None =>
              _ ← updateCall addPeer newPeers (Z.of_nat (length newPeers) - 1);
              match ps with
              | first :: _ => copyLoop first addPeer (upTo 0 maxDecidedSlot)
              | [] => mret None
              end
          end
      end
  end.

Definition AddPeer (ps : list string) (addPeer : string) : adm (option string) :=
  _ ← lockPeers ps false;
  _ ← register;
  match ps with
  | [] => mret (Some "number of existing paxos peers cannot be zero")
  | _ =>
      '(goodPeersmap, _) ← ShowPeers ps;
      if Nat.ltb (size goodPeersmap) (length ps)
      then mret (Some "Some Paxos peers in the peers list given are not working, which is not permitted when adding new Paxos node, you must first remove these un-working Paxos nodes")
      else
        let '(ok, ps) := consistent (range goodPeersmap).*2 ps in
        if negb ok then mret (Some inconsistent)
        else
          let newPeers := ps ++ [addPeer] in
          err ← lockPeers newPeers true;
          defer (lockPeers newPeers false) (addUnderLock ps newPeers addPeer err)
  end.

(** The last loop of [RemovePeer]: a peer that is not working may fail. *)
Fixpoint updateGood (newPeers : list string) (goodPeersSet : gset string) (i : nat)
    (ps : list string) : adm (option string) :=
  match ps with
  | [] => mret None
  | srv :: ps' =>
      ok ← updateCall srv newPeers (Z.of_nat i);
      if negb ok && bool_decide (srv ∈ goodPeersSet)
      then mret (Some ("error occurs when updating peers on paxos peer " +:+ srv +:+ " in RemovePeer"))
      else updateGood newPeers goodPeersSet (S i) ps'
  end.

Definition removeUnderLock (ps goodPeers : list string) (removePeer : string)
  : adm (option string) :=
  '(_, _, err) ← syncPeers goodPeers;
  match err with
  | Some e => mret (Some e)
  | None =>
      let newPeers := filter (fun srv => srv <> removePeer) ps in
      updateGood newPeers (list_to_set goodPeers) 0 newPeers
  end.

Definition RemovePeer (ps : list string) (removePeer : string) : adm (option string) :=
  _ ← lockPeers ps false;
  _ ← plainCall removePeer RemoteKill;
  '(goodPeersmap, _) ← ShowPeers ps;
  let '(ok, ps) := consistent (range goodPeersmap).*2 ps in
  if negb ok then mret (Some inconsistent)
  else if negb (bool_decide (removePeer ∈ ps))
  then mret (Some "the hostport of removed peer is not in the list of peers given")
  else
    let goodPeers := (rangeKeys goodPeersmap).*1 in
    _ ← lockPeers goodPeers true;
    defer (lockPeers goodPeers false) (removeUnderLock ps goodPeers removePeer).

(** The index of the last entry equal to [peerme]. *)
Fixpoint findMe (peerme : string) (i me : Z) (ps : list string) : Z :=
  match ps with
  | [] => me
  | srv :: ps' => findMe peerme (i + 1) (if String.eqb srv peerme then i else me) ps'
  end.

Fixpoint changeLoop (all : list string) (me : Z) (ps : list string) : adm unit :=
  match ps with
  | [] => mret tt
  | srv :: ps' => _ ← updateCall srv all me; changeLoop all me ps'
  end.

Definition ChangePeer (ps : list string) (peerme : string) : adm (option string) :=
  _ ← lockPeers ps false;
  _ ← register;
  match ps with
  | [] => mret (Some "number of existing paxos peers cannot be zero")
  | _ =>
      _ ← lockPeers ps true;
      defer (lockPeers ps false)
        (_ ← changeLoop ps (findMe peerme 0 0 ps) ps; mret None)
  end.

End tool.

(** ** What a proposal may change *)

(** A step of a peer that is about slot [s] only. *)
Record slot_step (s : Z) (p p' : px) : Prop := {
  ss_control : same_control p p';
  ss_listener : l p' = l p;
  ss_others : forall s', s' <> s -> slotOf p' s' = slotOf p s';
  ss_decided : decided p s -> decided p' s;
  ss_max : maxDecidedSlot p <= maxDecidedSlot p' }.

#[export] Instance slot_step_preorder s : PreOrder (slot_step s).
Proof.
  split; [split; try done; lia|].
  intros p1 p2 p3 [C1 L1 O1 D1 M1] [C2 L2 O2 D2 M2].
  split; [by eapply same_control_trans|congruence| |auto|lia].
  intros s' Hs. by rewrite O2, O1.
Qed.

Lemma slot_step_enter s p p' t :
  getTimeSlotValue s (getTimeSlotLock s p) = (t, p') -> slot_step s p p' /\ t = slotOf p s /\
  slotOf p' s = t.
Proof.
  intros E. destruct (enter_spec s p) as (p1 & E1 & Hs & Hc & Hm). rewrite E in E1.
  injection E1 as -> <-. split; [|split; [done|by rewrite Hs]].
  split; [done| |auto| |lia].
  - revert E. unfold getTimeSlotValue. case_match; intros [= _ <-]; done.
  - unfold decided. by rewrite Hs.
Qed.

Lemma slot_step_fetch s p p' t :
  getTimeSlotValue s p = (t, p') -> slot_step s p p' /\ t = slotOf p s /\ slotOf p' s = t.
Proof.
  unfold getTimeSlotValue, slotOf. destruct (timeSlot p !! s) as [t'|] eqn:E.
  - intros [= <- <-]. rewrite E. split; [reflexivity|done].
  - intros [= <- <-]. cbn. rewrite lookup_insert_eq. split; [|done].
    split; try done.
    + intros s' Hs. unfold slotOf. cbn. by rewrite lookup_insert_ne.
    + unfold decided, slotOf. cbn. by rewrite lookup_insert_eq, E.
Qed.

Lemma slot_step_updates s f p p' :
  same_control p p' -> l p' = l p -> maxDecidedSlot p <= maxDecidedSlot p' ->
  updates s f p p' -> (isDecided (slotOf p s) = true -> isDecided (f (slotOf p s)) = true) ->
  slot_step s p p'.
Proof.
  intros Hc Hl Hm Hu Hf. split; [done|done| | |done].
  - intros s' Hs. rewrite (Hu s'). by rewrite decide_False.
  - unfold decided. rewrite (Hu s). by rewrite decide_True.
Qed.

Lemma Prepare_step args p : slot_step (pa_SlotNum args) p (Prepare args p).1.
Proof.
  assert (Hl : l (Prepare args p).1 = l p).
  { unfold Prepare, getTimeSlotValue. by repeat (case_match; simplify_eq). }
  pose proof (Prepare_spec args p) as H. destruct (Prepare args p) as [p' r].
  destruct H as (Hc & Hm & H). cbn [fst] in *.
  destruct (_ <? _); destruct H as [Hu _]; eapply slot_step_updates; eauto; lia.
Qed.

Lemma Accept_step args p : slot_step (aa_SlotNum args) p (Accept args p).1.
Proof.
  assert (Hl : l (Accept args p).1 = l p).
  { unfold Accept, getTimeSlotValue. by repeat (case_match; simplify_eq). }
  pose proof (Accept_spec args p) as H. destruct (Accept args p) as [p' r].
  destruct H as (Hc & Hm & H). cbn [fst] in *.
  destruct (_ <=? _); destruct H as [Hu _]; eapply slot_step_updates; eauto; lia.
Qed.

Lemma Decide_step args p : slot_step (da_SlotNum args) p (Decide args p).1.
Proof.
  assert (Hl : l (Decide args p).1 = l p).
  { unfold Decide, getTimeSlotValue. by repeat (case_match; simplify_eq). }
  pose proof (Decide_spec args p) as H. destruct (Decide args p) as [p' r].
  destruct H as (Hc & Hm & Hu & _). cbn [fst] in *.
  eapply slot_step_updates; eauto. rewrite Hm, Paxos.getMax_spec. lia.
Qed.

Lemma Put_step args p : slot_step (pu_SlotNum args) p (Put args p).1.
Proof.
  assert (Hl : l (Put args p).1 = l p).
  { unfold Put, getTimeSlotValue. by repeat (case_match; simplify_eq). }
  pose proof (Put_spec args p) as H. destruct (Put args p) as [p' r].
  destruct H as (Hc & H). cbn [fst] in *.
  destruct (isDecided _) eqn:E; destruct H as (Hm & Hu & _); eapply slot_step_updates; eauto;
    rewrite Hm, ?Paxos.getMax_spec; lia.
Qed.

(** A cluster after messages about slot [s]: the same peers, each changed at
    that slot only. *)
Definition touches (s : Z) (cl cl' : peerMap) : Prop :=
  forall a, option_Forall2 (slot_step s) (cl !! a) (cl' !! a).

#[export] Instance touches_preorder s : PreOrder (touches s).
Proof.
  split.
  - intros cl a. destruct (cl !! a); constructor. reflexivity.
  - intros c1 c2 c3 H1 H2 a. specialize (H1 a). specialize (H2 a).
    destruct H1 as [p1 p2 H1|]; inversion H2; subst; constructor. by etransitivity.
Qed.

Lemma touches_insert s cl a p p' :
  cl !! a = Some p -> slot_step s p p' -> touches s cl (<[a := p']> cl).
Proof.
  intros Ha Hp b. destruct (decide (a = b)) as [<-|Hne].
  - rewrite lookup_insert_eq, Ha. by constructor.
  - rewrite lookup_insert_ne by done. destruct (cl !! b); constructor. reflexivity.
Qed.

Lemma touches_Some s cl cl' a p : touches s cl cl' -> cl !! a = Some p ->
  exists p', cl' !! a = Some p' /\ slot_step s p p'.
Proof. intros H Ha. specialize (H a). rewrite Ha in H. inversion H; subst. eauto. Qed.

Section about_slot.
Context (s : Z) {R : Type} (h : px -> px * R) (Hh : forall p, slot_step s p (h p).1).

Lemma call_touches f srv cl : touches s cl (call h f srv cl).1.
Proof.
  unfold call. destruct (cl !! srv) as [p|] eqn:E; [|reflexivity].
  specialize (Hh p). destruct (h p) as [p' r]. cbn [fst] in Hh.
  destruct (listening p), f; try reflexivity; by eapply touches_insert.
Qed.

Lemma callSelf_touches self cl : touches s cl (callSelf h self cl).1.
Proof.
  unfold callSelf. destruct (cl !! self) as [p|] eqn:E; [|reflexivity].
  specialize (Hh p). destruct (h p) as [p' r]. by eapply touches_insert.
Qed.

Lemma broadcast_touches self me ps fates order : forall cl,
  touches s cl (broadcast h self me ps fates order cl).1.
Proof.
  induction order as [|i order IH]; intros cl; cbn [broadcast]; [reflexivity|].
  assert (H1 : touches s cl
    (if Z.of_nat i =? me then callSelf h self cl
     else match ps !! i with Some srv => call h (fates i) srv cl | None => (cl, None) end).1).
  { destruct (_ =? _); [apply callSelf_touches|]. destruct (ps !! i); [apply call_touches|reflexivity]. }
  destruct (if Z.of_nat i =? me then _ else _) as [cl1 rep]. cbn [fst] in H1.
  specialize (IH cl1). destruct (broadcast h self me ps fates order cl1). cbn [fst] in *.
  by etransitivity.
Qed.

End about_slot.

Lemma proposeRound_touches net self me ps md s k v cl :
  touches s cl (proposeRound net self me ps md s k v cl).1.
Proof.
  unfold proposeRound.
  pose proof (broadcast_touches s _ (Prepare_step (mkPrepareArgs s k me md)) self me ps
                (prepare_fate net) (arrival net) cl) as H1.
  destruct (broadcast _ _ _ _ _ _ cl) as [cl1 reps]. cbn [fst] in H1.
  destruct (negb _); [done|].
  set (w := proposeValue _).
  pose proof (broadcast_touches s _ (Accept_step (mkAcceptArgs s k w)) self me ps
                (accept_fate net) (arrival net) cl1) as H2.
  destruct (broadcast _ _ _ _ _ _ cl1) as [cl2 reps2]. cbn [fst] in H2.
  destruct (negb _); [by etransitivity|]. cbn zeta.
  set (w2 := proposeValue _).
  pose proof (broadcast_touches s _ (Decide_step (mkDecideArgs s w2)) self me ps
                (decide_fate net) (arrival net) cl2) as H3.
  destruct (broadcast _ _ _ _ _ _ cl2) as [cl3 reps3]. cbn [fst] in *.
  by do 2 (etransitivity; [eassumption|]).
Qed.

Lemma proposeLoop_touches fuel now net self me ps md s v : forall k mh cl cl',
  proposeLoop fuel now net k self me ps md s v mh cl = Ret cl' -> touches s cl cl'.
Proof.
  induction fuel as [|fuel IH]; intros k mh cl cl'; cbn [proposeLoop]; [done|].
  intros (seqNum & _ & H)%bind_Ret_inv.
  pose proof (proposeRound_touches (net k) self me ps md s seqNum v cl) as H1.
  destruct (proposeRound _ _ _ _ _ _ _ _ _) as [cl1 [w|h]]; cbn [fst] in H1.
  - by injection H as <-.
  - etransitivity; [done|eauto].
Qed.

Lemma proposeLoop_panics fuel now net self me ps md s v : forall k mh cl,
  proposeLoop fuel now net k self me ps md s v mh cl = Panic -> ps = [].
Proof.
  induction fuel as [|fuel IH]; intros k mh cl; cbn [proposeLoop]; [done|].
  destruct (nextSeqNum _ _ _ _) eqn:E; cbn [mbind outcome_bind]; [|intros _|done].
  - destruct (proposeRound _ _ _ _ _ _ _ _ _) as [cl1 [w|h]]; [done|apply IH].
  - unfold nextSeqNum in E. destruct (_ <=? _); [|done]. destruct (_ =? 0) eqn:En; [|done].
    breflect. by destruct ps.
Qed.

Lemma startHelper_touches fuel now net self s v cl cl' :
  startHelper fuel now net self s v cl = Ret cl' -> touches s cl cl'.
Proof.
  unfold startHelper. intros (p & Hp%deref_Ret_inv & H)%bind_Ret_inv.
  destruct (getTimeSlotValue _ _) as [t p'] eqn:Ep.
  apply slot_step_enter in Ep as [Hstep _]. apply proposeLoop_touches in H.
  etransitivity; [by eapply touches_insert|done].
Qed.

(** [SyncPaxosValue] changes one slot, reports what that slot holds decided, and
    panics only at a peer without a peer list. *)
Lemma SyncPaxosValue_spec fuel now net s self cl p :
  cl !! self = Some p ->
  match SyncPaxosValue fuel now net (mkSyncPaxosValueArgs s) self cl with
  | Ret (cl', rep) => touches s cl cl' /\
      forall r, rep = Some r -> exists p', cl' !! self = Some p' /\ decided p' s /\
        r = mkSyncPaxosValueReply OK (slotValue (slotOf p' s)) (seqNumAccepted (slotOf p' s))
              (seqNumHighest (slotOf p' s))
  | Panic => peers p = []
  | Hang => True
  end.
Proof.
  intros Hp. unfold SyncPaxosValue. cbn [sy_SlotNum]. rewrite Hp. cbn [deref mbind outcome_bind].
  destruct (getTimeSlotValue _ _) as [t p1] eqn:Ep. apply slot_step_enter in Ep as (Hstep & Ht & Ht1).
  assert (H1 : touches s cl (<[self := p1]> cl)) by (by eapply touches_insert).
  destruct (isDecided t) eqn:Ed.
  { split; [done|]. intros r [= <-]. exists p1. rewrite lookup_insert_eq, Ht1. unfold decided.
    by rewrite Ht1. }
  destruct (startHelper _ _ _ _ _ _ _) as [cl2| |] eqn:Es; cbn [mbind outcome_bind]; [| |done].
  - apply startHelper_touches in Es.
    destruct (touches_Some s _ cl2 self p1 Es (lookup_insert_eq _ _ _)) as (p2 & Hp2 & _).
    rewrite Hp2. cbn [deref mbind outcome_bind].
    destruct (getTimeSlotValue s p2) as [t3 p3] eqn:E3. apply slot_step_fetch in E3 as (Hs3 & Ht3 & Ht4).
    assert (H3 : touches s cl (<[self := p3]> cl2)).
    { do 2 (etransitivity; [eassumption|]). by eapply touches_insert. }
    destruct (isDecided t3) eqn:Ed3; (split; [done|]); intros r [= <-].
    exists p3. rewrite lookup_insert_eq, Ht4. unfold decided. by rewrite Ht4.
  - unfold startHelper in Es. rewrite lookup_insert_eq in Es. cbn [deref mbind outcome_bind] in Es.
    destruct (getTimeSlotValue s (getTimeSlotLock s p1)) as [t2 p2] eqn:E2.
    apply slot_step_enter in E2 as (Hs2 & _). apply proposeLoop_panics in Es.
    assert (Hc : same_control p p2).
    { eapply same_control_trans; [apply Hstep|apply Hs2]. }
    destruct Hc as (_ & Hc & _). congruence.
Qed.

(** ** Reasoning about the tool *)

(** When [m] returns from a cluster that satisfies [P], its result and the
    cluster satisfy [Q]. *)
Definition triple {A} (P : peerMap -> Prop) (m : adm A) (Q : A -> peerMap -> Prop) : Prop :=
  forall w, P (cluster w) -> match m w with (Ret a, w') => Q a (cluster w') | _ => True end.

Lemma triple_ret {A} (P : peerMap -> Prop) (a : A) (Q : A -> peerMap -> Prop) :
  (forall cl, P cl -> Q a cl) -> triple P (mret a) Q.
Proof. intros H w Hw. by apply H. Qed.

Lemma triple_bind {A B} P (m : adm A) (f : A -> adm B) Q R :
  triple P m Q -> (forall a, triple (Q a) (f a) R) -> triple P (m ≫= f) R.
Proof.
  intros Hm Hf w Hw. specialize (Hm w Hw). unfold mbind, adm_bind.
  destruct (m w) as [[a| |] w']; [|done|done]. by apply (Hf a).
Qed.

Lemma triple_conseq {A} (P P' : peerMap -> Prop) (m : adm A) (Q Q' : A -> peerMap -> Prop) :
  triple P' m Q' -> (forall cl, P cl -> P' cl) -> (forall a cl, Q' a cl -> Q a cl) -> triple P m Q.
Proof.
  intros Hm HP HQ w Hw. specialize (Hm w (HP _ Hw)). destruct (m w) as [[a| |] w']; auto.
Qed.

Lemma triple_pre {A} (P P' : peerMap -> Prop) (m : adm A) Q :
  triple P' m Q -> (forall cl, P cl -> P' cl) -> triple P m Q.
Proof. intros Hm HP w Hw. apply Hm. auto. Qed.

Lemma triple_defer {A B} P (c : adm B) (m : adm A) Q :
  triple P m Q -> (forall a, triple (Q a) c (fun _ => Q a)) -> (forall w, exists b w', c w = (Ret b, w')) ->
  triple P (defer c m) Q.
Proof.
  intros Hm Hc Hret w Hw. specialize (Hm w Hw). unfold defer.
  destruct (m w) as [[a| |] w']; [|by destruct (c w')|done].
  specialize (Hc a w' Hm). destruct (Hret w') as (b & w2 & E). by rewrite E in *.
Qed.

(** A fact that does not mention the cluster can be taken out. *)
Lemma triple_pure {A} (F : Prop) P (m : adm A) Q :
  (F -> triple P m Q) -> triple (fun cl => F /\ P cl) m Q.
Proof. intros H w [HF HP]. by apply H. Qed.

(** ** Comparing peer lists *)

(** A map over the entries of a list that is as large as the list. *)
Lemma list_set_size (ls : list string) :
  (size (list_to_set (C := gset string) ls) <= length ls)%nat /\
  ((length ls <= size (list_to_set (C := gset string) ls))%nat -> NoDup ls).
Proof.
  induction ls as [|x ls [IH1 IH2]]; cbn; [rewrite size_empty; split; [lia|constructor]|].
  destruct (decide (x ∈ ls)) as [Hx|Hx].
  - assert (E : {[x]} ∪ list_to_set (C := gset string) ls = list_to_set ls) by set_solver.
    rewrite E. split; [lia|]. intros. lia.
  - rewrite size_union by set_solver. rewrite size_singleton. split; [lia|].
    intros. constructor; [done|]. apply IH2. lia.
Qed.

Lemma all_answered {A} (good : gmap string A) ps :
  dom good ⊆ list_to_set ps -> (length ps <= size good)%nat ->
  NoDup ps /\ forall srv, srv ∈ ps -> is_Some (good !! srv).
Proof.
  intros Hd Hs. rewrite <- size_dom in Hs. destruct (list_set_size ps) as [Hle Hnd].
  pose proof (subseteq_size _ _ Hd). split; [apply Hnd; lia|].
  assert (E : dom good = list_to_set ps).
  { apply set_subseteq_size_eq; [done|]. lia. }
  intros srv Hsrv. apply elem_of_dom. rewrite E. by apply elem_of_list_to_set.
Qed.

Lemma strgt_lt a b : strgt a b = true <-> String_as_OT.lt b a.
Proof.
  unfold strgt, String.ltb.
  change (match String_as_OT.compare b a with Lt => true | _ => false end = true <-> String_as_OT.lt b a).
  unfold String_as_OT.lt. by destruct (String_as_OT.compare b a).
Qed.

Lemma strgt_cases a b : strgt a b = false -> strgt b a = true \/ a = b.
Proof.
  intros H. destruct (String_as_OT.compare_spec a b) as [E|E|E].
  - by right.
  - left. by apply strgt_lt.
  - apply strgt_lt in E. congruence.
Qed.

(** Not greater: a total order. *)
Definition strle (a b : string) : Prop := strgt a b = false.

#[export] Instance strle_trans : Transitive strle.
Proof.
  intros a b c [Hab| ->]%strgt_cases [Hbc| ->]%strgt_cases; unfold strle.
  - apply strgt_lt in Hab, Hbc. apply not_true_iff_false. intros Hc%strgt_lt.
    apply (StrictOrder_Irreflexive a). do 2 (etransitivity; [eassumption|]). done.
  - apply strgt_lt in Hab. apply not_true_iff_false. intros Hc%strgt_lt.
    apply (StrictOrder_Irreflexive a). etransitivity; eassumption.
  - apply strgt_lt in Hbc. apply not_true_iff_false. intros Hc%strgt_lt.
    apply (StrictOrder_Irreflexive b). etransitivity; eassumption.
  - apply not_true_iff_false. intros Hc%strgt_lt. by apply (StrictOrder_Irreflexive c).
Qed.

#[export] Instance strle_antisymm : AntiSymm (=) strle.
Proof.
  intros a b [Hab| ->]%strgt_cases Hba; [|done]. unfold strle in Hba. congruence.
Qed.

Lemma strgt_asym x y : strgt x y = true -> strle y x.
Proof.
  intros H%strgt_lt. apply not_true_iff_false. intros H2%strgt_lt.
  apply (StrictOrder_Irreflexive x). by transitivity y.
Qed.

Lemma sort_strings_sorted ls : StronglySorted strle (exch_sort strgt ls).
Proof. apply exch_sort_sorted; [apply _|exact strgt_asym|done]. Qed.

(** [sliceEqual] compares up to the order. *)
Lemma sliceEqual_spec l1 l2 :
  let '(b, l1', l2') := sliceEqual l1 l2 in
  b = bool_decide (l1 ≡ₚ l2) /\ l1' ≡ₚ l1 /\ l2' ≡ₚ l2.
Proof.
  unfold sliceEqual. destruct (negb _) eqn:El; breflect.
  - apply Nat.eqb_neq in El. split_and!; try done. symmetry. apply bool_decide_eq_false.
    intros H%Permutation_length. done.
  - split_and!; [|apply exch_sort_perm..]. apply bool_decide_ext. split.
    + intros E. by rewrite <- (exch_sort_perm strgt l1), E, exch_sort_perm.
    + intros E. apply (StronglySorted_unique strle); [apply sort_strings_sorted..|].
      by rewrite !exch_sort_perm.
Qed.

Lemma consistent_spec lists : forall ps,
  let '(b, ps') := consistent lists ps in
  ps' ≡ₚ ps /\ (b = true <-> Forall (fun ls => ls ≡ₚ ps) lists).
Proof.
  induction lists as [|ls lists IH]; intros ps; cbn [consistent].
  { split; [done|]. split; [constructor|done]. }
  pose proof (sliceEqual_spec ls ps) as H. destruct (sliceEqual ls ps) as [[b l1] ps1].
  destruct H as (-> & _ & Hp). case_bool_decide as Hb.
  - specialize (IH ps1). destruct (consistent lists ps1) as [b' ps']. destruct IH as [Hp' ->].
    split; [by rewrite Hp'|]. rewrite Forall_cons. setoid_rewrite Hp. naive_solver.
  - split; [done|]. rewrite Forall_cons. naive_solver.
Qed.

(** Once one list has been compared, the list given is sorted. *)
Lemma consistent_sorted lists : forall ps,
  StronglySorted strle ps \/ lists <> [] -> (consistent lists ps).1 = true ->
  StronglySorted strle (consistent lists ps).2.
Proof.
  induction lists as [|ls lists IH]; intros ps Hs; cbn [consistent]; [by destruct Hs|].
  unfold sliceEqual. destruct (negb _); [done|]. case_bool_decide; [|done].
  apply IH. left. apply sort_strings_sorted.
Qed.

Lemma append_nonempty a b : a <> EmptyString -> a +:+ b <> EmptyString.
Proof. by destruct a. Qed.

Lemma errorOf_None e : errorOf e = None -> e = EmptyString.
Proof. unfold errorOf. destruct (String.eqb e EmptyString) eqn:E; [|done]. by apply String.eqb_eq in E. Qed.

Lemma add_message a b c : b <> EmptyString -> a +:+ b +:+ c <> EmptyString.
Proof. intros Hb. destruct a; [by apply (append_nonempty b c)|done]. Qed.

Section triples.
Context (fates : nat -> fate) (now : nat -> nat -> Z) (net : nat -> nat -> network) (fuel : nat).
Context (range : gmap string (list string) -> list (string * list string)).

Lemma call_triple {R} srv (h : nat -> served R) sent carried P (Q : R -> peerMap -> Prop) :
  (forall k cl p, P cl -> cl !! srv = Some p ->
     match h k srv cl with
     | Ret (cl', rep) => P cl' /\ forall r, rep = Some r -> Q r cl'
     | Panic => P (delete srv cl)
     | Hang => True
     end) ->
  triple P (paxosAdminCall fates srv h sent carried)
    (fun o cl => P cl /\ forall r, o = Some r -> Q r cl).
Proof.
  intros H w Hw. unfold paxosAdminCall.
  change (cluster (w <| calls := S (calls w) |>)) with (cluster w).
  destruct (cluster w !! srv) as [p|] eqn:E; [|done].
  destruct (_ && _); [|done]. specialize (H (calls w) (cluster w) p Hw E).
  destruct (fates (calls w)); [|done|]; destruct (h _ srv (cluster w)) as [[cl' rep]| |]; try done;
    destruct H as [H1 H2]; (split; [done|]); intros r; [|done].
  destruct rep as [r'|]; [|done]. destruct (passes_gob _ _); [|done]. intros [= <-]. cbn. by apply H2.
Qed.

Lemma plain_triple {R} srv (h : px -> px * R) P (Q : R -> peerMap -> Prop) :
  (forall cl p, P cl -> cl !! srv = Some p ->
     P (<[srv := (h p).1]> cl) /\ Q (h p).2 (<[srv := (h p).1]> cl)) ->
  triple P (plainCall fates srv h) (fun o cl => P cl /\ forall r, o = Some r -> Q r cl).
Proof.
  intros H. apply call_triple. intros k cl p HP Hp. unfold serve. rewrite Hp.
  specialize (H cl p HP Hp). destruct (h p) as [p' r]. cbn [fst snd] in H.
  split; [apply H|]. intros r' [= <-]. apply H.
Qed.

(** ** What locking and asking leave alone *)

(** The slots below [minUndecidedSlot] are decided. *)
Definition min_ok (p : px) : Prop :=
  0 <= minUndecidedSlot p /\ forall s, 0 <= s < minUndecidedSlot p -> decided p s.

Definition quiet (p p' : px) : Prop :=
  peers p' = peers p /\ me p' = me p /\ l p' = l p /\ maxDecidedSlot p' = maxDecidedSlot p /\
  (forall s, slotOf p' s = slotOf p s) /\ (min_ok p -> min_ok p').

Lemma quiet_refl p : quiet p p.
Proof. done. Qed.

Lemma quiet_compose p1 p2 p3 : quiet p1 p2 -> quiet p2 p3 -> quiet p1 p3.
Proof.
  intros (P1 & M1 & L1 & X1 & S1 & N1) (P2 & M2 & L2 & X2 & S2 & N2).
  split_and!; [congruence..|auto].
Qed.

Definition calm (cl cl' : peerMap) : Prop := forall a, option_Forall2 quiet (cl !! a) (cl' !! a).

Lemma calm_refl cl : calm cl cl.
Proof. intros a. destruct (cl !! a); constructor. apply quiet_refl. Qed.

Lemma calm_insert cl0 cl a p p' :
  calm cl0 cl -> cl !! a = Some p -> quiet p p' -> calm cl0 (<[a := p']> cl).
Proof.
  intros H Ha Hp b. specialize (H b). destruct (decide (a = b)) as [<-|Hne].
  - rewrite lookup_insert_eq. rewrite Ha in H. inversion H; subst. constructor.
    by eapply quiet_compose.
  - by rewrite lookup_insert_ne.
Qed.

Lemma calm_back cl0 cl a p : calm cl0 cl -> cl !! a = Some p ->
  exists p0, cl0 !! a = Some p0 /\ quiet p0 p.
Proof. intros H Ha. specialize (H a). rewrite Ha in H. inversion H; subst. eauto. Qed.

Lemma calm_Some cl0 cl a p0 : calm cl0 cl -> cl0 !! a = Some p0 ->
  exists p, cl !! a = Some p /\ quiet p0 p.
Proof. intros H Ha. specialize (H a). rewrite Ha in H. inversion H; subst. eauto. Qed.

Lemma lockLoop_calm cl0 ps v : forall i e, triple (calm cl0) (lockLoop fates i ps v e) (fun _ => calm cl0).
Proof.
  induction ps as [|srv ps IH]; intros i e; cbn [lockLoop]; [by apply triple_ret|].
  eapply triple_bind; [apply (plain_triple _ _ _ (fun _ _ => True))|].
  - intros cl p Hc Hp. split; [|done]. by eapply calm_insert.
  - intros o. eapply triple_conseq; [apply IH|by intros cl [? _]|done].
Qed.

Lemma lockPeers_calm cl0 ps v : triple (calm cl0) (lockPeers fates ps v) (fun _ => calm cl0).
Proof.
  unfold lockPeers. eapply triple_bind; [apply lockLoop_calm|]. intros e. by apply triple_ret.
Qed.

(** Calls that cannot fail: a local handler returns. *)
Lemma plainCall_returns {R} srv (h : px -> px * R) w : exists o w', plainCall fates srv h w = (Ret o, w').
Proof.
  unfold plainCall, paxosAdminCall, serve.
  change (cluster (w <| calls := S (calls w) |>)) with (cluster w).
  destruct (cluster w !! srv) as [p|] eqn:E; [|eauto]. destruct (_ && _); [|eauto].
  destruct (h p); destruct (fates (calls w)); eauto.
Qed.

Lemma lockPeers_returns ps v w : exists o w', lockPeers fates ps v w = (Ret o, w').
Proof.
  unfold lockPeers, mbind, adm_bind.
  assert (H : forall i e w, exists o w', lockLoop fates i ps v e w = (Ret o, w')).
  { induction ps as [|srv ps IH]; intros i e w0; cbn [lockLoop]; [by eexists _, _|].
    unfold mbind, adm_bind. destruct (plainCall_returns srv (SetLock (mkSetLockArgs v)) w0) as (o & w' & ->).
    apply IH. }
  destruct (H 0%nat EmptyString w) as (o & w' & ->). by eexists _, _.
Qed.

Lemma showLoop_calm cl0 ps : forall good bad,
  triple (fun cl => calm cl0 cl /\ forall a ls, good !! a = Some ls ->
            exists p0, cl0 !! a = Some p0 /\ peers p0 = ls)
    (showLoop fates ps good bad)
    (fun '(good', _) cl => calm cl0 cl /\ dom good' ⊆ dom good ∪ list_to_set ps /\
       forall a ls, good' !! a = Some ls -> exists p0, cl0 !! a = Some p0 /\ peers p0 = ls).
Proof.
  induction ps as [|srv ps IH]; intros good bad; cbn [showLoop].
  { apply triple_ret. intros cl [Hc Hg]. split_and!; [done|set_solver|done]. }
  eapply triple_bind.
  - apply (plain_triple _ _ _ (fun r _ => exists p0, cl0 !! srv = Some p0 /\ peers p0 = cs_Peers r)).
    intros cl p [Hc Hg] Hp. cbn. split.
    + split; [|done]. by eapply calm_insert.
    + destruct (calm_back _ _ _ _ Hc Hp) as (p0 & Hp0 & Hq & _). by exists p0.
  - intros [r|]; (eapply triple_conseq; [apply IH| |]); cbn beta.
    + intros cl [[Hc Hg] Hr]. split; [done|]. intros a ls. rewrite lookup_insert.
      case_decide as Ha; [|apply Hg]. intros [= <-]. subst a. by apply Hr.
    + intros [g b] cl (Hc & Hd & Hg). split_and!; [done| |done].
      intros a Ha. apply Hd in Ha. set_solver.
    + intros cl [? _]. done.
    + intros [g b] cl (Hc & Hd & Hg). split_and!; [done| |done].
      intros a Ha. apply Hd in Ha. set_solver.
Qed.

(** ** The tool, loop by loop *)

Lemma MinUndecidedSlot_quiet fuel0 p p' r : MinUndecidedSlot fuel0 p = Some (p', r) -> quiet p p'.
Proof.
  unfold MinUndecidedSlot. intros ([p1 n] & E & [= <- <-])%bind_Some.
  assert (Hl : forall fuel0 n0 p p1 n, scanUndecided fuel0 n0 p = Some (p1, n) -> l p1 = l p).
  { clear. induction fuel0 as [|f IH]; intros n0 p p1 n; cbn [scanUndecided]; [done|].
    destruct (getTimeSlotValue _ _) as [t p2] eqn:E.
    assert (l p2 = l p).
    { revert E. unfold getTimeSlotValue. by case_match; intros [= _ <-]. }
    destruct (isDecided t); [|by intros [= <- <-]]. intros H1%IH. congruence. }
  pose proof (Hl _ _ _ _ _ E).
  apply scanUndecided_spec in E as (Hs & (_ & Hp & Hm & _) & Hx & Hle & _ & Hdec).
  split_and!; try done. intros [H0 Hmin]. split; cbn; [lia|]. intros s Hlt. unfold decided.
  change (isDecided (slotOf p1 s) = true). rewrite Hs.
  destruct (decide (s < minUndecidedSlot p)); [apply Hmin; lia|apply Hdec; lia].
Qed.

(** Without errors the bounds cover what every peer decided. *)
Lemma boundsLoop_spec cl0 ps : forall mn mx e,
  triple (calm cl0) (boundsLoop fates ps mn mx e)
    (fun '(mn', mx', e') cl => e' = EmptyString -> e = EmptyString /\ mx <= mx' /\
       Forall (fun srv => forall p0, cl0 !! srv = Some p0 -> maxDecidedSlot p0 <= mx') ps).
Proof.
  induction ps as [|srv ps IH]; intros mn mx e; cbn [boundsLoop].
  { apply triple_ret. intros cl _ ->. split_and!; [done|lia|done]. }
  eapply triple_bind; [apply (call_triple _ _ _ _ _ (fun _ _ => True))|].
  { intros k cl p Hc Hp. unfold serveMinUndecidedSlot. rewrite Hp.
    destruct (MinUndecidedSlot _ p) as [[p' r]|] eqn:Em; [|done]. split; [|done].
    eapply calm_insert; [done..|]. by eapply MinUndecidedSlot_quiet. }
  intros o. cbn beta.
  set (step1 := match o with Some r => if mu_Status r =? Reject then _ else _ | None => _ end).
  assert (He1 : step1.2 = EmptyString -> e = EmptyString).
  { unfold step1. destruct o as [r|]; [destruct (_ =? _)|]; cbn; try done;
      intros H; by apply add_message in H. }
  destruct step1 as [mn1 e1]. cbn in He1.
  eapply triple_bind;
    [eapply triple_pre;
      [apply (plain_triple _ _ (calm cl0)
         (fun r _ => forall p0, cl0 !! srv = Some p0 -> maxDecidedSlot p0 <= md_SlotNum r))
      |by intros cl [? _]]|].
  - intros cl p Hc Hp. cbn. split; [by eapply calm_insert|].
    intros p0 Hp0. destruct (calm_Some _ _ _ _ Hc Hp0) as (p' & Hp' & _ & _ & _ & Hx & _).
    rewrite Hp in Hp'. injection Hp' as <-. lia.
  - intros o2. cbn beta.
    set (step2 := match o2 with Some r => if md_Status r =? Reject then _ else _ | None => _ end).
    destruct step2 as [mx2 e2] eqn:E2. unfold step2 in E2. intros w [Hc Hr].
    pose proof (IH mn1 mx2 e2 w Hc) as Hloop.
    destruct (boundsLoop fates ps mn1 mx2 e2 w) as [[[[mn' mx'] e']| |] w']; try done.
    intros He'. destruct (Hloop He') as (He2 & Hle & Hall).
    destruct o2 as [r|]; [destruct (_ =? _) eqn:Est|].
    + injection E2 as <- <-. by apply add_message in He2.
    + injection E2 as <- <-. subst e1. specialize (Hr r eq_refl).
      unfold getMax in Hle. split_and!; [auto| |].
      * destruct (_ <? _) eqn:El in Hle; breflect; lia.
      * constructor; [|done]. intros p0 Hp0. specialize (Hr p0 Hp0).
        destruct (_ <? _) eqn:El in Hle; breflect; lia.
    + injection E2 as <- <-. by apply add_message in He2.
Qed.

Lemma syncPeers_spec cl0 ps :
  triple (calm cl0) (syncPeers fates now net fuel ps)
    (fun '(_, mx, err) cl => err = None ->
       Forall (fun srv => forall p0, cl0 !! srv = Some p0 -> maxDecidedSlot p0 <= mx) ps).
Proof.
  unfold syncPeers. eapply triple_bind; [apply boundsLoop_spec|]. intros [[mn mx] e].
  intros w Hw. unfold mbind at 1, adm_bind.
  assert (Hkeep : forall all slots e w, match syncSlots fates now net fuel all slots e w with
    | (Ret e', _) => e' = EmptyString -> e = EmptyString | _ => True end).
  { assert (Hone : forall all i l e w, match syncSlot fates now net fuel all i l e w with
      | (Ret e', _) => e' = EmptyString -> e = EmptyString | _ => True end).
    { intros all i l0. induction l0 as [|srv l0 IH]; intros e0 w0; cbn [syncSlot]; [by unfold mret, adm_ret|].
      unfold mbind, adm_bind. destruct (syncCall _ _ _ _ _ _ w0) as [[[r|]| |] w1]; try done; cbn beta iota.
      - apply IH.
      - destruct (lift _ w1) as [[name| |] w2]; try done. cbn.
        match goal with |- context [syncSlot _ _ _ _ _ _ _ ?e1 ?w3] => specialize (IH e1 w3) end.
        destruct (syncSlot _ _ _ _ _ _ _ _ _) as [[e'| |] w4]; try done.
        intros H%IH. by apply add_message in H. }
    intros all slots. induction slots as [|i slots IH]; intros e0 w0; cbn [syncSlots]; [by unfold mret, adm_ret|].
    unfold mbind, adm_bind. specialize (Hone all i all e0 w0).
    destruct (syncSlot _ _ _ _ _ _ _ _ w0) as [[e1| |] w1]; try done.
    specialize (IH e1 w1). destruct (syncSlots _ _ _ _ _ _ e1 w1) as [[e2| |] w2]; auto. }
  specialize (Hkeep ps (upTo mn mx) e w).
  destruct (syncSlots _ _ _ _ _ _ e w) as [[e'| |] w']; try done.
  destruct (errorOf e') eqn:Ee; [done|]. cbn. intros _. apply errorOf_None in Ee.
  by apply Hw, Hkeep.
Qed.

(** The peers [ps] hold the list [newPeers] and their places in it. *)
Definition installed (newPeers : list string) (ps : list string) (cl : peerMap) : Prop :=
  forall j srv, ps !! j = Some srv ->
    exists p, cl !! srv = Some p /\ peers p = newPeers /\ me p = Z.of_nat j.

Lemma installed_insert newPeers ps cl a p p' :
  installed newPeers ps cl -> cl !! a = Some p -> peers p' = peers p -> me p' = me p ->
  installed newPeers ps (<[a := p']> cl).
Proof.
  intros H Ha Hp Hm j srv Hj. destruct (H j srv Hj) as (q & Hq & ? & ?).
  rewrite lookup_insert. case_decide as Hs; [subst a|by eauto]. exists p'.
  rewrite Ha in Hq. injection Hq as ->. split_and!; congruence.
Qed.

(** Slot [s] was copied from [first] to [new]. *)
Definition copied (first new : string) (s : Z) (cl : peerMap) : Prop :=
  exists p q, cl !! first = Some p /\ cl !! new = Some q /\ decided p s /\ slotOf q s = slotOf p s.

Lemma installed_calm newPeers ps cl cl' :
  calm cl cl' -> installed newPeers ps cl -> installed newPeers ps cl'.
Proof.
  intros Hc H j srv Hj. destruct (H j srv Hj) as (p & Hp & ? & ?).
  destruct (calm_Some _ _ _ _ Hc Hp) as (p' & Hp' & ? & ? & _). exists p'. split_and!; congruence.
Qed.

Lemma copied_calm first new s cl cl' : calm cl cl' -> copied first new s cl -> copied first new s cl'.
Proof.
  intros Hc (p & q & Hp & Hq & Hd & Hs).
  destruct (calm_Some _ _ _ _ Hc Hp) as (p' & Hp' & _ & _ & _ & _ & Sp & _).
  destruct (calm_Some _ _ _ _ Hc Hq) as (q' & Hq' & _ & _ & _ & _ & Sq & _).
  exists p', q'. unfold decided. rewrite !Sp, Sq. done.
Qed.

Lemma installed_touches s newPeers ps cl cl' :
  touches s cl cl' -> installed newPeers ps cl -> installed newPeers ps cl'.
Proof.
  intros Ht H j srv Hj. destruct (H j srv Hj) as (p & Hp & ? & ?).
  destruct (touches_Some _ _ _ _ _ Ht Hp) as (p' & Hp' & [(_ & ? & ? & _) _ _ _ _]).
  exists p'. split_and!; congruence.
Qed.

Lemma copied_touches s s' first new cl cl' : s' <> s ->
  touches s cl cl' -> copied first new s' cl -> copied first new s' cl'.
Proof.
  intros Hs Ht (p & q & Hp & Hq & Hd & E).
  destruct (touches_Some _ _ _ _ _ Ht Hp) as (p' & Hp' & [_ _ Sp _ _]).
  destruct (touches_Some _ _ _ _ _ Ht Hq) as (q' & Hq' & [_ _ Sq _ _]).
  exists p', q'. unfold decided. rewrite !Sp, Sq by done. done.
Qed.

Lemma updateCall_spec srv newPeers i P :
  (forall cl p, P cl -> cl !! srv = Some p -> P (<[srv := p <| peers := newPeers |> <| me := i |>]> cl)) ->
  triple P (updateCall fates srv newPeers i)
    (fun ok cl => P cl /\
       (ok = true -> exists p, cl !! srv = Some p /\ peers p = newPeers /\ me p = i)).
Proof.
  intros HP. unfold updateCall. eapply triple_bind.
  - apply (plain_triple _ _ P (fun _ cl => exists p, cl !! srv = Some p /\ peers p = newPeers /\ me p = i)).
    intros cl p Hc Hp. cbn. split; [by apply HP|]. eexists. by rewrite lookup_insert_eq.
  - intros [r|]; apply triple_ret; intros cl [Hc Hr]; (split; [done|]); [|done].
    intros _. by apply (Hr r).
Qed.

(** The peers before place [i] are installed and the loop goes on from there. *)
Lemma updateLoop_spec newPeers ps : NoDup ps -> forall i,
  triple (installed newPeers (take i ps)) (updateLoop fates newPeers i (drop i ps))
    (fun err cl => err = None -> installed newPeers ps cl).
Proof.
  intros Hnd i. remember (length ps - i)%nat as k eqn:Hk. revert i Hk.
  induction k as [|k IH]; intros i Hk.
  { rewrite drop_ge, take_ge by lia. apply triple_ret. by intros. }
  destruct (lookup_lt_is_Some_2 ps i) as [srv Hs]; [lia|].
  rewrite (drop_S ps srv i Hs). cbn [updateLoop].
  eapply triple_bind.
  - apply (updateCall_spec srv newPeers (Z.of_nat i) (installed newPeers (take i ps))).
    intros cl p Hi Hp j a Hj. destruct (Hi j a Hj) as (q & Hq & Hqp & Hqm).
    rewrite lookup_insert_ne; [by eauto|]. intros <-.
    apply lookup_take_Some in Hj as [Hj Hlt].
    pose proof (NoDup_lookup _ _ _ _ Hnd Hs Hj). lia.
  - intros [|]; [|apply triple_ret; by intros]. eapply triple_pre; [apply IH; lia|].
    intros cl [Hi Hd]. intros j a Hj. rewrite (take_S_r _ _ _ Hs) in Hj.
    apply lookup_app_Some in Hj as [Hj|[Hge Hj]]; [by apply Hi|].
    rewrite length_take_le in Hge, Hj by lia.
    apply list_lookup_singleton_Some in Hj as [Hj <-]. destruct Hd as (p & Hp & Hpp & Hpm); [done|].
    exists p. split_and!; [done|done|]. rewrite Hpm. f_equal. lia.
Qed.

(** [first] holds slot [i] decided as the reply [r] says. *)
Definition reported (first : string) (i : Z) (r : SyncPaxosValueReply) (cl : peerMap) : Prop :=
  exists p, cl !! first = Some p /\ decided p i /\
    r = mkSyncPaxosValueReply OK (slotValue (slotOf p i)) (seqNumAccepted (slotOf p i))
          (seqNumHighest (slotOf p i)).

Lemma syncCall_spec srv i P :
  (forall cl cl', P cl -> touches i cl cl' -> P cl') ->
  (forall cl p, P cl -> cl !! srv = Some p -> peers p <> []) ->
  triple P (syncCall fates now net fuel srv i)
    (fun o cl => P cl /\ forall r, o = Some r -> reported srv i r cl).
Proof.
  intros HP Hne. unfold syncCall. eapply triple_bind.
  - apply (call_triple _ _ _ _ P (fun r cl => reported srv i r cl)). intros k cl p Hc Hp.
    pose proof (SyncPaxosValue_spec fuel (now k) (net k) i srv cl p Hp) as H.
    destruct (SyncPaxosValue _ _ _ _ _ _) as [[cl' rep]| |]; [|by destruct (Hne cl p)|done].
    destruct H as [Ht Hr]. split; [by eapply HP|exact Hr].
  - intros o. apply triple_ret. intros cl [Hc Hr]. split; [done|].
    intros r (r' & -> & Hr')%bind_Some. destruct (_ =? _); [done|]. injection Hr' as <-. by apply Hr.
Qed.

Lemma putCall_spec first new i r P :
  (forall cl cl', P cl -> touches i cl cl' -> P cl') ->
  triple (fun cl => P cl /\ reported first i r cl) (putCall fates new i r)
    (fun ok cl => P cl /\ (ok = true -> copied first new i cl)).
Proof.
  intros HP. unfold putCall. eapply triple_bind.
  - apply (call_triple _ _ _ _ (fun cl => P cl /\ reported first i r cl)
             (fun rep cl => pur_Status rep <> Reject -> copied first new i cl)).
    intros k cl q [Hc (p & Hp & Hd & Er)] Hq. unfold serve. rewrite Hq.
    pose proof (Put_step (mkPutArgs i (syr_SyncedValue r) (syr_SeqNumAccepted r)
                            (syr_SeqNumHighest r)) q) as Hstep.
    pose proof (Put_spec (mkPutArgs i (syr_SyncedValue r) (syr_SeqNumAccepted r)
                            (syr_SeqNumHighest r)) q) as Hspec.
    destruct (Put _ q) as [q' rep]. cbn [fst pu_SlotNum pu_Value pu_SeqNumAccepted pu_SeqNumHighest] in *.
    assert (Ht : touches i cl (<[new := q']> cl)) by (by eapply touches_insert).
    destruct Hspec as [_ Hspec]. destruct (isDecided (slotOf q i)) eqn:Ed;
      destruct Hspec as (_ & Hu & Erep).
    + assert (Hsame : slotOf q' i = slotOf q i) by (rewrite (Hu i); by rewrite decide_True).
      split; [split; [by eapply HP|]|].
      * destruct (decide (first = new)) as [->|Hn].
        -- rewrite Hq in Hp. injection Hp as ->. exists q'. rewrite lookup_insert_eq.
           unfold decided. by rewrite Hsame.
        -- exists p. by rewrite lookup_insert_ne.
      * intros rp [= <-]. by subst rep.
    + assert (Hslot : slotOf q' i = slotOf p i).
      { rewrite (Hu i), decide_True by done. rewrite Er. cbn. unfold decided in Hd.
        destruct (slotOf p i); cbn in *. by rewrite Hd. }
      assert (Hn : first <> new).
      { intros ->. rewrite Hq in Hp. injection Hp as ->. unfold decided in Hd. congruence. }
      split; [split; [by eapply HP|]|].
      * exists p. by rewrite lookup_insert_ne.
      * intros rp _ _. exists p, q'. by rewrite lookup_insert_ne, lookup_insert_eq.
  - intros [rep|]; apply triple_ret; intros cl [[Hc _] Hr]; (split; [done|]); [|done].
    intros Hs. apply (Hr rep eq_refl). intros E. by rewrite E in Hs.
Qed.

(** The slots are brought to the new peer one by one; those done stay. *)
Lemma copyLoop_spec newPeers first ps new : newPeers <> [] -> ps !! 0%nat = Some first ->
  forall slots done, NoDup (done ++ slots) ->
  triple (fun cl => installed newPeers ps cl /\ Forall (fun s => copied first new s cl) done)
    (copyLoop fates now net fuel first new slots)
    (fun err cl => err = None ->
       installed newPeers ps cl /\ Forall (fun s => copied first new s cl) (done ++ slots)).
Proof.
  intros Hne Hfirst. induction slots as [|i slots IH]; intros cs Hnd; cbn [copyLoop].
  { apply triple_ret. intros cl H _. by rewrite app_nil_r. }
  set (Pc := fun cl => installed newPeers ps cl /\ Forall (fun s => copied first new s cl) cs).
  assert (HPc : forall cl cl', Pc cl -> touches i cl cl' -> Pc cl').
  { intros cl cl' [Hin Hcs] Ht. split; [by eapply installed_touches|].
    rewrite Forall_forall in Hcs |- *. intros s Hs. eapply copied_touches; [|done|by apply Hcs].
    intros ->. apply NoDup_app in Hnd as (_ & H & _). apply (H i Hs). by left. }
  eapply triple_bind; [apply (syncCall_spec first i Pc HPc)|].
  { intros cl p [Hin _] Hp. destruct (Hin 0%nat first Hfirst) as (q & Hq & Hqp & _). congruence. }
  intros [r|]; [|by apply triple_ret]. cbn beta iota.
  eapply triple_bind; [eapply triple_pre; [apply (putCall_spec first new i r Pc HPc)|]|].
  { intros cl [Hc Hr]. split; [done|]. by apply Hr. }
  intros [|]; [|by apply triple_ret]. rewrite (cons_middle i cs slots), app_assoc in *.
  eapply triple_pre; [by apply IH|]. intros cl [[Hin Hcs] Hci]. split; [done|].
  apply Forall_app. split; [done|]. constructor; [by apply Hci|constructor].
Qed.

(** What [AddPeer] has achieved when it returns nil. *)
Definition extended (cl0 : peerMap) (ps : list string) (new : string) (cl : peerMap) : Prop :=
  exists first, head ps = Some first /\ installed (ps ++ [new]) ps cl /\
    forall srv p0 s, srv ∈ ps -> cl0 !! srv = Some p0 -> 0 <= s <= maxDecidedSlot p0 ->
      copied first new s cl.

Lemma extended_calm cl0 ps new cl cl' :
  calm cl cl' -> extended cl0 ps new cl -> extended cl0 ps new cl'.
Proof.
  intros Hc (first & Hf & Hi & Hs). exists first. split_and!; [done|by eapply installed_calm|].
  intros srv p0 s ???. eapply copied_calm; eauto.
Qed.

Lemma elem_upTo a b s : s ∈ upTo a b <-> a <= s <= b.
Proof. unfold upTo. rewrite elem_of_seqZ. lia. Qed.

Lemma addUnderLock_spec cl0 ps new err : NoDup ps -> ps <> [] -> new ∉ ps ->
  triple (calm cl0) (addUnderLock fates now net fuel ps (ps ++ [new]) new err)
    (fun err cl => err = None -> extended cl0 ps new cl).
Proof.
  intros Hnd Hne Hnew. unfold addUnderLock. destruct err; [by apply triple_ret|].
  eapply triple_bind; [apply syncPeers_spec|]. intros [[mn mx] [e|]]; [by apply triple_ret|].
  eapply (triple_pre _ (fun cl => Forall (fun srv => forall p0, cl0 !! srv = Some p0 ->
    maxDecidedSlot p0 <= mx) ps /\ True)); [|by auto].
  apply triple_pure. intros Hmx. rewrite Forall_forall in Hmx.
  destruct ps as [|first ps]; [done|]. set (all := first :: ps) in *.
  eapply triple_bind.
  { apply (triple_pre _ (installed (all ++ [new]) (take 0 all))); [|by intros cl _ j srv Hj].
    apply (updateLoop_spec (all ++ [new]) all Hnd 0). }
  intros [e|]; [by apply triple_ret|]. eapply triple_bind.
  { eapply triple_pre; [apply (updateCall_spec new _ _ (installed (all ++ [new]) all))|by auto].
    intros cl p Hi Hp j srv Hj. rewrite lookup_insert_ne; [by apply Hi|]. intros ->.
    by apply Hnew, (list_elem_of_lookup_2 _ j). }
  intros b. cbn beta. unfold all at 1. cbn iota.
  eapply triple_conseq.
  - apply (copyLoop_spec (all ++ [new]) first all new) with (done := []); [done|done|].
    apply NoDup_seqZ.
  - intros cl [Hi _]. by split.
  - intros err cl Herr He. destruct (Herr He) as [Hi Hall]. exists first.
    split_and!; [done|done|]. intros srv p0 s Hsrv Hp0 Hs.
    rewrite Forall_forall in Hall. apply Hall. apply elem_upTo. specialize (Hmx srv Hsrv p0 Hp0). lia.
Qed.

(** What a successful [AddPeer] proves about the cluster it started from. *)
Definition agreed (cl0 : peerMap) (ps : list string) : Prop :=
  NoDup ps /\ forall srv, srv ∈ ps -> exists p0, cl0 !! srv = Some p0 /\ peers p0 ≡ₚ ps.

Lemma AddPeer_spec cl0 ps new :
  (forall m, range m ≡ₚ map_to_list m) -> new ∉ ps ->
  triple (fun cl => cl = cl0) (AddPeer fates now net fuel range ps new)
    (fun err cl => err = None -> agreed cl0 ps /\
       exists ps', StronglySorted strle ps' /\ ps' ≡ₚ ps /\ extended cl0 ps' new cl).
Proof.
  intros Hrange Hnew. unfold AddPeer. eapply triple_bind.
  { eapply triple_pre; [apply (lockPeers_calm cl0)|]. intros cl ->. apply calm_refl. }
  intros e0. apply (triple_bind _ _ _ (fun _ => calm cl0)); [by intros w Hw|]. intros [].
  destruct ps as [|first ps]; [by apply triple_ret|]. set (all := first :: ps) in *.
  unfold ShowPeers. eapply triple_bind.
  { eapply triple_pre; [apply (showLoop_calm cl0)|]. by intros cl Hc. }
  intros [good bad]. cbn beta iota. destruct (Nat.ltb _ _) eqn:Esz; [by apply triple_ret|].
  apply Nat.ltb_ge in Esz. unfold all at 2. cbn iota. fold all.
  pose proof (consistent_spec (range good).*2 all) as Hcons.
  pose proof (consistent_sorted (range good).*2 all) as Hsort.
  destruct (consistent _ all) as [b ps'] eqn:Ec. destruct Hcons as [Hps' Hb].
  destruct b; cbn [negb]; [|by apply triple_ret]. cbn in Hsort.
  eapply (triple_pre _ (fun cl => (agreed cl0 all /\ StronglySorted strle ps') /\ calm cl0 cl)).
  2: { intros cl (Hc & Hd & Hg). split; [|done].
       destruct (all_answered good all) as [Hnd Hall]; [set_solver|done|]. split.
       2: { apply Hsort; [right|done]. destruct (Hall first) as [ls Hls]; [by left|].
            apply elem_of_map_to_list in Hls. rewrite <- Hrange in Hls.
            destruct (range good); [by apply not_elem_of_nil in Hls|done]. }
       split; [done|].
       intros srv Hsrv. destruct (Hall srv Hsrv) as [ls Hls].
       destruct (Hg srv ls Hls) as (p0 & Hp0 & <-). exists p0. split; [done|].
       destruct Hb as [Hb _]. specialize (Hb eq_refl). rewrite Forall_forall in Hb. apply Hb.
       apply list_elem_of_fmap. exists (srv, peers p0). split; [done|].
       rewrite Hrange. by apply elem_of_map_to_list. }
  apply triple_pure. intros [Hag Hsorted]. eapply triple_bind; [apply lockPeers_calm|]. intros err.
  apply triple_defer.
  - eapply triple_conseq; [apply (addUnderLock_spec cl0 ps' new err)| |].
    + rewrite Hps'. apply Hag.
    + intros ->. by apply Permutation_nil_l in Hps'.
    + by rewrite Hps'.
    + done.
    + intros e cl He Hnil. split; [done|]. exists ps'. auto.
  - intros e w Hw.
    pose proof (lockPeers_calm (cluster w) (ps' ++ [new]) false w (calm_refl _)) as Hc.
    destruct (lockPeers _ _ _ w) as [[o| |] w']; [|done..].
    intros Hnil. destruct (Hw Hnil) as (Ha & ps2 & Hs & Hp & Hx). split; [done|].
    exists ps2. split_and!; [done|done|]. by eapply extended_calm.
  - intros w. apply lockPeers_returns.
Qed.

End triples.

(** ** A failed synchronisation *)

(** The message of a failure at slot [i] reads [peers[i]]: out of range, the
    tool panics. *)
Lemma failed_sync_panics fates now net fuel all i srv rest e w w' :
  syncCall fates now net fuel srv i w = (Ret None, w') -> Z.of_nat (length all) <= i ->
  syncSlot fates now net fuel all i (srv :: rest) e w = (Panic, w').
Proof.
  intros E Hi. cbn [syncSlot]. unfold mbind, adm_bind. rewrite E.
  unfold lift. replace (i <? 0) with false by (symmetry; apply Z.ltb_ge; lia).
  by rewrite lookup_ge_None_2 by lia.
Qed.

(** ** Properties *)

(** Three serving peers that have decided slots 0 to 4. *)
Definition demo_peers : list string := ["a:1"; "b:2"; "c:3"].
Definition demo_value (s : Z) : value := Some (mkPaxosValue ReserveTicket s "u" "f" 0 0 1).
Definition demo_slots (s : Z) : gmap Z timeSlotValue :=
  list_to_map ((fun i => (i, mkSlot (demo_value i) true 5 5)) <$> upTo 0 s).
Definition demo_peer (i last : Z) : px :=
  mkPx (Some Listening) false demo_peers i (demo_slots last) ∅ false ∅ last 0.
Definition new_peer : px := mkPx (Some Listening) false [] 0 ∅ ∅ false ∅ 0 0.

(** [b] has decided slot 5, too; [d] is not a member. *)
Definition demo_cluster : peerMap :=
  list_to_map [("a:1", demo_peer 0 4); ("b:2", demo_peer 1 5); ("c:3", demo_peer 2 4);
               ("d:4", new_peer)].

Definition all_delivered (k : nat) : fate := Delivered.
Definition demo_round (order : list nat) (k j : nat) : network :=
  mkNet (fun _ => Delivered) (fun _ => Delivered) (fun _ => Delivered) order.
Definition demo_now (k j : nat) : Z := 1398000000000000000.

(** C17: what a successful AddPeer has done.  Whatever happens to the messages,
    when [AddPeer] returns nil, every peer of the list answered and held that
    list, up to the order; each of them now holds the list in the order that the
    comparison sorted it into, followed by the new peer, and its own place in it;
    and every slot up to the highest that any of them had decided is decided at
    the first peer and has the same contents at the new one. *)
Theorem add_peer_extends fates now net fuel range ps new w w' :
  (forall m, range m ≡ₚ map_to_list m) -> new ∉ ps ->
  AddPeer fates now net fuel range ps new w = (Ret None, w') ->
  agreed (cluster w) ps /\
  exists ps', StronglySorted strle ps' /\ ps' ≡ₚ ps /\ extended (cluster w) ps' new (cluster w').
Proof.
  intros Hr Hn E.
  pose proof (AddPeer_spec fates now net fuel range (cluster w) ps new Hr Hn w eq_refl) as H.
  rewrite E in H. by apply H.
Qed.

Definition demo_add : outcome (option string) * world :=
  AddPeer all_delivered demo_now (demo_round [1; 0; 2]%nat) 2 map_to_list demo_peers "d:4"
    (mkWorld demo_cluster 0 false).

Lemma add_peer_extends_witness :
  agreed demo_cluster demo_peers /\
  exists ps', StronglySorted strle ps' /\ ps' ≡ₚ demo_peers /\
    extended demo_cluster ps' "d:4" (cluster demo_add.2).
Proof.
  apply (add_peer_extends all_delivered demo_now (demo_round [1; 0; 2]%nat) 2 map_to_list
           demo_peers "d:4" (mkWorld demo_cluster 0 false)).
  - intros m. reflexivity.
  - vm_compute. intros H. repeat (apply elem_of_cons in H as [H|H]; [discriminate|]).
    by apply not_elem_of_nil in H.
  - vm_compute. reflexivity.
Defined.

(** Call number 22 tells the new peer its list; it is lost. *)
Definition lost_update (k : nat) : fate := if Nat.eqb k 22 then RequestLost else Delivered.

Definition demo_lost : outcome (option string) * world :=
  AddPeer lost_update demo_now (demo_round [1; 0; 2]%nat) 2 map_to_list demo_peers "d:4"
    (mkWorld demo_cluster 0 false).

Definition demo_remove (registered : bool) : outcome (option string) * world :=
  RemovePeer all_delivered demo_now (demo_round [1; 0; 2]%nat) 2 map_to_list map_to_list demo_peers "c:3"
    (mkWorld demo_cluster 0 registered).

(** C38: how the tool fails.  When the SyncPaxosValue call of a slot fails and
    the number of the slot is not below the number of peers, [syncPeers] panics
    while it composes its message.  [RemovePeer], which never registers
    [PaxosValue] with gob, cannot receive the value of a slot and panics in this
    way on a healthy cluster with one gap to fill, where a process that has
    registered the type removes the peer.  And [AddPeer] returns nil although
    the new peer did not get its peer list, the error of that call being
    dropped. *)
Theorem admin_tool_failures :
  (forall fates now net fuel all i srv rest e w w',
     syncCall fates now net fuel srv i w = (Ret None, w') -> Z.of_nat (length all) <= i ->
     syncSlot fates now net fuel all i (srv :: rest) e w = (Panic, w')) /\
  (fst (demo_remove false) = Panic /\ registered (snd (demo_remove false)) = false /\
   fst (demo_remove true) = Ret None /\
   peers <$> cluster (snd (demo_remove true)) !! "a:1" = Some ["a:1"; "b:2"]) /\
  (fst demo_lost = Ret None /\ peers <$> cluster (snd demo_lost) !! "d:4" = Some [] /\
   peers <$> cluster (snd demo_lost) !! "a:1" = Some ["a:1"; "b:2"; "c:3"; "d:4"]).
Proof.
  split; [exact failed_sync_panics|]. split; split_and!; vm_compute; reflexivity.
Qed.

Lemma admin_tool_failures_witness :
  syncSlot (fun _ => RequestLost) demo_now (demo_round []) 2 demo_peers 5 demo_peers EmptyString
    (mkWorld demo_cluster 0 true) = (Panic, mkWorld demo_cluster 1 true).
Proof.
  apply admin_tool_failures; [vm_compute; reflexivity|]. vm_compute. discriminate.
Defined.

End PaxosAdmin.
