(* ===== verification/PaxosAdminLive.v ===== *)
(** * PaxosAdminLive: adding a peer to a healthy cluster

    The proposer of [PaxosAdmin], which finds peers by address, does what the
    proposer of [Paxos] does on the list of the peers behind the addresses; so
    over a reliable network it ends after at most two rounds, and [AddPeer]
    succeeds. *)
From S2P Require Import Prelude PaxosRpc Paxos PaxosAdmin.
Open Scope Z_scope.

Module PaxosAdminLive.
Import Paxos PaxosAdmin.

(** ** Addresses and positions *)

(** [cls] are the peers behind the addresses [ps], all of them serving. *)
Definition models (ps : list string) (cl : peerMap) (cls : list px) : Prop :=
  Forall2 (fun a p => cl !! a = Some p /\ listening p = true) ps cls.

Definition elsewhere (ps : list string) (cl cl' : peerMap) : Prop :=
  forall a, a ∉ ps -> cl' !! a = cl !! a.

#[export] Instance elsewhere_preorder ps : PreOrder (elsewhere ps).
Proof.
  split; [by intros cl a|]. intros c1 c2 c3 H1 H2 a Ha. by rewrite H2, H1.
Qed.

Lemma models_lookup ps cl cls i a : models ps cl cls -> ps !! i = Some a ->
  exists p, cls !! i = Some p /\ cl !! a = Some p /\ listening p = true.
Proof.
  intros Hm Hi. destruct (Forall2_lookup_l _ _ _ _ _ Hm Hi) as (p & Hp & ? & ?). eauto.
Qed.

Lemma models_insert ps cl cls i a p : NoDup ps -> models ps cl cls -> ps !! i = Some a ->
  listening p = true -> models ps (<[a := p]> cl) (<[i := p]> cls).
Proof.
  intros Hnd Hm Hi Hl. pose proof (Forall2_length _ _ _ Hm) as Hlen.
  apply Forall2_same_length_lookup_2; [by rewrite length_insert|].
  intros j b q Hj Hq. destruct (decide (i = j)) as [<-|Hij].
  - rewrite Hi in Hj. injection Hj as <-. rewrite lookup_insert_eq.
    rewrite list_lookup_insert_eq in Hq by (rewrite <- Hlen; by eapply lookup_lt_Some).
    injection Hq as <-. done.
  - rewrite list_lookup_insert_ne in Hq by done.
    rewrite lookup_insert_ne; [by apply (Forall2_lookup_lr _ _ _ _ _ _ Hm Hj Hq)|].
    intros <-. apply Hij. by eapply NoDup_lookup.
Qed.

Lemma elsewhere_insert ps cl i a p : ps !! i = Some a -> elsewhere ps cl (<[a := p]> cl).
Proof.
  intros Hi b Hb. rewrite lookup_insert_ne; [done|]. intros <-. by apply Hb, (list_elem_of_lookup_2 _ i).
Qed.

Lemma listening_step s p p' : slot_step s p p' -> listening p' = listening p.
Proof. intros [_ Hl _ _ _]. unfold listening. by rewrite Hl. Qed.

Section bridge.
Context (ps : list string) (self : string) (i0 : nat).
Context (Hnd : NoDup ps) (Hself : ps !! i0 = Some self).

Lemma broadcast_bridge {R} (h : px -> px * R) fates order : forall cl cls,
  (forall p, listening (h p).1 = listening p) -> (forall i, fates i = Delivered) ->
  Forall (fun i => (i < length ps)%nat) order -> models ps cl cls ->
  exists cl', broadcast h self (Z.of_nat i0) ps fates order cl =
      (cl', (Paxos.broadcast h i0 fates order cls).2) /\
    models ps cl' (Paxos.broadcast h i0 fates order cls).1 /\ elsewhere ps cl cl'.
Proof.
  induction order as [|i order IH]; intros cl cls Hh Hf Hlt Hm; cbn [broadcast Paxos.broadcast].
  { exists cl. by split_and!. }
  apply Forall_cons in Hlt as [Hi Hlt].
  destruct (lookup_lt_is_Some_2 _ _ Hi) as [a Ha].
  destruct (models_lookup _ _ _ _ _ Hm Ha) as (p & Hp & Hap & Hlp).
  rewrite Hf, Hp.
  assert (E1 : (if Z.of_nat i =? Z.of_nat i0 then callSelf h self cl
               else match ps !! i with Some srv => call h (fates i) srv cl | None => (cl, None) end)
             = (<[a := (h p).1]> cl, Some (h p).2)).
  { destruct (_ =? _) eqn:Ei; breflect.
    - assert (i = i0) as -> by lia. rewrite Ha in Hself. injection Hself as ->.
      unfold callSelf. rewrite Hap. by destruct (h p).
    - rewrite Ha. unfold call. rewrite Hap, Hlp, Hf. by destruct (h p). }
  rewrite Hf in E1. rewrite E1. replace (if Nat.eqb i i0 then Delivered else Delivered) with Delivered
    by (by destruct (Nat.eqb i i0)).
  specialize (Hh p) as Hhp. destruct (h p) as [p' r]. cbn [fst snd] in *.
  destruct (IH (<[a := p']> cl) (<[i := p']> cls)) as (cl' & -> & Hm' & He); [done|done|done| |].
  { apply models_insert; [done..|]. by rewrite Hhp. }
  destruct (Paxos.broadcast _ _ _ _ _) as [cls' reps]. cbn [fst snd] in *.
  exists cl'. split_and!; [done|done|]. etransitivity; [by eapply elsewhere_insert|done].
Qed.

Lemma proposeRound_bridge net md s k v cl cls :
  reliable net (length ps) -> models ps cl cls ->
  exists cl', proposeRound net self (Z.of_nat i0) ps md s k v cl =
      (cl', (Paxos.proposeRound net i0 md s k v cls).2) /\
    models ps cl' (Paxos.proposeRound net i0 md s k v cls).1 /\ elsewhere ps cl cl'.
Proof.
  intros (Hf1 & Hf2 & Hf3 & Hperm) Hm. pose proof (Forall2_length _ _ _ Hm) as Hlen.
  assert (Hlt : Forall (fun i => (i < length ps)%nat) (arrival net)).
  { rewrite Hperm. apply Forall_forall. intros i Hi%elem_of_seq. lia. }
  unfold proposeRound, Paxos.proposeRound. rewrite <- Hlen.
  destruct (broadcast_bridge (Prepare (mkPrepareArgs s k (Z.of_nat i0) md)) (prepare_fate net) (arrival net) cl cls)
    as (cl1 & -> & Hm1 & He1); [intros p; eapply listening_step, Prepare_step|done..|].
  destruct (Paxos.broadcast _ _ _ _ cls) as [cls1 reps1]. cbn [fst snd] in *.
  set (c1 := collect _ _ _ _). destruct (negb (majority _ c1)); [by exists cl1|].
  destruct (broadcast_bridge (Accept (mkAcceptArgs s k (proposeValue c1))) (accept_fate net) (arrival net) cl1 cls1)
    as (cl2 & -> & Hm2 & He2); [intros p; eapply listening_step, Accept_step|done..|].
  destruct (Paxos.broadcast _ _ _ _ cls1) as [cls2 reps2]. cbn [fst snd] in *.
  set (c2 := collect _ _ _ _). destruct (negb (majority _ c2)).
  { exists cl2. split_and!; [done|done|]. by etransitivity. }
  destruct (broadcast_bridge (Decide (mkDecideArgs s (proposeValue c2))) (decide_fate net) (arrival net) cl2 cls2)
    as (cl3 & -> & Hm3 & He3); [intros p; eapply listening_step, Decide_step|done..|].
  destruct (Paxos.broadcast _ _ _ _ cls2) as [cls3 reps3]. cbn [fst snd] in *.
  exists cl3. split_and!; [done|done|]. by do 2 (etransitivity; [eassumption|]).
Qed.

Lemma proposeLoop_bridge fuel now net md s v : (forall j, reliable (net j) (length ps)) ->
  forall k mh cl cls cls' w, models ps cl cls ->
  Paxos.proposeLoop fuel now net k i0 md s v mh cls = Ret (cls', w) ->
  exists cl', proposeLoop fuel now net k self (Z.of_nat i0) ps md s v mh cl = Ret cl' /\
    models ps cl' cls' /\ elsewhere ps cl cl'.
Proof.
  intros Hnet. induction fuel as [|fuel IH]; intros k mh cl cls cls' w Hm;
    cbn [proposeLoop Paxos.proposeLoop]; [done|].
  rewrite <- (Forall2_length _ _ _ Hm).
  intros (seqNum & -> & H)%bind_Ret_inv. cbn [mbind outcome_bind].
  destruct (proposeRound_bridge (net k) md s seqNum v cl cls (Hnet k) Hm) as (cl1 & -> & Hm1 & He1).
  destruct (Paxos.proposeRound _ _ _ _ _ _ _) as [cls1 [w1|h]]; cbn [fst snd] in *.
  - injection H as <- <-. by exists cl1.
  - destruct (IH (S k) h cl1 cls1 cls' w Hm1 H) as (cl' & -> & Hm' & He').
    exists cl'. split_and!; [done|done|]. by etransitivity.
Qed.

End bridge.

Lemma proposeLoop_fuel fuel now net self md s v : forall fuel' k mh cls r, (fuel <= fuel')%nat ->
  Paxos.proposeLoop fuel now net k self md s v mh cls = Ret r ->
  Paxos.proposeLoop fuel' now net k self md s v mh cls = Ret r.
Proof.
  induction fuel as [|fuel IH]; intros [|fuel'] k mh cls r Hle; cbn [Paxos.proposeLoop]; [done|done|lia|].
  intros (seqNum & -> & H)%bind_Ret_inv. cbn [mbind outcome_bind].
  destruct (Paxos.proposeRound _ _ _ _ _ _ _) as [cls1 [w1|h]]; [done|].
  apply IH; [lia|done].
Qed.

Lemma models_exist ps cl : (forall a, a ∈ ps -> exists p, cl !! a = Some p /\ listening p = true) ->
  exists cls, models ps cl cls.
Proof.
  induction ps as [|a ps IH]; intros H; [by exists []; constructor|].
  destruct (H a) as (p & Hp); [by left|]. destruct IH as [cls Hcls]; [intros b Hb; apply H; by right|].
  exists (p :: cls). by constructor.
Qed.

Lemma models_elem ps cl cls p : models ps cl cls -> p ∈ cls ->
  exists a, a ∈ ps /\ cl !! a = Some p /\ listening p = true.
Proof.
  intros Hm [i Hi]%list_elem_of_lookup. destruct (Forall2_lookup_r _ _ _ _ _ Hm Hi) as (a & Ha & ? & ?).
  exists a. split; [by eapply list_elem_of_lookup_2|done].
Qed.

(** The peer list of [p] is made of serving peers, itself among them. *)
Definition seated (self : string) (p : px) : Prop :=
  NoDup (peers p) /\ 0 <= me p /\ peers p !! Z.to_nat (me p) = Some self.

Definition clock_ok (n : Z) (now : nat -> Z) : Prop := forall j, 0 <= now j /\ now j * n + n < 2 ^ 63.

(** Promises leave room for the numbers of [n] peers. *)
Definition room (n s : Z) (p : px) : Prop :=
  0 <= seqNumHighest (slotOf p s) /\ seqNumHighest (slotOf p s) + n < 2 ^ 63.

Lemma enter_quiet s p p' t : getTimeSlotValue s (getTimeSlotLock s p) = (t, p') -> quiet p p'.
Proof.
  intros E. pose proof (slot_step_enter _ _ _ _ E) as [[_ Hl _ _ _] _].
  destruct (enter_spec s p) as (p1 & E1 & Hs & (Hm & ? & ? & _) & Hx).
  rewrite E in E1. injection E1 as _ <-. split_and!; try done.
  intros [Hz Hd]. split; [lia|]. intros s' Hs'. unfold decided. rewrite Hs. apply Hd. lia.
Qed.

(** A lone proposer at a seated peer, the others serving. *)
Lemma startHelper_live fuel now net s v self cl p :
  let n := Z.of_nat (length (peers p)) in
  (2 <= fuel)%nat -> (forall j, reliable (net j) (length (peers p))) -> clock_ok n now ->
  cl !! self = Some p -> seated self p ->
  (forall a, a ∈ peers p -> exists q, cl !! a = Some q /\ listening q = true /\ room n s q) ->
  exists cl', startHelper fuel now net self s v cl = Ret cl' /\ elsewhere (peers p) cl cl' /\
    forall a, a ∈ peers p -> exists q, cl' !! a = Some q /\ decided q s.
Proof.
  intros n Hfuel Hnet Hclock Hp (Hnd & Hme & Hself) Hup.
  assert (Hin : self ∈ peers p) by (by eapply list_elem_of_lookup_2).
  set (i0 := Z.to_nat (me p)) in *. assert (Hi0 : me p = Z.of_nat i0) by lia.
  pose proof (lookup_lt_Some _ _ _ Hself) as Hlt.
  unfold startHelper. rewrite Hp. cbn [deref mbind outcome_bind].
  destruct (getTimeSlotValue s (getTimeSlotLock s p)) as [t p1] eqn:E1.
  destruct (enter_quiet _ _ _ _ E1) as (Hpeers & Hmeq & Hl & _ & Hslots & _).
  apply slot_step_enter in E1 as (_ & Ht & _). set (cl1 := <[self := p1]> cl).
  rewrite Hpeers, Hmeq, Hi0, Ht.
  assert (Hup1 : forall a, a ∈ peers p -> exists q, cl1 !! a = Some q /\ listening q = true /\ room n s q).
  { intros a Ha. destruct (decide (a = self)) as [->|Hne].
    - destruct (Hup self Hin) as (q & Hq & Hlq & Hr). rewrite Hp in Hq. injection Hq as <-.
      exists p1. unfold cl1. rewrite lookup_insert_eq. split; [done|]. unfold listening, room.
      by rewrite Hl, Hslots.
    - unfold cl1. rewrite lookup_insert_ne by done. auto. }
  destruct (models_exist (peers p) cl1) as [cls Hm].
  { intros a Ha. destruct (Hup1 a Ha) as (q & ? & ? & _). eauto. }
  pose proof (Forall2_length _ _ _ Hm) as Hlen.
  destruct (Hup self Hin) as (q0 & Hq0 & _ & Hroom). rewrite Hp in Hq0. injection Hq0 as <-.
  destruct (proposeLoop_two_rounds now net i0 (map_get 0 (maxDone p1) (Z.of_nat i0)) s v
              (seqNumHighest (slotOf p s)) cls 0) as (cls' & w & Eloop & Hlen' & Hdec & _);
    rewrite <- ?Hlen; fold n; try done; try apply Hroom.
  - intros j. destruct (Hclock j). split; [done|]. unfold n in *. lia.
  - intros q Hq. destruct (models_elem _ _ _ _ Hm Hq) as (a & Ha & Hq' & _).
    destruct (Hup1 a Ha) as (q' & Hq2 & _ & [_ Hr]). congruence.
  - apply (proposeLoop_fuel 2 now net i0 _ s _ fuel) in Eloop; [|done].
    destruct (proposeLoop_bridge (peers p) self i0 Hnd Hself fuel now net _ s _ Hnet _ _ cl1 _ _ _ Hm Eloop)
      as (cl2 & -> & Hm2 & He2).
    exists cl2. split; [done|]. split; [etransitivity; [|exact He2]; by eapply elsewhere_insert|].
    intros a [i Ha]%list_elem_of_lookup. destruct (models_lookup _ _ _ _ _ Hm2 Ha) as (q & Hq & Hq2 & _).
    exists q. split; [done|]. unfold all_decided in Hdec. rewrite Forall_forall in Hdec.
    apply Hdec. by eapply list_elem_of_lookup_2.
Qed.

(** At a decided slot [SyncPaxosValue] only answers. *)
Lemma SyncPaxosValue_decided fuel now net s self cl p :
  cl !! self = Some p -> decided p s ->
  exists p', SyncPaxosValue fuel now net (mkSyncPaxosValueArgs s) self cl =
    Ret (<[self := p']> cl, Some (mkSyncPaxosValueReply OK (slotValue (slotOf p s))
      (seqNumAccepted (slotOf p s)) (seqNumHighest (slotOf p s)))) /\ quiet p p'.
Proof.
  intros Hp Hd. unfold SyncPaxosValue. cbn [sy_SlotNum]. rewrite Hp. cbn [deref mbind outcome_bind].
  destruct (getTimeSlotValue s (getTimeSlotLock s p)) as [t p1] eqn:E1.
  pose proof (enter_quiet _ _ _ _ E1) as Hq.
  apply slot_step_enter in E1 as (_ & -> & _). unfold decided in Hd. rewrite Hd. eauto.
Qed.

Lemma SyncPaxosValue_live fuel now net s self cl p :
  let n := Z.of_nat (length (peers p)) in
  (2 <= fuel)%nat -> (forall j, reliable (net j) (length (peers p))) -> clock_ok n now ->
  cl !! self = Some p -> seated self p -> ~ decided p s ->
  (forall a, a ∈ peers p -> exists q, cl !! a = Some q /\ listening q = true /\ room n s q) ->
  exists cl' r, SyncPaxosValue fuel now net (mkSyncPaxosValueArgs s) self cl = Ret (cl', Some r) /\
    elsewhere (peers p) cl cl' /\ forall a, a ∈ peers p -> exists q, cl' !! a = Some q /\ decided q s.
Proof.
  intros n Hfuel Hnet Hclock Hp Hseat Hund Hup.
  assert (Hin : self ∈ peers p) by (destruct Hseat as (_ & _ & H); by eapply list_elem_of_lookup_2).
  unfold SyncPaxosValue. cbn [sy_SlotNum]. rewrite Hp. cbn [deref mbind outcome_bind].
  destruct (getTimeSlotValue s (getTimeSlotLock s p)) as [t p1] eqn:E1.
  destruct (enter_quiet _ _ _ _ E1) as (Hpeers & Hme & Hl & _ & Hslots & _).
  apply slot_step_enter in E1 as (_ & Ht & _).
  unfold decided in Hund. rewrite <- Ht in Hund. destruct (isDecided t); [done|].
  assert (Hwhere : elsewhere (peers p) cl (<[self := p1]> cl)).
  { apply list_elem_of_lookup in Hin as [i Hi]. by eapply elsewhere_insert. }
  destruct (startHelper_live fuel now net s (Some NoOpValue) self (<[self := p1]> cl) p1)
    as (cl2 & -> & He & Hall); rewrite ?Hpeers; fold n; try done.
  - apply lookup_insert_eq.
  - unfold seated. by rewrite Hpeers, Hme.
  - intros a Ha. destruct (Hup a Ha) as (q & Hq & Hlq & Hr). destruct (decide (a = self)) as [->|Hne].
    + exists p1. rewrite lookup_insert_eq. rewrite Hp in Hq. injection Hq as <-. split; [done|].
      unfold listening, room. by rewrite Hl, Hslots.
    + rewrite lookup_insert_ne by done. eauto.
  - rewrite Hpeers in He, Hall. cbn [mbind outcome_bind].
    destruct (Hall self Hin) as (p3 & Hp3 & Hd3). rewrite Hp3. cbn [deref mbind outcome_bind].
    destruct (getTimeSlotValue s p3) as [t4 p4] eqn:E4. apply slot_step_fetch in E4 as (_ & Ht4 & Ht4').
    assert (Ed4 : isDecided t4 = true) by (by rewrite Ht4). rewrite Ed4.
    do 2 eexists. split; [done|]. split.
    + etransitivity; [exact Hwhere|]. etransitivity; [exact He|].
      apply list_elem_of_lookup in Hin as [i Hi]. by eapply elsewhere_insert.
    + intros a Ha. destruct (decide (a = self)) as [->|Hne].
      * exists p4. rewrite lookup_insert_eq. split; [done|]. unfold decided. by rewrite Ht4'.
      * rewrite lookup_insert_ne by done. by apply Hall.
Qed.

#[export] Instance decided_dec p s : Decision (decided p s).
Proof. unfold decided. apply _. Defined.

(** ** The tool over a network that loses nothing *)

Definition up (cl : peerMap) (a : string) : Prop :=
  exists p, cl !! a = Some p /\ listening p = true.

Lemma calm_trans c1 c2 c3 : calm c1 c2 -> calm c2 c3 -> calm c1 c3.
Proof.
  intros H1 H2 a. specialize (H1 a). specialize (H2 a).
  destruct H1 as [p1 p2 H1|]; inversion H2; subst; constructor. by eapply quiet_compose.
Qed.

Lemma quiet_listening p p' : quiet p p' -> listening p' = listening p.
Proof. intros (_ & _ & Hl & _). unfold listening. by rewrite Hl. Qed.

Lemma up_calm cl cl' a : calm cl cl' -> up cl a -> up cl' a.
Proof.
  intros Hc (p & Hp & Hl). destruct (calm_Some _ _ _ _ Hc Hp) as (p' & Hp' & Hq).
  exists p'. split; [done|]. by rewrite (quiet_listening _ _ Hq).
Qed.

Section reliable_tool.
Context (fates : nat -> fate) (now : nat -> nat -> Z) (net : nat -> nat -> network) (fuel : nat).
Context (range : gmap string (list string) -> list (string * list string)).
Context (Hfates : forall k, fates k = Delivered).

Lemma call_live {R} srv (h : nat -> served R) sent carried w p cl' r :
  cluster w !! srv = Some p -> listening p = true -> passes_gob (registered w) sent = true ->
  h (calls w) srv (cluster w) = Ret (cl', Some r) -> passes_gob (registered w) (carried r) = true ->
  paxosAdminCall fates srv h sent carried w =
    (Ret (Some r), mkWorld cl' (S (calls w)) (registered w)).
Proof.
  intros Hp Hl Hs Hh Hc. unfold paxosAdminCall.
  change (cluster (w <| calls := S (calls w) |>)) with (cluster w).
  change (registered (w <| calls := S (calls w) |>)) with (registered w).
  rewrite Hp, Hl, Hs, Hfates, Hh, Hc. done.
Qed.

Lemma plain_live {R} srv (h : px -> px * R) w p :
  cluster w !! srv = Some p -> listening p = true ->
  plainCall fates srv h w =
    (Ret (Some (h p).2), mkWorld (<[srv := (h p).1]> (cluster w)) (S (calls w)) (registered w)).
Proof.
  intros Hp Hl. unfold plainCall. apply (call_live _ _ _ _ _ p); try done.
  - by destruct (registered w).
  - unfold serve. rewrite Hp. by destruct (h p).
  - by destruct (registered w).
Qed.

(** A step that changed nothing of substance. *)
Definition calmly (w w' : world) : Prop :=
  calm (cluster w) (cluster w') /\ registered w' = registered w.

Lemma calmly_refl w : calmly w w.
Proof. split; [apply calm_refl|done]. Qed.

Lemma calmly_trans w1 w2 w3 : calmly w1 w2 -> calmly w2 w3 -> calmly w1 w3.
Proof. intros [H1 E1] [H2 E2]. split; [by eapply calm_trans|congruence]. Qed.

Lemma calmly_insert w a p p' k :
  cluster w !! a = Some p -> quiet p p' ->
  calmly w (mkWorld (<[a := p']> (cluster w)) k (registered w)).
Proof. intros Hp Hq. split; [|done]. eapply calm_insert; [apply calm_refl|done..]. Qed.

Lemma lock_live ps v : forall i w, (forall a, a ∈ ps -> up (cluster w) a) ->
  exists w', lockLoop fates i ps v EmptyString w = (Ret EmptyString, w') /\ calmly w w' /\
    forall a, (a ∈ ps \/ exists p, cluster w !! a = Some p /\ isLocked p = v) ->
      exists p, cluster w' !! a = Some p /\ isLocked p = v.
Proof.
  induction ps as [|srv ps IH]; intros i w Hup; cbn [lockLoop].
  { exists w. split; [done|]. split; [apply calmly_refl|].
    intros a [Ha|Ha]; [by apply not_elem_of_nil in Ha|done]. }
  destruct (Hup srv) as (p & Hp & Hl); [by left|].
  unfold mbind, adm_bind. rewrite (plain_live _ _ _ p) by done. cbn [SetLock fst snd].
  set (w1 := mkWorld _ _ _).
  assert (Hc1 : calmly w w1) by (by eapply calmly_insert).
  destruct (IH (S i) w1) as (w' & -> & Hc & Hlk).
  { intros a Ha. eapply up_calm; [apply Hc1|]. apply Hup. by right. }
  exists w'. split; [done|]. split; [by eapply calmly_trans|].
  intros a Ha. apply Hlk. destruct (decide (a = srv)) as [->|Hne].
  - right. eexists. split; [apply lookup_insert_eq|done].
  - destruct Ha as [[->|Ha]%elem_of_cons|(q & Hq & E)]; [done|by left|right].
    exists q. split; [|done]. unfold w1. cbn. by rewrite lookup_insert_ne.
Qed.

Lemma lockPeers_live ps v w : (forall a, a ∈ ps -> up (cluster w) a) ->
  exists w', lockPeers fates ps v w = (Ret None, w') /\ calmly w w' /\
    forall a, a ∈ ps -> exists p, cluster w' !! a = Some p /\ isLocked p = v.
Proof.
  intros Hup. destruct (lock_live ps v 0 w Hup) as (w' & E & Hc & Hl).
  exists w'. unfold lockPeers, mbind, adm_bind. rewrite E. split; [done|]. split; [done|]. auto.
Qed.

Lemma show_live ps : forall good bad w, (forall a, a ∈ ps -> up (cluster w) a) ->
  exists w' good', showLoop fates ps good bad w = (Ret (good', bad), w') /\ calmly w w' /\
    dom good' = dom good ∪ list_to_set ps /\
    forall a ls, good' !! a = Some ls -> good !! a = Some ls \/
      a ∈ ps /\ exists p, cluster w !! a = Some p /\ peers p = ls.
Proof.
  induction ps as [|srv ps IH]; intros good bad w Hup; cbn [showLoop].
  { exists w, good. split_and!; [done|apply calmly_refl|set_solver|auto]. }
  destruct (Hup srv) as (p & Hp & Hl); [by left|].
  unfold mbind, adm_bind. rewrite (plain_live _ _ _ p) by done. cbn [CheckStatus fst snd cs_Peers].
  set (w1 := mkWorld _ _ _).
  assert (Hc1 : calmly w w1) by (by eapply calmly_insert).
  destruct (IH (<[srv := peers p]> good) bad w1) as (w' & good' & -> & Hc & Hd & Hg).
  { intros a Ha. eapply up_calm; [apply Hc1|]. apply Hup. by right. }
  exists w', good'. split_and!; [done|by eapply calmly_trans|rewrite Hd; set_solver|].
  intros a ls Ha. destruct (Hg a ls Ha) as [Ha'|(Hin & q & Hq & Hls)].
  - rewrite lookup_insert in Ha'. case_decide as E; [|by left]. injection Ha' as <-. subst a.
    right. split; [by left|]. eauto.
  - right. split; [by right|]. unfold w1 in Hq. cbn in Hq. rewrite lookup_insert in Hq.
    case_decide as E; [subst a|by eauto]. injection Hq as <-. eauto.
Qed.

(** The lower bound found is below every undecided slot. *)
Lemma bounds_live ps : forall mn mx w,
  (forall a, a ∈ ps -> exists p, cluster w !! a = Some p /\ listening p = true /\ min_ok p) ->
  exists w' mn' mx', boundsLoop fates ps mn mx EmptyString w = (Ret (mn', mx', EmptyString), w') /\
    calmly w w' /\ mn' <= mn /\
    forall a p s, a ∈ ps -> cluster w !! a = Some p -> 0 <= s < mn' -> decided p s.
Proof.
  induction ps as [|srv ps IH]; intros mn mx w Hup; cbn [boundsLoop].
  { exists w, mn, mx. split_and!; [done|apply calmly_refl|lia|].
    intros a p s Ha. by apply not_elem_of_nil in Ha. }
  destruct (Hup srv) as (p & Hp & Hl & Hmin); [by left|].
  destruct (scanUndecided_total (S (size (timeSlot p))) (minUndecidedSlot p) p) as [[p1 n] Escan].
  { pose proof (decidedFrom_size (minUndecidedSlot p) p). lia. }
  set (p2 := p1 <| minUndecidedSlot := n |>).
  assert (Em : MinUndecidedSlot (S (size (timeSlot p))) p = Some (p2, mkMinUndecidedSlotReply n OK)).
  { unfold MinUndecidedSlot. by rewrite Escan. }
  pose proof (MinUndecidedSlot_quiet _ _ _ _ Em) as Hq.
  unfold mbind at 1, adm_bind.
  rewrite (call_live srv (fun _ => serveMinUndecidedSlot) [] (fun _ => []) w p
             (<[srv := p2]> (cluster w)) (mkMinUndecidedSlotReply n OK));
    [|done|done|by destruct (registered w)| |by destruct (registered w)].
  2: { unfold serveMinUndecidedSlot. by rewrite Hp, Em. }
  cbn [mu_Status mu_SlotNum]. set (w1 := mkWorld _ _ _).
  assert (Hc1 : calmly w w1) by (by eapply calmly_insert).
  change (OK =? Reject) with false. cbn iota.
  unfold mbind, adm_bind. rewrite (plain_live _ _ w1 p2).
  2: { apply lookup_insert_eq. }
  2: { by rewrite (quiet_listening _ _ Hq). }
  cbn [MaxDecidedSlot fst snd md_Status md_SlotNum]. set (w2 := mkWorld _ _ _).
  change (getMin mn n) with (Paxos.getMin mn n). change (OK =? Reject) with false. cbn iota.
  assert (Hc2 : calmly w w2).
  { eapply calmly_trans; [done|]. apply (calmly_insert w1 srv p2 p2); [apply lookup_insert_eq|apply quiet_refl]. }
  destruct (IH (Paxos.getMin mn n) (getMax mx (maxDecidedSlot p2)) w2) as (w' & mn' & mx' & -> & Hc & Hle & Hdec).
  { intros a Ha. destruct (Hup a) as (q & Hq1 & Hq2 & Hq3); [by right|].
    destruct (calm_Some _ _ _ _ (proj1 Hc2) Hq1) as (q' & Hq' & Hqq). exists q'.
    rewrite (quiet_listening _ _ Hqq). split_and!; [done|done|]. by apply Hqq. }
  rewrite Paxos.getMin_spec in Hle.
  exists w', mn', mx'. split_and!; [done|by eapply calmly_trans|lia|].
  intros a q s Ha Hqa Hs. destruct (calm_Some _ _ _ _ (proj1 Hc2) Hqa) as (q' & Hq' & Hqq).
  destruct (decide (a = srv)) as [->|Hne].
  - assert (q = p) as -> by congruence.
    apply scanUndecided_spec in Escan as (_ & _ & _ & _ & _ & Hscan). destruct Hmin as [_ Hmin].
    destruct (decide (s < minUndecidedSlot p)); [apply Hmin; lia|apply Hscan; lia].
  - apply elem_of_cons in Ha as [->|Ha]; [done|].
    specialize (Hdec a q' s Ha Hq' Hs). destruct Hqq as (_ & _ & _ & _ & Hsl & _).
    unfold decided in *. by rewrite Hsl in Hdec.
Qed.

(** ** Bringing the peers level *)

Section cluster.
Context (ps : list string) (new : string) (Hnew : new ∉ ps) (Hps : NoDup ps).
Abbreviation n := (Z.of_nat (length ps)).
Context (Hfuel : (2 <= fuel)%nat) (Hnet : forall k j, reliable (net k j) (length ps)).
Context (Hclock : forall k, clock_ok n (now k)).

(** The peers serve and agree on who they are; the new one serves and has
    decided nothing; each slot is decided everywhere or its promises leave
    room. *)
Record healthy (cl : peerMap) : Prop := {
  h_peer : forall a, a ∈ ps -> exists p, cl !! a = Some p /\ listening p = true /\
    peers p ≡ₚ ps /\ seated a p /\ min_ok p;
  h_new : exists q, cl !! new = Some q /\ listening q = true /\ forall s, 0 <= s -> ~ decided q s;
  h_slots : forall s, (forall a p, a ∈ ps -> cl !! a = Some p -> decided p s) \/
    (forall a p, a ∈ ps -> cl !! a = Some p -> room n s p) }.

Lemma healthy_up cl a : healthy cl -> a ∈ ps \/ a = new -> up cl a.
Proof.
  intros [Hp Hn _] [Ha| ->].
  - destruct (Hp a Ha) as (p & ? & ? & _). by exists p.
  - destruct Hn as (q & ? & ? & _). by exists q.
Qed.

Lemma healthy_calm cl cl' : calm cl cl' -> healthy cl -> healthy cl'.
Proof.
  intros Hc [Hp (q & Hq & Hlq & Hund) Hs]. split.
  - intros a Ha. destruct (Hp a Ha) as (p & Hpa & Hl & Hpe & Hse & Hm).
    destruct (calm_Some _ _ _ _ Hc Hpa) as (p' & Hp' & Hqu). exists p'.
    rewrite (quiet_listening _ _ Hqu). destruct Hqu as (E1 & E2 & _ & _ & _ & Hmin).
    unfold seated. rewrite E1, E2. split_and!; auto; apply Hse.
  - destruct (calm_Some _ _ _ _ Hc Hq) as (q' & Hq' & Hqu). exists q'.
    rewrite (quiet_listening _ _ Hqu). split_and!; [done..|]. intros s H0. unfold decided.
    destruct Hqu as (_ & _ & _ & _ & Hsl & _). rewrite Hsl. by apply Hund.
  - intros s. destruct (Hs s) as [H|H]; [left|right]; intros a p' Ha Hp';
      destruct (calm_back _ _ _ _ Hc Hp') as (p & Hpa & _ & _ & _ & _ & Hsl & _);
      specialize (H a p Ha Hpa); unfold decided, room in *; by rewrite Hsl.
Qed.

(** A slot that gets decided everywhere. *)
Lemma healthy_touches s cl cl' :
  touches s cl cl' -> elsewhere ps cl cl' ->
  (forall a, a ∈ ps -> exists p, cl' !! a = Some p /\ decided p s) -> healthy cl -> healthy cl'.
Proof.
  intros Ht He Hd [Hp Hn Hs].
  assert (Hback : forall a p', cl' !! a = Some p' -> exists p, cl !! a = Some p /\ slot_step s p p').
  { intros a p' Hp'. specialize (Ht a). rewrite Hp' in Ht. inversion Ht; subst. eauto. }
  split.
  - intros a Ha. destruct (Hp a Ha) as (p & Hpa & Hl & Hpe & Hse & Hm).
    destruct (touches_Some _ _ _ _ _ Ht Hpa) as (p' & Hp' & Hst). exists p'.
    rewrite (listening_step _ _ _ Hst). destruct Hst as [(Hmin & E1 & E2 & _) _ Ho Hdec _].
    unfold seated, min_ok. rewrite E1, E2, Hmin. split_and!; auto; try apply Hse; [apply Hm|].
    intros s' Hs'. destruct (decide (s' = s)) as [->|Hne]; [by apply Hdec, Hm|].
    unfold decided. rewrite Ho by done. by apply Hm.
  - rewrite (He new Hnew). exact Hn.
  - intros s'. destruct (decide (s' = s)) as [->|Hne].
    + left. intros a p Ha Hpa. destruct (Hd a Ha) as (p' & ? & ?). congruence.
    + destruct (Hs s') as [H|H]; [left|right]; intros a p' Ha Hp';
        destruct (Hback a p' Hp') as (p & Hpa & [_ _ Ho _ _]);
        specialize (H a p Ha Hpa); unfold decided, room in *; by rewrite Ho.
Qed.

(** Decisions stay. *)
Definition keeps (cl cl' : peerMap) : Prop :=
  forall a p s, cl !! a = Some p -> decided p s -> exists p', cl' !! a = Some p' /\ decided p' s.

Lemma keeps_refl cl : keeps cl cl.
Proof. intros a p s. eauto. Qed.

Lemma keeps_trans c1 c2 c3 : keeps c1 c2 -> keeps c2 c3 -> keeps c1 c3.
Proof. intros H1 H2 a p s Hp Hd. destruct (H1 a p s Hp Hd) as (p' & Hp' & Hd'). eauto. Qed.

Lemma touches_keeps s cl cl' : touches s cl cl' -> keeps cl cl'.
Proof.
  intros Ht a p s' Hp Hd. destruct (touches_Some _ _ _ _ _ Ht Hp) as (p' & Hp' & [_ _ Ho Hds _]).
  exists p'. split; [done|]. destruct (decide (s' = s)) as [->|]; [by apply Hds|].
  unfold decided. by rewrite Ho.
Qed.

Lemma calm_keeps cl cl' : calm cl cl' -> keeps cl cl'.
Proof.
  intros Hc a p s Hp Hd. destruct (calm_Some _ _ _ _ Hc Hp) as (p' & Hp' & _ & _ & _ & _ & Hsl & _).
  exists p'. unfold decided. by rewrite Hsl.
Qed.

(** The state of the tool while it brings the peers level. *)
Definition level (w w' : world) : Prop :=
  healthy (cluster w') /\ registered w' = true /\ keeps (cluster w) (cluster w').

Lemma level_trans w1 w2 w3 : level w1 w2 -> level w2 w3 -> level w1 w3.
Proof. intros (_ & _ & K1) (H & R & K2). split_and!; [done..|]. by eapply keeps_trans. Qed.

Lemma syncCall_live srv i w : healthy (cluster w) -> registered w = true -> srv ∈ ps ->
  exists r w', syncCall fates now net fuel srv i w = (Ret (Some r), w') /\ level w w' /\
    exists p, cluster w' !! srv = Some p /\ decided p i.
Proof.
  intros Hh Hreg Hsrv. destruct (h_peer _ Hh srv Hsrv) as (p & Hp & Hl & Hpe & Hse & Hm).
  assert (Hsync : exists cl' r,
    SyncPaxosValue fuel (now (calls w)) (net (calls w)) (mkSyncPaxosValueArgs i) srv (cluster w) =
      Ret (cl', Some r) /\ healthy cl').
  { destruct (decide (decided p i)) as [Hd|Hu].
    - destruct (SyncPaxosValue_decided fuel (now (calls w)) (net (calls w)) i srv _ p Hp Hd)
        as (p' & E & Hq).
      do 2 eexists. split; [exact E|]. eapply healthy_calm; [|done].
      eapply calm_insert; [apply calm_refl|done..].
    - destruct (h_slots _ Hh i) as [Hall|Hroom]; [by destruct Hu; eauto|].
      assert (Hlen : length (peers p) = length ps) by (by rewrite Hpe).
      destruct (SyncPaxosValue_live fuel (now (calls w)) (net (calls w)) i srv (cluster w) p)
        as (cl' & r & E & He & Hdec); rewrite ?Hlen; try done.
      { intros a Ha. rewrite Hpe in Ha. destruct (h_peer _ Hh a Ha) as (q & Hq & Hlq & _).
        exists q. split_and!; [done|done|]. by apply (Hroom a). }
      exists cl', r. split; [done|]. pose proof (SyncPaxosValue_spec fuel (now (calls w)) (net (calls w)) i _ _ _ Hp) as Hs.
      rewrite E in Hs. destruct Hs as [Ht _].
      apply (healthy_touches i (cluster w)); [done| |intros a Ha; apply Hdec; by rewrite Hpe|done].
      intros a Ha. apply He. by rewrite Hpe. }
  destruct Hsync as (cl' & r & E & Hh').
  pose proof (SyncPaxosValue_spec fuel (now (calls w)) (net (calls w)) i _ _ _ Hp) as Hs.
  rewrite E in Hs. destruct Hs as [Ht Hr]. destruct (Hr r eq_refl) as (p' & Hp' & Hd' & Er).
  exists r, (mkWorld cl' (S (calls w)) (registered w)). split.
  - unfold syncCall, mbind, adm_bind.
    rewrite (call_live srv _ [] _ w p cl' r); [|done|done|by destruct (registered w)|exact E|by rewrite Hreg].
    cbn. by rewrite Er.
  - split; [|by exists p']. split_and!; [done|done|]. by eapply touches_keeps.
Qed.

Lemma syncSlot_live all i l0 : forall w e, l0 ⊆ ps -> healthy (cluster w) -> registered w = true ->
  exists w', syncSlot fates now net fuel all i l0 e w = (Ret e, w') /\ level w w' /\
    forall a, a ∈ l0 -> exists p, cluster w' !! a = Some p /\ decided p i.
Proof.
  induction l0 as [|srv l0 IH]; intros w e Hsub Hh Hreg; cbn [syncSlot].
  { exists w. split; [done|]. split; [split_and!; [done|done|apply keeps_refl]|].
    intros a Ha. by apply not_elem_of_nil in Ha. }
  destruct (syncCall_live srv i w Hh Hreg) as (r & w1 & E & (Hh1 & Hr1 & K1) & p & Hp & Hd).
  { apply Hsub. by left. }
  unfold mbind, adm_bind. rewrite E. cbn.
  destruct (IH w1 e) as (w' & E' & Hlev & Hall); [set_solver|done|done|].
  unfold mbind, adm_bind in E'. rewrite E'. exists w'. split; [done|].
  split; [by eapply level_trans; [split_and!|]|].
  intros a [->|Ha]%elem_of_cons; [|auto]. destruct Hlev as (_ & _ & K2). by eapply K2.
Qed.

Lemma syncSlots_live slots : forall w e, healthy (cluster w) -> registered w = true ->
  exists w', syncSlots fates now net fuel ps slots e w = (Ret e, w') /\ level w w' /\
    forall a s, a ∈ ps -> s ∈ slots -> exists p, cluster w' !! a = Some p /\ decided p s.
Proof.
  induction slots as [|i slots IH]; intros w e Hh Hreg; cbn [syncSlots].
  { exists w. split; [done|]. split; [split_and!; [done|done|apply keeps_refl]|].
    intros a s _ Hs. by apply not_elem_of_nil in Hs. }
  destruct (syncSlot_live ps i ps w e) as (w1 & E & (Hh1 & Hr1 & K1) & Hd); [done..|].
  unfold mbind, adm_bind. rewrite E.
  destruct (IH w1 e Hh1 Hr1) as (w' & E' & Hlev & Hall).
  unfold mbind, adm_bind in E'. rewrite E'. exists w'. split; [done|].
  split; [by eapply level_trans; [split_and!|]|].
  intros a s Ha [->|Hs]%elem_of_cons; [|auto]. destruct (Hd a Ha) as (p & Hp & Hdp).
  destruct Hlev as (_ & _ & K2). by eapply K2.
Qed.

(** After [syncPeers] every slot up to the bound is decided everywhere. *)
Lemma syncPeers_live w : healthy (cluster w) -> registered w = true ->
  exists w' mn mx, syncPeers fates now net fuel ps w = (Ret (mn, mx, None), w') /\
    healthy (cluster w') /\ registered w' = true /\
    forall a s, a ∈ ps -> 0 <= s <= mx -> exists p, cluster w' !! a = Some p /\ decided p s.
Proof.
  intros Hh Hreg. unfold syncPeers, mbind, adm_bind.
  destruct (bounds_live ps max_int32 min_int32 w) as (w1 & mn & mx & E1 & [Hc1 Hr1] & _ & Hlow).
  { intros a Ha. destruct (h_peer _ Hh a Ha) as (p & ? & ? & _ & _ & ?). eauto. }
  unfold mbind, adm_bind in E1. rewrite E1.
  pose proof (healthy_calm _ _ Hc1 Hh) as Hh1.
  destruct (syncSlots_live (upTo mn mx) w1 EmptyString) as (w2 & E2 & (Hh2 & Hr2 & K2) & Hd); [done|congruence|].
  unfold mbind, adm_bind in E2. rewrite E2. cbn.
  exists w2, mn, mx. split_and!; [done..|]. intros a s Ha Hs.
  destruct (decide (mn <= s)) as [Hle|Hlt].
  { apply Hd; [done|]. apply elem_upTo. lia. }
  destruct (h_peer _ Hh a Ha) as (p & Hp & _).
  destruct (calm_keeps _ _ Hc1 a p s Hp) as (p1 & Hp1 & Hd1); [eapply Hlow; [done..|lia]|].
  by eapply K2.
Qed.

(** ** Installing the list and copying the slots *)

(** The same slots at every address. *)
Definition keepslots (cl cl' : peerMap) : Prop :=
  forall a p, cl !! a = Some p -> exists p', cl' !! a = Some p' /\ listening p' = listening p /\
    forall s, slotOf p' s = slotOf p s.

Lemma keepslots_trans c1 c2 c3 : keepslots c1 c2 -> keepslots c2 c3 -> keepslots c1 c3.
Proof.
  intros H1 H2 a p Hp. destruct (H1 a p Hp) as (p1 & Hp1 & L1 & S1).
  destruct (H2 a p1 Hp1) as (p2 & Hp2 & L2 & S2). exists p2. split_and!; [done|congruence|].
  intros s. by rewrite S2.
Qed.

Lemma updateCall_live srv newPeers i w : up (cluster w) srv ->
  exists w', updateCall fates srv newPeers i w = (Ret true, w') /\
    keepslots (cluster w) (cluster w') /\ registered w' = registered w /\
    exists p, cluster w' !! srv = Some p /\ peers p = newPeers /\ me p = i.
Proof.
  intros (p & Hp & Hl). unfold updateCall, mbind, adm_bind. rewrite (plain_live _ _ _ p) by done.
  eexists. split; [done|]. cbn. split_and!; [|done|by eexists; rewrite lookup_insert_eq].
  intros a q Hq. rewrite lookup_insert. case_decide as E; [|by eauto].
  subst a. rewrite Hp in Hq. injection Hq as <-. by eexists.
Qed.

Lemma updateLoop_live newPeers l0 : forall i w, (forall a, a ∈ l0 -> up (cluster w) a) ->
  exists w', updateLoop fates newPeers i l0 w = (Ret None, w') /\
    keepslots (cluster w) (cluster w') /\ registered w' = registered w.
Proof.
  induction l0 as [|srv l0 IH]; intros i w Hup; cbn [updateLoop].
  { exists w. split_and!; [done| |done]. intros a p. eauto. }
  destruct (updateCall_live srv newPeers (Z.of_nat i) w) as (w1 & E1 & K1 & R1 & _); [apply Hup; by left|].
  unfold mbind, adm_bind. rewrite E1. destruct (IH (S i) w1) as (w' & E & K & R).
  { intros a Ha. destruct (Hup a) as (p & Hp & Hl); [by right|].
    destruct (K1 a p Hp) as (p' & Hp' & Hl' & _). exists p'. split; congruence. }
  exists w'. split_and!; [done|by eapply keepslots_trans|congruence].
Qed.

Lemma copyLoop_live first : first <> new -> forall slots w p q, NoDup slots -> registered w = true ->
  cluster w !! first = Some p -> listening p = true -> (forall s, s ∈ slots -> decided p s) ->
  cluster w !! new = Some q -> listening q = true -> (forall s, s ∈ slots -> ~ decided q s) ->
  exists w' q', copyLoop fates now net fuel first new slots w = (Ret None, w') /\
    cluster w' !! new = Some q' /\ peers q' = peers q /\ me q' = me q /\
    forall a, is_Some (cluster w !! a) -> listening <$> cluster w' !! a = listening <$> cluster w !! a.
Proof.
  intros Hne. induction slots as [|i slots IH]; intros w p q Hnd Hreg Hp Hlp Hdp Hq Hlq Hdq;
    cbn [copyLoop]; [by exists w, q|].
  apply NoDup_cons in Hnd as [Hi Hnd].
  destruct (SyncPaxosValue_decided fuel (now (calls w)) (net (calls w)) i first _ p Hp)
    as (p' & E & Hqu); [apply Hdp; by left|].
  set (r := mkSyncPaxosValueReply _ _ _ _) in E.
  unfold syncCall, mbind, adm_bind.
  rewrite (call_live first _ [] _ w p (<[first := p']> (cluster w)) r); [|done|done|by destruct (registered w)|exact E|by rewrite Hreg].
  cbn [option_bind syr_Status r]. change (OK =? Reject) with false. cbn iota.
  set (w1 := mkWorld _ _ _). unfold mret at 1, adm_ret. cbn beta iota.
  assert (Hq1 : cluster w1 !! new = Some q) by (cbn; by rewrite lookup_insert_ne).
  set (args := mkPutArgs i (syr_SyncedValue r) (syr_SeqNumAccepted r) (syr_SeqNumHighest r)).
  pose proof (Put_step args q) as Hst. pose proof (Put_spec args q) as Hspec.
  destruct (Put args q) as [q1 rep] eqn:EP. cbn [fst pu_SlotNum args] in *.
  destruct Hspec as (_ & Hspec). destruct (isDecided (slotOf q i)) eqn:Edq.
  { destruct (Hdq i); [by left|done]. }
  destruct Hspec as (_ & _ & ->).
  unfold putCall, mbind, adm_bind. fold args.
  rewrite (call_live new (fun _ => serve (Put args)) _ _ w1 q (<[new := q1]> (cluster w1)) (mkPutReply OK));
    [|done|done|by cbn; rewrite Hreg| |by cbn; rewrite Hreg].
  2: { unfold serve. by rewrite Hq1, EP. }
  change (negb (pur_Status (mkPutReply OK) =? Reject)) with true. cbn iota.
  set (w2 := mkWorld _ _ _).
  assert (Hl2 : forall a, is_Some (cluster w !! a) ->
    is_Some (cluster w2 !! a) /\ listening <$> cluster w2 !! a = listening <$> cluster w !! a).
  { intros a [x Hx]. unfold w2, w1. cbn. destruct (decide (a = new)) as [->|Hn1].
    - rewrite lookup_insert_eq, Hq. cbn. rewrite (listening_step _ _ _ Hst). eauto.
    - rewrite lookup_insert_ne by done. destruct (decide (a = first)) as [->|Hn2].
      + rewrite lookup_insert_eq, Hp. cbn. rewrite (quiet_listening _ _ Hqu). eauto.
      + rewrite lookup_insert_ne by done. eauto. }
  destruct (IH w2 p' q1) as (w' & q' & E' & Hq' & E1 & E2 & Hl'); try done.
  - unfold w2, w1. cbn. rewrite lookup_insert_ne by done. apply lookup_insert_eq.
  - by rewrite (quiet_listening _ _ Hqu).
  - intros s Hs. unfold decided. destruct Hqu as (_ & _ & _ & _ & Hsl & _). rewrite Hsl.
    apply Hdp. by right.
  - apply lookup_insert_eq.
  - by rewrite (listening_step _ _ _ Hst).
  - intros s Hs. unfold decided. rewrite (ss_others _ _ _ Hst) by (intros ->; done).
    apply Hdq. by right.
  - exists w', q'. pose proof (ss_control _ _ _ Hst) as (_ & Ep & Em & _).
    split_and!; [exact E'|done|congruence..|].
    intros a Ha. destruct (Hl2 a Ha) as [Hs2 <-]. by apply Hl'.
Qed.

Lemma up_keepslots cl cl' a : keepslots cl cl' -> up cl a -> up cl' a.
Proof.
  intros K (p & Hp & Hl). destruct (K a p Hp) as (p' & Hp' & Hl' & _). exists p'. split; congruence.
Qed.

Lemma up_listening cl cl' a :
  listening <$> cl' !! a = listening <$> cl !! a -> up cl a -> up cl' a.
Proof.
  intros E (p & Hp & Hl). rewrite Hp in E. unfold up. destruct (cl' !! a) as [p'|]; [|done].
  exists p'. split; [done|]. injection E as ->. done.
Qed.

Lemma addUnderLock_live w : ps <> [] -> healthy (cluster w) -> registered w = true ->
  exists w', addUnderLock fates now net fuel ps (ps ++ [new]) new None w = (Ret None, w') /\
    (exists q, cluster w' !! new = Some q /\ peers q = ps ++ [new] /\ me q = Z.of_nat (length ps)) /\
    forall a, a ∈ ps ++ [new] -> up (cluster w') a.
Proof.
  intros Hne Hh Hreg. unfold addUnderLock, mbind, adm_bind.
  destruct (syncPeers_live w Hh Hreg) as (w1 & mn & mx & -> & Hh1 & Hr1 & Hdec).
  assert (Hup1 : forall a, a ∈ ps ++ [new] -> up (cluster w1) a).
  { intros a Ha. apply healthy_up; [done|]. set_solver. }
  destruct (updateLoop_live (ps ++ [new]) ps 0 w1) as (w2 & -> & K2 & R2).
  { intros a Ha. apply Hup1. set_solver. }
  assert (Hup2 : up (cluster w2) new) by (eapply up_keepslots; [done|apply Hup1; set_solver]).
  destruct (updateCall_live new (ps ++ [new]) (Z.of_nat (length (ps ++ [new])) - 1) w2 Hup2)
    as (w3 & -> & K3 & R3 & q & Hq & Hqp & Hqm).
  pose proof (keepslots_trans _ _ _ K2 K3) as K.
  assert (Hup3 : forall a, a ∈ ps ++ [new] -> up (cluster w3) a).
  { intros a Ha. eapply up_keepslots; [exact K|auto]. }
  destruct ps as [|first ps0] eqn:Eps; [done|]. rewrite <- Eps in *.
  assert (Hfirst : first ∈ ps) by (rewrite Eps; by left).
  destruct (h_peer _ Hh1 first Hfirst) as (p1 & Hp1 & Hl1 & _).
  destruct (K first p1 Hp1) as (p & Hp & Hl & Hsl).
  destruct (h_new _ Hh1) as (q1 & Hq1 & Hlq1 & Hund).
  destruct (K new q1 Hq1) as (q' & Hq' & Hlq & Hslq).
  rewrite Hq in Hq'. injection Hq' as <-.
  destruct (copyLoop_live first) with (slots := upTo 0 mx) (w := w3) (p := p) (q := q)
    as (w4 & q4 & E & Hq4 & Hp4 & Hm4 & Hl4); try congruence.
  - apply NoDup_seqZ.
  - intros s Hs%elem_upTo. destruct (Hdec first s Hfirst Hs) as (p0 & Hp0 & Hd0).
    unfold decided. rewrite Hsl. congruence.
  - intros s Hs%elem_upTo. unfold decided. rewrite Hslq. apply Hund. lia.
  - exists w4. split; [exact E|]. split.
    + exists q4. split; [done|]. rewrite Hp4, Hm4, Hqp, Hqm. split; [done|].
      rewrite length_app. cbn [length]. lia.
    + intros a Ha. destruct (Hup3 a Ha) as (pa & Hpa & Hla).
      apply (up_listening (cluster w3)); [apply Hl4; eauto|by exists pa].
Qed.

End cluster.

Lemma healthy_perm ps ps' new cl : ps' ≡ₚ ps -> healthy ps new cl -> healthy ps' new cl.
Proof.
  intros Hp [H1 H2 H3]. split; [| done |].
  - intros a Ha. rewrite Hp in Ha. destruct (H1 a Ha) as (p & ? & ? & Hpe & ?). exists p.
    by rewrite Hpe, Hp.
  - intros s. rewrite (Permutation_length Hp). destruct (H3 s) as [H|H]; [left|right]; intros a p Ha; rewrite Hp in Ha; eauto.
Qed.

Lemma AddPeer_live ps new w :
  (forall m, range m ≡ₚ map_to_list m) -> (2 <= fuel)%nat ->
  (forall k j, reliable (net k j) (length ps)) -> (forall k, clock_ok (Z.of_nat (length ps)) (now k)) ->
  NoDup ps -> ps <> [] -> new ∉ ps -> healthy ps new (cluster w) ->
  exists w' ps', AddPeer fates now net fuel range ps new w = (Ret None, w') /\ ps' ≡ₚ ps /\
    extended (cluster w) ps' new (cluster w') /\
    (exists q, cluster w' !! new = Some q /\ peers q = ps' ++ [new] /\ me q = Z.of_nat (length ps)) /\
    forall a, a ∈ new :: ps -> exists p, cluster w' !! a = Some p /\ isLocked p = false.
Proof.
  intros Hrange Hfuel Hnet Hclock Hps Hne Hnew Hh. unfold AddPeer, mbind, adm_bind.
  assert (Hup : forall cl a, healthy ps new cl -> a ∈ ps -> up cl a).
  { intros cl a H Ha. eapply healthy_up; eauto. }
  destruct (lockPeers_live ps false w) as (w1 & -> & [C1 R1] & _); [by auto|].
  pose proof (healthy_calm ps new _ _ C1 Hh) as Hh1.
  set (w2 := w1 <| registered := true |>). unfold register at 1. fold w2.
  assert (Hhead : forall (A : Type) (x y : A), match ps with [] => x | _ => y end = y) by (by destruct ps).
  rewrite Hhead. clear Hhead.
  destruct (show_live ps ∅ [] w2) as (w3 & good & E3 & [C3 R3] & Hd & Hg).
  { intros a Ha. by apply (Hup (cluster w1)). }
  unfold ShowPeers. rewrite E3. cbn beta iota.
  pose proof (healthy_calm ps new _ _ C3 Hh1) as Hh3.
  assert (Hdom : dom good = list_to_set ps) by (rewrite Hd; set_solver).
  assert (Hsz : Nat.ltb (size good) (length ps) = false).
  { apply Nat.ltb_ge. rewrite <- size_dom, Hdom, size_list_to_set by done. done. }
  rewrite Hsz. clear Hsz.
  pose proof (consistent_spec (range good).*2 ps) as Hcons.
  destruct (consistent _ ps) as [b ps'] eqn:Ec. destruct Hcons as [Hps' [_ Hb]].
  assert (b = true) as ->.
  { apply Hb. apply Forall_forall. intros ls ([a ls'] & -> & Hin)%list_elem_of_fmap.
    rewrite Hrange in Hin. apply elem_of_map_to_list in Hin. cbn.
    destruct (Hg a ls' Hin) as [|(Ha & p & Hp & <-)]; [done|].
    destruct (h_peer _ _ _ Hh1 a Ha) as (p' & Hp' & _ & Hpe & _). cbn in Hp. congruence. }
  clear Hb. cbn [negb].
  assert (Hup3 : forall a, a ∈ ps' ++ [new] -> up (cluster w3) a).
  { intros a Ha. eapply healthy_up; [exact Hh3|]. rewrite Hps' in Ha. set_solver. }
  destruct (lockPeers_live (ps' ++ [new]) true w3 Hup3) as (w4 & -> & [C4 R4] & _).
  pose proof (healthy_calm ps new _ _ C4 Hh3) as Hh4.
  pose proof (healthy_perm ps ps' new _ Hps' Hh4) as Hh4'.
  assert (Hlen : length ps' = length ps) by (by rewrite Hps').
  assert (Hnd' : NoDup ps') by (by rewrite Hps').
  assert (Hnew' : new ∉ ps') by (by rewrite Hps').
  assert (Hne' : ps' <> []) by (intros ->; by apply Permutation_nil_l in Hps').
  destruct (addUnderLock_live ps' new Hnew') with (w := w4) as (w5 & E5 & Hq & Hup5); try done.
  1-2: by rewrite Hlen.
  { by rewrite R4, R3. }
  unfold defer. rewrite E5.
  destruct (lockPeers_live (ps' ++ [new]) false w5 Hup5) as (w6 & E6 & [C6 R6] & Hl6).
  rewrite E6. exists w6, ps'. split; [done|]. split; [done|].
  assert (C : calm (cluster w) (cluster w4)).
  { eapply calm_trans; [exact C1|]. eapply calm_trans; [exact C3|exact C4]. }
  pose proof (addUnderLock_spec fates now net fuel (cluster w) ps' new None Hnd' Hne' Hnew' w4 C) as Hx.
  rewrite E5 in Hx. split; [by eapply extended_calm; [exact C6|apply Hx]|]. split.
  - destruct Hq as (q & Hq & Hqp & Hqm). destruct (calm_Some _ _ _ _ C6 Hq) as (q' & Hq' & E1 & E2 & _).
    exists q'. rewrite <- Hlen. split_and!; congruence.
  - intros a Ha. apply Hl6. rewrite Hps'. set_solver.
Qed.

Lemma changeLoop_live all i l0 : forall w, (forall a, a ∈ l0 -> up (cluster w) a) ->
  exists w', changeLoop fates all i l0 w = (Ret tt, w') /\ keepslots (cluster w) (cluster w') /\
    forall a, (a ∈ l0 \/ exists p, cluster w !! a = Some p /\ peers p = all /\ me p = i) ->
      exists p, cluster w' !! a = Some p /\ peers p = all /\ me p = i.
Proof.
  induction l0 as [|srv l0 IH]; intros w Hup; cbn [changeLoop].
  { exists w. split_and!; [done|intros a p; eauto|]. intros a [Ha|Ha]; [by apply not_elem_of_nil in Ha|done]. }
  destruct (Hup srv) as (p & Hp & Hl); [by left|].
  unfold mbind, adm_bind, updateCall. unfold mbind, adm_bind. rewrite (plain_live _ _ _ p) by done.
  unfold mret at 1, adm_ret. cbn beta iota. set (w1 := mkWorld _ _ _).
  assert (K1 : keepslots (cluster w) (cluster w1)).
  { intros a q Hq. unfold w1. cbn. rewrite lookup_insert. case_decide as E; [|by eauto].
    subst a. rewrite Hp in Hq. injection Hq as <-. by eexists. }
  destruct (IH w1) as (w' & E & K & Hall).
  { intros a Ha. eapply up_keepslots; [exact K1|]. apply Hup. by right. }
  exists w'. split_and!; [done|by eapply keepslots_trans|].
  intros a Ha. apply Hall. destruct (decide (a = srv)) as [->|Hne].
  - right. eexists. split; [apply lookup_insert_eq|done].
  - destruct Ha as [[->|Ha]%elem_of_cons|(q & Hq & ?)]; [done|by left|right].
    exists q. split; [|done]. unfold w1. cbn. by rewrite lookup_insert_ne.
Qed.

(** Every peer is given the same index. *)
Lemma ChangePeer_live ps peerme w : ps <> [] -> (forall a, a ∈ ps -> up (cluster w) a) ->
  exists w', ChangePeer fates ps peerme w = (Ret None, w') /\
    forall a, a ∈ ps -> exists p, cluster w' !! a = Some p /\ peers p = ps /\
      me p = findMe peerme 0 0 ps.
Proof.
  intros Hne Hup. unfold ChangePeer, mbind, adm_bind.
  destruct (lockPeers_live ps false w Hup) as (w1 & -> & [C1 _] & _).
  unfold register. destruct ps as [|a0 ps0] eqn:Eps; [done|]. rewrite <- Eps in *.
  set (w2 := w1 <| registered := true |>).
  destruct (lockPeers_live ps true w2) as (w3 & -> & [C3 _] & _).
  { intros a Ha. eapply up_calm; [exact C1|auto]. }
  assert (Hup3 : forall a, a ∈ ps -> up (cluster w3) a).
  { intros a Ha. eapply up_calm; [exact C3|]. eapply up_calm; [exact C1|auto]. }
  destruct (changeLoop_live ps (findMe peerme 0 0 ps) ps w3 Hup3) as (w4 & E4 & K4 & Hall).
  unfold defer. unfold mbind, adm_bind. rewrite E4. unfold mret, adm_ret.
  destruct (lockPeers_live ps false w4) as (w5 & -> & [C5 _] & _).
  { intros a Ha. eapply up_keepslots; [exact K4|auto]. }
  exists w5. split; [done|]. intros a Ha. destruct (Hall a) as (p & Hp & Hpp & Hpm); [by left|].
  destruct (calm_Some _ _ _ _ C5 Hp) as (p' & Hp' & E1 & E2 & _). exists p'. split_and!; congruence.
Qed.

End reliable_tool.

(** ** Properties *)

(** C16: adding a peer to a healthy cluster succeeds.  When no message is lost,
    the clock is far from overflow, the peers given serve, hold this list in
    whatever order and know their places, and the new peer serves and has
    decided nothing, [AddPeer] returns nil: all hold the extended list and
    their places in it, the new peer has the slots of the others, and everybody
    is unlocked again. *)
Theorem add_peer_succeeds fates now net fuel range ps new w :
  (forall k, fates k = Delivered) -> (forall m, range m ≡ₚ map_to_list m) -> (2 <= fuel)%nat ->
  (forall k j, reliable (net k j) (length ps)) -> (forall k, clock_ok (Z.of_nat (length ps)) (now k)) ->
  NoDup ps -> ps <> [] -> new ∉ ps -> healthy ps new (cluster w) ->
  exists w' ps', AddPeer fates now net fuel range ps new w = (Ret None, w') /\ ps' ≡ₚ ps /\
    extended (cluster w) ps' new (cluster w') /\
    (exists q, cluster w' !! new = Some q /\ peers q = ps' ++ [new] /\ me q = Z.of_nat (length ps)) /\
    forall a, a ∈ new :: ps -> exists p, cluster w' !! a = Some p /\ isLocked p = false.
Proof. intros. by apply AddPeer_live. Qed.

Lemma demo_slot last i s : 0 <= last ->
  slotOf (demo_peer i last) s = if decide (0 <= s <= last) then mkSlot (demo_value s) true 5 5 else emptySlot.
Proof.
  intros Hl. unfold slotOf, demo_peer, demo_slots. cbn [timeSlot].
  case_decide as Hs.
  - erewrite elem_of_list_to_map_1; [done| |].
    + rewrite <- list_fmap_compose. cbn. rewrite list_fmap_id. apply NoDup_seqZ.
    + apply list_elem_of_fmap. exists s. split; [done|]. by apply elem_upTo.
  - rewrite not_elem_of_list_to_map_1; [done|]. rewrite <- list_fmap_compose. cbn.
    rewrite list_fmap_id, elem_upTo. lia.
Qed.

Lemma demo_member a p : a ∈ demo_peers -> demo_cluster !! a = Some p ->
  exists i j last, p = demo_peer j last /\ j = Z.of_nat i /\ demo_peers !! i = Some a /\ 0 <= last.
Proof.
  intros Ha Hp. assert (Hc : demo_cluster !! "a:1" = Some (demo_peer 0 4) /\
    demo_cluster !! "b:2" = Some (demo_peer 1 5) /\ demo_cluster !! "c:3" = Some (demo_peer 2 4))
    by (split_and!; reflexivity).
  destruct Hc as (H1 & H2 & H3). unfold demo_peers in Ha. rewrite !elem_of_cons in Ha.
  destruct Ha as [->|[->|[->|Ha]]]; [exists 0%nat, 0, 4|exists 1%nat, 1, 5|exists 2%nat, 2, 4|by apply not_elem_of_nil in Ha];
    (split_and!; [congruence|done|done|lia]).
Qed.

Lemma demo_healthy : healthy demo_peers "d:4" demo_cluster.
Proof.
  assert (Hnd : NoDup demo_peers).
  { apply (bool_decide_eq_true_1 (NoDup demo_peers)). vm_compute. reflexivity. }
  split.
  - intros a Ha. assert (Hs : is_Some (demo_cluster !! a)).
    { unfold demo_peers in Ha. rewrite !elem_of_cons in Ha.
      destruct Ha as [->|[->|[->|Ha]]]; [by eexists..|by apply not_elem_of_nil in Ha]. }
    destruct Hs as [p Hp]. destruct (demo_member a p Ha Hp) as (i & j & last & -> & -> & Hi & _).
    eexists. split; [exact Hp|]. split_and!; [done|done| |].
    + split_and!; [done|cbn; lia|cbn; by rewrite Nat2Z.id].
    + split; cbn; [lia|]. intros s Hs. lia.
  - exists new_peer. split_and!; [reflexivity|done|]. intros s _. unfold decided, slotOf. cbn.
    by rewrite lookup_empty.
  - intros s. right. intros a p Ha Hp. destruct (demo_member a p Ha Hp) as (i & j & last & -> & _ & _ & Hl).
    unfold room. rewrite demo_slot by done. case_decide; cbn; lia.
Qed.

Lemma add_peer_succeeds_witness :
  exists w' ps', AddPeer all_delivered demo_now (demo_round [1; 0; 2]%nat) 2 map_to_list demo_peers
      "d:4" (mkWorld demo_cluster 0 false) = (Ret None, w') /\ ps' ≡ₚ demo_peers.
Proof.
  destruct (add_peer_succeeds all_delivered demo_now (demo_round [1; 0; 2]%nat) 2 map_to_list demo_peers
              "d:4" (mkWorld demo_cluster 0 false)) as (w' & ps' & E & Hp & _).
  - reflexivity.
  - intros m. reflexivity.
  - lia.
  - intros k j. split_and!; try reflexivity. cbn. apply perm_swap.
  - intros k j. vm_compute. split; [discriminate|reflexivity].
  - apply (bool_decide_eq_true_1 (NoDup demo_peers)). vm_compute. reflexivity.
  - discriminate.
  - apply (bool_decide_eq_true_1 ("d:4" ∉ demo_peers)). vm_compute. reflexivity.
  - exact demo_healthy.
  - exists w', ps'. split; assumption.
Defined.

(** [a], then [c], propose for slot 0; of the messages to the other peers only
    [b]'s Prepare of the first proposal, and all of the second one but those to
    [a], arrive. *)
Definition self_only (k : nat) : network :=
  mkNet (fun _ => Delivered) (fun i => if Nat.eqb i 1 then RequestLost else Delivered)
    (fun i => if Nat.eqb i 1 then RequestLost else Delivered) [0; 1; 2]%nat.
Definition without_a (k : nat) : network :=
  let f i := if Nat.eqb i 0 then RequestLost else Delivered in mkNet f f f [0; 1; 2]%nat.

Definition idle_peer (i : Z) : px := mkPx (Some Listening) false demo_peers i ∅ ∅ false ∅ 0 0.
Definition idle_cluster : peerMap :=
  list_to_map [("a:1", idle_peer 0); ("b:2", idle_peer 1); ("c:3", idle_peer 2)].

Definition changed : world := (ChangePeer all_delivered demo_peers "c:3" (mkWorld idle_cluster 0 false)).2.

Definition propose (now : Z) (net : nat -> network) (self : string) (v : value) (cl : peerMap) : peerMap :=
  match startHelper 1 (fun _ => now) net self 0 v cl with Ret cl => cl | _ => cl end.

Definition split_cluster : peerMap :=
  propose 2000 without_a "c:3" (demo_value 2) (propose 1000 self_only "a:1" (demo_value 1) (cluster changed)).

(** C18: ChangePeer breaks agreement.  On any cluster whose peers serve, over a
    network that loses nothing, [ChangePeer] returns nil and has given every
    peer the same index, that of the peer named.  A peer with the wrong index
    counts itself twice, as itself and in the place of the peer it takes
    itself for: of three peers the first then decides alone, and the third
    decides another value with the second, so that two peers report different
    decisions for one slot. *)
Theorem change_peer_breaks_agreement :
  (forall fates ps peerme w, (forall k, fates k = Delivered) -> ps <> [] ->
     (forall a, a ∈ ps -> up (cluster w) a) ->
     exists w', ChangePeer fates ps peerme w = (Ret None, w') /\
       forall a, a ∈ ps -> exists p, cluster w' !! a = Some p /\ peers p = ps /\
         me p = findMe peerme 0 0 ps) /\
  exists pa pc, split_cluster !! "a:1" = Some pa /\ split_cluster !! "c:3" = Some pc /\
    snd (Status 0 pa) = (true, demo_value 1, None) /\ snd (Status 0 pc) = (true, demo_value 2, None) /\
    demo_value 1 <> demo_value 2.
Proof.
  split.
  - intros fates ps peerme w Hf Hne Hup. by apply ChangePeer_live.
  - do 2 eexists. split; [vm_compute; reflexivity|]. split; [vm_compute; reflexivity|].
    split; [vm_compute; reflexivity|]. split; [vm_compute; reflexivity|]. discriminate.
Qed.

Lemma change_peer_breaks_agreement_witness :
  exists w', ChangePeer all_delivered demo_peers "c:3" (mkWorld demo_cluster 0 false) = (Ret None, w') /\
    forall a, a ∈ demo_peers -> exists p, cluster w' !! a = Some p /\ peers p = demo_peers /\
      me p = findMe "c:3" 0 0 demo_peers.
Proof.
  destruct change_peer_breaks_agreement as [H _].
  apply (H all_delivered demo_peers "c:3" (mkWorld demo_cluster 0 false)).
  - reflexivity.
  - discriminate.
  - intros a Ha. exact (healthy_up demo_peers "d:4" demo_cluster a demo_healthy (or_introl Ha)).
Defined.

End PaxosAdminLive.
