(* ===== verification/PaxosSafety.v ===== *)
(** * PaxosSafety: concurrent proposers over an asynchronous network

    Any number of attempts (iterations of the loop of [startHelper]) run at
    once.  Every RPC is one event: it may be handled at any later time, or
    never, and its reply may be lost; replies are collected in any order.  The
    peers run the handlers of [Paxos] and the attempts its collecting steps.
    An attempt may use any sequence number, so what is proved does not depend
    on the numbers being unique.  The peer list is fixed. *)
From S2P Require Import Prelude PaxosRpc Paxos.
Open Scope Z_scope.

Module PaxosSafety.
Import Paxos.

(** [NoPromises] and [NoVotes]: a majority failed, the code starts over. *)
Inductive phase := Preparing | NoPromises | Accepting | NoVotes | Deciding.

#[export] Instance phase_eq_dec : EqDecision phase.
Proof. solve_decision. Defined.

(** An iteration of the loop: its sequence number and value, the requests not
    yet handled, the replies in its channels, its local variables, and (for
    the proofs) the peers whose OK it has counted. *)
Record attempt := mkAttempt {
  a_me : nat; a_slot : Z; a_seq : Z; a_val : value;
  a_phase : phase;
  coll : collecting;
  prepTo : gset nat; prepCh : gmap nat (option PrepareReply); okFrom : gset nat;
  accTo : gset nat; accCh : gmap nat (option AcceptReply); accFrom : gset nat;
  decTo : gset nat }.

#[export] Instance eta_attempt : EtaRecord attempt := fun a =>
  mkAttempt (a_me a) (a_slot a) (a_seq a) (a_val a) (a_phase a) (coll a) (prepTo a) (prepCh a)
    (okFrom a) (accTo a) (accCh a) (accFrom a) (decTo a).

(** The peers, the attempts, and two history variables: who accepted what
    ([votes]: peer, slot, number, value) and who promised whom ([promises]:
    peer, slot, number, attempt). *)
Record sys := mkSys {
  pxs : list px;
  attempts : list attempt;
  votes : list (nat * Z * Z * value);
  promises : list (nat * Z * Z * nat) }.

#[export] Instance eta_sys : EtaRecord sys := fun S =>
  mkSys (pxs S) (attempts S) (votes S) (promises S).

Definition everyone (S : sys) : gset nat := set_seq 0 (length (pxs S)).
Definition npeers (S : sys) : Z := Z.of_nat (length (pxs S)).

Inductive event :=
  | Start (me : nat) (slot seq : Z) (v : value)
  | PrepareAt (k i : nat) (f : fate)
  | PrepareHeard (k i : nat)
  | AcceptAt (k i : nat) (f : fate)
  | AcceptHeard (k i : nat)
  | DecideAt (k i : nat) (f : fate).

Definition set_attempt (k : nat) (a : attempt) (S : sys) : sys :=
  S <| attempts := <[k := a]> (attempts S) |>.

Definition set_peer (i : nat) (p : px) (S : sys) : sys :=
  S <| pxs := <[i := p]> (pxs S) |>.

(** The reply that reaches the proposer. *)
Definition arrives {R} (f : fate) (r : R) : option R :=
  match f with Delivered => Some r | _ => None end.

Definition do_start (me : nat) (slot seq : Z) (v : value) (S : sys) : option sys :=
  if decide (me < length (pxs S))%nat then
    Some (S <| attempts := attempts S ++
      [mkAttempt me slot seq v Preparing (startPrepare v) (everyone S) ∅ ∅ ∅ ∅ ∅ ∅] |>)
  else None.

Definition do_prepare (k i : nat) (f : fate) (S : sys) : option sys :=
  a ← attempts S !! k;
  p ← pxs S !! i;
  if decide (i ∈ prepTo a) then
    let a := a <| prepTo := prepTo a ∖ {[i]} |> in
    match f with
    | RequestLost => Some (set_attempt k (a <| prepCh := <[i := None]> (prepCh a) |>) S)
    | _ =>
        let '(p', r) := Prepare (mkPrepareArgs (a_slot a) (a_seq a) (Z.of_nat (a_me a)) (-1)) p in
        let S := set_attempt k (a <| prepCh := <[i := arrives f r]> (prepCh a) |>) (set_peer i p' S) in
        Some (if pr_Status r =? OK
              then S <| promises := (i, a_slot a, a_seq a, k) :: promises S |> else S)
    end
  else None.

Definition do_prepare_reply (k i : nat) (S : sys) : option sys :=
  a ← attempts S !! k;
  rep ← prepCh a !! i;
  if decide (a_phase a = Preparing) then
    let c := collectPrepare rep (coll a) in
    let a := a <| prepCh := delete i (prepCh a) |> <| coll := c |>
               <| okFrom := if okPrepare rep then {[i]} ∪ okFrom a else okFrom a |> in
    Some (set_attempt k
      (if majority (npeers S) c then
         a <| a_phase := Accepting |> <| coll := startAccept c |> <| accTo := everyone S |>
       else if decide (prepTo a = ∅ /\ prepCh a = ∅) then a <| a_phase := NoPromises |>
       else a) S)
  else None.

Definition do_accept (k i : nat) (f : fate) (S : sys) : option sys :=
  a ← attempts S !! k;
  p ← pxs S !! i;
  if decide (i ∈ accTo a) then
    let a := a <| accTo := accTo a ∖ {[i]} |> in
    match f with
    | RequestLost => Some (set_attempt k (a <| accCh := <[i := None]> (accCh a) |>) S)
    | _ =>
        let v := proposeValue (coll a) in
        let '(p', r) := Accept (mkAcceptArgs (a_slot a) (a_seq a) v) p in
        let S := set_attempt k (a <| accCh := <[i := arrives f r]> (accCh a) |>) (set_peer i p' S) in
        Some (if ar_Status r =? OK
              then S <| votes := (i, a_slot a, a_seq a, v) :: votes S |> else S)
    end
  else None.

Definition do_accept_reply (k i : nat) (S : sys) : option sys :=
  a ← attempts S !! k;
  rep ← accCh a !! i;
  if decide (a_phase a = Accepting) then
    let c := collectAccept rep (coll a) in
    let a := a <| accCh := delete i (accCh a) |> <| coll := c |>
               <| accFrom := if okAccept rep then {[i]} ∪ accFrom a else accFrom a |> in
    Some (set_attempt k
      (if majority (npeers S) c then a <| a_phase := Deciding |> <| decTo := everyone S |>
       else if decide (accTo a = ∅ /\ accCh a = ∅) then a <| a_phase := NoVotes |>
       else a) S)
  else None.

Definition do_decide (k i : nat) (f : fate) (S : sys) : option sys :=
  a ← attempts S !! k;
  p ← pxs S !! i;
  if decide (i ∈ decTo a) then
    let S' := set_attempt k (a <| decTo := decTo a ∖ {[i]} |>) S in
    match f with
    | RequestLost => Some S'
    | _ => Some (set_peer i (Decide (mkDecideArgs (a_slot a) (proposeValue (coll a))) p).1 S')
    end
  else None.

Definition exec (e : event) (S : sys) : option sys :=
  match e with
  | Start me slot seq v => do_start me slot seq v S
  | PrepareAt k i f => do_prepare k i f S
  | PrepareHeard k i => do_prepare_reply k i S
  | AcceptAt k i f => do_accept k i f S
  | AcceptHeard k i => do_accept_reply k i S
  | DecideAt k i f => do_decide k i f S
  end.

Fixpoint execs (es : list event) (S : sys) : option sys :=
  match es with
  | [] => Some S
  | e :: es' => S' ← exec e S; execs es' S'
  end.

(** The cluster at the start: every slot of every peer is empty. *)
Definition initial (S : sys) : Prop :=
  Forall (fun p => forall s, slotOf p s = emptySlot) (pxs S) /\
  attempts S = [] /\ votes S = [] /\ promises S = [].

Definition reachable (S : sys) : Prop := exists S0 es, initial S0 /\ execs es S0 = Some S.

(** ** What the invariants speak about *)

(** Slot [s] of peer [i]. *)
Definition slotIn (S : sys) (i : nat) (s : Z) : timeSlotValue :=
  match pxs S !! i with Some p => slotOf p s | None => emptySlot end.

Definition vote (S : sys) (i : nat) (s n : Z) (v : value) : Prop := (i, s, n, v) ∈ votes S.
Definition promise (S : sys) (i : nat) (s n : Z) (k : nat) : Prop := (i, s, n, k) ∈ promises S.

Definition quorum (S : sys) (Q : gset nat) : Prop :=
  Q ⊆ set_seq 0 (length (pxs S)) /\ (length (pxs S) / 2 < size Q)%nat.

(** A majority accepted [v] under number [n]. *)
Definition chosen (S : sys) (s n : Z) (v : value) : Prop :=
  exists Q, quorum S Q /\ forall i, i ∈ Q -> vote S i s n v.
Definition is_chosen (S : sys) (s : Z) (v : value) : Prop := exists n, chosen S s n v.

(** [v] can no longer be chosen under number [n]: a majority has promised more
    without accepting it. *)
Definition unchoosable (S : sys) (s n : Z) (v : value) : Prop :=
  exists Q, quorum S Q /\ forall i, i ∈ Q -> ~ vote S i s n v /\ n < seqNumHighest (slotIn S i s).

(** The condition on a proposal: no other value can be chosen below it. *)
Definition safe_at (S : sys) (s n : Z) (v : value) : Prop :=
  forall n' v', n' < n -> v' <> v -> unchoosable S s n' v'.

Definition proposed (a : attempt) : Prop :=
  a_phase a <> Preparing /\ a_phase a <> NoPromises.

(** What an OK reply [(m, w)] of peer [i] to attempt [k] says for ever. *)
Record reply_ok (S : sys) (i : nat) (s n : Z) (k : nat) (m : Z) (w : value) : Prop := {
  rp_promise : promise S i s n k;
  rp_range : 0 <= m < n;
  rp_max : forall n' v', vote S i s n' v' -> n' < n -> n' <= m;
  rp_value : m = 0 \/ vote S i s m w \/ is_chosen S s w }.

(** What the proposer knows after collecting. *)
Record knows (S : sys) (k : nat) (a : attempt) : Prop := {
  kn_promise : forall i, i ∈ okFrom a -> promise S i (a_slot a) (a_seq a) k;
  kn_range : 0 <= maxSeqNumAccepted (coll a);
  kn_max : forall i n' v', i ∈ okFrom a -> vote S i (a_slot a) n' v' -> n' < a_seq a ->
    n' <= maxSeqNumAccepted (coll a);
  kn_value : (maxSeqNumAccepted (coll a) = 0 /\ proposeValue (coll a) = a_val a) \/
    (maxSeqNumAccepted (coll a) < a_seq a /\
     (is_chosen S (a_slot a) (proposeValue (coll a)) \/
      exists i, vote S i (a_slot a) (maxSeqNumAccepted (coll a)) (proposeValue (coll a)))) }.

Record attempt_ok (S : sys) (k : nat) (a : attempt) : Prop := {
  at_sub : prepTo a ∪ dom (prepCh a) ∪ okFrom a ∪ accTo a ∪ dom (accCh a) ∪ accFrom a ⊆ everyone S;
  at_prep_disj : prepTo a ## dom (prepCh a) /\ okFrom a ## prepTo a ∪ dom (prepCh a);
  at_acc_disj : accTo a ## dom (accCh a) /\ accFrom a ## accTo a ∪ dom (accCh a);
  at_reply : forall i r, prepCh a !! i = Some (Some r) -> pr_Status r = OK ->
    reply_ok S i (a_slot a) (a_seq a) k (pr_SeqNumAccepted r) (pr_ValueAccepted r);
  at_knows : knows S k a;
  at_num : a_phase a = Preparing -> numOk (coll a) = Z.of_nat (size (okFrom a));
  at_idle : ~ proposed a -> accTo a = ∅ /\ accCh a = ∅ /\ accFrom a = ∅;
  at_quorum : proposed a -> quorum S (okFrom a);
  at_safe : proposed a -> safe_at S (a_slot a) (a_seq a) (proposeValue (coll a));
  at_accReply : forall i r, accCh a !! i = Some (Some r) -> ar_Status r = OK ->
    vote S i (a_slot a) (a_seq a) (proposeValue (coll a));
  at_accFrom : forall i, i ∈ accFrom a -> vote S i (a_slot a) (a_seq a) (proposeValue (coll a));
  at_accNum : a_phase a = Accepting -> numOk (coll a) = Z.of_nat (size (accFrom a));
  at_chosen : a_phase a = Deciding -> chosen S (a_slot a) (a_seq a) (proposeValue (coll a));
  at_decTo : decTo a <> ∅ -> a_phase a = Deciding }.

(** A slot of a peer. *)
Record slot_ok (S : sys) (i : nat) (s : Z) (t : timeSlotValue) : Prop := {
  sl_range : 0 <= seqNumAccepted t <= seqNumHighest t;
  sl_votes : forall n v, vote S i s n v -> n <= seqNumAccepted t;
  sl_promises : forall n k, promise S i s n k -> n <= seqNumHighest t;
  sl_value : seqNumAccepted t = 0 \/ vote S i s (seqNumAccepted t) (slotValue t) \/
    is_chosen S s (slotValue t);
  sl_decided : isDecided t = true -> exists n w, chosen S s n w /\
    (slotValue t = w \/ (seqNumAccepted t < n /\ vote S i s (seqNumAccepted t) (slotValue t))) }.

Record inv (S : sys) : Prop := {
  in_slot : forall i p s, pxs S !! i = Some p -> slot_ok S i s (slotOf p s);
  in_promise : forall i s n k, promise S i s n k -> i ∈ everyone S /\ 0 < n /\
    exists a, attempts S !! k = Some a /\ a_slot a = s /\ a_seq a = n;
  in_unique : forall i s n k k', promise S i s n k -> promise S i s n k' -> k = k';
  in_vote : forall i s n v, vote S i s n v -> i ∈ everyone S /\
    exists k a, attempts S !! k = Some a /\ proposed a /\ a_slot a = s /\ a_seq a = n /\
      proposeValue (coll a) = v;
  in_attempt : forall k a, attempts S !! k = Some a -> attempt_ok S k a }.

(** ** Consequences of the invariant *)

Lemma quorums_meet S Q1 Q2 : quorum S Q1 -> quorum S Q2 -> exists i, i ∈ Q1 /\ i ∈ Q2.
Proof. intros [? ?] [? ?]. by eapply majorities_intersect. Qed.

Lemma chosen_choosable S s n v : chosen S s n v -> ~ unchoosable S s n v.
Proof.
  intros (Q1 & Hq1 & Hv) (Q2 & Hq2 & Hn). destruct (quorums_meet S Q1 Q2 Hq1 Hq2) as (i & H1 & H2).
  by apply (Hn i H2), Hv.
Qed.

Lemma chosen_vote S s n v : chosen S s n v -> exists i, vote S i s n v.
Proof. intros (Q & [_ Hsz] & Hv). destruct (majority_nonempty _ _ Hsz) as [i Hi]. eauto. Qed.

Section invariant.
Context (S : sys) (Hinv : inv S).

(** One proposal per number. *)
Lemma proposal_unique k k' a a' :
  attempts S !! k = Some a -> attempts S !! k' = Some a' -> proposed a -> proposed a' ->
  a_slot a = a_slot a' -> a_seq a = a_seq a' -> k = k'.
Proof.
  intros Ha Ha' Hp Hp' Hs Hn.
  destruct (in_attempt S Hinv k a Ha), (in_attempt S Hinv k' a' Ha').
  destruct (quorums_meet S (okFrom a) (okFrom a')) as (i & Hi & Hi'); auto.
  apply (in_unique S Hinv i (a_slot a) (a_seq a)); [by eapply kn_promise|].
  rewrite Hs, Hn. by eapply kn_promise.
Qed.

Lemma vote_unique i i' s n v v' : vote S i s n v -> vote S i' s n v' -> v = v'.
Proof.
  intros (_ & k & a & Ha & Hp & Hs & Hn & <-)%(in_vote S Hinv)
         (_ & k' & a' & Ha' & Hp' & Hs' & Hn' & <-)%(in_vote S Hinv).
  assert (k = k') as <- by (eapply proposal_unique; eauto; congruence). congruence.
Qed.

Lemma vote_safe i s n v : vote S i s n v -> safe_at S s n v.
Proof.
  intros (_ & k & a & Ha & Hp & <- & <- & <-)%(in_vote S Hinv).
  by apply (in_attempt S Hinv k a Ha).
Qed.

Lemma vote_pos i s n v : vote S i s n v -> 0 < n.
Proof.
  intros (_ & k & a & Ha & Hp & <- & <- & _)%(in_vote S Hinv).
  destruct (in_attempt S Hinv k a Ha). destruct (at_quorum0 Hp) as [_ Hsz].
  destruct (majority_nonempty _ _ Hsz) as [j Hj].
  by destruct (in_promise S Hinv j _ _ _ (kn_promise _ _ _ at_knows0 j Hj)) as (_ & ? & _).
Qed.

(** A vote above a chosen value is for it. *)
Lemma chosen_binds i s n n' v v' : chosen S s n v -> vote S i s n' v' -> n <= n' -> v' = v.
Proof.
  intros Hc Hv Hle. destruct (decide (n = n')) as [<-|Hne].
  - destruct (chosen_vote _ _ _ _ Hc) as [j Hj]. by eapply vote_unique.
  - destruct (decide (v' = v)) as [|Hd]; [done|]. exfalso. apply (chosen_choosable _ _ _ _ Hc).
    eapply vote_safe; [exact Hv|lia|congruence].
Qed.

Lemma chosen_unique s n n' v v' : chosen S s n v -> chosen S s n' v' -> v = v'.
Proof.
  intros Hc Hc'. destruct (chosen_vote _ _ _ _ Hc) as [i Hi], (chosen_vote _ _ _ _ Hc') as [j Hj].
  destruct (decide (n <= n')); [symmetry; by eapply (chosen_binds j)|].
  eapply (chosen_binds i); eauto. lia.
Qed.

(** A majority of promises makes the collected value safe to propose. *)
Lemma knows_safe k a :
  knows S k a -> quorum S (okFrom a) ->
  safe_at S (a_slot a) (a_seq a) (proposeValue (coll a)).
Proof.
  intros [Hpr Hr Hmax Hval] Hq n' v' Hlt Hne.
  set (s := a_slot a) in *. set (P := proposeValue (coll a)) in *.
  set (M := maxSeqNumAccepted (coll a)) in *.
  assert (Hhigh : forall i, i ∈ okFrom a -> n' < seqNumHighest (slotIn S i s)).
  { intros i Hi. assert (Hin : i ∈ everyone S) by (by apply (proj1 Hq)).
    apply elem_of_set_seq in Hin. destruct (lookup_lt_is_Some_2 (pxs S) i) as [p Hp]; [lia|].
    unfold slotIn. rewrite Hp.
    pose proof (sl_promises _ _ _ _ (in_slot S Hinv i p s Hp) _ _ (Hpr i Hi)). lia. }
  assert (Huse : (forall i, i ∈ okFrom a -> ~ vote S i s n' v') -> unchoosable S s n' v').
  { intros Hno. exists (okFrom a). split; [done|]. auto. }
  destruct Hval as [[HM _]|[HMn [(n0 & Hc)|(j & Hv)]]].
  - apply Huse. intros i Hi Hv. pose proof (Hmax i n' v' Hi Hv Hlt).
    apply vote_pos in Hv. lia.
  - destruct (chosen_vote _ _ _ _ Hc) as [j Hj].
    destruct (decide (n' < n0)) as [Hl|Hge]; [by eapply vote_safe|].
    apply Huse. intros i Hi Hv. apply Hne. eapply chosen_binds; eauto. lia.
  - destruct (decide (n' < M)) as [Hl|Hge]; [by eapply vote_safe|].
    apply Huse. intros i Hi Hv'. pose proof (Hmax i n' v' Hi Hv' Hlt).
    assert (n' = M) as -> by lia. apply Hne. by eapply vote_unique.
Qed.

End invariant.

(** ** Growing histories *)

(** [S'] comes after [S]: votes and promises are only
    added, promises only go up, and whoever votes obeys the promise it had. *)
Record ext (S S' : sys) : Prop := {
  ex_len : length (pxs S') = length (pxs S);
  ex_vote : forall i s n v, vote S i s n v -> vote S' i s n v;
  ex_promise : forall i s n k, promise S i s n k -> promise S' i s n k;
  ex_high : forall i s, seqNumHighest (slotIn S i s) <= seqNumHighest (slotIn S' i s);
  ex_new : forall i s n v, vote S' i s n v -> vote S i s n v \/ seqNumHighest (slotIn S i s) <= n }.

Section extension.
Context (S S' : sys) (Hinv : inv S) (Hext : ext S S').

Lemma ext_quorum Q : quorum S Q <-> quorum S' Q.
Proof. unfold quorum. by rewrite (ex_len _ _ Hext). Qed.

Lemma ext_everyone : everyone S' = everyone S.
Proof. unfold everyone. by rewrite (ex_len _ _ Hext). Qed.

Lemma ext_chosen s n v : chosen S s n v -> chosen S' s n v.
Proof. intros (Q & Hq & Hv). exists Q. split; [by apply ext_quorum|]. intros. by apply (ex_vote _ _ Hext), Hv. Qed.

Lemma ext_is_chosen s v : is_chosen S s v -> is_chosen S' s v.
Proof. intros [n Hn]. exists n. by apply ext_chosen. Qed.

Lemma ext_unchoosable s n v : unchoosable S s n v -> unchoosable S' s n v.
Proof.
  intros (Q & Hq & Hno). exists Q. split; [by apply ext_quorum|]. intros i Hi.
  destruct (Hno i Hi) as [Hv Hh]. pose proof (ex_high _ _ Hext i s). split; [|lia].
  intros Hv'. apply (ex_new _ _ Hext) in Hv' as [?|?]; [done|lia].
Qed.

Lemma ext_safe_at s n v : safe_at S s n v -> safe_at S' s n v.
Proof. intros H n' v' Hl Hv. by apply ext_unchoosable, H. Qed.

Lemma promise_highest i s n k : promise S i s n k -> n <= seqNumHighest (slotIn S i s).
Proof.
  intros Hp. destruct (in_promise S Hinv _ _ _ _ Hp) as (Hi%elem_of_set_seq & _).
  destruct (lookup_lt_is_Some_2 (pxs S) i) as [p Hlk]; [lia|]. unfold slotIn. rewrite Hlk.
  by eapply sl_promises; [apply (in_slot S Hinv)|].
Qed.

(** A peer that promised [n] casts no new vote below [n]. *)
Lemma promised_no_new i s n k n' v :
  promise S i s n k -> vote S' i s n' v -> n' < n -> vote S i s n' v.
Proof.
  intros Hp Hv Hlt. apply (ex_new _ _ Hext) in Hv as [?|?]; [done|].
  apply promise_highest in Hp. lia.
Qed.

Lemma ext_reply_ok i s n k m w : reply_ok S i s n k m w -> reply_ok S' i s n k m w.
Proof.
  intros [Hp Hr Hm Hv]. split; auto.
  - by apply (ex_promise _ _ Hext).
  - intros n' v' Hv' Hl. eapply Hm; [|done]. by eapply promised_no_new.
  - destruct Hv as [Hv|[Hv|Hv]];
      [by left|right; left; by apply (ex_vote _ _ Hext)|right; right; by apply ext_is_chosen].
Qed.

Lemma ext_knows k a : knows S k a -> knows S' k a.
Proof.
  intros [Hp Hr Hm Hv]. split; auto.
  - intros i Hi. by apply (ex_promise _ _ Hext), Hp.
  - intros i n' v' Hi Hv' Hl. eapply Hm; [done| |done]. eapply promised_no_new; eauto.
  - destruct Hv as [?|[? [?|[j ?]]]]; [by left|right; split; [done|]..].
    + left. by apply ext_is_chosen.
    + right. exists j. by apply (ex_vote _ _ Hext).
Qed.

Lemma ext_attempt_ok k a : attempt_ok S k a -> attempt_ok S' k a.
Proof.
  intros []. split; auto; try (intros; apply (ex_vote _ _ Hext); by eauto).
  - by rewrite ext_everyone.
  - intros. by apply ext_reply_ok; eauto.
  - by apply ext_knows.
  - intros. by apply ext_quorum; auto.
  - intros. by apply ext_safe_at; auto.
  - intros. by apply ext_chosen; auto.
Qed.

Lemma ext_slot_ok i s t :
  slot_ok S i s t -> (forall n v, vote S' i s n v -> vote S i s n v) ->
  (forall n k, promise S' i s n k -> promise S i s n k) -> slot_ok S' i s t.
Proof.
  intros [Hr Hv Hp Hval Hd] Hv' Hp'. split; eauto.
  - destruct Hval as [Hw|[Hw|Hw]];
      [by left|right; left; by apply (ex_vote _ _ Hext)|right; right; by apply ext_is_chosen].
  - intros H. destruct (Hd H) as (n & w & Hc & Hw). exists n, w. split; [by apply ext_chosen|].
    destruct Hw as [?|[? ?]]; [by left|right; split; [done|by apply (ex_vote _ _ Hext)]].
Qed.

End extension.

(** ** Steps *)

(** A step of one attempt. *)
Lemma inv_set_attempt S k a a' :
  inv S -> attempts S !! k = Some a -> a_slot a' = a_slot a -> a_seq a' = a_seq a ->
  (proposed a -> proposed a' /\ proposeValue (coll a') = proposeValue (coll a)) ->
  attempt_ok S k a' -> inv (set_attempt k a' S).
Proof.
  intros Hinv Hk Hslot Hseq Hprop Hok.
  assert (He : ext S (set_attempt k a' S)) 
    by (split; [done|done|done|intros; apply Z.le_refl|by left]).
  pose proof Hinv as [Hs Hp Hu Hv Ha].
  assert (Hlk : forall j b, attempts S !! j = Some b ->
    attempts (set_attempt k a' S) !! j = Some (if decide (j = k) then a' else b)).
  { intros j b Hb. cbn. case_decide as E.
    - subst. apply list_lookup_insert_eq. by eapply lookup_lt_Some.
    - by rewrite list_lookup_insert_ne. }
  split; [intros; by apply (ext_slot_ok S); auto| |exact Hu| |].
  - intros i s n j Hpr. destruct (Hp i s n j Hpr) as (? & ? & b & Hb & <- & <-). split_and!; auto.
    exists (if decide (j = k) then a' else b). split; [by apply Hlk|].
    case_decide; [|done]. subst. rewrite Hb in Hk. injection Hk as ->. auto.
  - intros i s n v Hvt. destruct (Hv i s n v Hvt) as (? & j & b & Hb & Hpb & <- & <- & <-). split; auto.
    exists j, (if decide (j = k) then a' else b). split; [by apply Hlk|].
    case_decide; [|done]. subst. rewrite Hb in Hk. injection Hk as ->.
    destruct (Hprop Hpb) as [? ->]. auto.
  - intros j b Hb. cbn in Hb. destruct (decide (j = k)) as [->|Hne].
    + rewrite list_lookup_insert_eq in Hb by (by eapply lookup_lt_Some). injection Hb as <-.
      by apply (ext_attempt_ok S).
    + rewrite list_lookup_insert_ne in Hb by done. apply (ext_attempt_ok S); auto.
Qed.

(** A step of one peer at one slot, with the votes and promises it adds. *)
Definition peer_step (i : nat) (p' : px) (vs : list (nat * Z * Z * value))
    (ps : list (nat * Z * Z * nat)) (S : sys) : sys :=
  mkSys (<[i := p']> (pxs S)) (attempts S) (vs ++ votes S) (ps ++ promises S).

Lemma slotIn_peer_step i p p' vs ps S j s :
  pxs S !! i = Some p ->
  slotIn (peer_step i p' vs ps S) j s = if decide (j = i) then slotOf p' s else slotIn S j s.
Proof.
  intros Hp. unfold slotIn. cbn. case_decide as E.
  - subst. by rewrite list_lookup_insert_eq by (by eapply lookup_lt_Some).
  - by rewrite list_lookup_insert_ne.
Qed.

Section peer_steps.
Context (S : sys) (i : nat) (p p' : px) (s : Z) (vs : list (nat * Z * Z * value))
  (ps : list (nat * Z * Z * nat)).
Context (Hinv : inv S) (Hp : pxs S !! i = Some p).
Context (Hother : forall s', s' <> s -> slotOf p' s' = slotOf p s').
Context (Hhigh : seqNumHighest (slotOf p s) <= seqNumHighest (slotOf p' s)).
Context (Hvs : forall x, x ∈ vs -> exists n v, x = (i, s, n, v) /\ seqNumHighest (slotOf p s) <= n /\
  exists k a, attempts S !! k = Some a /\ proposed a /\ a_slot a = s /\ a_seq a = n /\
    proposeValue (coll a) = v).
Context (Hps : forall x, x ∈ ps -> exists n k, x = (i, s, n, k) /\ seqNumHighest (slotOf p s) < n /\
  exists a, attempts S !! k = Some a /\ a_slot a = s /\ a_seq a = n).
Context (Hps1 : (length ps <= 1)%nat).

Let S' := peer_step i p' vs ps S.

Lemma peer_in : i ∈ everyone S.
Proof. apply elem_of_set_seq. apply lookup_lt_Some in Hp. lia. Qed.

Lemma slotIn_p : slotIn S i s = slotOf p s.
Proof. unfold slotIn. by rewrite Hp. Qed.

Lemma peer_ext : ext S S'.
Proof.
  split; cbn.
  - apply length_insert.
  - intros j s' n v Hv. unfold vote. cbn. apply elem_of_app. by right.
  - intros j s' n k Hv. unfold promise. cbn. apply elem_of_app. by right.
  - intros j s'. unfold S'. rewrite (slotIn_peer_step i p) by done. case_decide; [subst j|lia].
    unfold slotIn. rewrite Hp. destruct (decide (s' = s)) as [->|Hne]; [done|].
    rewrite Hother by done. lia.
  - intros j s' n v Hv. apply elem_of_app in Hv as [Hv|Hv]; [right|by left].
    destruct (Hvs _ Hv) as (n' & v' & [= -> -> -> ->] & Hle & _). by rewrite slotIn_p.
Qed.

Lemma inv_peer_step : slot_ok S' i s (slotOf p' s) -> inv S'.
Proof.
  intros Hok. pose proof peer_ext as He.
  assert (Hnewv : forall j s' n v, vote S' j s' n v -> (j, s') <> (i, s) -> vote S j s' n v).
  { intros j s' n v Hv Hne. apply elem_of_app in Hv as [Hv|Hv]; [|done].
    destruct (Hvs _ Hv) as (n' & v' & [= -> -> -> ->] & _). done. }
  assert (Hnewp : forall j s' n k, promise S' j s' n k -> (j, s') <> (i, s) -> promise S j s' n k).
  { intros j s' n k Hv Hne. apply elem_of_app in Hv as [Hv|Hv]; [|done].
    destruct (Hps _ Hv) as (n' & v' & [= -> -> -> ->] & _). done. }
  split.
  - intros j q s' Hq. cbn in Hq. destruct (decide (j = i)) as [->|Hj].
    + rewrite list_lookup_insert_eq in Hq by (by eapply lookup_lt_Some). injection Hq as <-.
      destruct (decide (s' = s)) as [->|Hs']; [done|]. rewrite Hother by done.
      apply (ext_slot_ok S); auto; [by apply (in_slot S Hinv)|intros ? ? H; apply Hnewv in H|
        intros ? ? H; apply Hnewp in H]; auto; congruence.
    + rewrite list_lookup_insert_ne in Hq by done.
      apply (ext_slot_ok S); auto; [by apply (in_slot S Hinv)|intros ? ? H; apply Hnewv in H|
        intros ? ? H; apply Hnewp in H]; auto; congruence.
  - intros j s' n k Hpr. rewrite (ext_everyone S S' He).
    apply elem_of_app in Hpr as [Hpr|Hpr]; [|by apply (in_promise S Hinv)].
    destruct (Hps _ Hpr) as (n' & k' & [= -> -> -> ->] & Hlt & Ha).
    split_and!; [apply peer_in| |done].
    destruct (sl_range _ _ _ _ (in_slot S Hinv i p s Hp)). lia.
  - intros j s' n k k' H1 H2. apply elem_of_app in H1 as [H1|H1]; apply elem_of_app in H2 as [H2|H2].
    + destruct ps as [|x [|y ps']]; cbn in Hps1; [by apply not_elem_of_nil in H1| |lia].
      apply list_elem_of_singleton in H1, H2. congruence.
    + destruct (Hps _ H1) as (n' & k1 & [= -> -> -> ->] & Hlt & _).
      apply (promise_highest S Hinv) in H2. rewrite slotIn_p in H2. lia.
    + destruct (Hps _ H2) as (n' & k1 & [= -> -> -> ->] & Hlt & _).
      apply (promise_highest S Hinv) in H1. rewrite slotIn_p in H1. lia.
    + by eapply (in_unique S Hinv).
  - intros j s' n v Hv. rewrite (ext_everyone S S' He).
    apply elem_of_app in Hv as [Hv|Hv]; [|by apply (in_vote S Hinv)].
    destruct (Hvs _ Hv) as (n' & v' & [= -> -> -> ->] & _ & Ha). split; [apply peer_in|done].
  - intros k a Ha. apply (ext_attempt_ok S); auto. by apply (in_attempt S Hinv).
Qed.

End peer_steps.

Lemma inv_start S me slot seq v S' : inv S -> do_start me slot seq v S = Some S' -> inv S'.
Proof.
  intros Hinv. unfold do_start. case_decide; [|done]. intros [= <-].
  match goal with |- inv ?x => set (S1 := x) end.
  assert (He : ext S S1) by (split; [done|done|done|intros; apply Z.le_refl|by left]).
  assert (Hlk : forall k a, attempts S !! k = Some a -> attempts S1 !! k = Some a).
  { intros k a Hk. by apply lookup_app_l_Some. }
  split.
  - intros. apply (ext_slot_ok S); auto. by apply (in_slot S Hinv).
  - intros i s n k Hp. destruct (in_promise S Hinv i s n k Hp) as (? & ? & a & ? & ?). eauto 10.
  - exact (in_unique S Hinv).
  - intros i s n w Hv. destruct (in_vote S Hinv i s n w Hv) as (? & k & a & ? & ?). eauto 10.
  - intros k a Ha. cbn in Ha. apply lookup_app_Some in Ha as [Ha|[_ Ha]].
    + apply (ext_attempt_ok S); auto. by apply (in_attempt S Hinv).
    + apply list_lookup_singleton_Some in Ha as [_ <-].
      split; cbn; try done; try set_solver; try (by intros []).
      split; cbn; [set_solver|done|set_solver|by left].
Qed.

(** The proposer's knowledge only depends on its variables. *)
Lemma knows_frame S k a a' :
  a_slot a' = a_slot a -> a_seq a' = a_seq a -> a_val a' = a_val a -> okFrom a' = okFrom a ->
  maxSeqNumAccepted (coll a') = maxSeqNumAccepted (coll a) ->
  proposeValue (coll a') = proposeValue (coll a) -> knows S k a -> knows S k a'.
Proof. intros H1 H2 H3 H4 H5 H6 []. by split; rewrite ?H1, ?H2, ?H3, ?H4, ?H5, ?H6. Qed.

(** A reply enters the prepare channel. *)
Lemma attempt_ok_prepCh S k a i rep :
  attempt_ok S k a -> i ∈ prepTo a ->
  (forall r, rep = Some r -> pr_Status r = OK ->
     reply_ok S i (a_slot a) (a_seq a) k (pr_SeqNumAccepted r) (pr_ValueAccepted r)) ->
  attempt_ok S k (a <| prepTo := prepTo a ∖ {[i]} |> <| prepCh := <[i := rep]> (prepCh a) |>).
Proof.
  intros [Hsub [Hd1 Hd2] Hacc Hrep Hkn] Hi Hr. split; cbn; auto.
  - rewrite dom_insert_L. set_solver.
  - rewrite dom_insert_L. set_solver.
  - intros j r. rewrite lookup_insert. case_decide as E; [subst j|apply Hrep].
    intros [= ->]. by apply Hr.
  - by apply (knows_frame S k a).
Qed.

(** A handler that changes no slot. *)
Lemma inv_peer_noop S i p p' :
  inv S -> pxs S !! i = Some p -> (forall s, slotOf p' s = slotOf p s) ->
  ext S (peer_step i p' [] [] S) /\ inv (peer_step i p' [] [] S).
Proof.
  intros Hinv Hp Hs.
  assert (He : ext S (peer_step i p' [] [] S)).
  { apply (peer_ext S i p p' 0); auto; [rewrite Hs; lia|]. intros x Hx. by apply not_elem_of_nil in Hx. }
  split; [done|]. apply (inv_peer_step S i p p' 0); auto; cbn; [rewrite Hs; lia| | | ].
  - intros x Hx. by apply not_elem_of_nil in Hx.
  - intros x Hx. by apply not_elem_of_nil in Hx.
  - rewrite Hs. apply (ext_slot_ok S); auto. by apply (in_slot S Hinv).
Qed.

Lemma updates_other s f p p' s' : updates s f p p' -> s' <> s -> slotOf p' s' = slotOf p s'.
Proof. intros Hu Hne. by rewrite (Hu s'), decide_False. Qed.

Lemma updates_self s f p p' : updates s f p p' -> slotOf p' s = f (slotOf p s).
Proof. intros Hu. by rewrite (Hu s), decide_True. Qed.

(** A promise. *)
Lemma inv_peer_promise S i p p' k a :
  let s := a_slot a in let n := a_seq a in let t := slotOf p s in
  let S1 := peer_step i p' [] [(i, s, n, k)] S in
  inv S -> attempts S !! k = Some a -> pxs S !! i = Some p -> seqNumHighest t < n ->
  updates s (fun t => t <| seqNumHighest := n |>) p p' ->
  ext S S1 /\ inv S1 /\ reply_ok S1 i s n k (seqNumAccepted t) (slotValue t).
Proof.
  cbn zeta. intros Hinv Ha Hp Hlt Hu. set (s := a_slot a) in *. set (n := a_seq a) in *.
  pose proof (updates_self _ _ _ _ Hu) as Hslot.
  pose proof (fun s' => updates_other _ _ _ _ s' Hu) as Hother.
  assert (He : ext S (peer_step i p' [] [(i, s, n, k)] S)).
  { apply (peer_ext S i p p' s); auto; [rewrite Hslot; cbn; lia|].
    intros x Hx. by apply not_elem_of_nil in Hx. }
  destruct (in_slot S Hinv i p s Hp) as [Hr Hv Hpr Hval Hd].
  assert (Hval' : seqNumAccepted (slotOf p s) = 0 \/
    vote (peer_step i p' [] [(i, s, n, k)] S) i s (seqNumAccepted (slotOf p s)) (slotValue (slotOf p s)) \/
    is_chosen (peer_step i p' [] [(i, s, n, k)] S) s (slotValue (slotOf p s))).
  { destruct Hval as [?|[?|?]]; [by left|by right; left|right; right; by apply (ext_is_chosen S)]. }
  split_and!; [done| |].
  - apply (inv_peer_step S i p p' s); auto; cbn.
    + rewrite Hslot. cbn. lia.
    + intros x Hx. by apply not_elem_of_nil in Hx.
    + intros x ->%list_elem_of_singleton. exists n, k. split_and!; eauto.
    + rewrite Hslot. split; cbn; auto; [lia| |].
      * intros m j [[= -> ->]|Hj]%elem_of_cons; [lia|]. pose proof (Hpr m j Hj). lia.
      * intros Hdec. destruct (Hd Hdec) as (m & w & Hc & ?). exists m, w.
        split; [by apply (ext_chosen S)|done].
  - split; [by left|lia| |done]. intros n' v' Hv' _. by eapply Hv.
Qed.

(** Handling a request in [attempt k]: the peer's step, then the reply. *)
Lemma inv_prepare_at S k a i p p' r arr :
  inv S -> attempts S !! k = Some a -> pxs S !! i = Some p -> i ∈ prepTo a ->
  (arr = Some r \/ arr = None) ->
  Prepare (mkPrepareArgs (a_slot a) (a_seq a) (Z.of_nat (a_me a)) (-1)) p = (p', r) ->
  exists ps, ps = (if pr_Status r =? OK then [(i, a_slot a, a_seq a, k)] else []) /\
  inv (set_attempt k (a <| prepTo := prepTo a ∖ {[i]} |> <| prepCh := <[i := arr]> (prepCh a) |>)
        (peer_step i p' [] ps S)).
Proof.
  intros Hinv Ha Hp Hi Harr Hprep. pose proof (in_attempt S Hinv k a Ha) as Hok.
  pose proof (Prepare_spec (mkPrepareArgs (a_slot a) (a_seq a) (Z.of_nat (a_me a)) (-1)) p) as Hspec.
  rewrite Hprep in Hspec. cbn in Hspec. destruct Hspec as (_ & _ & Hspec).
  eexists. split; [done|].
  assert (Hset : forall S1, ext S S1 -> inv S1 -> attempts S1 = attempts S ->
    (pr_Status r = OK -> reply_ok S1 i (a_slot a) (a_seq a) k (pr_SeqNumAccepted r) (pr_ValueAccepted r)) ->
    inv (set_attempt k (a <| prepTo := prepTo a ∖ {[i]} |> <| prepCh := <[i := arr]> (prepCh a) |>) S1)).
  { intros S1 He H1 Hatt Hr. apply (inv_set_attempt S1 k a); auto; [congruence|].
    apply attempt_ok_prepCh; [by apply (ext_attempt_ok S)|done|].
    intros r' Hr'. destruct Harr; simplify_eq. done. }
  destruct (_ <? a_seq a) eqn:Elt; breflect; destruct Hspec as [Hu ->]; cbn.
  - destruct (inv_peer_promise S i p p' k a Hinv Ha Hp Elt Hu) as (He & Hinv1 & Hrep).
    apply Hset; auto.
  - destruct (inv_peer_noop S i p p' Hinv Hp) as (He & Hinv1).
    + intros s. rewrite (Hu s). case_decide; by subst.
    + apply Hset; auto. cbn. done.
Qed.

Lemma inv_prepare S k i f S' : inv S -> do_prepare k i f S = Some S' -> inv S'.
Proof.
  intros Hinv. unfold do_prepare.
  destruct (attempts S !! k) as [a|] eqn:Ha; [|done]. cbn.
  destruct (pxs S !! i) as [p|] eqn:Hp; [|done]. cbn. case_decide as Hi; [|done].
  destruct (Prepare (mkPrepareArgs (a_slot a) (a_seq a) (Z.of_nat (a_me a)) (-1)) p) as [p' r] eqn:Ep.
  destruct f; cbn.
  - destruct (inv_prepare_at S k a i p p' r (Some r)) as (ps & -> & H); auto.
    intros [= <-]. by destruct (pr_Status r =? OK).
  - intros [= <-]. apply (inv_set_attempt S k a); auto.
    apply attempt_ok_prepCh; [by apply (in_attempt S Hinv)|done|done].
  - destruct (inv_prepare_at S k a i p p' r None) as (ps & -> & H); auto.
    intros [= <-]. by destruct (pr_Status r =? OK).
Qed.

(** Collecting a reply of the prepare phase. *)
Definition counted (i : nat) (rep : option PrepareReply) (a : attempt) : attempt :=
  a <| prepCh := delete i (prepCh a) |> <| coll := collectPrepare rep (coll a) |>
    <| okFrom := if okPrepare rep then {[i]} ∪ okFrom a else okFrom a |>.

Lemma knows_collect S k a i rep :
  knows S k a ->
  (forall r, rep = Some r -> pr_Status r = OK ->
     reply_ok S i (a_slot a) (a_seq a) k (pr_SeqNumAccepted r) (pr_ValueAccepted r)) ->
  knows S k (counted i rep a).
Proof.
  intros Hkn Hr. destruct rep as [r|]; [|by apply (knows_frame S k a)].
  unfold counted. cbn. destruct (pr_Status r =? OK) eqn:E; breflect.
  2: { apply (knows_frame S k a); cbn; try done; by destruct (_ <? _). }
  destruct (Hr r eq_refl E) as [Hpr Hrg Hmx Hvl]. destruct Hkn as [Kp Kr Km Kv].
  assert (Kp' : forall j, j ∈ {[i]} ∪ okFrom a -> promise S j (a_slot a) (a_seq a) k).
  { intros j [->%elem_of_singleton|Hj]%elem_of_union; auto. }
  assert (Km' : forall M j n' v', maxSeqNumAccepted (coll a) <= M -> pr_SeqNumAccepted r <= M ->
    j ∈ {[i]} ∪ okFrom a -> vote S j (a_slot a) n' v' -> n' < a_seq a -> n' <= M).
  { intros M j n' v' H1 H2 [->%elem_of_singleton|Hj]%elem_of_union Hv Hl.
    - pose proof (Hmx n' v' Hv Hl). lia.
    - pose proof (Km j n' v' Hj Hv Hl). lia. }
  destruct (maxSeqNumAccepted (coll a) <? _) eqn:E2; breflect; split; cbn; auto; try lia.
  - intros. eapply Km'; eauto; lia.
  - right. split; [lia|]. destruct Hvl as [?|[?|?]]; [lia|right; by exists i|by left].
  - intros. eapply Km'; eauto; lia.
Qed.

Lemma quorum_of_majority S c Q :
  majority (npeers S) c = true -> numOk c = Z.of_nat (size Q) -> Q ⊆ everyone S -> quorum S Q.
Proof.
  unfold majority, npeers. intros Hm Hn Hsub. breflect. split; [done|].
  rewrite Z.quot_div_nonneg in Hm by lia. change 2 with (Z.of_nat 2) in Hm.
  rewrite <- Nat2Z.inj_div in Hm. lia.
Qed.

Lemma counted_ok S k a i rep :
  attempt_ok S k a -> a_phase a = Preparing -> prepCh a !! i = Some rep ->
  attempt_ok S k (counted i rep a) /\ i ∉ okFrom a.
Proof.
  intros [Hsub [Hd1 Hd2] Hacc Hrep Hkn Hnum Hidle Hq Hsafe Har Haf Han Hch Hdt] Hph Hi.
  assert (Hdom : i ∈ dom (prepCh a)) by (by apply elem_of_dom_2 in Hi).
  assert (Hno : i ∉ okFrom a) by set_solver.
  assert (Hsub' : (if okPrepare rep then {[i]} ∪ okFrom a else okFrom a) ⊆ {[i]} ∪ okFrom a).
  { destruct (okPrepare rep); set_solver. }
  assert (Hnp : ~ proposed a) by (intros [? _]; done).
  split; [|done]. split; cbn; auto.
  - rewrite dom_delete_L. clear -Hsub Hsub' Hdom.
    assert (dom (prepCh a) ∖ {[i]} ⊆ dom (prepCh a)) by apply subseteq_difference_l, reflexivity.
    set_solver.
  - rewrite dom_delete_L. clear -Hd1 Hd2 Hsub' Hdom. set_solver.
  - intros j r. rewrite lookup_delete. case_decide; [done|apply Hrep].
  - apply knows_collect; [done|]. intros r -> Hst. by apply Hrep.
  - intros _. rewrite collectPrepare_numOk, (Hnum Hph).
    destruct (okPrepare rep); [|lia]. rewrite size_union by set_solver. rewrite size_singleton. lia.
  - intros Hpr. by destruct (Hnp Hpr).
  - intros Hpr. by destruct (Hnp Hpr).
  - intros j r Hj. destruct (Hidle Hnp) as (_ & E & _). by rewrite E, lookup_empty in Hj.
  - intros j Hj. destruct (Hidle Hnp) as (_ & _ & E). rewrite E in Hj. set_solver.
  - congruence.
  - congruence.
Qed.

Lemma inv_prepare_reply S k i S' : inv S -> do_prepare_reply k i S = Some S' -> inv S'.
Proof.
  intros Hinv. unfold do_prepare_reply.
  destruct (attempts S !! k) as [a|] eqn:Ha; [|done]. cbn.
  destruct (prepCh a !! i) as [rep|] eqn:Hi; [|done]. cbn. case_decide as Hph; [|done].
  destruct (counted_ok S k a i rep (in_attempt S Hinv k a Ha) Hph Hi) as [Hok _].
  assert (Hnp : ~ proposed a) by (intros [? _]; done).
  change (mkAttempt (a_me a) (a_slot a) (a_seq a) (a_val a) (a_phase a) (collectPrepare rep (coll a))
    (prepTo a) (delete i (prepCh a)) (if okPrepare rep then {[i]} ∪ okFrom a else okFrom a)
    (accTo a) (accCh a) (accFrom a) (decTo a)) with (counted i rep a).
  destruct (majority (npeers S) (collectPrepare rep (coll a))) eqn:Hm; [|case_decide];
    intros [= <-]; apply (inv_set_attempt S k a); auto; try done;
    destruct Hok as [Hsub Hd Hacc Hrep Hkn Hnum Hidle Hq Hsafe Har Haf Han Hch Hdt].
  - assert (Hqu : quorum S (okFrom (counted i rep a))).
    { apply (quorum_of_majority S (coll (counted i rep a))); [done|by apply Hnum|set_solver]. }
    destruct (Hidle Hnp) as (E1 & E2 & E3). cbn in E1, E2, E3.
    split; cbn -[counted]; auto; try done.
    + cbn in *. rewrite E2, E3 in *. set_solver.
    + rewrite E2, E3. set_solver.
    + by apply (knows_frame S k (counted i rep a)).
    + intros []; done.
    + intros _. exact (knows_safe S Hinv k _ Hkn Hqu).
    + intros _. by rewrite E3, size_empty.
    + intros Hdec. cbn in Hdt. specialize (Hdt Hdec). congruence.
  - split; cbn -[counted]; auto; try done.
    + by apply (knows_frame S k (counted i rep a)).
    + intros [_ Hn]. done.
    + intros [_ Hn]. done.
    + intros Hdec. cbn in Hdt. specialize (Hdt Hdec). congruence.
Qed.

(** A vote. *)
Lemma inv_peer_vote S i p p' k a :
  let s := a_slot a in let n := a_seq a in let v := proposeValue (coll a) in
  let S1 := peer_step i p' [(i, s, n, v)] [] S in
  inv S -> attempts S !! k = Some a -> proposed a -> pxs S !! i = Some p ->
  seqNumHighest (slotOf p s) <= n ->
  updates s (fun t => mkSlot v (isDecided t) n n) p p' -> ext S S1 /\ inv S1.
Proof.
  cbn zeta. intros Hinv Ha Hprop Hp Hle Hu.
  set (s := a_slot a) in *. set (n := a_seq a) in *. set (v := proposeValue (coll a)) in *.
  pose proof (updates_self _ _ _ _ Hu) as Hslot.
  pose proof (fun s' => updates_other _ _ _ _ s' Hu) as Hother.
  destruct (in_slot S Hinv i p s Hp) as [Hr Hv Hpr Hval Hd].
  assert (Hvs : forall x, x ∈ [(i, s, n, v)] -> exists n v, x = (i, s, n, v) /\
    seqNumHighest (slotOf p s) <= n /\ exists k a, attempts S !! k = Some a /\ proposed a /\
      a_slot a = s /\ a_seq a = n /\ proposeValue (coll a) = v).
  { intros x ->%list_elem_of_singleton. exists n, v. eauto 10. }
  assert (He : ext S (peer_step i p' [(i, s, n, v)] [] S)).
  { apply (peer_ext S i p p' s); auto. rewrite Hslot. cbn. lia. }
  split; [done|]. apply (inv_peer_step S i p p' s); auto; cbn.
  - rewrite Hslot. cbn. lia.
  - intros x Hx. by apply not_elem_of_nil in Hx.
  - rewrite Hslot. split; cbn.
    + lia.
    + intros m w [[= -> ->]|Hj]%elem_of_cons; [lia|]. pose proof (Hv m w Hj). lia.
    + intros m j Hj. pose proof (Hpr m j Hj). lia.
    + right. left. by left.
    + intros Hdec. destruct (Hd Hdec) as (n0 & w & Hc & _). exists n0, w.
      split; [by apply (ext_chosen S)|].
      destruct (decide (n < n0)) as [Hlt|Hge]; [right; split; [done|by left]|left].
      destruct (decide (v = w)) as [|Hne]; [done|exfalso].
      destruct (decide (n0 = n)) as [->|Hn0].
      * destruct (chosen_vote _ _ _ _ Hc) as [j Hj].
        destruct (in_vote S Hinv _ _ _ _ Hj) as (_ & k' & a' & Ha' & Hp' & Hs' & Hn' & Hv').
        assert (k = k') as <- by (by apply (proposal_unique S Hinv k k' a a')).
        rewrite Ha in Ha'. injection Ha' as <-. by apply Hne.
      * apply (chosen_choosable _ _ _ _ Hc).
        apply (at_safe _ _ _ (in_attempt S Hinv k a Ha) Hprop); [lia|intros ->; by apply Hne].
Qed.

(** A reply enters the accept channel. *)
Lemma attempt_ok_accCh S k a i rep :
  attempt_ok S k a -> i ∈ accTo a ->
  (forall r, rep = Some r -> ar_Status r = OK ->
     vote S i (a_slot a) (a_seq a) (proposeValue (coll a))) ->
  attempt_ok S k (a <| accTo := accTo a ∖ {[i]} |> <| accCh := <[i := rep]> (accCh a) |>).
Proof.
  intros [Hsub Hd [Hd1 Hd2] Hrep Hkn Hnum Hidle Hq Hsafe Har Haf Han Hch Hdt] Hi Hr. split; cbn; auto.
  - rewrite dom_insert_L. set_solver.
  - rewrite dom_insert_L. set_solver.
  - by apply (knows_frame S k a).
  - intros Hn. destruct (Hidle Hn) as (E & _). set_solver.
  - intros j r. rewrite lookup_insert. case_decide as E; [subst j|apply Har].
    intros [= ->]. by apply (Hr r).
Qed.

Lemma inv_accept_at S k a i p p' r arr :
  let v := proposeValue (coll a) in
  inv S -> attempts S !! k = Some a -> pxs S !! i = Some p -> i ∈ accTo a ->
  (arr = Some r \/ arr = None) ->
  Accept (mkAcceptArgs (a_slot a) (a_seq a) v) p = (p', r) ->
  exists vs, vs = (if ar_Status r =? OK then [(i, a_slot a, a_seq a, v)] else []) /\
  inv (set_attempt k (a <| accTo := accTo a ∖ {[i]} |> <| accCh := <[i := arr]> (accCh a) |>)
        (peer_step i p' vs [] S)).
Proof.
  intros v Hinv Ha Hp Hi Harr Hacc. pose proof (in_attempt S Hinv k a Ha) as Hok.
  pose proof (Accept_spec (mkAcceptArgs (a_slot a) (a_seq a) v) p) as Hspec.
  rewrite Hacc in Hspec. cbn in Hspec. destruct Hspec as (_ & _ & Hspec).
  eexists. split; [done|].
  assert (Hprop : proposed a).
  { destruct (decide (a_phase a = Preparing \/ a_phase a = NoPromises)) as [H|H]; [|split; naive_solver].
    destruct (at_idle _ _ _ Hok) as (E & _); [intros []; naive_solver|]. set_solver. }
  assert (Hset : forall S1, ext S S1 -> inv S1 -> attempts S1 = attempts S ->
    (ar_Status r = OK -> vote S1 i (a_slot a) (a_seq a) v) ->
    inv (set_attempt k (a <| accTo := accTo a ∖ {[i]} |> <| accCh := <[i := arr]> (accCh a) |>) S1)).
  { intros S1 He H1 Hatt Hr. apply (inv_set_attempt S1 k a); auto; [congruence|].
    apply attempt_ok_accCh; [by apply (ext_attempt_ok S)|done|].
    intros r' Hr'. destruct Harr; simplify_eq. done. }
  destruct (_ <=? a_seq a) eqn:Elt; breflect; destruct Hspec as [Hu ->]; cbn.
  - destruct (inv_peer_vote S i p p' k a Hinv Ha Hprop Hp Elt Hu) as (He & Hinv1).
    apply Hset; auto. intros _. by left.
  - destruct (inv_peer_noop S i p p' Hinv Hp) as (He & Hinv1).
    + intros s. rewrite (Hu s). case_decide; by subst.
    + apply Hset; auto. cbn. done.
Qed.

Lemma inv_accept S k i f S' : inv S -> do_accept k i f S = Some S' -> inv S'.
Proof.
  intros Hinv. unfold do_accept.
  destruct (attempts S !! k) as [a|] eqn:Ha; [|done]. cbn.
  destruct (pxs S !! i) as [p|] eqn:Hp; [|done]. cbn. case_decide as Hi; [|done].
  destruct (Accept (mkAcceptArgs (a_slot a) (a_seq a) (proposeValue (coll a))) p) as [p' r] eqn:Ep.
  destruct f; cbn.
  - destruct (inv_accept_at S k a i p p' r (Some r)) as (vs & -> & H); auto.
    intros [= <-]. by destruct (ar_Status r =? OK).
  - intros [= <-]. apply (inv_set_attempt S k a); auto.
    apply attempt_ok_accCh; [by apply (in_attempt S Hinv)|done|done].
  - destruct (inv_accept_at S k a i p p' r None) as (vs & -> & H); auto.
    intros [= <-]. by destruct (ar_Status r =? OK).
Qed.

(** Collecting a reply of the accept phase. *)
Definition acc_counted (i : nat) (rep : option AcceptReply) (a : attempt) : attempt :=
  a <| accCh := delete i (accCh a) |> <| coll := collectAccept rep (coll a) |>
    <| accFrom := if okAccept rep then {[i]} ∪ accFrom a else accFrom a |>.

Lemma collectAccept_max rep c : maxSeqNumAccepted (collectAccept rep c) = maxSeqNumAccepted c.
Proof. destruct rep; cbn; [|done]. destruct (_ =? _); [|destruct (_ <? _)]; done. Qed.

Lemma acc_counted_ok S k a i rep :
  attempt_ok S k a -> a_phase a = Accepting -> accCh a !! i = Some rep ->
  attempt_ok S k (acc_counted i rep a).
Proof.
  intros [Hsub Hd [Hd1 Hd2] Hrep Hkn Hnum Hidle Hq Hsafe Har Haf Han Hch Hdt] Hph Hi.
  assert (Hdom : i ∈ dom (accCh a)) by (by apply elem_of_dom_2 in Hi).
  assert (Hno : i ∉ accFrom a) by set_solver.
  assert (Hsub' : (if okAccept rep then {[i]} ∪ accFrom a else accFrom a) ⊆ {[i]} ∪ accFrom a).
  { destruct (okAccept rep); set_solver. }
  assert (Hprop : proposed a) by (split; congruence).
  split; cbn; rewrite ?collectAccept_value; auto.
  - rewrite dom_delete_L. set_solver.
  - rewrite dom_delete_L. set_solver.
  - apply (knows_frame S k a); cbn; auto using collectAccept_max, collectAccept_value.
  - congruence.
  - intros H. by destruct (H Hprop).
  - intros j r. rewrite lookup_delete. case_decide; [done|apply Har].
  - intros j. destruct rep as [r|]; cbn; [|apply Haf].
    destruct (ar_Status r =? OK) eqn:E; breflect; [|apply Haf].
    intros [->%elem_of_singleton|Hj]%elem_of_union; [by apply (Har i r)|by apply Haf].
  - intros _. rewrite collectAccept_numOk, (Han Hph).
    destruct (okAccept rep); [|lia]. rewrite size_union by set_solver. rewrite size_singleton. lia.
Qed.

(** Moving to the next phase without touching the variables. *)
Lemma inv_accept_reply S k i S' : inv S -> do_accept_reply k i S = Some S' -> inv S'.
Proof.
  intros Hinv. unfold do_accept_reply.
  destruct (attempts S !! k) as [a|] eqn:Ha; [|done]. cbn.
  destruct (accCh a !! i) as [rep|] eqn:Hi; [|done]. cbn. case_decide as Hph; [|done].
  pose proof (acc_counted_ok S k a i rep (in_attempt S Hinv k a Ha) Hph Hi) as Hok.
  assert (Hprop : proposed a) by (split; congruence).
  change (mkAttempt (a_me a) (a_slot a) (a_seq a) (a_val a) (a_phase a) (collectAccept rep (coll a))
    (prepTo a) (prepCh a) (okFrom a) (accTo a) (delete i (accCh a))
    (if okAccept rep then {[i]} ∪ accFrom a else accFrom a) (decTo a)) with (acc_counted i rep a).
  destruct (majority (npeers S) (collectAccept rep (coll a))) eqn:Hm; [|case_decide];
    intros [= <-]; apply (inv_set_attempt S k a); auto;
    try (intros _; split; [split; cbn; congruence|apply collectAccept_value]); try done;
    destruct Hok as [Hsub Hd Hacc Hrep Hkn Hnum Hidle Hq Hsafe Har Haf Han Hch Hdt].
  - assert (Hqu : quorum S (accFrom (acc_counted i rep a))).
    { apply (quorum_of_majority S (coll (acc_counted i rep a))); [done|by apply Han|set_solver]. }
    split; cbn -[acc_counted]; auto; try done.
    + by apply (knows_frame S k (acc_counted i rep a)).
    + intros Hn. destruct Hn. split; cbn; congruence.
    + intros _. exists (accFrom (acc_counted i rep a)). split; [done|]. exact Haf.
  - split; cbn -[acc_counted]; auto; try done.
    + by apply (knows_frame S k (acc_counted i rep a)).
    + intros Hn. destruct Hn. split; cbn; congruence.
    + intros Hdec. cbn in Hdt. specialize (Hdt Hdec). congruence.
Qed.

(** Telling a peer the decision. *)
Lemma inv_peer_decide S i p k a :
  let v := proposeValue (coll a) in
  let p' := (Decide (mkDecideArgs (a_slot a) v) p).1 in
  inv S -> attempts S !! k = Some a -> a_phase a = Deciding -> pxs S !! i = Some p ->
  ext S (peer_step i p' [] [] S) /\ inv (peer_step i p' [] [] S).
Proof.
  cbn zeta. intros Hinv Ha Hph Hp. set (v := proposeValue (coll a)).
  pose proof (Decide_spec (mkDecideArgs (a_slot a) v) p) as Hspec.
  destruct (Decide _ p) as [p' r]. cbn in *. destruct Hspec as (_ & _ & Hu & _).
  set (s := a_slot a) in *.
  pose proof (updates_self _ _ _ _ Hu) as Hslot.
  pose proof (fun s' => updates_other _ _ _ _ s' Hu) as Hother.
  destruct (in_slot S Hinv i p s Hp) as [Hr Hv Hpr Hval Hd].
  assert (Hc : chosen S s (a_seq a) v) by (by apply (at_chosen _ _ _ (in_attempt S Hinv k a Ha))).
  assert (He : ext S (peer_step i p' [] [] S)).
  { apply (peer_ext S i p p' s); auto; [rewrite Hslot; cbn; lia|].
    intros x Hx. by apply not_elem_of_nil in Hx. }
  split; [done|]. apply (inv_peer_step S i p p' s); auto; cbn.
  - rewrite Hslot. cbn. lia.
  - intros x Hx. by apply not_elem_of_nil in Hx.
  - intros x Hx. by apply not_elem_of_nil in Hx.
  - rewrite Hslot. split; cbn; auto.
    + right. right. exists (a_seq a). by apply (ext_chosen S).
    + intros _. exists (a_seq a), v. split; [by apply (ext_chosen S)|by left].
Qed.

Lemma inv_decide S k i f S' : inv S -> do_decide k i f S = Some S' -> inv S'.
Proof.
  intros Hinv. unfold do_decide.
  destruct (attempts S !! k) as [a|] eqn:Ha; [|done]. cbn.
  destruct (pxs S !! i) as [p|] eqn:Hp; [|done]. cbn. case_decide as Hi; [|done].
  assert (Hset : forall S1, ext S S1 -> inv S1 -> attempts S1 = attempts S ->
    inv (set_attempt k (a <| decTo := decTo a ∖ {[i]} |>) S1)).
  { intros S1 He H1 Hatt. apply (inv_set_attempt S1 k a); auto; [congruence|].
    destruct (ext_attempt_ok S S1 Hinv He k a (in_attempt S Hinv k a Ha)).
    split; auto; [by apply (knows_frame S1 k a)|]. cbn. intros Hn. apply at_decTo0. set_solver. }
  assert (Hph : a_phase a = Deciding).
  { apply (at_decTo _ _ _ (in_attempt S Hinv k a Ha)). set_solver. }
  destruct (inv_peer_decide S i p k a Hinv Ha Hph Hp) as [He Hinv1].
  destruct f; intros [= <-].
  - by apply (Hset (peer_step i _ [] [] S)).
  - apply Hset; [|done|done]. split; [done|done|done|intros; apply Z.le_refl|by left].
  - by apply (Hset (peer_step i _ [] [] S)).
Qed.

Lemma inv_exec S e S' : inv S -> exec e S = Some S' -> inv S'.
Proof.
  intros Hinv. destruct e; cbn.
  - by apply inv_start.
  - by apply inv_prepare.
  - by apply inv_prepare_reply.
  - by apply inv_accept.
  - by apply inv_accept_reply.
  - by apply inv_decide.
Qed.

Lemma inv_initial S : initial S -> inv S.
Proof.
  intros (Hs & Ha & Hv & Hp). split; unfold vote, promise; rewrite ?Ha, ?Hv, ?Hp;
    try (intros * H; by apply not_elem_of_nil in H).
  - intros i p s Hi. rewrite Forall_forall in Hs. rewrite (Hs p) by (by eapply list_elem_of_lookup_2).
    split; cbn; unfold vote, promise; rewrite ?Hv, ?Hp; try lia; auto; try done;
      intros * H; by apply not_elem_of_nil in H.
  - done.
Qed.

Lemma reachable_inv S : reachable S -> inv S.
Proof.
  intros (S0 & es & Hinit & Hes). apply inv_initial in Hinit. revert S0 Hinit Hes.
  induction es as [|e es IH]; intros S0 Hinv; cbn; [by intros [= <-]|].
  destruct (exec e S0) as [S1|] eqn:E; [|done]. cbn. apply IH. by eapply inv_exec.
Qed.

(** ** Where values come from *)

(** Some attempt on slot [s] was started with value [v]. *)
Definition proposable (S : sys) (s : Z) (v : value) : Prop :=
  exists k a, attempts S !! k = Some a /\ a_slot a = s /\ a_val a = v.

Record origin (S : sys) : Prop := {
  or_slot : forall i p s, pxs S !! i = Some p ->
    0 < seqNumAccepted (slotOf p s) \/ isDecided (slotOf p s) = true ->
    proposable S s (slotValue (slotOf p s));
  or_reply : forall k a i r, attempts S !! k = Some a -> prepCh a !! i = Some (Some r) ->
    pr_Status r = OK -> 0 < pr_SeqNumAccepted r -> proposable S (a_slot a) (pr_ValueAccepted r);
  or_value : forall k a, attempts S !! k = Some a ->
    0 <= maxSeqNumAccepted (coll a) /\ proposable S (a_slot a) (proposeValue (coll a)) }.

(** Attempts keep their slot and first value. *)
Lemma proposable_set S k a a' s v :
  attempts S !! k = Some a -> a_slot a' = a_slot a -> a_val a' = a_val a ->
  proposable S s v -> proposable (set_attempt k a' S) s v.
Proof.
  intros Ha Hs Hv (j & b & Hb & <- & <-). unfold proposable. cbn.
  destruct (decide (j = k)) as [->|Hne].
  - rewrite Ha in Hb. injection Hb as <-. exists k, a'.
    rewrite list_lookup_insert_eq by (by eapply lookup_lt_Some). auto.
  - exists j, b. by rewrite list_lookup_insert_ne.
Qed.

(** A step of attempt [k] and of the peers. *)
Lemma origin_step S S1 k a a' :
  origin S -> attempts S !! k = Some a -> attempts S1 = attempts S ->
  a_slot a' = a_slot a -> a_val a' = a_val a ->
  (forall i p s, pxs S1 !! i = Some p -> pxs S !! i = Some p \/
     (0 < seqNumAccepted (slotOf p s) \/ isDecided (slotOf p s) = true ->
      proposable S s (slotValue (slotOf p s)))) ->
  (forall i r, prepCh a' !! i = Some (Some r) -> prepCh a !! i = Some (Some r) \/
     (pr_Status r = OK -> 0 < pr_SeqNumAccepted r -> proposable S (a_slot a) (pr_ValueAccepted r))) ->
  0 <= maxSeqNumAccepted (coll a') -> proposable S (a_slot a) (proposeValue (coll a')) ->
  origin (set_attempt k a' S1).
Proof.
  intros [Ho1 Ho2 Ho3] Ha Hatt Hs Hv Hpx Hch Hmax Hval.
  assert (Hmono : forall s v, proposable S s v -> proposable (set_attempt k a' S1) s v).
  { intros s v Hp. apply (proposable_set S1 k a a'); [congruence..|].
    unfold proposable in *. by rewrite Hatt. }
  split.
  - intros i p s Hp Hd. apply Hmono. destruct (Hpx i p s Hp) as [Hp'|Hp']; [by apply (Ho1 i)|auto].
  - intros j b i r Hb Hr Hst Hpos. cbn in Hb. rewrite Hatt in Hb. apply Hmono.
    destruct (decide (j = k)) as [->|Hne].
    + rewrite list_lookup_insert_eq in Hb by (by eapply lookup_lt_Some). injection Hb as <-.
      rewrite Hs. destruct (Hch i r Hr) as [Hr'|Hr']; [by apply (Ho2 k a i)|auto].
    + rewrite list_lookup_insert_ne in Hb by done. by apply (Ho2 j b i).
  - intros j b Hb. cbn in Hb. rewrite Hatt in Hb. destruct (decide (j = k)) as [->|Hne].
    + rewrite list_lookup_insert_eq in Hb by (by eapply lookup_lt_Some). injection Hb as <-.
      rewrite Hs. auto.
    + rewrite list_lookup_insert_ne in Hb by done. destruct (Ho3 j b Hb). auto.
Qed.

(** The slots after a handler that only touches slot [s]. *)
Lemma origin_updates S s f p p' i :
  origin S -> pxs S !! i = Some p -> updates s f p p' ->
  (let t := f (slotOf p s) in 0 < seqNumAccepted t \/ isDecided t = true ->
     proposable S s (slotValue t)) ->
  forall s', 0 < seqNumAccepted (slotOf p' s') \/ isDecided (slotOf p' s') = true ->
    proposable S s' (slotValue (slotOf p' s')).
Proof.
  intros Ho Hp Hu Hf s'. rewrite (Hu s'). case_decide; [by subst|by apply (or_slot S Ho i)].
Qed.

Lemma lookup_set_peer S i p' j q : pxs (set_peer i p' S) !! j = Some q -> q = p' \/ pxs S !! j = Some q.
Proof. cbn. intros [(_ & <- & _)|[_ H]]%list_lookup_insert_Some; auto. Qed.

(** The histories play no part. *)
Lemma origin_history S1 S2 :
  pxs S2 = pxs S1 -> attempts S2 = attempts S1 -> origin S1 -> origin S2.
Proof. intros Hp Ha [? ? ?]. unfold proposable in *. split; unfold proposable; by rewrite ?Hp, ?Ha. Qed.

Lemma origin_start S me slot seq v S' : origin S -> do_start me slot seq v S = Some S' -> origin S'.
Proof.
  intros [Ho1 Ho2 Ho3]. unfold do_start. case_decide; [|done]. intros [= <-].
  match goal with |- origin ?x => set (S1 := x) end.
  assert (Hmono : forall s v, proposable S s v -> proposable S1 s v).
  { intros s w (k & a & Ha & ?). exists k, a. split; [by apply lookup_app_l_Some|done]. }
  split.
  - intros i p s Hp Hd. by apply Hmono, (Ho1 i).
  - intros k a i r Ha Hr ? ?. cbn in Ha. apply lookup_app_Some in Ha as [Ha|[_ Ha]].
    + by apply Hmono, (Ho2 k a i).
    + apply list_lookup_singleton_Some in Ha as [_ <-]. done.
  - intros k a Ha. pose proof Ha as Ha'. cbn in Ha. apply lookup_app_Some in Ha as [Ha|[_ Ha]].
    + destruct (Ho3 k a Ha). auto.
    + apply list_lookup_singleton_Some in Ha as [_ <-]. split; [done|]. by eexists k, _.
Qed.

Lemma origin_prepare S k i f S' : origin S -> do_prepare k i f S = Some S' -> origin S'.
Proof.
  intros Ho. unfold do_prepare.
  destruct (attempts S !! k) as [a|] eqn:Ha; [|done]. cbn.
  destruct (pxs S !! i) as [p|] eqn:Hp; [|done]. cbn. case_decide as Hi; [|done].
  pose proof (Prepare_spec (mkPrepareArgs (a_slot a) (a_seq a) (Z.of_nat (a_me a)) (-1)) p) as Hspec.
  destruct (Prepare (mkPrepareArgs (a_slot a) (a_seq a) (Z.of_nat (a_me a)) (-1)) p) as [p' r].
  cbn in Hspec. destruct Hspec as (_ & _ & Hspec). destruct (or_value S Ho k a Ha) as [Hm Hv].
  assert (Hslot : forall s, 0 < seqNumAccepted (slotOf p' s) \/ isDecided (slotOf p' s) = true ->
            proposable S s (slotValue (slotOf p' s))).
  { destruct (_ <? a_seq a); destruct Hspec as [Hu _]; (eapply origin_updates; [done|exact Hp|exact Hu|]);
      cbn; by apply (or_slot S Ho i). }
  assert (Hrep : pr_Status r = OK -> 0 < pr_SeqNumAccepted r -> proposable S (a_slot a) (pr_ValueAccepted r)).
  { destruct (_ <? a_seq a); destruct Hspec as [_ ->]; cbn; [|done].
    intros _ Hpos. apply (or_slot S Ho i p); auto. }
  assert (Hgo : forall arr S1, (arr = Some r \/ arr = None) -> attempts S1 = attempts S ->
    (forall j q, pxs S1 !! j = Some q -> q = p' \/ pxs S !! j = Some q) ->
    origin (set_attempt k (a <| prepTo := prepTo a ∖ {[i]} |> <| prepCh := <[i := arr]> (prepCh a) |>) S1)).
  { intros arr S1 Harr Hatt Hq. apply (origin_step S S1 k a); auto.
    - intros j q s Hj. destruct (Hq j q Hj) as [->|?]; auto.
    - intros j x. cbn. rewrite lookup_insert. case_decide; [|auto].
      intros [= ->]. right. destruct Harr; simplify_eq. done. }
  destruct f; intros [= <-].
  - eapply (origin_history (set_attempt k _ (set_peer i p' S)));
      [..|apply (Hgo (Some r) (set_peer i p' S))]; auto; try (by destruct (_ =? OK)).
    intros j q. apply lookup_set_peer.
  - apply Hgo; auto.
  - eapply (origin_history (set_attempt k _ (set_peer i p' S)));
      [..|apply (Hgo (None) (set_peer i p' S))]; auto; try (by destruct (_ =? OK)).
    intros j q. apply lookup_set_peer.
Qed.

Lemma collectPrepare_origin S a i rep :
  0 <= maxSeqNumAccepted (coll a) -> proposable S (a_slot a) (proposeValue (coll a)) ->
  prepCh a !! i = Some rep ->
  (forall r, prepCh a !! i = Some (Some r) -> pr_Status r = OK -> 0 < pr_SeqNumAccepted r ->
     proposable S (a_slot a) (pr_ValueAccepted r)) ->
  0 <= maxSeqNumAccepted (collectPrepare rep (coll a)) /\
  proposable S (a_slot a) (proposeValue (collectPrepare rep (coll a))).
Proof.
  intros Hm Hv Hi Hr. destruct rep as [r|]; [|done]. cbn.
  destruct (pr_Status r =? OK) eqn:E; [|by destruct (_ <? _)]. cbn. breflect.
  destruct (maxSeqNumAccepted (coll a) <? _) eqn:E2; cbn; [|done]. breflect.
  split; [lia|]. apply Hr; auto. lia.
Qed.

Lemma origin_prepare_reply S k i S' : origin S -> do_prepare_reply k i S = Some S' -> origin S'.
Proof.
  intros Ho. unfold do_prepare_reply.
  destruct (attempts S !! k) as [a|] eqn:Ha; [|done]. cbn.
  destruct (prepCh a !! i) as [rep|] eqn:Hi; [|done]. cbn. case_decide as Hph; [|done].
  destruct (or_value S Ho k a Ha) as [Hm Hv].
  destruct (collectPrepare_origin S a i rep Hm Hv Hi) as [Hm' Hv'].
  { intros r. by apply (or_reply S Ho k a i). }
  assert (Hch : forall j r, delete i (prepCh a) !! j = Some (Some r) -> prepCh a !! j = Some (Some r)).
  { intros j r. rewrite lookup_delete. by case_decide. }
  destruct (majority _ _); [|case_decide]; intros [= <-];
    apply (origin_step S S k a); auto; intros j r Hj; left; by apply Hch.
Qed.

Lemma origin_accept S k i f S' : origin S -> do_accept k i f S = Some S' -> origin S'.
Proof.
  intros Ho. unfold do_accept.
  destruct (attempts S !! k) as [a|] eqn:Ha; [|done]. cbn.
  destruct (pxs S !! i) as [p|] eqn:Hp; [|done]. cbn. case_decide as Hi; [|done].
  pose proof (Accept_spec (mkAcceptArgs (a_slot a) (a_seq a) (proposeValue (coll a))) p) as Hspec.
  destruct (Accept (mkAcceptArgs (a_slot a) (a_seq a) (proposeValue (coll a))) p) as [p' r].
  cbn in Hspec. destruct Hspec as (_ & _ & Hspec). destruct (or_value S Ho k a Ha) as [Hm Hv].
  assert (Hslot : forall s, 0 < seqNumAccepted (slotOf p' s) \/ isDecided (slotOf p' s) = true ->
            proposable S s (slotValue (slotOf p' s))).
  { destruct (_ <=? a_seq a); destruct Hspec as [Hu _]; (eapply origin_updates; [done|exact Hp|exact Hu|]);
      cbn; [done|by apply (or_slot S Ho i)]. }
  assert (Hgo : forall arr S1, attempts S1 = attempts S ->
    (forall j q, pxs S1 !! j = Some q -> q = p' \/ pxs S !! j = Some q) ->
    origin (set_attempt k (a <| accTo := accTo a ∖ {[i]} |> <| accCh := <[i := arr]> (accCh a) |>) S1)).
  { intros arr S1 Hatt Hq. apply (origin_step S S1 k a); auto.
    intros j q s Hj. destruct (Hq j q Hj) as [->|?]; auto. }
  destruct f; intros [= <-].
  - eapply (origin_history (set_attempt k _ (set_peer i p' S)));
      [..|apply (Hgo (Some r) (set_peer i p' S))]; auto; try (by destruct (_ =? OK)).
    intros j q. apply lookup_set_peer.
  - apply Hgo; auto.
  - eapply (origin_history (set_attempt k _ (set_peer i p' S)));
      [..|apply (Hgo (None) (set_peer i p' S))]; auto; try (by destruct (_ =? OK)).
    intros j q. apply lookup_set_peer.
Qed.

Lemma origin_accept_reply S k i S' : origin S -> do_accept_reply k i S = Some S' -> origin S'.
Proof.
  intros Ho. unfold do_accept_reply.
  destruct (attempts S !! k) as [a|] eqn:Ha; [|done]. cbn.
  destruct (accCh a !! i) as [rep|] eqn:Hi; [|done]. cbn. case_decide as Hph; [|done].
  destruct (or_value S Ho k a Ha) as [Hm Hv].
  destruct (majority _ _); [|case_decide]; intros [= <-];
    (apply (origin_step S S k a); auto; cbn; [by rewrite collectAccept_max|by rewrite collectAccept_value]).
Qed.

Lemma origin_decide S k i f S' : origin S -> do_decide k i f S = Some S' -> origin S'.
Proof.
  intros Ho. unfold do_decide.
  destruct (attempts S !! k) as [a|] eqn:Ha; [|done]. cbn.
  destruct (pxs S !! i) as [p|] eqn:Hp; [|done]. cbn. case_decide as Hi; [|done].
  destruct (or_value S Ho k a Ha) as [Hm Hv].
  pose proof (Decide_spec (mkDecideArgs (a_slot a) (proposeValue (coll a))) p) as Hspec.
  destruct (Decide _ p) as [p' r]. cbn in *. destruct Hspec as (_ & _ & Hu & _).
  assert (Hslot : forall s, 0 < seqNumAccepted (slotOf p' s) \/ isDecided (slotOf p' s) = true ->
            proposable S s (slotValue (slotOf p' s))).
  { eapply origin_updates; [done|exact Hp|exact Hu|]. cbn. done. }
  assert (Hgo : forall S1, attempts S1 = attempts S ->
    (forall j q, pxs S1 !! j = Some q -> q = p' \/ pxs S !! j = Some q) ->
    origin (set_attempt k (a <| decTo := decTo a ∖ {[i]} |>) S1)).
  { intros S1 Hatt Hq. apply (origin_step S S1 k a); auto.
    intros j q s Hj. destruct (Hq j q Hj) as [->|?]; auto. }
  destruct f; intros [= <-].
  - apply (Hgo (set_peer i p' S)); auto. intros j q; apply lookup_set_peer.
  - apply (Hgo S); auto.
  - apply (Hgo (set_peer i p' S)); auto. intros j q; apply lookup_set_peer.
Qed.

Lemma origin_exec S e S' : origin S -> exec e S = Some S' -> origin S'.
Proof.
  intros Ho. destruct e; cbn.
  - by apply origin_start.
  - by apply origin_prepare.
  - by apply origin_prepare_reply.
  - by apply origin_accept.
  - by apply origin_accept_reply.
  - by apply origin_decide.
Qed.

Lemma origin_initial S : initial S -> origin S.
Proof.
  intros (Hs & Ha & _ & _). split; rewrite ?Ha; try done. intros i p s Hi.
  rewrite Forall_forall in Hs. rewrite (Hs p) by (by eapply list_elem_of_lookup_2).
  cbn. intros [?|?]; [lia|done].
Qed.

Lemma reachable_origin S : reachable S -> origin S.
Proof.
  intros (S0 & es & Hinit & Hes). apply origin_initial in Hinit. revert S0 Hinit Hes.
  induction es as [|e es IH]; intros S0 Ho; cbn; [by intros [= <-]|].
  destruct (exec e S0) as [S1|] eqn:E; [|done]. cbn. apply IH. by eapply origin_exec.
Qed.

(** ** Properties *)

(** Three fresh peers and two proposers of slot 0.  The first gets two
    promises and sends its Accepts; the second wins two promises and two votes
    and decides, telling peers 1 and 2; then the first one's Accept reaches
    peer 2, which has promised nothing. *)
Definition peers0 : sys := mkSys [freshPeer 0; freshPeer 1; freshPeer 2] [] [] [].
Definition decided_run : list event :=
  [Start 0 0 30 (demoValue 1); PrepareAt 0 0 Delivered; PrepareAt 0 1 Delivered;
   PrepareHeard 0 0; PrepareHeard 0 1;
   Start 1 0 31 (demoValue 2); PrepareAt 1 0 Delivered; PrepareAt 1 1 Delivered;
   PrepareHeard 1 1; PrepareHeard 1 0;
   AcceptAt 1 0 Delivered; AcceptAt 1 1 Delivered; AcceptHeard 1 0; AcceptHeard 1 1;
   DecideAt 1 1 Delivered; DecideAt 1 2 Delivered].
Definition stale_run : list event := decided_run ++ [AcceptAt 0 2 Delivered].
Definition state_after (es : list event) : sys := default peers0 (execs es peers0).

Lemma peers0_initial : initial peers0.
Proof. split; [|done]. by repeat constructor. Qed.

Lemma decided_reachable : reachable (state_after decided_run).
Proof. exists peers0, decided_run. split; [exact peers0_initial|]. vm_compute. reflexivity. Qed.

Lemma stale_reachable : reachable (state_after stale_run).
Proof. exists peers0, stale_run. split; [exact peers0_initial|]. vm_compute. reflexivity. Qed.

(** C1: Paxos agreement.  Whatever the schedule, the losses and the sequence
    numbers, all attempts on a slot that reach the decide phase hold the same
    value, so all Decide messages for the slot carry that value; it has been
    accepted by a majority, and no other value is ever accepted by one. *)
Theorem paxos_agreement S s :
  reachable S ->
  (forall k k' a a', attempts S !! k = Some a -> attempts S !! k' = Some a' ->
     a_slot a = s -> a_slot a' = s -> a_phase a = Deciding -> a_phase a' = Deciding ->
     proposeValue (coll a) = proposeValue (coll a')) /\
  (forall k a, attempts S !! k = Some a -> a_slot a = s -> a_phase a = Deciding ->
     chosen S s (a_seq a) (proposeValue (coll a))) /\
  (forall n n' v v', chosen S s n v -> chosen S s n' v' -> v = v').
Proof.
  intros Hinv%reachable_inv.
  assert (Hc : forall k a, attempts S !! k = Some a -> a_slot a = s -> a_phase a = Deciding ->
     chosen S s (a_seq a) (proposeValue (coll a))).
  { intros k a Ha <- Hph. by apply (at_chosen _ _ _ (in_attempt S Hinv k a Ha)). }
  split_and!; [|done|by intros; eapply chosen_unique].
  intros. eapply (chosen_unique S Hinv); by eapply Hc.
Qed.

Lemma paxos_agreement_witness : exists k a, attempts (state_after decided_run) !! k = Some a /\
  chosen (state_after decided_run) 0 (a_seq a) (proposeValue (coll a)).
Proof.
  destruct (paxos_agreement (state_after decided_run) 0 decided_reachable) as (_ & H & _).
  destruct (attempts (state_after decided_run) !! 1%nat) as [a|] eqn:E; [|vm_compute in E; discriminate E].
  exists 1%nat, a. split; [exact E|].
  apply (H 1%nat a E); vm_compute in E; injection E as <-; reflexivity.
Defined.

(** Paxos validity.  Every value in a decided or accepted slot of a peer,
    and every value an attempt proposes, was given to [startHelper] by some
    attempt on that slot. *)
Lemma paxos_validity S :
  reachable S ->
  (forall i p s, pxs S !! i = Some p ->
     isDecided (slotOf p s) = true \/ 0 < seqNumAccepted (slotOf p s) ->
     exists k a, attempts S !! k = Some a /\ a_slot a = s /\ a_val a = slotValue (slotOf p s)) /\
  (forall k a, attempts S !! k = Some a ->
     exists k0 a0, attempts S !! k0 = Some a0 /\ a_slot a0 = a_slot a /\
       a_val a0 = proposeValue (coll a)).
Proof.
  intros Ho%reachable_origin. split.
  - intros i p s Hp Hd. apply (or_slot S Ho i p s Hp). tauto.
  - intros k a Ha. apply (or_value S Ho k a Ha).
Qed.

Lemma paxos_validity_demo :
  exists k a, attempts (state_after decided_run) !! k = Some a /\ a_slot a = 0 /\ a_val a = demoValue 2.
Proof.
  destruct (pxs (state_after decided_run) !! 2%nat) as [p|] eqn:E; [|vm_compute in E; discriminate E].
  destruct (proj1 (paxos_validity _ decided_reachable) 2%nat p 0 E) as (k & a & Ha & Hs & Hv).
  - left. vm_compute in E. injection E as <-. reflexivity.
  - exists k, a. split; [exact Ha|split; [exact Hs|]]. rewrite Hv.
    vm_compute in E. injection E as <-. reflexivity.
Defined.

(** C3: what a decided slot holds.  When a peer has decided a slot, a value
    has been chosen for the slot, and the peer's slot holds it, unless the
    peer afterwards accepted a proposal whose number is below that of the
    chosen one; in particular a decided peer that never accepted anything, or
    whose last accepted number is not below the chosen number, agrees. *)
Theorem paxos_decided_slot S i p s :
  reachable S -> pxs S !! i = Some p -> isDecided (slotOf p s) = true ->
  exists n v, chosen S s n v /\
    (slotValue (slotOf p s) = v \/
     (0 < seqNumAccepted (slotOf p s) < n /\
      vote S i s (seqNumAccepted (slotOf p s)) (slotValue (slotOf p s)))).
Proof.
  intros Hinv%reachable_inv Hp Hd.
  destruct (sl_decided _ _ _ _ (in_slot S Hinv i p s Hp) Hd) as (n & v & Hc & Hv).
  exists n, v. split; [done|]. destruct Hv as [?|[? Hv]]; [by left|right].
  split; [|done]. apply (vote_pos S Hinv) in Hv. lia.
Qed.

Lemma paxos_decided_slot_witness :
  exists n v, chosen (state_after decided_run) 0 n v.
Proof.
  destruct (pxs (state_after decided_run) !! 2%nat) as [p|] eqn:E; [|vm_compute in E; discriminate E].
  destruct (paxos_decided_slot _ 2%nat p 0 decided_reachable E) as (n & v & Hc & _).
  - vm_compute in E. injection E as <-. reflexivity.
  - exists n, v. exact Hc.
Defined.

(** C2: two peers can report different decisions.  [Accept] does not look at
    [isDecided] and [Decide] does not raise the promise, so a delayed Accept
    of an older proposal overwrites the value of a decided slot: in a
    reachable state of three peers, with no failures, [Status] of peers 1 and
    2 both say slot 0 is decided, with different values. *)
Theorem paxos_stale_accept_overwrites_decision :
  exists S p1 p2 v1 v2, reachable S /\ pxs S !! 1%nat = Some p1 /\ pxs S !! 2%nat = Some p2 /\
    (Status 0 p1).2 = (true, v1, None) /\ (Status 0 p2).2 = (true, v2, None) /\ v1 <> v2.
Proof.
  destruct (pxs (state_after stale_run) !! 1%nat) as [p1|] eqn:E1; [|vm_compute in E1; discriminate E1].
  destruct (pxs (state_after stale_run) !! 2%nat) as [p2|] eqn:E2; [|vm_compute in E2; discriminate E2].
  exists (state_after stale_run), p1, p2, (demoValue 2), (demoValue 1).
  split_and!; [exact stale_reachable|done|done| | |discriminate].
  - vm_compute in E1. injection E1 as <-. reflexivity.
  - vm_compute in E2. injection E2 as <-. reflexivity.
Qed.

End PaxosSafety.
