(* ===== verification/PaxosLocks.v ===== *)
(** * PaxosLocks: the mutexes of a Paxos peer

    Every RPC handler runs in its own goroutine.  This file models what the
    handlers of [paxos.go] lock and unlock, in order, and how the goroutines
    interleave: [px.mu], the mutex of each slot and [px.maxDoneLock].
    [getTimeSlotLock] takes and releases [px.mu] before a handler locks its
    slot.  Threads that keep to an order of the mutexes run to their end
    ([Order]); the handlers keep to one of two orders, and the two kinds can
    deadlock each other. *)
From S2P Require Import Prelude PaxosRpc Paxos.
Open Scope Z_scope.

Module PaxosLocks.

(** The mutexes of a peer: [px.mu], one for each slot, and [px.maxDoneLock]. *)
Inductive lock := Mu | Slot (s : Z) | MaxDoneLock.

#[export] Instance lock_eq_dec : EqDecision lock.
Proof. solve_decision. Defined.

Inductive lock_op := Acquire (x : lock) | Release (x : lock).

(** ** What each handler locks *)

Definition under (x : lock) : list lock_op := [Acquire x; Release x].

Definition getTimeSlotLock : list lock_op := under Mu.

Definition Prepare (s : Z) : list lock_op := getTimeSlotLock ++ under (Slot s).
Definition Accept (s : Z) : list lock_op := getTimeSlotLock ++ under (Slot s).
Definition Decide (s : Z) : list lock_op :=
  getTimeSlotLock ++ [Acquire (Slot s)] ++ under Mu ++ [Release (Slot s)].

(** [Put] takes [px.mu] only when it writes. *)
Definition Put (s : Z) (alreadyDecided : bool) : list lock_op :=
  getTimeSlotLock ++ [Acquire (Slot s)] ++
  (if alreadyDecided then [] else under Mu) ++ [Release (Slot s)].

Definition GetPeers := under Mu.
Definition UpdatePeers := under Mu.
Definition SetLock := under Mu.
Definition MaxDecidedSlot := under Mu.

(** [Status]: the check of [isLocked], then the slot. *)
Definition Status (s : Z) (locked : bool) : list lock_op :=
  under Mu ++ (if locked then [] else getTimeSlotLock ++ under (Slot s)).

(** The calls a proposer makes of its own peer in one round: a round ends after
    the prepare phase, after the accept phase, or with a decision.  The waits
    for the answers of the other peers hold no mutex. *)
Inductive round := PrepareFails | AcceptFails | Decides.
Definition own_calls (s : Z) (r : round) : list lock_op :=
  match r with
  | PrepareFails => Prepare s
  | AcceptFails => Prepare s ++ Accept s
  | Decides => Prepare s ++ Accept s ++ Decide s
  end.

Definition startHelper (s : Z) (rounds : list round) : list lock_op :=
  getTimeSlotLock ++ under (Slot s) ++ under MaxDoneLock ++ concat (own_calls s <$> rounds).

Definition Start (s : Z) (locked : bool) (rounds : list round) : list lock_op :=
  under Mu ++ (if locked then [] else startHelper s rounds).

Definition SyncPaxosValue (s : Z) (decided : bool) (rounds : list round) : list lock_op :=
  getTimeSlotLock ++ under (Slot s) ++
  (if decided then [] else startHelper s rounds ++ under (Slot s)).

(** Two handlers lock nothing. *)
Definition CheckStatus : list lock_op := [].
Definition RemoteKill : list lock_op := [].

(** [CheckSlot] and [MinUndecidedSlot] lock slots, one after the other, while
    they hold [px.mu].  The second starts at the [minUndecidedSlot] of the peer
    and ends at the first slot that is not decided. *)
Definition visit (slots : list Z) : list lock_op := concat ((fun s => under (Slot s)) <$> slots).
Definition visit_under_mu (slots : list Z) : list lock_op :=
  [Acquire Mu] ++ visit slots ++ [Release Mu].
Definition CheckSlot (maxDecidedSlot : Z) : list lock_op :=
  visit_under_mu (seqZ 0 (maxDecidedSlot + 1)).
Definition MinUndecidedSlot (first last : Z) : list lock_op :=
  visit_under_mu (seqZ first (last - first + 1)).

(** ** Interleaving *)

Record thread := mkThread { held : list lock; prog : list lock_op }.

Definition free (x : lock) (ts : list thread) : Prop := forall t, t ∈ ts -> x ∉ held t.

Fixpoint drop_lock (x : lock) (h : list lock) : list lock :=
  match h with
  | [] => []
  | y :: h' => if decide (x = y) then h' else y :: drop_lock x h'
  end.

Inductive step (ts : list thread) : list thread -> Prop :=
  | step_acquire j h x p :
      ts !! j = Some (mkThread h (Acquire x :: p)) -> free x ts ->
      step ts (<[j := mkThread (x :: h) p]> ts)
  | step_release j h x p :
      ts !! j = Some (mkThread h (Release x :: p)) -> x ∈ h ->
      step ts (<[j := mkThread (drop_lock x h) p]> ts).

Definition start (p : list lock_op) : thread := mkThread [] p.
Definition finished (t : thread) : Prop := prog t = [].

#[export] Instance finished_dec t : Decision (finished t).
Proof. unfold finished. apply _. Defined.

Definition deadlocked (ts : list thread) : Prop :=
  Exists (fun t => ~ finished t) ts /\ forall ts', ~ step ts ts'.

(** ** Lock orders *)

Section Order.
Variable rank : lock -> nat.

(** A program that holds [h] respects the order: it locks only what ranks above
    all it holds, and releases what it has locked. *)
Fixpoint ordered (h : list lock) (p : list lock_op) : Prop :=
  match p with
  | [] => h = []
  | Acquire x :: p' => Forall (fun y => (rank y < rank x)%nat) h /\ ordered (x :: h) p'
  | Release x :: p' => x ∈ h /\ ordered (drop_lock x h) p'
  end.

Definition all_ordered (ts : list thread) : Prop := Forall (fun t => ordered (held t) (prog t)) ts.

Lemma ordered_under x p : ordered [] p -> ordered [] (under x ++ p).
Proof. intros Hp. cbn. rewrite decide_True by done. repeat split; auto. by left. Qed.

Lemma ordered_app p q h : ordered h p -> ordered [] q -> ordered h (p ++ q).
Proof.
  revert h. induction p as [|[x|x] p IH]; cbn; [by intros h ->|naive_solver..].
Qed.

Lemma ordered_concat ps : Forall (ordered []) ps -> ordered [] (concat ps).
Proof. induction 1; cbn; [done|]. by apply ordered_app. Qed.

Lemma ordered_lookup ts j t : all_ordered ts -> ts !! j = Some t -> ordered (held t) (prog t).
Proof. unfold all_ordered. rewrite Forall_lookup. eauto. Qed.

Lemma ordered_step ts ts' : all_ordered ts -> step ts ts' -> all_ordered ts'.
Proof.
  intros Ho Hs. destruct Hs as [j h x p Ht Hfree|j h x p Ht Hx];
    pose proof (ordered_lookup _ _ _ Ho Ht) as Hp; apply Forall_insert; auto; apply Hp.
Qed.

(** The locks held, and one of the highest rank. *)
Definition locks_held (ts : list thread) : list lock := concat (held <$> ts).

Lemma elem_of_locks_held x ts : x ∈ locks_held ts <-> exists t, t ∈ ts /\ x ∈ held t.
Proof.
  unfold locks_held. induction ts as [|t ts IH]; cbn; [set_solver|].
  rewrite elem_of_app, IH. set_solver.
Qed.

Lemma highest l : l <> [] -> exists x, x ∈ l /\ forall y, y ∈ l -> (rank y <= rank x)%nat.
Proof.
  induction l as [|x l IH]; [done|intros _]. destruct l as [|z l].
  { exists x. split; [by left|]. intros y ->%list_elem_of_singleton. done. }
  destruct IH as (w & Hw & Hmax); [done|]. destruct (Nat.le_gt_cases (rank w) (rank x)).
  - exists x. split; [by left|]. intros y [->|Hy]%elem_of_cons; [done|]. specialize (Hmax y Hy). lia.
  - exists w. split; [by right|]. intros y [->|Hy]%elem_of_cons; [lia|auto].
Qed.

(** Threads that respect an order can always go on: the holder of a lock of the
    highest rank waits for nobody. *)
Lemma progress ts : all_ordered ts -> Exists (fun t => ~ finished t) ts -> exists ts', step ts ts'.
Proof.
  intros Ho Hun.
  assert (Hgo : forall j t, ts !! j = Some t -> ~ finished t ->
    (forall y, y ∈ locks_held ts -> exists x, x ∈ held t /\ (rank y <= rank x)%nat) ->
    exists ts', step ts ts').
  { intros j [h p] Ht Hp Hmax. pose proof (ordered_lookup _ _ _ Ho Ht) as Hord.
    destruct p as [|[x|x] p]; [done| |]; cbn in Hord.
    - eexists. eapply step_acquire; [exact Ht|]. intros t' Ht' Hin.
      destruct (Hmax x) as (y & Hy & Hle); [apply elem_of_locks_held; eauto|].
      destruct Hord as [Hlt _]. rewrite Forall_forall in Hlt. specialize (Hlt y Hy). lia.
    - eexists. eapply step_release; [exact Ht|apply Hord]. }
  destruct (decide (locks_held ts = [])) as [E|E].
  - apply Exists_exists in Hun as (t & [j Ht]%list_elem_of_lookup & Hun). apply (Hgo j t Ht Hun).
    rewrite E. intros y Hy. by apply not_elem_of_nil in Hy.
  - destruct (highest _ E) as (x & Hx & Hmax). apply elem_of_locks_held in Hx as (t & Ht & Hx).
    apply list_elem_of_lookup in Ht as [j Ht]. apply (Hgo j t Ht); [|eauto].
    intros Hf. pose proof (ordered_lookup _ _ _ Ho Ht) as Hord. rewrite Hf in Hord. cbn in Hord.
    rewrite Hord in Hx. by apply not_elem_of_nil in Hx.
Qed.

(** What is left to do, which every step makes less. *)
Definition work (ts : list thread) : nat := sum_list ((fun t => length (prog t)) <$> ts).

Lemma work_insert ts j t t' :
  ts !! j = Some t -> (work (<[j := t']> ts) + length (prog t) = work ts + length (prog t'))%nat.
Proof.
  unfold work. revert j. induction ts as [|u ts IH]; intros [|j] Hj; cbn in *; [done..| |].
  - injection Hj as ->. lia.
  - specialize (IH j Hj). unfold insert in *. lia.
Qed.

Lemma step_work ts ts' : step ts ts' -> (work ts' < work ts)%nat.
Proof.
  destruct 1 as [j h x p Ht _|j h x p Ht _];
    [pose proof (work_insert ts j _ (mkThread (x :: h) p) Ht)
    |pose proof (work_insert ts j _ (mkThread (drop_lock x h) p) Ht)]; cbn in *; lia.
Qed.

(** So a run of such threads ends, and only when all of them have finished. *)
Lemma ordered_finish ts :
  all_ordered ts ->
  ~ deadlocked ts /\ exists ts', rtc step ts ts' /\ Forall finished ts'.
Proof.
  intros Ho. split.
  { intros [Hun Hno]. destruct (progress ts Ho Hun) as [ts' Hs]. by apply (Hno ts'). }
  remember (work ts) as n eqn:En. revert ts Ho En.
  induction (lt_wf n) as [n _ IH]. intros ts Ho ->.
  destruct (decide (Forall finished ts)) as [Hf|Hf]; [exists ts; split; [apply rtc_refl|done]|].
  apply not_Forall_Exists in Hf; [|apply _].
  destruct (progress ts Ho Hf) as [ts1 Hs].
  destruct (IH (work ts1) (step_work _ _ Hs) ts1) as (ts' & Hr & Hfin);
    [by eapply ordered_step|done|]. exists ts'. split; [by eapply rtc_l|done].
Qed.

Lemma ordered_run ps ts :
  Forall (ordered []) ps -> rtc step (start <$> ps) ts ->
  ~ deadlocked ts /\ exists ts', rtc step ts ts' /\ Forall finished ts'.
Proof.
  intros Hps Hr. apply ordered_finish. eapply (rtc_invariant step); [exact ordered_step| |exact Hr].
  unfold all_ordered. by rewrite Forall_fmap.
Qed.
End Order.

(** ** The handlers *)

(** Handlers that never hold two mutexes at once. *)
Inductive one_at_a_time : list lock_op -> Prop :=
  | oa_Prepare s : one_at_a_time (Prepare s)
  | oa_Accept s : one_at_a_time (Accept s)
  | oa_Put s : one_at_a_time (Put s true)
  | oa_GetPeers : one_at_a_time GetPeers
  | oa_UpdatePeers : one_at_a_time UpdatePeers
  | oa_SetLock : one_at_a_time SetLock
  | oa_MaxDecidedSlot : one_at_a_time MaxDecidedSlot
  | oa_Status s b : one_at_a_time (Status s b)
  | oa_Start s rounds : one_at_a_time (Start s true rounds)
  | oa_SyncPaxosValue s rounds : one_at_a_time (SyncPaxosValue s true rounds)
  | oa_CheckStatus : one_at_a_time CheckStatus
  | oa_RemoteKill : one_at_a_time RemoteKill.

(** Handlers that lock [px.mu] while they hold a slot. *)
Inductive slot_first : list lock_op -> Prop :=
  | sf_Decide s : slot_first (Decide s)
  | sf_Put s : slot_first (Put s false)
  | sf_Start s rounds : slot_first (Start s false rounds)
  | sf_SyncPaxosValue s rounds : slot_first (SyncPaxosValue s false rounds).

(** Handlers that lock slots while they hold [px.mu]. *)
Inductive mu_first : list lock_op -> Prop :=
  | mf_CheckSlot m : mu_first (CheckSlot m)
  | mf_MinUndecidedSlot first last : mu_first (MinUndecidedSlot first last).

Definition handler (p : list lock_op) : Prop := one_at_a_time p \/ slot_first p \/ mu_first p.

(** The two orders: slots before [px.mu], and [px.mu] before the slots. *)
Definition slots_below (x : lock) : nat :=
  match x with Slot _ => 0 | Mu => 1 | MaxDoneLock => 2 end.
Definition mu_below (x : lock) : nat :=
  match x with Mu => 0 | Slot _ => 1 | MaxDoneLock => 2 end.

Lemma one_at_a_time_ordered rank p : one_at_a_time p -> ordered rank [] p.
Proof.
  destruct 1 as [s|s|s| | | | |s []|s r|s r| |]; try done;
    repeat (first [apply ordered_under | apply (ordered_under rank _ [])
                  | apply (ordered_app rank (under _)) | done]).
Qed.

Lemma Decide_ordered s : ordered slots_below [] (Decide s).
Proof.
  apply ordered_under. cbn. rewrite !decide_True by done.
  repeat first [split | apply Forall_cons_2 | apply Forall_nil_2 | cbn; lia | by left | done].
  cbn. by rewrite decide_True.
Qed.

Lemma startHelper_ordered s rounds : ordered slots_below [] (startHelper s rounds).
Proof.
  unfold startHelper, getTimeSlotLock. do 3 apply ordered_under.
  apply ordered_concat, Forall_fmap, Forall_true. intros r.
  assert (HP : ordered slots_below [] (Prepare s)) by (apply one_at_a_time_ordered; constructor).
  assert (HA : ordered slots_below [] (Accept s)) by (apply one_at_a_time_ordered; constructor).
  destruct r; cbn [own_calls compose];
    repeat (apply ordered_app; [assumption|]); auto using Decide_ordered.
Qed.

Lemma slot_first_ordered p : slot_first p -> ordered slots_below [] p.
Proof.
  destruct 1 as [s|s|s rounds|s rounds].
  - apply Decide_ordered.
  - apply (Decide_ordered s).
  - apply ordered_under, startHelper_ordered.
  - do 2 apply ordered_under. apply ordered_app; [apply startHelper_ordered|].
    apply (ordered_under _ _ []). done.
Qed.

Lemma mu_first_ordered p : mu_first p -> ordered mu_below [] p.
Proof.
  assert (Hv : forall l q, ordered mu_below [Mu] q -> ordered mu_below [Mu] (visit l ++ q)).
  { induction l as [|s l IH]; intros q Hq; [done|]. cbn. rewrite decide_True by done.
    repeat split; [repeat constructor|by left|by apply IH]. }
  assert (Hg : forall l, ordered mu_below [] (visit_under_mu l)).
  { intros l. unfold visit_under_mu. cbn. split; [constructor|]. apply Hv. cbn.
    rewrite decide_True by done. split; [by left|done]. }
  destruct 1; apply Hg.
Qed.

(** ** The deadlock *)

Lemma free_two x t1 t2 : x ∉ held t1 -> x ∉ held t2 -> free x [t1; t2].
Proof. intros H1 H2 t [->|[->|[]%not_elem_of_nil]%elem_of_cons]%elem_of_cons; done. Qed.

(** A walk over slots that the other thread does not hold. *)
Lemma visit_run t1 l q :
  held t1 = [Slot q] -> q ∉ l -> forall rest,
  rtc step [t1; mkThread [Mu] (visit l ++ rest)] [t1; mkThread [Mu] rest].
Proof.
  intros H1. induction l as [|s l IH]; intros Hq rest; [apply rtc_refl|].
  apply not_elem_of_cons in Hq as [Hs Hq].
  eapply rtc_l.
  { eapply (step_acquire _ 1); [reflexivity|]. apply free_two; [rewrite H1|]; set_solver. }
  cbn. eapply rtc_l; [eapply (step_release _ 1); [reflexivity|by left]|].
  cbn. rewrite decide_True by done. by apply IH.
Qed.

Lemma handler_start p : handler p -> p = [] \/ exists q, p = Acquire Mu :: q.
Proof. intros [[]|[[]|[]]]; cbn; eauto. Qed.

(** Where two threads wait for each other and [px.mu] is held, nobody goes on. *)
Lemma embrace_deadlocked s rest1 rest2 ps :
  Forall handler ps ->
  deadlocked ([mkThread [Slot s] (Acquire Mu :: rest1); mkThread [Mu] (Acquire (Slot s) :: rest2)]
              ++ (start <$> ps)).
Proof.
  intros Hps. split; [by apply Exists_cons_hd|]. intros ts' Hs.
  assert (Hnext : forall j h o p,
    ([mkThread [Slot s] (Acquire Mu :: rest1); mkThread [Mu] (Acquire (Slot s) :: rest2)]
      ++ (start <$> ps)) !! j = Some (mkThread h (o :: p)) -> o = Acquire Mu \/ o = Acquire (Slot s)).
  { intros [|[|j]] h o p Hj; cbn in Hj; [naive_solver|naive_solver|].
    change ((start <$> ps) !! j = Some (mkThread h (o :: p))) in Hj.
    rewrite list_lookup_fmap in Hj. apply fmap_Some in Hj as (q & Hq & [= -> <-]).
    rewrite Forall_lookup in Hps.
    destruct (handler_start _ (Hps _ _ Hq)) as [?|(q' & [= -> ->])]; [done|by left]. }
  destruct Hs as [j h x p Hj Hfree|j h x p Hj _]; destruct (Hnext _ _ _ _ Hj) as [E|E]; try done;
    injection E as ->.
  - eapply Hfree; [right; left|by left].
  - eapply Hfree; [left|by left].
Qed.

(** The two orders meet.  A walk over [slots] under [px.mu] against a thread
    about to lock the slot [s] of the walk, and then [px.mu]. *)
Lemma orders_deadlock p rest1 s slots :
  p = getTimeSlotLock ++ [Acquire (Slot s); Acquire Mu] ++ rest1 ->
  s ∈ slots -> NoDup slots ->
  exists t1 t2, rtc step [start p; start (visit_under_mu slots)] [t1; t2] /\
    ~ finished t1 /\ ~ finished t2 /\
    forall ps, Forall handler ps -> deadlocked ([t1; t2] ++ (start <$> ps)).
Proof.
  intros -> Hs Hnd. apply list_elem_of_split in Hs as (l1 & l2 & ->).
  set (rest2 := Release (Slot s) :: visit l2 ++ [Release Mu]).
  exists (mkThread [Slot s] (Acquire Mu :: rest1)), (mkThread [Mu] (Acquire (Slot s) :: rest2)).
  split_and!; [|done|done|intros ps Hps; by apply embrace_deadlocked].
  assert (E : visit_under_mu (l1 ++ s :: l2) = Acquire Mu :: visit l1 ++ Acquire (Slot s) :: rest2).
  { unfold visit_under_mu, visit, rest2. rewrite fmap_app, concat_app. cbn.
    by rewrite <- !app_assoc. }
  rewrite E. unfold start, getTimeSlotLock, under. cbn [app].
  eapply rtc_l; [eapply (step_acquire _ 0); [reflexivity|apply free_two; cbn; set_solver]|]. cbn.
  eapply rtc_l; [eapply (step_release _ 0); [reflexivity|by left]|]. cbn.
  eapply rtc_l; [eapply (step_acquire _ 0); [reflexivity|apply free_two; cbn; set_solver]|]. cbn.
  eapply rtc_l; [eapply (step_acquire _ 1); [reflexivity|apply free_two; cbn; set_solver]|]. cbn.
  apply (visit_run _ l1 s); [done|]. apply NoDup_app in Hnd as (_ & Hnd & _).
  intros Hin. eapply Hnd; [exact Hin|by left].
Qed.

(** The handlers that write the greatest decided slot under the slot's lock. *)
Definition writers (s : Z) : list (list lock_op) := [Decide s; Put s false].

Lemma writer_deadlocks s slots w :
  w ∈ writers s -> s ∈ slots -> NoDup slots ->
  exists t1 t2, rtc step [start w; start (visit_under_mu slots)] [t1; t2] /\
    ~ finished t1 /\ ~ finished t2 /\
    forall ps, Forall handler ps -> deadlocked ([t1; t2] ++ (start <$> ps)).
Proof.
  intros Hw. eapply (orders_deadlock w [Release Mu; Release (Slot s)]).
  unfold writers in Hw. set_solver.
Qed.

(** C35: which handlers of a peer can deadlock.  Any number of concurrent
    Prepare, Accept, Decide, Put, Status, Start, SyncPaxosValue, membership and
    MaxDecidedSlot calls, from any point they can reach, is never deadlocked and
    can run to the end of every one of them; so can any number of CheckSlot and
    MinUndecidedSlot calls next to handlers that hold one mutex at a time.  But
    the two kinds together cannot: one CheckSlot or MinUndecidedSlot next to one
    Decide, or one Put of a value, of any slot that it visits can reach a state
    in which neither ever goes on, since the first locks the slots while it
    holds [px.mu] and the second locks [px.mu] while it holds its slot; and no
    handler that arrives then goes on either, but for CheckStatus and
    RemoteKill, which lock nothing. *)
Theorem lock_discipline :
  (forall ps ts, Forall (fun p => one_at_a_time p \/ slot_first p) ps -> rtc step (start <$> ps) ts ->
    ~ deadlocked ts /\ exists ts', rtc step ts ts' /\ Forall finished ts') /\
  (forall ps ts, Forall (fun p => one_at_a_time p \/ mu_first p) ps -> rtc step (start <$> ps) ts ->
    ~ deadlocked ts /\ exists ts', rtc step ts ts' /\ Forall finished ts') /\
  (forall walk w s first last,
    walk = CheckSlot last /\ first = 0 \/ walk = MinUndecidedSlot first last ->
    first <= s <= last -> w ∈ writers s ->
    exists t1 t2, rtc step [start w; start walk] [t1; t2] /\ ~ finished t1 /\ ~ finished t2 /\
      forall ps, Forall handler ps -> deadlocked ([t1; t2] ++ (start <$> ps))) /\
  (forall p, handler p -> p <> [] -> exists q, p = Acquire Mu :: q) /\
  CheckStatus = [] /\ RemoteKill = [].
Proof.
  split_and!; [| | | |done|done].
  - intros ps ts Hps. apply (ordered_run slots_below). eapply Forall_impl; [exact Hps|].
    intros p [Hp|Hp]; [by apply one_at_a_time_ordered|by apply slot_first_ordered].
  - intros ps ts Hps. apply (ordered_run mu_below). eapply Forall_impl; [exact Hps|].
    intros p [Hp|Hp]; [by apply one_at_a_time_ordered|by apply mu_first_ordered].
  - intros walk w s first last Hwalk Hs Hw.
    destruct Hwalk as [[-> ->]| ->]; apply (writer_deadlocks s); try done;
      first [apply NoDup_seqZ | apply elem_of_seqZ; lia].
  - intros p Hp Hne. destruct (handler_start p Hp); done.
Qed.

Lemma lock_discipline_witness :
  ~ deadlocked (start <$> [Prepare 1; Decide 1; Start 1 false [AcceptFails; Decides]]) /\
  ~ deadlocked (start <$> [Prepare 1; MinUndecidedSlot 0 1]) /\
  exists t1 t2, rtc step [start (Put 2 false); start (MinUndecidedSlot 0 3)] [t1; t2] /\ ~ finished t1.
Proof.
  destruct lock_discipline as (Hs & Hm & Hd & _). split; [|split].
  - apply (Hs [Prepare 1; Decide 1; Start 1 false [AcceptFails; Decides]]); [|apply rtc_refl].
    repeat apply Forall_cons_2; [left|right|right|]; constructor.
  - apply (Hm [Prepare 1; MinUndecidedSlot 0 1]); [|apply rtc_refl].
    repeat apply Forall_cons_2; [left|right|]; constructor.
  - destruct (Hd (MinUndecidedSlot 0 3) (Put 2 false) 2 0 3) as (t1 & t2 & H1 & H2 & _);
      [right; reflexivity|lia|right; left|]. exists t1, t2. split; assumption.
Defined.

End PaxosLocks.
