(* ===== verification/FlightServer.v ===== *)
(** * FlightServer: the replicated airline server ([p3/.../server/server_impl.go])

    The server state, the helpers that execute one log entry, the catch-up
    loop [addPaxosLogAndUpdateState] and the six RPC handlers.  The server
    reaches its Paxos instance through an interface ([PaxosService]): [Status],
    [Start], and what the service promises about them.  [MyReservationArgs] and
    the other message types of [serverrpc/proto.go] are here as well.  A date
    is parsed in UTC, so [AddDate(0, 0, 1)] adds 24 hours. *)
From S2P Require Import Prelude PaxosRpc Paxos.
Open Scope Z_scope.

(** ** The messages *)

Module ServerRpc.
Definition Ok : Z := 1.
Definition Reject : Z := 2.

Record FlightInfo := mkFlightInfo { fi_FlightId : string; fi_Date : Time; fi_TicketNum : Z }.
Record MyReservationArgs := mkMyReservationArgs { mr_UserName : string }.
Record MyReservationReply := mkMyReservationReply { mr_Flights : list FlightInfo }.
Record CheckTicketsArgs := mkCheckTicketsArgs {
  ct_FlightId : string; ct_StartDate : Time; ct_EndDate : Time }.
Record CheckTicketsReply := mkCheckTicketsReply { ct_Flights : list FlightInfo }.
Record ReserveTicketArgs := mkReserveTicketArgs {
  rt_UserName : string; rt_FlightId : string; rt_Date : Time }.
Record ReserveTicketReply := mkReserveTicketReply { rt_Status : Z }.
Record AddFlightArgs := mkAddFlightArgs { af_FlightId : string; af_Date : Time; af_TicketNum : Z }.
Record AddFlightReply := mkAddFlightReply { af_Status : Z }.
Record CancelFlightArgs := mkCancelFlightArgs { cf_FlightId : string; cf_Date : Time }.
Record CancelFlightReply := mkCancelFlightReply { cf_Status : Z }.
Record EditFlightArgs := mkEditFlightArgs { ef_FlightId : string; ef_Date : Time; ef_TicketNum : Z }.
Record EditFlightReply := mkEditFlightReply { ef_Status : Z }.
End ServerRpc.

Module FlightServer.
Import ServerRpc.

(** The key [flight{flightId, date}]. *)
Abbreviation flight := (string * Z)%type.

Record server := mkServer {
  currSlotNum : Z;
  reservedFlights : gmap string (list FlightInfo);
  flightStatus : gmap flight Z }.

#[export] Instance eta_server : EtaRecord server := fun s =>
  mkServer (currSlotNum s) (reservedFlights s) (flightStatus s).

Definition NewServer : server := mkServer 0 ∅ ∅.

(** ** The helpers *)

Definition myReservationHelper (paxosOp : PaxosValue) (s : server) : list FlightInfo :=
  match reservedFlights s !! UserName paxosOp with
  | None => []
  | Some flights =>
      filter (fun fli => is_Some (flightStatus s !! (fi_FlightId fli, fi_Date fli))) flights
  end.

(** The loop of [checkTicketsHelper]. *)
Fixpoint checkDates (fuel : nat) (flightId : string) (queryDate endDate : Time) (s : server)
  : option (list FlightInfo) :=
  if endDate <? queryDate then Some []
  else
    match fuel with
    | O => None
    | S fuel' =>
        rest ← checkDates fuel' flightId (queryDate + oneDay) endDate s;
        Some (match flightStatus s !! (flightId, queryDate) with
              | Some ticketNum =>
                  if 0 <? ticketNum then mkFlightInfo flightId queryDate ticketNum :: rest else rest
              | None => rest
              end)
    end.

(** As many turns as there are days from the first to the last date. *)
Definition days (startDate endDate : Time) : nat := Z.to_nat ((endDate - startDate) / oneDay + 1).

Definition checkTicketsHelper (paxosOp : PaxosValue) (s : server) : list FlightInfo :=
  default [] (checkDates (days (StartDate paxosOp) (EndDate paxosOp)) (FlightId paxosOp)
                (StartDate paxosOp) (EndDate paxosOp) s).

Definition reserveTicketHelper (paxosOp : PaxosValue) (s : server) : server * bool :=
  let userName := UserName paxosOp in
  let queryFlight := (FlightId paxosOp, StartDate paxosOp) in
  match flightStatus s !! queryFlight with
  | Some ticketNum =>
      if 0 <? ticketNum then
        let addedFlightInfo := mkFlightInfo (FlightId paxosOp) (StartDate paxosOp) 0 in
        (s <| flightStatus := <[queryFlight := ticketNum - 1]> (flightStatus s) |>
           <| reservedFlights :=
                <[userName := map_get [] (reservedFlights s) userName ++ [addedFlightInfo]]>
                  (reservedFlights s) |>, true)
      else (s, false)
  | None => (s, false)
  end.

Definition addFlightHelper (paxosOp : PaxosValue) (s : server) : server * bool :=
  let addedFlight := (FlightId paxosOp, StartDate paxosOp) in
  match flightStatus s !! addedFlight with
  | None => (s <| flightStatus := <[addedFlight := TicketNum paxosOp]> (flightStatus s) |>, true)
  | Some _ => (s, false)
  end.

Definition cancelFlightHelper (paxosOp : PaxosValue) (s : server) : server * bool :=
  let deleteFlight := (FlightId paxosOp, StartDate paxosOp) in
  match flightStatus s !! deleteFlight with
  | Some _ => (s <| flightStatus := delete deleteFlight (flightStatus s) |>, true)
  | None => (s, false)
  end.

Definition editFlightHelper (paxosOp : PaxosValue) (s : server) : server * bool :=
  let editFlight := (FlightId paxosOp, StartDate paxosOp) in
  match flightStatus s !! editFlight with
  | Some _ => (s <| flightStatus := <[editFlight := TicketNum paxosOp]> (flightStatus s) |>, true)
  | None => (s, false)
  end.

(** The [interface{}] result. *)
Inductive result := RNil | RFlights (fs : list FlightInfo) | RBool (b : bool).

(** The switch on the decided operation; [retVal] keeps its value in the cases
    that assign nothing. *)
Definition executeOp (paxosOp decidedOp : PaxosValue) (s : server) (retVal : result)
  : server * result :=
  let t := Type_ decidedOp in
  if t =? MyReservation then
    (s, if decide (paxosOp = decidedOp) then RFlights (myReservationHelper decidedOp s) else retVal)
  else if t =? CheckTickets then
    (s, if decide (paxosOp = decidedOp) then RFlights (checkTicketsHelper decidedOp s) else retVal)
  else if t =? ReserveTicket then let '(s, b) := reserveTicketHelper decidedOp s in (s, RBool b)
  else if t =? AddFlight then let '(s, b) := addFlightHelper decidedOp s in (s, RBool b)
  else if t =? CancelFlight then let '(s, b) := cancelFlightHelper decidedOp s in (s, RBool b)
  else if t =? EditFlight then let '(s, b) := editFlightHelper decidedOp s in (s, RBool b)
  else (s, retVal).

(** ** The Paxos instance, as the server sees it *)

(** [W] is the state of the world the Paxos peers live in, [me] the peer the
    server is bound to.  [svc_log w n] is the decision on slot [n].  What the
    server relies on: a decision that [Status] reports is the one on record,
    at every peer, and a decision on record stays. *)
Class PaxosService (W : Type) := {
  svc_Status : nat -> Z -> W -> W * (bool * value * option string);
  svc_Start : nat -> Z -> value -> W -> outcome (W * option string);
  svc_log : W -> Z -> option value;
  svc_Status_log : forall me n w w' v,
    svc_Status me n w = (w', (true, v, None)) -> svc_log w' n = Some v;
  svc_Status_stable : forall me n w m v,
    svc_log w m = Some v -> svc_log (svc_Status me n w).1 m = Some v;
  svc_Start_stable : forall me n v w w' e m u,
    svc_Start me n v w = Ret (w', e) -> svc_log w m = Some u -> svc_log w' m = Some u }.

Section server_loop.
Context {W : Type} `{PaxosService W} (me : nat).

(** The inner loop: [Start] and [Status] until the slot is decided. *)
Fixpoint waitDecided (fuel : nat) (slot : Z) (paxosOp : PaxosValue)
    (st : W * (bool * value * option string)) : outcome (W * (value + string)) :=
  match st with
  | (w, (_, _, Some err)) => Ret (w, inr err)
  | (w, (true, val, None)) => Ret (w, inl val)
  | (w, (false, _, None)) =>
      match fuel with
      | O => Hang
      | S fuel' =>
          '(w, err) ← svc_Start me slot (Some paxosOp) w;
          match err with
          | Some e => Ret (w, inr e)
          | None => waitDecided fuel' slot paxosOp (svc_Status me slot w)
          end
      end
  end.

(** The outer loop; [fuel] bounds the slots visited and [tries] the rounds of
    Paxos per slot. *)
Fixpoint catchUp (fuel tries : nat) (paxosOp : PaxosValue) (retVal : result) (s : server) (w : W)
  : outcome (server * W * (result + string)) :=
  match fuel with
  | O => Hang
  | S fuel' =>
      '(w, r) ← waitDecided tries (currSlotNum s) paxosOp (svc_Status me (currSlotNum s) w);
      match r with
      | inr err => Ret (s, w, inr err)
      | inl val =>
          decidedOp ← deref val;
          let s := s <| currSlotNum := currSlotNum s + 1 |> in
          let '(s, retVal) := executeOp paxosOp decidedOp s retVal in
          if decide (paxosOp = decidedOp) then Ret (s, w, inl retVal)
          else catchUp fuel' tries paxosOp retVal s w
      end
  end.

Definition addPaxosLogAndUpdateState (fuel tries : nat) (paxosOp : PaxosValue) (s : server) (w : W)
  : outcome (server * W * (result + string)) :=
  catchUp fuel tries paxosOp RNil s w.

(** ** The RPC handlers, with the clock's reading [now] *)

Definition as_flights (r : result) : outcome (list FlightInfo) :=
  match r with RFlights fs => Ret fs | _ => Panic end.
Definition as_bool (r : result) : outcome bool :=
  match r with RBool b => Ret b | _ => Panic end.

Definition rpc_MyReservation (fuel tries : nat) (now : Time) (args : MyReservationArgs)
    (s : server) (w : W) : outcome (server * W * (MyReservationReply + string)) :=
  let paxosOp := mkPaxosValue MyReservation now (mr_UserName args) "" 0 0 0 in
  '(s, w, r) ← addPaxosLogAndUpdateState fuel tries paxosOp s w;
  match r with
  | inr err => Ret (s, w, inr err)
  | inl retVal => fs ← as_flights retVal; Ret (s, w, inl (mkMyReservationReply fs))
  end.

Definition rpc_CheckTickets (fuel tries : nat) (now : Time) (args : CheckTicketsArgs)
    (s : server) (w : W) : outcome (server * W * (CheckTicketsReply + string)) :=
  let paxosOp := mkPaxosValue CheckTickets now "" (ct_FlightId args) (ct_StartDate args)
                   (ct_EndDate args) 0 in
  '(s, w, r) ← addPaxosLogAndUpdateState fuel tries paxosOp s w;
  match r with
  | inr err => Ret (s, w, inr err)
  | inl retVal => fs ← as_flights retVal; Ret (s, w, inl (mkCheckTicketsReply fs))
  end.

Definition rpc_ReserveTicket (fuel tries : nat) (now : Time) (args : ReserveTicketArgs)
    (s : server) (w : W) : outcome (server * W * (ReserveTicketReply + string)) :=
  let paxosOp := mkPaxosValue ReserveTicket now (rt_UserName args) (rt_FlightId args)
                   (rt_Date args) (rt_Date args) 0 in
  '(s, w, r) ← addPaxosLogAndUpdateState fuel tries paxosOp s w;
  match r with
  | inr err => Ret (s, w, inr err)
  | inl retVal =>
      success ← as_bool retVal;
      Ret (s, w, inl (mkReserveTicketReply (if success : bool then Ok else Reject)))
  end.

Definition rpc_AddFlight (fuel tries : nat) (now : Time) (args : AddFlightArgs)
    (s : server) (w : W) : outcome (server * W * (AddFlightReply + string)) :=
  let paxosOp := mkPaxosValue AddFlight now "" (af_FlightId args) (af_Date args) (af_Date args)
                   (af_TicketNum args) in
  '(s, w, r) ← addPaxosLogAndUpdateState fuel tries paxosOp s w;
  match r with
  | inr err => Ret (s, w, inr err)
  | inl retVal =>
      success ← as_bool retVal;
      Ret (s, w, inl (mkAddFlightReply (if success : bool then Ok else Reject)))
  end.

Definition rpc_CancelFlight (fuel tries : nat) (now : Time) (args : CancelFlightArgs)
    (s : server) (w : W) : outcome (server * W * (CancelFlightReply + string)) :=
  let paxosOp := mkPaxosValue CancelFlight now "" (cf_FlightId args) (cf_Date args) (cf_Date args) 0 in
  '(s, w, r) ← addPaxosLogAndUpdateState fuel tries paxosOp s w;
  match r with
  | inr err => Ret (s, w, inr err)
  | inl retVal =>
      success ← as_bool retVal;
      Ret (s, w, inl (mkCancelFlightReply (if success : bool then Ok else Reject)))
  end.

Definition rpc_EditFlight (fuel tries : nat) (now : Time) (args : EditFlightArgs)
    (s : server) (w : W) : outcome (server * W * (EditFlightReply + string)) :=
  let paxosOp := mkPaxosValue EditFlight now "" (ef_FlightId args) (ef_Date args) (ef_Date args)
                   (ef_TicketNum args) in
  '(s, w, r) ← addPaxosLogAndUpdateState fuel tries paxosOp s w;
  match r with
  | inr err => Ret (s, w, inr err)
  | inl retVal =>
      success ← as_bool retVal;
      Ret (s, w, inl (mkEditFlightReply (if success : bool then Ok else Reject)))
  end.

End server_loop.

(** ** Executing the log *)

(** The state after one log entry: what the operation's own server and every
    other one do to it. *)
Definition applyOp (op : PaxosValue) (s : server) : server :=
  (executeOp op op (s <| currSlotNum := currSlotNum s + 1 |>) RNil).1.

Definition replay (ops : list PaxosValue) (s : server) : server := foldl (fun s op => applyOp op s) s ops.

Lemma executeOp_state p d s r : (executeOp p d s r).1 = (executeOp d d s RNil).1.
Proof.
  unfold executeOp. repeat (destruct (Type_ d =? _); [done||by destruct (_ : server * bool)|]).
  done.
Qed.

Lemma executeOp_slot p d s r : currSlotNum (executeOp p d s r).1 = currSlotNum s.
Proof.
  unfold executeOp, reserveTicketHelper, addFlightHelper, cancelFlightHelper, editFlightHelper.
  repeat (destruct (Type_ d =? _); [try done|]); try done;
    destruct (flightStatus s !! _) as [n|]; try done; by destruct (0 <? n).
Qed.

Lemma applyOp_slot op s : currSlotNum (applyOp op s) = currSlotNum s + 1.
Proof. apply executeOp_slot. Qed.

Lemma replay_slot ops s : currSlotNum (replay ops s) = currSlotNum s + Z.of_nat (length ops).
Proof.
  revert s. induction ops as [|op ops IH]; intros s; cbn [replay foldl length]; [lia|].
  unfold replay in IH. rewrite IH, applyOp_slot. lia.
Qed.

Section log_facts.
Context {W : Type} `{PaxosService W} (me : nat).

(** [w'] has at least the decisions of [w]. *)
Definition log_grows (w w' : W) : Prop := forall m v, svc_log w m = Some v -> svc_log w' m = Some v.

Lemma log_grows_trans w1 w2 w3 : log_grows w1 w2 -> log_grows w2 w3 -> log_grows w1 w3.
Proof. intros H1 H2 m v Hm. auto. Qed.

Lemma waitDecided_log tries slot op : forall w st w' r,
  svc_Status me slot w = st -> waitDecided me tries slot op st = Ret (w', r) ->
  log_grows w w' /\ forall v, r = inl v -> svc_log w' slot = Some v.
Proof.
  induction tries as [|tries IH]; intros w [w1 [[[] v] [e|]]] w' r Hst; cbn [waitDecided];
    assert (Hg : log_grows w w1) by (intros m u Hm; pose proof (svc_Status_stable me slot w m u Hm) as Hs;
      by rewrite Hst in Hs); try (by intros [= <- <-]; split; [done|]); try done.
  - intros [= <- <-]. split; [done|]. intros u [= ->]. by eapply svc_Status_log.
  - intros [= <- <-]. split; [done|]. intros u [= ->]. by eapply svc_Status_log.
  - intros H1. bind_inv. destruct x as [w2 [e|]]; cbn in *.
    + bind_inv. split; [|done]. eapply log_grows_trans; [exact Hg|]. intros m u. by eapply svc_Start_stable.
    + destruct (IH w2 _ _ _ eq_refl H1) as [Hg' Hv]. split; [|done].
      eapply log_grows_trans; [exact Hg|]. eapply log_grows_trans; [|exact Hg'].
      intros m u. by eapply svc_Start_stable.
Qed.

(** [ops] are the decisions on the slots from [n] on. *)
Definition decisions (w : W) (n : Z) (ops : list PaxosValue) : Prop :=
  forall i op, ops !! i = Some op -> svc_log w (n + Z.of_nat i) = Some (Some op).

Lemma decisions_cons w n op ops :
  svc_log w n = Some (Some op) -> decisions w (n + 1) ops -> decisions w n (op :: ops).
Proof.
  intros Hn Hd [|i] x; cbn; [intros [= <-]; by rewrite Z.add_0_r|].
  intros Hi. rewrite <- (Hd i x Hi). f_equal. lia.
Qed.

Lemma catchUp_replay fuel tries op : forall r0 s w s' w' r,
  catchUp me fuel tries op r0 s w = Ret (s', w', r) ->
  log_grows w w' /\ exists ops, s' = replay ops s /\ decisions w' (currSlotNum s) ops.
Proof.
  induction fuel as [|fuel IH]; intros r0 s w s' w' r; cbn [catchUp]; [done|]. intros H1. bind_inv.
  destruct x as [w1 [v|e]]; cbn in H1.
  - destruct (waitDecided_log _ _ _ _ _ _ _ eq_refl E) as [Hg Hv]. specialize (Hv v eq_refl). bind_inv.
    rename x into d. subst v.
    match type of H1 with context [executeOp op d ?x r0] =>
      destruct (executeOp op d x r0) as [s1 r1] eqn:Ex end.
    assert (Hs1 : s1 = applyOp d s).
    { unfold applyOp. rewrite <- (executeOp_state op d _ r0). cbn. by rewrite Ex. }
    destruct (decide (op = d)) as [->|_].
    + injection H1 as <- <- <-. split; [done|]. exists [d]. split; [done|].
      apply decisions_cons; [done|]. intros i x. by rewrite lookup_nil.
    + apply IH in H1 as (Hg' & ops & -> & Hd). split; [by eapply log_grows_trans|].
      exists (d :: ops). subst s1. split; [done|]. rewrite applyOp_slot in Hd.
      apply decisions_cons; [by apply Hg'|done].
  - bind_inv. destruct (waitDecided_log _ _ _ _ _ _ _ eq_refl E) as [Hg _]. split; [done|].
    exists []. split; [done|]. intros i x. by rewrite lookup_nil.
Qed.

End log_facts.

(** ** Replicas *)

Section replicas.
Context {W : Type} `{PaxosService W}.

(** Server [i] serves one request.  What other servers and the network do
    meanwhile is part of what [svc_Status] and [svc_Start] do to the world. *)
Inductive rstep : list server * W -> list server * W -> Prop :=
  | rcall i s op fuel tries s' w' r ss w :
      ss !! i = Some s -> addPaxosLogAndUpdateState i fuel tries op s w = Ret (s', w', r) ->
      rstep (ss, w) (<[i := s']> ss, w').

(** A server whose state is the log's prefix, executed. *)
Definition synced (w : W) (s : server) : Prop :=
  exists ops, s = replay ops NewServer /\ decisions w 0 ops.

Lemma synced_grows w w' s : log_grows w w' -> synced w s -> synced w' s.
Proof. intros Hg (ops & -> & Hd). exists ops. split; [done|]. intros i op Hi. by apply Hg, Hd. Qed.

Lemma synced_call i fuel tries op s w s' w' r :
  addPaxosLogAndUpdateState i fuel tries op s w = Ret (s', w', r) ->
  synced w s -> log_grows w w' /\ synced w' s'.
Proof.
  intros Hc (ops & -> & Hd). apply catchUp_replay in Hc as (Hg & ops' & -> & Hd'). split; [done|].
  exists (ops ++ ops'). split; [unfold replay; by rewrite foldl_app|].
  intros j x Hj. apply lookup_app_Some in Hj as [Hj|[Hge Hj]]; [by apply Hg, Hd|].
  rewrite <- (Hd' _ _ Hj). f_equal. rewrite replay_slot. cbn. lia.
Qed.

Lemma rstep_synced c c' :
  Forall (synced c.2) c.1 -> rstep c c' -> Forall (synced c'.2) c'.1.
Proof.
  intros Hall Hs. destruct Hs as [i s op fuel tries s' w' r ss w Hi Hc]. cbn in *.
  rewrite Forall_lookup in Hall. destruct (synced_call _ _ _ _ _ _ _ _ _ Hc (Hall i s Hi)) as [Hg Hs'].
  apply Forall_insert; [|done]. apply Forall_lookup. intros j t Hj. eapply synced_grows; eauto.
Qed.

Lemma decisions_unique w ops ops' :
  decisions w 0 ops -> decisions w 0 ops' -> length ops = length ops' -> ops = ops'.
Proof.
  intros Hd Hd' Hlen. apply list_eq_same_length with (length ops); auto.
  intros i x y _ Hx Hy. apply Hd in Hx. apply Hd' in Hy. congruence.
Qed.

Lemma synced_same_slot w s s' :
  synced w s -> synced w s' -> currSlotNum s = currSlotNum s' -> s = s'.
Proof.
  intros (ops & -> & Hd) (ops' & -> & Hd'). rewrite !replay_slot. cbn. intros Hslot.
  f_equal. eapply decisions_unique; eauto. lia.
Qed.

(** The result of an operation executed on the state its log position gives. *)
Definition resultOf (op : PaxosValue) (s : server) : result :=
  (executeOp op op (s <| currSlotNum := currSlotNum s + 1 |>) RNil).2.

(** Operations the RPC handlers issue. *)
Definition client_op (op : PaxosValue) : Prop := 1 <= Type_ op <= 6.

Lemma executeOp_result op s r : client_op op -> (executeOp op op s r).2 = (executeOp op op s RNil).2.
Proof.
  intros Hc. unfold executeOp, client_op in *. rewrite !decide_True by done.
  destruct (_ =? MyReservation) eqn:E1; [done|]. destruct (_ =? CheckTickets) eqn:E2; [done|].
  destruct (_ =? ReserveTicket) eqn:E3; [by destruct (reserveTicketHelper _ _)|].
  destruct (_ =? AddFlight) eqn:E4; [by destruct (addFlightHelper _ _)|].
  destruct (_ =? CancelFlight) eqn:E5; [by destruct (cancelFlightHelper _ _)|].
  destruct (_ =? EditFlight) eqn:E6; [by destruct (editFlightHelper _ _)|].
  breflect. unfold MyReservation, CheckTickets, ReserveTicket, AddFlight, CancelFlight, EditFlight in *. lia.
Qed.

Lemma resultOf_type op s : client_op op ->
  match resultOf op s with
  | RFlights _ => Type_ op = MyReservation \/ Type_ op = CheckTickets
  | RBool _ => Type_ op <> MyReservation /\ Type_ op <> CheckTickets
  | RNil => False
  end.
Proof.
  intros Hc. unfold resultOf, executeOp, client_op in *. rewrite !decide_True by done.
  destruct (_ =? MyReservation) eqn:E1; [breflect; cbn; auto|].
  destruct (_ =? CheckTickets) eqn:E2; [breflect; cbn; auto|].
  destruct (_ =? ReserveTicket) eqn:E3; [destruct (reserveTicketHelper _ _); breflect; cbn; auto|].
  destruct (_ =? AddFlight) eqn:E4; [destruct (addFlightHelper _ _); breflect; cbn; auto|].
  destruct (_ =? CancelFlight) eqn:E5; [destruct (cancelFlightHelper _ _); breflect; cbn; auto|].
  destruct (_ =? EditFlight) eqn:E6; [destruct (editFlightHelper _ _); breflect; cbn; auto|].
  breflect. unfold MyReservation, CheckTickets, ReserveTicket, AddFlight, CancelFlight, EditFlight in *. lia.
Qed.

Lemma catchUp_result me fuel tries op : forall r0 s w s' w' v,
  client_op op -> catchUp me fuel tries op r0 s w = Ret (s', w', inl v) ->
  exists ops, (op ∉ ops) /\ decisions w' (currSlotNum s) (ops ++ [op]) /\
    s' = replay (ops ++ [op]) s /\ v = resultOf op (replay ops s).
Proof.
  induction fuel as [|fuel IH]; intros r0 s w s' w' v Hc; cbn [catchUp]; [done|]. intros H1.
  bind_inv. destruct x as [w1 [u|e]]; cbn in H1; [|by bind_inv].
  destruct (waitDecided_log _ _ _ _ _ _ _ _ eq_refl E) as [Hg Hv]. specialize (Hv u eq_refl). bind_inv.
  rename x into d. subst u.
  match type of H1 with context [executeOp op d ?x r0] =>
    destruct (executeOp op d x r0) as [s1 r1] eqn:Ex end.
  destruct (decide (op = d)) as [<-|Hne].
  - injection H1 as <- <- <-. exists []. split_and!.
    + apply not_elem_of_nil.
    + apply decisions_cons; [done|]. intros i x. by rewrite lookup_nil.
    + cbn. unfold applyOp. rewrite <- (executeOp_state op op _ r0). cbn. by rewrite Ex.
    + unfold resultOf. rewrite <- (executeOp_result op _ r0 Hc). cbn. by rewrite Ex.
  - assert (Hs1 : s1 = applyOp d s).
    { unfold applyOp. rewrite <- (executeOp_state op d _ r0). cbn. by rewrite Ex. }
    pose proof (catchUp_replay _ _ _ _ _ _ _ _ _ _ H1) as [Hg' _].
    apply IH in H1 as (ops & Hn & Hd & -> & ->); [|done]. subst s1. exists (d :: ops). split_and!.
    + rewrite elem_of_cons. tauto.
    + rewrite applyOp_slot in Hd. apply decisions_cons; [by apply Hg'|done].
    + done.
    + done.
Qed.

End replicas.

(** ** Tickets *)

Definition ofFlight (f : flight) (fi : FlightInfo) : Prop := (fi_FlightId fi, fi_Date fi) = f.

#[export] Instance ofFlight_dec f fi : Decision (ofFlight f fi).
Proof. unfold ofFlight. apply _. Defined.

Definition sold (f : flight) (s : server) : Z :=
  map_fold (fun _ l n => Z.of_nat (length (filter (ofFlight f) l)) + n) 0 (reservedFlights s).

(** The operation creates, removes or resizes flight [f]. *)
Definition manages (f : flight) (op : PaxosValue) : Prop :=
  (Type_ op = AddFlight \/ Type_ op = CancelFlight \/ Type_ op = EditFlight) /\
  (FlightId op, StartDate op) = f.

Lemma sold_append f u fi (m : gmap string (list FlightInfo)) :
  let g := fun (_ : string) l n => Z.of_nat (length (filter (ofFlight f) l)) + n in
  map_fold g 0 (<[u := map_get [] m u ++ [fi]]> m) =
  map_fold g 0 m + if decide (ofFlight f fi) then 1 else 0.
Proof.
  intros g.
  assert (Hins : forall l (m : gmap string (list FlightInfo)), m !! u = None ->
    map_fold g 0 (<[u := l]> m) = Z.of_nat (length (filter (ofFlight f) l)) + map_fold g 0 m).
  { intros l m' Hm. unfold g. rewrite map_fold_insert_L; [done| |done]. intros. lia. }
  assert (Hcount : forall l, Z.of_nat (length (filter (ofFlight f) (l ++ [fi]))) =
     Z.of_nat (length (filter (ofFlight f) l)) + if decide (ofFlight f fi) then 1 else 0).
  { intros l. rewrite filter_app, length_app. cbn. destruct (decide _); cbn; lia. }
  destruct (m !! u) as [l|] eqn:E.
  - rewrite (map_get_Some _ _ _ _ E). rewrite <- (insert_delete_id m u l E) at 2.
    rewrite <- (insert_delete_eq m u (l ++ [fi])).
    rewrite !Hins by (by rewrite lookup_delete_eq). rewrite Hcount. lia.
  - unfold map_get. rewrite E. cbn [default]. rewrite Hins by done.
    rewrite (Hcount []). cbn. lia.
Qed.

(** One entry that does not manage [f] conserves its seats. *)
Lemma applyOp_tickets f op s n :
  ~ manages f op -> flightStatus s !! f = Some n ->
  exists n', flightStatus (applyOp op s) !! f = Some n' /\
    n' + sold f (applyOp op s) = n + sold f s /\ (0 <= n -> 0 <= n' <= n).
Proof.
  intros Hm Hf. unfold applyOp, executeOp. set (s0 := s <| currSlotNum := _ |>).
  assert (Hother : forall s1, flightStatus s1 !! f = Some n -> reservedFlights s1 = reservedFlights s ->
    exists n', flightStatus s1 !! f = Some n' /\ n' + sold f s1 = n + sold f s /\ (0 <= n -> 0 <= n' <= n)).
  { intros s1 H1 H2. exists n. unfold sold. rewrite H2. split_and!; auto. lia. }
  assert (Hsame : forall s1, flightStatus s1 = flightStatus s -> reservedFlights s1 = reservedFlights s ->
    exists n', flightStatus s1 !! f = Some n' /\ n' + sold f s1 = n + sold f s /\ (0 <= n -> 0 <= n' <= n)).
  { intros s1 H1 H2. apply Hother; [by rewrite H1|done]. }
  unfold manages in Hm.
  destruct (Type_ op =? MyReservation); [by apply Hsame|].
  destruct (Type_ op =? CheckTickets); [by apply Hsame|].
  destruct (Type_ op =? ReserveTicket) eqn:Er.
  { unfold reserveTicketHelper. cbn.
    destruct (flightStatus s !! (FlightId op, StartDate op)) as [k|] eqn:Ek; [|by apply Hsame].
    destruct (0 <? k) eqn:Epos; [|by apply Hsame]. breflect. cbn. unfold sold. cbn.
    rewrite sold_append, lookup_insert. unfold ofFlight. cbn.
    destruct (decide ((FlightId op, StartDate op) = f)) as [<-|Hne].
    - rewrite Ek in Hf. injection Hf as ->. eexists. split; [done|]. lia.
    - exists n. split_and!; [done|lia|lia]. }
  destruct (Type_ op =? AddFlight) eqn:Ea.
  { breflect. assert (f <> (FlightId op, StartDate op)) by (intros ->; tauto).
    unfold addFlightHelper. cbn. destruct (flightStatus s !! (FlightId op, StartDate op)); [by apply Hsame|].
    apply Hother; [cbn; by rewrite lookup_insert_ne|done]. }
  destruct (Type_ op =? CancelFlight) eqn:Ec.
  { breflect. assert (f <> (FlightId op, StartDate op)) by (intros ->; tauto).
    unfold cancelFlightHelper. cbn. destruct (flightStatus s !! (FlightId op, StartDate op)); [|by apply Hsame].
    apply Hother; [cbn; by rewrite lookup_delete_ne|done]. }
  destruct (Type_ op =? EditFlight) eqn:Ee; [|by apply Hsame].
  breflect. assert (f <> (FlightId op, StartDate op)) by (intros ->; tauto).
  unfold editFlightHelper. cbn. destruct (flightStatus s !! (FlightId op, StartDate op)); [|by apply Hsame].
  apply Hother; [cbn; by rewrite lookup_insert_ne|done].
Qed.

(** ** Dates *)

(** What the query reports for one date. *)
Definition ticketsOn (flightId : string) (date : Time) (s : server) : option FlightInfo :=
  match flightStatus s !! (flightId, date) with
  | Some n => if 0 <? n then Some (mkFlightInfo flightId date n) else None
  | None => None
  end.

Lemma days_past q e : e < q -> days q e = 0%nat.
Proof.
  intros Hlt. unfold days. assert ((e - q) / oneDay < 0) by (apply Z.div_lt_upper_bound; [done|lia]). lia.
Qed.

Lemma days_step q e : q <= e -> days q e = S (days (q + oneDay) e).
Proof.
  intros Hle. unfold days.
  replace (e - q) with ((e - (q + oneDay)) + 1 * oneDay) by lia. rewrite Z.div_add by done.
  assert (-1 <= (e - (q + oneDay)) / oneDay) by (apply Z.div_le_lower_bound; [done|lia]). lia.
Qed.

Lemma checkDates_spec f e s fuel : forall q, (days q e <= fuel)%nat ->
  checkDates fuel f q e s =
    Some (omap (fun k => ticketsOn f (q + Z.of_nat k * oneDay) s) (seq 0 (days q e))).
Proof.
  assert (Hshift : forall n j q, omap (fun k => ticketsOn f (q + Z.of_nat k * oneDay) s) (seq (S j) n) =
    omap (fun k => ticketsOn f (q + oneDay + Z.of_nat k * oneDay) s) (seq j n)).
  { induction n as [|n IHn]; intros j q; [done|]. cbn [seq omap list_omap]. rewrite IHn.
    by replace (q + Z.of_nat (S j) * oneDay) with (q + oneDay + Z.of_nat j * oneDay) by lia. }
  induction fuel as [|fuel IH]; intros q Hd; cbn [checkDates].
  - destruct (e <? q) eqn:E; breflect; [by rewrite days_past|].
    rewrite days_step in Hd by lia. lia.
  - destruct (e <? q) eqn:E; breflect; [by rewrite days_past|].
    rewrite days_step in * by lia. rewrite IH by lia. cbn -[oneDay Z.mul Z.add].
    rewrite Z.mul_0_l, Z.add_0_r, Hshift. unfold ticketsOn.
    destruct (flightStatus s !! (f, q)) as [n|]; [|done]. by destruct (0 <? n).
Qed.

(** ** Paxos as one atomic log *)

(** The abstract service: the decided operations, in slot order.  [Start] on
    the next slot decides the given value. *)
Definition log_status (n : Z) (w : list PaxosValue) : bool * value * option string :=
  match (if n <? 0 then None else w !! Z.to_nat n) with
  | Some op => (true, Some op, None)
  | None => (false, None, None)
  end.

#[export] Program Instance atomic_log : PaxosService (list PaxosValue) := {
  svc_Status me n w := (w, log_status n w);
  svc_Start me n v w :=
    Ret (match v with Some op => if n =? Z.of_nat (length w) then w ++ [op] else w | None => w end, None);
  svc_log w n := if n <? 0 then None else Some <$> w !! Z.to_nat n }.
Next Obligation.
  intros me n w w' v. unfold log_status. destruct (n <? 0); [done|].
  destruct (w !! Z.to_nat n) eqn:E; [|done]. intros [= <- <-]. by rewrite E.
Qed.
Next Obligation. done. Qed.
Next Obligation.
  intros me n v w w' e m u. cbn. intros [= <- _]. destruct (m <? 0); [done|].
  destruct v as [op|]; [|done]. destruct (n =? _); [|done].
  intros Hm. destruct (w !! Z.to_nat m) as [x|] eqn:E; [|done].
  by rewrite (lookup_app_l_Some _ _ _ _ E).
Qed.

Lemma waitDecided_no_panic {W : Type} `{PaxosService W} me tries slot op :
  (forall i n v w, svc_Start i n v w <> Panic) -> forall st, waitDecided me tries slot op st <> Panic.
Proof.
  intros Hstart. induction tries as [|tries IH]; intros [w [[[] v] [e|]]]; cbn [waitDecided]; try done.
  destruct (svc_Start me slot (Some op) w) as [[w2 [e|]]| |] eqn:E; cbn; try done. by apply Hstart in E.
Qed.

Lemma catchUp_no_panic {W : Type} `{PaxosService W} me tries op fuel :
  (forall w n, svc_log w n <> Some None) -> (forall i n v w, svc_Start i n v w <> Panic) ->
  forall r0 s w, catchUp me fuel tries op r0 s w <> Panic.
Proof.
  intros Hnil Hstart. induction fuel as [|fuel IH]; intros r0 s w; cbn [catchUp]; [done|].
  destruct (waitDecided _ _ _ _ _) as [[w1 [v|e]]| |] eqn:E; cbn; try done.
  - destruct (waitDecided_log _ _ _ _ _ _ _ _ eq_refl E) as [_ Hv]. specialize (Hv v eq_refl).
    destruct v as [d|]; [|by apply Hnil in Hv]. cbn.
    destruct (executeOp _ _ _ _) as [s1 r1]. by destruct (decide (op = d)).
  - by apply waitDecided_no_panic in E.
Qed.

(** ** Properties *)

Definition june1 : Time := 16222 * oneDay.
Definition demo_add (now n : Z) : PaxosValue := mkPaxosValue AddFlight now "" "CA1" june1 june1 n.
Definition demo_reserve (now : Z) (u : string) : PaxosValue :=
  mkPaxosValue ReserveTicket now u "CA1" june1 june1 0.

(** One call on the atomic log. *)
Definition demo_call (op : PaxosValue) (s : server) (w : list PaxosValue)
  : outcome (server * list PaxosValue * (result + string)) :=
  addPaxosLogAndUpdateState 0 10 2 op s w.
Definition demo_next (op : PaxosValue) (c : server * list PaxosValue) : server * list PaxosValue :=
  match demo_call op c.1 c.2 with Ret (s, w, _) => (s, w) | _ => c end.

(** Replicas agree.  Servers that start empty and serve any requests in
    any order, over a Paxos service whose reported decisions are agreed and
    permanent, are equal whenever they have reached the same slot: the state is
    a function of the log's prefix. *)
Lemma replicas_agree {W : Type} `{PaxosService W} n (w0 w : W) ss i j si sj :
  rtc rstep (replicate n NewServer, w0) (ss, w) ->
  ss !! i = Some si -> ss !! j = Some sj -> currSlotNum si = currSlotNum sj -> si = sj.
Proof.
  intros Hr Hi Hj Hslot.
  assert (Hall : Forall (synced w) ss).
  { change (Forall (synced (ss, w).2) (ss, w).1).
    eapply (rtc_invariant rstep (fun c => Forall (synced c.2) c.1)); [|shelve|exact Hr].
    intros x y. apply rstep_synced.
    Unshelve. cbn. apply Forall_replicate. exists []. split; [done|]. intros k op. by rewrite lookup_nil. }
  rewrite Forall_lookup in Hall.
  eapply synced_same_slot; eauto.
Qed.

Lemma replicas_agree_demo :
  exists s0 s1, rtc rstep (replicate 2 NewServer, []) ([s0; s1], [demo_add 1 2]) /\ s0 = s1.
Proof.
  set (s0 := (demo_next (demo_add 1 2) (NewServer, [])).1).
  set (s1 := (demo_next (demo_add 1 2) (NewServer, [demo_add 1 2])).1).
  assert (Hr : rtc rstep (replicate 2 NewServer, []) ([s0; s1], [demo_add 1 2])).
  { eapply rtc_l; [apply (rcall 0 NewServer (demo_add 1 2) 10 2 s0 [demo_add 1 2] (inl (RBool true)));
      [reflexivity|vm_compute; reflexivity]|].
    eapply rtc_l; [|apply rtc_refl].
    apply (rcall 1 NewServer (demo_add 1 2) 10 2 s1 [demo_add 1 2] (inl (RBool true)) [s0; NewServer]);
      [reflexivity|vm_compute; reflexivity]. }
  exists s0, s1. split; [exact Hr|].
  exact (replicas_agree 2 [] [demo_add 1 2] [s0; s1] 0 1 s0 s1 Hr eq_refl eq_refl eq_refl).
Defined.

(** A call returns what its operation does at its place in the log.  When
    [addPaxosLogAndUpdateState] returns a result for one of the six client
    operations, the decisions from the server's slot on are some other
    operations followed by this one; the new state is the old one with all of
    them executed, and the result is that of this operation executed after
    the others, of the dynamic type its RPC handler asserts. *)
Lemma call_returns_log_result {W : Type} `{PaxosService W} me fuel tries op s (w : W) s' w' v :
  client_op op -> addPaxosLogAndUpdateState me fuel tries op s w = Ret (s', w', inl v) ->
  exists ops, (op ∉ ops) /\ decisions w' (currSlotNum s) (ops ++ [op]) /\
    s' = replay (ops ++ [op]) s /\ v = resultOf op (replay ops s) /\
    match v with
    | RFlights _ => Type_ op = MyReservation \/ Type_ op = CheckTickets
    | RBool _ => Type_ op <> MyReservation /\ Type_ op <> CheckTickets
    | RNil => False
    end.
Proof.
  intros Hc Hr. destruct (catchUp_result _ _ _ _ _ _ _ _ _ _ Hc Hr) as (ops & Hn & Hd & Hs & Hv).
  exists ops. split_and!; auto. rewrite Hv. by apply resultOf_type.
Qed.

Lemma call_returns_log_result_demo :
  exists ops, decisions [demo_add 1 2; demo_reserve 2 "ann"] 0 (ops ++ [demo_reserve 2 "ann"]) /\
    RBool true = resultOf (demo_reserve 2 "ann") (replay ops NewServer).
Proof.
  set (s' := (demo_next (demo_reserve 2 "ann") (NewServer, [demo_add 1 2])).1).
  destruct (call_returns_log_result 0 10 2 (demo_reserve 2 "ann") NewServer [demo_add 1 2] s'
    [demo_add 1 2; demo_reserve 2 "ann"] (RBool true)) as (ops & _ & Hd & _ & Hv & _).
  - split; discriminate.
  - vm_compute. reflexivity.
  - exists ops. split; [exact Hd|exact Hv].
Defined.

(** C23: no overbooking between two changes of a flight by the airline.  While
    the log holds no AddFlight, CancelFlight or EditFlight of a flight, the
    remaining tickets plus the reservations recorded for it stay constant, and
    the remaining tickets, if not negative, stay so and never grow. *)
Theorem tickets_conserved f ops s n :
  Forall (fun op => ~ manages f op) ops -> flightStatus s !! f = Some n ->
  exists n', flightStatus (replay ops s) !! f = Some n' /\
    n' + sold f (replay ops s) = n + sold f s /\ (0 <= n -> 0 <= n' <= n).
Proof.
  intros Hops. revert s n. induction Hops as [|op ops Hop _ IH]; intros s n Hf.
  - exists n. split_and!; [done|done|]. lia.
  - destruct (applyOp_tickets f op s n Hop Hf) as (n1 & Hf1 & Hsum & Hpos).
    destruct (IH _ _ Hf1) as (n2 & Hf2 & Hsum2 & Hpos2). exists n2. cbn. unfold replay in *.
    split_and!; [done|lia|lia].
Qed.

Definition demo_server : server := replay [demo_add 1 2] NewServer.

Lemma tickets_conserved_witness :
  exists n', flightStatus (replay [demo_reserve 2 "ann"; demo_reserve 3 "bob"; demo_reserve 4 "cy"] demo_server)
      !! ("CA1", june1) = Some n' /\ 0 <= n' <= 2.
Proof.
  destruct (tickets_conserved ("CA1", june1) [demo_reserve 2 "ann"; demo_reserve 3 "bob"; demo_reserve 4 "cy"]
    demo_server 2) as (n' & E & _ & H).
  - repeat constructor; intros [[H|[H|H]] _]; discriminate H.
  - vm_compute. reflexivity.
  - exists n'. split; [exact E|apply H; discriminate].
Defined.

(** [checkTicketsHelper] terminates and answers exactly.  The loop over dates
    ends within the number of days of the range, and lists, in order of date,
    each date that is a whole number of days after the start and not after the
    end on which the flight exists with tickets left, with their number. *)
Lemma check_tickets_exact op s :
  let start := StartDate op in
  checkDates (days start (EndDate op)) (FlightId op) start (EndDate op) s =
    Some (checkTicketsHelper op s) /\
  checkTicketsHelper op s =
    omap (fun k => ticketsOn (FlightId op) (start + Z.of_nat k * oneDay) s) (seq 0 (days start (EndDate op))) /\
  forall fi, fi ∈ checkTicketsHelper op s <->
    exists k, 0 <= k /\ start + k * oneDay <= EndDate op /\
      fi_FlightId fi = FlightId op /\ fi_Date fi = start + k * oneDay /\ 0 < fi_TicketNum fi /\
      flightStatus s !! (FlightId op, fi_Date fi) = Some (fi_TicketNum fi).
Proof.
  cbn zeta. set (q := StartDate op). set (e := EndDate op).
  assert (Hex : checkTicketsHelper op s =
    omap (fun k => ticketsOn (FlightId op) (q + Z.of_nat k * oneDay) s) (seq 0 (days q e))).
  { unfold checkTicketsHelper. fold q e. by rewrite checkDates_spec. }
  split_and!; [rewrite Hex; by apply checkDates_spec|done|].
  assert (Hdays : forall k, (k < days q e)%nat <-> q + Z.of_nat k * oneDay <= e).
  { intros k. unfold days. assert (0 < oneDay) by done. split; intros Hk.
    - assert (Z.of_nat k <= (e - q) / oneDay) by lia.
      pose proof (Z.mul_div_le (e - q) oneDay ltac:(lia)). nia.
    - assert (Z.of_nat k <= (e - q) / oneDay) by (apply Z.div_le_lower_bound; lia). lia. }
  intros fi. rewrite Hex, list_elem_of_omap. split.
  - intros (k & Hk & Ht). apply elem_of_seq in Hk. exists (Z.of_nat k). unfold ticketsOn in Ht.
    destruct (flightStatus s !! _) as [n|] eqn:E; [|done]. destruct (0 <? n) eqn:En; [|done].
    injection Ht as <-. breflect. cbn. split_and!; auto; [lia|]. apply Hdays. lia.
  - intros (k & Hk & Hle & Hf & Hdt & Hpos & Hst). exists (Z.to_nat k).
    assert (Hk' : Z.of_nat (Z.to_nat k) = k) by lia. split.
    + apply elem_of_seq. split; [lia|]. cbn. apply Hdays. by rewrite Hk'.
    + rewrite Hk', <- Hdt. unfold ticketsOn. rewrite Hst.
      rewrite (proj2 (Z.ltb_lt _ _) Hpos). rewrite <- Hf. by destruct fi.
Qed.

(** The type assertions of the RPC handlers never fail.  Over a Paxos
    service that never decides a nil value and whose [Start] does not panic,
    no handler panics, whatever the log holds. *)
Lemma rpc_handlers_never_panic {W : Type} `{PaxosService W} me fuel tries now s (w : W) :
  (forall w n, svc_log w n <> Some None) -> (forall i n v w, svc_Start i n v w <> Panic) ->
  (forall args, rpc_MyReservation me fuel tries now args s w <> Panic) /\
  (forall args, rpc_CheckTickets me fuel tries now args s w <> Panic) /\
  (forall args, rpc_ReserveTicket me fuel tries now args s w <> Panic) /\
  (forall args, rpc_AddFlight me fuel tries now args s w <> Panic) /\
  (forall args, rpc_CancelFlight me fuel tries now args s w <> Panic) /\
  (forall args, rpc_EditFlight me fuel tries now args s w <> Panic).
Proof.
  intros Hnil Hstart.
  assert (Hadd : forall op, addPaxosLogAndUpdateState me fuel tries op s w <> Panic)
    by (intros op; by apply catchUp_no_panic).
  split_and!; intros args E; unfold rpc_MyReservation, rpc_CheckTickets, rpc_ReserveTicket,
    rpc_AddFlight, rpc_CancelFlight, rpc_EditFlight in E;
    match type of E with context [addPaxosLogAndUpdateState _ _ _ ?o _ _] => set (op := o) in * end;
    assert (Hc : client_op op) by (split; vm_compute; discriminate);
    destruct (addPaxosLogAndUpdateState _ _ _ op _ _) as [[[s' w'] [v|e]]| |] eqn:Er; cbn in E; try done;
    try (by apply Hadd in Er);
    (destruct (catchUp_result _ _ _ _ _ _ _ _ _ _ Hc Er) as (ops & _ & _ & _ & ->);
     pose proof (resultOf_type op (replay ops s) Hc) as Ht;
     destruct (resultOf op _); cbn in *; try done;
     first [destruct Ht as [Ht|Ht]; discriminate Ht
           |destruct Ht as [Ht1 Ht2]; first [by apply Ht1|by apply Ht2]]).
Qed.

Lemma atomic_log_never_nil (w : list PaxosValue) n : svc_log w n <> Some None.
Proof. cbn. destruct (n <? 0); [discriminate|]. destruct (w !! Z.to_nat n); discriminate. Qed.

Lemma rpc_handlers_never_panic_witness :
  rpc_ReserveTicket 0 10 2 5 (mkReserveTicketArgs "ann" "CA1" june1) NewServer [demo_add 1 2] <> Panic.
Proof.
  apply (rpc_handlers_never_panic 0 10 2 5 NewServer [demo_add 1 2] atomic_log_never_nil).
  intros i n v w. discriminate.
Defined.

(** Two requests can share one log entry.  An entry is recognised by
    comparing the operations, and the only field that tells two requests for
    the same seat of the same user apart is the clock: when two servers read
    the same time, the second server finds its operation already decided and
    both report success, with one ticket taken and one reservation made. *)
Lemma equal_operations_merge :
  exists s1 s2 w1 w2, demo_call (demo_reserve 2 "ann") demo_server [demo_add 1 2] = Ret (s1, w1, inl (RBool true)) /\
    demo_call (demo_reserve 2 "ann") demo_server w1 = Ret (s2, w2, inl (RBool true)) /\ w2 = w1 /\
    flightStatus s2 !! ("CA1", june1) = Some 1 /\ sold ("CA1", june1) s2 = 1.
Proof.
  do 4 eexists. split; [vm_compute; reflexivity|]. split; [vm_compute; reflexivity|].
  split; [reflexivity|]. split; vm_compute; reflexivity.
Qed.

(** A cancelled reservation comes back.  CancelFlight leaves the
    reservations of the flight in the users' accounts; when the flight is
    added again with one ticket, the old reservation is listed again although
    the new flight's ticket is sold to somebody else. *)
Lemma cancelled_reservation_returns :
  let s := replay [demo_add 1 1; demo_reserve 2 "ann";
                   mkPaxosValue CancelFlight 3 "" "CA1" june1 june1 0;
                   demo_add 4 1; demo_reserve 5 "bob"] NewServer in
  let mine u := myReservationHelper (mkPaxosValue MyReservation 6 u "" 0 0 0) s in
  mine "ann" = [mkFlightInfo "CA1" june1 0] /\ mine "bob" = [mkFlightInfo "CA1" june1 0] /\
  sold ("CA1", june1) s = 2.
Proof. split; [|split]; vm_compute; reflexivity. Qed.

End FlightServer.
