(* ===== verification/PaxosReplicas.v ===== *)
(** * PaxosReplicas: the airline servers over the Paxos peers

    [FlightServer] is proved against the interface [PaxosService]; here the
    interface is implemented by the transition system of [PaxosSafety].  Server
    [i] is bound to peer [i].  Its [Status] is that of the peer, its [Start]
    the loop of [startHelper]: a fresh attempt per turn, and while the server
    waits for its attempt, the messages of all attempts are handled in the
    order a schedule gives.  The schedule is arbitrary but for one thing: an
    Accept that would overwrite a decision ([overwrites], the stale Accept of
    [paxos_stale_accept_overwrites_decision]) is lost.  On these runs a
    decided slot holds the chosen value, which is what the servers rely on.  The
    calls of the servers follow one another here; [FlightConcurrent] lets them
    overlap. *)
From S2P Require Import Prelude PaxosRpc Paxos PaxosSafety FlightServer.
Open Scope Z_scope.

Module PaxosReplicas.
Import Paxos PaxosSafety.

(** ** Runs without a stale Accept *)

(** The event delivers an Accept to a peer that has decided the slot, that
    takes it, and whose value it changes. *)
Definition overwrites (e : event) (S : sys) : bool :=
  match e with
  | AcceptAt _ _ RequestLost => false
  | AcceptAt k i _ =>
      match attempts S !! k, pxs S !! i with
      | Some a, Some p =>
          let t := slotOf p (a_slot a) in
          isDecided t && (seqNumHighest t <=? a_seq a) &&
            bool_decide (proposeValue (coll a) <> slotValue t)
      | _, _ => false
      end
  | _ => false
  end.

(** Every decided slot holds the chosen value. *)
Definition faithful (S : sys) : Prop :=
  forall i p s, pxs S !! i = Some p -> isDecided (slotOf p s) = true ->
    is_chosen S s (slotValue (slotOf p s)).

(** What one event does to a peer: decided slots stay decided, and a decided
    slot has kept its value or holds the chosen one. *)
Definition moves (S : sys) (p p' : px) : Prop := forall s,
  (isDecided (slotOf p s) = true -> isDecided (slotOf p' s) = true) /\
  (isDecided (slotOf p' s) = true ->
     isDecided (slotOf p s) = true /\ slotValue (slotOf p' s) = slotValue (slotOf p s) \/
     is_chosen S s (slotValue (slotOf p' s))).

Lemma moves_same S p p' : (forall s, slotOf p' s = slotOf p s) -> moves S p p'.
Proof. intros H s. rewrite H. auto. Qed.

Lemma moves_refl S ps : Forall2 (moves S) ps ps.
Proof. apply Forall_Forall2_diag, Forall_true. intros p. by apply moves_same. Qed.

Lemma moves_updates S s f p p' :
  updates s f p p' -> let t := slotOf p s in
  (isDecided t = true -> isDecided (f t) = true) ->
  (isDecided (f t) = true ->
     isDecided t = true /\ slotValue (f t) = slotValue t \/ is_chosen S s (slotValue (f t))) ->
  moves S p p'.
Proof. intros Hu t H1 H2 s'. rewrite (Hu s'). case_decide; [by subst|auto]. Qed.

Lemma moves_set S i p p' :
  pxs S !! i = Some p -> moves S p p' -> Forall2 (moves S) (pxs S) (<[i := p']> (pxs S)).
Proof.
  intros Hp Hm. rewrite <- (list_insert_id (pxs S) i p Hp) at 1.
  apply Forall2_insert; [apply moves_refl|done].
Qed.

Lemma exec_moves e S S' :
  inv S -> overwrites e S = false -> exec e S = Some S' ->
  Forall2 (moves S) (pxs S) (pxs S') /\ (forall x, x ∈ votes S -> x ∈ votes S').
Proof.
  intros Hinv Hno. destruct e as [me slot seq v|k i f|k i|k i f|k i|k i f]; cbn [exec].
  - unfold do_start. case_decide; [|done]. intros [= <-]. split; [apply moves_refl|done].
  - unfold do_prepare. destruct (attempts S !! k) as [a|] eqn:Ha; [|done]. cbn.
    destruct (pxs S !! i) as [p|] eqn:Hp; [|done]. cbn. case_decide; [|done].
    pose proof (Prepare_spec (mkPrepareArgs (a_slot a) (a_seq a) (Z.of_nat (a_me a)) (-1)) p) as Hs.
    destruct (Prepare _ p) as [p' r]. cbn in Hs. destruct Hs as (_ & _ & Hs).
    assert (Hm : moves S p p').
    { destruct (_ <? a_seq a); destruct Hs as [Hu _]; apply (moves_updates _ _ _ _ _ Hu); cbn; auto. }
    destruct f; intros [= <-]; try (split; [apply moves_refl|done]);
      destruct (pr_Status r =? OK); (split; [by apply (moves_set S i p)|done]).
  - unfold do_prepare_reply. destruct (attempts S !! k) as [a|]; [|done]. cbn.
    destruct (prepCh a !! i); [|done]. cbn. case_decide; [|done].
    intros [= <-]. split; [apply moves_refl|done].
  - unfold do_accept. cbn -[bool_decide] in Hno. destruct (attempts S !! k) as [a|] eqn:Ha; [|done]. cbn.
    destruct (pxs S !! i) as [p|] eqn:Hp; [|done]. cbn -[bool_decide] in *. destruct (decide (i ∈ accTo a)); [|done].
    pose proof (Accept_spec (mkAcceptArgs (a_slot a) (a_seq a) (proposeValue (coll a))) p) as Hs.
    destruct (Accept _ p) as [p' r]. cbn in Hs. destruct Hs as (_ & _ & Hs).
    assert (Hm : f <> RequestLost -> moves S p p').
    { intros Hf. assert (Hno' : isDecided (slotOf p (a_slot a)) = true ->
        (seqNumHighest (slotOf p (a_slot a)) <=? a_seq a) = true ->
        proposeValue (coll a) = slotValue (slotOf p (a_slot a))).
      { intros E1 E2. rewrite E1, E2 in Hno. destruct f; try done; cbn in Hno; breflect;
          by destruct (decide (proposeValue (coll a) = slotValue (slotOf p (a_slot a)))). }
      destruct (_ <=? a_seq a); destruct Hs as [Hu _]; apply (moves_updates _ _ _ _ _ Hu); cbn; auto. }
    destruct f; intros [= <-]; try (split; [apply moves_refl|done]);
      destruct (ar_Status r =? OK); (split; [apply (moves_set S i p); auto|]); cbn; try done;
      intros x Hx; by right.
  - unfold do_accept_reply. destruct (attempts S !! k) as [a|]; [|done]. cbn.
    destruct (accCh a !! i); [|done]. cbn. case_decide; [|done].
    intros [= <-]. split; [apply moves_refl|done].
  - unfold do_decide. destruct (attempts S !! k) as [a|] eqn:Ha; [|done]. cbn.
    destruct (pxs S !! i) as [p|] eqn:Hp; [|done]. cbn. case_decide as Hi; [|done].
    pose proof (in_attempt S Hinv k a Ha) as Hok.
    assert (Hc : chosen S (a_slot a) (a_seq a) (proposeValue (coll a))).
    { apply (at_chosen _ _ _ Hok), (at_decTo _ _ _ Hok). set_solver. }
    pose proof (Decide_spec (mkDecideArgs (a_slot a) (proposeValue (coll a))) p) as Hs.
    destruct (Decide _ p) as [p' r]. cbn in Hs. destruct Hs as (_ & _ & Hu & _).
    assert (Hm : moves S p p').
    { apply (moves_updates _ _ _ _ _ Hu); cbn; [done|]. intros _. right. by eexists. }
    destruct f; intros [= <-]; (split; [first [apply moves_refl|by apply (moves_set S i p)]|done]).
Qed.

(** [S'] has the decided slots and the votes of [S]. *)
Record later (S S' : sys) : Prop := {
  la_peers : Forall2 (fun p p' => forall s, isDecided (slotOf p s) = true ->
    isDecided (slotOf p' s) = true) (pxs S) (pxs S');
  la_votes : forall x, x ∈ votes S -> x ∈ votes S' }.

#[export] Instance later_preorder : PreOrder later.
Proof.
  split.
  - intros S. split; [|done]. by apply Forall_Forall2_diag, Forall_true.
  - intros S1 S2 S3 [H1 V1] [H2 V2]. split; [|auto].
    apply Forall2_same_length_lookup. apply Forall2_same_length_lookup in H1 as [L1 H1], H2 as [L2 H2].
    split; [congruence|]. intros i p p3 Hp Hp3.
    destruct (lookup_lt_is_Some_2 (pxs S2) i) as [p2 Hp2]; [rewrite <- L1; by eapply lookup_lt_Some|].
    eauto.
Qed.

Lemma later_chosen S S' s v : later S S' -> is_chosen S s v -> is_chosen S' s v.
Proof.
  intros [Hp Hv] (n & Q & Hq & Hvs). exists n, Q. split.
  - unfold quorum in *. by rewrite <- (Forall2_length _ _ _ Hp).
  - intros i Hi. by apply Hv, Hvs.
Qed.

Lemma later_peer S S' i p :
  later S S' -> pxs S !! i = Some p -> exists p', pxs S' !! i = Some p' /\
    forall s, isDecided (slotOf p s) = true -> isDecided (slotOf p' s) = true.
Proof.
  intros [Hp _] Hi. destruct (Forall2_lookup_l _ _ _ _ _ Hp Hi) as (p' & ? & ?). eauto.
Qed.

Lemma exec_faithful e S S' :
  inv S -> faithful S -> overwrites e S = false -> exec e S = Some S' -> faithful S' /\ later S S'.
Proof.
  intros Hinv Hf Hno He. destruct (exec_moves e S S' Hinv Hno He) as [Hm Hv].
  assert (Hl : later S S').
  { split; [|done]. eapply Forall2_impl; [exact Hm|]. intros p p' H s. apply (H s). }
  split; [|done]. intros i p' s Hp' Hd. destruct (Forall2_lookup_r _ _ _ _ _ Hm Hp') as (p & Hp & H).
  apply (later_chosen S S'); [done|].
  destruct (proj2 (H s) Hd) as [[Hd0 ->]|?]; [by apply (Hf i)|done].
Qed.

(** What the servers rely on: the invariants of the protocol, faithful
    decisions, and that servers propose operations, never nil. *)
Record sound (S : sys) : Prop := {
  so_inv : inv S; so_origin : origin S; so_faithful : faithful S;
  so_ops : Forall (fun a => is_Some (a_val a)) (attempts S) }.

Lemma sound_initial S : initial S -> sound S.
Proof.
  intros Hi. pose proof Hi as (Hs & Ha & _ & _). split; [by apply inv_initial|by apply origin_initial| |by rewrite Ha].
  intros i p s Hp. rewrite Forall_forall in Hs. rewrite (Hs p) by (by eapply list_elem_of_lookup_2). done.
Qed.

(** The events a run consists of. *)
Definition admissible (e : event) (S : sys) : bool :=
  negb (overwrites e S) && match e with Start _ _ _ None => false | _ => true end.

Ltac goes_on k a :=
  exists k, a; eexists; split; [eassumption|]; refine (conj _ (conj _ eq_refl));
  first [done | by destruct (majority _ _); [|case_decide]].

(** What an event does to the attempts: one more, or one of them goes on. *)
Lemma exec_attempts e S S' :
  exec e S = Some S' ->
  (exists a, attempts S' = attempts S ++ [a] /\ exists me seq, e = Start me (a_slot a) seq (a_val a)) \/
  (exists k a a', attempts S !! k = Some a /\ a_slot a' = a_slot a /\ a_val a' = a_val a /\
     attempts S' = <[k := a']> (attempts S)) /\ forall me slot seq v, e <> Start me slot seq v.
Proof.
  intros He. destruct e as [me slot seq v|k i f|k i|k i f|k i|k i f]; cbn [exec] in He;
    [unfold do_start in He|unfold do_prepare in He|unfold do_prepare_reply in He
    |unfold do_accept in He|unfold do_accept_reply in He|unfold do_decide in He].
  { case_decide; [|done]. injection He as <-. left. eexists. split; [done|]. by exists me, seq. }
  all: right; (split; [|done]); destruct (attempts S !! k) as [a|] eqn:Ha; [|done]; cbn in He.
  - destruct (pxs S !! i); [|done]. cbn in He. case_decide; [|done]. destruct (Prepare _ _) as [? r].
    destruct f; injection He as <-; try destruct (pr_Status r =? OK); goes_on k a.
  - destruct (prepCh a !! i); [|done]. cbn in He. case_decide; [|done]. injection He as <-.
    goes_on k a.
  - destruct (pxs S !! i); [|done]. cbn in He. case_decide; [|done]. destruct (Accept _ _) as [? r].
    destruct f; injection He as <-; try destruct (ar_Status r =? OK); goes_on k a.
  - destruct (accCh a !! i); [|done]. cbn in He. case_decide; [|done]. injection He as <-.
    goes_on k a.
  - destruct (pxs S !! i); [|done]. cbn in He. case_decide; [|done].
    destruct f; injection He as <-; goes_on k a.
Qed.

Lemma exec_ops e S S' :
  admissible e S = true -> exec e S = Some S' ->
  Forall (fun a => is_Some (a_val a)) (attempts S) -> Forall (fun a => is_Some (a_val a)) (attempts S').
Proof.
  intros Had He Hall. destruct (exec_attempts e S S' He) as [(a & -> & me & seq & ->)|[(k & a & a' & Ha & _ & Hv & ->) _]].
  - apply Forall_app. split; [done|]. constructor; [|done]. cbn in Had. destruct (a_val a); [by eexists|breflect; done].
  - apply Forall_insert; [done|]. rewrite Hv. rewrite Forall_forall in Hall. apply Hall. by eapply list_elem_of_lookup_2.
Qed.

(** What has been proposed for a slot, after an event. *)
Lemma exec_proposable e S S' s v :
  exec e S = Some S' ->
  proposable S' s v <-> proposable S s v \/ exists me seq, e = Start me s seq v.
Proof.
  intros He. unfold proposable.
  destruct (exec_attempts e S S' He) as [(a & -> & me & seq & ->)|[(k & a & a' & Ha & Hs & Hv & ->) Hne]].
  - split.
    + intros (k & b & [Hb|[_ Hb]]%lookup_app_Some & <- & <-); [left; by exists k, b|].
      apply list_lookup_singleton_Some in Hb as [_ <-]. right. by exists me, seq.
    + intros [(k & b & Hb & <- & <-)|(me' & seq' & [= _ <- _ <-])].
      * exists k, b. by rewrite (lookup_app_l_Some _ _ _ _ Hb).
      * exists (length (attempts S)), a. by rewrite list_lookup_middle.
  - split.
    + intros (k' & b & [(<- & <- & _)|[_ Hb]]%list_lookup_insert_Some & <- & <-); left; [by exists k, a|by exists k', b].
    + intros [(k' & b & Hb & <- & <-)|(me' & seq' & ->)]; [|by destruct (Hne me' s seq' v)].
      destruct (decide (k = k')) as [<-|Hk].
      * exists k, a'. rewrite list_lookup_insert_eq by (by eapply lookup_lt_Some). split; [done|]. by simplify_eq.
      * exists k', b. by rewrite list_lookup_insert_ne.
Qed.

Lemma turn_sound e S S' :
  sound S -> admissible e S = true -> exec e S = Some S' -> sound S' /\ later S S'.
Proof.
  intros [H1 H2 H3 H4] Had He. pose proof Had as Had'. unfold admissible in Had'. breflect.
  destruct (exec_faithful e S S' H1 H3 ltac:(assumption) He).
  split; [|done]. split; [by eapply inv_exec|by eapply origin_exec|done|by eapply exec_ops].
Qed.

(** A peer reads its slot, which creates the slot and its lock. *)
Lemma touch_sound S i p p' :
  sound S -> pxs S !! i = Some p -> (forall s, slotOf p' s = slotOf p s) ->
  sound (set_peer i p' S) /\ later S (set_peer i p' S).
Proof.
  intros [H1 H2 H3 H4] Hp Hs.
  assert (Hl : later S (set_peer i p' S)).
  { split; [|done]. rewrite <- (list_insert_id (pxs S) i p Hp) at 1. apply Forall2_insert.
    - by apply Forall_Forall2_diag, Forall_true.
    - intros s. by rewrite Hs. }
  assert (Hback : forall j q, pxs (set_peer i p' S) !! j = Some q ->
    exists q0, pxs S !! j = Some q0 /\ forall s, slotOf q s = slotOf q0 s).
  { intros j q. cbn. intros [(<- & <- & _)|[_ H]]%list_lookup_insert_Some; eauto. }
  split; [|done]. split; [|split|..].
  - exact (proj2 (inv_peer_noop S i p p' H1 Hp Hs)).
  - intros j q s Hq. destruct (Hback j q Hq) as (q0 & Hq0 & ->). by apply (or_slot S H2 j q0).
  - exact (or_reply S H2).
  - exact (or_value S H2).
  - intros j q s Hq. destruct (Hback j q Hq) as (q0 & Hq0 & ->). intros Hd.
    apply (later_chosen S); [done|]. by apply (H3 j q0).
  - done.
Qed.

(** ** The decisions on record *)

(** The value of the first peer that has decided the slot. *)
Definition decisionOf (S : sys) (s : Z) : option value :=
  slotValue ∘ (fun p => slotOf p s) <$> head (filter (fun p => isDecided (slotOf p s) = true) (pxs S)).

Lemma decisionOf_Some S s v :
  decisionOf S s = Some v ->
  exists i p, pxs S !! i = Some p /\ isDecided (slotOf p s) = true /\ slotValue (slotOf p s) = v.
Proof.
  unfold decisionOf. destruct (filter _ _) as [|p l] eqn:E; [done|]. intros [= <-].
  assert (Hin : p ∈ filter (fun p => isDecided (slotOf p s) = true) (pxs S)) by (rewrite E; by left).
  apply list_elem_of_filter in Hin as [Hd [i Hi]%list_elem_of_lookup_1]. eauto.
Qed.

Lemma decisionOf_decided S i p s :
  sound S -> pxs S !! i = Some p -> isDecided (slotOf p s) = true ->
  decisionOf S s = Some (slotValue (slotOf p s)).
Proof.
  intros Hs Hp Hd. destruct (decisionOf S s) as [v|] eqn:E.
  - destruct (decisionOf_Some S s v E) as (j & q & Hq & Hdq & <-).
    destruct (so_faithful S Hs i p s Hp Hd) as [n Hn], (so_faithful S Hs j q s Hq Hdq) as [n' Hn'].
    f_equal. by eapply (chosen_unique S (so_inv S Hs)).
  - exfalso. unfold decisionOf in E. destruct (filter _ _) as [|q l] eqn:Ef; [|done].
    assert (Hin : p ∈ filter (fun p => isDecided (slotOf p s) = true) (pxs S)).
    { apply list_elem_of_filter. split; [done|by eapply list_elem_of_lookup_2]. }
    rewrite Ef in Hin. by apply not_elem_of_nil in Hin.
Qed.

Lemma decisionOf_chosen S s v : sound S -> decisionOf S s = Some v -> is_chosen S s v.
Proof.
  intros Hs E. destruct (decisionOf_Some S s v E) as (i & p & Hp & Hd & <-). by apply (so_faithful S Hs i).
Qed.

Lemma decisionOf_later S S' s v :
  sound S -> sound S' -> later S S' -> decisionOf S s = Some v -> decisionOf S' s = Some v.
Proof.
  intros Hs Hs' Hl E. pose proof (decisionOf_chosen S s v Hs E) as Hc.
  destruct (decisionOf_Some S s v E) as (i & p & Hp & Hd & _).
  destruct (later_peer S S' i p Hl Hp) as (p' & Hp' & Hm).
  rewrite (decisionOf_decided S' i p' s Hs' Hp' (Hm s Hd)). f_equal.
  destruct (later_chosen S S' s v Hl Hc) as [n Hn].
  destruct (so_faithful S' Hs' i p' s Hp' (Hm s Hd)) as [n' Hn'].
  by eapply (chosen_unique S' (so_inv S' Hs')).
Qed.

Lemma decisionOf_op S s v : sound S -> decisionOf S s = Some v -> is_Some v /\ proposable S s v.
Proof.
  intros Hs E. destruct (decisionOf_Some S s v E) as (i & p & Hp & Hd & <-).
  assert (Hpr : proposable S s (slotValue (slotOf p s))) by (apply (or_slot S (so_origin S Hs) i); auto).
  split; [|done]. destruct Hpr as (k & a & Ha & _ & <-).
  pose proof (so_ops S Hs) as Hall. rewrite Forall_forall in Hall. apply Hall.
  by eapply list_elem_of_lookup_2.
Qed.

(** ** The peers as the servers call them *)

(** The cluster, the order in which its events happen, the clock, and for how
    many turns a caller waits before the model gives up ([Hang]). *)
Record world := mkWorld {
  w_sys : sys; w_sched : nat -> event; w_clock : nat -> Z; w_time : nat; w_patience : nat }.

#[export] Instance eta_world : EtaRecord world := fun w =>
  mkWorld (w_sys w) (w_sched w) (w_clock w) (w_time w) (w_patience w).

(** An event that cannot happen now is passed over. *)
Definition happen (e : event) (w : world) : world :=
  if admissible e (w_sys w) then
    match exec e (w_sys w) with Some S' => w <| w_sys := S' |> | None => w end
  else w.

Definition turn (w : world) : world :=
  happen (w_sched w (w_time w)) (w <| w_time := S (w_time w) |>).

(** Waiting for attempt [k] of peer [me]: until a majority has failed (the
    highest number among the rejections), or until it has sent the Decides and
    handled its own. *)
Fixpoint await (fuel : nat) (me k : nat) (w : world) : outcome (world * option Z) :=
  match attempts (w_sys w) !! k with
  | None => Hang
  | Some a =>
      let later := match fuel with O => Hang | S fuel' => await fuel' me k (turn w) end in
      match a_phase a with
      | NoPromises | NoVotes => Ret (w, Some (maxSeqNumHighest (coll a)))
      | Deciding => if decide (me ∈ decTo a) then later else Ret (w, None)
      | Preparing | Accepting => later
      end
  end.

(** The loop of [startHelper]. *)
Fixpoint proposeFrom (tries : nat) (me : nat) (slotNum : Z) (v : value) (maxHighest : Z) (w : world)
  : outcome world :=
  match tries with
  | O => Hang
  | S tries' =>
      seqNum ← nextSeqNum (w_clock w (w_time w)) (npeers (w_sys w)) (Z.of_nat me) maxHighest;
      let k := length (attempts (w_sys w)) in
      '(w, r) ← await (w_patience w) me k (happen (Start me slotNum seqNum v) w);
      match r with
      | None => Ret w
      | Some h => proposeFrom tries' me slotNum v h w
      end
  end.

(** No server is bound to a peer that does not exist. *)
Definition noPeer : string := "no such peer".

Definition startAt (me : nat) (slotNum : Z) (v : value) (w : world) : outcome (world * option string) :=
  match pxs (w_sys w) !! me with
  | None => Ret (w, Some noPeer)
  | Some p =>
      if isLocked p then Ret (w, Some maintenance)
      else
        let '(currTimeSlot, p) := getTimeSlotValue slotNum (getTimeSlotLock slotNum p) in
        w ← proposeFrom (w_patience w) me slotNum v (seqNumHighest currTimeSlot)
              (w <| w_sys := set_peer me p (w_sys w) |>);
        Ret (w, None)
  end.

Definition statusAt (me : nat) (slotNum : Z) (w : world) : world * (bool * value * option string) :=
  match pxs (w_sys w) !! me with
  | None => (w, (false, None, Some noPeer))
  | Some p => let '(p, r) := Status slotNum p in (w <| w_sys := set_peer me p (w_sys w) |>, r)
  end.

(** One world after another: sound again, with all decisions and votes. *)
Definition onward (w w' : world) : Prop :=
  sound (w_sys w) -> sound (w_sys w') /\ later (w_sys w) (w_sys w').

#[export] Instance onward_preorder : PreOrder onward.
Proof.
  split; [by intros w|]. intros w1 w2 w3 H1 H2 Hs. destruct (H1 Hs) as [Hs2 L1].
  destruct (H2 Hs2) as [Hs3 L2]. split; [done|]. by etrans.
Qed.

Lemma happen_onward e w : onward w (happen e w).
Proof.
  intros Hs. unfold happen. destruct (admissible e (w_sys w)) eqn:Ea; [|done].
  destruct (exec e (w_sys w)) as [S|] eqn:Ee; [|done]. cbn. by eapply turn_sound.
Qed.

Lemma turn_onward w : onward w (turn w).
Proof. unfold turn. etrans; [|apply happen_onward]. by intros ?. Qed.

Lemma await_onward fuel me k : forall w w' r, await fuel me k w = Ret (w', r) -> onward w w'.
Proof.
  induction fuel as [|fuel IH]; intros w w' r; cbn [await];
    destruct (attempts (w_sys w) !! k) as [a|]; try done; cbn;
    destruct (a_phase a); try done; try (case_decide; [|by intros [= <- _]]); try done;
    try (by intros [= <- _]); intros Hr; (etrans; [apply turn_onward|by eapply IH]).
Qed.

Lemma proposeFrom_onward tries me n v : forall h w w', proposeFrom tries me n v h w = Ret w' -> onward w w'.
Proof.
  induction tries as [|tries IH]; intros h w w'; cbn [proposeFrom]; [done|]. intros H. bind_inv.
  destruct x0 as [w1 [h1|]]; cbn in H; bind_inv.
  - etrans; [apply happen_onward|]. etrans; [by eapply await_onward|]. by eapply IH.
  - etrans; [apply happen_onward|]. by eapply await_onward.
Qed.

Lemma touch_onward w i p p' :
  pxs (w_sys w) !! i = Some p -> (forall s, slotOf p' s = slotOf p s) ->
  onward w (w <| w_sys := set_peer i p' (w_sys w) |>).
Proof. intros Hp Hs H. cbn. by eapply touch_sound. Qed.

Lemma startAt_onward me n v w w' e : startAt me n v w = Ret (w', e) -> onward w w'.
Proof.
  unfold startAt. destruct (pxs (w_sys w) !! me) as [p|] eqn:Hp; [|by intros [= <- _]].
  destruct (isLocked p); [by intros [= <- _]|].
  destruct (enter_spec n p) as (p' & -> & Hs & _). intros H. bind_inv.
  etrans; [by eapply touch_onward|]. by eapply proposeFrom_onward.
Qed.

Lemma Status_spec n p : forall p' r, Status n p = (p', r) ->
  (forall s, slotOf p' s = slotOf p s) /\
  forall v, r = (true, v, None) -> isDecided (slotOf p n) = true /\ slotValue (slotOf p n) = v.
Proof.
  unfold Status. intros p' r. destruct (isLocked p); [by intros [= <- <-]|].
  destruct (enter_spec n p) as (p1 & -> & Hs & _). intros [= <- <-]. split; [done|].
  by intros v [= -> ->].
Qed.

Lemma statusAt_onward me n w : onward w (statusAt me n w).1.
Proof.
  unfold statusAt. destruct (pxs (w_sys w) !! me) as [p|] eqn:Hp; [|done].
  destruct (Status n p) as [p' r] eqn:E. destruct (Status_spec n p p' r E) as [Hs _].
  by eapply touch_onward.
Qed.

Lemma statusAt_decided me n w w' v :
  sound (w_sys w) -> statusAt me n w = (w', (true, v, None)) -> decisionOf (w_sys w') n = Some v.
Proof.
  intros Hw E. pose proof (statusAt_onward me n w Hw) as [Hw' _]. rewrite E in Hw'. cbn in Hw'.
  unfold statusAt in E. destruct (pxs (w_sys w) !! me) as [p|] eqn:Hp; [|done].
  destruct (Status n p) as [p' r] eqn:Es. injection E as <- ->.
  destruct (Status_spec n p p' _ Es) as [Hs Hd]. destruct (Hd v eq_refl) as [Hdec <-].
  rewrite <- Hs in Hdec |- *. apply (decisionOf_decided _ me); [done| |done].
  cbn. apply list_lookup_insert_eq. by eapply lookup_lt_Some.
Qed.

(** A server proposes: no panic on the way. *)
Lemma await_no_panic me k fuel : forall w, await fuel me k w <> Panic.
Proof.
  induction fuel as [|fuel IH]; intros w; cbn [await]; destruct (attempts _ !! k) as [a|]; try done;
    cbn; destruct (a_phase a); try done; try (by case_decide); try apply IH.
Qed.

Lemma proposeFrom_no_panic me n v tries : forall h w,
  sound (w_sys w) -> pxs (w_sys w) <> [] -> proposeFrom tries me n v h w <> Panic.
Proof.
  induction tries as [|tries IH]; intros h w Hs Hne; cbn [proposeFrom]; [done|].
  assert (Hn : npeers (w_sys w) <> 0) by (unfold npeers; by destruct (pxs (w_sys w))).
  destruct (nextSeqNum _ _ _ _) as [q| |] eqn:Eq; cbn; [| |done].
  - destruct (await _ _ _ _) as [[w1 [h1|]]| |] eqn:E; [cbn|done|by apply await_no_panic in E|done].
    destruct (happen_onward (Start me n q v) w Hs) as [Hs0 [L0 _]].
    destruct (await_onward _ _ _ _ _ _ E Hs0) as [Hs1 [L1 _]].
    apply IH; [done|]. apply Forall2_length in L0, L1. intros Hnil. rewrite Hnil in L1.
    destruct (pxs (w_sys w)); [done|cbn in *; lia].
  - unfold nextSeqNum in Eq. destruct (_ <=? h); [|done]. by rewrite (proj2 (Z.eqb_neq _ _) Hn) in Eq.
Qed.

Lemma startAt_no_panic me n v w : sound (w_sys w) -> startAt me n v w <> Panic.
Proof.
  intros Hw. unfold startAt. destruct (pxs (w_sys w) !! me) as [p|] eqn:Hp; [|done].
  destruct (isLocked p); [done|]. destruct (enter_spec n p) as (p' & -> & Hs & _).
  destruct (touch_onward w me p p' Hp Hs Hw) as [Hw' [L _]].
  destruct (proposeFrom _ _ _ _ _ _) eqn:E; try done. apply proposeFrom_no_panic in E; [done|done|].
  apply Forall2_length in L. apply lookup_lt_Some in Hp. intros Hnil. rewrite Hnil in L. cbn in L. lia.
Qed.

(** ** The instance *)

Record World := mkW { state : world; state_sound : sound (w_sys state) }.

(** A sound start: empty slots everywhere. *)
Definition cluster (S : sys) (Hi : initial S) (sched : nat -> event) (clock : nat -> Z)
    (patience : nat) : World :=
  mkW (mkWorld S sched clock 0 patience) (sound_initial S Hi).

Definition World_Status (me : nat) (n : Z) (w : World) : World * (bool * value * option string) :=
  (mkW (statusAt me n (state w)).1 (proj1 (statusAt_onward me n (state w) (state_sound w))),
   (statusAt me n (state w)).2).

Definition World_Start (me : nat) (n : Z) (v : value) (w : World) : outcome (World * option string) :=
  match startAt me n v (state w) as r return startAt me n v (state w) = r -> _ with
  | Ret (w', e) => fun E =>
      Ret (mkW w' (proj1 (startAt_onward me n v (state w) w' e E (state_sound w))), e)
  | Panic => fun _ => Panic
  | Hang => fun _ => Hang
  end eq_refl.

Lemma World_Start_inv me n v w :
  match World_Start me n v w with
  | Ret (w', e) => startAt me n v (state w) = Ret (state w', e)
  | Panic => startAt me n v (state w) = Panic
  | Hang => startAt me n v (state w) = Hang
  end.
Proof.
  unfold World_Start. generalize (startAt_onward me n v (state w)).
  destruct (startAt me n v (state w)) as [[w' e]| |]; done.
Qed.

#[export] Program Instance paxos_service : FlightServer.PaxosService World := {
  FlightServer.svc_Status := World_Status;
  FlightServer.svc_Start := World_Start;
  FlightServer.svc_log w n := decisionOf (w_sys (state w)) n }.
Next Obligation.
  intros me n w w' v. unfold World_Status. intros [= <- Hr]. cbn.
  apply (statusAt_decided me n (state w)); [apply state_sound|].
  rewrite <- Hr. by destruct (statusAt me n (state w)).
Qed.
Next Obligation.
  intros me n w m v. cbn. destruct (statusAt_onward me n (state w) (state_sound w)) as [Hs Hl].
  apply decisionOf_later; [apply state_sound|done..].
Qed.
Next Obligation.
  intros me n v w w' e m u. cbn. pose proof (World_Start_inv me n v w) as H. intros E. rewrite E in H.
  destruct (startAt_onward _ _ _ _ _ _ H (state_sound w)) as [Hs Hl].
  apply decisionOf_later; [apply state_sound|done..].
Qed.

Lemma service_never_nil (w : World) n : FlightServer.svc_log w n <> Some None.
Proof.
  cbn. intros E. destruct (decisionOf_op _ _ _ (state_sound w) E) as [[op [=]] _].
Qed.

Lemma service_never_panics me n v (w : World) : FlightServer.svc_Start me n v w <> Panic.
Proof.
  cbn. intros E. pose proof (World_Start_inv me n v w) as H. rewrite E in H.
  by apply (startAt_no_panic me n v (state w) (state_sound w)).
Qed.

(** ** Properties *)

(** The operations executed by a server: slot by slot chosen by a majority of
    the peers, and given to Paxos by some server's call. *)
Definition fromPaxos (S : sys) (ops : list PaxosValue) : Prop :=
  forall m op, ops !! m = Some op ->
    is_chosen S (Z.of_nat m) (Some op) /\ proposable S (Z.of_nat m) (Some op).

Lemma synced_fromPaxos (w : World) s :
  FlightServer.synced w s -> exists ops, s = FlightServer.replay ops FlightServer.NewServer /\
    fromPaxos (w_sys (state w)) ops.
Proof.
  intros (ops & -> & Hd). exists ops. split; [done|]. intros m op Hm. specialize (Hd m op Hm).
  cbn in Hd. split; [by apply decisionOf_chosen; [apply state_sound|]|].
  by apply (decisionOf_op _ _ _ (state_sound w)).
Qed.

(** The flight service over its Paxos peers.  Any number of servers start
    empty, each bound to its peer, and serve requests in any order while the
    messages of all proposals are lost, delayed and interleaved in any way
    short of a stale Accept.  Then every server's state is the execution of a
    list of operations, the one of slot [m] accepted by a majority of the
    peers for that slot and issued by some server; servers that have reached
    the same slot are equal; and no handler panics. *)
Lemma flight_service_over_paxos n (w0 w : World) ss :
  rtc FlightServer.rstep (replicate n FlightServer.NewServer, w0) (ss, w) ->
  (forall i s, ss !! i = Some s -> exists ops,
     s = FlightServer.replay ops FlightServer.NewServer /\ fromPaxos (w_sys (state w)) ops) /\
  (forall i j si sj, ss !! i = Some si -> ss !! j = Some sj ->
     FlightServer.currSlotNum si = FlightServer.currSlotNum sj -> si = sj) /\
  (forall i s fuel tries op, ss !! i = Some s ->
     FlightServer.addPaxosLogAndUpdateState i fuel tries op s w <> Panic).
Proof.
  intros Hr. assert (Hall : Forall (FlightServer.synced w) ss).
  { change (Forall (FlightServer.synced (ss, w).2) (ss, w).1).
    eapply (rtc_invariant FlightServer.rstep (fun c => Forall (FlightServer.synced c.2) c.1));
      [intros x y; apply FlightServer.rstep_synced| |exact Hr].
    apply Forall_replicate. exists []. split; [done|]. intros k op. by rewrite lookup_nil. }
  rewrite Forall_lookup in Hall. split_and!.
  - intros i s Hi. by apply synced_fromPaxos, (Hall i).
  - intros i j si sj Hi Hj. by apply (FlightServer.synced_same_slot w); [apply (Hall i)|apply (Hall j)].
  - intros i s fuel tries op _.
    apply FlightServer.catchUp_no_panic; [apply service_never_nil|apply service_never_panics].
Qed.

(** Three peers and two servers; each attempt runs undisturbed, and all peers
    hear of each decision. *)
Definition demo_round (k : nat) : list event :=
  [PrepareAt k 0 Delivered; PrepareAt k 1 Delivered; PrepareAt k 2 ReplyLost;
   PrepareHeard k 0; PrepareHeard k 1; AcceptAt k 0 Delivered; AcceptAt k 1 Delivered;
   AcceptHeard k 0; AcceptHeard k 1; DecideAt k 2 Delivered; DecideAt k 0 Delivered;
   DecideAt k 1 Delivered].
Definition demo_events : list event := concat (demo_round <$> seq 0 4).
Definition demo_world : World :=
  cluster peers0 peers0_initial (fun t => default (DecideAt 99 0 RequestLost) (demo_events !! t))
    (fun t => Z.of_nat t + 1) 30.

Definition demo_serve (i : nat) (op : PaxosValue) (c : list FlightServer.server * World)
  : option (list FlightServer.server * World) :=
  s ← c.1 !! i;
  match FlightServer.addPaxosLogAndUpdateState i 5 5 op s c.2 with
  | Ret (s', w', _) => Some (<[i := s']> c.1, w')
  | _ => None
  end.
Definition demo_service : option (list FlightServer.server * World) :=
  c ← demo_serve 0 (FlightServer.demo_add 1 2) (replicate 2 FlightServer.NewServer, demo_world);
  demo_serve 1 (FlightServer.demo_reserve 2 "ann") c.

Lemma demo_serve_step i op c c' : demo_serve i op c = Some c' -> FlightServer.rstep c c'.
Proof.
  destruct c as [ss w]. unfold demo_serve. cbn [fst snd].
  destruct (ss !! i) as [s|] eqn:Hi; [|done]. cbn [mbind option_bind].
  destruct (FlightServer.addPaxosLogAndUpdateState i 5 5 op s w) as [[[s' w'] r]| |] eqn:E; [|done..].
  intros [= <-]. by eapply FlightServer.rcall.
Qed.

Lemma demo_service_runs :
  (FlightServer.currSlotNum <$> default [] (fst <$> demo_service)) = [1; 2].
Proof. vm_compute. reflexivity. Qed.

Lemma demo_service_steps ss w :
  demo_service = Some (ss, w) ->
  rtc FlightServer.rstep (replicate 2 FlightServer.NewServer, demo_world) (ss, w).
Proof.
  unfold demo_service. destruct (demo_serve 0 _ _) as [c|] eqn:E1; [|done]. cbn. intros E2.
  eapply rtc_l; [by eapply demo_serve_step|]. eapply rtc_l; [by eapply demo_serve_step|]. apply rtc_refl.
Qed.

Lemma flight_service_over_paxos_demo :
  exists s w ops, default [] (fst <$> demo_service) !! 1%nat = Some s /\
    s = FlightServer.replay ops FlightServer.NewServer /\ length ops = 2%nat /\
    fromPaxos (w_sys (state w)) ops.
Proof.
  destruct demo_service as [[ss w]|] eqn:E; [|pose proof demo_service_runs as H; rewrite E in H; discriminate H].
  destruct (flight_service_over_paxos 2 demo_world w ss (demo_service_steps ss w E)) as (H & _ & _).
  pose proof demo_service_runs as Hruns. rewrite E in Hruns. cbn in *.
  destruct ss as [|s0 [|s1 [|]]]; try discriminate Hruns. injection Hruns as _ Hs1.
  destruct (H 1%nat s1 eq_refl) as (ops & Hs & Hops). exists s1, w, ops.
  split; [reflexivity|]. split; [exact Hs|]. split; [|exact Hops].
  rewrite Hs, FlightServer.replay_slot in Hs1. cbn in Hs1. lia.
Defined.

End PaxosReplicas.
