(* ===== verification/FlightConcurrent.v ===== *)
(** * FlightConcurrent: calls of several flight servers at the same time

    [PaxosReplicas] runs the calls of the servers one after the other.  Here
    they overlap: every server serves one call at a time (it holds [srv.mutex]),
    and [addPaxosLogAndUpdateState] with the [Status] and [Start] it calls is
    cut where it takes or releases a lock of its peer or waits for messages
    ([progress]).  A step ([step]) is a call that begins, a server that goes on
    to its next cut, a message of an attempt of [PaxosSafety] that is handled or
    lost, an attempt of the membership tool to fill a slot, or its lock.  As in
    [PaxosReplicas], an Accept that would overwrite a decision is lost.

    Servers agree on one log, every result is that of its operation at a place of
    it, and the history of calls and returns is linearizable as long as no two
    calls are equal; equal ones can share a place ([flight_service_linearizable]).
    A call that returns an error may have been executed all the same
    ([error_after_execution]). *)
From S2P Require Import Prelude PaxosRpc Paxos PaxosSafety FlightServer PaxosReplicas.
Open Scope Z_scope.

Module FlightConcurrent.
Import Paxos PaxosSafety PaxosReplicas FlightServer.

(** ** The system *)

(** Where a call is: before the lock check of [Status], before it reads the
    slot, before the lock check of [Start], before [startHelper] reads the slot,
    at the head of its loop, waiting for attempt [k].  [retVal] is the variable
    of that name. *)
Inductive progress :=
  | Idle
  | Polling (op : PaxosValue) (retVal : result)
  | Looking (op : PaxosValue) (retVal : result)
  | Starting (op : PaxosValue) (retVal : result)
  | Entering (op : PaxosValue) (retVal : result)
  | Trying (op : PaxosValue) (retVal : result) (maxSeqNumHighest : Z)
  | Awaiting (op : PaxosValue) (retVal : result) (k : nat)
  | Crashed.

Inductive happening :=
  | Invoked (i : nat) (op : PaxosValue)
  | Returned (i : nat) (op : PaxosValue) (r : result + string).

Record conc := mkConc { peers_ : sys; threads : list (server * progress); history : list happening }.

#[export] Instance eta_conc : EtaRecord conc := fun c => mkConc (peers_ c) (threads c) (history c).

Definition set_thread (i : nat) (t : server * progress) (c : conc) : conc :=
  c <| threads := <[i := t]> (threads c) |>.

(** The call of server [i] returns. *)
Definition return_ (i : nat) (op : PaxosValue) (s : server) (r : result + string) (c : conc) : conc :=
  set_thread i (s, Idle) c <| history := history c ++ [Returned i op r] |>.

(** The body of the outer loop after the inner one: [val] is decided. *)
Definition execute (i : nat) (op : PaxosValue) (retVal : result) (s : server) (val : value) (c : conc) : conc :=
  match val with
  | None => set_thread i (s, Crashed) c
  | Some decidedOp =>
      let '(s, retVal) := executeOp op decidedOp (s <| currSlotNum := currSlotNum s + 1 |>) retVal in
      if decide (op = decidedOp) then return_ i op s (inl retVal) c
      else set_thread i (s, Polling op retVal) c
  end.

(** A server goes on; [now] is the clock. *)
Definition advance (i : nat) (now : Z) (c : conc) : option conc :=
  '(s, pr) ← threads c !! i;
  p ← pxs (peers_ c) !! i;
  let slot := currSlotNum s in
  let '(timeslot, p') := getTimeSlotValue slot (getTimeSlotLock slot p) in
  let entered := c <| peers_ := set_peer i p' (peers_ c) |> in
  match pr with
  | Idle | Crashed => None
  | Polling op retVal =>
      Some (if isLocked p then return_ i op s (inr maintenance) c else set_thread i (s, Looking op retVal) c)
  | Looking op retVal =>
      Some (if isDecided timeslot then execute i op retVal s (slotValue timeslot) entered
            else set_thread i (s, Starting op retVal) entered)
  | Starting op retVal =>
      Some (if isLocked p then return_ i op s (inr maintenance) c else set_thread i (s, Entering op retVal) c)
  | Entering op retVal => Some (set_thread i (s, Trying op retVal (seqNumHighest timeslot)) entered)
  | Trying op retVal maxHighest =>
      match nextSeqNum now (npeers (peers_ c)) (Z.of_nat i) maxHighest with
      | Ret seqNum =>
          S' ← exec (Start i slot seqNum (Some op)) (peers_ c);
          Some (set_thread i (s, Awaiting op retVal (length (attempts (peers_ c)))) (c <| peers_ := S' |>))
      | Panic => Some (set_thread i (s, Crashed) c)
      | Hang => None
      end
  | Awaiting op retVal k =>
      a ← attempts (peers_ c) !! k;
      match a_phase a with
      | NoPromises | NoVotes => Some (set_thread i (s, Trying op retVal (maxSeqNumHighest (coll a))) c)
      | Deciding => if decide (i ∈ decTo a) then None else Some (set_thread i (s, Polling op retVal) c)
      | Preparing | Accepting => None
      end
  end.

(** The calls that have begun so far. *)
Definition invoked (h : list happening) : list PaxosValue :=
  omap (fun e => match e with Invoked _ op => Some op | Returned _ _ _ => None end) h.

#[export] Instance client_op_dec op : Decision (client_op op).
Proof. unfold client_op. apply _. Defined.

Inductive action :=
  | Call (i : nat) (op : PaxosValue)
  | Advance (i : nat) (now : Z)
  | Message (e : event)
  | Sync (me : nat) (slot seq : Z)
  | Lock (i : nat) (b : bool).

(** An action, where it can happen.  A call is any operation of a client, with
    any reading of the clock. *)
Definition step (x : action) (c : conc) : option conc :=
  match x with
  | Call i op =>
      '(s, pr) ← threads c !! i;
      match pr with
      | Idle =>
          if decide (client_op op)
          then Some (set_thread i (s, Polling op RNil) c <| history := history c ++ [Invoked i op] |>)
          else None
      | _ => None
      end
  | Advance i now => advance i now c
  | Message e =>
      if (match e with Start _ _ _ _ => false | _ => true end) && negb (overwrites e (peers_ c))
      then S' ← exec e (peers_ c); Some (c <| peers_ := S' |>)
      else None
  | Sync me slot seq =>
      S' ← exec (Start me slot seq (Some NoOpValue)) (peers_ c); Some (c <| peers_ := S' |>)
  | Lock i b =>
      p ← pxs (peers_ c) !! i; Some (c <| peers_ := set_peer i (SetLock (mkSetLockArgs b) p).1 (peers_ c) |>)
  end.

Fixpoint steps (xs : list action) (c : conc) : option conc :=
  match xs with
  | [] => Some c
  | x :: xs' => c' ← step x c; steps xs' c'
  end.

Definition reachable (c : conc) : Prop :=
  exists S n xs, initial S /\ steps xs (mkConc S (replicate n (NewServer, Idle)) []) = Some c.

(** ** The specification *)

(** The results of the calls are those of a log of operations, executed one
    after the other: a call that has returned a result is in it, with the result
    it has there, and nothing that was not asked for. *)
Record explains (h : list happening) (log : list PaxosValue) : Prop := {
  ex_result : forall i op v, Returned i op (inl v) ∈ h ->
    exists m, log !! m = Some op /\ v = resultOf op (replay (take m log) NewServer);
  ex_invoked : forall op, op ∈ log -> op = NoOpValue \/ op ∈ invoked h }.

(** And so is their order: no call is executed twice, and one that began after
    another had returned comes later. *)
Record linearizes (h : list happening) (log : list PaxosValue) : Prop := {
  lz_explains : explains h log;
  lz_once : forall m m' op, client_op op -> log !! m = Some op -> log !! m' = Some op -> m = m';
  lz_order : forall h1 h2 i j a b v m m', h = h1 ++ Invoked j b :: h2 -> Returned i a (inl v) ∈ h1 ->
    log !! m = Some a -> log !! m' = Some b -> (m < m')%nat }.

(** The decisions of the first slots, as operations. *)
Definition decided (S : sys) (ops : list PaxosValue) : Prop :=
  forall m op, ops !! m = Some op -> decisionOf S (Z.of_nat m) = Some (Some op).

(** ** The invariant *)

(** The operation a server is working on. *)
Definition current (pr : progress) : option PaxosValue :=
  match pr with
  | Idle | Crashed => None
  | Polling op _ | Looking op _ | Starting op _ | Entering op _ | Trying op _ _ | Awaiting op _ _ => Some op
  end.

(** The slot is decided, on something else. *)
Definition taken (S : sys) (op : PaxosValue) (n : Z) : Prop :=
  exists d, decisionOf S n = Some (Some d) /\ d <> op.

(** The state of a server is that of the log up to its slot. *)
Definition executed (S : sys) (s : server) : Prop :=
  exists ops, s = replay ops NewServer /\ decided S ops.

(** What holds whatever is called. *)
Record fine (c : conc) : Prop := {
  gd_sound : sound (peers_ c);
  gd_alive : forall i s pr, threads c !! i = Some (s, pr) -> pr <> Crashed /\ executed (peers_ c) s;
  gd_busy : forall i s pr op, threads c !! i = Some (s, pr) -> current pr = Some op ->
    client_op op /\ op ∈ invoked (history c);
  gd_values : forall n op, proposable (peers_ c) n (Some op) -> op = NoOpValue \/ op ∈ invoked (history c);
  gd_returned : forall i op v, Returned i op (inl v) ∈ history c ->
    client_op op /\ exists ops s pr, threads c !! i = Some (s, pr) /\ Z.of_nat (length ops) < currSlotNum s /\
      decided (peers_ c) (ops ++ [op]) /\ v = resultOf op (replay ops NewServer) }.

(** What holds as long as no two calls are equal: a call proposes its operation
    for one slot after the other, the earlier ones being taken by others. *)
Record unique (c : conc) : Prop := {
  gd_slots : forall i s pr op, threads c !! i = Some (s, pr) -> current pr = Some op ->
    forall n, proposable (peers_ c) n (Some op) ->
      n <= currSlotNum s /\ (n < currSlotNum s -> taken (peers_ c) op n);
  gd_apart : forall i j s pr s' pr' op, threads c !! i = Some (s, pr) -> threads c !! j = Some (s', pr') ->
    current pr = Some op -> current pr' = Some op -> i = j;
  gd_once : forall op n n', op <> NoOpValue -> proposable (peers_ c) n (Some op) ->
    proposable (peers_ c) n' (Some op) -> n < n' -> taken (peers_ c) op n;
  gd_order : forall h1 h2 i j a b v, history c = h1 ++ Invoked j b :: h2 -> Returned i a (inl v) ∈ h1 ->
    exists ops, decided (peers_ c) (ops ++ [a]) /\ b ∉ ops ++ [a] }.

(** All calls so far are different. *)
Definition distinct (c : conc) : Prop := NoDup (invoked (history c)).

Record good (c : conc) : Prop := {
  gd_fine : fine c;
  gd_unique : distinct c -> unique c }.

Lemma client_op_not_noop op : client_op op -> op <> NoOpValue.
Proof. intros Hc ->. destruct Hc as [_ Hc]. vm_compute in Hc. by apply Hc. Qed.

Lemma decided_later S S' ops : sound S -> sound S' -> later S S' -> decided S ops -> decided S' ops.
Proof. intros H H' Hl Hd m op Hm. by apply (decisionOf_later S), Hd. Qed.

Lemma taken_later S S' op n : sound S -> sound S' -> later S S' -> taken S op n -> taken S' op n.
Proof. intros H H' Hl (d & Hd & Hne). exists d. split; [by apply (decisionOf_later S)|done]. Qed.

Lemma executed_later S S' s : sound S -> sound S' -> later S S' -> executed S s -> executed S' s.
Proof. intros H H' Hl (ops & -> & Hd). exists ops. split; [done|by apply (decided_later S)]. Qed.

(** What the peers do by themselves. *)
Lemma fine_peers c S' :
  fine c -> sound S' -> later (peers_ c) S' ->
  (forall n op, proposable S' n (Some op) ->
     proposable (peers_ c) n (Some op) \/ op = NoOpValue \/ op ∈ invoked (history c)) ->
  fine (c <| peers_ := S' |>).
Proof.
  intros G HS Hl Hp. pose proof (gd_sound c G) as H0. split; cbn; [done|..].
  - intros i s pr Hi. destruct (gd_alive c G i s pr Hi). split; [done|by apply (executed_later (peers_ c))].
  - apply (gd_busy c G).
  - intros n op H. destruct (Hp n _ H) as [Hq|?]; [by apply (gd_values c G n)|done].
  - intros i op v Hr. destruct (gd_returned c G i op v Hr) as (Ho & ops & s & pr & Hi & Hn & Hd & Hv). split; [done|].
    exists ops, s, pr. split_and!; [done|done|by apply (decided_later (peers_ c))|done].
Qed.

Lemma good_peers c S' :
  good c -> sound S' -> later (peers_ c) S' ->
  (forall n v, proposable S' n v -> proposable (peers_ c) n v \/ v = Some NoOpValue) ->
  good (c <| peers_ := S' |>).
Proof.
  intros [G U] HS Hl Hp. pose proof (gd_sound c G) as H0. split.
  { apply fine_peers; [done..|]. intros n op H. destruct (Hp n _ H) as [|[= ->]]; auto. }
  intros Hn. specialize (U Hn). clear Hn.
  assert (Hop : forall n op, op <> NoOpValue -> proposable S' n (Some op) -> proposable (peers_ c) n (Some op)).
  { intros n op Hne H. destruct (Hp n _ H) as [|[= E]]; [done|by destruct Hne]. }
  split; cbn.
  - intros i s pr op Hi Hc n H. destruct (gd_busy c G i s pr op Hi Hc) as (Ho & _).
    apply Hop in H; [|by apply client_op_not_noop]. destruct (gd_slots c U i s pr op Hi Hc n H). split; [done|].
    intros. eapply taken_later; eauto.
  - apply (gd_apart c U).
  - intros op n n' Hne H H' Hlt. eapply taken_later; [done..|]. apply (gd_once c U op n n'); auto.
  - intros h1 h2 i j a b v Hh Hr. destruct (gd_order c U h1 h2 i j a b v Hh Hr) as (ops & Hd & Hb).
    exists ops. split; [by apply (decided_later (peers_ c))|done].
Qed.

(** A server goes on, possibly past a slot that is decided on [d]; its call is
    over or the same as before. *)
Lemma good_server c i s pr s' pr' :
  good c -> threads c !! i = Some (s, pr) -> pr' <> Crashed ->
  (current pr' = None \/ current pr' = current pr) ->
  (s' = s \/ exists d, decisionOf (peers_ c) (currSlotNum s) = Some (Some d) /\ s' = applyOp d s /\
     (current pr' = None \/ current pr <> Some d)) ->
  good (set_thread i (s', pr') c).
Proof.
  intros [G U] Hi Hpr Hcur Hs.
  assert (Hslot : currSlotNum s <= currSlotNum s').
  { destruct Hs as [->|(d & _ & -> & _)]; [lia|]. rewrite applyOp_slot. lia. }
  assert (Hthread : forall j t q, threads (set_thread i (s', pr') c) !! j = Some (t, q) ->
    j = i /\ t = s' /\ q = pr' \/ j <> i /\ threads c !! j = Some (t, q)).
  { intros j t q. cbn. intros [(<- & [= <- <-] & _)|[Hne H]]%list_lookup_insert_Some; [by left|by right]. }
  assert (Hself : threads (set_thread i (s', pr') c) !! i = Some (s', pr')).
  { cbn. apply list_lookup_insert_eq. by eapply lookup_lt_Some. }
  split; [split|intros Hn; specialize (U Hn); clear Hn; split]; cbn; [apply (gd_sound c G)|..].
  - intros j t q [(-> & -> & ->)|[_ Hj]]%Hthread; [|by apply (gd_alive c G j)]. split; [done|].
    destruct (gd_alive c G i s pr Hi) as [_ Hex]. destruct Hs as [->|(d & Hd & -> & _)]; [done|].
    destruct Hex as (ops & -> & Hops). exists (ops ++ [d]). split; [unfold replay; by rewrite foldl_app|].
    intros m op [Hm|[Hge Hm]]%lookup_app_Some; [by apply Hops|].
    apply list_lookup_singleton_Some in Hm as [Hm <-]. rewrite <- Hd. f_equal. rewrite replay_slot. cbn. lia.
  - intros j t q op [(-> & -> & ->)|[_ Hj]]%Hthread Hc; [|by apply (gd_busy c G j t q)].
    destruct Hcur as [E|E]; [congruence|]. rewrite E in Hc. by apply (gd_busy c G i s pr).
  - apply (gd_values c G).
  - intros j op v Hr. destruct (gd_returned c G j op v Hr) as (Ho & ops & t & q & Hj & Hn & Hd & Hv). split; [done|].
    destruct (decide (j = i)) as [->|Hne].
    + exists ops, s', pr'. split_and!; [exact Hself| |done..]. simplify_eq. lia.
    + exists ops, t, q. split_and!; [|done..]. by rewrite list_lookup_insert_ne.
  - intros j t q op [(-> & -> & ->)|[_ Hj]]%Hthread Hc; [|by apply (gd_slots c U j t q)].
    destruct Hcur as [E|E]; [congruence|]. rewrite E in Hc.
    intros n Hp. destruct (gd_slots c U i s pr op Hi Hc n Hp) as [Hle Htk]. split; [lia|]. intros Hlt.
    destruct (decide (n < currSlotNum s)) as [|Hge]; [by apply Htk|].
    destruct Hs as [->|(d & Hd & -> & Hne)]; [lia|]. replace n with (currSlotNum s) by lia.
    exists d. split; [done|]. intros ->. by destruct Hne as [Hne|[]]; [rewrite E, Hc in Hne|].
  - intros j k t q t' q' op [(-> & -> & ->)|[Hj Hj']]%Hthread [(-> & -> & ->)|[Hk Hk']]%Hthread Hc Hc';
      try done; try (destruct Hcur as [E|E]; [congruence|rewrite E in *]); by eapply (gd_apart c U).
  - apply (gd_once c U).
  - apply (gd_order c U).
Qed.

Lemma invoked_app h h' : invoked (h ++ h') = invoked h ++ invoked h'.
Proof. unfold invoked. by rewrite omap_app. Qed.

(** A split of a history that has grown by one. *)
Lemma split_snoc {A} (h h1 h2 : list A) x y :
  h ++ [x] = h1 ++ y :: h2 -> (h2 = [] /\ h = h1 /\ x = y) \/ exists h3, h = h1 ++ y :: h3.
Proof.
  destruct h2 as [|z h2 _] using rev_ind; intros E.
  - left. by apply app_inj_tail in E as [-> ->].
  - right. exists h2. rewrite app_comm_cons, app_assoc in E. by apply app_inj_tail in E as [-> _].
Qed.

Lemma distinct_snoc c e : NoDup (invoked (history c ++ [e])) -> distinct c.
Proof. rewrite invoked_app. by intros [? _]%NoDup_app. Qed.

Lemma thread_begins c i s op j t q : threads (set_thread i (s, Polling op RNil) c) !! j = Some (t, q) ->
  j = i /\ t = s /\ q = Polling op RNil \/ j <> i /\ threads c !! j = Some (t, q).
Proof. cbn. intros [(<- & [= <- <-] & _)|[Hne H]]%list_lookup_insert_Some; [by left|by right]. Qed.

Lemma fine_call c i s op :
  fine c -> threads c !! i = Some (s, Idle) -> client_op op ->
  fine (set_thread i (s, Polling op RNil) c <| history := history c ++ [Invoked i op] |>).
Proof.
  intros G Hi Ho. split; cbn; [apply (gd_sound c G)|..].
  - intros j t q [(-> & -> & ->)|[_ Hj]]%thread_begins; [|by apply (gd_alive c G j)].
    split; [done|]. by apply (gd_alive c G i s Idle).
  - intros j t q o [(-> & -> & ->)|[_ Hj]]%thread_begins Hc; rewrite invoked_app, elem_of_app.
    + injection Hc as <-. split; [done|right; by left].
    + destruct (gd_busy c G j t q o Hj Hc). auto.
  - intros n o Hp. rewrite invoked_app, elem_of_app. destruct (gd_values c G n o Hp); auto.
  - intros j o v [Hr|?%list_elem_of_singleton]%elem_of_app; [|done].
    destruct (gd_returned c G j o v Hr) as (Hco & ops & t & q & Hj & Hn & Hd & Hv). split; [done|].
    destruct (decide (j = i)) as [->|Hne].
    + exists ops, s, (Polling op RNil). split_and!; [|by simplify_eq|done..].
      apply list_lookup_insert_eq. by eapply lookup_lt_Some.
    + exists ops, t, q. split_and!; [|done..]. by rewrite list_lookup_insert_ne.
Qed.

Lemma unique_call c i s op :
  fine c -> unique c -> client_op op -> op ∉ invoked (history c) ->
  unique (set_thread i (s, Polling op RNil) c <| history := history c ++ [Invoked i op] |>).
Proof.
  intros G U Ho Hnew.
  assert (Hfresh : forall n, ~ proposable (peers_ c) n (Some op)).
  { intros n Hp. destruct (gd_values c G n op Hp) as [->|]; [by apply client_op_not_noop in Ho|done]. }
  assert (Hold : forall j t q o, threads c !! j = Some (t, q) -> current q = Some o -> o <> op).
  { intros j t q o Hj Hc ->. by destruct (gd_busy c G j t q op Hj Hc) as (_ & ?). }
  split; cbn.
  - intros j t q o [(-> & -> & ->)|[_ Hj]]%thread_begins Hc n Hp; [|by eapply (gd_slots c U)].
    injection Hc as <-. by apply Hfresh in Hp.
  - intros j k t q t' q' o [(-> & -> & ->)|[Hj Hj']]%thread_begins [(-> & -> & ->)|[Hk Hk']]%thread_begins Hc Hc'; try done.
    + injection Hc as <-. by destruct (Hold k t' q' op Hk' Hc').
    + injection Hc' as <-. by destruct (Hold j t q op Hj' Hc).
    + by eapply (gd_apart c U).
  - apply (gd_once c U).
  - intros h1 h2 j k a b v Hh Hr. apply split_snoc in Hh as [(-> & <- & [= <- <-])|[h3 Hh]].
    + destruct (gd_returned c G j a v Hr) as (Hco & ops & t & q & Hj & Hn & Hd & Hv). exists ops. split; [done|].
      intros [m Hm]%list_elem_of_lookup_1. apply Hd in Hm.
      apply (Hfresh (Z.of_nat m)). by apply (decisionOf_op _ _ _ (gd_sound c G)).
    + by eapply (gd_order c U).
Qed.

Lemma good_call c i s op :
  good c -> threads c !! i = Some (s, Idle) -> client_op op ->
  good (set_thread i (s, Polling op RNil) c <| history := history c ++ [Invoked i op] |>).
Proof.
  intros [G U] Hi Ho. split; [by apply fine_call|]. unfold distinct. cbn. rewrite invoked_app.
  intros (Hn & Hnew & _)%NoDup_app. apply unique_call; [done|by apply U|done|].
  intros Hin. eapply Hnew; [exact Hin|by left].
Qed.

(** A return that the specification allows. *)
Lemma good_history c i op r :
  good c ->
  (forall v, r = inl v -> client_op op /\ exists ops s pr, threads c !! i = Some (s, pr) /\
     Z.of_nat (length ops) < currSlotNum s /\ decided (peers_ c) (ops ++ [op]) /\
     v = resultOf op (replay ops NewServer)) ->
  good (c <| history := history c ++ [Returned i op r] |>).
Proof.
  intros [G U] Hr.
  assert (Hinv : invoked (history c ++ [Returned i op r]) = invoked (history c)).
  { rewrite invoked_app. apply app_nil_r. }
  split.
  - destruct G as [G1 G2 G3 G5 G7]. split; cbn; try setoid_rewrite Hinv; try assumption.
    intros j o v [H|E%list_elem_of_singleton]%elem_of_app; [by apply G7|].
    injection E as -> -> <-. by apply Hr.
  - intros Hn. change (NoDup (invoked (history c ++ [Returned i op r]))) in Hn. rewrite Hinv in Hn.
    destruct (U Hn) as [U1 U2 U3 U4]. split; cbn; try assumption.
    intros h1 h2 j k a b v Hh Hin. apply split_snoc in Hh as [(_ & _ & [=])|[h3 Hh]]. by eapply U4.
Qed.

Lemma good_error c i s pr op e :
  good c -> threads c !! i = Some (s, pr) -> good (return_ i op s (inr e) c).
Proof.
  intros G Hi. apply (good_history (set_thread i (s, Idle) c)); [|done].
  apply (good_server c i s pr); auto; by left.
Qed.

(** The slot a server reads is decided: it executes what it finds. *)
Lemma good_execute c i s pr op retVal val :
  good c -> threads c !! i = Some (s, pr) -> current pr = Some op ->
  decisionOf (peers_ c) (currSlotNum s) = Some val -> good (execute i op retVal s val c).
Proof.
  intros G Hi Hc Hd. pose proof (gd_sound c (gd_fine c G)) as HS.
  destruct (decisionOf_op _ _ _ HS Hd) as [[d ->] _]. cbn [execute].
  destruct (gd_busy c (gd_fine c G) i s pr op Hi Hc) as (Ho & _).
  pose proof (executeOp_state op d (s <| currSlotNum := currSlotNum s + 1 |>) retVal) as Hst.
  destruct (executeOp op d (s <| currSlotNum := currSlotNum s + 1 |>) retVal) as [s' v] eqn:Ex.
  cbn [fst] in Hst. change (s' = applyOp d s) in Hst. case_decide as Eop.
  - subst d. apply (good_history (set_thread i (s', Idle) c)).
    + apply (good_server c i s pr); [done|done|done|by left|]. right. exists op. split_and!; [done|done|by left].
    + intros v' [= <-]. split; [done|]. destruct (gd_alive c (gd_fine c G) i s pr Hi) as [_ (ops & -> & Hops)].
      exists ops, s', Idle. split_and!.
      * cbn. apply list_lookup_insert_eq. by eapply lookup_lt_Some.
      * rewrite Hst, applyOp_slot, replay_slot. cbn. lia.
      * intros m o [Hm|[Hge Hm]]%lookup_app_Some; [by apply Hops|].
        apply list_lookup_singleton_Some in Hm as [Hm <-]. rewrite <- Hd. cbn. f_equal. rewrite replay_slot. cbn. lia.
      * unfold resultOf. rewrite <- (executeOp_result op _ retVal Ho). by rewrite Ex.
  - apply (good_server c i s pr); [done|done|done|by right|]. right. exists d. split_and!; [done|done|right; congruence].
Qed.

(** A server proposes its operation for its slot. *)
Lemma good_propose c i s retVal h op seq S' :
  good c -> threads c !! i = Some (s, Trying op retVal h) ->
  exec (Start i (currSlotNum s) seq (Some op)) (peers_ c) = Some S' ->
  good (c <| peers_ := S' |>).
Proof.
  intros [G U] Hi He. pose proof (gd_sound c G) as HS.
  destruct (gd_busy c G i s _ op Hi eq_refl) as (Ho & Hinv).
  destruct (turn_sound (Start i (currSlotNum s) seq (Some op)) _ _ HS eq_refl He) as [HS' Hl].
  assert (Hp : forall n v, proposable S' n v <-> proposable (peers_ c) n v \/ (n = currSlotNum s /\ v = Some op)).
  { intros n v. rewrite (exec_proposable _ _ _ n v He). split; intros [|H]; auto.
    - destruct H as (? & ? & [= _ <- _ <-]). auto.
    - destruct H as [-> ->]. right. by exists i, seq. }
  split; [apply fine_peers; [done..|]; intros n o [|[-> [= ->]]]%Hp; auto|].
  intros Hd. specialize (U Hd). clear Hd. pose proof (gd_slots c U i s _ op Hi eq_refl) as Hn. split; cbn.
  - intros j t q o Hj Hc. pose proof (gd_slots c U j t q o Hj Hc) as Hn'.
    intros n [H|[-> [= ->]]]%Hp.
    + destruct (Hn' n H). split; [done|]. intros. apply (taken_later (peers_ c)); auto.
    + assert (j = i) as -> by (eapply (gd_apart c U); eauto). simplify_eq. split; [done|lia].
  - apply (gd_apart c U).
  - intros o n n' Hne Hpn%Hp Hpn'%Hp Hlt. apply (taken_later (peers_ c)); [done..|].
    destruct Hpn as [H|[-> E]], Hpn' as [H'|[-> E']]; simplify_eq; [by apply (gd_once c U o n n')|..].
    + by apply Hn.
    + destruct (Hn n' H'). lia.
    + lia.
  - intros h1 h2 j k a b v Hh Hr. destruct (gd_order c U h1 h2 j k a b v Hh Hr) as (ops & Hd & Hb).
    exists ops. split; [by apply (decided_later (peers_ c))|done].
Qed.

(** A peer reads a slot, or its lock is set. *)
Lemma good_touch c i p p' :
  good c -> pxs (peers_ c) !! i = Some p -> (forall n, slotOf p' n = slotOf p n) ->
  good (c <| peers_ := set_peer i p' (peers_ c) |>).
Proof.
  intros G Hp Hs. destruct (touch_sound (peers_ c) i p p' (gd_sound c (gd_fine c G)) Hp Hs). apply good_peers; auto.
Qed.

Lemma good_advance i now c c' : good c -> advance i now c = Some c' -> good c'.
Proof.
  intros G. unfold advance. destruct (threads c !! i) as [[s pr]|] eqn:Hi; [|done]. cbn [mbind option_bind].
  destruct (pxs (peers_ c) !! i) as [p|] eqn:Hp; [|done]. cbn [mbind option_bind].
  destruct (enter_spec (currSlotNum s) p) as (p' & -> & Hsame & _).
  pose proof (good_touch c i p p' G Hp Hsame) as G'.
  set (entered := c <| peers_ := set_peer i p' (peers_ c) |>) in *.
  assert (Hkeep : forall q, q <> Crashed -> current q = current pr -> good (set_thread i (s, q) c)).
  { intros q Hq E. apply (good_server c i s pr); auto. }
  assert (Hkeep' : forall q, q <> Crashed -> current q = current pr -> good (set_thread i (s, q) entered)).
  { intros q Hq E. apply (good_server entered i s pr); auto. }
  destruct pr as [|op v|op v|op v|op v|op v h|op v k|]; try done.
  - destruct (isLocked p); intros [= <-]; [by eapply good_error|by apply Hkeep].
  - destruct (isDecided _) eqn:Hd; intros [= <-]; [|by apply Hkeep'].
    eapply good_execute; [exact G'|exact Hi|done|]. rewrite <- Hsame in Hd |- *.
    apply (decisionOf_decided _ i p'); [by apply gd_sound, gd_fine| |done].
    cbn. apply list_lookup_insert_eq. by eapply lookup_lt_Some.
  - destruct (isLocked p); intros [= <-]; [by eapply good_error|by apply Hkeep].
  - intros [= <-]. by apply Hkeep'.
  - destruct (nextSeqNum _ _ _ _) as [seq| |] eqn:Eq; [|exfalso|done].
    + destruct (exec _ _) as [S'|] eqn:He; [|done]. cbn [mbind option_bind]. intros [= <-].
      pose proof (good_propose c i s v h op seq S' G Hi He) as G1.
      apply (good_server _ i s (Trying op v h) s (Awaiting op v (length (attempts (peers_ c)))) G1); auto.
    + unfold nextSeqNum in Eq. destruct (_ <=? h); [|done]. rewrite (proj2 (Z.eqb_neq _ _)) in Eq; [done|].
      unfold npeers. apply lookup_lt_Some in Hp. lia.
  - destruct (attempts (peers_ c) !! k) as [a|]; [|done]. cbn. destruct (a_phase a); try done;
      try (case_decide; [done|]); intros [= <-]; by apply Hkeep.
Qed.

Lemma good_step x c c' : good c -> step x c = Some c' -> good c'.
Proof.
  intros G. pose proof (gd_sound c (gd_fine c G)) as HS. destruct x as [i op|i now|e|me slot seq|i b]; cbn [step].
  - destruct (threads c !! i) as [[s pr]|] eqn:Hi; [|done]. cbn. destruct pr; try done.
    case_decide; [|done]. intros [= <-]. by apply good_call.
  - by apply good_advance.
  - destruct (_ && _) eqn:Eb; [|done]. apply andb_true_iff in Eb as [Em Eo].
    destruct (exec e (peers_ c)) as [S'|] eqn:He; [|done]. cbn [mbind option_bind]. intros [= <-].
    assert (Ha : admissible e (peers_ c) = true) by (unfold admissible; rewrite Eo; by destruct e).
    destruct (turn_sound e _ _ HS Ha He). apply good_peers; [done..|]. intros n v Hv.
    apply (exec_proposable e _ _ n v He) in Hv as [|(me & seq & ->)]; [by left|done].
  - destruct (exec _ _) as [S'|] eqn:He; [|done]. cbn [mbind option_bind]. intros [= <-].
    destruct (turn_sound (Start me slot seq (Some NoOpValue)) _ _ HS eq_refl He). apply good_peers; [done..|]. intros n v Hv.
    apply (exec_proposable _ _ _ n v He) in Hv as [|(me' & seq' & [= _ _ _ ->])]; [by left|by right].
  - destruct (pxs (peers_ c) !! i) as [p|] eqn:Hp; [|done]. cbn [mbind option_bind]. intros [= <-]. by apply (good_touch c i p).
Qed.

Lemma good_initial S n : initial S -> good (mkConc S (replicate n (NewServer, Idle)) []).
Proof.
  intros HS. pose proof (sound_initial S HS). destruct HS as (_ & Ha & _ & _).
  assert (Hno : forall m v, ~ proposable S m v).
  { intros m v (k & a & E & _). by rewrite Ha in E. }
  assert (Ht : forall i t, replicate n (NewServer, Idle) !! i = Some t -> t = (NewServer, Idle)).
  { by intros i t [-> _]%lookup_replicate. }
  split; [split|intros _; split]; cbn; [done|..].
  - intros i s pr [= -> ->]%Ht. split; [done|]. exists []. split; [done|]. intros m op. by rewrite lookup_nil.
  - by intros i s pr op [= -> ->]%Ht.
  - by intros m op Hv%Hno.
  - by intros i op v Hv%elem_of_nil.
  - by intros i s pr op [= -> ->]%Ht.
  - by intros i j s pr s' pr' op [= -> ->]%Ht.
  - by intros op m m' _ Hv%Hno.
  - intros [|? ?] h2 i j a b v; done.
Qed.

Lemma reachable_good c : reachable c -> good c.
Proof.
  intros (S & n & xs & HS & Hx). assert (G := good_initial S n HS). revert Hx G.
  generalize (mkConc S (replicate n (NewServer, Idle)) []). induction xs as [|x xs IH]; cbn; intros c0; [by intros [= <-]|].
  destruct (step x c0) as [c1|] eqn:E; [|done]. cbn. intros Hx G. apply (IH c1 Hx). by eapply good_step.
Qed.

(** ** The log *)

(** One log that all servers have executed a part of. *)
Lemma common_log S (ts : list (server * progress)) :
  Forall (fun t => executed S t.1) ts ->
  exists log, decided S log /\
    Forall (fun t => exists k, (k <= length log)%nat /\ t.1 = replay (take k log) NewServer) ts.
Proof.
  induction 1 as [|[s pr] ts (ops & E & Hops) _ (log & Hlog & Hall)].
  { exists []. split; [|done]. intros m op. by rewrite lookup_nil. }
  assert (Hpre : forall l l', decided S l -> decided S l' -> (length l <= length l')%nat -> l = take (length l) l').
  { intros l l' Hl Hl' Hlen. apply list_eq_same_length with (length l); [by rewrite length_take; lia|done|].
    intros m x y Hm Hx Hy. rewrite lookup_take_lt in Hy by done. apply Hl in Hx. apply Hl' in Hy. congruence. }
  destruct (decide (length ops <= length log)%nat) as [Hle|Hgt].
  - exists log. split; [done|]. constructor; [|done]. exists (length ops). split; [done|].
    rewrite <- (Hpre ops log); done.
  - exists ops. split; [done|]. constructor.
    + exists (length ops). split; [done|]. by rewrite firstn_all.
    + eapply Forall_impl; [exact Hall|]. intros t (k & Hk & ->). exists k. split; [lia|].
      rewrite (Hpre log ops Hlog Hops) by lia. rewrite take_take. do 2 f_equal. lia.
Qed.

(** An operation of a call is decided for one slot only. *)
Lemma decided_once c op n n' : fine c -> unique c -> client_op op ->
  decisionOf (peers_ c) n = Some (Some op) -> decisionOf (peers_ c) n' = Some (Some op) -> n = n'.
Proof.
  intros G U Ho. assert (Hlt : forall n n', decisionOf (peers_ c) n = Some (Some op) ->
    decisionOf (peers_ c) n' = Some (Some op) -> ~ n < n').
  { intros m m' Hm Hm' Hlt. pose proof (gd_sound c G) as HS.
    destruct (gd_once c U op m m') as (d & Hd & Hne); [by apply client_op_not_noop| | |done|congruence].
    - by apply (decisionOf_op _ _ _ HS).
    - by apply (decisionOf_op _ _ _ HS). }
  intros Hn Hn'. pose proof (Hlt n n' Hn Hn'). pose proof (Hlt n' n Hn' Hn). lia.
Qed.

Lemma fine_returned c log : fine c -> decided (peers_ c) log ->
  (forall i s pr, threads c !! i = Some (s, pr) -> currSlotNum s <= Z.of_nat (length log)) ->
  forall i op v, Returned i op (inl v) ∈ history c -> client_op op /\ exists ops,
    log !! length ops = Some op /\ take (length ops) log = ops /\ v = resultOf op (replay ops NewServer).
Proof.
  intros G Hlog Hlen i op v Hr.
  destruct (gd_returned c G i op v Hr) as (Ho & ops & s & pr & Hi & Hlt & Hd & Hv). split; [done|].
  pose proof (Hlen i s pr Hi).
  assert (Htake : take (length (ops ++ [op])) log = ops ++ [op]).
  { apply list_eq_same_length with (length (ops ++ [op])); [done|rewrite length_take, length_app in *; cbn; lia|].
    intros m x y Hm Hx Hy. rewrite lookup_take_lt in Hx by done. apply Hlog in Hx. apply Hd in Hy. congruence. }
  exists ops. rewrite length_app in Htake. cbn in Htake. split_and!; [| |done].
  - rewrite <- (lookup_take_lt log (length ops + 1)) by lia. by rewrite Htake, list_lookup_middle.
  - rewrite <- (take_app_length ops [op]) at 2. rewrite <- Htake, take_take. f_equal. lia.
Qed.

Lemma fine_explains c log : fine c -> decided (peers_ c) log ->
  (forall i s pr, threads c !! i = Some (s, pr) -> currSlotNum s <= Z.of_nat (length log)) ->
  explains (history c) log.
Proof.
  intros G Hlog Hlen. split.
  - intros i op v Hr. destruct (fine_returned c log G Hlog Hlen i op v Hr) as (_ & ops & Hl & Ht & Hv).
    exists (length ops). by rewrite Ht.
  - intros op [m Hm]%list_elem_of_lookup_1. apply Hlog in Hm.
    apply (gd_values c G (Z.of_nat m)). by apply (decisionOf_op _ _ _ (gd_sound c G)).
Qed.

Lemma unique_linearizes c log : fine c -> unique c -> decided (peers_ c) log ->
  (forall i s pr, threads c !! i = Some (s, pr) -> currSlotNum s <= Z.of_nat (length log)) ->
  linearizes (history c) log.
Proof.
  intros G U Hlog Hlen. split; [by apply fine_explains|..].
  - intros m m' op Ho Hm Hm'. apply Hlog in Hm, Hm'. pose proof (decided_once c op _ _ G U Ho Hm Hm'). lia.
  - intros h1 h2 i j a b v m m' Hh Hr Hm Hm'. apply Hlog in Hm, Hm'.
    destruct (gd_order c U h1 h2 i j a b v Hh Hr) as (ops & Hd & Hb).
    assert (Ha : client_op a).
    { destruct (fine_returned c log G Hlog Hlen i a v) as [? _]; [|done]. rewrite Hh. apply elem_of_app. by left. }
    assert (Hpos : decisionOf (peers_ c) (Z.of_nat (length ops)) = Some (Some a)).
    { apply Hd. by rewrite list_lookup_middle. }
    pose proof (decided_once c a _ _ G U Ha Hm Hpos) as E.
    destruct (decide (m < m')%nat) as [|Hge]; [done|]. exfalso. apply Hb.
    destruct (lookup_lt_is_Some_2 (ops ++ [a]) m') as [d Hd']; [rewrite length_app; cbn; lia|].
    pose proof (Hd m' d Hd') as Hd2. rewrite Hm' in Hd2. injection Hd2 as ->. by eapply list_elem_of_lookup_2.
Qed.

(** ** Concrete runs *)

(** Two servers and three peers. *)
Definition demo_start : conc := mkConc peers0 (replicate 2 (NewServer, Idle)) [].
Definition opA : PaxosValue := demo_add 1 2.
Definition opB : PaxosValue := demo_reserve 2 "ann".
Definition turns (i : nat) (now : Z) (n : nat) : list action := repeat (Advance i now) n.

Lemma demo_conc_reachable xs c : steps xs demo_start = Some c -> reachable c.
Proof. intros E. exists peers0, 2%nat, xs. split; [exact peers0_initial|exact E]. Qed.

(** Two clients ask two servers for a seat for ann at the same reading of the
    clock; the second server finds the operation of the first decided. *)
Definition demo_equal : list action :=
  [Call 0 opA] ++ turns 0 1 5 ++ (Message <$> demo_round 0) ++ turns 0 3 3 ++ [Call 0 opB; Call 1 opB]
  ++ turns 0 4 5 ++ (Message <$> demo_round 1) ++ turns 0 5 3 ++ turns 1 6 4.

Definition once_for_two (c : conc) : Prop :=
  history c = [Invoked 0 opA; Returned 0 opA (inl (RBool true)); Invoked 0 opB; Invoked 1 opB;
               Returned 0 opB (inl (RBool true)); Returned 1 opB (inl (RBool true))] /\
  threads c = replicate 2 (replay [opA; opB] NewServer, Idle) /\ sold ("CA1", june1) (replay [opA; opB] NewServer) = 1.

Lemma equal_calls_merge : exists c, reachable c /\ once_for_two c.
Proof.
  destruct (steps demo_equal demo_start) as [c|] eqn:E; [|vm_compute in E; discriminate E].
  exists c. split; [by eapply demo_conc_reachable|]. vm_compute in E. injection E as <-.
  split_and!; vm_compute; reflexivity.
Qed.

(** ** Properties *)

(** C4: the servers agree on one log, and the flight service is linearizable as
    long as no two calls are equal.  Any number of servers, each bound to its
    Paxos peer, serve any calls, overlapping in any way, while the messages of
    all proposals are lost, delayed and interleaved, clocks say anything, the
    membership tool fills slots and locks and unlocks peers, all short of a stale
    Accept.  No server crashes.  There is one log of operations, each decided by
    the peers for its slot, such that every server's state is the execution of a
    prefix of it, every result a call returned is the one its operation has at a
    place in the log, and nothing is executed that was not called but no-ops.
    When no two calls carry equal operations, no call is executed twice, and a
    call that began after another had returned a result comes after it.  Two
    calls that are equal, the clock included, can share one place: both report
    that they have reserved a seat, and one seat is sold. *)
Theorem flight_service_linearizable :
  (forall c, reachable c ->
    (forall i s pr, threads c !! i = Some (s, pr) -> pr <> Crashed) /\
    exists log, decided (peers_ c) log /\ explains (history c) log /\
      (forall i s pr, threads c !! i = Some (s, pr) -> exists k, s = replay (take k log) NewServer) /\
      (NoDup (invoked (history c)) -> linearizes (history c) log)) /\
  exists c, reachable c /\ once_for_two c.
Proof.
  split; [|exact equal_calls_merge]. intros c [G U]%reachable_good.
  split; [intros i s pr Hi; apply (gd_alive c G i s pr Hi)|].
  destruct (common_log (peers_ c) (threads c)) as (log & Hlog & Hall).
  { apply Forall_lookup. intros i [s pr] Hi. apply (gd_alive c G i s pr Hi). }
  rewrite Forall_lookup in Hall. exists log.
  assert (Hlen : forall i s pr, threads c !! i = Some (s, pr) -> currSlotNum s <= Z.of_nat (length log)).
  { intros i s pr Hi. destruct (Hall i _ Hi) as (k & Hk & E). cbn in E. subst s.
    rewrite replay_slot, length_take. cbn. lia. }
  split; [done|]. split; [by apply fine_explains|]. split.
  - intros i s pr Hi. destruct (Hall i _ Hi) as (k & _ & E). by exists k.
  - intros Hn. apply unique_linearizes; [done|by apply U|done..].
Qed.

(** Both calls want slot 0, the first server's attempt gets it, the second's
    carries the same value, and the second server goes on to slot 1. *)
Definition demo_overlap : list action :=
  [Call 0 opA; Call 1 opB] ++ turns 0 1 5 ++ turns 1 2 5 ++ (Message <$> demo_round 0) ++ (Message <$> demo_round 1)
  ++ turns 0 3 3 ++ turns 1 4 8 ++ (Message <$> demo_round 2) ++ turns 1 5 3.

Lemma demo_overlap_history :
  history <$> steps demo_overlap demo_start =
    Some [Invoked 0 opA; Invoked 1 opB; Returned 0 opA (inl (RBool true)); Returned 1 opB (inl (RBool true))].
Proof. vm_compute. reflexivity. Qed.

Lemma flight_service_linearizable_witness :
  exists c log m m', steps demo_overlap demo_start = Some c /\ decided (peers_ c) log /\
    log !! m = Some opA /\ RBool true = resultOf opA (replay (take m log) NewServer) /\
    log !! m' = Some opB /\ RBool true = resultOf opB (replay (take m' log) NewServer).
Proof.
  pose proof demo_overlap_history as Hh. destruct (steps demo_overlap demo_start) as [c|] eqn:E; [|discriminate Hh].
  injection Hh as Hh.
  destruct (proj1 flight_service_linearizable c (demo_conc_reachable _ c E)) as (_ & log & Hd & _ & _ & Hl).
  rewrite Hh in Hl. specialize (Hl ltac:(apply (bool_decide_eq_true_1 _); vm_compute; reflexivity)).
  destruct (ex_result _ _ (lz_explains _ _ Hl) 0%nat opA (RBool true)) as (m & Hm & Hr); [do 2 right; left|].
  destruct (ex_result _ _ (lz_explains _ _ Hl) 1%nat opB (RBool true)) as (m' & Hm' & Hr'); [do 3 right; left|].
  exists c, log, m, m'. split; [reflexivity|]. split; [exact Hd|]. split; [exact Hm|]. split; [exact Hr|].
  split; [exact Hm'|exact Hr'].
Defined.

(** The tool locks the peer after the server's proposal has been decided. *)
Definition demo_locked : list action :=
  [Call 0 opA] ++ turns 0 1 5 ++ (Message <$> demo_round 0) ++ [Advance 0 2; Lock 0 true; Advance 0 3; Lock 0 false]
  ++ [Call 1 opB] ++ turns 1 4 7 ++ (Message <$> demo_round 1) ++ turns 1 5 3.

(** C13: a call that returns an error may have been executed.  Where [Start] or
    [Status] refuses because the membership tool has locked the peer, the server
    returns the error and says that the operation should not have been executed;
    but [Status] is asked again after a round of Paxos that may have decided the
    operation.  In a reachable state a flight has been added, at slot 0 of the
    log, though its call returned the error, and another user's reservation on
    it has succeeded. *)
Theorem error_after_execution :
  exists c, reachable c /\
    history c = [Invoked 0 opA; Returned 0 opA (inr maintenance); Invoked 1 opB; Returned 1 opB (inl (RBool true))] /\
    decided (peers_ c) [opA; opB].
Proof.
  destruct (steps demo_locked demo_start) as [c|] eqn:E; [|vm_compute in E; discriminate E].
  exists c. split; [by eapply demo_conc_reachable|]. vm_compute in E. injection E as <-. split; [reflexivity|].
  intros [|[|m]] op; cbn [lookup list_lookup]; [intros [= <-]; vm_compute; reflexivity..|done].
Qed.

End FlightConcurrent.
