(* ===== verification/FlightClients.v ===== *)
(** * FlightClients: the customer's and the airline's client

    [p3/.../client/client_impl.go] and [airlineadmin/airlineadmin_impl.go]:
    parse the arguments, call the server, read the reply.

    Dates are parsed with [Calendar] of [GoTime].

    - [Module ServerRpcApi]: the server as its clients see it, a class of calls
      ([RemoteServer] of [serverrpc/rpc.go]) with the handlers of
      [FlightServer] as an instance ([Wrap]).
    - [Module FlightClient], [Module Airlineadmin]: the methods, against that
      class.
    - [Module FlightSystem]: what the methods report when the server answers,
      in terms of the replicated log. *)
From Stdlib Require Import Strings.Byte.
From S2P Require Import Prelude GoJson GoTime PaxosRpc Paxos FlightServer.
Open Scope Z_scope.

(** The layout of both packages. *)
Definition shortForm : string := "2006.1.2".

(** ** The server as its clients see it *)

(** [RemoteServer] of [serverrpc/rpc.go], behind [net/rpc]: a call changes the
    world and gives the reply or an error.  The methods below are written
    against this interface; a real connection, which may also fail before or
    after the handler has run, is one more instance. *)
Module ServerRpcApi.
Import ServerRpc FlightServer.

Class RemoteServer (W : Type) := {
  call_MyReservation : MyReservationArgs -> W -> outcome (W * (MyReservationReply + string));
  call_CheckTickets : CheckTicketsArgs -> W -> outcome (W * (CheckTicketsReply + string));
  call_ReserveTicket : ReserveTicketArgs -> W -> outcome (W * (ReserveTicketReply + string));
  call_AddFlight : AddFlightArgs -> W -> outcome (W * (AddFlightReply + string));
  call_CancelFlight : CancelFlightArgs -> W -> outcome (W * (CancelFlightReply + string));
  call_EditFlight : EditFlightArgs -> W -> outcome (W * (EditFlightReply + string)) }.

(** A handler of [FlightServer] as a call. *)
Definition handle {W A R : Type} (rpc : A -> server -> W -> outcome (server * W * (R + string)))
    (args : A) (c : server * W) : outcome ((server * W) * (R + string)) :=
  rpc args c.1 c.2.

(** The server, its clock at [now]: every method passed through. *)
Definition Wrap {W : Type} `{PaxosService W} (me fuel tries : nat) (now : Time)
  : RemoteServer (server * W) := {|
  call_MyReservation := handle (rpc_MyReservation me fuel tries now);
  call_CheckTickets := handle (rpc_CheckTickets me fuel tries now);
  call_ReserveTicket := handle (rpc_ReserveTicket me fuel tries now);
  call_AddFlight := handle (rpc_AddFlight me fuel tries now);
  call_CancelFlight := handle (rpc_CancelFlight me fuel tries now);
  call_EditFlight := handle (rpc_EditFlight me fuel tries now) |}.

(** What a method returns as its error. *)
Inductive error :=
  | BadDate (value : string)
  | CallError (e : string)
  | New (msg : string).

(** What [select] in the two constructors sees first: the dial's result or the
    two seconds' timer. *)
Inductive dial := Dialed (err : option string) | Elapsed.

Definition dialError (ev : dial) : option error :=
  match ev with
  | Dialed (Some err) => Some (CallError err)
  | Dialed None => None
  | Elapsed => Some (New "Client Dial tcp timeout")
  end.

End ServerRpcApi.

(** ** The customer's client *)

Module FlightClient.
Import ServerRpc ServerRpcApi Calendar.

Definition NewClient (ev : dial) : option error := dialError ev.

Definition noSeat (flightId date : string) : string :=
  "Sorry, there is not tickets available for flight " ++ flightId ++ " on " ++ date.

Section methods.
Context {W : Type} `{RemoteServer W}.

Definition MyReservation (username : string) (w : W) : outcome (W * (list FlightInfo + error)) :=
  '(w, r) ← call_MyReservation (mkMyReservationArgs username) w;
  Ret (w, match r with inr err => inr (CallError err) | inl reply => inl (mr_Flights reply) end).

Definition CheckTickets (flightId startDate endDate : string) (w : W)
  : outcome (W * (list FlightInfo + error)) :=
  match parse startDate, parse endDate with
  | None, _ => Ret (w, inr (BadDate startDate))
  | Some _, None => Ret (w, inr (BadDate endDate))
  | Some starttime, Some endtime =>
      '(w, r) ← call_CheckTickets (mkCheckTicketsArgs flightId starttime endtime) w;
      Ret (w, match r with inr err => inr (CallError err) | inl reply => inl (ct_Flights reply) end)
  end.

Definition ReserveTicket (username flightId date : string) (w : W) : outcome (W * option error) :=
  match parse date with
  | None => Ret (w, Some (BadDate date))
  | Some datetime =>
      '(w, r) ← call_ReserveTicket (mkReserveTicketArgs username flightId datetime) w;
      Ret (w, match r with
              | inr err => Some (CallError err)
              | inl reply =>
                  if rt_Status reply =? Ok then None
                  else Some (New (noSeat flightId date))
              end)
  end.
End methods.
End FlightClient.

(** ** The airline's client *)

Module Airlineadmin.
Import Json ServerRpc ServerRpcApi Calendar.

(** [os.Exit] ends the program from inside a method. *)
Inductive ending := Returned (err : option error) | Exited (code : Z).

Definition NewAirlineadmin (ev : dial) : option error := dialError ev.

Definition alreadyAdded : string :=
  "Sorry, add flight error, you add a flight that you already added".
Definition noFlightToCancel : string :=
  "Sorry, cancel flight error, you cancel a flight that does not exist".
Definition noFlightToEdit : string :=
  "Sorry, edit flight error, you edit a flight that does not exist".

Section methods.
Context {W : Type} `{RemoteServer W}.

Definition AddFlight (flightId date number : string) (w : W) : outcome (W * ending) :=
  match parse date with
  | None => Ret (w, Returned (Some (BadDate date)))
  | Some datetime =>
      match parseInt (lit number) with
      | None => Ret (w, Exited 2)
      | Some num =>
          '(w, r) ← call_AddFlight (mkAddFlightArgs flightId datetime num) w;
          Ret (w, Returned (match r with
            | inr err => Some (CallError err)
            | inl reply =>
                if af_Status reply =? Ok then None
                else Some (New alreadyAdded)
            end))
      end
  end.

Definition CancelFlight (flightId date : string) (w : W) : outcome (W * ending) :=
  match parse date with
  | None => Ret (w, Returned (Some (BadDate date)))
  | Some datetime =>
      '(w, r) ← call_CancelFlight (mkCancelFlightArgs flightId datetime) w;
      Ret (w, Returned (match r with
        | inr err => Some (CallError err)
        | inl reply =>
            if cf_Status reply =? Ok then None
            else Some (New noFlightToCancel)
        end))
  end.

Definition EditFlight (flightId date number : string) (w : W) : outcome (W * ending) :=
  match parse date with
  | None => Ret (w, Returned (Some (BadDate date)))
  | Some datetime =>
      match parseInt (lit number) with
      | None => Ret (w, Exited 2)
      | Some num =>
          '(w, r) ← call_EditFlight (mkEditFlightArgs flightId datetime num) w;
          Ret (w, Returned (match r with
            | inr err => Some (CallError err)
            | inl reply =>
                if ef_Status reply =? Ok then None
                else Some (New noFlightToEdit)
            end))
      end
  end.
End methods.
End Airlineadmin.

(** ** What the answers mean *)

Module FlightSystem.
Import Json Calendar ServerRpc ServerRpcApi FlightServer.

Section answers.
Context {W : Type} `{PaxosService W} (me fuel tries : nat) (now : Time).

(** The log a returned call has seen: [ops], then its own operation. *)
Record served (op : PaxosValue) (c c' : server * W) (ops : list PaxosValue) : Prop := {
  sv_first : op ∉ ops;
  sv_log : decisions c'.2 (currSlotNum c.1) (ops ++ [op]);
  sv_state : c'.1 = replay (ops ++ [op]) c.1 }.

Lemma call_served op s w s' w' v : client_op op ->
  addPaxosLogAndUpdateState me fuel tries op s w = Ret (s', w', inl v) ->
  exists ops, served op (s, w) (s', w') ops /\ v = resultOf op (replay ops s).
Proof.
  intros Hc E. destruct (catchUp_result _ _ _ _ _ _ _ _ _ _ Hc E) as (ops & Hn & Hd & Hs & Hv).
  by exists ops.
Qed.

(** What a call that changes the flights answers: an error of the call, or
    [None] exactly when [ok] holds of the flight's entry at the operation's
    place in the log. *)
Definition answers (op : PaxosValue) (ok : option Z -> bool) (msg : string) (c c' : server * W)
    (e : option error) : Prop :=
  (exists m, e = Some (CallError m)) \/
  exists ops, served op c c' ops /\
    e = if ok (flightStatus (replay ops c.1) !! (FlightId op, StartDate op)) then None
        else Some (New msg).

Definition has_seat (n : option Z) : bool := match n with Some k => 0 <? k | None => false end.
Definition exists_flight (n : option Z) : bool := match n with Some _ => true | None => false end.

Lemma reserve_result op s : Type_ op = ReserveTicket ->
  resultOf op s = RBool (has_seat (flightStatus s !! (FlightId op, StartDate op))).
Proof.
  intros Ht. unfold resultOf, executeOp. rewrite Ht. cbn -[reserveTicketHelper].
  unfold reserveTicketHelper, has_seat. cbn. destruct (flightStatus s !! _) as [k|]; [|done].
  by destruct (0 <? k).
Qed.

Lemma add_result op s : Type_ op = AddFlight ->
  resultOf op s = RBool (negb (exists_flight (flightStatus s !! (FlightId op, StartDate op)))).
Proof.
  intros Ht. unfold resultOf, executeOp. rewrite Ht. cbn -[addFlightHelper].
  unfold addFlightHelper. cbn. by destruct (flightStatus s !! _).
Qed.

Lemma cancel_result op s : Type_ op = CancelFlight ->
  resultOf op s = RBool (exists_flight (flightStatus s !! (FlightId op, StartDate op))).
Proof.
  intros Ht. unfold resultOf, executeOp. rewrite Ht. cbn -[cancelFlightHelper].
  unfold cancelFlightHelper. cbn. by destruct (flightStatus s !! _).
Qed.

Lemma edit_result op s : Type_ op = EditFlight ->
  resultOf op s = RBool (exists_flight (flightStatus s !! (FlightId op, StartDate op))).
Proof.
  intros Ht. unfold resultOf, executeOp. rewrite Ht. cbn -[editFlightHelper].
  unfold editFlightHelper. cbn. by destruct (flightStatus s !! _).
Qed.

(** [run] is a method's call that ends in [answers]; [wrap] is what the method
    makes of the error. *)
Definition reports {E} (op : PaxosValue) (ok : option Z -> bool) (msg : string) (c : server * W)
    (run : outcome ((server * W) * E)) (wrap : option error -> E) : Prop :=
  run <> Panic /\
  forall c' e, run = Ret (c', e) -> exists err, e = wrap err /\ answers op ok msg c c' err.

(** A method that passes the status of the reply on. *)
Lemma reports_bool {R E} (mk : Z -> R) (status : R -> Z) op ok msg s w (wrap : option error -> E) :
  client_op op -> (forall z, status (mk z) = z) ->
  (forall s, resultOf op s = RBool (ok (flightStatus s !! (FlightId op, StartDate op)))) ->
  let rpc :=
    '(s, w, r) ← addPaxosLogAndUpdateState me fuel tries op s w;
    match r with
    | inr err => Ret (s, w, inr err)
    | inl retVal =>
        success ← as_bool retVal;
        Ret (s, w, inl (mk (if success : bool then Ok else Reject)))
    end in
  rpc <> Panic ->
  reports op ok msg (s, w)
    ('(c, r) ← rpc;
     Ret (c, wrap (match r with
                   | inr err => Some (CallError err)
                   | inl reply => if status reply =? Ok then None else Some (New msg)
                   end))) wrap.
Proof.
  intros Hc Hmk Hr rpc Hrpc. split.
  { destruct rpc as [[c r]| |]; [done|by destruct Hrpc|done]. }
  intros c' e H1. subst rpc. bind_inv. destruct x0 as [[s' w'] [v|m]]; bind_inv;
    [|eexists; split; [done|]; left; eauto].
  eexists. split; [done|]. right. rewrite Hmk.
  destruct (call_served _ _ _ _ _ _ Hc E1) as (ops & Hs & ->). exists ops. split; [done|].
  rewrite Hr in E2. cbn in E2. bind_inv. cbn [fst]. by destruct (ok _).
Qed.

(** The dates a query lists. *)
Definition listing (flightId : string) (d1 d2 : date) (s : server) : list FlightInfo :=
  omap (fun k => ticketsOn flightId ((dayNumber d1 + Z.of_nat k) * oneDay) s)
    (seq 0 (Z.to_nat (dayNumber d2 - dayNumber d1 + 1))).

Lemma check_listing f d1 d2 s :
  checkTicketsHelper (mkPaxosValue CheckTickets now "" f (instant d1) (instant d2) 0) s = listing f d1 d2 s.
Proof.
  unfold checkTicketsHelper. cbn [StartDate EndDate FlightId]. rewrite checkDates_spec by done.
  cbn [default]. unfold listing, days, instant.
  replace (dayNumber d2 * oneDay - dayNumber d1 * oneDay) with ((dayNumber d2 - dayNumber d1) * oneDay) by lia.
  rewrite Z.div_mul by done. apply list_omap_ext, Forall_Forall2_diag, Forall_true. intros k. f_equal. lia.
Qed.

Lemma elem_of_listing f d1 d2 s fi : valid d1 -> valid d2 ->
  fi ∈ listing f d1 d2 s <->
  exists d, valid d /\ dayNumber d1 <= dayNumber d <= dayNumber d2 /\ fi_FlightId fi = f /\
    fi_Date fi = instant d /\ 0 < fi_TicketNum fi /\
    flightStatus s !! (f, instant d) = Some (fi_TicketNum fi).
Proof.
  intros H1 H2. unfold listing. rewrite list_elem_of_omap. unfold ticketsOn. split.
  - intros (k & Hk & Ht). apply elem_of_seq in Hk.
    destruct (day_between d1 d2 (dayNumber d1 + Z.of_nat k) H1 H2) as (d & Hd & E); [lia|].
    rewrite <- E in Ht. change (dayNumber d * oneDay) with (instant d) in Ht.
    destruct (flightStatus s !! _) as [n|] eqn:Es; [|done]. destruct (0 <? n) eqn:En; [|done].
    injection Ht as <-. breflect. exists d. cbn. split_and!; auto; lia.
  - intros (d & Hd & Hn & Hf & Hdt & Hpos & Hs). exists (Z.to_nat (dayNumber d - dayNumber d1)). split.
    + apply elem_of_seq. lia.
    + rewrite Z2Nat.id by lia. replace (dayNumber d1 + (dayNumber d - dayNumber d1)) with (dayNumber d) by lia.
      change (dayNumber d * oneDay) with (instant d). rewrite Hs.
      rewrite (proj2 (Z.ltb_lt _ _) Hpos). rewrite <- Hf, <- Hdt. by destruct fi.
Qed.

End answers.

(** ** A service that works

    On the atomic log, a server that is not ahead of the log serves every
    operation: it needs one round of Paxos and as many turns as the log has
    entries it has not executed, and one. *)
Lemma atomic_log_serves me tries op fuel : forall r0 s (w : list PaxosValue),
  (1 <= tries)%nat -> 0 <= currSlotNum s <= Z.of_nat (length w) ->
  Z.of_nat (length w) - currSlotNum s < Z.of_nat fuel ->
  exists s' w' v, catchUp me fuel tries op r0 s w = Ret (s', w', inl v).
Proof.
  induction fuel as [|fuel IH]; intros r0 s w Ht Hs Hf; [lia|]. cbn [catchUp].
  destruct tries as [|tries]; [lia|].
  assert (Hw : exists d w', waitDecided me (S tries) (currSlotNum s) op (svc_Status me (currSlotNum s) w) =
      Ret (w', inl (Some d)) /\
      (d = op \/ currSlotNum s + 1 <= Z.of_nat (length w') /\ length w' = length w)).
  { cbn -[waitDecided]. unfold log_status. rewrite (proj2 (Z.ltb_ge _ _)) by lia.
    destruct (w !! Z.to_nat (currSlotNum s)) as [d|] eqn:E.
    - exists d, w. split; [done|]. right. apply lookup_lt_Some in E. lia.
    - exists op, (w ++ [op]). split; [|by left]. cbn. apply lookup_ge_None in E.
      assert (currSlotNum s = Z.of_nat (length w)) as -> by lia. rewrite Z.eqb_refl.
      unfold log_status. rewrite (proj2 (Z.ltb_ge _ _)) by lia.
      rewrite Nat2Z.id, lookup_app_r, Nat.sub_diag by lia. cbn. by destruct tries. }
  destruct Hw as (d & w' & -> & Hd). cbn.
  match goal with |- context [executeOp op d ?x r0] =>
    pose proof (executeOp_slot op d x r0) as Hslot; destruct (executeOp op d x r0) as [s1 r1] end.
  cbn in Hslot. destruct (decide (op = d)) as [|Hne]; [by eauto|].
  destruct Hd as [->|[Hd1 Hd2]]; [done|]. apply IH; [done|lia|lia].
Qed.

(** ** Properties *)

(** A query on two dates. *)
Lemma CheckTickets_spec {W : Type} `{PaxosService W} me fuel tries now f d1 d2 start end_ s (w : W) c' r :
  FlightClient.CheckTickets (H := Wrap me fuel tries now) f start end_ (s, w) = Ret (c', r) ->
  parseDate start = Some d1 -> parseDate end_ = Some d2 ->
  (exists m, r = inr (CallError m)) \/
  exists ops, served (mkPaxosValue CheckTickets now "" f (instant d1) (instant d2) 0) (s, w) c' ops /\
    r = inl (listing f d1 d2 (replay ops s)).
Proof.
  unfold FlightClient.CheckTickets, parse. intros H1 E1 E2. rewrite E1, E2 in H1.
  cbn in H1. unfold handle, rpc_CheckTickets in H1. cbn in H1. bind_inv.
  destruct x0 as [[s' w'] [v|e]]; bind_inv; [|left; eauto]. right.
  apply call_served in E0 as (ops & Hs & ->); [|split; vm_compute; discriminate].
  unfold resultOf, executeOp in E3. cbn -[checkTicketsHelper] in E3. rewrite decide_True in E3 by done.
  injection E3 as <-. exists ops. split; [done|]. f_equal. by rewrite check_listing.
Qed.

(** C28: [CheckTickets] lists the days of the calendar.  The client refuses a
    text that is not a date, the start first, without a call.  On two dates,
    the call to the server either fails or lists, in order, every date of the
    calendar from the first to the last on which the flight has tickets left
    after the operations the log holds before the query. *)
Theorem check_tickets_lists_dates {W : Type} `{PaxosService W} me fuel tries now f start end_ s (w : W) c' r :
  FlightClient.CheckTickets (H := Wrap me fuel tries now) f start end_ (s, w) = Ret (c', r) ->
  match parseDate start, parseDate end_ with
  | None, _ => c' = (s, w) /\ r = inr (BadDate start)
  | Some _, None => c' = (s, w) /\ r = inr (BadDate end_)
  | Some d1, Some d2 =>
      (exists m, r = inr (CallError m)) \/
      exists ops fs, r = inl fs /\
        served (mkPaxosValue CheckTickets now "" f (instant d1) (instant d2) 0) (s, w) c' ops /\
        fs = listing f d1 d2 (replay ops s) /\
        forall fi, fi ∈ fs <->
          exists d, valid d /\ dayNumber d1 <= dayNumber d <= dayNumber d2 /\ fi_FlightId fi = f /\
            fi_Date fi = instant d /\ 0 < fi_TicketNum fi /\
            flightStatus (replay ops s) !! (f, instant d) = Some (fi_TicketNum fi)
  end.
Proof.
  intros H1. destruct (parseDate start) as [d1|] eqn:E1.
  2: { unfold FlightClient.CheckTickets, parse in H1. rewrite E1 in H1. by injection H1 as <- <-. }
  destruct (parseDate end_) as [d2|] eqn:E2.
  2: { unfold FlightClient.CheckTickets, parse in H1. rewrite E1, E2 in H1. by injection H1 as <- <-. }
  destruct (CheckTickets_spec me fuel tries now f d1 d2 start end_ s w c' r H1 E1 E2) as [|(ops & Hs & ->)]; [by left|].
  right. eexists ops, _. split_and!; [done..|]. intros fi. apply elem_of_listing; by eapply parseDate_valid.
Qed.

Definition demo_log : list PaxosValue := [demo_add 1 2].

Definition demo_check : PaxosValue :=
  mkPaxosValue CheckTickets 5 "" "CA1" (instant (mkDate 2014 5 31)) (instant (mkDate 2014 6 2)) 0.

Lemma demo_check_runs :
  FlightClient.CheckTickets (H := Wrap 0 10 2 5) "CA1" "2014.5.31" "2014.6.02" (NewServer, demo_log) =
    Ret ((replay (demo_log ++ [demo_check]) NewServer, demo_log ++ [demo_check]),
         inl [mkFlightInfo "CA1" (instant (mkDate 2014 6 1)) 2]).
Proof. vm_compute. reflexivity. Qed.

Lemma demo_dates : parseDate "2014.5.31" = Some (mkDate 2014 5 31) /\
  parseDate "2014.6.02" = Some (mkDate 2014 6 2).
Proof. split; vm_compute; reflexivity. Qed.

Lemma check_tickets_lists_dates_witness :
  exists d, valid d /\ dayNumber (mkDate 2014 5 31) <= dayNumber d <= dayNumber (mkDate 2014 6 2) /\
    instant (mkDate 2014 6 1) = instant d.
Proof.
  set (fi := mkFlightInfo "CA1" (instant (mkDate 2014 6 1)) 2).
  assert (Hfi : fi ∈ [fi]) by (by apply list_elem_of_singleton). pose proof (check_tickets_lists_dates 0 10 2 5 _ _ _ _ _ _ _ demo_check_runs) as Hx.
  destruct demo_dates as [E1 E2]. rewrite E1, E2 in Hx.
  destruct Hx as [[m Hm]|(ops & fs & E & _ & _ & Hall)]; [discriminate Hm|].
  injection E as E. rewrite <- E in Hall. destruct (proj1 (Hall fi) Hfi) as (d & Hd & Hb & _ & Hdt & _).
  exists d. split; [exact Hd|]. split; [exact Hb|exact Hdt].
Defined.

Section changing.
Context {W : Type} `{PaxosService W} (me fuel tries : nat) (now : Time) (f date : string) (d : Time).
Context (s : server) (w : W).
Context (Hnil : forall w n, svc_log w n <> Some None) (Hstart : forall i n v w, svc_Start i n v w <> Panic).
Context (Hdate : parse date = Some d).

Lemma ReserveTicket_reports u :
  reports (mkPaxosValue PaxosRpc.ReserveTicket now u f d d 0) has_seat (FlightClient.noSeat f date) (s, w)
    (FlightClient.ReserveTicket (H := Wrap me fuel tries now) u f date (s, w)) id.
Proof using Hnil Hstart Hdate.
  destruct (rpc_handlers_never_panic me fuel tries now s w Hnil Hstart) as (_ & _ & Hr & _).
  unfold FlightClient.ReserveTicket. rewrite Hdate.
  apply (reports_bool me fuel tries mkReserveTicketReply rt_Status _ has_seat (FlightClient.noSeat f date) s w id);
    [done|done|intros; by apply reserve_result|exact (Hr (mkReserveTicketArgs u f d))].
Qed.

Lemma AddFlight_reports num n : parseInt (lit num) = Some n ->
  reports (mkPaxosValue PaxosRpc.AddFlight now "" f d d n) (fun k => negb (exists_flight k))
    Airlineadmin.alreadyAdded (s, w)
    (Airlineadmin.AddFlight (H := Wrap me fuel tries now) f date num (s, w)) Airlineadmin.Returned.
Proof using Hnil Hstart Hdate.
  destruct (rpc_handlers_never_panic me fuel tries now s w Hnil Hstart) as (_ & _ & _ & Ha & _).
  intros Hn. unfold Airlineadmin.AddFlight. rewrite Hdate, Hn.
  apply (reports_bool me fuel tries mkAddFlightReply af_Status _ (fun k => negb (exists_flight k))
    Airlineadmin.alreadyAdded s w Airlineadmin.Returned);
    [done|done|intros; by apply add_result|exact (Ha (mkAddFlightArgs f d n))].
Qed.

Lemma CancelFlight_reports :
  reports (mkPaxosValue PaxosRpc.CancelFlight now "" f d d 0) exists_flight Airlineadmin.noFlightToCancel (s, w)
    (Airlineadmin.CancelFlight (H := Wrap me fuel tries now) f date (s, w)) Airlineadmin.Returned.
Proof using Hnil Hstart Hdate.
  destruct (rpc_handlers_never_panic me fuel tries now s w Hnil Hstart) as (_ & _ & _ & _ & Hc & _).
  unfold Airlineadmin.CancelFlight. rewrite Hdate.
  apply (reports_bool me fuel tries mkCancelFlightReply cf_Status _ exists_flight
    Airlineadmin.noFlightToCancel s w Airlineadmin.Returned);
    [done|done|intros; by apply cancel_result|exact (Hc (mkCancelFlightArgs f d))].
Qed.

Lemma EditFlight_reports num n : parseInt (lit num) = Some n ->
  reports (mkPaxosValue PaxosRpc.EditFlight now "" f d d n) exists_flight Airlineadmin.noFlightToEdit (s, w)
    (Airlineadmin.EditFlight (H := Wrap me fuel tries now) f date num (s, w)) Airlineadmin.Returned.
Proof using Hnil Hstart Hdate.
  destruct (rpc_handlers_never_panic me fuel tries now s w Hnil Hstart) as (_ & _ & _ & _ & _ & He).
  intros Hn. unfold Airlineadmin.EditFlight. rewrite Hdate, Hn.
  apply (reports_bool me fuel tries mkEditFlightReply ef_Status _ exists_flight
    Airlineadmin.noFlightToEdit s w Airlineadmin.Returned);
    [done|done|intros; by apply edit_result|exact (He (mkEditFlightArgs f d n))].
Qed.
End changing.

(** C29: what the calls that change flights report.  Over a Paxos service
    that never decides nil and whose [Start] does not panic, none of them
    panics.  A text that is not a date is refused without a call, and a
    number that is not an [int] ends the airline's program with status 2,
    also without a call.  Otherwise the error is nil exactly when, at the
    operation's place in the log, the flight has a seat left (ReserveTicket),
    does not exist (AddFlight), or exists (CancelFlight, EditFlight), unless
    the call itself failed; the number of tickets may be negative. *)
Theorem changing_calls_report {W : Type} `{PaxosService W} me fuel tries now f date s (w : W) :
  (forall w n, svc_log w n <> Some None) -> (forall i n v w, svc_Start i n v w <> Panic) ->
  let ReserveTicket u := FlightClient.ReserveTicket (H := Wrap me fuel tries now) u f date (s, w) in
  let AddFlight num := Airlineadmin.AddFlight (H := Wrap me fuel tries now) f date num (s, w) in
  let CancelFlight := Airlineadmin.CancelFlight (H := Wrap me fuel tries now) f date (s, w) in
  let EditFlight num := Airlineadmin.EditFlight (H := Wrap me fuel tries now) f date num (s, w) in
  let op t u d n := mkPaxosValue t now u f d d n in
  match parse date with
  | None =>
      (forall u, ReserveTicket u = Ret ((s, w), Some (BadDate date))) /\
      (forall num, AddFlight num = Ret ((s, w), Airlineadmin.Returned (Some (BadDate date)))) /\
      CancelFlight = Ret ((s, w), Airlineadmin.Returned (Some (BadDate date))) /\
      (forall num, EditFlight num = Ret ((s, w), Airlineadmin.Returned (Some (BadDate date))))
  | Some d =>
      (forall u, reports (op PaxosRpc.ReserveTicket u d 0) has_seat (FlightClient.noSeat f date) (s, w)
         (ReserveTicket u) id) /\
      (forall num, match parseInt (lit num) with
         | None => AddFlight num = Ret ((s, w), Airlineadmin.Exited 2)
         | Some n => reports (op PaxosRpc.AddFlight "" d n) (fun k => negb (exists_flight k)) Airlineadmin.alreadyAdded
                       (s, w) (AddFlight num) Airlineadmin.Returned
         end) /\
      reports (op PaxosRpc.CancelFlight "" d 0) exists_flight Airlineadmin.noFlightToCancel (s, w)
        CancelFlight Airlineadmin.Returned /\
      (forall num, match parseInt (lit num) with
         | None => EditFlight num = Ret ((s, w), Airlineadmin.Exited 2)
         | Some n => reports (op PaxosRpc.EditFlight "" d n) exists_flight Airlineadmin.noFlightToEdit
                       (s, w) (EditFlight num) Airlineadmin.Returned
         end)
  end.
Proof.
  intros Hnil Hstart. cbn zeta. destruct (parse date) as [d|] eqn:Ed.
  2: { unfold FlightClient.ReserveTicket, Airlineadmin.AddFlight, Airlineadmin.CancelFlight, Airlineadmin.EditFlight.
       by rewrite Ed. }
  split_and!.
  - intros u. by apply ReserveTicket_reports.
  - intros num. destruct (parseInt (lit num)) as [n|] eqn:En; [by apply AddFlight_reports|].
    unfold Airlineadmin.AddFlight. by rewrite Ed, En.
  - by apply CancelFlight_reports.
  - intros num. destruct (parseInt (lit num)) as [n|] eqn:En; [by apply EditFlight_reports|].
    unfold Airlineadmin.EditFlight. by rewrite Ed, En.
Qed.

Lemma changing_calls_report_witness :
  (exists c, FlightClient.ReserveTicket (H := Wrap 0 10 2 5) "ann" "CA1" "2014.6.1" (NewServer, demo_log)
      = Ret (c, None) /\
    reports (mkPaxosValue PaxosRpc.ReserveTicket 5 "ann" "CA1" june1 june1 0) has_seat
      (FlightClient.noSeat "CA1" "2014.6.1") (NewServer, demo_log) (Ret (c, None)) id) /\
  Airlineadmin.AddFlight (H := Wrap 0 10 2 5) "CA1" "2014.6.1" "ten" (NewServer, demo_log)
    = Ret ((NewServer, demo_log), Airlineadmin.Exited 2).
Proof.
  assert (Hs : forall (i : nat) n v (w : list PaxosValue), svc_Start i n v w <> Panic)
    by (intros i n v w; discriminate).
  pose proof (changing_calls_report 0 10 2 5 "CA1" "2014.6.1" NewServer demo_log
    atomic_log_never_nil Hs) as Hx. cbn zeta in Hx. rewrite parse_short in Hx.
  destruct Hx as (Hr & Ha & _). split; [|exact (Ha "ten")].
  eexists. split; [vm_compute; reflexivity|]. exact (Hr "ann").
Defined.

End FlightSystem.
