(* ===== verification/FlightRunners.v ===== *)
(** * FlightRunners: the command lines of the flight service

    - [Module CustomerRunner] ([p3/.../runners/crunner/crunner.go]) and
      [Module AirlineRunner] ([runners/aadrunner/aadrunner.go]): [main] of the
      customer's and of the airline's program as a function of the arguments,
      with what it prints and its exit status; which lines with too few
      arguments are let through; what is printed, over the handlers of the
      flight server.
    - [Module PaxosRunner] ([runners/padrunner/padrunner.go]): [main] of the
      membership tool, over the calls of [PaxosAdmin]. *)
From Stdlib Require Import Strings.Byte Strings.Ascii.
From S2P Require Import Prelude GoJson GoFlag GoTime PaxosRpc Paxos PaxosAdmin FlightServer FlightClients.
Open Scope Z_scope.

(** ** What a program prints *)

Module FlightPrint.
Import Json ServerRpcApi Calendar.

(** A printed line: a text, an error of a client method, the error of [Atoi] on
    a text, the usage text, or [log.Fatalln] with an error. *)
Inductive line :=
  | Text (s : string)
  | Err (e : error)
  | NotANumber (s : string)
  | UsageText
  | Fatal (msg : string) (e : error).

Definition tab : string := String "009" EmptyString.

(** The date of an instant, in UTC. *)
Definition Date (t : Z) : date := Rfc3339.dateOf (t / oneDay).

(** [Format("2006.1.2")] and [Format("2006.01.02")]. *)
Definition Format (t : Z) : string := formatDate (Date t).
Definition FormatPadded (t : Z) : string :=
  str (Rfc3339.four (year (Date t)) ++ x2e :: Rfc3339.two (month (Date t)) ++ x2e :: Rfc3339.two (day (Date t))).

Lemma Date_instant d : valid d -> Date (instant d) = d.
Proof.
  intros Hd. unfold Date, instant. rewrite Z.div_mul by done. by apply Rfc3339.dateOf_dayNumber.
Qed.

(** Both texts of a date are read back. *)
Lemma parse_Format d : valid d -> parse (Format (instant d)) = Some (instant d).
Proof. intros Hd. unfold Format, parse. by rewrite Date_instant, parseDate_formatDate. Qed.

Lemma parse_FormatPadded d : valid d -> parse (FormatPadded (instant d)) = Some (instant d).
Proof.
  intros Hd. unfold FormatPadded, parse. rewrite Date_instant by done. destruct Hd as (Hy & Hm & Hd).
  pose proof (daysIn_pos (year d) (month d)) as Hb.
  unfold parseDate, Rfc3339.four, lit, str. rewrite String.list_byte_of_string_of_list_byte.
  rewrite getyear_digits by done. cbn -[Z.leb Z.ltb daysIn getnum Rfc3339.two].
  rewrite Rfc3339.getnum_two by lia. cbn -[Z.leb Z.ltb daysIn getnum Rfc3339.two].
  rewrite (proj2 (Z.leb_gt (month d) 0)), (proj2 (Z.ltb_ge 12 (month d))) by lia.
  cbn -[Z.leb Z.ltb daysIn getnum Rfc3339.two].
  rewrite <- (app_nil_r (Rfc3339.two (day d))), Rfc3339.getnum_two by lia.
  cbn -[Z.leb Z.ltb daysIn getnum Rfc3339.two].
  rewrite (proj2 (Z.ltb_ge (day d) 1)), (proj2 (Z.ltb_ge (daysIn (year d) (month d)) (day d))) by lia.
  by destruct d.
Qed.
End FlightPrint.

(** ** The customer's program *)

Module CustomerRunner.
Import Json ServerRpc ServerRpcApi Calendar FlightPrint FlightClient.

Definition cmdlist : list cmdInfo :=
  [mkCmdInfo "myreservation" "Server.MyReservation" 1; mkCmdInfo "check" "Server.CheckTickets" 3;
   mkCmdInfo "reserve" "Server.ReserveTicket" 3].

Definition printflightInfo (args : list string) (flightsInfo : list FlightInfo) (op : string) : list line :=
  if String.eqb op "myreservation" then
    match flightsInfo with
    | [] => [Text ("Sorry user " +:+ Arg 1 args +:+ " has not booked any flight tickets yet.")]
    | _ =>
        Text (Arg 1 args +:+ "'s reserved tickets:") ::
        ((fun f => Text ("flight id: " +:+ fi_FlightId f +:+ tab +:+ "date: " +:+ Format (fi_Date f))) <$> flightsInfo)
    end
  else
    match flightsInfo with
    | [] => [Text ("Sorry there is no available flights between " +:+ Arg 2 args +:+ " and " +:+ Arg 3 args)]
    | _ =>
        Text ("Flights that are available between " +:+ Arg 2 args +:+ " and " +:+ Arg 3 args) ::
        ((fun f => Text ("flight id: " +:+ fi_FlightId f +:+ tab +:+ "date: " +:+ Format (fi_Date f) +:+ tab +:+
                         "tickets remaining: " +:+ Itoa (fi_TicketNum f))) <$> flightsInfo)
    end.

Definition reserved (args : list string) : string :=
  "Successfully reserved one ticket of flight " +:+ Arg 2 args +:+ " on " +:+ Arg 3 args +:+ ", for " +:+ Arg 1 args.

Section main.
Context {W : Type} `{RemoteServer W}.

(** The lines of a query. *)
Definition queried (args : list string) (op : string) (r : list FlightInfo + error) : list line :=
  match r with inr err => [Err err] | inl flightInfo => printflightInfo args flightInfo op end.

(** The switch over the command. *)
Definition run (cmd : string) (args : list string) (w : W) : outcome (W * list line) :=
  if String.eqb cmd "myreservation" then
    '(w, r) ← MyReservation (Arg 1 args) w; Ret (w, queried args "myreservation" r)
  else if String.eqb cmd "check" then
    '(w, r) ← CheckTickets (Arg 1 args) (Arg 2 args) (Arg 3 args) w; Ret (w, queried args "check" r)
  else if String.eqb cmd "reserve" then
    '(w, err) ← ReserveTicket (Arg 1 args) (Arg 2 args) (Arg 3 args) w;
    Ret (w, match err with Some err => [Err err] | None => [Text (reserved args)] end)
  else Ret (w, []).

(** [main]: the lines printed and the exit status; [ev] is what comes of the
    dial. *)
Definition main (ev : dial) (args : list string) (w : W) : outcome (W * (list line * Z)) :=
  let cmd := Arg 0 args in
  match NewClient ev with
  | Some err => Ret (w, ([Fatal "Failed to create Client:" err], 1))
  | None =>
      match commands cmdlist !! cmd with
      | None => Ret (w, ([UsageText], 1))
      | Some ci =>
          if Nat.ltb (NArg args) (nargs ci) then Ret (w, ([UsageText], 1))
          else '(w, lines) ← run cmd args w; Ret (w, (lines, 0))
      end
  end.

(** [nargs] counts the operands, [NArg] also the command: a line that lacks its
    last operand is not refused.  Where that is a date the client refuses the
    empty text, and nothing is asked of the server. *)
Lemma missing_date_let_through u f w :
  main (Dialed None) ["reserve"; u; f] w = Ret (w, ([Err (BadDate "")], 0)) /\
  main (Dialed None) ["check"; f; u] w =
    Ret (w, ([Err (BadDate (match parse u with None => u | Some _ => "" end))], 0)).
Proof.
  unfold main. cbn [Arg nth]. split; look_up_command; [reflexivity|].
  cbn -[parse]. unfold CheckTickets. destruct (parse u); reflexivity.
Qed.

(** A bare [myreservation] asks for the user without a name. *)
Lemma nameless_let_through w :
  main (Dialed None) ["myreservation"] w =
    '(w, r) ← call_MyReservation (mkMyReservationArgs "") w;
    Ret (w, (match r with
             | inr err => [Err (CallError err)]
             | inl reply => printflightInfo ["myreservation"] (mr_Flights reply) "myreservation"
             end, 0)).
Proof.
  unfold main. cbn [Arg nth]. look_up_command. cbn -[call_MyReservation printflightInfo]. unfold MyReservation.
  destruct (call_MyReservation _ w) as [[w' [r|err]]| |]; reflexivity.
Qed.
End main.

(** *** Over the flight server *)
Section system.
Import FlightServer FlightSystem.
Context {W : Type} `{PaxosService W} (me fuel tries : nat) (now : Time).

(** [check] on two dates prints the error of the call, or the days between them
    on which the flight has tickets, and every date it prints is one the other
    commands accept and read as that day. *)
Lemma check_prints f start end_ rest d1 d2 s (w : W) c' out :
  parseDate start = Some d1 -> parseDate end_ = Some d2 ->
  main (H := Wrap me fuel tries now) (Dialed None) ("check" :: f :: start :: end_ :: rest) (s, w) = Ret (c', out) ->
  (exists m, out = ([Err (CallError m)], 0)) \/
  exists ops, served (mkPaxosValue PaxosRpc.CheckTickets now "" f (instant d1) (instant d2) 0) (s, w) c' ops /\
    out = (printflightInfo ("check" :: f :: start :: end_ :: rest) (listing f d1 d2 (replay ops s)) "check", 0) /\
    Forall (fun fi => parse (Format (fi_Date fi)) = Some (fi_Date fi)) (listing f d1 d2 (replay ops s)).
Proof.
  intros E1 E2. unfold main. cbn [Arg nth]. look_up_command. cbn -[FlightClient.CheckTickets queried]. intros E. bind_inv.
  destruct x0 as [c1 r]. bind_inv.
  destruct (CheckTickets_spec me fuel tries now f d1 d2 start end_ s w _ _ E3 E1 E2) as [[m ->]|(ops & Hs & ->)];
    [left; by exists m|right]. exists ops. split; [done|]. split; [done|].
  apply Forall_forall. intros fi (d & Hd & _ & _ & -> & _)%elem_of_listing; [by apply parse_Format|by eapply parseDate_valid..].
Qed.

(** [reserve] prints that it succeeded exactly when the flight has a seat left
    at the reservation's place in the log. *)
Lemma reserve_prints u f date d rest s (w : W) c' out :
  (forall w n, svc_log w n <> Some None) -> (forall i n v w, svc_Start i n v w <> Panic) ->
  parse date = Some d ->
  main (H := Wrap me fuel tries now) (Dialed None) ("reserve" :: u :: f :: date :: rest) (s, w) = Ret (c', out) ->
  (exists m, out = ([Err (CallError m)], 0)) \/
  exists ops, served (mkPaxosValue PaxosRpc.ReserveTicket now u f d d 0) (s, w) c' ops /\
    out = ([if has_seat (flightStatus (replay ops s) !! (f, d))
            then Text (reserved ("reserve" :: u :: f :: date :: rest)) else Err (New (noSeat f date))], 0).
Proof.
  intros Hnil Hstart Ed. unfold main. cbn [Arg nth]. look_up_command. cbn -[FlightClient.ReserveTicket reserved].
  intros E. bind_inv.
  destruct (ReserveTicket_reports me fuel tries now f date d s w Hnil Hstart Ed u) as [_ Hr].
  destruct x0 as [c1 e]. bind_inv.
  destruct (Hr _ _ E1) as (err & -> & [[m ->]|(ops & Hs & ->)]); [left; by exists m|right; exists ops].
  split; [done|]. cbn [FlightId StartDate fst id]. by destruct (has_seat _).
Qed.
End system.
End CustomerRunner.

(** ** The airline's program *)

Module AirlineRunner.
Import Json ServerRpc ServerRpcApi Calendar FlightPrint Airlineadmin.

Definition cmdlist : list cmdInfo :=
  [mkCmdInfo "add" "Server.AddFlight" 3; mkCmdInfo "cancel" "Server.CancelFlight" 2;
   mkCmdInfo "edit" "Server.EditFlight" 3].

Definition tickets (done_ : string) (args : list string) : string :=
  Println [done_; Arg 3 args; "tickets for"; " flight "; Arg 1 args; "on "; Arg 2 args].
Definition canceled (args : list string) : string :=
  Println ["Successfully canceled"; " flight "; Arg 1 args; "on "; Arg 2 args].

(** The lines and the status with which a command ends: a text that is not a
    number ends the program inside the method, which prints the error. *)
Definition finish (success : string) (number : string) (r : ending) : list line * Z :=
  match r with
  | Returned (Some err) => ([Err err], 0)
  | Returned None => ([Text success], 0)
  | Exited code => ([NotANumber number], code)
  end.

Section main.
Context {W : Type} `{RemoteServer W}.

Definition run (cmd : string) (args : list string) (w : W) : outcome (W * (list line * Z)) :=
  if String.eqb cmd "add" then
    '(w, r) ← AddFlight (Arg 1 args) (Arg 2 args) (Arg 3 args) w;
    Ret (w, finish (tickets "Successfully added" args) (Arg 3 args) r)
  else if String.eqb cmd "cancel" then
    '(w, r) ← CancelFlight (Arg 1 args) (Arg 2 args) w;
    Ret (w, finish (canceled args) "" r)
  else if String.eqb cmd "edit" then
    '(w, r) ← EditFlight (Arg 1 args) (Arg 2 args) (Arg 3 args) w;
    Ret (w, finish (tickets "Successfully edited" args) (Arg 3 args) r)
  else Ret (w, ([], 0)).

(** [main]; [peer] is the flag. *)
Definition main (peer : string) (ev : dial) (args : list string) (w : W) : outcome (W * (list line * Z)) :=
  let greeting := Text (Println ["Airlineadmin begin connect to hostport:"; peer]) in
  let cmd := Arg 0 args in
  match NewAirlineadmin ev with
  | Some err => Ret (w, ([greeting; Fatal "Failed to create Client:" err], 1))
  | None =>
      match commands cmdlist !! cmd with
      | None => Ret (w, ([greeting; Text "error bad command"; UsageText], 1))
      | Some ci =>
          if Nat.ltb (NArg args) (nargs ci)
          then Ret (w, ([greeting; Text "error lose argument"; UsageText], 1))
          else '(w, (lines, code)) ← run cmd args w; Ret (w, (greeting :: lines, code))
      end
  end.

(** Here too the last operand may be missing: the empty text is no date and no
    number, and nothing is asked of the server. *)
Lemma missing_operand_let_through peer f d w : is_Some (parse d) ->
  exists greeting,
    main peer (Dialed None) ["add"; f; d] w = Ret (w, ([greeting; NotANumber ""], 2)) /\
    main peer (Dialed None) ["edit"; f; d] w = Ret (w, ([greeting; NotANumber ""], 2)) /\
    main peer (Dialed None) ["cancel"; f] w = Ret (w, ([greeting; Err (BadDate "")], 0)).
Proof.
  intros [t Ht]. eexists. unfold main. cbn [Arg nth].
  split_and!; look_up_command; cbn -[parse Println]; [..|reflexivity]; unfold AddFlight, EditFlight; by rewrite Ht.
Qed.
End main.

(** *** Over the flight server *)
Section system.
Import FlightServer FlightSystem.
Context {W : Type} `{PaxosService W} (me fuel tries : nat) (now : Time).
Context (Hnil : forall w n, svc_log w n <> Some None) (Hstart : forall i n v w, svc_Start i n v w <> Panic).

(** What a command that has reached the server prints: the error of the call,
    or [success] exactly when [ok] holds of the flight at its place in the log. *)
Definition prints (op : PaxosValue) (ok : option Z -> bool) (msg success : string) (c : server * W)
    (run : outcome ((server * W) * (list line * Z))) : Prop :=
  forall c' out, run = Ret (c', out) -> exists greeting,
    (exists m, out = ([greeting; Err (CallError m)], 0)) \/
    exists ops, served op c c' ops /\
      out = ([greeting; if ok (flightStatus (replay ops c.1) !! (FlightId op, StartDate op))
                        then Text success else Err (New msg)], 0).

Lemma reports_prints op ok msg success number greeting c (r : outcome ((server * W) * ending)) :
  reports op ok msg c r Returned ->
  prints op ok msg success c
    ('(w, (lines, code)) ← ('(w, e) ← r; Ret (w, finish success number e)); Ret (w, (greeting :: lines, code))).
Proof.
  intros [_ Hr] c' out E. destruct r as [[c1 e]| |]; [|done..]. cbn in E.
  destruct (Hr c1 e eq_refl) as (err & -> & Ha). exists greeting.
  destruct Ha as [[m ->]|(ops & Hs & ->)]; [left; exists m; by injection E as <- <-|right; exists ops].
  destruct (ok _); injection E as <- <-; by split.
Qed.

Lemma airline_prints peer f date d s (w : W) : parse date = Some d ->
  (forall number n rest, parseInt (lit number) = Some n ->
    let args cmd := cmd :: f :: date :: number :: rest in
    prints (mkPaxosValue PaxosRpc.AddFlight now "" f d d n) (fun k => negb (exists_flight k)) alreadyAdded
      (tickets "Successfully added" (args "add")) (s, w)
      (main (H := Wrap me fuel tries now) peer (Dialed None) (args "add") (s, w)) /\
    prints (mkPaxosValue PaxosRpc.EditFlight now "" f d d n) exists_flight noFlightToEdit
      (tickets "Successfully edited" (args "edit")) (s, w)
      (main (H := Wrap me fuel tries now) peer (Dialed None) (args "edit") (s, w))) /\
  forall rest,
    let args := "cancel" :: f :: date :: rest in
    prints (mkPaxosValue PaxosRpc.CancelFlight now "" f d d 0) exists_flight noFlightToCancel
      (canceled args) (s, w) (main (H := Wrap me fuel tries now) peer (Dialed None) args (s, w)).
Proof using Hnil Hstart.
  intros Hd. split; [intros number n rest Hn; split|intros rest].
  - by apply reports_prints, AddFlight_reports.
  - by apply reports_prints, EditFlight_reports.
  - by apply reports_prints, CancelFlight_reports.
Qed.
End system.
End AirlineRunner.

(** ** The membership tool *)

Module PaxosRunner.
Import FlightPrint Paxos PaxosAdmin.

Definition cmdlist : list cmdInfo :=
  [mkCmdInfo "add" "paxosadmin.AddPeer" 1; mkCmdInfo "show" "paxosadmin.ShowPeers" 1;
   mkCmdInfo "showslot" "paxosadmin.ShowSlot" 1; mkCmdInfo "remove" "paxosadmin.Remove" 1;
   mkCmdInfo "change" "paxosadmin.ChangePeer" 1].

(** The text of a slot's operation; of a no-op there is none. *)
Definition opstring (paxosValue : PaxosValue) : string :=
  let t := Type_ paxosValue in
  if t =? MyReservation then "MyReservation:  username: " +:+ UserName paxosValue
  else if t =? CheckTickets then
    "CheckTickets: flightId:" +:+ FlightId paxosValue +:+ " startDate:" +:+ FormatPadded (StartDate paxosValue)
      +:+ " endDate:" +:+ FormatPadded (EndDate paxosValue)
  else if t =? ReserveTicket then
    "ReserveTicket: username:" +:+ UserName paxosValue +:+ " flightId:" +:+ FlightId paxosValue
      +:+ " date:" +:+ FormatPadded (StartDate paxosValue)
  else if t =? AddFlight then
    "AddFlight:  flightId:" +:+ FlightId paxosValue +:+ " date:" +:+ FormatPadded (StartDate paxosValue)
      +:+ " ticketnumber:" +:+ Itoa (TicketNum paxosValue)
  else if t =? CancelFlight then
    "CancelFlight:  flightId:" +:+ FlightId paxosValue +:+ " date:" +:+ FormatPadded (StartDate paxosValue)
  else if t =? EditFlight then
    "EditFlight:  flightId:" +:+ FlightId paxosValue +:+ " date:" +:+ FormatPadded (StartDate paxosValue)
      +:+ " ticketnumber:" +:+ Itoa (TicketNum paxosValue)
  else "".

(** A slot's lines; a decided slot that holds nil fails the type assertion. *)
Definition printSlot (i : nat) (slot : SlotValue) : outcome (list string) :=
  let header := Println ["slot number:"; Itoa (Z.of_nat i); ";slot decided:"; fmt_bool (IsDecided slot)] in
  if IsDecided slot then paxosValue ← deref (Value slot); Ret [header; Println ["  "; opstring paxosValue]]
  else Ret [header].

Fixpoint printSlots (i : nat) (slotvalues : list SlotValue) : outcome (list string) :=
  match slotvalues with
  | [] => Ret []
  | slot :: slotvalues' => l ← printSlot i slot; l' ← printSlots (S i) slotvalues'; Ret (l ++ l')
  end.

Definition ruler : string := "=======================================================".

Fixpoint printMachines (l : list (string * list SlotValue)) : outcome (list string) :=
  match l with
  | [] => Ret []
  | (peer, slotvalues) :: l' =>
      slots ← printSlots 0 slotvalues; rest ← printMachines l';
      Ret (Println ["machine:"; peer] :: slots ++ ruler :: rest)
  end.

Section main.
Context (fates : nat -> fate) (now : nat -> nat -> Z) (net : nat -> nat -> network) (fuel : nat).
Context (range rangeKeys : gmap string (list string) -> list (string * list string)).
Context (rangeSlots : gmap string (list SlotValue) -> list (string * list SlotValue)).

Definition reportErr (success : string) (err : option string) : list string :=
  match err with Some e => [e] | None => [success] end.

(** The switch over the command; [sleep] only delays. *)
Definition run (cmd : string) (peers : list string) (me : string) : adm (list string) :=
  if String.eqb cmd "change" then
    err ← ChangePeer fates peers me; mret (reportErr "Successfully add a new peer to the old peers" err)
  else if String.eqb cmd "show" then
    '(goodpeers, badpeers) ← ShowPeers fates peers;
    mret ("live peers that are still working:" ::
          ((fun kv => Println [kv.1; fmt_strings kv.2]) <$> range goodpeers) ++
          [Println ["bad peers that we cannot connect to:"; fmt_strings badpeers]])
  else if String.eqb cmd "add" then
    err ← AddPeer fates now net fuel range peers me;
    mret (reportErr "Successfully add a new peer to the old peers" err)
  else if String.eqb cmd "remove" then
    err ← RemovePeer fates now net fuel range rangeKeys peers me;
    mret (reportErr "Successfully remove a peer from the old peers" err)
  else if String.eqb cmd "showslot" then
    r ← ShowSlot fates peers;
    match r with
    | inr err => mret [err]
    | inl allSlotValue => lift (printMachines (rangeSlots allSlotValue))
    end
  else mret [].

(** [main]; [peers] and [me] are the flags. *)
Definition main (peers me : string) (args : list string) : adm (list line * Z) :=
  let greeting := Println ["padmin begin connect to hostport:"; peers] in
  let peers := Split "," peers in
  let cmd := Arg 0 args in
  match commands cmdlist !! cmd with
  | None => mret ([Text greeting; Text "error not found commmand"; UsageText], 1)
  | Some ci =>
      if Nat.ltb (NArg args) (nargs ci)
      then mret ([Text greeting; Text "error lose argument"; UsageText], 1)
      else lines ← run cmd peers me; mret (Text <$> greeting :: lines, 0)
  end.

(** The peers are never none, so the tool's error for that case never shows. *)
Lemma peers_not_empty peers : Split "," peers <> [].
Proof. apply concat_Split. Qed.

(** A known command is never without operands enough. *)
Lemma main_known peers me cmd rest w : cmd ∈ cmdline <$> cmdlist ->
  main peers me (cmd :: rest) w =
    (lines ← run cmd (Split "," peers) me;
     mret (Text <$> Println ["padmin begin connect to hostport:"; peers] :: lines, 0)) w.
Proof.
  intros Hcmd. unfold main. cbn [Arg nth]. set (g := Println _). cbn in Hcmd.
  repeat (apply elem_of_cons in Hcmd as [->|Hcmd]; [look_up_command; cbn [nargs NArg length Nat.ltb Nat.leb]; reflexivity|]).
  by apply elem_of_nil in Hcmd.
Qed.
End main.

(** Slots that hold a value where they are decided print without a crash, with
    a line for each slot and one more for each decided one. *)
Definition holds_values (l : list SlotValue) : Prop := Forall (fun sv => IsDecided sv = true -> is_Some (Value sv)) l.

Lemma printSlots_total l : holds_values l -> forall i, exists out, printSlots i l = Ret out /\
  length out = (length l + length (List.filter IsDecided l))%nat.
Proof.
  induction 1 as [|sv l Hsv Hl IH]; intros i; [by exists []|].
  destruct (IH (S i)) as (out & E & Hlen). cbn [printSlots]. unfold printSlot.
  destruct (IsDecided sv) eqn:Ed.
  - destruct (Hsv eq_refl) as [v ->]. cbn. rewrite E. eexists. split; [done|].
    cbn. rewrite Ed, Hlen. cbn. lia.
  - cbn. rewrite E. eexists. split; [done|]. cbn. by rewrite Ed, Hlen.
Qed.

Lemma printSlots_nil i l sv l' : holds_values l -> IsDecided sv = true -> Value sv = None ->
  printSlots i (l ++ sv :: l') = Panic.
Proof.
  intros Hl Hd Hv. revert i. induction Hl as [|x l Hx Hl IH]; intros i; cbn [app printSlots].
  - unfold printSlot. by rewrite Hd, Hv.
  - unfold printSlot at 1. destruct (IsDecided x); [destruct (Hx eq_refl) as [v ->]|]; cbn; by rewrite IH.
Qed.

(** The dates of an operation are printed as the clients read them. *)
Example opstring_add :
  opstring (mkPaxosValue AddFlight 5 "" "CA1" (16222 * oneDay) (16222 * oneDay) 120)
    = "AddFlight:  flightId:CA1 date:2014.06.01 ticketnumber:120".
Proof. vm_compute. reflexivity. Qed.
End PaxosRunner.
