(* ===== verification/BitcoinMiner.v ===== *)
(** * BitcoinMiner: messages, hash and miner of the mining service
    ([p1/.../bitcoin/message.go], [hash.go], [miner/miner.go])

    [Hash] is the first eight bytes of the SHA-256 digest of the message, a
    blank and the decimal nonce.  SHA-256 and [binary.BigEndian.Uint64] are
    parts of Go's standard library and are written out here as their standards
    define them.  The miner's loop runs over [uint64] nonces; it is a function
    with fuel, and [None] is a loop that is still running.  JSON decoding is a
    parameter of the miner's step, which [BitcoinSystem] instantiates. *)
From S2P Require Import Prelude.
From Stdlib Require Export Strings.Byte.
Open Scope Z_scope.

(** ** SHA-256 (FIPS 180-4) *)
Module Sha256.

Definition w32 (z : Z) : Z := wrap_u 32 z.
Definition rotr (n x : Z) : Z :=
  Z.lor (Z.shiftr x n) (w32 (Z.shiftl x (32 - n))).
Definition not32 (x : Z) : Z := Z.lxor x (2 ^ 32 - 1).

(** The constants of the standard: the first 32 bits of the fractional parts of
    the cube roots of the first 64 primes, and of the square roots of the
    first 8. *)
Definition is_prime (n : Z) : bool := forallb (fun d => negb (n mod d =? 0)) (seqZ 2 (n - 2)).
Definition primes (n : nat) : list Z := firstn n (List.filter is_prime (seqZ 2 400)).

(** The integer cube root, bit by bit from bit [b - 1] down. *)
Fixpoint cbrt (b : nat) (r n : Z) : Z :=
  match b with
  | O => r
  | S b' =>
      let r' := r + 2 ^ Z.of_nat b' in
      cbrt b' (if r' * r' * r' <=? n then r' else r) n
  end.

Definition K : list Z := Eval vm_compute in (fun p => w32 (cbrt 36 0 (p * 2 ^ 96))) <$> primes 64.
Definition H0 : list Z := Eval vm_compute in (fun p => w32 (Z.sqrt (p * 2 ^ 64))) <$> primes 8.

Definition byte_of (z : Z) : byte :=
  match Byte.of_N (Z.to_N (Z.land z 255)) with Some b => b | None => x00 end.
Definition Z_of (b : byte) : Z := Z.of_N (Byte.to_N b).

(** [z] as [n] bytes, the most significant first. *)
Fixpoint be_bytes (n : nat) (z : Z) : list byte :=
  match n with
  | O => []
  | S n' => byte_of (Z.shiftr z (8 * Z.of_nat n')) :: be_bytes n' z
  end.

Definition be_value (l : list byte) : Z := foldl (fun a b => a * 256 + Z_of b) 0 l.

Definition pad (m : list byte) : list byte :=
  let n := Z.of_nat (length m) in
  m ++ [x80] ++ repeat x00 (Z.to_nat ((55 - n) mod 64)) ++ be_bytes 8 (8 * n).

(** Cut into words of four bytes; the length is a multiple of four. *)
Fixpoint words (l : list byte) : list Z :=
  match l with
  | a :: b :: c :: d :: l' => be_value [a; b; c; d] :: words l'
  | _ => []
  end.

(** The message schedule, the newest word first. *)
Fixpoint schedule (n : nat) (ws : list Z) : list Z :=
  match n with
  | O => ws
  | S n' =>
      let w := schedule n' ws in
      let at_ k := nth k w 0 in
      let x := at_ 14%nat in let y := at_ 1%nat in
      let s0 := Z.lxor (Z.lxor (rotr 7 x) (rotr 18 x)) (Z.shiftr x 3) in
      let s1 := Z.lxor (Z.lxor (rotr 17 y) (rotr 19 y)) (Z.shiftr y 10) in
      w32 (at_ 15%nat + s0 + at_ 6%nat + s1) :: w
  end.

Definition round (st : list Z) (kw : Z * Z) : list Z :=
  match st with
  | [a; b; c; d; e; f; g; h] =>
      let S1 := Z.lxor (Z.lxor (rotr 6 e) (rotr 11 e)) (rotr 25 e) in
      let ch := Z.lxor (Z.land e f) (Z.land (not32 e) g) in
      let t1 := h + S1 + ch + kw.1 + kw.2 in
      let S0 := Z.lxor (Z.lxor (rotr 2 a) (rotr 13 a)) (rotr 22 a) in
      let maj := Z.lxor (Z.lxor (Z.land a b) (Z.land a c)) (Z.land b c) in
      [w32 (t1 + S0 + maj); a; b; c; w32 (d + t1); e; f; g]
  | _ => st
  end.

Definition block (st : list Z) (ws : list Z) : list Z :=
  zip_with (fun x y => w32 (x + y)) st
    (foldl round st (zip K (reverse (schedule 48 (reverse ws))))).

(** [n] blocks of sixteen words. *)
Fixpoint blocks (n : nat) (st : list Z) (ws : list Z) : list Z :=
  match n with
  | O => st
  | S n' => blocks n' (block st (firstn 16 ws)) (skipn 16 ws)
  end.

Definition sum (m : list byte) : list byte :=
  let ws := words (pad m) in
  concat (be_bytes 4 <$> blocks (length ws / 16) H0 ws).

(** The standard's first test vector. *)
Example sum_abc :
  be_value (sum [x61; x62; x63]) =
  0xba7816bf8f01cfea414140de5dae2223b00361a396177a9cb410ff61f20015ad.
Proof. vm_compute. reflexivity. Qed.

End Sha256.

(** ** Messages *)
Module Bitcoin.

Definition MsgType := Z.
Definition Join : MsgType := 0.
Definition Request : MsgType := 1.
Definition Result : MsgType := 2.

Record Message := mkMessage {
  Type_ : MsgType;
  Data : string;
  Lower : Z; Upper : Z;
  Hash_ : Z; Nonce : Z }.

#[export] Instance Message_eq_dec : EqDecision Message.
Proof. solve_decision. Defined.

Definition NewRequest (data : string) (lower upper : Z) : Message :=
  mkMessage Request data lower upper 0 0.
Definition NewResult (hash nonce : Z) : Message := mkMessage Result "" 0 0 hash nonce.
Definition NewJoin : Message := mkMessage Join "" 0 0 0 0.

Definition Message_String (m : Message) : string :=
  if Type_ m =? Request then
    "[Request " +:+ Data m +:+ " " +:+ pretty (Lower m) +:+ " " +:+ pretty (Upper m) +:+ "]"
  else if Type_ m =? Result then
    "[Result " +:+ pretty (Hash_ m) +:+ " " +:+ pretty (Nonce m) +:+ "]"
  else if Type_ m =? Join then "[Join]"
  else "".

(** ** The hash *)

(** [fmt.Sprintf] with the format of a string, a blank and a decimal number. *)
Definition sprintf_s_d (msg : string) (nonce : Z) : list byte :=
  String.list_byte_of_string (msg +:+ " " +:+ pretty nonce).

Definition Hash (msg : string) (nonce : Z) : Z :=
  Sha256.be_value (firstn 8 (Sha256.sum (sprintf_s_d msg nonce))).

#[global] Arguments Hash : simpl never.

(** ** The miner *)

(** One loop run at [i] with the results so far; [fuel] bounds its iterations. *)
Fixpoint minHashLoop (fuel : nat) (data : string) (i upper minHash nonce : Z) : option (Z * Z) :=
  if i <=? upper then
    match fuel with
    | O => None
    | S fuel' =>
        let hash := Hash data i in
        let '(minHash, nonce) := if hash <? minHash then (hash, i) else (minHash, nonce) in
        minHashLoop fuel' data (wrap_u 64 (i + 1)) upper minHash nonce
    end
  else Some (minHash, nonce).

Definition calculateMinHash (fuel : nat) (data : string) (lower upper : Z) : option (Z * Z) :=
  minHashLoop fuel data lower upper max_uint64 0.

(** What the loop of [main] does with the result of [lspClient.Read]: leave,
    or send a result and go on. *)
Inductive miner_step := MinerExit | MinerSend (m : Message).

Definition minerMain (fuel : nat) (unmarshal : list byte -> option Message)
    (read : option (list byte)) : option miner_step :=
  match read with
  | None => Some MinerExit
  | Some buf =>
      match unmarshal buf with
      | None => Some MinerExit
      | Some reqMsg =>
          '(hash, nonce) ← calculateMinHash fuel (Data reqMsg) (Lower reqMsg) (Upper reqMsg);
          Some (MinerSend (NewResult hash nonce))
      end
  end.

(** ** Properties *)

Lemma be_value_range l : 0 <= Sha256.be_value l < 256 ^ Z.of_nat (length l).
Proof.
  unfold Sha256.be_value.
  enough (forall a n, 0 <= a < 256 ^ n -> 0 <= n ->
    0 <= foldl (fun a b => a * 256 + Sha256.Z_of b) a l < 256 ^ (n + Z.of_nat (length l))) as Hg.
  { apply (Hg 0 0); lia. }
  induction l as [|b l IH]; intros a n Ha Hn; cbn [foldl length].
  - by rewrite Z.add_0_r.
  - replace (n + Z.of_nat (S (length l))) with ((n + 1) + Z.of_nat (length l)) by lia.
    apply IH; [|lia]. rewrite Z.pow_add_r by lia. pose proof (Byte.to_N_bounded b).
    unfold Sha256.Z_of. lia.
Qed.

Lemma Hash_range data i : 0 <= Hash data i <= max_uint64.
Proof.
  unfold Hash. set (l := firstn _ _).
  assert (length l <= 8)%nat by (unfold l; rewrite length_firstn; lia).
  pose proof (be_value_range l).
  assert (256 ^ Z.of_nat (length l) <= 256 ^ 8) by (apply Z.pow_le_mono_r; lia).
  unfold max_uint64. lia.
Qed.

(** [(h, n)] is the least hash over [[lower, upper]] and where it occurs; a
    range whose hashes are all the greatest [uint64] gives the initial pair. *)
Definition min_over (data : string) (lower upper h n : Z) : Prop :=
  (forall i, lower <= i <= upper -> h <= Hash data i) /\
  ((lower <= n <= upper /\ Hash data n = h) \/ (h = max_uint64 /\ n = 0)).

Lemma min_over_step data lower i h n :
  min_over data lower (i - 1) h n -> lower <= i ->
  let '(h', n') := if Hash data i <? h then (Hash data i, i) else (h, n) in
  min_over data lower i h' n'.
Proof.
  intros [Hmin Hat] Hi.
  destruct (Hash data i <? h) eqn:E; breflect; split.
  - intros j Hj. destruct (decide (j = i)) as [->|]; [lia|].
    specialize (Hmin j). lia.
  - left. lia.
  - intros j Hj. destruct (decide (j = i)) as [->|]; [done|]. apply Hmin. lia.
  - destruct Hat as [[??]|?]; [left; split; [lia|done]|right; done].
Qed.

Lemma minHashLoop_spec data lower upper : upper < max_uint64 -> forall fuel i h n,
  lower <= i -> 0 <= i -> i <= upper + 1 -> (Z.to_nat (upper + 1 - i) <= fuel)%nat ->
  min_over data lower (i - 1) h n ->
  exists h' n', minHashLoop fuel data i upper h n = Some (h', n') /\ min_over data lower upper h' n'.
Proof.
  intros Hup. induction fuel as [|fuel IH]; intros i h n Hl H0 Hi Hf Hm; cbn [minHashLoop];
    destruct (i <=? upper) eqn:E; breflect.
  - lia.
  - replace upper with (i - 1) by lia. eauto.
  - apply min_over_step in Hm; [|done].
    destruct (if _ : bool then _ else _) as [h1 n1].
    unfold max_uint64 in Hup. rewrite wrap_u_small by lia.
    apply IH; [lia..|]. by replace (i + 1 - 1) with i by lia.
  - replace upper with (i - 1) by lia. eauto.
Qed.

Lemma minHashLoop_sound data lower upper : upper < max_uint64 -> forall fuel i h n h' n',
  lower <= i -> 0 <= i -> min_over data lower (i - 1) h n ->
  minHashLoop fuel data i upper h n = Some (h', n') -> upper < lower \/ i <= upper + 1 ->
  min_over data lower upper h' n' \/ upper < lower /\ h' = h /\ n' = n.
Proof.
  intros Hup. induction fuel as [|fuel IH]; intros i h n h' n' Hl H0 Hm; cbn [minHashLoop];
    destruct (i <=? upper) eqn:E; breflect; try done.
  - intros [= -> ->] [?|?]; [by right|]. left. by replace upper with (i - 1) by lia.
  - apply min_over_step in Hm; [|done]. destruct (if _ : bool then _ else _) as [h1 n1].
    unfold max_uint64 in Hup. rewrite wrap_u_small by lia. intros Hr _.
    destruct (IH (i + 1) h1 n1 h' n') as [?|(?&?)]; [lia|lia| |done|lia|by left|lia].
    by replace (i + 1 - 1) with i by lia.
  - intros [= -> ->] [?|?]; [by right|]. left. by replace upper with (i - 1) by lia.
Qed.

Lemma calculateMinHash_sound fuel data lower upper h n :
  (lower <= upper -> 0 <= lower /\ upper < max_uint64) ->
  calculateMinHash fuel data lower upper = Some (h, n) -> min_over data lower upper h n.
Proof.
  intros Hb Hr. destruct (decide (lower <= upper)) as [Hle|]; swap 1 2.
  { unfold calculateMinHash in Hr. destruct fuel; cbn in Hr;
      rewrite (proj2 (Z.leb_gt _ _)) in Hr by lia; injection Hr as <- <-; (split; [lia|by right]). }
  destruct (Hb Hle) as [Hl Hu]. eapply (minHashLoop_sound _ lower) in Hr as [?|(?&->&->)]; try done.
  - split; [lia|by right].
  - split; [lia|by right].
  - lia.
Qed.

Lemma minHashLoop_diverges data fuel : forall i h n,
  i <= max_uint64 -> minHashLoop fuel data i max_uint64 h n = None.
Proof.
  induction fuel as [|fuel IH]; intros i h n Hi; cbn [minHashLoop];
    rewrite (proj2 (Z.leb_le _ _) Hi); [done|].
  destruct (if _ : bool then _ else _) as [h1 n1]. apply IH.
  pose proof (wrap_u_range 64 (i + 1)). unfold max_uint64. lia.
Qed.

(** C40: the miner is exact, unless the range ends at the greatest nonce. For a range of [uint64] nonces below that the loop of [calculateMinHash] ends within one iteration per nonce and returns the least hash over the range together with a nonce of the range that has it (the initial pair when every hash is the greatest [uint64], as over an empty range); when the upper end is the greatest [uint64], the loop counter wraps round and the loop never ends. *)
Theorem miner_exact data lower upper :
  0 <= lower -> upper <= max_uint64 ->
  (upper < max_uint64 ->
   exists h n, calculateMinHash (Z.to_nat (upper + 1 - lower)) data lower upper = Some (h, n) /\
     min_over data lower upper h n) /\
  (upper = max_uint64 -> lower <= upper -> forall fuel, calculateMinHash fuel data lower upper = None).
Proof.
  intros Hl Hu. split.
  - intros Hlt. destruct (decide (lower <= upper + 1)).
    + apply minHashLoop_spec; [done|lia..|]. split; [intros; lia|by right].
    + exists max_uint64, 0. replace (Z.to_nat (upper + 1 - lower)) with O by lia.
      unfold calculateMinHash. cbn. rewrite (proj2 (Z.leb_gt _ _)) by lia.
      split; [done|]. split; [lia|by right].
  - intros -> Hle fuel. by apply minHashLoop_diverges.
Qed.

Lemma miner_exact_witness :
  exists h n, calculateMinHash 3 "msg" 4 6 = Some (h, n) /\ min_over "msg" 4 6 h n.
Proof.
  apply (miner_exact "msg" 4 6); [lia|vm_compute; discriminate|reflexivity].
Defined.

End Bitcoin.
