(* ===== verification/BitcoinJson.v ===== *)
(** * BitcoinJson: the messages of the mining service on the wire

    [json.Marshal] and [json.Unmarshal] of [bitcoin.Message]
    ([p1/.../bitcoin/message.go]), over the grammar of [GoJson].  The one field
    that does not always survive is [Data]: what is not UTF-8 is replaced. *)
From S2P Require Import Prelude GoJson BitcoinMiner.
Open Scope Z_scope.

Module BitcoinCodec.
Import Json Bitcoin.

(** [json.Marshal(msg)]; it cannot fail. *)
Definition Marshal (m : Message) : text :=
  x7b :: member "Type" (appendInt (Type_ m)) ++ comma ++
  member "Data" (quote (bytes (Data m))) ++ comma ++
  member "Lower" (appendUint (Lower m)) ++ comma ++
  member "Upper" (appendUint (Upper m)) ++ comma ++
  member "Hash" (appendUint (Hash_ m)) ++ comma ++
  member "Nonce" (appendUint (Nonce m)) ++ [x7d].

(** Storing a value in a field; [null] leaves it as it is, and [None] is an
    error of [Unmarshal]. *)
Definition setInt (v : json) (old : Z) : option Z :=
  match v with JNull => Some old | JNum l => parseInt l | _ => None end.
Definition setUint (v : json) (old : Z) : option Z :=
  match v with JNull => Some old | JNum l => parseUint l | _ => None end.
Definition setField (m : Message) (k : text) (v : json) : option Message :=
  let '(mkMessage t d l u h n) := m in
  if key_is "Type" k then t ← setInt v t; Some (mkMessage t d l u h n)
  else if key_is "Data" k then d ← setString v d; Some (mkMessage t d l u h n)
  else if key_is "Lower" k then l ← setUint v l; Some (mkMessage t d l u h n)
  else if key_is "Upper" k then u ← setUint v u; Some (mkMessage t d l u h n)
  else if key_is "Hash" k then h ← setUint v h; Some (mkMessage t d l u h n)
  else if key_is "Nonce" k then n ← setUint v n; Some (mkMessage t d l u h n)
  else Some m.

Fixpoint setFields (m : Message) (ms : list (text * json)) : option Message :=
  match ms with
  | [] => Some m
  | (k, v) :: ms' => m' ← setField m k v; setFields m' ms'
  end.

Definition zero : Message := mkMessage 0 "" 0 0 0 0.

(** [json.Unmarshal(l, &bitcoin.Message{})]; [None] is an error. *)
Definition Unmarshal (l : text) : option Message :=
  v ← parse l;
  match v with
  | JObj ms => setFields zero ms
  | JNull => Some zero
  | _ => None
  end.

(** The numbers of a message are an [int] and [uint64]s. *)
Definition uint64 (n : Z) : Prop := 0 <= n <= max_uint64.
Definition encodable (m : Message) : Prop :=
  min_int64 <= Type_ m <= max_int64 /\ uint64 (Lower m) /\ uint64 (Upper m) /\ uint64 (Hash_ m) /\
  uint64 (Nonce m).

#[export] Instance encodable_dec m : Decision (encodable m).
Proof. unfold encodable, uint64. apply _. Defined.

Definition received (m : Message) : Message :=
  mkMessage (Type_ m) (coerceS (Data m)) (Lower m) (Upper m) (Hash_ m) (Nonce m).

(** ** Round trip *)

Lemma value_uint fuel n r : uint64 n -> ends_number r ->
  value (S fuel) (appendUint n ++ r) = Some (JNum (appendUint n), r).
Proof. intros Hn. apply (value_numeral fuel n). by apply parseUint_appendUint. Qed.

(** The members of a marshalled message. *)
Definition fields (m : Message) : list (text * json) :=
  [(lit "Type", JNum (appendInt (Type_ m))); (lit "Data", JStr (coerce 0 (bytes (Data m))));
   (lit "Lower", JNum (appendUint (Lower m))); (lit "Upper", JNum (appendUint (Upper m)));
   (lit "Hash", JNum (appendUint (Hash_ m))); (lit "Nonce", JNum (appendUint (Nonce m)))].

Lemma value_encoded fuel m : encodable m ->
  value (8 + fuel) (Marshal m) = Some (JObj (fields m), []).
Proof.
  intros (Ht & Hl & Hu & Hh & Hn). unfold Marshal. cbn [Nat.add]. rewrite value_S.
  cbn [skip_ws is_space]. rewrite first_token_brace. cbn iota beta.
  assert (Hq : forall k v r, eat x7d (skip_ws (member k v ++ r)) = None) by done. rewrite Hq.
  erewrite !members_more, members_last;
    [reflexivity|done|by apply value_uint
    |done|by apply value_uint|done|by apply value_uint|done|by apply value_uint
    |done|apply value_quote|done|by apply value_number].
Qed.

Lemma parse_encoded m : encodable m -> parse (Marshal m) = Some (JObj (fields m)).
Proof.
  intros Hm. unfold parse.
  rewrite <- (parse_fuel_enough _ (8 + (2 * length (Marshal m) + 2))) by lia.
  by rewrite value_encoded.
Qed.

Lemma setFields_fields m : encodable m -> setFields zero (fields m) = Some (received m).
Proof.
  intros (Ht & Hl & Hu & Hh & Hn). unfold fields, zero.
  destruct (parseUint_appendUint _ Hl) as [El _], (parseUint_appendUint _ Hu) as [Eu _],
    (parseUint_appendUint _ Hh) as [Eh _], (parseUint_appendUint _ Hn) as [En _].
  pose proof (parseInt_appendInt _ Ht) as Et. unfold received, coerceS.
  revert El Eu Eh En Et. generalize (appendUint (Lower m)) (appendUint (Upper m)) (appendUint (Hash_ m))
    (appendUint (Nonce m)) (appendInt (Type_ m)). intros a b c d e El Eu Eh En Et.
  repeat (cbn [setFields]; unfold setField at 1; keys; cbn [setInt setUint setString];
    rewrite ?Et, ?El, ?Eu, ?Eh, ?En; cbn [mbind option_bind]). done.
Qed.

Lemma decode_encode m : encodable m -> Unmarshal (Marshal m) = Some (received m).
Proof.
  intros Hm. unfold Unmarshal. rewrite parse_encoded by done. cbn [mbind option_bind].
  by apply setFields_fields.
Qed.

Lemma received_idemp m : received (received m) = received m.
Proof. unfold received. cbn [Type_ Data Lower Upper Hash_ Nonce]. by rewrite coerceS_idemp. Qed.

End BitcoinCodec.
