(* ===== verification/BitcoinServer.v ===== *)
(** * BitcoinServer: the scheduler of the mining service
    ([p1/.../bitcoin/server/server.go])

    The package variables are the record [server]; the job queue is the list
    of its elements.  [Module MiningServer] translates every function and the
    body of [main]'s loop.  [lspServer.Write] may refuse a message: [ok id] is
    the outcome of the writes of one loop iteration to connection [id] (no
    function writes twice to one connection).  [range] is the order of a loop
    over a Go map.  JSON decoding is the parameter [unmarshal], which
    [BitcoinSystem] instantiates. *)
From S2P Require Import Prelude BitcoinMiner.
Open Scope Z_scope.

Module MiningServer.
Import Bitcoin.

Definition MinerWorkloadThreshold : Z := 10000.

Record workUnit := mkWork { clientWorkFor : Z; workMsg : Message }.

Record clientStatus := mkStatus { notFinishedJob : Z; minHash : Z; nonce : Z }.

#[export] Instance eta_clientStatus : EtaRecord clientStatus := fun c =>
  mkStatus (notFinishedJob c) (minHash c) (nonce c).

(** A miner without work has the nil pointer [None]. *)
Record server := mkServer {
  minerCurrWork : gmap Z (option workUnit);
  unOccupiedMiner : gmap Z bool;
  clients : gmap Z clientStatus;
  jobQ : list workUnit }.

#[export] Instance eta_server : EtaRecord server := fun s =>
  mkServer (minerCurrWork s) (unOccupiedMiner s) (clients s) (jobQ s).

Definition NewServer : server := mkServer ∅ ∅ ∅ [].

Definition newClientStatus (partitionedJobNum : Z) : clientStatus :=
  mkStatus partitionedJobNum max_uint64 0.

(** A message handed to [lspServer.Write]. *)
Abbreviation sends := (list (Z * Message)).

(** Job [i] of [numOfMiner] jobs of [interval] nonces, in [uint64]. *)
Definition partitioned (connId : Z) (data : string) (lower upper interval : Z)
    (numOfMiner i : Z) : workUnit :=
  let currLower := wrap_u 64 (lower + wrap_u 64 (i * interval)) in
  let currUpper := if i =? numOfMiner - 1 then upper else wrap_u 64 (currLower + interval - 1) in
  mkWork connId (NewRequest data currLower currUpper).

Definition partitionJob (connId : Z) (msg : Message) (s : server) : server :=
  let data := Data msg in let lower := Lower msg in let upper := Upper msg in
  let size := wrap_u 64 (upper - lower + 1) in
  if size <=? MinerWorkloadThreshold then
    s <| jobQ := jobQ s ++ [mkWork connId (NewRequest data lower upper)] |>
      <| clients := <[connId := newClientStatus 1]> (clients s) |>
  else
    let miners := base.size (minerCurrWork s) in
    let numOfMiner := if Nat.eqb miners 0 then 1%nat else miners in
    let interval := size `div` Z.of_nat numOfMiner in
    s <| clients := <[connId := newClientStatus (Z.of_nat numOfMiner)]> (clients s) |>
      <| jobQ := jobQ s ++
           ((fun i => partitioned connId data lower upper interval (Z.of_nat numOfMiner) (Z.of_nat i))
              <$> seq 0 numOfMiner) |>.

(** The result goes to the client whether or not the write is accepted.  A
    sender without work is a nil [workU], dereferenced at once. *)
Definition updateResult (connId : Z) (msg : Message) (s : server) : outcome (server * sends) :=
  let workU := map_get None (minerCurrWork s) connId in
  let s := s <| minerCurrWork := <[connId := None]> (minerCurrWork s) |>
             <| unOccupiedMiner := <[connId := true]> (unOccupiedMiner s) |> in
  workU ← deref workU;
  match clients s !! clientWorkFor workU with
  | None => Ret (s, [])
  | Some c =>
      let c := c <| notFinishedJob := notFinishedJob c - 1 |> in
      let c := if Hash_ msg <? minHash c then c <| minHash := Hash_ msg |> <| nonce := Nonce msg |> else c in
      if notFinishedJob c =? 0 then
        Ret (s <| clients := delete (clientWorkFor workU) (clients s) |>,
             [(clientWorkFor workU, NewResult (minHash c) (nonce c))])
      else Ret (s <| clients := <[clientWorkFor workU := c]> (clients s) |>, [])
  end.

(** A decoded message; [None] is a payload that does not decode. *)
Definition handleMessage (connId : Z) (msg : option Message) (s : server) : outcome (server * sends) :=
  match msg with
  | None => Ret (s, [])
  | Some msg =>
      if Type_ msg =? Join then
        Ret (s <| minerCurrWork := <[connId := None]> (minerCurrWork s) |>
               <| unOccupiedMiner := <[connId := true]> (unOccupiedMiner s) |>, [])
      else if Type_ msg =? Request then
        if bool_decide (clients s !! connId = None) then Ret (partitionJob connId msg s, [])
        else Ret (s, [])
      else if Type_ msg =? Result then updateResult connId msg s
      else Ret (s, [])
  end.

Definition handleIncomeMessage (unmarshal : list byte -> option Message) (connId : Z)
    (payLoad : list byte) (s : server) : outcome (server * sends) :=
  handleMessage connId (unmarshal payLoad) s.

(** The inner loop for one unoccupied miner: drop jobs of lost clients, then
    offer the first other job. *)
Fixpoint offerJob (ok : Z -> bool) (connId : Z) (q : list workUnit) (s : server) : server * sends :=
  match q with
  | [] => (s <| jobQ := [] |>, [])
  | workU :: q' =>
      if bool_decide (clients s !! clientWorkFor workU = None) then offerJob ok connId q' s
      else if ok connId then
        (s <| jobQ := q' |> <| minerCurrWork := <[connId := Some workU]> (minerCurrWork s) |>
           <| unOccupiedMiner := delete connId (unOccupiedMiner s) |>, [(connId, workMsg workU)])
      else (s <| jobQ := q |>, [])
  end.

Fixpoint assignLoop (ok : Z -> bool) (ks : list Z) (s : server) : server * sends :=
  match ks with
  | [] => (s, [])
  | connId :: ks' =>
      let '(s, o) := offerJob ok connId (jobQ s) s in
      if Nat.eqb (length (jobQ s)) 0 then (s, o)
      else let '(s, o') := assignLoop ok ks' s in (s, o ++ o')
  end.

Definition assignJobsToUnoccupiedMiner (ok : Z -> bool) (range : list Z -> list Z) (s : server)
    : server * sends :=
  if 0 <? Z.of_nat (length (jobQ s)) then assignLoop ok (range (keys (unOccupiedMiner s))) s
  else (s, []).

Definition handleFailure (connId : Z) (s : server) : server :=
  match minerCurrWork s !! connId with
  | Some currWork =>
      s <| jobQ := option_list currWork ++ jobQ s |>
        <| unOccupiedMiner := delete connId (unOccupiedMiner s) |>
        <| minerCurrWork := delete connId (minerCurrWork s) |>
  | None =>
      if bool_decide (clients s !! connId = None) then s
      else s <| clients := delete connId (clients s) |>
  end.

(** What [lspServer.Read] returned: a connection, and its message (decoded, or
    not decodable) or the error that it is lost. *)
Inductive event := Lost (connId : Z) | Got (connId : Z) (msg : option Message).

(** One iteration of the loop of [main]. *)
Definition main (ok : Z -> bool) (range : list Z -> list Z) (ev : event) (s : server)
    : outcome (server * sends) :=
  let '(s, o) := assignJobsToUnoccupiedMiner ok range s in
  match ev with
  | Lost connId => Ret (handleFailure connId s, o)
  | Got connId msg => '(s, o') ← handleMessage connId msg s; Ret (s, o ++ o')
  end.

(** ** Runs with well-behaved peers *)

Definition joined (evs : list event) (id : Z) : Prop :=
  exists m, Got id (Some m) ∈ evs /\ Type_ m = Join.
Definition requested (evs : list event) (id : Z) : Prop :=
  exists m, Got id (Some m) ∈ evs /\ Type_ m = Request.

(** What the environment may do next: no connection speaks after it was lost;
    a connection either joins, once and first, or asks; a question is a proper
    [uint64] range; and a miner answers the work it was sent, with the result of
    [calculateMinHash]. *)
Definition admissible (evs : list event) (s : server) (ev : event) : Prop :=
  match ev with
  | Lost id => Lost id ∉ evs
  | Got id None => Lost id ∉ evs
  | Got id (Some m) =>
      (Lost id ∉ evs) /\
      (Type_ m = Join -> ~ joined evs id /\ ~ requested evs id) /\
      (Type_ m = Request -> ~ joined evs id /\ 0 <= Lower m <= Upper m /\ Upper m <= max_uint64) /\
      (Type_ m = Result -> exists w h n fuel, minerCurrWork s !! id = Some (Some w) /\
         calculateMinHash fuel (Data (workMsg w)) (Lower (workMsg w)) (Upper (workMsg w)) = Some (h, n) /\
         m = NewResult h n)
  end.

Inductive run : server -> list event -> sends -> Prop :=
  | run_start : run NewServer [] []
  | run_step s evs outs ok range ev s' o :
      run s evs outs -> (forall l, Permutation (range l) l) ->
      admissible evs (assignJobsToUnoccupiedMiner ok range s).1 ev ->
      main ok range ev s = Ret (s', o) -> run s' (evs ++ [ev]) (outs ++ o).

(** ** Partition lemmas *)

(** The nonces of a unit of work. *)
Definition nonces (w : workUnit) : list Z :=
  seqZ (Lower (workMsg w)) (Upper (workMsg w) - Lower (workMsg w) + 1).

Definition jobs (connId : Z) (msg : Message) (s : server) : list workUnit :=
  drop (length (jobQ s)) (jobQ (partitionJob connId msg s)).

Lemma seqZ_app_split lower a b : 0 <= a -> 0 <= b -> seqZ lower (a + b) = seqZ lower a ++ seqZ (lower + a) b.
Proof. intros. by rewrite seqZ_app. Qed.

Lemma partitioned_first connId data lower upper interval n i :
  0 <= i < n - 1 -> 0 <= lower -> 0 < interval -> lower + n * interval <= max_uint64 + 1 ->
  nonces (partitioned connId data lower upper interval n i) = seqZ (lower + i * interval) interval.
Proof.
  intros Hi Hl Hint Hmax. unfold max_uint64 in Hmax. unfold nonces, partitioned. cbn [workMsg].
  rewrite (proj2 (Z.eqb_neq _ _)) by lia. cbn.
  assert (i * interval + interval + interval <= n * interval) by nia.
  assert (0 <= i * interval) by nia.
  rewrite !wrap_u_small by (rewrite ?wrap_u_small; rewrite ?wrap_u_small; lia).
  f_equal. lia.
Qed.

Lemma partitioned_last connId data lower upper interval n :
  0 < n -> 0 <= lower -> 0 < interval -> lower + n * interval <= max_uint64 + 1 ->
  nonces (partitioned connId data lower upper interval n (n - 1)) =
  seqZ (lower + (n - 1) * interval) (upper - (lower + (n - 1) * interval) + 1).
Proof.
  intros Hn Hl Hint Hmax. unfold max_uint64 in Hmax. unfold nonces, partitioned. cbn [workMsg].
  rewrite Z.eqb_refl. cbn. assert (0 <= (n - 1) * interval <= n * interval - interval) by nia.
  rewrite !wrap_u_small by (rewrite ?wrap_u_small; lia). done.
Qed.

Lemma partitioned_prefix connId data lower upper interval n k :
  Z.of_nat k <= n - 1 -> 0 <= lower -> 0 < interval -> lower + n * interval <= max_uint64 + 1 ->
  mjoin ((fun i => nonces (partitioned connId data lower upper interval n (Z.of_nat i))) <$> seq 0 k) =
  seqZ lower (Z.of_nat k * interval).
Proof.
  intros Hk Hl Hi Hm. induction k as [|k IH]; [done|].
  rewrite seq_S, fmap_app, join_app, IH by lia. cbn.
  rewrite app_nil_r, partitioned_first by lia.
  rewrite <- seqZ_app_split by nia. f_equal. lia.
Qed.

(** Dividing the range among at most as many miners as it has nonces covers it
    exactly, in order. *)
Lemma partitioned_all connId data lower upper n :
  (0 < n)%nat -> 0 <= lower -> upper <= max_uint64 -> Z.of_nat n <= upper - lower + 1 ->
  let interval := (upper - lower + 1) `div` Z.of_nat n in
  mjoin (nonces <$> ((fun i => partitioned connId data lower upper interval (Z.of_nat n) (Z.of_nat i))
                       <$> seq 0 n)) = seqZ lower (upper - lower + 1).
Proof.
  intros Hn Hl Hu Hsize interval.
  assert (0 < interval) by (apply Z.div_str_pos; lia).
  assert (Z.of_nat n * interval <= upper - lower + 1) by (apply Z.mul_div_le; lia).
  destruct n as [|k]; [lia|]. rewrite <- list_fmap_compose, seq_S, fmap_app, join_app.
  cbn [fmap list_fmap mjoin list_join plus]. unfold compose at 2.
  replace (Z.of_nat k) with (Z.of_nat (S k) - 1) at 1 by lia.
  rewrite app_nil_r, partitioned_last by lia. unfold compose.
  rewrite partitioned_prefix by lia.
  replace (Z.of_nat (S k) - 1) with (Z.of_nat k) by lia.
  rewrite <- seqZ_app_split by nia. f_equal. lia.
Qed.

(** [js] is work on the question [m] of [c]. *)
Definition work_on (c : Z) (m : Message) (js : list workUnit) : Prop :=
  Forall (fun w => clientWorkFor w = c /\ Data (workMsg w) = Data m) js.

(** Work that ends at the greatest nonce, which no miner ever finishes. *)
Definition endless (w : workUnit) : Prop := Upper (workMsg w) = max_uint64.

(** The jobs cover the question, and those that can be finished stay in it. *)
Record covers (m : Message) (js : list workUnit) : Prop := {
  cov_all : forall i, Lower m <= i <= Upper m -> exists w, w ∈ js /\ i ∈ nonces w;
  cov_in : forall w, w ∈ js -> 0 <= Lower (workMsg w) /\
    (endless w \/ forall i, i ∈ nonces w -> Lower m <= i <= Upper m) }.

Lemma elem_of_nonces i w : i ∈ nonces w <-> Lower (workMsg w) <= i <= Upper (workMsg w).
Proof. unfold nonces. rewrite elem_of_seqZ. lia. Qed.

Lemma covers_exactly m js : (forall w, w ∈ js -> 0 <= Lower (workMsg w)) ->
  mjoin (nonces <$> js) = seqZ (Lower m) (Upper m - Lower m + 1) -> covers m js.
Proof.
  intros Hl Hj.
  assert (forall i, (exists w, w ∈ js /\ i ∈ nonces w) <-> Lower m <= i <= Upper m) as Hin.
  { intros i. trans (i ∈ seqZ (Lower m) (Upper m - Lower m + 1)); [|rewrite elem_of_seqZ; lia].
    rewrite <- Hj, list_elem_of_join. split.
    - intros (w & ? & ?). exists (nonces w). split; [done|]. by apply list_elem_of_fmap_2.
    - intros (l & ? & (w & -> & ?)%list_elem_of_fmap). eauto. }
  split; [intros i Hi; by apply Hin|]. intros w Hw. split; [auto|]. right. intros i Hi. apply Hin. eauto.
Qed.

(** With more miners than nonces the interval is 0: every job but the last ends
    below the lower end, or at the greatest nonce when that is 0. *)
Lemma partitioned_zero connId m n :
  (0 < n)%nat -> 0 <= Lower m <= Upper m -> Upper m <= max_uint64 ->
  covers m ((fun i => partitioned connId (Data m) (Lower m) (Upper m) 0 (Z.of_nat n) (Z.of_nat i)) <$> seq 0 n).
Proof.
  intros Hn Hl Hu. unfold max_uint64 in Hu. split.
  - intros i Hi. exists (partitioned connId (Data m) (Lower m) (Upper m) 0 (Z.of_nat n) (Z.of_nat (n - 1))).
    split; [apply list_elem_of_fmap; exists (n - 1)%nat; split; [done|]; apply elem_of_seq; lia|].
    apply elem_of_nonces. unfold partitioned. cbn [workMsg NewRequest Lower Upper].
    rewrite Z.mul_0_r, (proj2 (Z.eqb_eq _ _)) by lia. rewrite (wrap_u_small 64 0), Z.add_0_r by lia.
    rewrite wrap_u_small; lia.
  - intros w (i & -> & Hi)%list_elem_of_fmap. unfold endless. setoid_rewrite elem_of_nonces. unfold partitioned.
    cbn [workMsg NewRequest Lower Upper]. rewrite Z.mul_0_r, (wrap_u_small 64 0), Z.add_0_r by lia.
    rewrite (wrap_u_small 64 (Lower m)) by lia. split; [lia|]. destruct (_ =? _); [right; lia|].
    destruct (decide (Lower m = 0)) as [->|]; [by left|right]. rewrite wrap_u_small; lia.
Qed.

Lemma partitionJob_spec c m s :
  0 <= Lower m <= Upper m -> Upper m <= max_uint64 ->
  exists js, js <> [] /\ work_on c m js /\ covers m js /\
    partitionJob c m s =
      s <| clients := <[c := newClientStatus (Z.of_nat (length js))]> (clients s) |>
        <| jobQ := jobQ s ++ js |>.
Proof.
  intros Hl Hu. unfold partitionJob. cbn zeta. destruct (_ <=? _) eqn:E; breflect.
  - exists [mkWork c (NewRequest (Data m) (Lower m) (Upper m))].
    split; [done|]. split; [by repeat constructor|]. split; [|done]. apply covers_exactly.
    + intros w ->%list_elem_of_singleton. cbn. lia.
    + cbn. by rewrite app_nil_r.
  - set (n := if Nat.eqb _ _ then _ else _).
    assert (0 < n)%nat as Hn by (unfold n; destruct (Nat.eqb_spec (size (minerCurrWork s)) 0); lia).
    clearbody n. exists ((fun i => partitioned c (Data m) (Lower m) (Upper m)
      (wrap_u 64 (Upper m - Lower m + 1) `div` Z.of_nat n) (Z.of_nat n) (Z.of_nat i)) <$> seq 0 n).
    split; [|split; [|split; [|by rewrite length_fmap, length_seq]]].
    + destruct n; [lia|done].
    + apply Forall_fmap, Forall_true. by intros.
    + assert (Es : wrap_u 64 (Upper m - Lower m + 1) = Upper m - Lower m + 1).
      { unfold MinerWorkloadThreshold, max_uint64 in *.
        destruct (decide (Upper m - Lower m + 1 = 2 ^ 64)) as [Ew|]; [|rewrite wrap_u_small; lia].
        rewrite Ew in E. done. }
      rewrite Es in *. destruct (decide (Z.of_nat n <= Upper m - Lower m + 1)) as [Hle|Hgt].
      * apply covers_exactly; [|by apply partitioned_all; [|lia..]].
        intros w (i & -> & _)%list_elem_of_fmap. unfold partitioned. cbn [workMsg NewRequest Lower].
        apply wrap_u_range. lia.
      * rewrite Z.div_small by lia. by apply partitioned_zero.
Qed.

(** When a question from 0 to [n] has a job without end: when it goes up to the
    greatest nonce, or is divided among more miners than it has nonces. *)
Lemma endless_jobs c data n s :
  0 <= n <= max_uint64 ->
  (exists w, w ∈ jobs c (NewRequest data 0 n) s /\ endless w) <->
  n = max_uint64 \/ MinerWorkloadThreshold < n + 1 < Z.of_nat (size (minerCurrWork s)).
Proof.
  intros Hn. assert (Hmax : max_uint64 + 1 = 2 ^ 64) by done.
  unfold jobs, partitionJob, endless. cbn [NewRequest Data Lower Upper]. rewrite Z.sub_0_r.
  destruct (decide (n = max_uint64)) as [->|Hne].
  { rewrite Hmax, (eq_refl : wrap_u 64 (2 ^ 64) = 0). cbn -[drop max_uint64].
    rewrite drop_app_length. split; [by left|]. intros _.
    exists (mkWork c (NewRequest data 0 max_uint64)). split; [by left|done]. }
  rewrite wrap_u_small by lia. unfold MinerWorkloadThreshold.
  destruct (_ <=? _) eqn:E; breflect;
    cbn -[drop max_uint64 partitioned seq Z.div Nat.eqb Z.mul Z.add]; rewrite drop_app_length.
  { split; [|lia]. intros (w & ->%list_elem_of_singleton & Hw). by cbn in Hw. }
  set (k := if Nat.eqb _ _ then _ else _). assert (Hk : (0 < k)%nat /\ (k = 1%nat \/ k = size (minerCurrWork s))).
  { unfold k. destruct (Nat.eqb_spec (size (minerCurrWork s)) 0); lia. }
  assert (Hk1 : Z.of_nat k <= n + 1 <-> ~ n + 1 < Z.of_nat (size (minerCurrWork s))).
  { unfold k. destruct (Nat.eqb_spec (size (minerCurrWork s)) 0); lia. }
  clearbody k. destruct (decide (Z.of_nat k <= n + 1)) as [Hle|Hgt].
  - split; [|lia]. intros (w & Hw & Hend).
    pose proof (partitioned_all c data 0 n k ltac:(lia) ltac:(lia) ltac:(lia) ltac:(lia)) as Hall.
    cbn zeta in Hall. rewrite Z.sub_0_r in Hall.
    assert (Hin : max_uint64 ∈ seqZ 0 (n + 1)); [|apply elem_of_seqZ in Hin; lia].
    rewrite <- Hall. apply list_elem_of_join. exists (nonces w). split; [|by apply list_elem_of_fmap_2].
    apply elem_of_nonces. rewrite Hend. apply list_elem_of_fmap in Hw as (i & -> & _).
    pose proof (wrap_u_range 64 (0 + wrap_u 64 (Z.of_nat i * ((n + 1) `div` Z.of_nat k)))).
    unfold partitioned. cbn [workMsg NewRequest Lower]. lia.
  - split; [lia|]. intros _. rewrite Z.div_small by lia.
    exists (partitioned c data 0 n 0 (Z.of_nat k) 0). split.
    + apply list_elem_of_fmap. exists 0%nat. split; [done|]. apply elem_of_seq. lia.
    + unfold partitioned. cbn [workMsg NewRequest Upper]. rewrite (proj2 (Z.eqb_neq _ _)) by lia. done.
Qed.

(** ** The invariant of the service *)

Definition working (m : gmap Z (option workUnit)) : list workUnit := omap snd (map_to_list m).

(** Every unit of work the server still answers for. *)
Definition outstanding (s : server) : list workUnit := jobQ s ++ working (minerCurrWork s).

Definition for_client (c : Z) (out : list workUnit) : list workUnit :=
  filter (fun w => clientWorkFor w = c) out.
#[local] Arguments for_client : simpl never.

Lemma working_delete m k o :
  m !! k = Some o -> working m ≡ₚ option_list o ++ working (delete k m).
Proof.
  intros Hk. unfold working. rewrite <- (insert_delete_id m k o Hk) at 1.
  rewrite map_to_list_insert by apply lookup_delete_eq. cbn. by destruct o.
Qed.

Lemma working_insert m k o : working (<[k := o]> m) ≡ₚ option_list o ++ working (delete k m).
Proof. by rewrite (working_delete _ k o), delete_insert_eq by apply lookup_insert_eq. Qed.

(** Client [c], with question [m], is owed the jobs of [out]: they are counted,
    each nonce is in one of them or not below the least hash so far, and a job
    that can be finished stays within the question. *)
Record owed (c : Z) (m : Message) (st : clientStatus) (out : list workUnit) : Prop := {
  owed_range : 0 <= Lower m <= Upper m /\ Upper m <= max_uint64;
  owed_count : notFinishedJob st = Z.of_nat (length (for_client c out));
  owed_some : for_client c out <> [];
  owed_work : forall w, w ∈ for_client c out -> Data (workMsg w) = Data m /\
    0 <= Lower (workMsg w) /\ (endless w \/ forall i, i ∈ nonces w -> Lower m <= i <= Upper m);
  owed_min : forall i, Lower m <= i <= Upper m ->
    (exists w, w ∈ for_client c out /\ i ∈ nonces w) \/ minHash st <= Hash (Data m) i;
  owed_at : (Lower m <= nonce st <= Upper m /\ Hash (Data m) (nonce st) = minHash st) \/
    (minHash st = max_uint64 /\ nonce st = 0) }.

Record cinv (evs : list event) (cl : gmap Z clientStatus) (out : list workUnit) : Prop := {
  cinv_owed : forall c st, cl !! c = Some st ->
    exists m, Got c (Some m) ∈ evs /\ Type_ m = Request /\ owed c m st out;
  cinv_none : forall c, cl !! c = None -> Lost c ∈ evs \/ for_client c out = [] }.

#[export] Instance for_client_perm c : Proper (Permutation ==> Permutation) (for_client c).
Proof. intros l l' H. unfold for_client. by rewrite H. Qed.

Lemma owed_perm c m st out out' : out ≡ₚ out' -> owed c m st out -> owed c m st out'.
Proof.
  intros Hp [? Hc Hs Hw Hm ?]. assert (for_client c out ≡ₚ for_client c out') as Hf by by rewrite Hp.
  split; try done.
  - by rewrite <- Hf.
  - intros E. rewrite E in Hf. by apply Permutation_nil_r in Hf.
  - intros w Hin. apply Hw. by rewrite Hf.
  - intros i Hi. destruct (Hm i Hi) as [(w & Hin & ?)|]; [left|by right].
    exists w. by rewrite <- Hf.
Qed.

Lemma cinv_perm evs cl out out' : out ≡ₚ out' -> cinv evs cl out -> cinv evs cl out'.
Proof.
  intros Hp [Ho Hn]. split.
  - intros c st Hc. destruct (Ho c st Hc) as (m & ? & ? & ?). exists m. eauto using owed_perm.
  - intros c Hc. destruct (Hn c Hc) as [|E]; [by left|right].
    assert (for_client c out ≡ₚ for_client c out') as Hf by by rewrite Hp.
    rewrite E in Hf. by apply Permutation_nil_l in Hf.
Qed.

(** The work for [c] alone matters to [c]. *)
Lemma owed_ext c m st out out' : for_client c out = for_client c out' -> owed c m st out -> owed c m st out'.
Proof. intros E [? ? ? ? ? ?]. by split; rewrite <- ?E. Qed.

Lemma for_client_other c w out : clientWorkFor w <> c -> for_client c (w :: out) = for_client c out.
Proof. intros. unfold for_client. by rewrite filter_cons_False. Qed.

Lemma for_client_same c w out : clientWorkFor w = c -> for_client c (w :: out) = w :: for_client c out.
Proof. intros. unfold for_client. by rewrite filter_cons_True. Qed.

(** A job of a lost client is dropped. *)
Lemma cinv_drop evs cl w out :
  cl !! clientWorkFor w = None -> cinv evs cl (w :: out) -> cinv evs cl out.
Proof.
  intros Hw [Ho Hn]. split.
  - intros c st Hc. destruct (Ho c st Hc) as (m & ? & ? & Hm). exists m. split_and!; try done.
    eapply owed_ext; [|exact Hm]. apply for_client_other. congruence.
  - intros c Hc. destruct (Hn c Hc) as [|E]; [by left|right].
    destruct (decide (clientWorkFor w = c)) as [Hs|]; [|by rewrite <- E, for_client_other].
    by rewrite for_client_same in E by done.
Qed.

Lemma cinv_mono evs evs' cl out : evs ⊆ evs' -> cinv evs cl out -> cinv evs' cl out.
Proof.
  intros Hs [Ho Hn]. split.
  - intros c st Hc. destruct (Ho c st Hc) as (m & ? & ? & ?). exists m. eauto.
  - intros c Hc. destruct (Hn c Hc); eauto.
Qed.

Lemma cinv_lost evs cl out c :
  cinv evs cl out -> cinv (evs ++ [Lost c]) (delete c cl) out.
Proof.
  intros Hi. apply (cinv_mono _ (evs ++ [Lost c])) in Hi as [Ho Hn]; [|set_solver]. split.
  - intros c' st [? Hc]%lookup_delete_Some. eauto.
  - intros c' [<-|?]%lookup_delete_None; [left; set_solver|eauto].
Qed.

Lemma cinv_silent evs cl out ev : cinv evs cl out -> cinv (evs ++ [ev]) cl out.
Proof. apply cinv_mono. set_solver. Qed.

Lemma for_client_work_on c c' m js :
  work_on c m js -> for_client c' js = if decide (c = c') then js else [].
Proof.
  unfold for_client. induction 1 as [|w js [Hw _] Hjs IH]; [by destruct (decide _)|].
  destruct (decide (c = c')) as [->|].
  - rewrite filter_cons_True by done. by rewrite IH.
  - rewrite filter_cons_False by congruence. done.
Qed.

(** A new question, cut into the jobs [js]. *)
Lemma owed_new c m js :
  0 <= Lower m <= Upper m -> Upper m <= max_uint64 -> js <> [] -> work_on c m js -> covers m js ->
  owed c m (newClientStatus (Z.of_nat (length js))) js.
Proof.
  intros Hr Hu Hne Hw [Hall Hin].
  assert (for_client c js = js) as Hf by (erewrite for_client_work_on by done; by rewrite decide_True).
  split; rewrite ?Hf; try done.
  - intros w Hin'. unfold work_on in Hw. rewrite Forall_forall in Hw.
    split; [by apply Hw|]. by apply Hin.
  - intros i Hi. left. by apply Hall.
  - by right.
Qed.

Lemma for_client_app c l l' : for_client c (l ++ l') = for_client c l ++ for_client c l'.
Proof. unfold for_client. by rewrite filter_app. Qed.

Lemma cinv_request evs cl out c m js :
  cinv evs cl out -> cl !! c = None -> (Lost c ∉ evs) -> Type_ m = Request -> work_on c m js ->
  owed c m (newClientStatus (Z.of_nat (length js))) js ->
  cinv (evs ++ [Got c (Some m)]) (<[c := newClientStatus (Z.of_nat (length js))]> cl) (out ++ js).
Proof.
  intros Hi Hc Hl Ht Hw Hj. destruct (cinv_none _ _ _ Hi c Hc) as [|Hout]; [done|].
  apply (cinv_silent _ _ _ (Got c (Some m))) in Hi as [Ho Hn].
  assert (forall c', c' <> c -> for_client c' (out ++ js) = for_client c' out) as Hother.
  { intros c' ?. rewrite for_client_app, (for_client_work_on c c' m js Hw), decide_False by done.
    by rewrite app_nil_r. }
  split; intros c' *.
  - intros [[<- <-]|[? Hst]]%lookup_insert_Some.
    + exists m. split; [set_solver|]. split; [done|]. eapply owed_ext; [|exact Hj].
      by rewrite for_client_app, Hout.
    + destruct (Ho c' st Hst) as (m' & ? & ? & ?). exists m'. split_and!; try done.
      eapply owed_ext; [|done]. symmetry. auto.
  - intros [Hst ?]%lookup_insert_None. rewrite Hother by done. auto.
Qed.

(** The answer [m'] is the least hash over the question [m]. *)
Definition answers (m m' : Message) : Prop :=
  m' = NewResult (Hash_ m') (Nonce m') /\ min_over (Data m) (Lower m) (Upper m) (Hash_ m') (Nonce m').

(** Work whose search has ended does not end at the greatest nonce. *)
Definition finished (w : workUnit) : Prop :=
  Lower (workMsg w) <= Upper (workMsg w) -> ~ endless w.

(** The result [(h, n)] of the outstanding work [w] comes in. *)
Lemma owed_result m st w out h n :
  owed (clientWorkFor w) m st (w :: out) -> finished w ->
  min_over (Data (workMsg w)) (Lower (workMsg w)) (Upper (workMsg w)) h n ->
  let st' := if h <? minHash st then mkStatus (notFinishedJob st - 1) h n
             else mkStatus (notFinishedJob st - 1) (minHash st) (nonce st) in
  if notFinishedJob st' =? 0
  then for_client (clientWorkFor w) out = [] /\ answers m (NewResult (minHash st') (nonce st'))
  else owed (clientWorkFor w) m st' out.
Proof.
  intros [Hr Hc Hs Hw Hm Ha] Hfin [Hlow Hat] st'. rewrite for_client_same in * by done.
  set (c := clientWorkFor w) in *. cbn [length] in Hc.
  assert (notFinishedJob st' = Z.of_nat (length (for_client c out))) as Hcount.
  { unfold st'. destruct (_ <? _); cbn; lia. }
  destruct (Hw w) as (Hd & _ & Hrange); [by left|]. rewrite Hd in *.
  assert (Hrange' : forall i, Lower (workMsg w) <= i <= Upper (workMsg w) -> Lower m <= i <= Upper m).
  { intros i Hi. destruct Hrange as [He|Hrange]; [by destruct Hfin; [lia|]|]. by apply Hrange, elem_of_nonces. }
  clear Hrange. rename Hrange' into Hrange. setoid_rewrite elem_of_nonces in Hm.
  assert (forall i, Lower m <= i <= Upper m ->
    (exists w', w' ∈ for_client c out /\ i ∈ nonces w') \/ minHash st' <= Hash (Data m) i) as Hm'.
  { intros i Hi. setoid_rewrite elem_of_nonces.
    destruct (Hm i Hi) as [(w' & [->|?]%elem_of_cons & ?)|]; [right|left; eauto|right].
    - specialize (Hlow i). unfold st'. destruct (_ <? _) eqn:E; breflect; cbn; lia.
    - unfold st'. destruct (_ <? _) eqn:E; breflect; cbn; lia. }
  assert ((Lower m <= nonce st' <= Upper m /\ Hash (Data m) (nonce st') = minHash st') \/
          (minHash st' = max_uint64 /\ nonce st' = 0)) as Ha'.
  { unfold st'. destruct (_ <? _) eqn:E; [cbn|done].
    destruct Hat as [[? ?]|?]; [left; eauto|by right]. }
  destruct (_ =? 0) eqn:E; breflect.
  - assert (for_client c out = []) as Hnil by (destruct (for_client c out); cbn in *; [done|lia]).
    split; [done|]. split; [done|]. split; [|done]. intros i Hi.
    destruct (Hm' i Hi) as [(w' & Hin & _)|?]; [|done]. rewrite Hnil in Hin. by apply elem_of_nil in Hin.
  - split; try done.
    + intros Hnil. rewrite Hnil in Hcount. done.
    + intros w' Hin. apply Hw. by right.
Qed.

Lemma cinv_result evs cl w out h n :
  cinv evs cl (w :: out) ->
  (is_Some (cl !! clientWorkFor w) -> finished w /\
   min_over (Data (workMsg w)) (Lower (workMsg w)) (Upper (workMsg w)) h n) ->
  match cl !! clientWorkFor w with
  | None => cinv evs cl out
  | Some st =>
      let st' := if h <? minHash st then mkStatus (notFinishedJob st - 1) h n
                 else mkStatus (notFinishedJob st - 1) (minHash st) (nonce st) in
      if notFinishedJob st' =? 0
      then cinv evs (delete (clientWorkFor w) cl) out /\
        exists m, Got (clientWorkFor w) (Some m) ∈ evs /\ Type_ m = Request /\
          answers m (NewResult (minHash st') (nonce st'))
      else cinv evs (<[clientWorkFor w := st']> cl) out
  end.
Proof.
  intros Hi Hmin. destruct (cl !! clientWorkFor w) as [st|] eqn:Hst; [|by eapply cinv_drop].
  destruct (cinv_owed _ _ _ Hi _ _ Hst) as (m & Hin & Ht & Hm).
  apply (owed_result m st w out h n) in Hm; [|by apply Hmin..]. cbn zeta in *.
  set (st' := if h <? _ then _ else _) in *. clearbody st'. destruct Hi as [Ho Hn].
  assert (forall c st0, c <> clientWorkFor w -> cl !! c = Some st0 ->
    exists m, Got c (Some m) ∈ evs /\ Type_ m = Request /\ owed c m st0 out) as Hother.
  { intros c st0 Hne Hc. destruct (Ho c st0 Hc) as (m0 & ? & ? & ?). exists m0.
    split_and!; try done. eapply owed_ext; [|done]. by apply for_client_other. }
  assert (forall c, c <> clientWorkFor w -> cl !! c = None -> Lost c ∈ evs \/ for_client c out = []) as Hnone.
  { intros c Hne Hc. destruct (Hn c Hc) as [|E]; [by left|right]. by rewrite for_client_other in E by done. }
  destruct (_ =? 0).
  - destruct Hm as [Hnil Hans]. split; [|eauto]. split; intros c *.
    + intros [? ?]%lookup_delete_Some. eauto.
    + destruct (decide (c = clientWorkFor w)) as [->|]; [by right|].
      rewrite lookup_delete_ne by done. eauto.
  - split; intros c *.
    + intros [[<- <-]|[? ?]]%lookup_insert_Some; eauto.
    + intros [? ?]%lookup_insert_None. eauto.
Qed.

Record sinv (evs : list event) (s : server) : Prop := {
  s_unocc : forall k, is_Some (unOccupiedMiner s !! k) -> minerCurrWork s !! k = Some None;
  s_miner : forall k, is_Some (minerCurrWork s !! k) -> joined evs k;
  s_roles : forall k, joined evs k -> requested evs k -> False;
  s_cinv : cinv evs (clients s) (outstanding s) }.

(** What went out: work to miners, answers to clients. *)
Definition oinv (evs : list event) (outs : sends) : Prop :=
  Forall (fun '(c, m) => joined evs c \/
    exists q, Got c (Some q) ∈ evs /\ Type_ q = Request /\ answers q m) outs.

Lemma oinv_mono evs evs' outs : evs ⊆ evs' -> oinv evs outs -> oinv evs' outs.
Proof.
  intros Hs Ho. eapply Forall_impl; [exact Ho|].
  intros [c m] [(q & ? & ?)|(q & ? & ?)]; [left|right]; exists q; eauto.
Qed.

Lemma offerJob_sinv evs ok k : forall q s s' o,
  sinv evs (s <| jobQ := q |>) -> is_Some (unOccupiedMiner s !! k) -> offerJob ok k q s = (s', o) ->
  sinv evs s' /\ (forall k', k' <> k -> unOccupiedMiner s' !! k' = unOccupiedMiner s !! k') /\
  oinv evs o.
Proof.
  induction q as [|w q IH]; intros s s' o Hs Hk; cbn [offerJob].
  { intros [= <- <-]. split; [done|]. split; [done|constructor]. }
  pose proof Hs as [Hu Hm Hr Hc]. pose proof (Hu k Hk) as Hw. cbn in *.
  destruct (bool_decide _) eqn:E; breflect.
  - apply IH; [|done]. split; cbn in *; try done. eapply cinv_drop; [|exact Hc]. done.
  - destruct (ok k); intros [= <- <-]; [|split; [done|]; split; [done|constructor]].
    split; [split; cbn|split; cbn].
    + intros k' [? [? ?]%lookup_delete_Some]. rewrite lookup_insert_ne by done. eauto.
    + intros k' [? [[<- _]|[? ?]]%lookup_insert_Some]; eauto.
    + done.
    + eapply cinv_perm; [|exact Hc]. unfold outstanding. cbn.
      rewrite working_insert, (working_delete _ _ _ Hw). cbn. by rewrite Permutation_middle.
    + intros k' ?. by rewrite lookup_delete_ne.
    + apply Forall_singleton. left. eauto.
Qed.

Lemma jobQ_id s : s <| jobQ := jobQ s |> = s.
Proof. by destruct s. Qed.

Lemma assignLoop_sinv evs ok : forall ks s s' o,
  NoDup ks -> (forall k, k ∈ ks -> is_Some (unOccupiedMiner s !! k)) -> sinv evs s ->
  assignLoop ok ks s = (s', o) -> sinv evs s' /\ oinv evs o.
Proof.
  induction ks as [|k ks IH]; intros s s' o Hnd Hks Hs; cbn [assignLoop].
  { intros [= <- <-]. split; [done|constructor]. }
  apply NoDup_cons in Hnd as [Hk Hnd].
  destruct (offerJob ok k (jobQ s) s) as [s1 o1] eqn:E1.
  apply (offerJob_sinv evs) in E1 as (Hs1 & Hother & Ho1); [|by rewrite jobQ_id|apply Hks; by left].
  destruct (Nat.eqb _ _); [by intros [= <- <-]|].
  destruct (assignLoop ok ks s1) as [s2 o2] eqn:E2. intros [= <- <-].
  apply IH in E2 as [? ?]; [|done| |done].
  - split; [done|]. by apply Forall_app.
  - intros k' Hk'. rewrite Hother by (intros ->; done). apply Hks. by right.
Qed.

Lemma assign_sinv evs ok range s s' o :
  (forall l, Permutation (range l) l) -> sinv evs s ->
  assignJobsToUnoccupiedMiner ok range s = (s', o) -> sinv evs s' /\ oinv evs o.
Proof.
  intros Hrange Hs. unfold assignJobsToUnoccupiedMiner.
  destruct (_ <? _); [|intros [= <- <-]; split; [done|constructor]].
  destruct (range_keys_spec range (unOccupiedMiner s) Hrange) as [Hnd Hks].
  apply assignLoop_sinv; [done|apply Hks|done].
Qed.

Lemma joined_mono evs evs' id : evs ⊆ evs' -> joined evs id -> joined evs' id.
Proof. intros Hs (m & ? & ?). exists m. auto. Qed.

(** A new event that keeps [roles] and the miners' table keeps the rest. *)
Definition respects (evs : list event) (ev : event) : Prop :=
  match ev with
  | Got id (Some m) =>
      (Type_ m = Join -> ~ requested evs id) /\ (Type_ m = Request -> ~ joined evs id)
  | _ => True
  end.

Lemma admissible_respects evs s ev : admissible evs s ev -> respects evs ev.
Proof. destruct ev as [|id [m|]]; cbn; naive_solver. Qed.

Lemma roles_event evs ev :
  (forall k, joined evs k -> requested evs k -> False) -> respects evs ev ->
  forall k, joined (evs ++ [ev]) k -> requested (evs ++ [ev]) k -> False.
Proof.
  intros Hr Hev k (m & [Hm|Em%list_elem_of_singleton]%elem_of_app & Ht)
    (m' & [Hm'|E%list_elem_of_singleton]%elem_of_app & Ht').
  - apply (Hr k); [by exists m|by exists m'].
  - subst ev. destruct Hev as [_ Hev]. apply Hev; [done|]. by exists m.
  - subst ev. destruct Hev as [Hev _]. apply Hev; [done|]. by exists m'.
  - subst ev. injection E as <-. rewrite Ht in Ht'. discriminate.
Qed.

Lemma sinv_event evs ev s : respects evs ev -> sinv evs s -> sinv (evs ++ [ev]) s.
Proof.
  intros Hev [Hu Hm Hr Hc]. split; [done| |by apply roles_event|by apply cinv_silent].
  intros k Hk. eapply joined_mono, Hm, Hk. set_solver.
Qed.

Lemma handleFailure_sinv evs id s :
  sinv evs s -> sinv (evs ++ [Lost id]) (handleFailure id s).
Proof.
  intros Hs. pose proof (sinv_event _ (Lost id) _ I Hs) as Hs'. unfold handleFailure.
  destruct (minerCurrWork s !! id) as [w|] eqn:Hw.
  - destruct Hs' as [Hu Hm Hr Hc]. split; cbn; try done.
    + intros k [? [? ?]%lookup_delete_Some]. rewrite lookup_delete_ne by done. eauto.
    + intros k [? [? ?]%lookup_delete_Some]. eauto.
    + eapply cinv_perm; [|exact Hc]. unfold outstanding. cbn.
      rewrite (working_delete _ _ _ Hw). rewrite <- app_assoc. apply Permutation_app_swap_app.
  - destruct (bool_decide _); [done|]. destruct Hs as [Hu Hm Hr Hc], Hs' as [Hu' Hm' Hr' _].
    split; cbn; try done. by apply cinv_lost.
Qed.

(** A search that ended did not go up to the greatest nonce. *)
Lemma search_finished fuel w h n : 0 <= Lower (workMsg w) ->
  calculateMinHash fuel (Data (workMsg w)) (Lower (workMsg w)) (Upper (workMsg w)) = Some (h, n) -> finished w.
Proof.
  intros Hl Hc Hle He. unfold endless in He. rewrite He in Hc, Hle. unfold calculateMinHash in Hc.
  by rewrite minHashLoop_diverges in Hc by lia.
Qed.

(** The result of the work a miner does for a waiting client. *)
Lemma sinv_result evs s id w fuel h n :
  sinv evs s -> minerCurrWork s !! id = Some (Some w) -> is_Some (clients s !! clientWorkFor w) ->
  calculateMinHash fuel (Data (workMsg w)) (Lower (workMsg w)) (Upper (workMsg w)) = Some (h, n) ->
  finished w /\ min_over (Data (workMsg w)) (Lower (workMsg w)) (Upper (workMsg w)) h n.
Proof.
  intros Hs Hw [st Hst] Hc. destruct (cinv_owed _ _ _ (s_cinv _ _ Hs) _ _ Hst) as (m & _ & _ & Hm).
  destruct (owed_work _ _ _ _ Hm w) as (_ & Hl & Hin).
  { unfold outstanding. rewrite (working_delete _ _ _ Hw). apply list_elem_of_filter.
    split; [done|]. set_solver. }
  pose proof (search_finished _ _ _ _ Hl Hc) as Hfin. split; [done|].
  eapply calculateMinHash_sound; [|exact Hc]. intros Hle. split; [done|]. specialize (Hfin Hle).
  destruct Hin as [?|Hin]; [done|]. pose proof (owed_range _ _ _ _ Hm). setoid_rewrite elem_of_nonces in Hin.
  pose proof (Hin (Upper (workMsg w))). unfold endless in Hfin. lia.
Qed.

Lemma updateResult_sinv evs id w h n s s' o :
  sinv evs s -> minerCurrWork s !! id = Some (Some w) ->
  (is_Some (clients s !! clientWorkFor w) -> finished w /\
   min_over (Data (workMsg w)) (Lower (workMsg w)) (Upper (workMsg w)) h n) ->
  updateResult id (NewResult h n) s = Ret (s', o) -> sinv evs s' /\ oinv evs o.
Proof.
  intros Hs Hw Hmin. unfold updateResult. rewrite (map_get_Some _ _ _ _ Hw). cbn.
  set (s1 := mkServer _ _ _ _).
  assert (cinv evs (clients s) (w :: outstanding s1)) as Hc.
  { eapply cinv_perm, s_cinv, Hs. unfold outstanding. cbn.
    rewrite (working_delete _ _ _ Hw), working_insert. cbn. by rewrite Permutation_middle. }
  assert (forall cl, cinv evs cl (outstanding s1) -> sinv evs (s1 <| clients := cl |>)) as Hs1.
  { intros cl Hcl. destruct Hs as [Hu Hm Hr _]. split; cbn; try done.
    - intros k. destruct (decide (k = id)) as [->|]; [by rewrite !lookup_insert_eq|].
      rewrite !lookup_insert_ne by done. apply Hu.
    - intros k [? [[<- _]|[? ?]]%lookup_insert_Some]; eauto. }
  apply cinv_result with (h := h) (n := n) in Hc; [|done].
  destruct (clients s !! clientWorkFor w) as [st|] eqn:Hst; cbn zeta in Hc.
  - destruct (h <? minHash st); cbn in *; destruct (_ =? 0); intros [= <- <-];
      try (destruct Hc as [Hc Hans]; split; [by apply Hs1|apply Forall_singleton; by right]);
      (split; [by apply Hs1|constructor]).
  - intros [= <- <-]. split; [by apply (Hs1 (clients s))|constructor].
Qed.

Lemma partitionJob_sinv evs id m s :
  sinv evs s -> admissible evs s (Got id (Some m)) -> Type_ m = Request -> clients s !! id = None ->
  sinv (evs ++ [Got id (Some m)]) (partitionJob id m s).
Proof.
  intros Hs Ha Ht Hc. pose proof (sinv_event _ _ _ (admissible_respects _ _ _ Ha) Hs) as [Hu Hm Hr _].
  destruct Ha as (Hl & _ & Hq & _). destruct (Hq Ht) as (_ & Hlow & Hup).
  destruct (partitionJob_spec id m s) as (js & Hne & Hw & Hj & ->); [done..|].
  split; cbn; try done. eapply cinv_perm; [|eapply cinv_request; [apply (s_cinv _ _ Hs)|done..|]].
  - unfold outstanding. cbn. rewrite <- !app_assoc. by rewrite (Permutation_app_comm js).
  - by apply owed_new.
Qed.

Lemma handleMessage_sinv evs id m s s' o :
  sinv evs s -> admissible evs s (Got id m) -> handleMessage id m s = Ret (s', o) ->
  sinv (evs ++ [Got id m]) s' /\ oinv (evs ++ [Got id m]) o.
Proof.
  intros Hs Ha. pose proof (sinv_event _ _ _ (admissible_respects _ _ _ Ha) Hs) as Hs'.
  destruct m as [m|]; cbn [handleMessage]; [|intros [= <- <-]; split; [done|constructor]].
  destruct (Type_ m =? Join) eqn:Ej; [|destruct (Type_ m =? Request) eqn:Er;
    [|destruct (Type_ m =? Result) eqn:Es]]; breflect.
  - intros [= <- <-]. split; [|constructor]. destruct Hs' as [Hu Hm Hr Hc].
    assert (minerCurrWork s !! id = None) as Hnone.
    { apply eq_None_not_Some. intros Hsome. destruct Ha as (_ & Hj & _).
      destruct (Hj Ej) as [Hn _]. apply Hn, (s_miner _ _ Hs), Hsome. }
    split; cbn; try done.
    + intros k. destruct (decide (k = id)) as [->|]; [by rewrite !lookup_insert_eq|].
      rewrite !lookup_insert_ne by done. apply Hu.
    + intros k [? [[<- _]|[? ?]]%lookup_insert_Some]; [|eauto]. exists m. split; [set_solver|done].
    + eapply cinv_perm; [|exact Hc]. unfold outstanding. cbn.
      by rewrite working_insert, delete_id.
  - destruct (bool_decide _) eqn:Hc; breflect; intros [= <- <-]; (split; [|constructor]); [|done].
    by apply partitionJob_sinv.
  - destruct Ha as (_ & _ & _ & Ha). destruct (Ha Es) as (w & h & n & fuel & Hw & Hmin & ->).
    intros Hr. eapply updateResult_sinv; [done|done| |done]. intros Hc. by eapply sinv_result.
  - intros [= <- <-]. split; [done|constructor].
Qed.

Lemma mining_run_sinv s evs outs : run s evs outs -> sinv evs s /\ oinv evs outs.
Proof.
  induction 1 as [|s evs outs ok range ev s' o Hrun [IHs IHo] Hrange Ha Hm].
  - split; [|constructor]. split; cbn; try (intros k; rewrite lookup_empty; by intros []).
    + intros k (m & Hm%elem_of_nil & _). done.
    + split; [intros c st; by rewrite lookup_empty|by right].
  - unfold main in Hm. destruct (assignJobsToUnoccupiedMiner ok range s) as [s1 o1] eqn:E1. cbn in Ha.
    apply (assign_sinv evs) in E1 as [Hs1 Ho1]; [|done|done].
    assert (oinv (evs ++ [ev]) (outs ++ o1)) as Ho.
    { eapply oinv_mono; [|by apply Forall_app]. set_solver. }
    destruct ev as [id|id m].
    + injection Hm as <- <-. split; [by apply handleFailure_sinv|done].
    + destruct (handleMessage id m s1) as [[s2 o2]| |] eqn:E2; try discriminate.
      injection Hm as <- <-. apply (handleMessage_sinv evs) in E2 as [? ?]; [|done..].
      split; [done|]. rewrite app_assoc. by apply Forall_app.
Qed.

(** ** Assignment *)

(** The jobs of waiting clients are the same. *)
Definition keeps_work (s s' : server) : Prop :=
  clients s' = clients s /\
  forall c, is_Some (clients s !! c) -> for_client c (outstanding s') ≡ₚ for_client c (outstanding s).

#[export] Instance keeps_work_preorder : PreOrder keeps_work.
Proof.
  split; [by split|]. intros s s' s'' [Hc Hk] [Hc' Hk']. split; [congruence|].
  intros c Hs. rewrite Hk' by (by rewrite Hc). auto.
Qed.

Definition idle (s : server) : Prop :=
  forall k, is_Some (unOccupiedMiner s !! k) -> minerCurrWork s !! k = Some None.

(** An accepted offer leaves the queue empty or the miner busy. *)
Lemma offerJob_accepted ok k : ok k = true -> forall q s s' o,
  idle s -> is_Some (unOccupiedMiner s !! k) -> offerJob ok k q s = (s', o) ->
  idle s' /\ keeps_work (s <| jobQ := q |>) s' /\
  (jobQ s' = [] \/ unOccupiedMiner s' = delete k (unOccupiedMiner s)).
Proof.
  intros Hok. induction q as [|w q IH]; intros s s' o Hs Hk; cbn [offerJob].
  { intros [= <- <-]. split; [done|]. split; [done|by left]. }
  destruct (bool_decide _) eqn:E; breflect.
  - intros Ho. apply IH in Ho as (? & Hkw & ?); [|done..]. split; [done|]. split; [|done].
    etrans; [|exact Hkw]. split; [done|]. cbn. intros c [st Hc]. unfold outstanding. cbn.
    rewrite for_client_other; [done|congruence].
  - rewrite Hok. intros [= <- <-]. split; [|split; [|by right]].
    + intros k'. cbn. intros [? [? ?]%lookup_delete_Some]. rewrite lookup_insert_ne by done. apply Hs. eauto.
    + split; [done|]. intros c _. unfold outstanding. cbn.
      by rewrite working_insert, (working_delete _ _ _ (Hs k Hk)), Permutation_middle.
Qed.

Lemma assignLoop_accepted ok : (forall k, ok k = true) -> forall ks s s' o,
  NoDup ks -> (forall k, k ∈ ks <-> is_Some (unOccupiedMiner s !! k)) -> idle s ->
  assignLoop ok ks s = (s', o) -> keeps_work s s' /\ (jobQ s' = [] \/ unOccupiedMiner s' = ∅).
Proof.
  intros Hok. induction ks as [|k ks IH]; intros s s' o Hnd Hks Hs; cbn [assignLoop].
  { intros [= <- <-]. split; [done|]. right. apply map_empty. intros k.
    apply eq_None_not_Some. intros Hk%Hks. by apply elem_of_nil in Hk. }
  apply NoDup_cons in Hnd as [Hk Hnd].
  destruct (offerJob ok k (jobQ s) s) as [s1 o1] eqn:E1.
  apply (offerJob_accepted ok k (Hok k)) in E1 as (Hs1 & Hw & Hq); [|done|apply Hks; by left].
  rewrite jobQ_id in Hw.
  destruct (Nat.eqb_spec (length (jobQ s1)) 0) as [Hz|Hz].
  { intros [= <- <-]. split; [done|]. left. by apply nil_length_inv. }
  destruct Hq as [Hq|Hq]; [by rewrite Hq in Hz|].
  destruct (assignLoop ok ks s1) as [s2 o2] eqn:E2. intros [= <- <-].
  apply IH in E2 as [? ?]; [|done| |done]; [split; [by etrans|done]|].
  intros k'. rewrite Hq. destruct (decide (k' = k)) as [->|].
  - rewrite lookup_delete_eq. split; [done|by intros []].
  - rewrite lookup_delete_ne, <- Hks by done. set_solver.
Qed.

(** ** Concrete runs *)

Definition accept (_ : Z) : bool := true.
Definition same_order (l : list Z) : list Z := l.

(** Miner 1 joins, client 2 asks about the nonces 0 to 2, miner 1 answers. *)
Definition demo_events : list event :=
  [Got 1 (Some NewJoin); Got 2 (Some (NewRequest "msg" 0 2));
   Got 1 (Some (NewResult 4754799531757243342 1))].

Fixpoint simulate (evs : list event) (s : server) (outs : sends) : outcome (server * sends) :=
  match evs with
  | [] => Ret (s, outs)
  | ev :: evs' => '(s', o) ← main accept same_order ev s; simulate evs' s' (outs ++ o)
  end.

Definition demo_state (n : nat) : server * sends :=
  match simulate (firstn n demo_events) NewServer [] with Ret r => r | _ => (NewServer, []) end.

Lemma demo_step n ev s' o :
  run (demo_state n).1 (firstn n demo_events) (demo_state n).2 ->
  demo_events !! n = Some ev ->
  admissible (firstn n demo_events)
    (assignJobsToUnoccupiedMiner accept same_order (demo_state n).1).1 ev ->
  main accept same_order ev (demo_state n).1 = Ret (s', o) ->
  run s' (firstn (S n) demo_events) ((demo_state n).2 ++ o).
Proof. intros Hr Hev Ha Hm. rewrite (take_S_r _ _ _ Hev). by eapply run_step; [exact Hr| |exact Ha|exact Hm]. Qed.

Lemma mining_demo_run : run (demo_state 3).1 demo_events (demo_state 3).2.
Proof.
  assert (run (demo_state 0).1 (firstn 0 demo_events) (demo_state 0).2) as H by constructor.
  eapply demo_step in H; [|reflexivity| |vm_compute; reflexivity].
  2: { split; [set_solver|]. split; [|by split].
       intros _. split; intros (m & Hm & _); by apply elem_of_nil in Hm. }
  eapply (demo_step 1) in H; [|reflexivity| |vm_compute; reflexivity].
  2: { split; [set_solver|]. split; [done|]. split; [|done]. intros _.
       split; [|split_and!; vm_compute; done].
       intros (m & Hm & _). apply list_elem_of_singleton in Hm. discriminate. }
  eapply (demo_step 2) in H; [exact H|reflexivity| |vm_compute; reflexivity].
  split; [set_solver|]. split; [done|]. split; [done|]. intros _.
  eexists _, _, _, 3%nat. split; [vm_compute; reflexivity|]. split; vm_compute; reflexivity.
Qed.

(** ** Correctness of a run *)

Lemma waiting_owed evs s c st : sinv evs s -> clients s !! c = Some st ->
  0 < notFinishedJob st /\ notFinishedJob st = Z.of_nat (length (for_client c (outstanding s))).
Proof.
  intros Hs Hst. destruct (cinv_owed _ _ _ (s_cinv _ _ Hs) _ _ Hst) as (m & _ & _ & [_ Hc Hne _ _ _]).
  split; [|done]. destruct (for_client _ _); [done|]. cbn in Hc. lia.
Qed.

(** Answers are right and no waiting client is forgotten. When every miner answers its work with what [calculateMinHash] returns, connections are miners or clients for good, and the ranges asked for are proper ones, then in every run, with any losses of miners and clients and any refused writes: each message sent to a client is the least hash over the whole range of a question of that client, however it was partitioned; and each waiting client is still owed at least one unit of work, which is in the queue or at a miner, as many as its counter says. *)
Lemma mining_answers_correct s evs outs :
  run s evs outs ->
  (forall c m, requested evs c -> (c, m) ∈ outs ->
     exists q, Got c (Some q) ∈ evs /\ Type_ q = Request /\ answers q m) /\
  (forall c st, clients s !! c = Some st ->
     0 < notFinishedJob st /\ notFinishedJob st = Z.of_nat (length (for_client c (outstanding s)))).
Proof.
  intros [Hs Ho]%mining_run_sinv. split.
  - intros c m Hq Hin. unfold oinv in Ho. rewrite Forall_forall in Ho.
    destruct (Ho _ Hin) as [Hj|]; [|done]. by destruct (s_roles _ _ Hs c Hj Hq).
  - intros c st Hst. by eapply waiting_owed.
Qed.

Lemma mining_answers_correct_witness :
  exists q, Got 2 (Some q) ∈ demo_events /\ Type_ q = Request /\
    answers q (NewResult 4754799531757243342 1).
Proof.
  apply (proj1 (mining_answers_correct _ _ _ mining_demo_run)).
  - eexists. split; [right; left|reflexivity].
  - vm_compute. right. left.
Defined.

(** Assignment is work-conserving. When the connections accept their messages, [assignJobsToUnoccupiedMiner] ends with no job in the queue or no miner unoccupied, in whatever order it visits the miners, and loses or duplicates no job of a waiting client. *)
Lemma assignment_work_conserving ok range s s' o :
  (forall k, ok k = true) -> (forall l, Permutation (range l) l) -> idle s ->
  assignJobsToUnoccupiedMiner ok range s = (s', o) ->
  keeps_work s s' /\ (jobQ s' = [] \/ unOccupiedMiner s' = ∅).
Proof.
  intros Hok Hrange Hs. unfold assignJobsToUnoccupiedMiner. destruct (0 <? _) eqn:E; breflect.
  - destruct (range_keys_spec range (unOccupiedMiner s) Hrange). by apply assignLoop_accepted.
  - intros [= <- <-]. split; [done|]. left. apply nil_length_inv. lia.
Qed.

Lemma assignment_work_conserving_witness :
  let s := partitionJob 9 (NewRequest "msg" 0 5) (NewServer <| minerCurrWork := {[1 := None]} |>
             <| unOccupiedMiner := {[1 := true]} |>) in
  exists s' o, assignJobsToUnoccupiedMiner accept same_order s = (s', o) /\ length o = 1%nat /\
    keeps_work s s' /\ (jobQ s' = [] \/ unOccupiedMiner s' = ∅).
Proof.
  intros s. eexists _, _. split; [vm_compute; reflexivity|]. split; [reflexivity|].
  eapply (assignment_work_conserving accept same_order s); [done|done| |vm_compute; reflexivity].
  unfold idle.
  change (unOccupiedMiner s) with ({[1 := true]} : gmap Z bool).
  intros k [v [<- _]%lookup_singleton_Some]. reflexivity.
Defined.

(** A misbehaving peer breaks the server. A Result message from any connection that has no work dereferences a nil work unit; so one stray message stops the server. And a miner that joins a second time while it works makes the server forget that work: the client is then waiting for ever for a job that is neither queued nor at a miner. *)
Lemma misbehaving_peers :
  (forall id m s, Type_ m = Result -> map_get None (minerCurrWork s) id = None ->
     handleMessage id (Some m) s = Panic) /\
  exists s o st, simulate [Got 1 (Some NewJoin); Got 2 (Some (NewRequest "msg" 0 2));
                           Got 1 (Some NewJoin)] NewServer [] = Ret (s, o) /\
    clients s !! 2 = Some st /\ notFinishedJob st = 1 /\ outstanding s = [].
Proof.
  split.
  - intros id m s Ht Hw. cbn. rewrite Ht. cbn. unfold updateResult. by rewrite Hw.
  - eexists _, _, _. split; [vm_compute; reflexivity|]. split_and!; vm_compute; reflexivity.
Qed.

End MiningServer.
