(* ===== verification/BitcoinSystem.v ===== *)
(** * BitcoinSystem: the mining service as a whole

    The programs of [p1/.../bitcoin/client/client.go] and [miner/miner.go], and
    any number of them with the server of [BitcoinServer], connected by what the
    lsp package promises ([LspSystem]): per connection and direction, what is
    read is a prefix of what was written.  Messages travel as JSON texts
    ([BitcoinJson]).  A message may get stuck for good with its connection, any
    program may stop, and the server may be told at any time that a connection
    is lost.

    - [Module BitcoinClient], [Module BitcoinMinerMain]: the two programs.
    - [Module MiningSystem]: the system as a transition relation; its
      invariant; every answer a client prints is right, and the server never
      meets a message it panics on. *)
From S2P Require Import Prelude GoJson BitcoinMiner BitcoinJson BitcoinServer.
Open Scope Z_scope.

(** ** The client *)

Module BitcoinClient.
Import Json Bitcoin BitcoinCodec.

Definition printDisconnected : string := "Disconnected".
Definition printResult (hash nonce : string) : string := "Result " ++ hash ++ " " ++ nonce.
Definition FormatUint (n : Z) : string := str (appendUint n).

(** The text of the question. *)
Definition question (data : string) (maxNonce : Z) : text := Marshal (NewRequest data 0 maxNonce).

(** What is printed for the result of [Read]. *)
Definition answer (read : option text) : string :=
  match read with
  | None => printDisconnected
  | Some buf =>
      match Unmarshal buf with
      | None => "error when unmarshalling"
      | Some resultMsg => printResult (FormatUint (Hash_ resultMsg)) (FormatUint (Nonce resultMsg))
      end
  end.

(** The line the program prints; [dial] and [write] are whether [NewClient] and
    [Write] succeed, [read] is what [Read] returns. *)
Definition main (args : list string) (dial : string -> bool) (write : text -> bool)
    (read : option text) : string :=
  match args with
  | [_; hostport; data; arg3] =>
      match parseUint (lit arg3) with
      | None => "error when parsing maxNonce"
      | Some maxNonce =>
          if negb (dial hostport) then "cannot craete client or connect to the server"
          else if negb (write (question data maxNonce)) then "unable to write to server, connection lost"
          else answer read
      end
  | _ => "Usage: ./client <hostport> <message> <maxNonce>"
  end.

End BitcoinClient.

(** ** The miner *)

Module BitcoinMinerMain.
Import Json Bitcoin BitcoinCodec.

Definition joinText : text := Marshal NewJoin.

(** The loop: what it writes for the results of [Read]; the program ends with
    the first error.  [None]: a search has not ended within [fuel]. *)
Fixpoint loop (fuel : nat) (reads : list (option text)) : option (list text) :=
  match reads with
  | [] => Some []
  | read :: reads' =>
      st ← minerMain fuel Unmarshal read;
      match st with
      | MinerExit => Some []
      | MinerSend m => out ← loop fuel reads'; Some (Marshal m :: out)
      end
  end.

Definition main (fuel : nat) (args : list string) (dial : string -> bool) (write : text -> bool)
    (reads : list (option text)) : option (list text) :=
  match args with
  | [_; hostport] =>
      if negb (dial hostport) then Some []
      else if negb (write joinText) then Some []
      else out ← loop fuel reads; Some (joinText :: out)
  | _ => Some []
  end.

End BitcoinMinerMain.

(** ** The system *)

Module MiningSystem.
Import Json Bitcoin BitcoinCodec MiningServer.

Inductive program :=
  | Miner (running : bool)
  | Client (data : string) (maxNonce : Z) (printed : option string).

(** A connection: the program at its end, the texts on their way to the server
    and from it, and whether the server was told that it is lost. *)
Record conn := mkConn { who : program; up : list text; down : list text; lost : bool }.

#[export] Instance eta_conn : EtaRecord conn := fun c => mkConn (who c) (up c) (down c) (lost c).

(** [reading] tells the two halves of an iteration of the server's loop apart;
    [evs] and [outs] are the history. *)
Record system := mkSystem {
  srv : server; reading : bool; conns : gmap Z conn; evs : list event; outs : sends }.

Definition initial : system := mkSystem NewServer false ∅ [] [].

(** The texts of [o] for connection [id]. *)
Definition texts_to (id : Z) (o : sends) : list text :=
  (fun x => Marshal x.2) <$> filter (fun x : Z * Message => x.1 = id) o.

(** What the server wrote goes to the connections that still carry. *)
Definition delivered (carries : Z -> bool) (o : sends) (id : Z) (c : conn) : conn :=
  if carries id then c <| down := down c ++ texts_to id o |> else c.
Definition deliver (carries : Z -> bool) (o : sends) (cs : gmap Z conn) : gmap Z conn :=
  map_imap (fun id c => Some (delivered carries o id c)) cs.

Inductive step : system -> system -> Prop :=
  (** A program starts and writes its first message. *)
  | step_miner s r cs es os id :
      cs !! id = None ->
      step (mkSystem s r cs es os)
           (mkSystem s r (<[id := mkConn (Miner true) [BitcoinMinerMain.joinText] [] false]> cs) es os)
  | step_client s r cs es os id data maxNonce :
      cs !! id = None -> 0 <= maxNonce <= max_uint64 ->
      step (mkSystem s r cs es os)
           (mkSystem s r (<[id := mkConn (Client data maxNonce None)
              [BitcoinClient.question data maxNonce] [] false]> cs) es os)
  (** The server: assign, then read a message or that a connection is lost. *)
  | step_assign s cs es os ok range carries s' o :
      (forall l, Permutation (range l) l) ->
      assignJobsToUnoccupiedMiner ok range s = (s', o) ->
      step (mkSystem s false cs es os) (mkSystem s' true (deliver carries o cs) es (os ++ o))
  | step_read s cs es os carries id c p ps s' o :
      cs !! id = Some c -> lost c = false -> up c = p :: ps ->
      handleIncomeMessage Unmarshal id p s = Ret (s', o) ->
      step (mkSystem s true cs es os)
           (mkSystem s' false (deliver carries o (<[id := c <| up := ps |>]> cs))
              (es ++ [Got id (Unmarshal p)]) (os ++ o))
  | step_lost s cs es os id c :
      cs !! id = Some c -> lost c = false ->
      step (mkSystem s true cs es os)
           (mkSystem (handleFailure id s) false (<[id := c <| lost := true |>]> cs)
              (es ++ [Lost id]) os)
  (** A miner's turn; [sent] is whether its answer gets on the way. *)
  | step_mine s r cs es os id c p ps fuel m sent :
      cs !! id = Some c -> who c = Miner true -> down c = p :: ps ->
      minerMain fuel Unmarshal (Some p) = Some (MinerSend m) ->
      step (mkSystem s r cs es os)
           (mkSystem s r (<[id := c <| down := ps |>
              <| up := if sent : bool then up c ++ [Marshal m] else up c |>]> cs) es os)
  | step_miner_exit s r cs es os id c :
      cs !! id = Some c -> who c = Miner true ->
      step (mkSystem s r cs es os) (mkSystem s r (<[id := c <| who := Miner false |>]> cs) es os)
  (** A client's [Read] returns. *)
  | step_print s r cs es os id c data maxNonce p ps :
      cs !! id = Some c -> who c = Client data maxNonce None -> down c = p :: ps ->
      step (mkSystem s r cs es os)
           (mkSystem s r (<[id := c <| down := ps |>
              <| who := Client data maxNonce (Some (BitcoinClient.answer (Some p))) |>]> cs) es os)
  | step_disconnected s r cs es os id c data maxNonce :
      cs !! id = Some c -> who c = Client data maxNonce None ->
      step (mkSystem s r cs es os)
           (mkSystem s r (<[id := c
              <| who := Client data maxNonce (Some (BitcoinClient.answer None)) |>]> cs) es os).

#[local] Arguments Marshal : simpl never.
#[local] Arguments Unmarshal : simpl never.
#[local] Arguments BitcoinClient.question : simpl never.
#[local] Arguments BitcoinClient.answer : simpl never.
#[local] Arguments BitcoinMinerMain.joinText : simpl never.

(** ** What one step of the server does to the miners *)

(** The messages of [o] for connection [k]. *)
Definition to_conn (k : Z) (o : sends) : sends := filter (fun x : Z * Message => x.1 = k) o.

Lemma to_conn_app k o o' : to_conn k (o ++ o') = to_conn k o ++ to_conn k o'.
Proof. apply filter_app. Qed.

(** Connection [k] got nothing, or the work it now has. *)
Definition assigned (s s' : server) (o : sends) (k : Z) : Prop :=
  (minerCurrWork s' !! k = minerCurrWork s !! k /\ to_conn k o = []) \/
  (minerCurrWork s !! k = Some None /\ exists w, w ∈ outstanding s /\
     minerCurrWork s' !! k = Some (Some w) /\ to_conn k o = [(k, workMsg w)]).

Definition untouched (s s' : server) (o : sends) (k : Z) : Prop :=
  minerCurrWork s' !! k = minerCurrWork s !! k /\ to_conn k o = [].

Lemma outstanding_queue s q : outstanding (s <| jobQ := q |>) = q ++ working (minerCurrWork s).
Proof. done. Qed.

Lemma offerJob_effect ok k : forall q s s' o,
  idle s -> is_Some (unOccupiedMiner s !! k) -> offerJob ok k q s = (s', o) ->
  idle s' /\ (forall k', k' <> k -> unOccupiedMiner s' !! k' = unOccupiedMiner s !! k') /\
  outstanding s' ⊆ outstanding (s <| jobQ := q |>) /\
  assigned (s <| jobQ := q |>) s' o k /\ (forall k', k' <> k -> untouched s s' o k').
Proof.
  induction q as [|w q IH]; intros s s' o Hs Hk; cbn [offerJob].
  { intros [= <- <-]. split_and!; [done|done|done|by left|done]. }
  destruct (bool_decide _) eqn:E; breflect.
  - intros Ho. apply IH in Ho as (? & ? & Hsub & Ha & ?); [|done..]. split_and!; try done.
    + rewrite outstanding_queue in *. set_solver.
    + destruct Ha as [?|(? & w' & Hin & ?)]; [by left|right]. split; [done|]. exists w'.
      split; [|done]. rewrite outstanding_queue in *. set_solver.
  - destruct (ok k) eqn:Eo.
    + intros [= <- <-]. split_and!.
      * intros k'. cbn. intros [? [? ?]%lookup_delete_Some]. rewrite lookup_insert_ne by done. apply Hs. eauto.
      * intros k' ?. cbn. by rewrite lookup_delete_ne.
      * unfold outstanding. cbn. intros x. rewrite working_insert, (working_delete _ _ _ (Hs k Hk)).
        cbn. set_solver.
      * right. split; [by apply Hs|]. exists w. split_and!.
        -- rewrite outstanding_queue. set_solver.
        -- cbn. by rewrite lookup_insert_eq.
        -- unfold to_conn. by rewrite filter_cons_True.
      * intros k' ?. split; [cbn; by rewrite lookup_insert_ne|].
        unfold to_conn. by rewrite filter_cons_False.
    + intros [= <- <-]. split_and!; [done|done|done|by left|done].
Qed.

Lemma assignLoop_effect ok : forall ks s s' o,
  NoDup ks -> (forall k, k ∈ ks -> is_Some (unOccupiedMiner s !! k)) -> idle s ->
  assignLoop ok ks s = (s', o) ->
  outstanding s' ⊆ outstanding s /\ (forall k, assigned s s' o k) /\
  (forall k, k ∉ ks -> untouched s s' o k).
Proof.
  induction ks as [|k ks IH]; intros s s' o Hnd Hks Hs; cbn [assignLoop].
  { intros [= <- <-]. split_and!; [done|by left|done]. }
  apply NoDup_cons in Hnd as [Hk Hnd].
  destruct (offerJob ok k (jobQ s) s) as [s1 o1] eqn:E1.
  apply offerJob_effect in E1 as (Hs1 & Hun & Hsub & Ha & Hu); [|done|apply Hks; by left].
  rewrite jobQ_id in *.
  destruct (Nat.eqb _ _).
  { intros [= <- <-]. split_and!; [done| |].
    - intros k'. destruct (decide (k' = k)) as [->|]; [done|left; by apply Hu].
    - intros k' [? ?]%not_elem_of_cons. by apply Hu. }
  destruct (assignLoop ok ks s1) as [s2 o2] eqn:E2. intros [= <- <-].
  apply IH in E2 as (Hsub2 & Ha2 & Hu2); [|done| |done].
  2:{ intros k' Hk'. rewrite Hun by (intros ->; done). apply Hks. by right. }
  assert (Hother : forall k', k' <> k -> k' ∉ ks -> untouched s s2 (o1 ++ o2) k').
  { intros k' Hne Hin. destruct (Hu k' Hne) as [Hm Ho], (Hu2 k' Hin) as [Hm2 Ho2].
    split; [congruence|]. by rewrite to_conn_app, Ho, Ho2. }
  split_and!.
  - set_solver.
  - intros k'. destruct (decide (k' = k)) as [->|Hne].
    + destruct (Hu2 k Hk) as [Hm2 Ho2]. unfold assigned. rewrite to_conn_app, Ho2, Hm2, app_nil_r. exact Ha.
    + destruct (Hu k' Hne) as [Hm Ho]. unfold assigned. rewrite to_conn_app, Ho, <- Hm. cbn.
      destruct (Ha2 k') as [?|(? & w & Hin & ?)]; [by left|right]. split; [done|]. exists w.
      split; [by apply Hsub|done].
  - intros k' [? ?]%not_elem_of_cons. by apply Hother.
Qed.

Lemma assign_effect ok range s s' o :
  (forall l, Permutation (range l) l) -> idle s -> assignJobsToUnoccupiedMiner ok range s = (s', o) ->
  outstanding s' ⊆ outstanding s /\ (forall k, assigned s s' o k).
Proof.
  intros Hrange Hs. unfold assignJobsToUnoccupiedMiner. destruct (0 <? _).
  - destruct (range_keys_spec range (unOccupiedMiner s) Hrange) as [Hnd Hks]. intros Ha.
    apply assignLoop_effect in Ha as (? & ? & _); [done|done|apply Hks|done].
  - intros [= <- <-]. split; [done|by left].
Qed.

(** Assignment keeps the clients, and the work for those that wait. *)
Definition keeps_jobs (s s' : server) : Prop :=
  clients s' = clients s /\
  forall w, w ∈ outstanding s -> is_Some (clients s !! clientWorkFor w) -> w ∈ outstanding s'.

Lemma offerJob_jobs ok k : forall q s s' o,
  idle s -> is_Some (unOccupiedMiner s !! k) -> offerJob ok k q s = (s', o) ->
  keeps_jobs (s <| jobQ := q |>) s'.
Proof.
  induction q as [|w q IH]; intros s s' o Hs Hk; cbn [offerJob]; [by intros [= <- <-]|].
  destruct (bool_decide _) eqn:E; breflect.
  - intros Ho. apply IH in Ho as [Hc Hw]; [|done..]. split; [done|]. intros w' Hin Hsome. apply Hw; [|done].
    rewrite outstanding_queue in *. apply elem_of_app in Hin as [[->|?]%elem_of_cons|?]; [|set_solver..].
    cbn in Hsome. rewrite E in Hsome. by destruct Hsome.
  - destruct (ok k); intros [= <- <-]; [|done]. split; [done|]. intros w' Hin _. revert Hin.
    unfold outstanding. cbn. rewrite working_insert, (working_delete _ _ _ (Hs k Hk)). cbn. set_solver.
Qed.

Lemma assignLoop_jobs ok : forall ks s s' o,
  NoDup ks -> (forall k, k ∈ ks -> is_Some (unOccupiedMiner s !! k)) -> idle s ->
  assignLoop ok ks s = (s', o) -> keeps_jobs s s'.
Proof.
  induction ks as [|k ks IH]; intros s s' o Hnd Hks Hs; cbn [assignLoop]; [by intros [= <- <-]|].
  apply NoDup_cons in Hnd as [Hk Hnd]. destruct (offerJob ok k (jobQ s) s) as [s1 o1] eqn:E1.
  pose proof (offerJob_jobs ok k _ _ _ _ Hs (Hks k ltac:(by left)) E1) as [Hc1 Hj1]. rewrite jobQ_id in *.
  apply offerJob_effect in E1 as (Hs1 & Hun & _); [|done|apply Hks; by left].
  destruct (Nat.eqb _ _); [by intros [= <- <-]|].
  destruct (assignLoop ok ks s1) as [s2 o2] eqn:E2. intros [= <- <-].
  apply IH in E2 as [Hc2 Hj2]; [|done| |done].
  2:{ intros k' Hk'. rewrite Hun by (intros ->; done). apply Hks. by right. }
  split; [congruence|]. intros w Hin Hsome. apply Hj2; [by apply Hj1|by rewrite Hc1].
Qed.

Lemma assign_jobs ok range s s' o :
  (forall l, Permutation (range l) l) -> idle s -> assignJobsToUnoccupiedMiner ok range s = (s', o) ->
  keeps_jobs s s'.
Proof.
  intros Hrange Hs. unfold assignJobsToUnoccupiedMiner. destruct (0 <? _); [|by intros [= <- <-]].
  destruct (range_keys_spec range (unOccupiedMiner s) Hrange) as [Hnd Hks].
  apply assignLoop_jobs; [done|apply Hks|done].
Qed.

(** A message changes the work of its sender alone, and answers go to clients
    that wait. *)
Lemma handleMessage_effect id m s s' o : handleMessage id m s = Ret (s', o) ->
  (forall k, k <> id -> minerCurrWork s' !! k = minerCurrWork s !! k) /\
  (forall c m', (c, m') ∈ o -> is_Some (clients s !! c)).
Proof.
  assert (Hnil : forall c m', (c, m') ∈ ([] : sends) -> is_Some (clients s !! c)) by
    (intros c m' Hin; by apply elem_of_nil in Hin).
  destruct m as [m|]; cbn [handleMessage]; [|by intros [= <- <-]].
  destruct (Type_ m =? Join).
  { intros [= <- <-]. split; [|done]. intros k ?. cbn. by rewrite lookup_insert_ne. }
  destruct (Type_ m =? Request).
  { destruct (bool_decide _); intros [= <- <-]; (split; [|done]); intros k ?; [|done].
    unfold partitionJob. by destruct (_ <=? _). }
  destruct (Type_ m =? Result); [|by intros [= <- <-]].
  unfold updateResult. destruct (map_get None _ id) as [w|]; [|done]. cbn.
  destruct (clients s !! clientWorkFor w) as [st|] eqn:Ec; cbn.
  - destruct (_ <? _); cbn; destruct (_ =? 0); intros [= <- <-]; cbn;
      (split; [intros k ?; by rewrite lookup_insert_ne|]);
      first [done|intros c m' [= -> ->]%list_elem_of_singleton; by rewrite Ec].
  - intros [= <- <-]. split; [|done]. intros k ?. cbn. by rewrite lookup_insert_ne.
Qed.

(** ** Work that survives the wire *)

Definition portable (m : Message) : Prop := encodable m /\ received m = m.

Lemma portable_wire m : portable m -> Unmarshal (Marshal m) = Some m.
Proof. intros [He Hr]. by rewrite decode_encode, Hr. Qed.

Lemma portable_request d l u : coerceS d = d -> uint64 l -> uint64 u -> portable (NewRequest d l u).
Proof.
  intros Hd Hl Hu. split; [|unfold received; cbn [NewRequest Type_ Data Lower Upper Hash_ Nonce]; by rewrite Hd].
  split_and!; try done; cbn; unfold uint64, max_uint64; lia.
Qed.

Lemma portable_result h n : uint64 h -> uint64 n -> portable (NewResult h n).
Proof. intros Hh Hn. split; [|done]. split_and!; try done; cbn; unfold uint64, max_uint64; lia. Qed.

Lemma wrap_uint64 z : uint64 (wrap_u 64 z).
Proof. pose proof (wrap_u_range 64 z ltac:(lia)). unfold uint64, max_uint64. lia. Qed.

Lemma partition_portable id m s w :
  coerceS (Data m) = Data m -> uint64 (Lower m) -> uint64 (Upper m) ->
  w ∈ jobQ (partitionJob id m s) -> w ∈ jobQ s \/ portable (workMsg w).
Proof.
  intros Hd Hl Hu. unfold partitionJob. destruct (_ <=? _); cbn.
  - intros [? | ->%list_elem_of_singleton]%elem_of_app; [by left|right]. by apply portable_request.
  - intros [?|Hin]%elem_of_app; [by left|right]. apply list_elem_of_fmap in Hin as (i & -> & _).
    apply portable_request; [done|apply wrap_uint64|]. destruct (_ =? _); [done|apply wrap_uint64].
Qed.

Lemma working_elem m w : w ∈ working m <-> exists k, m !! k = Some (Some w).
Proof.
  unfold working. rewrite list_elem_of_omap. split.
  - intros ([k o] & Hin%elem_of_map_to_list & E). exists k. cbn in E. by subst o.
  - intros [k Hk]. exists (k, Some w). split; [by apply elem_of_map_to_list|done].
Qed.

Lemma working_insert_None m k w : w ∈ working (<[k := None]> m) -> w ∈ working m.
Proof.
  rewrite !working_elem. intros (k' & [[_ E]|[_ Hk]]%lookup_insert_Some); [done|eauto].
Qed.

(** What is outstanding after a message was so before, or comes from it. *)
Lemma handleMessage_jobs id m s s' o w : handleMessage id m s = Ret (s', o) ->
  w ∈ outstanding s' ->
  w ∈ outstanding s \/
  exists q, m = Some q /\ Type_ q = Request /\ w ∈ jobQ (partitionJob id q s).
Proof.
  destruct m as [m|]; cbn [handleMessage]; [|intros [= <- <-]; by left].
  destruct (Type_ m =? Join).
  { intros [= <- <-]. unfold outstanding. cbn [jobQ minerCurrWork]. intros Hin; left; revert Hin; rewrite !elem_of_app; intros [?|?%working_insert_None]; auto. }
  destruct (Type_ m =? Request) eqn:Er; breflect.
  { destruct (bool_decide _); intros [= <- <-]; [|by left]. intros [Hin|Hin]%elem_of_app; [right; eauto|].
    left. unfold outstanding. apply elem_of_app. right. revert Hin. unfold partitionJob. by destruct (_ <=? _). }
  destruct (Type_ m =? Result); [|intros [= <- <-]; by left].
  unfold updateResult. destruct (map_get None _ id) as [w'|]; [|done]. cbn.
  intros H1 Hin. left. assert (Hs : jobQ s' = jobQ s /\ minerCurrWork s' = <[id := None]> (minerCurrWork s)).
  { destruct (clients s !! clientWorkFor w') as [st|]; [|by injection H1 as <- <-].
    destruct (_ <? _); cbn in H1; destruct (_ =? 0); by injection H1 as <- <-. }
  destruct Hs as [Hq Hm]. revert Hin. unfold outstanding. rewrite Hq, Hm.
  intros [?|?%working_insert_None]%elem_of_app; set_solver.
Qed.

Lemma handleFailure_jobs id s w : w ∈ outstanding (handleFailure id s) -> w ∈ outstanding s.
Proof.
  unfold handleFailure, outstanding. destruct (minerCurrWork s !! id) as [cw|] eqn:E; cbn.
  - rewrite (working_delete _ _ _ E). destruct cw; cbn; set_solver.
  - by destruct (bool_decide _).
Qed.

(** A search's result fits the wire. *)
Lemma calculate_uint64 fuel data lower upper h n : uint64 lower ->
  calculateMinHash fuel data lower upper = Some (h, n) -> uint64 h /\ uint64 n.
Proof.
  unfold calculateMinHash. intros Hl.
  assert (Hgo : forall h0 n0, uint64 h0 -> uint64 n0 ->
    minHashLoop fuel data lower upper h0 n0 = Some (h, n) -> uint64 h /\ uint64 n).
  2:{ apply Hgo; unfold uint64, max_uint64; lia. }
  revert lower Hl. induction fuel as [|fuel IH]; intros i Hi h0 n0 Hh Hn; cbn [minHashLoop];
    destruct (_ <=? _); try done; try (by intros [= <- <-]).
  destruct (_ <? _); apply IH; try done; try apply wrap_uint64. apply Hash_range.
Qed.

(** ** The invariant *)

(** The state of a miner's connection that the server was not told is lost. *)
Definition miner_state (s : server) (es : list event) (id : Z) (c : conn) : Prop :=
  (minerCurrWork s !! id = None /\ up c = [BitcoinMinerMain.joinText] /\ down c = [] /\ ~ joined es id) \/
  (minerCurrWork s !! id = Some None /\ up c = [] /\ down c = []) \/
  (exists w, minerCurrWork s !! id = Some (Some w) /\
     ((up c = [] /\ (down c = [] \/ down c = [Marshal (workMsg w)])) \/
      (down c = [] /\ exists h n fuel,
         calculateMinHash fuel (Data (workMsg w)) (Lower (workMsg w)) (Upper (workMsg w)) = Some (h, n) /\
         uint64 h /\ uint64 n /\ up c = [Marshal (NewResult h n)]))).

Definition asked (id : Z) (data : string) (maxNonce : Z) : event :=
  Got id (Some (NewRequest (coerceS data) 0 maxNonce)).

Record client_state (es : list event) (os : sends) (id : Z) (c : conn) (data : string) (maxNonce : Z)
    (printed : option string) : Prop := {
  cs_range : 0 <= maxNonce <= max_uint64;
  cs_past : forall mo, Got id mo ∈ es -> Got id mo = asked id data maxNonce;
  cs_up : up c = [] \/
    (up c = [BitcoinClient.question data maxNonce] /\ forall mo, Got id mo ∉ es);
  cs_down : forall p, p ∈ down c -> exists m, (id, m) ∈ os /\ p = Marshal m;
  cs_printed : forall l, printed = Some l -> l = BitcoinClient.printDisconnected \/
    exists m, (id, m) ∈ os /\ l = BitcoinClient.answer (Some (Marshal m)) }.

Definition conn_ok (s : server) (es : list event) (os : sends) (id : Z) (c : conn) : Prop :=
  match who c with
  | Miner _ =>
      (forall mo, Got id mo ∈ es -> exists m, mo = Some m /\ Type_ m <> Request) /\
      (lost c = false -> miner_state s es id c)
  | Client data maxNonce printed => client_state es os id c data maxNonce printed
  end.

Record sys_inv (t : system) : Prop := {
  si_sinv : sinv (evs t) (srv t);
  si_oinv : oinv (evs t) (outs t);
  si_lost : forall id, Lost id ∈ evs t -> exists c, conns t !! id = Some c /\ lost c = true;
  si_new : forall id mo, Got id mo ∈ evs t -> is_Some (conns t !! id);
  si_jobs : forall w, w ∈ outstanding (srv t) -> portable (workMsg w);
  si_conn : forall id c, conns t !! id = Some c -> conn_ok (srv t) (evs t) (outs t) id c }.

Lemma deliver_lookup carries o cs id c : deliver carries o cs !! id = Some c ->
  exists c0, cs !! id = Some c0 /\ c = delivered carries o id c0.
Proof.
  unfold deliver. rewrite map_lookup_imap. destruct (cs !! id) as [c0|]; [|done].
  cbn. intros [= <-]. eauto.
Qed.

Lemma deliver_is_Some carries o cs id : is_Some (deliver carries o cs !! id) <-> is_Some (cs !! id).
Proof. unfold deliver. rewrite map_lookup_imap. destruct (cs !! id); cbn; split; intros []; eauto; done. Qed.

Lemma delivered_keeps carries o id c :
  who (delivered carries o id c) = who c /\ up (delivered carries o id c) = up c /\
  lost (delivered carries o id c) = lost c.
Proof. unfold delivered. by destruct (carries id). Qed.

Lemma delivered_nil carries o id c : to_conn id o = [] -> down (delivered carries o id c) = down c.
Proof.
  intros E. unfold delivered, texts_to. fold (to_conn id o). rewrite E. destruct (carries id); [|done].
  cbn. by rewrite app_nil_r.
Qed.

(** A client's connection after a delivery. *)
Lemma client_deliver es es' os o carries id c data n pr :
  client_state es os id c data n pr -> (forall mo, Got id mo ∈ es' -> Got id mo ∈ es) ->
  client_state es' (os ++ o) id (delivered carries o id c) data n pr.
Proof.
  intros [Hr Hp Hu Hd Hpr] Hes. destruct (delivered_keeps carries o id c) as (_ & Eu & _). split.
  - done.
  - eauto.
  - rewrite Eu. destruct Hu as [?|[? Hn]]; [by left|right]. split; [done|].
    intros mo Hin. by apply (Hn mo), Hes.
  - intros p Hin. assert (p ∈ down c \/ p ∈ texts_to id o) as [Hin'|Hin'].
    { unfold delivered in Hin. destruct (carries id); [|by left]. by apply elem_of_app. }
    + destruct (Hd p Hin') as (m & ? & ->). exists m. split; [set_solver|done].
    + apply list_elem_of_fmap in Hin' as ([id' m] & -> & Hf). apply list_elem_of_filter in Hf as [E Hin'].
      cbn in E. subst id'. exists m. split; [set_solver|done].
  - intros l El. destruct (Hpr l El) as [?|(m & ? & ?)]; [by left|right]. exists m. split; [set_solver|done].
Qed.

(** ** Preservation *)

(** A connection changes, the server does not. *)
Lemma update_inv s r r' cs es os id c :
  sys_inv (mkSystem s r cs es os) -> conn_ok s es os id c -> (Lost id ∈ es -> lost c = true) ->
  sys_inv (mkSystem s r' (<[id := c]> cs) es os).
Proof.
  intros [Hs Ho Hl Hn Hj Hc] Hok Hlost. cbn [srv reading conns evs outs] in *. split; cbn; try done.
  - intros id' Hin. destruct (decide (id' = id)) as [->|].
    + exists c. rewrite lookup_insert_eq. auto.
    + rewrite lookup_insert_ne by done. auto.
  - intros id' mo Hin. apply lookup_insert_is_Some'. right. eauto.
  - intros id' c' [[<- <-]|[? ?]]%lookup_insert_Some; eauto.
Qed.

Lemma joined_other es id ev : (forall m, ev <> Got id m) -> joined (es ++ [ev]) id -> joined es id.
Proof.
  intros Hne (m & [Hin|E%list_elem_of_singleton]%elem_of_app & Ht); [by exists m|].
  by destruct (Hne (Some m)).
Qed.

(** Miners are not asked by clients, so no answer goes to them. *)
Lemma no_answer_to_miner es s id k mo s' o :
  sinv es s -> (forall mo, Got k mo ∈ es -> exists m, mo = Some m /\ Type_ m <> Request) ->
  handleMessage id mo s = Ret (s', o) -> to_conn k o = [].
Proof.
  intros Hs Hp Hm. destruct (to_conn k o) as [|[k' m] l] eqn:E; [done|]. exfalso.
  assert (Hin : (k', m) ∈ to_conn k o) by (rewrite E; by left).
  apply list_elem_of_filter in Hin as [Ek Hin]. cbn in Ek. subst k'.
  destruct (proj2 (handleMessage_effect _ _ _ _ _ Hm) _ _ Hin) as [st Hst].
  destruct (cinv_owed _ _ _ (s_cinv _ _ Hs) _ _ Hst) as (q & Hq & Ht & _).
  destruct (Hp _ Hq) as (q' & [= <-] & ?). done.
Qed.

(** A miner's connection while the server does something else. *)
Lemma miner_kept s s' es es' carries o id c :
  minerCurrWork s' !! id = minerCurrWork s !! id -> to_conn id o = [] ->
  (joined es' id -> joined es id) ->
  miner_state s es id c -> miner_state s' es' id (delivered carries o id c).
Proof.
  intros Hm Ho Hj. unfold miner_state. destruct (delivered_keeps carries o id c) as (_ & -> & _).
  rewrite Hm, (delivered_nil _ _ _ _ Ho). intuition.
Qed.

Lemma assign_inv s cs es os ok range carries s' o :
  (forall l, Permutation (range l) l) -> assignJobsToUnoccupiedMiner ok range s = (s', o) ->
  sys_inv (mkSystem s false cs es os) -> sys_inv (mkSystem s' true (deliver carries o cs) es (os ++ o)).
Proof.
  intros Hrange Ha [Hs Ho Hl Hn Hj Hc]. cbn [srv reading conns evs outs] in *.
  destruct (assign_sinv es _ _ _ _ _ Hrange Hs Ha) as [Hs' Ho'].
  destruct (assign_effect _ _ _ _ _ Hrange (s_unocc _ _ Hs) Ha) as [Hsub Heff]. split; cbn.
  - done.
  - by apply Forall_app.
  - intros id Hin. destruct (Hl id Hin) as (c & Hid & Hlost). exists (delivered carries o id c).
    unfold deliver. rewrite map_lookup_imap, Hid. by rewrite (proj2 (proj2 (delivered_keeps _ _ _ _))).
  - intros id mo Hin. apply deliver_is_Some. eauto.
  - eauto.
  - intros id c (c0 & Hid & ->)%deliver_lookup. specialize (Hc id c0 Hid). unfold conn_ok in *.
    destruct (delivered_keeps carries o id c0) as (Ew & Eu & El). rewrite Ew, El.
    destruct (who c0) as [b|data n pr]; [|by apply (client_deliver es)].
    destruct Hc as [Hp Hst]. split; [done|]. intros Hlost. specialize (Hst Hlost).
    destruct (Heff id) as [[Hm Hnil]|(Hm & w & _ & Hm' & Hto)]; [by eapply miner_kept|].
    destruct Hst as [(E & _)|[(_ & Hup & Hdn)|(w' & E & _)]]; [congruence| |congruence].
    right. right. exists w. split; [done|]. left. rewrite Eu. split; [done|]. unfold delivered, texts_to.
    fold (to_conn id o). rewrite Hto. destruct (carries id); cbn; rewrite Hdn; [by right|by left].
Qed.

Lemma lost_inv s cs es os id c :
  cs !! id = Some c -> lost c = false -> sys_inv (mkSystem s true cs es os) ->
  sys_inv (mkSystem (handleFailure id s) false (<[id := c <| lost := true |>]> cs) (es ++ [Lost id]) os).
Proof.
  intros Hid Hlost [Hs Ho Hl Hn Hj Hc]. cbn [srv reading conns evs outs] in *.
  assert (Hgot : forall k mo, Got k mo ∈ es ++ [Lost id] -> Got k mo ∈ es) by set_solver.
  split; cbn.
  - by apply handleFailure_sinv.
  - eapply oinv_mono; [|exact Ho]. set_solver.
  - intros id' Hin. destruct (decide (id' = id)) as [->|].
    + exists (c <| lost := true |>). by rewrite lookup_insert_eq.
    + rewrite lookup_insert_ne by done. apply Hl. set_solver.
  - intros id' mo Hin%Hgot. apply lookup_insert_is_Some'. right. eauto.
  - intros w Hin%handleFailure_jobs. auto.
  - intros id' c' [[<- <-]|[Hne Hid']]%lookup_insert_Some.
    + specialize (Hc id c Hid). unfold conn_ok in *. cbn. destruct (who c) as [b|data n pr].
      * destruct Hc as [Hp _]. split; [eauto|done].
      * destruct Hc as [Hr Hp Hu Hd Hpr]. split; cbn; eauto.
        destruct Hu as [?|[? Hnone]]; [by left|right]. split; [done|]. intros mo Hin. by apply (Hnone mo), Hgot.
    + specialize (Hc id' c' Hid'). unfold conn_ok in *. destruct (who c') as [b|data n pr].
      * destruct Hc as [Hp Hst]. split; [eauto|]. intros El. specialize (Hst El).
        assert (Hm : minerCurrWork (handleFailure id s) !! id' = minerCurrWork s !! id').
        { unfold handleFailure. destruct (minerCurrWork s !! id); cbn; [by rewrite lookup_delete_ne|].
          by destruct (bool_decide _). }
        pose proof (miner_kept s (handleFailure id s) es (es ++ [Lost id]) (fun _ => false) [] id' c' Hm
          eq_refl (joined_other es id' (Lost id) ltac:(done)) Hst) as Hk. exact Hk.
      * pose proof (client_deliver es (es ++ [Lost id]) os [] (fun _ => false) id' c' data n pr Hc
          ltac:(eauto)) as Hk. by rewrite app_nil_r in Hk.
Qed.

Lemma mine_inv s r cs es os id c p ps fuel m sent :
  cs !! id = Some c -> who c = Miner true -> down c = p :: ps ->
  minerMain fuel Unmarshal (Some p) = Some (MinerSend m) -> sys_inv (mkSystem s r cs es os) ->
  sys_inv (mkSystem s r (<[id := c <| down := ps |>
    <| up := if sent : bool then up c ++ [Marshal m] else up c |>]> cs) es os).
Proof.
  intros Hid Hw Hd Hmine Hi. pose proof Hi as [_ _ Hl _ Hj Hc]. cbn [srv reading conns evs outs] in *. specialize (Hc id c Hid).
  unfold conn_ok in Hc. rewrite Hw in Hc. destruct Hc as [Hp Hst]. eapply update_inv; [exact Hi| |].
  2:{ intros Hin. destruct (Hl id Hin) as (c' & E & El). cbn. congruence. }
  unfold conn_ok. cbn -[Marshal miner_state]. rewrite Hw. split; [done|]. intros Hlost.
  specialize (Hst Hlost). unfold miner_state in *. cbn -[Marshal].
  destruct Hst as [(_ & _ & E & _)|[(_ & _ & E)|(w & Hm & [[Hup [E|E]]|[E _]])]]; try congruence.
  right. right. exists w. split; [done|]. rewrite E in Hd. injection Hd as <- <-.
  assert (Hport : portable (workMsg w)).
  { apply Hj. unfold outstanding. apply elem_of_app. right. apply working_elem. eauto. }
  cbn [minerMain] in Hmine. rewrite (portable_wire _ Hport) in Hmine.
  destruct (calculateMinHash _ _ _ _) as [[h n]|] eqn:Ecalc; [|done]. cbn in Hmine. injection Hmine as <-.
  destruct sent; [right|left; by auto]. split; [done|]. exists h, n, fuel.
  destruct Hport as [(_ & Hlow & _) _]. destruct (calculate_uint64 _ _ _ _ _ _ Hlow Ecalc).
  by rewrite Hup.
Qed.

Lemma print_inv s r cs es os id c data n down' l :
  cs !! id = Some c -> who c = Client data n None -> down' ⊆ down c ->
  (l = BitcoinClient.printDisconnected \/ exists p, p ∈ down c /\ l = BitcoinClient.answer (Some p)) ->
  sys_inv (mkSystem s r cs es os) ->
  sys_inv (mkSystem s r (<[id := c <| down := down' |> <| who := Client data n (Some l) |>]> cs) es os).
Proof.
  intros Hid Hw Hd Hline Hi. pose proof Hi as [_ _ Hl _ _ Hc]. cbn [srv reading conns evs outs] in *. specialize (Hc id c Hid).
  unfold conn_ok in Hc. rewrite Hw in Hc. eapply update_inv; [exact Hi| |].
  2:{ intros Hin. destruct (Hl id Hin) as (c' & E & El). cbn. congruence. }
  unfold conn_ok. cbn. destruct Hc as [Hr Hp Hu Hdn _]. split; cbn; auto.
  intros l' [= <-]. destruct Hline as [?|(p & Hin & ->)]; [by left|right].
  destruct (Hdn p Hin) as (m & ? & ->). eauto.
Qed.

Lemma exit_inv s r cs es os id c :
  cs !! id = Some c -> who c = Miner true -> sys_inv (mkSystem s r cs es os) ->
  sys_inv (mkSystem s r (<[id := c <| who := Miner false |>]> cs) es os).
Proof.
  intros Hid Hw Hi. pose proof Hi as [_ _ Hl _ _ Hc]. cbn [srv reading conns evs outs] in *. specialize (Hc id c Hid).
  unfold conn_ok in Hc. rewrite Hw in Hc. eapply update_inv; [exact Hi|exact Hc|].
  intros Hin. destruct (Hl id Hin) as (c' & E & El). cbn. congruence.
Qed.

Lemma start_inv s r cs es os id w p :
  cs !! id = None ->
  match w with
  | Miner _ => p = BitcoinMinerMain.joinText
  | Client data n pr => p = BitcoinClient.question data n /\ 0 <= n <= max_uint64 /\ pr = None
  end ->
  sys_inv (mkSystem s r cs es os) -> sys_inv (mkSystem s r (<[id := mkConn w [p] [] false]> cs) es os).
Proof.
  intros Hid Hw Hi. pose proof Hi as [Hs _ Hl Hn _ _]. cbn [srv reading conns evs outs] in *.
  assert (Hnone : forall mo, Got id mo ∉ es).
  { intros mo Hin. destruct (Hn id mo Hin) as [c E]. congruence. }
  assert (Hj : ~ joined es id) by (intros (m & Hin & _); by apply (Hnone (Some m))).
  eapply update_inv; [exact Hi| |].
  - unfold conn_ok. cbn [who]. destruct w as [b|data n pr].
    + split; [intros mo Hin; by destruct (Hnone mo)|]. intros _. left. subst p. split_and!; try done.
      apply eq_None_not_Some. intros Hsome. by apply Hj, (s_miner _ _ Hs).
    + destruct Hw as (-> & ? & ->). split; cbn; try done.
      * intros mo Hin. by destruct (Hnone mo).
      * by right.
      * intros p Hin. by apply elem_of_nil in Hin.
  - intros Hin. destruct (Hl id Hin) as (c' & E & _). congruence.
Qed.

(** The first message of a connection, as the server reads it. *)
Lemma read_join : Unmarshal BitcoinMinerMain.joinText = Some NewJoin.
Proof. vm_compute. reflexivity. Qed.

Lemma read_question data n : 0 <= n <= max_uint64 ->
  Unmarshal (BitcoinClient.question data n) = Some (NewRequest (coerceS data) 0 n).
Proof.
  intros Hn. unfold BitcoinClient.question. rewrite decode_encode; [done|].
  split_and!; cbn; try done; unfold uint64, max_uint64 in *; lia.
Qed.

(** What the server can read. *)
Lemma read_facts t id c p ps :
  sys_inv t -> conns t !! id = Some c -> lost c = false -> up c = p :: ps ->
  (Lost id ∉ evs t) /\ ps = [] /\
  match who c with
  | Miner _ => down c = [] /\
      ((Unmarshal p = Some NewJoin /\ ~ joined (evs t) id) \/
       exists w h n fuel, minerCurrWork (srv t) !! id = Some (Some w) /\
         calculateMinHash fuel (Data (workMsg w)) (Lower (workMsg w)) (Upper (workMsg w)) = Some (h, n) /\
         Unmarshal p = Some (NewResult h n))
  | Client data n _ => Got id (Unmarshal p) = asked id data n /\ 0 <= n <= max_uint64 /\
      forall mo, Got id mo ∉ evs t
  end.
Proof.
  intros [_ _ Hl _ _ Hc] Hid Hlost Hup. specialize (Hc id c Hid). split.
  { intros Hin. destruct (Hl id Hin) as (c' & E & El). congruence. }
  unfold conn_ok in Hc. destruct (who c) as [b|data n pr].
  - destruct Hc as [Hp Hst]. destruct (Hst Hlost) as
      [(Hm & E & Hd & Hj)|[(_ & E & _)|(w & Hm & [[E _]|(Hd & h & n & fuel & Hcalc & Hh & Hn & E)])]]; try congruence;
      rewrite E in Hup; injection Hup as <- <-.
    + rewrite read_join. auto.
    + rewrite portable_wire by by apply portable_result. split_and!; [done..|]. right. eauto 10.
  - destruct Hc as [Hr Hp [E|[E Hnone]] _ _]; [congruence|]. rewrite E in Hup. injection Hup as <- <-.
    by rewrite read_question.
Qed.

(** The environment of [BitcoinServer]'s theorems is this one. *)
Lemma read_admissible s cs es os id c p ps :
  sys_inv (mkSystem s true cs es os) -> cs !! id = Some c -> lost c = false -> up c = p :: ps ->
  admissible es s (Got id (Unmarshal p)).
Proof.
  intros Hi Hid Hlost Hup.
  destruct (read_facts _ _ _ _ _ Hi Hid Hlost Hup) as (Hnl & _ & Hwho).
  pose proof Hi as [_ _ _ _ _ Hc]. cbn [srv reading conns evs outs] in *. specialize (Hc id c Hid).
  unfold conn_ok in Hc. destruct (who c) as [b|data n pr].
  - destruct Hc as [Hp _]. destruct Hwho as [_ [[-> Hj]|(w & h & n & fuel & Hm & Hcalc & ->)]].
    + split; [done|]. split; [|by split]. intros _. split; [done|].
      intros (q & Hq & Ht). by destruct (Hp _ Hq) as (q' & [= <-] & ?).
    + split; [done|]. split; [done|]. split; [done|]. intros _. eauto 10.
  - destruct Hwho as (E & Hn & Hnone). injection E as ->. split; [done|]. split; [done|]. split; [|done].
    intros _. split; [intros (q & Hq & _); by apply (Hnone (Some q))|]. cbn. lia.
Qed.

(** After a Join or a Result its sender has no work. *)
Lemma message_frees id m s s' o : handleMessage id (Some m) s = Ret (s', o) ->
  Type_ m = Join \/ Type_ m = Result -> minerCurrWork s' !! id = Some None.
Proof.
  cbn [handleMessage]. intros H1 [Ht|Ht]; rewrite Ht in H1; cbn in H1.
  - injection H1 as <- <-. cbn. by rewrite lookup_insert_eq.
  - unfold updateResult in H1. destruct (map_get None _ id) as [w|]; [|done]. cbn in H1.
    destruct (clients s !! clientWorkFor w) as [st|];
      [destruct (_ <? _); cbn in H1; destruct (_ =? 0)|]; injection H1 as <- <-; cbn; by rewrite lookup_insert_eq.
Qed.

(** The sender's own connection after its message was read. *)
Lemma reader_ok s s' cs es os carries o id c p ps :
  sys_inv (mkSystem s true cs es os) -> cs !! id = Some c -> lost c = false -> up c = p :: ps ->
  handleMessage id (Unmarshal p) s = Ret (s', o) ->
  conn_ok s' (es ++ [Got id (Unmarshal p)]) (os ++ o) id (delivered carries o id (c <| up := ps |>)).
Proof.
  intros Hi Hid Hlost Hup Hm.
  destruct (read_facts _ _ _ _ _ Hi Hid Hlost Hup) as (_ & -> & Hwho).
  pose proof Hi as [Hs _ _ _ _ Hc]. cbn [srv reading conns evs outs] in *. specialize (Hc id c Hid).
  unfold conn_ok in *. destruct (delivered_keeps carries o id (c <| up := [] |>)) as (-> & Eu & El).
  change (who (c <| up := [] |>)) with (who c). destruct (who c) as [b|data n pr] eqn:Ew.
  - destruct Hc as [Hp _]. destruct Hwho as [Hd Hwho].
    assert (Hnil : to_conn id o = []) by by eapply no_answer_to_miner.
    assert (exists m, Unmarshal p = Some m /\ (Type_ m = Join \/ Type_ m = Result)) as (m & E & Ht).
    { destruct Hwho as [[-> _]|(w & h & n & fuel & _ & _ & ->)]; eexists; (split; [done|]); [by left|by right]. }
    split.
    + intros mo [Hin|[= ->]%list_elem_of_singleton]%elem_of_app; [by apply Hp|].
      rewrite E. exists m. split; [done|]. intros Hr. rewrite Hr in Ht. by destruct Ht.
    + intros _. right. left. rewrite E in Hm. split; [by eapply message_frees|].
      rewrite Eu, delivered_nil by done. by split.
  - apply (client_deliver (es ++ [Got id (Unmarshal p)])); [|done].
    destruct Hc as [Hr Hp _ Hd Hpr]. split; cbn; try done.
    + intros mo [Hin|[= ->]%list_elem_of_singleton]%elem_of_app; [by apply Hp|apply Hwho].
    + by left.
Qed.

(** Another connection meanwhile. *)
Lemma other_ok s s' cs es os carries o id id' mo c :
  sys_inv (mkSystem s true cs es os) -> cs !! id' = Some c -> id' <> id ->
  handleMessage id mo s = Ret (s', o) ->
  conn_ok s' (es ++ [Got id mo]) (os ++ o) id' (delivered carries o id' c).
Proof.
  intros [Hs _ _ _ _ Hc] Hid Hne Hm. cbn [srv reading conns evs outs] in *. specialize (Hc id' c Hid).
  assert (Hgot : forall m, Got id' m ∈ es ++ [Got id mo] -> Got id' m ∈ es).
  { intros m [Hin|[= -> ->]%list_elem_of_singleton]%elem_of_app; done. }
  unfold conn_ok in *. destruct (delivered_keeps carries o id' c) as (-> & _ & ->).
  destruct (who c) as [b|data n pr]; [|by apply (client_deliver es)].
  destruct Hc as [Hp Hst]. split; [eauto|]. intros Hlost.
  eapply miner_kept; [by apply (handleMessage_effect _ _ _ _ _ Hm)|by eapply no_answer_to_miner| |by apply Hst].
  apply joined_other. intros m [= E _]. done.
Qed.

Lemma read_inv s cs es os carries id c p ps s' o :
  cs !! id = Some c -> lost c = false -> up c = p :: ps ->
  handleIncomeMessage Unmarshal id p s = Ret (s', o) -> sys_inv (mkSystem s true cs es os) ->
  sys_inv (mkSystem s' false (deliver carries o (<[id := c <| up := ps |>]> cs))
             (es ++ [Got id (Unmarshal p)]) (os ++ o)).
Proof.
  unfold handleIncomeMessage. intros Hid Hlost Hup Hm Hi.
  pose proof (read_admissible _ _ _ _ _ _ _ _ Hi Hid Hlost Hup) as Ha.
  destruct (read_facts _ _ _ _ _ Hi Hid Hlost Hup) as (_ & _ & Hwho).
  pose proof Hi as [Hs Ho Hl Hn Hj Hc]. cbn [srv reading conns evs outs] in *.
  destruct (handleMessage_sinv _ _ _ _ _ _ Hs Ha Hm) as [Hs' Ho'].
  split; cbn [srv reading conns evs outs].
  - done.
  - apply Forall_app. split; [|done]. eapply oinv_mono; [|exact Ho]. set_solver.
  - intros id' Hin. assert (Lost id' ∈ es) as Hin' by set_solver.
    destruct (Hl id' Hin') as (c' & E & El). exists (delivered carries o id' c'). unfold deliver.
    rewrite map_lookup_imap, lookup_insert_ne by (intros ->; congruence). rewrite E. split; [done|].
    by rewrite (proj2 (proj2 (delivered_keeps _ _ _ _))).
  - intros id' mo Hin. apply deliver_is_Some, lookup_insert_is_Some'.
    apply elem_of_app in Hin as [Hin|[= -> ->]%list_elem_of_singleton]; eauto.
  - intros w Hin. destruct (handleMessage_jobs _ _ _ _ _ _ Hm Hin) as [Hold|(q & E & Ht & Hnew)]; [by apply Hj|].
    specialize (Hc id c Hid). unfold conn_ok in Hc. destruct (who c) as [b|data n pr].
    { destruct Hwho as [_ [[Hw _]|(w' & h & n & fuel & _ & _ & Hw)]]; rewrite Hw in E; by injection E as <-. }
    destruct Hwho as [Hw _]. injection Hw as Hw. rewrite Hw in E. injection E as <-. destruct (cs_range _ _ _ _ _ _ _ Hc) as [Hn0 Hn1].
    apply partition_portable in Hnew as [Hold|]; [apply Hj, elem_of_app; by left|done|apply coerceS_idemp|..];
      cbn; unfold uint64, max_uint64 in *; lia.
  - intros id' c' (c0 & [[<- <-]|[Hne Hid']]%lookup_insert_Some & ->)%deliver_lookup.
    + by eapply reader_ok.
    + by eapply other_ok.
Qed.

Lemma initial_inv : sys_inv initial.
Proof.
  destruct (mining_run_sinv _ _ _ run_start) as [Hs Ho]. split; cbn; try done.
  - intros id Hin. by apply elem_of_nil in Hin.
  - intros id mo Hin. by apply elem_of_nil in Hin.
  - intros w (k & Hk)%working_elem. by rewrite lookup_empty in Hk.
Qed.

Lemma step_inv t t' : sys_inv t -> step t t' -> sys_inv t'.
Proof.
  intros Hi Hstep. destruct Hstep.
  - by apply start_inv.
  - by apply start_inv.
  - by eapply assign_inv.
  - by eapply read_inv.
  - by apply lost_inv.
  - by eapply mine_inv.
  - by apply exit_inv.
  - eapply print_inv; [done|done| | |done].
    + match goal with E : down _ = _ :: _ |- _ => rewrite E end. set_solver.
    + right. eexists. split; [|done]. match goal with E : down _ = _ :: _ |- _ => rewrite E end. by left.
  - eapply (print_inv _ _ _ _ _ _ c _ _ (down c)) in Hi; [|done|done|done|by left].
    by destruct c.
Qed.

Lemma service_inv t : rtc step initial t -> sys_inv t.
Proof. apply (rtc_invariant step sys_inv); [apply step_inv|apply initial_inv]. Qed.

(** ** Questions that are never answered *)

(** Client [id] was lost, or it waits for work without end. *)
Definition unanswerable (s : server) (es : list event) (os : sends) (id : Z) : Prop :=
  (forall m, (id, m) ∉ os) /\ ~ joined es id /\ (exists mo, Got id mo ∈ es) /\
  ((Lost id ∈ es /\ clients s !! id = None) \/
   ((Lost id ∉ es) /\ is_Some (clients s !! id) /\
    exists w, w ∈ outstanding s /\ clientWorkFor w = id /\ endless w)).

(** What a message does to the waiting clients and to the work of the others. *)
Lemma handleMessage_keeps id m s s' o w : handleMessage id m s = Ret (s', o) ->
  w ∈ outstanding s -> minerCurrWork s !! id <> Some (Some w) -> w ∈ outstanding s'.
Proof.
  assert (Hins : minerCurrWork s !! id <> Some (Some w) ->
    w ∈ working (minerCurrWork s) -> w ∈ working (<[id := None]> (minerCurrWork s))).
  { intros Hne (k & Hk)%working_elem. apply working_elem. exists k. rewrite lookup_insert_ne; congruence. }
  destruct m as [m|]; cbn [handleMessage]; [|by intros [= <- <-]].
  destruct (Type_ m =? Join).
  { intros [= <- <-]. unfold outstanding. cbn [jobQ minerCurrWork]. rewrite !elem_of_app. intuition. }
  destruct (Type_ m =? Request).
  { destruct (bool_decide _); intros [= <- <-]; [|done]. unfold outstanding, partitionJob.
    destruct (_ <=? _); cbn; set_solver. }
  destruct (Type_ m =? Result); [|by intros [= <- <-]].
  unfold updateResult. destruct (map_get None _ id) as [w'|]; [|done]. cbn. intros H1 Hin Hne.
  assert (Hs : jobQ s' = jobQ s /\ minerCurrWork s' = <[id := None]> (minerCurrWork s)).
  { destruct (clients s !! clientWorkFor w') as [st|]; [|by injection H1 as <- <-].
    destruct (_ <? _); cbn in H1; destruct (_ =? 0); by injection H1 as <- <-. }
  destruct Hs as [Hq Hm]. revert Hin. unfold outstanding. rewrite Hq, Hm, !elem_of_app. intuition.
Qed.

Lemma handleMessage_clients id m s s' o c : handleMessage id m s = Ret (s', o) -> c <> id ->
  (clients s !! c = None -> clients s' !! c = None) /\
  (forall m', (c, m') ∈ o -> clients s' !! c = None).
Proof.
  assert (Hnil : forall m' s0, (c, m') ∈ ([] : sends) -> clients s0 !! c = None).
  { intros m' s0 Hin. by apply elem_of_nil in Hin. }
  destruct m as [m|]; cbn [handleMessage]; [|intros [= <- <-]; by eauto].
  destruct (Type_ m =? Join); [intros [= <- <-]; by eauto|].
  destruct (Type_ m =? Request).
  { intros H1 Hne. destruct (bool_decide _); injection H1 as <- <-; (split; [|by eauto]); [|done].
    unfold partitionJob. destruct (_ <=? _); cbn; by rewrite lookup_insert_ne. }
  destruct (Type_ m =? Result); [|intros [= <- <-]; by eauto].
  unfold updateResult. destruct (map_get None _ id) as [w|]; [|done]. cbn. intros H1 _.
  destruct (clients s !! clientWorkFor w) as [st|] eqn:Ec; [|injection H1 as <- <-; by eauto].
  destruct (_ <? _); cbn in H1; destruct (_ =? 0); injection H1 as <- <-; cbn; split;
    try (by eauto); try (intros m' [= -> ->]%list_elem_of_singleton; by rewrite lookup_delete_eq);
    destruct (decide (c = clientWorkFor w)) as [->|];
    rewrite ?lookup_delete_eq, ?lookup_insert_eq, ?lookup_delete_ne, ?lookup_insert_ne by done;
    first [congruence|by intros m' Hin%elem_of_nil].
Qed.

Lemma unanswerable_assign s cs es os ok range s' o id :
  (forall l, Permutation (range l) l) -> assignJobsToUnoccupiedMiner ok range s = (s', o) ->
  sys_inv (mkSystem s false cs es os) -> unanswerable s es os id -> unanswerable s' es (os ++ o) id.
Proof.
  intros Hr Ha Hi (Hos & Hj & Hgot & Hcase). pose proof (si_sinv _ Hi) as Hs. cbn in Hs.
  assert (Hidle : idle s) by (intros k; apply (s_unocc _ _ Hs)).
  destruct (assign_jobs _ _ _ _ _ Hr Hidle Ha) as [Hc Hk].
  destruct (assign_effect _ _ _ _ _ Hr Hidle Ha) as [_ Heff].
  split; [|split; [done|split; [done|]]].
  - intros m [Hin|Hin]%elem_of_app; [by apply (Hos m)|].
    destruct (Heff id) as [[_ E]|[Hm _]]; [|apply Hj, (s_miner _ _ Hs); by eexists].
    assert (Hf : (id, m) ∈ to_conn id o) by by apply list_elem_of_filter.
    rewrite E in Hf. by apply elem_of_nil in Hf.
  - rewrite Hc. destruct Hcase as [?|(? & Hsome & w & Hw & Hid & He)]; [by left|right].
    split; [done|]. split; [done|]. exists w. split; [apply Hk; [done|by rewrite Hid]|done].
Qed.

(** A search that has come to its end was no endless one. *)
Lemma endless_unfinished t w fuel h n : sys_inv t -> w ∈ outstanding (srv t) -> endless w ->
  calculateMinHash fuel (Data (workMsg w)) (Lower (workMsg w)) (Upper (workMsg w)) = Some (h, n) -> False.
Proof.
  intros Hi Hw He Hc. destruct (si_jobs _ Hi w Hw) as [(_ & [Hl Hl'] & _) _].
  eapply (search_finished fuel w h n Hl Hc); [rewrite He; exact Hl'|done].
Qed.

Lemma unanswerable_read s cs es os id c p ps s' o k :
  cs !! id = Some c -> lost c = false -> up c = p :: ps ->
  handleIncomeMessage Unmarshal id p s = Ret (s', o) -> sys_inv (mkSystem s true cs es os) ->
  unanswerable s es os k -> unanswerable s' (es ++ [Got id (Unmarshal p)]) (os ++ o) k.
Proof.
  unfold handleIncomeMessage. intros Hid Hlost Hup Hm Hi (Hos & Hj & (mo & Hgot) & Hcase).
  destruct (read_facts _ _ _ _ _ Hi Hid Hlost Hup) as (Hnl & _ & Hwho).
  pose proof (read_admissible _ _ _ _ _ _ _ _ Hi Hid Hlost Hup) as Ha.
  pose proof Hi as [Hs _ Hl _ _ Hc]. cbn [srv reading conns evs outs] in *.
  assert (Hne : k <> id).
  { intros ->. specialize (Hc id c Hid). unfold conn_ok in Hc. destruct (who c) as [b|data n pr].
    - destruct Hwho as [_ [[_ Hn]|(w & h & n & fuel & Hw & _)]]; [|by apply Hj, (s_miner _ _ Hs); eexists].
      destruct Hcase as [[? _]|(_ & Hsome & _)]; [done|]. destruct Hsome as [st Hst].
      destruct (cinv_owed _ _ _ (s_cinv _ _ Hs) _ _ Hst) as (q & Hq & Ht & _).
      destruct (proj1 Hc _ Hq) as (q' & [= <-] & ?). done.
    - by apply (proj2 (proj2 Hwho) mo). }
  destruct (handleMessage_clients _ _ _ _ _ k Hm Hne) as [Hkeep Hans].
  destruct (handleMessage_sinv _ _ _ _ _ _ Hs Ha Hm) as [Hs' _].
  assert (Hlast : forall m, (k, m) ∈ os ++ o -> (k, m) ∈ o).
  { intros m [Hin|Hin]%elem_of_app; [by destruct (Hos m)|done]. }
  assert (Hstill : Lost k ∈ es \/ is_Some (clients s' !! k) /\
      exists w, w ∈ outstanding s' /\ clientWorkFor w = k /\ endless w).
  { destruct Hcase as [[? _]|(_ & Hsome & w & Hw & Hk & He)]; [by left|].
    assert (Hw' : w ∈ outstanding s').
    { eapply handleMessage_keeps; [exact Hm|done|]. intros Hwork.
      destruct (who c) as [b|data n pr].
      - destruct Hwho as [_ [[_ Hn]|(w' & h & n & fuel & Hw' & Hcalc & _)]];
          [by apply Hn, (s_miner _ _ Hs); eexists|].
        rewrite Hwork in Hw'. injection Hw' as <-. by eapply (endless_unfinished _ w _ _ _ Hi).
      - assert (Hjo : joined es id) by (apply (s_miner _ _ Hs); by eexists).
        destruct Hjo as (q & Hq & _). by apply (proj2 (proj2 Hwho) (Some q)). }
    destruct (clients s' !! k) as [st|] eqn:Est; [right; eauto|].
    destruct (cinv_none _ _ _ (s_cinv _ _ Hs') k Est) as [[?|?%list_elem_of_singleton]%elem_of_app|Hnone];
      [by left|done|].
    assert (Hf : w ∈ for_client k (outstanding s')) by by apply list_elem_of_filter.
    rewrite Hnone in Hf. by apply elem_of_nil in Hf. }
  split; [|split; [|split; [exists mo; set_solver|]]].
  - intros m Hin%Hlast. pose proof (Hans m Hin) as Hnone.
    destruct Hstill as [Hlk|[[st Hst] _]]; [|congruence].
    destruct Hcase as [[_ Hcl]|(? & _)]; [|done].
    destruct (proj2 (handleMessage_effect _ _ _ _ _ Hm) _ _ Hin) as [st Hst]. congruence.
  - intros (q & [Hq|[= <- _]%list_elem_of_singleton]%elem_of_app & Ht); [|done]. apply Hj. by exists q.
  - destruct Hcase as [[? ?]|(Hnlk & _)]; [left; split; [set_solver|auto]|right].
    destruct Hstill as [?|Hstill]; [done|]. split; [set_solver|done].
Qed.

Lemma unanswerable_lost s cs es os id c k :
  cs !! id = Some c -> lost c = false -> sys_inv (mkSystem s true cs es os) ->
  unanswerable s es os k -> unanswerable (handleFailure id s) (es ++ [Lost id]) os k.
Proof.
  intros Hid Hlost Hi (Hos & Hj & (mo & Hgot) & Hcase). pose proof (si_sinv _ Hi) as Hs. cbn in Hs.
  assert (Hmine : minerCurrWork s !! k = None).
  { apply eq_None_not_Some. intros ?. by apply Hj, (s_miner _ _ Hs). }
  assert (Hout : forall w, w ∈ outstanding s -> w ∈ outstanding (handleFailure id s)).
  { intros w. unfold handleFailure, outstanding. destruct (minerCurrWork s !! id) as [cw|] eqn:E; cbn.
    - rewrite (working_delete _ _ _ E). destruct cw; cbn; set_solver.
    - by destruct (bool_decide _). }
  split; [done|]. split; [intros Hjo; apply Hj; eapply joined_other; [|exact Hjo]; done|].
  split; [exists mo; set_solver|].
  assert (Hcl : forall s0, clients (handleFailure id s) = s0 -> s0 = clients s \/ s0 = delete id (clients s)).
  { intros s0 <-. unfold handleFailure. destruct (minerCurrWork s !! id); [by left|].
    destruct (bool_decide _); [by left|by right]. }
  destruct (decide (k = id)) as [->|Hne].
  - left. split; [set_solver|]. unfold handleFailure. rewrite Hmine.
    destruct (bool_decide (clients s !! id = None)) eqn:E; breflect; [done|]. cbn. by rewrite lookup_delete_eq.
  - destruct Hcase as [[? Hnone]|(? & Hsome & w & ? & ? & ?)].
    + left. split; [set_solver|]. destruct (Hcl _ eq_refl) as [-> | ->]; [done|by rewrite lookup_delete_ne].
    + right. split; [set_solver|]. split; [|by eauto].
      destruct (Hcl _ eq_refl) as [-> | ->]; [done|by rewrite lookup_delete_ne].
Qed.

Lemma unanswerable_step t t' id : sys_inv t -> step t t' ->
  unanswerable (srv t) (evs t) (outs t) id -> unanswerable (srv t') (evs t') (outs t') id.
Proof.
  intros Hi Hstep Hu. destruct Hstep; try exact Hu.
  - by eapply unanswerable_assign.
  - by eapply unanswerable_read.
  - by eapply unanswerable_lost.
Qed.

(** The server has just read a question with a job without end. *)
Lemma unanswerable_asked t t1 id data n : sys_inv t -> step t t1 ->
  evs t1 = evs t ++ [asked id data n] ->
  n = max_uint64 \/ MinerWorkloadThreshold < n + 1 < Z.of_nat (size (minerCurrWork (srv t))) ->
  unanswerable (srv t1) (evs t1) (outs t1) id.
Proof.
  intros Hi Hstep He Hn. assert (Hgot : asked id data n ∈ evs t1) by (rewrite He; set_solver).
  pose proof (step_inv _ _ Hi Hstep) as Hi1.
  destruct Hstep as [| | |s cs es os carries id' c p ps s' o Hid Hlost Hup Hm| | | | |];
    cbn [srv evs outs conns] in *; try (apply (f_equal length) in He; rewrite length_app in He; cbn in He; lia);
    apply app_inj_tail in He as [_ He]; [|done]. injection He as -> Hp.
  destruct (read_facts _ _ _ _ _ Hi Hid Hlost Hup) as (Hnl & _ & Hwho). cbn [srv evs conns] in *.
  destruct (who c) as [b|data' n' pr] eqn:Ew.
  { destruct Hwho as [_ [[Hw _]|(w & h & k & fuel & _ & _ & Hw)]];
      rewrite Hp in Hw; by injection Hw. }
  destruct Hwho as (Ha & Hr & Hnone). unfold asked in Ha. rewrite Hp in Ha. injection Ha as Ed <-.
  pose proof (si_sinv _ Hi) as Hs. cbn in Hs.
  assert (Hcl : clients s !! id = None).
  { apply eq_None_not_Some. intros [st Hst].
    destruct (cinv_owed _ _ _ (s_cinv _ _ Hs) _ _ Hst) as (q & Hq & _). by apply (Hnone (Some q)). }
  unfold handleIncomeMessage in Hm. rewrite Hp in Hm. cbn [handleMessage] in Hm.
  rewrite Hcl, bool_decide_true in Hm by done. injection Hm as <- <-.
  destruct (proj2 (endless_jobs id (coerceS data) n s Hr) Hn) as (w & Hw & He).
  destruct (partitionJob_spec id (NewRequest (coerceS data) 0 n) s) as (js & Hne & Hwo & _ & Ep); cbn; [lia..|].
  unfold jobs in Hw. rewrite Ep in *. cbn in Hw. rewrite drop_app_length in Hw.
  rewrite app_nil_r. split; [|split; [|split; [eauto|right]]].
  - intros m Hin. pose proof (si_oinv _ Hi) as Ho. cbn in Ho. unfold oinv in Ho. rewrite Forall_forall in Ho.
    destruct (Ho _ Hin) as [(q & Hq & _)|(q & Hq & _)]; by apply (Hnone (Some q)).
  - intros (q & [Hq|E%list_elem_of_singleton]%elem_of_app & Ht); [by apply (Hnone (Some q))|].
    injection E as E. rewrite Hp in E. injection E as ->. discriminate Ht.
  - split; [set_solver|]. cbn. rewrite lookup_insert_eq. split; [by eexists|]. exists w.
    split; [unfold outstanding; cbn; set_solver|]. split; [|done].
    unfold work_on in Hwo. rewrite Forall_forall in Hwo. by apply Hwo.
Qed.

(** ** Sizes *)

Lemma quote_body_length n : forall k l, (length l <= n)%nat -> (length l <= length (quote_body k l))%nat.
Proof.
  assert (He : forall b, (1 <= length (escape b))%nat) by (intros []; vm_compute; lia).
  induction n as [|n IH]; intros k [|b l] Hn; cbn [length] in *; try lia.
  assert (Hl : forall k', (length l <= length (quote_body k' l))%nat) by (intros k'; apply IH; lia).
  cbn [quote_body]. destruct k as [|k]; [|cbn [length]; specialize (Hl k); lia].
  destruct (rune_size (b :: l)) as [|[|k]].
  - rewrite length_app. specialize (Hl 0%nat). change (length (lit "\ufffd")) with 6%nat. lia.
  - rewrite length_app. specialize (Hl 0%nat). specialize (He b). lia.
  - specialize (Hl (S k)). destruct l as [|c [|d l]]; cbn [length] in *; try lia.
    destruct (_ && _); cbn [length]; [|lia].
    rewrite !length_app. change (length (lit "\u202")) with 5%nat. cbn [length].
    pose proof (IH 0%nat l ltac:(lia)). lia.
Qed.

(** The text of a question is longer than the string it is about. *)
Lemma question_length data n : (length (bytes data) + 58 <= length (BitcoinClient.question data n))%nat.
Proof.
  pose proof (quote_body_length (length (bytes data)) 0 (bytes data) ltac:(lia)) as Hq.
  assert (Hd : forall m, (0 < length (appendUint m))%nat) by (intros m; apply (digits_length 20 m []); lia).
  pose proof (Hd 0). pose proof (Hd n).
  unfold BitcoinClient.question, Marshal, member, quote, quoted, colon, comma.
  cbn [NewRequest Type_ Data Lower Upper Hash_ Nonce].
  repeat (rewrite length_app || rewrite length_cons || cbn [length]).
  change (length (lit "Type")) with 4%nat. change (length (lit "Data")) with 4%nat.
  change (length (lit "Lower")) with 5%nat. change (length (lit "Upper")) with 5%nat.
  change (length (lit "Hash")) with 4%nat. change (length (lit "Nonce")) with 5%nat.
  change (length (appendInt Request)) with 1%nat. lia.
Qed.


(** ** A concrete run *)

Inductive move :=
  | StartMiner (id : Z) | StartClient (id : Z) (data : string) (maxNonce : Z)
  | Assign | Read (id : Z) | Mine (id : Z) (fuel : nat) | Print (id : Z).

(** One step with every write accepted and every text carried. *)
Definition exec (mv : move) (t : system) : option system :=
  let '(mkSystem s r cs es os) := t in
  match mv with
  | StartMiner id =>
      if bool_decide (cs !! id = None)
      then Some (mkSystem s r (<[id := mkConn (Miner true) [BitcoinMinerMain.joinText] [] false]> cs) es os)
      else None
  | StartClient id data maxNonce =>
      if bool_decide (cs !! id = None) && (0 <=? maxNonce) && (maxNonce <=? max_uint64)
      then Some (mkSystem s r (<[id := mkConn (Client data maxNonce None)
                  [BitcoinClient.question data maxNonce] [] false]> cs) es os)
      else None
  | Assign =>
      if r then None
      else let '(s', o) := assignJobsToUnoccupiedMiner accept same_order s in
           Some (mkSystem s' true (deliver accept o cs) es (os ++ o))
  | Read id =>
      c ← cs !! id;
      match r, lost c, up c with
      | true, false, p :: ps =>
          match handleIncomeMessage Unmarshal id p s with
          | Ret (s', o) => Some (mkSystem s' false (deliver accept o (<[id := c <| up := ps |>]> cs))
                             (es ++ [Got id (Unmarshal p)]) (os ++ o))
          | _ => None
          end
      | _, _, _ => None
      end
  | Mine id fuel =>
      c ← cs !! id;
      match who c, down c with
      | Miner true, p :: ps =>
          match minerMain fuel Unmarshal (Some p) with
          | Some (MinerSend m) =>
              Some (mkSystem s r (<[id := c <| down := ps |> <| up := up c ++ [Marshal m] |>]> cs) es os)
          | _ => None
          end
      | _, _ => None
      end
  | Print id =>
      c ← cs !! id;
      match who c, down c with
      | Client data n None, p :: ps =>
          Some (mkSystem s r (<[id := c <| down := ps |>
            <| who := Client data n (Some (BitcoinClient.answer (Some p))) |>]> cs) es os)
      | _, _ => None
      end
  end.

Lemma exec_sound mv t t' : exec mv t = Some t' -> step t t'.
Proof.
  destruct t as [s r cs es os]. destruct mv as [id|id data n| |id|id fuel|id]; cbn [exec].
  - destruct (bool_decide _) eqn:E; [|done]. breflect. intros [= <-]. by apply step_miner.
  - destruct (_ && _) eqn:E; [|done]. breflect. intros [= <-]. by apply step_client.
  - destruct r; [done|]. destruct (assignJobsToUnoccupiedMiner _ _ s) as [s' o] eqn:E. intros [= <-].
    by eapply step_assign; [|exact E].
  - destruct (cs !! id) as [c|] eqn:Ec; [|done]. cbn [mbind option_bind]. destruct r; [|done].
    destruct (lost c) eqn:El; [done|]. destruct (up c) as [|p ps] eqn:Eu; [done|].
    destruct (handleIncomeMessage _ _ _ _) as [[s' o]| |] eqn:Eh; [|done|done]. intros [= <-].
    by apply step_read.
  - destruct (cs !! id) as [c|] eqn:Ec; [|done]. cbn [mbind option_bind].
    destruct (who c) as [[]|] eqn:Ew; try done. destruct (down c) as [|p ps] eqn:Ed; [done|].
    destruct (minerMain _ _ _) as [[|m]|] eqn:Em; try done. intros [= <-].
    by eapply (step_mine _ _ _ _ _ _ _ _ _ _ _ true).
  - destruct (cs !! id) as [c|] eqn:Ec; [|done]. cbn [mbind option_bind].
    destruct (who c) as [|data n [l|]] eqn:Ew; try done. destruct (down c) as [|p ps] eqn:Ed; [done|].
    intros [= <-]. by eapply step_print.
Qed.

Fixpoint play (mvs : list move) (t : system) : option system :=
  match mvs with [] => Some t | mv :: mvs' => t' ← exec mv t; play mvs' t' end.

Lemma play_reachable mvs : forall t t', play mvs t = Some t' -> rtc step t t'.
Proof.
  induction mvs as [|mv mvs IH]; intros t t'; cbn [play]; [by intros [= <-]|].
  destruct (exec mv t) as [t1|] eqn:E; [|done]. cbn [mbind option_bind]. intros Hp.
  eapply rtc_l; [by eapply exec_sound|by apply IH].
Qed.

(** A miner joins, a client asks about the nonces 0 to 2, and prints. *)
Definition session : list move :=
  [StartMiner 1; StartClient 2 "msg" 2; Assign; Read 1; Assign; Read 2; Assign; Mine 1 3; Read 1; Print 2].
Definition session_end : system := default initial (play session initial).

(** A client asks about all nonces; the server reads it. *)
Definition endless_session : list move := [StartMiner 1; StartClient 2 "msg" max_uint64; Assign].
Definition endless_asked : system := default initial (play endless_session initial).
Definition endless_read : system := default initial (exec (Read 2) endless_asked).

Lemma service_session : rtc step initial session_end.
Proof. apply (play_reachable session). vm_compute. reflexivity. Qed.

(** ** Properties *)

(** C11: the mining service is right from end to end, where it answers.  In
    every state that a server, any number of clients with any bounds and any
    number of miners reach, connected by JSON texts, whatever order they take
    turns in, whichever connections stop carrying or are reported lost, and
    however the questions are partitioned: a client prints either that it was
    disconnected or the least hash of its message over all nonces up to its bound
    (with U+FFFD for the bytes of the message that are not UTF-8), with a nonce
    that has it (the initial pair if every hash is the greatest [uint64]); the
    server can handle every message
    it is about to read; and each waiting client is still owed at least one unit
    of work, which is in the queue or at a miner, as many as its counter says.
    But a question is never answered if its bound is the greatest [uint64], or if
    it has more than 10000 nonces and the server, when it reads it, has more
    miners than that: some job then goes up to the greatest nonce, where no
    search ends. *)
Theorem mining_service_correct t :
  rtc step initial t ->
  (forall id c data maxNonce l, conns t !! id = Some c -> who c = Client data maxNonce (Some l) ->
     l = BitcoinClient.printDisconnected \/
     exists h n, l = BitcoinClient.printResult (BitcoinClient.FormatUint h) (BitcoinClient.FormatUint n) /\
       min_over (coerceS data) 0 maxNonce h n) /\
  (forall id c p ps, conns t !! id = Some c -> lost c = false -> up c = p :: ps ->
     exists s' o, handleIncomeMessage Unmarshal id p (srv t) = Ret (s', o)) /\
  (forall id st, clients (srv t) !! id = Some st ->
     0 < notFinishedJob st /\ notFinishedJob st = Z.of_nat (length (for_client id (outstanding (srv t))))) /\
  (forall t1 id data maxNonce, step t t1 -> evs t1 = evs t ++ [asked id data maxNonce] ->
     maxNonce = max_uint64 \/
     MinerWorkloadThreshold < maxNonce + 1 < Z.of_nat (size (minerCurrWork (srv t))) ->
     forall t2 c d k l, rtc step t1 t2 -> conns t2 !! id = Some c -> who c = Client d k (Some l) ->
       l = BitcoinClient.printDisconnected).
Proof.
  intros Hi%service_inv. split_and!; [| |intros id st; apply (waiting_owed _ _ id st (si_sinv _ Hi))|].
  - intros id c data n l Hid Hw. pose proof (si_conn _ Hi id c Hid) as Hc. unfold conn_ok in Hc. rewrite Hw in Hc.
    destruct (cs_printed _ _ _ _ _ _ _ Hc l eq_refl) as [?|(m & Hin & ->)]; [by left|right].
    pose proof (si_oinv _ Hi) as Ho. unfold oinv in Ho. rewrite Forall_forall in Ho.
    destruct (Ho _ Hin) as [(q & Hq & Ht)|(q & Hq & _ & [Em Hmin])].
    { apply (cs_past _ _ _ _ _ _ _ Hc) in Hq. injection Hq as ->. discriminate Ht. }
    apply (cs_past _ _ _ _ _ _ _ Hc) in Hq. injection Hq as ->. cbn [NewRequest Data Lower Upper] in Hmin.
    exists (Hash_ m), (Nonce m). split; [|done]. rewrite Em. unfold BitcoinClient.answer.
    rewrite portable_wire; [done|]. apply portable_result.
    + destruct Hmin as [_ [[_ <-]|[-> _]]]; [apply Hash_range|done].
    + pose proof (cs_range _ _ _ _ _ _ _ Hc). unfold uint64. destruct Hmin as [_ [[? _]|[_ ->]]]; [lia|done].
  - intros id c p ps Hid Hlost Hup.
    destruct (read_facts _ _ _ _ _ Hi Hid Hlost Hup) as (_ & _ & Hwho).
    unfold handleIncomeMessage. destruct (who c) as [b|data n pr].
    + destruct Hwho as [_ [[-> _]|(w & h & n & fuel & Hm & _ & ->)]]; [by eexists _, _|].
      cbn [handleMessage]. cbn -[minHash]. unfold updateResult. rewrite (map_get_Some _ _ _ _ Hm).
      cbn [deref mbind outcome_bind]. destruct (clients _ !! _) as [st|]; [|by eexists _, _].
      cbn zeta. destruct (_ =? 0); by eexists _, _.
    + destruct Hwho as [[= ->] _]. cbn. destruct (bool_decide _); by eexists _, _.
  - intros t1 id data n Hstep He Hn t2 c d k l Hr Hid Hw.
    assert (Hu : sys_inv t2 /\ unanswerable (srv t2) (evs t2) (outs t2) id).
    { eapply (rtc_invariant step (fun t => sys_inv t /\ unanswerable (srv t) (evs t) (outs t) id)); [| |exact Hr].
      - intros x y [Ix Ux] Hxy. split; [by eapply step_inv|by eapply unanswerable_step].
      - split; [by eapply step_inv|by eapply unanswerable_asked]. }
    destruct Hu as [Hi2 (Hos & _)]. pose proof (si_conn _ Hi2 id c Hid) as Hc. unfold conn_ok in Hc.
    rewrite Hw in Hc. destruct (cs_printed _ _ _ _ _ _ _ Hc l eq_refl) as [?|(m & Hin & _)]; [done|].
    by destruct (Hos m).
Qed.

Lemma mining_service_correct_witness :
  exists c l, conns session_end !! 2 = Some c /\ who c = Client "msg" 2 (Some l) /\
    l = "Result 4754799531757243342 1" /\
    (l = BitcoinClient.printDisconnected \/
     exists h n, l = BitcoinClient.printResult (BitcoinClient.FormatUint h) (BitcoinClient.FormatUint n) /\
       min_over (coerceS "msg") 0 2 h n) /\
    forall t2 c l, rtc step endless_read t2 -> conns t2 !! 2 = Some c ->
      who c = Client "msg" max_uint64 (Some l) -> l = BitcoinClient.printDisconnected.
Proof.
  eexists _, _. split; [vm_compute; reflexivity|]. split; [reflexivity|]. split; [reflexivity|].
  split; [eapply (proj1 (mining_service_correct session_end service_session) 2);
    [vm_compute; reflexivity|reflexivity]|].
  destruct (mining_service_correct endless_asked) as (_ & _ & _ & Hnever).
  - apply (play_reachable endless_session). vm_compute. reflexivity.
  - intros t2 c l Hr Hid Hw.
    apply (Hnever endless_read 2 "msg" max_uint64) with (t2 := t2) (c := c) (d := "msg") (k := max_uint64);
      [|vm_compute; reflexivity|left; reflexivity|exact Hr|exact Hid|exact Hw].
    apply (exec_sound (Read 2)). vm_compute. reflexivity.
Defined.

End MiningSystem.
