(* ===== verification/EchoServer.v ===== *)
(** * EchoServer: the multi-client echo server ([p0/.../p0/server_impl.go])

    The goroutines of the server as one transition system: an [event] is a
    communication or I/O step of one goroutine, [exec] its effect.  [None] is a
    step that the goroutine cannot take now (a blocked channel operation, an
    event that has not happened); [Some Panic] crashes the program.  Buffered
    channels are lists with their capacity; a rendezvous on an unbuffered
    channel is one step of both sides.  The map of active connections keeps
    [*richConn] pointers, here connection numbers into [conns].

    Three parts of the state are ghosts that no step reads: the sender of each
    line, the log of the lines broadcast so far, and what each connection's
    writer has written. *)
From S2P Require Import Prelude.
Open Scope Z_scope.

Module EchoServer.

Definition OUTGOING_MESSAGE_QUEUE_SIZE : nat := 100.
Definition BROADCAST_MESSAGE_QUEUE_SIZE : nat := 10.

Abbreviation line := string (only parsing).

(** Where the goroutine [handleConnection] of a connection is: not started,
    in [ReadBytes], about to send a line to the master, about to unregister,
    returned. *)
Inductive reader := Unstarted | Reading | Sending (l : line) | Unregistering | Returned.

Record richConn := mkConn {
  connection : bool;                (* open *)
  outgoingMessageQueue : list line;
  queueClosed : bool;
  closeSignal : nat;
  handler : reader;
  written : list line }.

#[export] Instance eta_richConn : EtaRecord richConn := fun c =>
  mkConn (connection c) (outgoingMessageQueue c) (queueClosed c) (closeSignal c) (handler c) (written c).

Inductive acceptor := Accepting | Registering (c : Z) | AcceptReturned.

Record multiEchoServer := mkServer {
  listener : bool;                  (* open *)
  activeConnections : gmap Z bool;
  broadcastMessageQueue : list (Z * line);
  signalCloseMasterRoutine : nat;
  signalCloseAcceptRoutine : nat;
  masterUp : bool;
  accepting : acceptor;
  conns : gmap Z richConn;
  log : list (Z * line) }.

#[export] Instance eta_multiEchoServer : EtaRecord multiEchoServer := fun s =>
  mkServer (listener s) (activeConnections s) (broadcastMessageQueue s) (signalCloseMasterRoutine s)
    (signalCloseAcceptRoutine s) (masterUp s) (accepting s) (conns s) (log s).

(** [New] followed by a [Start] whose [net.Listen] succeeded. *)
Definition Start : multiEchoServer := mkServer true ∅ [] 0 0 true Accepting ∅ [].

Definition newConn : richConn := mkConn true [] false 0 Unstarted [].

Definition setConn (c : Z) (rc : richConn) (s : multiEchoServer) : multiEchoServer :=
  s <| conns := <[c := rc]> (conns s) |>.

(** A send on a channel with room for one signal. *)
Definition signal1 (n : nat) : option nat := if Nat.eqb n 0 then Some 1%nat else None.

(** [acceptConnections]: a new connection, a failed [Accept] (the loop goes
    on), or the close signal, which the [select] prefers to accepting. *)
Inductive accept_event := Accepted (c : Z) | AcceptFailed | AcceptSignal.

Definition acceptConnections (e : accept_event) (s : multiEchoServer) : option multiEchoServer :=
  match accepting s with
  | Accepting =>
      if Nat.eqb (signalCloseAcceptRoutine s) 0 then
        match e with
        | Accepted c =>
            if listener s && bool_decide (conns s !! c = None)
            then Some (setConn c newConn s <| accepting := Registering c |>) else None
        | AcceptFailed => Some s
        | AcceptSignal => None
        end
      else match e with
           | AcceptSignal => Some (s <| signalCloseAcceptRoutine := (signalCloseAcceptRoutine s - 1)%nat |>
                                     <| accepting := AcceptReturned |>)
           | _ => None
           end
  | _ => None
  end.

(** [handleConnection]: a line was read (the buffered reader may hold lines of
    a connection that is closed by now), the read failed, or the line is sent
    to the master.  The second send to the master, of the connection itself,
    is a rendezvous: [Unregister] of the master. *)
Inductive handle_event := ReadLine (l : line) | ReadError | SendLine.

Definition handleConnection (c : Z) (e : handle_event) (s : multiEchoServer) : option multiEchoServer :=
  wrappedConn ← conns s !! c;
  match e, handler wrappedConn with
  | ReadLine l, Reading =>
      Some (setConn c (wrappedConn <| handler := Sending l |>) s)
  | ReadError, Reading =>
      if Nat.eqb (closeSignal wrappedConn) 0 then
        Some (setConn c (wrappedConn <| queueClosed := true |> <| connection := false |>
                           <| handler := Unregistering |>) s)
      else
        Some (setConn c (wrappedConn <| closeSignal := (closeSignal wrappedConn - 1)%nat |>
                           <| queueClosed := true |> <| handler := Returned |>) s)
  | SendLine, Sending l =>
      if Nat.ltb (length (broadcastMessageQueue s)) BROADCAST_MESSAGE_QUEUE_SIZE then
        Some (setConn c (wrappedConn <| handler := Reading |>) s
                <| broadcastMessageQueue := broadcastMessageQueue s ++ [(c, l)] |>)
      else None
  | _, _ => None
  end.

(** One iteration of the loop: the failure of a write is ignored. *)
Definition writeOutgoingQueueToSocket (c : Z) (s : multiEchoServer) : option multiEchoServer :=
  wrappedConn ← conns s !! c;
  match outgoingMessageQueue wrappedConn with
  | [] => None
  | message :: q =>
      Some (setConn c (wrappedConn <| outgoingMessageQueue := q |>
                         <| written := written wrappedConn ++ [message] |>) s)
  end.

(** The inner [select]: a send on a closed channel panics; on a full one the
    default is taken. *)
Definition offer (m : line) (wrappedConn : richConn) : outcome richConn :=
  if queueClosed wrappedConn then Panic
  else if Nat.ltb (length (outgoingMessageQueue wrappedConn)) OUTGOING_MESSAGE_QUEUE_SIZE
  then Ret (wrappedConn <| outgoingMessageQueue := outgoingMessageQueue wrappedConn ++ [m] |>)
  else Ret wrappedConn.

Fixpoint broadcast (m : line) (ks : list Z) (s : multiEchoServer) : outcome multiEchoServer :=
  match ks with
  | [] => Ret s
  | c :: ks' =>
      wrappedConn ← deref (conns s !! c);
      wrappedConn ← offer m wrappedConn;
      broadcast m ks' (setConn c wrappedConn s)
  end.

(** Close every active connection; the signal channel has room for one. *)
Fixpoint closeAll (ks : list Z) (s : multiEchoServer) : outcome multiEchoServer :=
  match ks with
  | [] => Ret s
  | c :: ks' =>
      wrappedConn ← deref (conns s !! c);
      match signal1 (closeSignal wrappedConn) with
      | None => Hang
      | Some n =>
          closeAll ks' (setConn c (wrappedConn <| connection := false |> <| closeSignal := n |>) s
                          <| activeConnections := delete c (activeConnections s) |>)
      end
  end.

(** [masterRoutine]: the case its [select] takes. *)
Inductive master_event := Register | Broadcast | Unregister (c : Z) | CloseMaster | RequestCount.

Definition masterRoutine (range : list Z -> list Z) (e : master_event) (s : multiEchoServer)
    : option (outcome multiEchoServer) :=
  if masterUp s then
    match e with
    | Register =>
        match accepting s with
        | Registering c =>
            wrappedConn ← conns s !! c;
            Some (Ret (setConn c (wrappedConn <| handler := Reading |>) s
              <| accepting := Accepting |>
              <| activeConnections := <[c := true]> (activeConnections s) |>))
        | _ => None
        end
    | Broadcast =>
        match broadcastMessageQueue s with
        | [] => None
        | (c, m) :: q =>
            Some (broadcast m (range (keys (activeConnections s)))
                    (s <| broadcastMessageQueue := q |> <| log := log s ++ [(c, m)] |>))
        end
    | Unregister c =>
        wrappedConn ← conns s !! c;
        match handler wrappedConn with
        | Unregistering =>
            Some (Ret (setConn c (wrappedConn <| handler := Returned |>) s
                         <| activeConnections := delete c (activeConnections s) |>))
        | _ => None
        end
    | CloseMaster =>
        if Nat.eqb (signalCloseMasterRoutine s) 0 then None
        else Some (closeAll (range (keys (activeConnections s)))
               (s <| signalCloseMasterRoutine := (signalCloseMasterRoutine s - 1)%nat |>
                  <| masterUp := false |>))
    | RequestCount => Some (Ret s)
    end
  else None.

(** The public methods.  [Close] blocks on a full signal channel. *)
Definition Close (s : multiEchoServer) : option multiEchoServer :=
  n ← signal1 (signalCloseMasterRoutine s);
  n' ← signal1 (signalCloseAcceptRoutine s);
  Some (s <| signalCloseMasterRoutine := n |> <| listener := false |> <| signalCloseAcceptRoutine := n' |>).

Definition Count (s : multiEchoServer) : option nat :=
  if masterUp s then Some (size (activeConnections s)) else None.

Inductive event :=
  | Accept (e : accept_event)
  | Handle (c : Z) (e : handle_event)
  | Write (c : Z)
  | Master (e : master_event)
  | CloseServer.

Definition exec (range : list Z -> list Z) (e : event) (s : multiEchoServer)
    : option (outcome multiEchoServer) :=
  match e with
  | Accept e => Ret <$> acceptConnections e s
  | Handle c e => Ret <$> handleConnection c e s
  | Write c => Ret <$> writeOutgoingQueueToSocket c s
  | Master e => masterRoutine range e s
  | CloseServer => Ret <$> Close s
  end.

Inductive run : multiEchoServer -> list event -> Prop :=
  | run_start : run Start []
  | run_step s es range e s' :
      run s es -> (forall l, Permutation (range l) l) -> exec range e s = Some (Ret s') ->
      run s' (es ++ [e]).

(** The lines read from connection [c]. *)
Definition lines_read (c : Z) (es : list event) : list line :=
  omap (fun e => match e with
                 | Handle c' (ReadLine l) => if decide (c' = c) then Some l else None
                 | _ => None
                 end) es.

Definition lines_of (c : Z) (l : list (Z * line)) : list line := (filter (fun x => x.1 = c) l).*2.

#[local] Arguments lines_of : simpl never.
#[local] Arguments lines_read : simpl never.

Definition unsent (rc : richConn) : list line :=
  match handler rc with Sending l => [l] | _ => [] end.

(** ** Sending to all *)

Definition push (m : line) (rc : richConn) : richConn :=
  if Nat.ltb (length (outgoingMessageQueue rc)) OUTGOING_MESSAGE_QUEUE_SIZE
  then rc <| outgoingMessageQueue := outgoingMessageQueue rc ++ [m] |> else rc.

Definition pushed (m : line) (ks : list Z) (s s' : multiEchoServer) : Prop :=
  s' = s <| conns := conns s' |> /\
  forall c, conns s' !! c = if decide (c ∈ ks) then push m <$> conns s !! c else conns s !! c.

Lemma offer_open m rc : queueClosed rc = false -> offer m rc = Ret (push m rc).
Proof. unfold offer, push. intros ->. by destruct (Nat.ltb _ _). Qed.

Lemma pushed_cons m c ks rc s s' :
  (c ∉ ks) -> conns s !! c = Some rc -> pushed m ks (setConn c (push m rc) s) s' -> pushed m (c :: ks) s s'.
Proof.
  intros Hc Hrc [Hs Hp]. split; [exact Hs|]. intros c'. rewrite Hp. cbn.
  destruct (decide (c' = c)) as [->|].
  - rewrite decide_False by done. rewrite decide_True by by left. by rewrite lookup_insert_eq, Hrc.
  - rewrite lookup_insert_ne by done.
    destruct (decide (c' ∈ ks)); [rewrite decide_True by by right|rewrite decide_False by set_solver]; done.
Qed.

Lemma broadcast_spec m : forall ks s, NoDup ks ->
  (forall c, c ∈ ks -> exists rc, conns s !! c = Some rc) ->
  ((exists c rc, c ∈ ks /\ conns s !! c = Some rc /\ queueClosed rc = true) /\ broadcast m ks s = Panic) \/
  ((forall c rc, c ∈ ks -> conns s !! c = Some rc -> queueClosed rc = false) /\
   exists s', broadcast m ks s = Ret s' /\ pushed m ks s s').
Proof.
  induction ks as [|c ks IH]; intros s Hnd Hks.
  { right. split; [intros c rc Hin; by apply elem_of_nil in Hin|]. exists s. split; [done|].
    split; [by destruct s|]. intros c. by rewrite decide_False by apply not_elem_of_nil. }
  apply NoDup_cons in Hnd as [Hc Hnd]. destruct (Hks c) as [rc Hrc]; [by left|].
  cbn. rewrite Hrc. cbn. destruct (queueClosed rc) eqn:Hq.
  { left. split; [exists c, rc; split; [by left|done]|]. unfold offer. by rewrite Hq. }
  rewrite offer_open by done. cbn.
  assert (forall c', c' ∈ ks -> conns (setConn c (push m rc) s) !! c' = conns s !! c') as Hsame.
  { intros c' Hin. cbn. apply lookup_insert_ne. intros ->. done. }
  destruct (IH (setConn c (push m rc) s)) as [[(c' & rc' & Hin & Hrc' & ?) ->]|[Ho (s' & -> & Hp)]]; [done| | |].
  - intros c' Hin. rewrite Hsame by done. apply Hks. by right.
  - left. split; [|done]. exists c', rc'. split; [by right|]. by rewrite <- Hsame.
  - right. split; [|exists s'; split; [done|by eapply pushed_cons]].
    intros c' rc' [->|Hin]%elem_of_cons Hrc'; [congruence|]. apply (Ho c'); [done|]. by rewrite Hsame.
Qed.

(** ** The invariant *)

Definition at_work (h : reader) : bool :=
  match h with Reading | Sending _ | Unregistering => true | _ => false end.
Definition gone (h : reader) : bool := match h with Unregistering | Returned => true | _ => false end.

Record registered_ok (up : bool) (rc : richConn) (act : option bool) : Prop := {
  ok_closed : queueClosed rc = gone (handler rc);
  ok_active : is_Some act -> closeSignal rc = 0%nat /\ at_work (handler rc) = true;
  ok_master : up = true -> at_work (handler rc) = true -> is_Some act }.

Definition conn_ok (up : bool) (orc : option richConn) (act : option bool)
    (lg mine reads : list line) : Prop :=
  match orc with
  | None => act = None /\ mine = [] /\ reads = []
  | Some rc =>
      registered_ok up rc act /\ written rc ++ outgoingMessageQueue rc `sublist_of` lg /\
      (length (outgoingMessageQueue rc) <= OUTGOING_MESSAGE_QUEUE_SIZE)%nat /\
      mine ++ unsent rc = reads
  end.

Record inv (s : multiEchoServer) (es : list event) : Prop := {
  inv_conn : forall c, conn_ok (masterUp s) (conns s !! c) (activeConnections s !! c) (log s).*2
    (lines_of c (log s ++ broadcastMessageQueue s)) (lines_read c es);
  inv_accept : forall c, accepting s = Registering c ->
    exists rc, conns s !! c = Some rc /\ handler rc = Unstarted /\ closeSignal rc = 0%nat }.

Lemma lines_of_app c l l' : lines_of c (l ++ l') = lines_of c l ++ lines_of c l'.
Proof. unfold lines_of. by rewrite filter_app, fmap_app. Qed.

Lemma lines_of_one c c' l : lines_of c [(c', l)] = if decide (c' = c) then [l] else [].
Proof. unfold lines_of. rewrite filter_cons. cbn. by destruct (decide (c' = c)). Qed.

Lemma lines_read_one c c' l : lines_read c [Handle c' (ReadLine l)] = if decide (c' = c) then [l] else [].
Proof. unfold lines_read. cbn. by destruct (decide _). Qed.

Lemma lines_read_app c es e : lines_read c (es ++ [e]) = lines_read c es ++ lines_read c [e].
Proof. unfold lines_read. by rewrite omap_app. Qed.

(** A step that reads no line and keeps the channels' history changes one
    connection at most. *)
Lemma inv_setConn s es es' c rc rc' act acc up :
  inv s es -> conns s !! c = Some rc -> (forall c', lines_read c' es' = lines_read c' es) ->
  registered_ok up rc' act -> (up = true -> masterUp s = true) ->
  written rc' ++ outgoingMessageQueue rc' = written rc ++ outgoingMessageQueue rc ->
  (length (outgoingMessageQueue rc') <= length (outgoingMessageQueue rc))%nat ->
  unsent rc' = unsent rc ->
  (forall c', acc = Registering c' -> accepting s = Registering c' /\ c' <> c) ->
  forall s', masterUp s' = up -> conns s' = <[c := rc']> (conns s) ->
    log s' = log s -> broadcastMessageQueue s' = broadcastMessageQueue s -> accepting s' = acc ->
    activeConnections s' !! c = act ->
    (forall c', c' <> c -> activeConnections s' !! c' = activeConnections s !! c') ->
    inv s' es'.
Proof.
  intros [Hi Ha] Hc He Hr Hup Hw Hlen Hun Hacc s' Eu Ec El Eb Ea Eact Eother. split.
  - intros c'. rewrite He, Ec, El, Eb, Eu. specialize (Hi c').
    destruct (decide (c' = c)) as [->|].
    + rewrite lookup_insert_eq. rewrite Hc in Hi. destruct Hi as (_ & ? & ? & ?). split; [by rewrite Eact|].
      rewrite Hw, Hun. split_and!; [done|lia|done].
    + rewrite lookup_insert_ne, Eother by done. destruct (conns s !! c') as [rc0|]; [|done].
      destruct Hi as ([? ? ?] & Hi). split; [|done]. split; auto.
  - intros c' E. rewrite Ea in E. destruct (Hacc c' E) as [Hreg ?]. rewrite Ec, lookup_insert_ne by done. auto.
Qed.

Definition silent (e : event) : Prop := forall c, lines_read c [e] = [].

Lemma silent_read e es c : silent e -> lines_read c (es ++ [e]) = lines_read c es.
Proof. intros He. by rewrite lines_read_app, He, app_nil_r. Qed.

Lemma inv_lookup s es c rc :
  inv s es -> conns s !! c = Some rc ->
  conn_ok (masterUp s) (Some rc) (activeConnections s !! c) (log s).*2
    (lines_of c (log s ++ broadcastMessageQueue s)) (lines_read c es).
Proof. intros [Hi _] Hc. specialize (Hi c). by rewrite Hc in Hi. Qed.

Lemma inv_active s es c :
  inv s es -> is_Some (activeConnections s !! c) -> exists rc, conns s !! c = Some rc.
Proof.
  intros [Hi _] Ha. specialize (Hi c). destruct (conns s !! c) as [rc|]; [eauto|].
  destruct Hi as [E _]. rewrite E in Ha. by destruct Ha.
Qed.

(** Fields no connection depends on. *)
Lemma inv_frame s es s' es' :
  inv s es -> (forall c, lines_read c es' = lines_read c es) ->
  (masterUp s' = true -> masterUp s = true) -> conns s' = conns s ->
  activeConnections s' = activeConnections s -> log s' = log s ->
  broadcastMessageQueue s' = broadcastMessageQueue s ->
  (forall c, accepting s' = Registering c -> accepting s = Registering c) -> inv s' es'.
Proof.
  intros [Hi Ha] He Hup Ec Ea El Eb Hacc. split.
  - intros c. rewrite He, Ec, Ea, El, Eb. specialize (Hi c). destruct (conns s !! c); [|done].
    destruct Hi as ([? ? ?] & ?). split; [|done]. split; auto.
  - intros c E. rewrite Ec. auto.
Qed.

Lemma inv_acceptConnections e s s' es :
  inv s es -> acceptConnections e s = Some s' -> inv s' (es ++ [Accept e]).
Proof.
  intros Hi. unfold acceptConnections. destruct (accepting s) eqn:Ea; try done.
  destruct (Nat.eqb _ _); destruct e as [c| |]; try done.
  - destruct (listener s && _) eqn:E; [|done]. breflect. intros [= <-]. destruct Hi as [Hi Ha].
    match goal with H : conns s !! c = None |- _ => rename H into Hc end. split.
    + intros c'. rewrite silent_read by done. cbn. specialize (Hi c'). destruct (decide (c' = c)) as [->|].
      * rewrite lookup_insert_eq. rewrite Hc in Hi. destruct Hi as (Eact & -> & ->). rewrite Eact.
        split; [split; cbn; [done|by intros []|done]|]. cbn. split_and!; [apply sublist_nil_l|lia|done].
      * by rewrite lookup_insert_ne.
    + cbn. intros c' [= <-]. exists newConn. by rewrite lookup_insert_eq.
  - intros [= <-]. eapply inv_frame; eauto. intros c. by rewrite silent_read.
  - intros [= <-]. eapply inv_frame; eauto; cbn; [intros c; by rewrite silent_read|done].
Qed.

Lemma inv_handleConnection c e s s' es :
  inv s es -> handleConnection c e s = Some s' -> inv s' (es ++ [Handle c e]).
Proof.
  intros Hi Hex. unfold handleConnection in Hex.
  destruct (conns s !! c) as [rc|] eqn:Hc; cbn in Hex; [|done].
  pose proof (inv_lookup _ _ _ _ Hi Hc) as ([Hcl Hact Hup] & Hw & Hlen & Hun).
  assert (forall c', accepting s = Registering c' -> handler rc <> Unstarted -> accepting s = Registering c' /\ c' <> c) as Hacc.
  { intros c' Ea Hne. split; [done|]. intros ->. destruct (inv_accept _ _ Hi c Ea) as (rc0 & E & ? & _).
    rewrite Hc in E. injection E as <-. done. }
  destruct e as [l| |]; destruct (handler rc) as [| |l'| |] eqn:Hh; try done.
  - injection Hex as <-. destruct Hi as [Hi Ha]. split.
    + intros c'. rewrite lines_read_app, lines_read_one. cbn. specialize (Hi c'). destruct (decide (c' = c)) as [->|].
      * rewrite lookup_insert_eq. rewrite Hc in Hi. destruct Hi as ([? ? ?] & ? & ? & Hu).
        unfold unsent in *. rewrite Hh in *. rewrite app_nil_r in Hu.
        split; [split; cbn; auto|]. cbn. rewrite decide_True by done. split_and!; [done..|by rewrite Hu].
      * rewrite lookup_insert_ne, decide_False by done. by rewrite app_nil_r.
    + cbn. intros c' Ea. destruct (Hacc c' Ea) as [_ ?]; [done|]. rewrite lookup_insert_ne by done. auto.
  - assert (forall c', lines_read c' (es ++ [Handle c ReadError]) = lines_read c' es) as He
      by (intros; by rewrite silent_read).
    destruct (Nat.eqb_spec (closeSignal rc) 0) as [Hz|Hz]; injection Hex as <-;
      (eapply (inv_setConn s es); [exact Hi|exact Hc|exact He| | | | | | |reflexivity..|]); cbn; try done; auto;
      try (unfold unsent; by rewrite Hh); try (split; cbn; auto; fail).
    split; cbn; [done| |done]. intros [? _]%Hact. done.
  - destruct (Nat.leb _ 9); [|done]. injection Hex as <-. destruct Hi as [Hi Ha]. split.
    + intros c'. rewrite silent_read by done. cbn. specialize (Hi c').
      rewrite app_assoc, lines_of_app, lines_of_one. destruct (decide (c' = c)) as [->|].
      * rewrite lookup_insert_eq, decide_True by done. rewrite Hc in Hi. destruct Hi as ([? ? ?] & ? & ? & Hu).
        unfold unsent in *. rewrite Hh in *. split; [split; cbn; auto|]. cbn. rewrite app_nil_r. split_and!; done.
      * rewrite lookup_insert_ne, decide_False by done. by rewrite app_nil_r.
    + cbn. intros c' Ea. destruct (Hacc c' Ea) as [_ ?]; [done|]. rewrite lookup_insert_ne by done. auto.
Qed.

Lemma inv_write c s s' es :
  inv s es -> writeOutgoingQueueToSocket c s = Some s' -> inv s' (es ++ [Write c]).
Proof.
  intros Hi Hex. unfold writeOutgoingQueueToSocket in Hex.
  destruct (conns s !! c) as [rc|] eqn:Hc; cbn in Hex; [|done].
  pose proof (inv_lookup _ _ _ _ Hi Hc) as ([Hcl Hact Hup] & Hw & Hlen & Hun).
  destruct Hi as [Hi Ha]. destruct (outgoingMessageQueue rc) as [|m q] eqn:Hq; [done|]. injection Hex as <-. split.
  - intros c'. rewrite silent_read by done. cbn. specialize (Hi c'). destruct (decide (c' = c)) as [->|].
    + rewrite lookup_insert_eq. cbn in *. split; [split; cbn; auto|]. cbn.
      rewrite <- app_assoc. split_and!; [done|cbn in Hlen; lia|done].
    + by rewrite lookup_insert_ne.
  - cbn. intros c' Ea. destruct (Ha c' Ea) as (rc0 & E & Hh & Hz). destruct (decide (c' = c)) as [->|].
    + rewrite lookup_insert_eq. rewrite Hc in E. injection E as <-. by eexists.
    + rewrite lookup_insert_ne by done. eauto.
Qed.

Lemma push_fields m rc :
  handler (push m rc) = handler rc /\ queueClosed (push m rc) = queueClosed rc /\
  closeSignal (push m rc) = closeSignal rc /\ written (push m rc) = written rc /\
  (length (outgoingMessageQueue rc) <= OUTGOING_MESSAGE_QUEUE_SIZE ->
   length (outgoingMessageQueue (push m rc)) <= OUTGOING_MESSAGE_QUEUE_SIZE)%nat /\
  (outgoingMessageQueue (push m rc) = outgoingMessageQueue rc \/
   outgoingMessageQueue (push m rc) = outgoingMessageQueue rc ++ [m]).
Proof.
  unfold push. destruct (Nat.ltb_spec (length (outgoingMessageQueue rc)) OUTGOING_MESSAGE_QUEUE_SIZE) as [Hlt|];
    cbn -[OUTGOING_MESSAGE_QUEUE_SIZE app]; split_and!; auto.
  intros _. rewrite length_app. cbn [length]. lia.
Qed.

Lemma push_ok up rc act m lg mine reads :
  conn_ok up (Some rc) act lg mine reads -> conn_ok up (Some (push m rc)) act (lg ++ [m]) mine reads.
Proof.
  destruct (push_fields m rc) as (Hh & Hq & Hs & Hw & Hl & Hm).
  intros ([? ? ?] & Hsub & ? & Hu). split; [split; rewrite ?Hh, ?Hq, ?Hs; auto|].
  unfold unsent. rewrite Hh, Hw. split_and!; [|auto|done].
  destruct Hm as [->| ->]; [|rewrite app_assoc; by apply sublist_app].
  etrans; [exact Hsub|]. by apply sublist_inserts_r.
Qed.

Lemma log_ok up rc act m lg mine reads :
  conn_ok up (Some rc) act lg mine reads -> conn_ok up (Some rc) act (lg ++ [m]) mine reads.
Proof. intros (? & Hsub & ?). split; [done|]. split; [|done]. by apply sublist_inserts_r. Qed.

(** A broadcast panics exactly when an active connection has closed its queue. *)
Lemma broadcast_outcome range s es c m q :
  inv s es -> (forall l, Permutation (range l) l) -> broadcastMessageQueue s = (c, m) :: q ->
  let s1 := s <| broadcastMessageQueue := q |> <| log := log s ++ [(c, m)] |> in
  let r := broadcast m (range (keys (activeConnections s))) s1 in
  ((exists c' rc, is_Some (activeConnections s !! c') /\ conns s !! c' = Some rc /\
      handler rc = Unregistering) /\ r = Panic) \/
  ((forall c' rc, is_Some (activeConnections s !! c') -> conns s !! c' = Some rc ->
      handler rc <> Unregistering) /\
   exists s', r = Ret s' /\ pushed m (range (keys (activeConnections s))) s1 s').
Proof.
  intros Hi Hr Hq s1 r. destruct (range_keys_spec range (activeConnections s) Hr) as [Hnd Hks].
  destruct (broadcast_spec m (range (keys (activeConnections s))) s1) as [[(c' & rc & Hin & Hrc & Hcl) ?]|[Hall ?]];
    [done| | |].
  - intros c' Hin%Hks. exact (inv_active s es c' Hi Hin).
  - left. split; [|done]. apply Hks in Hin. exists c', rc. split_and!; [done..|].
    destruct (inv_lookup _ _ _ _ Hi Hrc) as ([E Ha _] & _). destruct (Ha Hin) as [_ Hw].
    rewrite Hcl in E. destruct (handler rc); done.
  - right. split; [|done]. intros c' rc Ha Hrc Hh.
    destruct (inv_lookup _ _ _ _ Hi Hrc) as ([E _ _] & _). rewrite Hh in E.
    specialize (Hall c' rc). rewrite Hall in E; [done|by apply Hks|done].
Qed.

Lemma inv_broadcast range s s' es c m q :
  inv s es -> (forall l, Permutation (range l) l) -> broadcastMessageQueue s = (c, m) :: q ->
  broadcast m (range (keys (activeConnections s)))
    (s <| broadcastMessageQueue := q |> <| log := log s ++ [(c, m)] |>) = Ret s' ->
  inv s' (es ++ [Master Broadcast]).
Proof.
  intros Hi Hr Hq Hb.
  destruct (broadcast_outcome range s es c m q Hi Hr Hq) as [[_ E]|[_ (s2 & E & Hs & Hp)]];
    cbn zeta in *; rewrite Hb in E; [done|]. injection E as <-.
  destruct Hi as [Hi Ha]. split.
  - intros c'. rewrite silent_read, Hs by done. cbn. rewrite <- app_assoc. cbn. rewrite <- Hq, fmap_app.
    rewrite Hp. cbn. specialize (Hi c'). destruct (conns s !! c') as [rc|]; [|by destruct (decide _)].
    destruct (decide _); [by apply push_ok|by apply log_ok].
  - rewrite Hs. cbn. intros c' Hc'. destruct (Ha c' Hc') as (rc & Hrc & Hh & Hz). rewrite Hp. cbn. rewrite Hrc.
    destruct (push_fields m rc) as (Hh' & _ & Hz' & _).
    destruct (decide _); cbn; eexists; (split; [done|]); rewrite ?Hh', ?Hz'; done.
Qed.

Lemma inv_register s es c rc :
  inv s es -> accepting s = Registering c -> conns s !! c = Some rc ->
  inv (setConn c (rc <| handler := Reading |>) s <| accepting := Accepting |>
         <| activeConnections := <[c := true]> (activeConnections s) |>) (es ++ [Master Register]).
Proof.
  intros Hi Ha Hc. destruct (inv_accept _ _ Hi c Ha) as (rc0 & E & Hh & Hz).
  rewrite Hc in E. injection E as <-. destruct (inv_lookup _ _ _ _ Hi Hc) as ([Hcl _ _] & _).
  eapply (inv_setConn s es); [exact Hi|exact Hc|intros; by apply silent_read|..|reflexivity|reflexivity|reflexivity|reflexivity|reflexivity|reflexivity|];
    cbn; try done.
  - rewrite lookup_insert_eq. split; cbn; [by rewrite Hcl, Hh|done|done].
  - unfold unsent. by rewrite Hh.
  - intros c' ?. by rewrite lookup_insert_ne.
Qed.

Lemma inv_unregister s es c rc :
  inv s es -> conns s !! c = Some rc -> handler rc = Unregistering ->
  inv (setConn c (rc <| handler := Returned |>) s
         <| activeConnections := delete c (activeConnections s) |>) (es ++ [Master (Unregister c)]).
Proof.
  intros Hi Hc Hh. destruct (inv_lookup _ _ _ _ Hi Hc) as ([Hcl _ _] & _).
  eapply (inv_setConn s es); [exact Hi|exact Hc|intros; by apply silent_read|..|reflexivity|reflexivity|reflexivity|reflexivity|reflexivity|reflexivity|];
    cbn; try done.
  - rewrite lookup_delete_eq. split; cbn; [by rewrite Hcl, Hh|by intros []|done].
  - unfold unsent. by rewrite Hh.
  - intros c' E. split; [done|]. intros ->. destruct (inv_accept _ _ Hi c E) as (rc0 & E' & Hu & _).
    rewrite Hc in E'. injection E' as <-. congruence.
  - intros c' ?. by rewrite lookup_delete_ne.
Qed.

Lemma inv_closeAll es : forall ks s, inv s es -> masterUp s = false -> NoDup ks ->
  (forall c, c ∈ ks -> is_Some (activeConnections s !! c)) ->
  exists s', closeAll ks s = Ret s' /\ inv s' es.
Proof.
  induction ks as [|c ks IH]; intros s Hi Hup Hnd Hks; [by exists s|].
  apply NoDup_cons in Hnd as [Hc Hnd]. pose proof (Hks c ltac:(by left)) as Hact.
  destruct (inv_active _ _ _ Hi Hact) as [rc Hrc]. cbn [closeAll]. rewrite Hrc. cbn [deref mbind outcome_bind].
  destruct (inv_lookup _ _ _ _ Hi Hrc) as ([Hcl Ha _] & _). destruct (Ha Hact) as [Hz Hw].
  rewrite Hz. cbn [signal1 Nat.eqb]. apply IH; [|done|done|].
  - eapply (inv_setConn s es); [exact Hi|exact Hrc|done|..|reflexivity|reflexivity|reflexivity|reflexivity|reflexivity|reflexivity|];
      cbn; try done.
    + rewrite lookup_delete_eq, Hup. split; cbn; [done|by intros []|done].
    + intros c' E. split; [done|]. intros ->. destruct (inv_accept _ _ Hi c E) as (rc0 & E' & Hu & _).
      rewrite Hrc in E'. injection E' as <-. by rewrite Hu in Hw.
    + intros c' ?. by rewrite lookup_delete_ne.
  - cbn. intros c' Hin. rewrite lookup_delete_ne by (by intros ->). apply Hks. by right.
Qed.

Lemma inv_masterRoutine range e s s' es :
  inv s es -> (forall l, Permutation (range l) l) -> masterRoutine range e s = Some (Ret s') ->
  inv s' (es ++ [Master e]).
Proof.
  intros Hi Hr. unfold masterRoutine. destruct (masterUp s) eqn:Hup; [|done]. destruct e as [| |c| |].
  - destruct (accepting s) as [|c|] eqn:Ha; try done.
    destruct (inv_accept _ _ Hi c Ha) as (rc & Hc & _). rewrite Hc. cbn. intros [= <-].
    by apply inv_register.
  - destruct (broadcastMessageQueue s) as [|[c m] q] eqn:Hq; [done|]. intros [= Hb]. by eapply inv_broadcast.
  - destruct (conns s !! c) as [rc|] eqn:Hc; cbn; [|done].
    destruct (handler rc) eqn:Hh; try done. intros [= <-]. by apply inv_unregister.
  - destruct (Nat.eqb _ _); [done|]. intros [= Hb].
    set (s1 := mkServer _ _ _ _ _ _ _ _ _) in Hb.
    destruct (range_keys_spec range (activeConnections s) Hr) as [Hnd Hks].
    destruct (inv_closeAll (es ++ [Master CloseMaster]) (range (keys (activeConnections s))) s1) as (s2 & E & Hi2);
      [|done|done|by intros c Hin%Hks|].
    + eapply inv_frame; [exact Hi|..]; cbn; try done. intros c. by apply silent_read.
    + rewrite Hb in E. by injection E as <-.
  - intros [= <-]. eapply inv_frame; [exact Hi|..]; cbn; try done. intros c. by apply silent_read.
Qed.

Lemma echo_inv_exec range e s s' es :
  inv s es -> (forall l, Permutation (range l) l) -> exec range e s = Some (Ret s') -> inv s' (es ++ [e]).
Proof.
  intros Hi Hr. destruct e as [e|c e|c|e|]; cbn.
  - destruct (acceptConnections e s) eqn:E; [|done]. intros [= <-]. by eapply inv_acceptConnections.
  - destruct (handleConnection c e s) eqn:E; [|done]. intros [= <-]. by eapply inv_handleConnection.
  - destruct (writeOutgoingQueueToSocket c s) eqn:E; [|done]. intros [= <-]. by eapply inv_write.
  - by apply inv_masterRoutine.
  - unfold Close. destruct (signal1 (signalCloseMasterRoutine s)); cbn; [|done].
    destruct (signal1 (signalCloseAcceptRoutine s)); cbn; [|done]. intros [= <-].
    eapply inv_frame; [exact Hi|..]; cbn; try done. intros c. by apply silent_read.
Qed.

Lemma echo_run_inv s es : run s es -> inv s es.
Proof.
  induction 1 as [|s es range e s' Hrun IH Hr He]; [|by eapply echo_inv_exec].
  split; [|done]. intros c. cbn. by rewrite !lookup_empty.
Qed.

(** A client of each kind: 1 sends a line and leaves. *)
Definition same_order (l : list Z) : list Z := l.

Fixpoint execs (es : list event) (s : multiEchoServer) : option multiEchoServer :=
  match es with
  | [] => Some s
  | e :: es' => match exec same_order e s with Some (Ret s') => execs es' s' | _ => None end
  end.

Lemma execs_run es' : forall s es s', run s es -> execs es' s = Some s' -> run s' (es ++ es').
Proof.
  induction es' as [|e es' IH]; intros s es s' Hr; cbn [execs].
  - intros [= <-]. by rewrite app_nil_r.
  - destruct (exec same_order e s) as [[s1| |]|] eqn:E; try done.
    rewrite cons_middle, app_assoc. apply IH. by eapply run_step; [exact Hr| |exact E].
Qed.

Definition leaving : list event :=
  [Accept (Accepted 1); Master Register; Handle 1 (ReadLine "hi"); Handle 1 SendLine; Handle 1 ReadError].

Definition talking : list event :=
  [Accept (Accepted 1); Master Register; Accept (Accepted 2); Master Register;
   Handle 1 (ReadLine "hi"); Handle 1 SendLine; Master Broadcast; Write 2; Handle 2 (ReadLine "ho")].

Definition after (es : list event) : multiEchoServer := default Start (execs es Start).

Lemma leaving_run : run (after leaving) leaving.
Proof. apply (execs_run leaving Start []); [constructor|vm_compute; reflexivity]. Qed.

Lemma talking_run : run (after talking) talking.
Proof. apply (execs_run talking Start []); [constructor|vm_compute; reflexivity]. Qed.

(** C21: the echo server loses no input and reorders no output. In every reachable state, for every connection: the lines its client was sent, with those still queued (at most 100), are a subsequence of the lines broadcast, in broadcast order; the lines read from it are exactly those of its lines that were broadcast, then those waiting for the master, then the one in hand, in order; and while the master runs it is counted as active exactly between registering and unregistering. *)
Theorem echo_delivery s es c rc :
  run s es -> conns s !! c = Some rc ->
  written rc ++ outgoingMessageQueue rc `sublist_of` (log s).*2 /\
  (length (outgoingMessageQueue rc) <= OUTGOING_MESSAGE_QUEUE_SIZE)%nat /\
  lines_read c es = lines_of c (log s) ++ lines_of c (broadcastMessageQueue s) ++ unsent rc /\
  (masterUp s = true -> is_Some (activeConnections s !! c) <-> at_work (handler rc) = true).
Proof.
  intros Hi%echo_run_inv Hc. destruct (inv_lookup _ _ _ _ Hi Hc) as ([_ Ha Hm] & ? & ? & Hu).
  rewrite lines_of_app, <- app_assoc in Hu. split_and!; [done..|]. intros Hup. split; [|by apply Hm].
  intros Hact. by apply Ha.
Qed.

Lemma echo_delivery_witness :
  exists rc, conns (after talking) !! 2 = Some rc /\ written rc = ["hi"] /\ unsent rc = ["ho"] /\
    lines_read 2 talking = lines_of 2 (log (after talking)) ++
      lines_of 2 (broadcastMessageQueue (after talking)) ++ unsent rc.
Proof.
  eexists. split; [vm_compute; reflexivity|]. split; [reflexivity|]. split; [reflexivity|].
  eapply (echo_delivery (after talking) talking 2); [apply talking_run|vm_compute; reflexivity].
Defined.

(** C39: the echo server crashes when a line is broadcast while a client is leaving, and only then. A handler closes the outgoing queue of its connection before the master takes it off the table of active connections, and a send on a closed channel panics even in a select with a default. In every reachable state a step panics exactly if it is a broadcast while some active connection is about to unregister, and no step hangs the master; and the crash is reached by a single client that sends a line and disconnects. *)
Theorem echo_panics_iff_disconnecting :
  (forall s es range e, run s es -> (forall l, Permutation (range l) l) ->
     exec range e s <> Some Hang /\
     (exec range e s = Some Panic <->
      e = Master Broadcast /\ masterUp s = true /\ broadcastMessageQueue s <> [] /\
      exists c rc, is_Some (activeConnections s !! c) /\ conns s !! c = Some rc /\
        handler rc = Unregistering)) /\
  exists s es, run s es /\ exec same_order (Master Broadcast) s = Some Panic.
Proof.
  split; [|exists (after leaving), leaving; split; [apply leaving_run|vm_compute; reflexivity]].
  intros s es range e Hi%echo_run_inv Hr. destruct e as [e|c e|c|[| |c| |]|]; cbn;
    try (destruct (acceptConnections _ _) || destruct (handleConnection _ _ _) ||
         destruct (writeOutgoingQueueToSocket _ _) || destruct (Close _)); try (split; [done|naive_solver]).
  - unfold masterRoutine. destruct (masterUp s); [|split; [done|naive_solver]].
    destruct (accepting s) as [|c|]; try (split; [done|naive_solver]).
    destruct (conns s !! c); split; cbn; try done; naive_solver.
  - unfold masterRoutine. destruct (masterUp s); [|split; [done|naive_solver]].
    destruct (broadcastMessageQueue s) as [|[c m] q] eqn:Hq; [split; [done|naive_solver]|].
    destruct (broadcast_outcome range s es c m q Hi Hr Hq) as [[(c' & rc & ?) ->]|[Hno (s' & -> & _)]]; cbn zeta.
    + split; [done|]. split; [|done]. intros _. split_and!; [done..|]. by exists c', rc.
    + split; [done|]. split; [done|]. intros (_ & _ & _ & c' & rc & ? & ? & ?). by destruct (Hno c' rc).
  - unfold masterRoutine. destruct (masterUp s); [|split; [done|naive_solver]].
    destruct (conns s !! c) as [rc|]; cbn; [|split; [done|naive_solver]].
    destruct (handler rc); split; try done; naive_solver.
  - unfold masterRoutine. destruct (masterUp s) eqn:Hup; [|split; [done|naive_solver]].
    destruct (signalCloseMasterRoutine s) as [|n]; cbn; [split; [done|naive_solver]|].
    destruct (range_keys_spec range (activeConnections s) Hr) as [Hnd Hks].
    set (s1 := mkServer _ _ _ _ _ _ _ _ _).
    destruct (inv_closeAll es (range (keys (activeConnections s))) s1) as (s2 & -> & _);
      [|done|done|by intros c Hin%Hks|split; [done|naive_solver]].
    eapply inv_frame; [exact Hi|..]; cbn; done.
  - unfold masterRoutine. destruct (masterUp s); split; try done; naive_solver.
Qed.

End EchoServer.
