(* ===== verification/StorageRpc.v ===== *)
(** * StorageRpc: wire types and hashing of the tribbler storage system
    ([p2/.../rpc/storagerpc/proto.go], [libstore/libstore_api.go])

    The types of the storage RPCs, the hash [StoreHash] both ends place keys
    with, and the prefix of a key that is hashed.  [StoreHash] is the 32-bit
    FNV-1 hash of package [hash/fnv], written out.  A [time.Time] is an integer
    number of nanoseconds. *)
From S2P Require Import Prelude.
From Stdlib Require Export Strings.Byte.
Open Scope Z_scope.

Module StorageRpc.

Definition Status := Z.
Definition OK : Status := 1.
Definition KeyNotFound : Status := 2.
Definition ItemNotFound : Status := 3.
Definition WrongServer : Status := 4.
Definition ItemExists : Status := 5.
Definition NotReady : Status := 6.

Definition QueryCacheSeconds : Z := 10.
Definition QueryCacheThresh : Z := 3.
Definition LeaseSeconds : Z := 10.
Definition LeaseGuardSeconds : Z := 2.

Record Lease := mkLease { Granted : bool; ValidSeconds : Z }.
Record Node := mkNode { HostPort : string; NodeID : Z }.

#[export] Instance Node_eq_dec : EqDecision Node.
Proof. solve_decision. Defined.

Record RegisterArgs := mkRegisterArgs { ServerInfo : Node }.
Record RegisterReply := mkRegisterReply { rr_Status : Status; rr_Servers : list Node }.
Record GetServersReply := mkGetServersReply { gs_Status : Status; gs_Servers : list Node }.
Record GetArgs := mkGetArgs { ga_Key : string; ga_WantLease : bool; ga_HostPort : string }.
Record GetReply := mkGetReply { gr_Status : Status; gr_Value : string; gr_Lease : Lease }.
Record GetListReply := mkGetListReply { gl_Status : Status; gl_Value : list string; gl_Lease : Lease }.
Record PutArgs := mkPutArgs { pa_Key : string; pa_Value : string }.
Record PutReply := mkPutReply { pr_Status : Status }.
Record RevokeLeaseArgs := mkRevokeLeaseArgs { rl_Key : string }.
Record RevokeLeaseReply := mkRevokeLeaseReply { rlr_Status : Status }.

(** ** Placing a key *)

(** FNV-1 with the standard's 32-bit offset basis and prime. *)
Definition StoreHash (key : string) : Z :=
  foldl (fun h b => Z.lxor (wrap_u 32 (h * 16777619)) (Z.of_N (Byte.to_N b)))
    2166136261 (String.list_byte_of_string key).

(** [strings.Split(key, ":")[0]]: the key up to its first colon. *)
Fixpoint partitionKey (key : string) : string :=
  match key with
  | EmptyString => EmptyString
  | String a key' => if Ascii.eqb a (Ascii.ascii_of_nat 58) then EmptyString else String a (partitionKey key')
  end.

(** The standard's test vectors: the empty string and ["a"]. *)
Example StoreHash_vectors : StoreHash "" = 0x811c9dc5 /\ StoreHash "a" = 0x050c5d7e.
Proof. split; vm_compute; reflexivity. Qed.

(** ** Time *)

Abbreviation Time := Z (only parsing).
Definition Second : Z := 1000000000.

(** The end of a lease that started at [t]. *)
Definition until (t validSeconds : Z) : Time := t + validSeconds * Second.

(** ** The ring *)

(** The node responsible for hash [h] on the sorted list [l]: the first not
    below [h], or the first of all. *)
Definition successor (l : list Node) (h : Z) (n : Node) : Prop :=
  n ∈ l /\
  ((h <= NodeID n /\ forall n', n' ∈ l -> h <= NodeID n' -> NodeID n <= NodeID n') \/
   (forall n', n' ∈ l -> NodeID n' < h /\ NodeID n <= NodeID n')).

Definition by_id : relation Node := fun n n' => NodeID n <= NodeID n'.

#[export] Instance by_id_trans : Transitive by_id.
Proof. intros x y z. unfold by_id. lia. Qed.

End StorageRpc.
