(* ===== verification/StorageServer.v ===== *)
(** * StorageServer: the tribbler storage server
    ([p2/.../storageserver/storageserver_impl.go])

    The state of [storageServer] and its RPC handlers.  A handler holds the
    mutex of its key from start to end and touches no other key, so it is one
    step.  The parameters of a handler are what it finds outside: the clock
    readings, the order of its loops over maps, and whether dialling a host
    succeeds.  A callback that is waited for always comes to an end, by the
    answer or by the expiry timer, so it is only recorded in the list of hosts
    that were called.  The map of mutexes per client connection matters where a
    mutex is never released: [clientCacheLocked] is the set of those. *)
From S2P Require Import Prelude StorageRpc.
Open Scope Z_scope.

Module StorageServer.
Import StorageRpc.

Record lease := mkLease { startFrom : Time; validSeconds : Z }.

Record valueStoreType := mkValueStore { value : string; leaseGranted : gmap string lease }.
Record listStoreType := mkListStore { list_ : list string; list_leaseGranted : gmap string lease }.

Record storageServer := mkServer {
  status : Status;
  keyValueStore : gmap string valueStoreType;
  keyListStore : gmap string listStoreType;
  isMaster : bool;
  nodeID : Z;
  numNodes : Z;
  serversList : list Node;
  serversMap : gmap string Node;
  clientCache : gset string;
  clientCacheLocked : gset string;
  (** [NewStorageServer] is waiting on [masterReadySignal] *)
  masterWaiting : bool }.

#[export] Instance eta_storageServer : EtaRecord storageServer := fun s =>
  mkServer (status s) (keyValueStore s) (keyListStore s) (isMaster s) (nodeID s) (numNodes s)
    (serversList s) (serversMap s) (clientCache s) (clientCacheLocked s) (masterWaiting s).

(** ** Starting *)

(** The server [NewStorageServer] registers for RPC. The server list is made
    before the number of nodes is checked: [make] panics on a negative length. *)
Definition NewStorageServer (masterServerHostPort : string) (numNodes nodeID : Z)
    : outcome (storageServer + string) :=
  if numNodes <? 0 then Panic
  else if numNodes <=? 0 then Ret (inr "numNodes illegal")
  else Ret (inl (mkServer NotReady ∅ ∅ (bool_decide (masterServerHostPort = "")) nodeID numNodes
              (repeat (mkNode "" 0) (Z.to_nat numNodes)) ∅ ∅ ∅ (bool_decide (masterServerHostPort = "")))).

(** A slave whose registration was answered with status OK. *)
Definition slaveReady (reply : RegisterReply) (ss : storageServer) : storageServer :=
  ss <| serversList := rr_Servers reply |> <| numNodes := Z.of_nat (length (rr_Servers reply)) |>
     <| status := OK |>.

(** A handler returns the hosts it called back, and its reply or an error. *)
Abbreviation handled R := (outcome (storageServer * list string * (R + string))).

Definition gtNode (n n' : Node) : bool := NodeID n' <? NodeID n.

Definition RegisterServer (range : list Node -> list Node) (args : RegisterArgs) (ss : storageServer)
    : handled RegisterReply :=
  if negb (isMaster ss) then Ret (ss, [], inr "cannot register server on a slave server")
  else
    let slaveServerInfo := ServerInfo args in
    let exist := bool_decide (is_Some (serversMap ss !! HostPort slaveServerInfo)) in
    let ss := ss <| serversMap := <[HostPort slaveServerInfo := slaveServerInfo]> (serversMap ss) |> in
    let n := Z.of_nat (size (serversMap ss)) in
    if numNodes ss <? n then
      Ret (ss, [], inr "num of servers registered exceeds the num of nodes specified")
    else if n =? numNodes ss then
      ss ← (if exist then Ret ss
            else if masterWaiting ss then
              Ret (ss <| serversList := exch_sort gtNode (range (map_to_list (serversMap ss)).*2) |>
                      <| status := OK |> <| masterWaiting := false |>)
            else Hang);
      Ret (ss, [], inl (mkRegisterReply OK (serversList ss)))
    else Ret (ss, [], inl (mkRegisterReply NotReady [])).

Definition GetServers (ss : storageServer) : GetServersReply + string :=
  if negb (isMaster ss) then inr "cannot get servers on a slave server"
  else inl (mkGetServersReply (status ss) (if status ss =? OK then serversList ss else [])).

(** ** Checks *)

Definition checkServerIsReady (ss : storageServer) : bool := status ss =? OK.

(** The loop over [ss.serversList]. *)
Fixpoint nodeBelong (hashVal : Z) (l : list Node) (nodeIDBelong : Z) : Z :=
  match l with
  | [] => nodeIDBelong
  | node :: l' => if hashVal <=? NodeID node then NodeID node else nodeBelong hashVal l' nodeIDBelong
  end.

Definition checkIsRightServer (key : string) (ss : storageServer) : outcome bool :=
  first ← deref (head (serversList ss));
  let hashVal := StoreHash (partitionKey key) in
  Ret (nodeBelong hashVal (serversList ss) (NodeID first) =? nodeID ss).

(** ** Leases *)

Definition validUntil (l : lease) : Time := until (startFrom l) (validSeconds l).

(** A new or renewed lease starts at [now] with the guard added. *)
Definition grantLeaseIfNecessary (now : Time) (hostPort : string) (leaseGranted : gmap string lease)
    : gmap string lease * Lease :=
  let granted :=
    (<[hostPort := mkLease now (LeaseSeconds + LeaseGuardSeconds)]> leaseGranted,
     StorageRpc.mkLease true LeaseSeconds) in
  match leaseGranted !! hostPort with
  | Some prevLease =>
      if validUntil prevLease <? now then granted else (leaseGranted, StorageRpc.mkLease false 0)
  | None => granted
  end.

Section callbacks.
Context (dial : string -> bool) (now : string -> Time).

(** One lease after the other; a failed dial returns with the connection's
    mutex locked. *)
Fixpoint revokeLoop (ls : list (string * lease)) (called : list string) (ss : storageServer)
    : outcome (storageServer * list string * option string) :=
  match ls with
  | [] => Ret (ss, called, None)
  | (hostport, revokedLease) :: ls' =>
      if now hostport <? validUntil revokedLease then
        if bool_decide (hostport ∈ clientCacheLocked ss) then Hang
        else if bool_decide (hostport ∈ clientCache ss) then revokeLoop ls' (called ++ [hostport]) ss
        else if dial hostport then
          revokeLoop ls' (called ++ [hostport]) (ss <| clientCache := {[hostport]} ∪ clientCache ss |>)
        else Ret (ss <| clientCacheLocked := {[hostport]} ∪ clientCacheLocked ss |>, called,
                  Some "dial error")
      else revokeLoop ls' called ss
  end.

Definition revokeGrantedLease (range : list (string * lease) -> list (string * lease))
    (leaseGranted : gmap string lease) (ss : storageServer)
    : outcome (storageServer * list string * option string) :=
  revokeLoop (range (map_to_list leaseGranted)) [] ss.
End callbacks.

(** ** Reads *)

Definition noLease : Lease := StorageRpc.mkLease false 0.

Definition Get (now : Time) (args : GetArgs) (ss : storageServer) : outcome (storageServer * GetReply) :=
  if negb (checkServerIsReady ss) then Ret (ss, mkGetReply NotReady "" noLease)
  else
    isRightServer ← checkIsRightServer (ga_Key args) ss;
    if negb isRightServer then Ret (ss, mkGetReply WrongServer "" noLease)
    else match keyValueStore ss !! ga_Key args with
         | None => Ret (ss, mkGetReply KeyNotFound "" noLease)
         | Some valueStore =>
             if ga_WantLease args then
               let '(leases, l) := grantLeaseIfNecessary now (ga_HostPort args) (leaseGranted valueStore) in
               Ret (ss <| keyValueStore := <[ga_Key args := mkValueStore (value valueStore) leases]>
                            (keyValueStore ss) |>,
                    mkGetReply OK (value valueStore) l)
             else Ret (ss, mkGetReply OK (value valueStore) noLease)
         end.

Definition GetList (now : Time) (args : GetArgs) (ss : storageServer)
    : outcome (storageServer * GetListReply) :=
  if negb (checkServerIsReady ss) then Ret (ss, mkGetListReply NotReady [] noLease)
  else
    isRightServer ← checkIsRightServer (ga_Key args) ss;
    if negb isRightServer then Ret (ss, mkGetListReply WrongServer [] noLease)
    else match keyListStore ss !! ga_Key args with
         | None => Ret (ss, mkGetListReply KeyNotFound [] noLease)
         | Some listStore =>
             if ga_WantLease args then
               let '(leases, l) := grantLeaseIfNecessary now (ga_HostPort args) (list_leaseGranted listStore) in
               Ret (ss <| keyListStore := <[ga_Key args := mkListStore (list_ listStore) leases]>
                            (keyListStore ss) |>,
                    mkGetListReply OK (list_ listStore) l)
             else Ret (ss, mkGetListReply OK (list_ listStore) noLease)
         end.

(** ** Writes *)

Section writes.
Context (dial : string -> bool) (now : string -> Time).
Context (range : list (string * lease) -> list (string * lease)).

(** What all three writers begin with. *)
Definition guarded (key : string) (ss : storageServer) (body : handled PutReply) : handled PutReply :=
  if negb (checkServerIsReady ss) then Ret (ss, [], inl (mkPutReply NotReady))
  else
    isRightServer ← checkIsRightServer key ss;
    if negb isRightServer then Ret (ss, [], inl (mkPutReply WrongServer)) else body.

Definition setValue (key : string) (v : valueStoreType) (ss : storageServer) : storageServer :=
  ss <| keyValueStore := <[key := v]> (keyValueStore ss) |>.
Definition setList (key : string) (l : listStoreType) (ss : storageServer) : storageServer :=
  ss <| keyListStore := <[key := l]> (keyListStore ss) |>.

Definition Put (args : PutArgs) (ss : storageServer) : handled PutReply :=
  guarded (pa_Key args) ss
    match keyValueStore ss !! pa_Key args with
    | None => Ret (setValue (pa_Key args) (mkValueStore (pa_Value args) ∅) ss, [], inl (mkPutReply OK))
    | Some valueStore =>
        '(ss, called, err) ← revokeGrantedLease dial now range (leaseGranted valueStore) ss;
        match err with
        | Some e => Ret (ss, called, inr e)
        | None => Ret (setValue (pa_Key args) (mkValueStore (pa_Value args) ∅) ss, called,
                       inl (mkPutReply OK))
        end
    end.

Definition AppendToList (args : PutArgs) (ss : storageServer) : handled PutReply :=
  guarded (pa_Key args) ss
    match keyListStore ss !! pa_Key args with
    | None => Ret (setList (pa_Key args) (mkListStore [pa_Value args] ∅) ss, [], inl (mkPutReply OK))
    | Some listStore =>
        '(ss, called, err) ← revokeGrantedLease dial now range (list_leaseGranted listStore) ss;
        match err with
        | Some e => Ret (ss, called, inr e)
        | None =>
            let itemExist := bool_decide (pa_Value args ∈ list_ listStore) in
            Ret (setList (pa_Key args)
                   (mkListStore (if itemExist then list_ listStore else list_ listStore ++ [pa_Value args]) ∅) ss,
                 called, inl (mkPutReply (if itemExist then ItemExists else OK)))
        end
    end.

(** The loop that removes the first element equal to the value. *)
Fixpoint removeFirst (v : string) (l : list string) : bool * list string :=
  match l with
  | [] => (false, [])
  | e :: l' => if String.eqb e v then (true, l') else let '(b, r) := removeFirst v l' in (b, e :: r)
  end.

Definition RemoveFromList (args : PutArgs) (ss : storageServer) : handled PutReply :=
  guarded (pa_Key args) ss
    match keyListStore ss !! pa_Key args with
    | None => Ret (ss, [], inl (mkPutReply ItemNotFound))
    | Some listStore =>
        '(ss, called, err) ← revokeGrantedLease dial now range (list_leaseGranted listStore) ss;
        match err with
        | Some e => Ret (ss, called, inr e)
        | None =>
            let '(itemFound, l) := removeFirst (pa_Value args) (list_ listStore) in
            Ret (setList (pa_Key args) (mkListStore l ∅) ss, called,
                 inl (mkPutReply (if itemFound then OK else ItemNotFound)))
        end
    end.
End writes.

(** ** The ring on the server *)

Lemma gtNode_by_id n n' : (gtNode n n' = true -> by_id n' n) /\ (gtNode n n' = false -> by_id n n').
Proof. unfold gtNode, by_id. split; intros H; breflect; lia. Qed.

Lemma nodeBelong_successor h l d :
  StronglySorted by_id l -> l <> [] -> (forall n, head l = Some n -> d = NodeID n) ->
  exists n, successor l h n /\ nodeBelong h l d = NodeID n.
Proof.
  intros Hs Hne Hd. destruct l as [|n0 l]; [done|]. rewrite (Hd n0) by done. clear Hd Hne d.
  assert (forall l1 l2, l1 ++ l2 = n0 :: l -> (forall n, n ∈ l1 -> NodeID n < h) ->
    exists n, successor (n0 :: l) h n /\ nodeBelong h l2 (NodeID n0) = NodeID n) as Hgen.
  { intros l1 l2. revert l1. induction l2 as [|n l2 IH]; intros l1 E Hlow; cbn [nodeBelong].
    - rewrite app_nil_r in E. subst l1. exists n0. split; [|done]. split; [by left|]. right.
      intros n' Hin. split; [auto|]. apply elem_of_cons in Hin as [->|Hin]; [done|].
      apply StronglySorted_inv in Hs as [_ Hs]. rewrite Forall_forall in Hs. by apply Hs.
    - destruct (h <=? NodeID n) eqn:E'; breflect.
      + exists n. split; [|done]. rewrite <- E in *. split; [set_solver|]. left. split; [done|].
        intros n' [Hin|[->|Hin]%elem_of_cons]%elem_of_app Hle; [apply Hlow in Hin; lia|done|].
        apply StronglySorted_app_1_r in Hs. apply StronglySorted_inv in Hs as [_ Hs].
        rewrite Forall_forall in Hs. by apply Hs.
      + apply (IH (l1 ++ [n])); [by rewrite <- app_assoc|].
        intros n' [?| ->%list_elem_of_singleton]%elem_of_app; auto. }
  apply (Hgen []); [done|]. intros n Hin. by apply elem_of_nil in Hin.
Qed.

(** ** Registration *)

Inductive registers (ss : storageServer) : storageServer -> Prop :=
  | registers_step range args ss' called r :
      (forall l, Permutation (range l) l) ->
      RegisterServer range args ss = Ret (ss', called, r) -> registers ss ss'.

Record ring_ok (ss : storageServer) : Prop := {
  ring_sorted : StronglySorted by_id (serversList ss);
  ring_length : Z.of_nat (length (serversList ss)) = numNodes ss;
  ring_hosts : NoDup (HostPort <$> serversList ss) }.

Record reg_inv (n : Z) (ss : storageServer) : Prop := {
  reg_master : isMaster ss = true;
  reg_nodes : numNodes ss = n /\ 0 < n;
  reg_keys : forall k nd, serversMap ss !! k = Some nd -> HostPort nd = k;
  reg_phase :
    (Z.of_nat (size (serversMap ss)) < n /\ status ss = NotReady /\ masterWaiting ss = true) \/
    (n <= Z.of_nat (size (serversMap ss)) /\ status ss = OK /\ ring_ok ss) }.

Lemma hosts_of_map (m : gmap string Node) :
  (forall k nd, m !! k = Some nd -> HostPort nd = k) -> HostPort <$> (map_to_list m).*2 = (map_to_list m).*1.
Proof.
  intros Hk. rewrite <- list_fmap_compose. apply list_fmap_ext.
  intros i [k nd] Hin. apply list_elem_of_lookup_2, elem_of_map_to_list in Hin. by apply Hk.
Qed.

Lemma exch_nodes (m : gmap string Node) range :
  (forall k nd, m !! k = Some nd -> HostPort nd = k) -> (forall l, Permutation (range l) l) ->
  let l := exch_sort gtNode (range (map_to_list m).*2) in
  StronglySorted by_id l /\ length l = size m /\ NoDup (HostPort <$> l).
Proof.
  intros Hk Hr l. assert (l ≡ₚ (map_to_list m).*2) as Hp by (unfold l; by rewrite exch_sort_perm, Hr).
  split_and!.
  - apply exch_sort_sorted; [apply _|intros ??; apply gtNode_by_id..].
  - by rewrite Hp, length_fmap, length_map_to_list.
  - rewrite Hp, hosts_of_map by done. apply NoDup_fst_map_to_list.
Qed.

Lemma size_insert_cases (m : gmap string Node) k nd :
  size (<[k := nd]> m) = if bool_decide (is_Some (m !! k)) then size m else S (size m).
Proof.
  rewrite map_size_insert. by destruct (m !! k).
Qed.

(** The outcome of one registration. *)
Lemma RegisterServer_spec n range args ss :
  reg_inv n ss -> (forall l, Permutation (range l) l) ->
  exists ss' r, RegisterServer range args ss = Ret (ss', [], r) /\ reg_inv n ss' /\
    (r = inr "num of servers registered exceeds the num of nodes specified" <-> 
     n < Z.of_nat (size (serversMap ss'))).
Proof.
  intros [Hm [<- Hpos] Hk Hph] Hr. unfold RegisterServer. rewrite Hm. cbn [negb].
  set (nd := ServerInfo args). set (m := <[HostPort nd := nd]> (serversMap ss)).
  assert (forall k x, m !! k = Some x -> HostPort x = k) as Hk'.
  { intros k x [[<- <-]|[? ?]]%lookup_insert_Some; eauto. }
  pose proof (size_insert_cases (serversMap ss) (HostPort nd) nd) as Hsize. fold m in Hsize.
  cbn -[size]. destruct (numNodes ss <? Z.of_nat (size m)) eqn:E1; breflect.
  { eexists _, _. split; [done|]. split; [|done]. split; cbn -[size]; auto. right.
    destruct Hph as [(? & _)|(? & ? & [? ? ?])]; [|split_and!; [lia|done|by split]].
    exfalso. destruct (bool_decide _); lia. }
  destruct (Z.of_nat (size m) =? numNodes ss) eqn:E2; breflect.
  - destruct (bool_decide (is_Some (serversMap ss !! HostPort nd))) eqn:E3; cbn -[size].
    + eexists _, _. split; [done|]. split; [|split; [done|cbn -[size]; lia]]. split; cbn -[size]; auto. right.
      destruct Hph as [(? & _)|(? & ? & [? ? ?])]; [lia|]. split_and!; [lia|done|by split].
    + destruct Hph as [(? & ? & Hw)|(? & _)]; [|lia]. rewrite Hw. cbn -[size].
      eexists _, _. split; [done|]. split; [|split; [done|cbn -[size]; lia]]. split; cbn -[size]; auto. right.
      destruct (exch_nodes m range Hk' Hr) as (? & Hl & ?). split; [lia|]. split; [done|].
      split; cbn -[size]; [done|lia|done].
  - eexists _, _. split; [done|]. split; [|split; [done|cbn -[size]; lia]]. split; cbn -[size]; auto. left.
    destruct Hph as [(? & ? & ?)|(? & _)]; [split; [lia|done]|destruct (bool_decide _); lia].
Qed.

Lemma reg_inv_init n id ss0 : NewStorageServer "" n id = Ret (inl ss0) -> reg_inv n ss0.
Proof.
  unfold NewStorageServer. destruct (n <? 0); [done|]. destruct (n <=? 0) eqn:E; [done|]. breflect. intros [= <-].
  split; cbn -[size]; [done|lia|done|left; split; [rewrite map_size_empty; lia|done]].
Qed.

Lemma reg_inv_run n id ss0 ss :
  NewStorageServer "" n id = Ret (inl ss0) -> rtc registers ss0 ss -> reg_inv n ss.
Proof.
  intros Hnew. apply rtc_invariant; [|by eapply reg_inv_init].
  intros x y Hx [range args ss' called r Hr Hreg].
  destruct (RegisterServer_spec n range args x Hx Hr) as (ss2 & r2 & E & ? & _).
  rewrite Hreg in E. by injection E as -> _ _.
Qed.

(** ** What the store holds *)

Definition values (ss : storageServer) : gmap string string := value <$> keyValueStore ss.
Definition lists (ss : storageServer) : gmap string (list string) := list_ <$> keyListStore ss.

(** The server answers for the key. *)
Definition serves (key : string) (ss : storageServer) : Prop :=
  status ss = OK /\ checkIsRightServer key ss = Ret true.

(** A list key holds a set: no element twice. *)
Definition sets (ss : storageServer) : Prop := forall k l, lists ss !! k = Some l -> NoDup l.

(** Same keys and values, whatever the leases. *)
Definition same_data (ss ss' : storageServer) : Prop := values ss' = values ss /\ lists ss' = lists ss.

(** The abstract operations on the set of a key. *)
Definition append_spec (v : string) (l : list string) : Status * list string :=
  if bool_decide (v ∈ l) then (ItemExists, l) else (OK, l ++ [v]).
Definition remove_spec (v : string) (l : list string) : Status * list string :=
  if bool_decide (v ∈ l) then (OK, filter (fun x => x <> v) l) else (ItemNotFound, l).

Lemma revokeLoop_frame dial now : forall ls called ss ss' called' err,
  revokeLoop dial now ls called ss = Ret (ss', called', err) ->
  exists c k, ss' = ss <| clientCache := c |> <| clientCacheLocked := k |>.
Proof.
  induction ls as [|[h l] ls IH]; intros called ss ss' called' err; cbn.
  { intros [= <- <- <-]. exists (clientCache ss), (clientCacheLocked ss). by destruct ss. }
  destruct (_ <? _); [|apply IH]. destruct (bool_decide (h ∈ clientCacheLocked ss)); [done|].
  destruct (bool_decide _); [apply IH|]. destruct (dial h).
  - intros (c & k & ->)%IH. by exists c, k.
  - intros [= <- <- <-]. by exists (clientCache ss), ({[h]} ∪ clientCacheLocked ss).
Qed.

(** Without leaked mutexes the loop comes to its end. *)
Lemma revokeLoop_total dial now : forall ls called ss,
  clientCacheLocked ss = ∅ -> exists r, revokeLoop dial now ls called ss = Ret r.
Proof.
  induction ls as [|[h l] ls IH]; intros called ss Hl; cbn; [eauto|].
  destruct (_ <? _); [|by apply IH]. rewrite Hl, bool_decide_false by set_solver.
  destruct (bool_decide _); [by apply IH|]. destruct (dial h); [by apply IH|eauto].
Qed.

Lemma revoke_total dial now range g ss :
  clientCacheLocked ss = ∅ ->
  exists c k called err, revokeGrantedLease dial now range g ss =
    Ret (ss <| clientCache := c |> <| clientCacheLocked := k |>, called, err).
Proof.
  intros Hl. unfold revokeGrantedLease.
  destruct (revokeLoop_total dial now (range (map_to_list g)) [] ss Hl) as [[[ss' called] err] E].
  destruct (revokeLoop_frame _ _ _ _ _ _ _ _ E) as (c & k & ->). rewrite E. by exists c, k, called, err.
Qed.

Lemma removeFirst_spec v : forall l, NoDup l ->
  removeFirst v l = (bool_decide (v ∈ l), filter (fun x => x <> v) l).
Proof.
  induction l as [|e l IH]; intros Hnd; [by rewrite bool_decide_false by apply not_elem_of_nil|].
  apply NoDup_cons in Hnd as [He Hnd]. cbn [removeFirst]. destruct (String.eqb_spec e v) as [->|Hne].
  - rewrite bool_decide_true by by left. rewrite filter_cons_False by (by intros []). f_equal.
    symmetry. clear -He. induction l as [|x l IH]; [done|]. apply not_elem_of_cons in He as [? ?].
    rewrite filter_cons_True by done. by rewrite IH.
  - rewrite IH, filter_cons_True by done. f_equal. apply bool_decide_ext. set_solver.
Qed.

Lemma remove_spec_first v l : NoDup l ->
  (let '(b, l') := removeFirst v l in (if b then OK else ItemNotFound, l')) = remove_spec v l.
Proof.
  intros Hnd. rewrite removeFirst_spec by done. unfold remove_spec.
  destruct (bool_decide _) eqn:E; [done|]. breflect. f_equal. clear Hnd.
  induction l as [|x l IH]; [done|]. apply not_elem_of_cons in E as [? ?].
  rewrite filter_cons_True by done. by rewrite IH.
Qed.

Lemma serves_guarded key ss body : serves key ss -> guarded key ss body = body.
Proof. intros [Hs Hr]. unfold guarded, checkServerIsReady. rewrite Hs. cbn. by rewrite Hr. Qed.

Lemma append_NoDup v l : NoDup l -> NoDup (append_spec v l).2.
Proof.
  intros Hl. unfold append_spec. destruct (bool_decide _) eqn:E; [done|]. breflect. cbn.
  apply NoDup_app. split; [done|]. split; [|apply NoDup_singleton]. intros x Hx ->%list_elem_of_singleton. done.
Qed.

Lemma remove_NoDup v l : NoDup l -> NoDup (remove_spec v l).2.
Proof. intros Hl. unfold remove_spec. destruct (bool_decide _); [by apply NoDup_filter|done]. Qed.

Lemma sets_insert ss ss' k l :
  sets ss -> lists ss' = <[k := l]> (lists ss) -> NoDup l -> sets ss'.
Proof. intros Hs E Hl k' l'. rewrite E. intros [[<- <-]|[? ?]]%lookup_insert_Some; eauto. Qed.

Lemma lookup_lists ss k l : keyListStore ss !! k = Some l -> lists ss !! k = Some (list_ l).
Proof. intros E. unfold lists. by rewrite lookup_fmap, E. Qed.

(** A write that returned: the new data of the answer, or an error and the old data. *)
Definition outcome_of (ss : storageServer) (r : handled PutReply) (st : Status)
    (data : gmap string string * gmap string (list string)) : Prop :=
  exists ss' called reply, r = Ret (ss', called, reply) /\ sets ss' /\
    match reply with
    | inl rep => pr_Status rep = st /\ values ss' = data.1 /\ lists ss' = data.2
    | inr _ => same_data ss ss'
    end.

Lemma storage_Put_spec dial now range k v ss :
  serves k ss -> sets ss -> clientCacheLocked ss = ∅ ->
  outcome_of ss (Put dial now range (mkPutArgs k v) ss) OK (<[k := v]> (values ss), lists ss).
Proof.
  intros Hs Hd Hl. unfold Put. rewrite serves_guarded by done. cbn [pa_Key pa_Value].
  destruct (keyValueStore ss !! k) as [vs|].
  - destruct (revoke_total dial now range (leaseGranted vs) ss Hl) as (c & m & called & err & ->). cbn.
    destruct err as [e|]; eexists _, _, _; (split; [done|]); (split; [exact Hd|]); [done|].
    split; [done|]. split; [|done]. unfold values. cbn. by rewrite fmap_insert.
  - eexists _, _, _. split; [done|]. split; [exact Hd|]. split; [done|]. split; [|done].
    unfold values. cbn. by rewrite fmap_insert.
Qed.

Lemma AppendToList_spec dial now range k v ss :
  serves k ss -> sets ss -> clientCacheLocked ss = ∅ ->
  let '(st, l') := append_spec v (default [] (lists ss !! k)) in
  outcome_of ss (AppendToList dial now range (mkPutArgs k v) ss) st (values ss, <[k := l']> (lists ss)).
Proof.
  intros Hs Hd Hl. unfold AppendToList. rewrite serves_guarded by done. cbn [pa_Key pa_Value].
  destruct (keyListStore ss !! k) as [ls|] eqn:E.
  - rewrite (lookup_lists _ _ _ E). cbn [from_option id].
    pose proof (append_NoDup v _ (Hd _ _ (lookup_lists _ _ _ E))) as Hnd.
    destruct (append_spec v (list_ ls)) as [st l'] eqn:Ea. unfold append_spec in Ea.
    destruct (revoke_total dial now range (list_leaseGranted ls) ss Hl) as (c & m & called & err & ->). cbn.
    destruct err as [e|]; eexists _, _, _; (split; [done|]); [split; [exact Hd|done]|].
    assert (lists (setList k (mkListStore l' ∅) ss) = <[k := l']> (lists ss)) as Hls
      by (unfold lists; cbn; by rewrite fmap_insert).
    destruct (bool_decide _); injection Ea as <- <-; split; try done; by eapply sets_insert.
  - assert (lists ss !! k = None) as Hn by (unfold lists; by rewrite lookup_fmap, E).
    rewrite Hn. cbn. assert (lists (setList k (mkListStore [v] ∅) ss) = <[k := [v]]> (lists ss)) as Hls
      by (unfold lists; cbn; by rewrite fmap_insert).
    eexists _, _, _. split; [done|]. split; [|done]. eapply sets_insert; [done..|apply NoDup_singleton].
Qed.

Lemma RemoveFromList_spec dial now range k v ss :
  serves k ss -> sets ss -> clientCacheLocked ss = ∅ ->
  let '(st, l') := remove_spec v (default [] (lists ss !! k)) in
  outcome_of ss (RemoveFromList dial now range (mkPutArgs k v) ss) st
    (values ss, match lists ss !! k with Some _ => <[k := l']> (lists ss) | None => lists ss end).
Proof.
  intros Hs Hd Hl. unfold RemoveFromList. rewrite serves_guarded by done. cbn [pa_Key pa_Value].
  destruct (keyListStore ss !! k) as [ls|] eqn:E.
  - rewrite (lookup_lists _ _ _ E). cbn [from_option id].
    pose proof (Hd _ _ (lookup_lists _ _ _ E)) as Hnd0. pose proof (remove_NoDup v _ Hnd0) as Hnd.
    rewrite <- (remove_spec_first v _ Hnd0) in *.
    destruct (removeFirst v (list_ ls)) as [b l'].
    destruct (revoke_total dial now range (list_leaseGranted ls) ss Hl) as (c & m & called & err & ->). cbn.
    destruct err as [e|]; eexists _, _, _; (split; [done|]); [split; [exact Hd|done]|].
    assert (lists (setList k (mkListStore l' ∅) ss) = <[k := l']> (lists ss)) as Hls
      by (unfold lists; cbn; by rewrite fmap_insert).
    split; [by eapply sets_insert|done].
  - assert (lists ss !! k = None) as Hn by (unfold lists; by rewrite lookup_fmap, E).
    rewrite Hn. cbn. eexists _, _, _. split; [done|]. split; [exact Hd|done].
Qed.

Lemma values_lookup ss k : values ss !! k = value <$> keyValueStore ss !! k.
Proof. unfold values. by rewrite lookup_fmap. Qed.

Lemma lists_lookup ss k : lists ss !! k = list_ <$> keyListStore ss !! k.
Proof. unfold lists. by rewrite lookup_fmap. Qed.

Lemma insert_same_data {A B} (f : A -> B) (m : gmap string A) k x y :
  m !! k = Some x -> f y = f x -> f <$> <[k := y]> m = f <$> m.
Proof. intros Hm Hf. rewrite fmap_insert, Hf. apply insert_id. by rewrite lookup_fmap, Hm. Qed.

Lemma Get_spec t k want host ss :
  serves k ss -> exists ss' l, same_data ss ss' /\ Get t (mkGetArgs k want host) ss =
    Ret (ss', match values ss !! k with
              | Some v => mkGetReply OK v l
              | None => mkGetReply KeyNotFound "" l
              end).
Proof.
  intros [Hs Hr]. unfold Get, checkServerIsReady. cbn [ga_Key ga_WantLease ga_HostPort].
  rewrite Hs, values_lookup. cbn -[checkIsRightServer]. rewrite Hr. cbn -[grantLeaseIfNecessary].
  destruct (keyValueStore ss !! k) as [vs|] eqn:E; cbn -[grantLeaseIfNecessary]; [|by exists ss, noLease].
  destruct want; [|by exists ss, noLease].
  destruct (grantLeaseIfNecessary _ _ _) as [g l]. eexists _, l. split; [|done].
  split; [|done]. unfold values. cbn. by eapply insert_same_data.
Qed.

Lemma GetList_spec t k want host ss :
  serves k ss -> exists ss' l, same_data ss ss' /\ GetList t (mkGetArgs k want host) ss =
    Ret (ss', match lists ss !! k with
              | Some v => mkGetListReply OK v l
              | None => mkGetListReply KeyNotFound [] l
              end).
Proof.
  intros [Hs Hr]. unfold GetList, checkServerIsReady. cbn [ga_Key ga_WantLease ga_HostPort].
  rewrite Hs, lists_lookup. cbn -[checkIsRightServer]. rewrite Hr.
  cbn -[grantLeaseIfNecessary].
  destruct (keyListStore ss !! k) as [vs|] eqn:E; cbn -[grantLeaseIfNecessary]; [|by exists ss, noLease].
  destruct want; [|by exists ss, noLease].
  destruct (grantLeaseIfNecessary _ _ _) as [g l]. eexists _, l. split; [|done].
  split; [done|]. unfold lists. cbn. by eapply insert_same_data.
Qed.

Lemma revokeLoop_locked dial now h l : forall ls called ss ss' called' err,
  (h, l) ∈ ls -> now h < validUntil l -> h ∈ clientCacheLocked ss ->
  revokeLoop dial now ls called ss = Ret (ss', called', err) -> err <> None.
Proof.
  induction ls as [|[h' l'] ls IH]; intros called ss ss' called' err Hin Hv Hl; cbn.
  { by apply elem_of_nil in Hin. }
  apply elem_of_cons in Hin as [[= <- <-]|Hin].
  - rewrite (proj2 (Z.ltb_lt _ _) Hv), bool_decide_true by done. done.
  - destruct (_ <? _); [|by eauto]. destruct (bool_decide (h' ∈ clientCacheLocked ss)); [done|].
    destruct (bool_decide _); [by eauto|]. destruct (dial h'); [|by intros [= <- <- <-]].
    intros Hr. eapply IH; [done|done| |exact Hr]. done.
Qed.

(** ** A concrete ring of two *)

Definition two : storageServer :=
  slaveReady (mkRegisterReply OK [mkNode "a:1" 1000; mkNode "b:2" (2 ^ 32 - 1)])
    (mkServer NotReady ∅ ∅ false (2 ^ 32 - 1) 1 [] ∅ ∅ ∅ false).

Definition in_order (l : list (string * lease)) : list (string * lease) := l.
Definition at_ (t : Time) (_ : string) : Time := t.

Definition state_of {R} (r : handled R) : storageServer :=
  match r with Ret (ss, _, _) => ss | _ => two end.

(** A value with an unexpired lease of host "c:3". *)
Definition leased : storageServer :=
  match Get 0 (mkGetArgs "u:user" true "c:3")
          (state_of (Put (fun _ => true) (at_ 0) in_order (mkPutArgs "u:user" "x") two)) with
  | Ret (ss, _) => ss
  | _ => two
  end.

(** Registration completes the ring exactly once. From a new master, whatever registrations arrive, no call of [RegisterServer] panics or blocks; the server is ready exactly when at least [numNodes] hosts have registered, and its server list is then sorted by node id, has [numNodes] entries and no host twice, whatever the iteration order of the map; but from the first host too many on, every later registration is refused, also the retry of a slave that had registered in time and is still waiting for its OK. *)
Lemma registration_correct n id ss0 ss :
  NewStorageServer "" n id = Ret (inl ss0) -> rtc registers ss0 ss ->
  (forall range args, (forall l, Permutation (range l) l) ->
     exists ss' r, RegisterServer range args ss = Ret (ss', [], r) /\
       (n < Z.of_nat (size (serversMap ss)) -> exists e, r = inr e)) /\
  (status ss = OK <-> n <= Z.of_nat (size (serversMap ss))) /\
  (status ss = OK -> ring_ok ss).
Proof.
  intros Hnew Hrun. pose proof (reg_inv_run _ _ _ _ Hnew Hrun) as Hi.
  pose proof Hi as [Hm [Hn Hpos] _ Hph]. split; [|split].
  - intros range args Hr. destruct (RegisterServer_spec n range args ss Hi Hr) as (ss' & r & E & _ & Hx).
    exists ss', r. split; [done|]. intros Hlt. eexists. apply Hx.
    assert (serversMap ss' = <[HostPort (ServerInfo args) := ServerInfo args]> (serversMap ss)) as Hmap.
    { unfold RegisterServer in E. rewrite Hm in E. cbn -[size] in E. repeat case_match; bind_inv; try done.
      all: repeat case_match; simplify_eq; done. }
    rewrite Hmap, size_insert_cases. destruct (bool_decide _); lia.
  - destruct Hph as [(? & Hs & _)|(? & Hs & _)]; rewrite Hs; split; intros; done || lia.
  - destruct Hph as [(? & Hs & _)|(? & Hs & ?)]; rewrite Hs; done.
Qed.

Lemma registration_correct_demo :
  exists ss0 ss, NewStorageServer "" 2 7 = Ret (inl ss0) /\ rtc registers ss0 ss /\
    serversList ss = [mkNode "b:2" 3; mkNode "a:1" 7] /\ ring_ok ss.
Proof.
  eexists _, _. split; [reflexivity|].
  assert (forall l : list Node, Permutation ((fun l => l) l) l) as Hid by reflexivity.
  match goal with |- rtc registers ?s0 _ /\ _ => set (ss0 := s0) end.
  set (ss1 := match RegisterServer (fun l => l) (mkRegisterArgs (mkNode "a:1" 7)) ss0 with
              | Ret (s, _, _) => s | _ => ss0 end).
  set (ss2 := match RegisterServer (fun l => l) (mkRegisterArgs (mkNode "b:2" 3)) ss1 with
              | Ret (s, _, _) => s | _ => ss0 end).
  assert (rtc registers ss0 ss2) as Hrun.
  { eapply (rtc_l _ _ ss1); [by eapply (registers_step ss0 (fun l => l) (mkRegisterArgs (mkNode "a:1" 7)))|].
    apply rtc_once. by eapply (registers_step ss1 (fun l => l) (mkRegisterArgs (mkNode "b:2" 3))). }
  split; [exact Hrun|]. split; [reflexivity|].
  apply (registration_correct 2 7 ss0 ss2); [reflexivity|exact Hrun|reflexivity].
Defined.

(** C19: the storage server implements a map of values and a map of sets. On a ready server responsible for the key, with no leaked connection mutex, every call returns, and list keys never hold an element twice. A [Put] that succeeds stores the value; [AppendToList] adds the element at the end unless it is there; [RemoveFromList] removes it if it is there, the status saying which; a write that fails to reach a lease holder changes no data; [Get] and [GetList] return what is stored and change no data. *)
Theorem storage_refines_sets dial now range t want host k v ss :
  serves k ss -> sets ss -> clientCacheLocked ss = ∅ ->
  outcome_of ss (Put dial now range (mkPutArgs k v) ss) OK (<[k := v]> (values ss), lists ss) /\
  (let '(st, l') := append_spec v (default [] (lists ss !! k)) in
   outcome_of ss (AppendToList dial now range (mkPutArgs k v) ss) st (values ss, <[k := l']> (lists ss))) /\
  (let '(st, l') := remove_spec v (default [] (lists ss !! k)) in
   outcome_of ss (RemoveFromList dial now range (mkPutArgs k v) ss) st
     (values ss, match lists ss !! k with Some _ => <[k := l']> (lists ss) | None => lists ss end)) /\
  (exists ss' l, same_data ss ss' /\ Get t (mkGetArgs k want host) ss =
     Ret (ss', match values ss !! k with
               | Some v => mkGetReply OK v l | None => mkGetReply KeyNotFound "" l end)) /\
  (exists ss' l, same_data ss ss' /\ GetList t (mkGetArgs k want host) ss =
     Ret (ss', match lists ss !! k with
               | Some v => mkGetListReply OK v l | None => mkGetListReply KeyNotFound [] l end)).
Proof.
  intros. split_and!; [by apply storage_Put_spec|by apply AppendToList_spec|by apply RemoveFromList_spec|
    by apply Get_spec|by apply GetList_spec].
Qed.

Lemma storage_refines_sets_witness :
  exists ss' l, same_data leased ss' /\
    Get 5 (mkGetArgs "u:user" true "d:4") leased = Ret (ss', mkGetReply OK "x" l).
Proof.
  apply (storage_refines_sets (fun _ => true) (at_ 5) in_order 5 true "d:4" "u:user" "y" leased).
  - split; vm_compute; reflexivity.
  - intros k l. change (lists leased) with (∅ : gmap string (list string)). by rewrite lookup_empty.
  - vm_compute. reflexivity.
Defined.

(** A host that cannot be dialled once makes a key unwritable. When the dial to a lease holder fails, [revokeGrantedLease] returns without releasing that host's connection mutex. A [Put] on a key with an unexpired lease of such a host never succeeds again; for example, after one failed [Put] the next one on the key, with the network healed, blocks for ever while it holds the mutex of the key. *)
Lemma failed_dial_blocks_writes :
  (forall dial now range k v ss vs h l ss' called rep, (forall ls, Permutation (range ls) ls) ->
     serves k ss -> keyValueStore ss !! k = Some vs -> leaseGranted vs !! h = Some l ->
     now h < validUntil l -> h ∈ clientCacheLocked ss ->
     Put dial now range (mkPutArgs k v) ss <> Ret (ss', called, inl rep)) /\
  exists ss1, Put (fun _ => false) (at_ 1) in_order (mkPutArgs "u:user" "y") leased =
      Ret (ss1, [], inr "dial error") /\
    Put (fun _ => true) (at_ 2) in_order (mkPutArgs "u:user" "y") ss1 = Hang.
Proof.
  split; [|eexists; split; [vm_compute; reflexivity|vm_compute; reflexivity]].
  intros dial now range k v ss vs h l ss' called rep Hr Hs Hk Hh Hv Hl.
  unfold Put. rewrite serves_guarded by done. cbn [pa_Key]. rewrite Hk.
  destruct (revokeGrantedLease dial now range (leaseGranted vs) ss) as [[[ss1 c1] err]| |] eqn:E; try done.
  cbn. destruct err; [done|]. unfold revokeGrantedLease in E.
  eapply (revokeLoop_locked dial now h l) in E; [done| |done|done].
  rewrite Hr. by apply elem_of_map_to_list.
Qed.

End StorageServer.
