(* ===== verification/Libstore.v ===== *)
(** * Libstore: the caching client library of tribbler
    ([p2/.../libstore/libstore_impl.go])

    The state of [libstore] and its operations.  [Get] and [GetList] are cut at
    their remote call, into what they do before ([Get_begin]: answer from the
    cache, or the arguments to send) and after ([Get_finish]); both run under
    the mutex of the key, which stays locked during the call.  [Get] composes
    them over a parameter [call], the RPC to the storage server at a host and
    port, [None] being an error of [client.Call]; [dial] says whether a dial
    succeeds. *)
From S2P Require Import Prelude StorageRpc StorageServer.
Open Scope Z_scope.

Module Libstore.
Import StorageRpc.

Definition LeaseMode := Z.
Definition Never : LeaseMode := 0.
Definition Normal : LeaseMode := 1.
Definition Always : LeaseMode := 2.

Record leasetype := mkLease { startFrom : Time; validSeconds : Z }.
Record valuelib := mkValue { value : string; lease : leasetype }.
Record listlib := mkList { list_ : list string; list_lease : leasetype }.

Record libstore := mkLibstore {
  Servers : list Node;
  keyValue : gmap string valuelib;
  keylist : gmap string listlib;
  keyValudhistory : gmap string (list Time);
  keyListhistory : gmap string (list Time);
  mode : LeaseMode;
  myHostPort : string;
  clientmap : gset string }.

#[export] Instance eta_libstore : EtaRecord libstore := fun l =>
  mkLibstore (Servers l) (keyValue l) (keylist l) (keyValudhistory l) (keyListhistory l) (mode l)
    (myHostPort l) (clientmap l).

(** ** Creation *)

(** The loop that asks for the servers: [reply i] is the outcome of call [i]
    and [num] the number of calls made; five calls are made at most. *)
Fixpoint askServers (tries : nat) (num : nat) (reply : nat -> option GetServersReply) : list Node + string :=
  match tries with
  | O => inr "cannot find the storage server"
  | S tries' =>
      match reply num with
      | None => inr "meet error when client call"
      | Some r => if gs_Status r =? OK then inl (gs_Servers r) else askServers tries' (S num) reply
      end
  end.

Definition NewLibstore (dial : string -> bool) (reply : nat -> option GetServersReply)
    (masterServerHostPort myHostPort : string) (mode : LeaseMode) : libstore + string :=
  if negb (dial masterServerHostPort) then inr "meet error when DialHTTP"
  else match askServers 5 0 reply with
       | inl servers => inl (mkLibstore servers ∅ ∅ ∅ ∅ mode myHostPort {[masterServerHostPort]})
       | inr e => inr e
       end.

(** ** The ring *)

Fixpoint firstNode (hashring : Z) (l : list Node) : option Node :=
  match l with
  | [] => None
  | n :: l' => if hashring <=? NodeID n then Some n else firstNode hashring l'
  end.

(** The first server not below the hash, or server 0, which may not exist. *)
Definition Findshashring (key : string) (ls : libstore) : outcome string :=
  let hashring := StoreHash (partitionKey key) in
  match firstNode hashring (Servers ls) with
  | Some n => Ret (HostPort n)
  | None => n ← deref (head (Servers ls)); Ret (HostPort n)
  end.

(** ** Cache and history *)

Definition validUntil (l : leasetype) : Time := until (startFrom l) (validSeconds l).

Definition expired (now : Time) (l : leasetype) : bool := validUntil l <? now.

(** Drop queries from the front that are too old or too many. *)
Fixpoint trimHistory (now : Time) (l : list Time) : list Time :=
  match l with
  | [] => []
  | pretime :: l' =>
      if (now <? until pretime QueryCacheSeconds) && (Z.of_nat (length l) <=? QueryCacheThresh)
      then l else trimHistory now l'
  end.

(** Record a query, if the key has a history. *)
Definition recordQuery (now : Time) (key : string) (h : gmap string (list Time)) : gmap string (list Time) :=
  match h !! key with
  | Some l => <[key := trimHistory now l ++ [now]]> h
  | None => h
  end.

Definition wantLease (mode : LeaseMode) (history : option (list Time)) : bool :=
  (mode =? Always) ||
  ((mode =? Normal) && match history with
                       | Some l => QueryCacheThresh <=? Z.of_nat (length l)
                       | None => false
                       end).

(** [deleteinvalid] and [deletelist] of the timer goroutine. *)
Definition deleteinvalid (now : Time) (ls : libstore) : libstore :=
  ls <| keyValue := filter (fun kv => expired now (lease kv.2) = false) (keyValue ls) |>
     <| keylist := filter (fun kv => expired now (list_lease kv.2) = false) (keylist ls) |>.

Definition deletelist (now : Time) (ls : libstore) : libstore :=
  ls <| keyValudhistory := trimHistory now <$> keyValudhistory ls |>
     <| keyListhistory := trimHistory now <$> keyListhistory ls |>.

(** ** Reads *)

Definition Get_begin (now : Time) (key : string) (ls : libstore) : libstore * (string + GetArgs) :=
  let '(ls, cached) :=
    match keyValue ls !! key with
    | Some v => if expired now (lease v) then (ls <| keyValue := delete key (keyValue ls) |>, None)
                else (ls, Some v)
    | None => (ls, None)
    end in
  let ls := ls <| keyValudhistory := recordQuery now key (keyValudhistory ls) |> in
  match cached with
  | Some v => (ls, inl (value v))
  | None => (ls, inr (mkGetArgs key (wantLease (mode ls) (keyValudhistory ls !! key)) (myHostPort ls)))
  end.

Definition Get_finish (now : Time) (key : string) (reply : option GetReply) (ls : libstore)
    : libstore * (string + string) :=
  match reply with
  | None => (ls, inr "error when libstore call get to storageserver")
  | Some r =>
      if gr_Status r =? OK then
        (if Granted (gr_Lease r)
         then ls <| keyValue := <[key := mkValue (gr_Value r) (mkLease now (ValidSeconds (gr_Lease r)))]>
                                  (keyValue ls) |>
         else ls, inl (gr_Value r))
      else (ls, inr "reply not ready get")
  end.

Definition GetList_begin (now : Time) (key : string) (ls : libstore) : libstore * (list string + GetArgs) :=
  let '(ls, cached) :=
    match keylist ls !! key with
    | Some v => if expired now (list_lease v) then (ls <| keylist := delete key (keylist ls) |>, None)
                else (ls, Some v)
    | None => (ls, None)
    end in
  let ls := ls <| keyListhistory := recordQuery now key (keyListhistory ls) |> in
  match cached with
  | Some v => (ls, inl (list_ v))
  | None => (ls, inr (mkGetArgs key (wantLease (mode ls) (keyListhistory ls !! key)) (myHostPort ls)))
  end.

(** [string] of a status is the character with that code. *)
Definition GetList_finish (now : Time) (key : string) (reply : option GetListReply) (ls : libstore)
    : libstore * (list string + string) :=
  match reply with
  | None => (ls, inr "error when libstore call get to storageserver")
  | Some r =>
      if gl_Status r =? OK then
        (if Granted (gl_Lease r)
         then ls <| keylist := <[key := mkList (gl_Value r) (mkLease now (ValidSeconds (gl_Lease r)))]>
                                 (keylist ls) |>
         else ls, inl (gl_Value r))
      else if gl_Status r =? KeyNotFound then (ls, inl [])
      else (ls, inr ("reply not ready getlist: " +:+
                     String (Ascii.ascii_of_N (Z.to_N (gl_Status r))) EmptyString))
  end.

Section operations.
Context (dial : string -> bool).

(** The connection to a server, dialled on first use. *)
Definition connect (server : string) (ls : libstore) : libstore + string :=
  if bool_decide (server ∈ clientmap ls) then inl ls
  else if dial server then inl (ls <| clientmap := {[server]} ∪ clientmap ls |>)
  else inr "meet error when DialHTTP".

Definition Get (call : string -> GetArgs -> option GetReply) (now : Time) (key : string) (ls : libstore)
    : outcome (libstore * (string + string)) :=
  match Get_begin now key ls with
  | (ls, inl v) => Ret (ls, inl v)
  | (ls, inr args) =>
      server ← Findshashring key ls;
      match connect server ls with
      | inr e => Ret (ls, inr e)
      | inl ls => Ret (Get_finish now key (call server args) ls)
      end
  end.

Definition GetList (call : string -> GetArgs -> option GetListReply) (now : Time) (key : string)
    (ls : libstore) : outcome (libstore * (list string + string)) :=
  match GetList_begin now key ls with
  | (ls, inl v) => Ret (ls, inl v)
  | (ls, inr args) =>
      server ← Findshashring key ls;
      match connect server ls with
      | inr e => Ret (ls, inr e)
      | inl ls => Ret (GetList_finish now key (call server args) ls)
      end
  end.

(** ** Writes *)

(** Dial, call and turn the status into an error; [None] is success. *)
Definition callWrite (call : string -> PutArgs -> option PutReply) (key item callErr statusErr : string)
    (ls : libstore) : outcome (libstore * option string) :=
  server ← Findshashring key ls;
  match connect server ls with
  | inr e => Ret (ls, Some e)
  | inl ls =>
      Ret (ls, match call server (mkPutArgs key item) with
               | None => Some callErr
               | Some r => if pr_Status r =? OK then None else Some statusErr
               end)
  end.

(** A history starts with the first write of the key by this libstore. *)
Definition startHistory (key : string) (h : gmap string (list Time)) : gmap string (list Time) :=
  match h !! key with Some _ => h | None => <[key := []]> h end.

Definition Put (call : string -> PutArgs -> option PutReply) (key value : string) (ls : libstore)
    : outcome (libstore * option string) :=
  callWrite call key value "error when libstore call get to StorageServer.Get"
    "put error libstore key not found"
    (ls <| keyValudhistory := startHistory key (keyValudhistory ls) |>).

(** A failed call is returned as it is. *)
Definition AppendToList (call : string -> PutArgs -> option PutReply) (key newItem : string) (ls : libstore)
    : outcome (libstore * option string) :=
  callWrite call key newItem "rpc error" "AppendTolist error libstore key not found"
    (ls <| keyListhistory := startHistory key (keyListhistory ls) |>).

Definition RemoveFromList (call : string -> PutArgs -> option PutReply) (key removeItem : string)
    (ls : libstore) : outcome (libstore * option string) :=
  callWrite call key removeItem "error when libstore call get to StorageServer.Get"
    " RemoveFromList error libstore key not found" ls.
End operations.

(** ** The callback *)

Definition RevokeLease (args : RevokeLeaseArgs) (ls : libstore) : libstore * RevokeLeaseReply :=
  let key := rl_Key args in
  match keyValue ls !! key, keylist ls !! key with
  | Some _, _ => (ls <| keyValue := delete key (keyValue ls) |>, mkRevokeLeaseReply OK)
  | None, Some _ => (ls <| keylist := delete key (keylist ls) |>, mkRevokeLeaseReply OK)
  | None, None => (ls, mkRevokeLeaseReply KeyNotFound)
  end.

(** ** The cache lookup of both reads *)

(** The unexpired entry of a key, and the cache without an expired one. *)
Definition look {A} (leaseOf : A -> leasetype) (now : Time) (key : string) (m : gmap string A)
    : gmap string A * option A :=
  match m !! key with
  | Some v => if expired now (leaseOf v) then (delete key m, None) else (m, Some v)
  | None => (m, None)
  end.

(** Both reads start by looking up and recording. *)
Lemma Get_begin_alt now key ls :
  Get_begin now key ls =
    let ls1 := ls <| keyValue := (look lease now key (keyValue ls)).1 |>
                  <| keyValudhistory := recordQuery now key (keyValudhistory ls) |> in
    match (look lease now key (keyValue ls)).2 with
    | Some v => (ls1, inl (value v))
    | None => (ls1, inr (mkGetArgs key (wantLease (mode ls1) (keyValudhistory ls1 !! key)) (myHostPort ls1)))
    end.
Proof.
  unfold Get_begin, look. destruct ls. cbn. destruct (keyValue0 !! key) as [v|]; [|done].
  by destruct (expired now (lease v)).
Qed.

Lemma GetList_begin_alt now key ls :
  GetList_begin now key ls =
    let ls1 := ls <| keylist := (look list_lease now key (keylist ls)).1 |>
                  <| keyListhistory := recordQuery now key (keyListhistory ls) |> in
    match (look list_lease now key (keylist ls)).2 with
    | Some v => (ls1, inl (list_ v))
    | None => (ls1, inr (mkGetArgs key (wantLease (mode ls1) (keyListhistory ls1 !! key)) (myHostPort ls1)))
    end.
Proof.
  unfold GetList_begin, look. destruct ls. cbn. destruct (keylist0 !! key) as [v|]; [|done].
  by destruct (expired now (list_lease v)).
Qed.

(** ** Properties *)

Lemma firstNode_belongs h l d :
  StorageServer.nodeBelong h l d = match firstNode h l with Some n => NodeID n | None => d end.
Proof. induction l as [|n l IH]; cbn; [done|]. by destruct (h <=? NodeID n). Qed.

Lemma firstNode_elem h l n : firstNode h l = Some n -> n ∈ l.
Proof.
  induction l as [|n' l IH]; cbn; [done|]. destruct (_ <=? _); [intros [= ->]; by left|]. intros. right. auto.
Qed.

(** Both kinds of entry of one key cached: a revocation drops the value only. *)
Lemma RevokeLease_keeps_list key ls v l :
  keyValue ls !! key = Some v -> keylist ls !! key = Some l ->
  (RevokeLease (mkRevokeLeaseArgs key) ls).2 = mkRevokeLeaseReply OK /\
  keylist (RevokeLease (mkRevokeLeaseArgs key) ls).1 !! key = Some l.
Proof. intros Hv Hl. unfold RevokeLease. cbn. by rewrite Hv. Qed.

(** Leases are asked for only about keys this libstore wrote itself. *)
Lemma no_history_no_lease now key ls args :
  mode ls = Normal -> keyValudhistory ls !! key = None ->
  (Get_begin now key ls).2 = inr args -> ga_WantLease args = false.
Proof.
  intros Hm Hh. unfold Get_begin.
  destruct (keyValue ls !! key) as [v|]; [destruct (expired _ _)|]; cbn; try done;
    unfold recordQuery; cbn; rewrite Hh; cbn; rewrite Hh, Hm; cbn; by intros [= <-].
Qed.

(** C25: client and servers agree on where a key lives. On a ring sorted by distinct node ids, [Findshashring] never panics and returns the host of the successor of the key's hash (the first node not below it, or the lowest node), and of all servers of the ring exactly that one passes [checkIsRightServer] for the key; keys with the same part before the colon share a server. *)
Theorem ring_agreement l key ls :
  StronglySorted by_id l -> NoDup (NodeID <$> l) -> l <> [] -> Servers ls = l ->
  exists n, successor l (StoreHash (partitionKey key)) n /\ Findshashring key ls = Ret (HostPort n) /\
    (forall ss n', StorageServer.serversList ss = l -> n' ∈ l -> StorageServer.nodeID ss = NodeID n' ->
       StorageServer.checkIsRightServer key ss = Ret (bool_decide (n' = n))) /\
    (forall key', partitionKey key' = partitionKey key -> Findshashring key' ls = Ret (HostPort n)).
Proof.
  intros Hs Hnd Hne Hl. destruct l as [|n0 l']; [done|]. set (l := n0 :: l') in *.
  set (h := StoreHash (partitionKey key)). set (n := default n0 (firstNode h l)).
  assert (n ∈ l) as Hn.
  { unfold n. destruct (firstNode h l) as [x|] eqn:E; [by eapply firstNode_elem|by left]. }
  assert (StorageServer.nodeBelong h l (NodeID n0) = NodeID n) as Hb.
  { rewrite firstNode_belongs. unfold n. by destruct (firstNode h l). }
  assert (forall x y, x ∈ l -> y ∈ l -> NodeID x = NodeID y -> x = y) as Hinj.
  { intros x y. by apply NoDup_fmap_elem. }
  assert (forall key', partitionKey key' = partitionKey key -> Findshashring key' ls = Ret (HostPort n)) as Hf.
  { intros key' Hk. unfold Findshashring. rewrite Hk, Hl. fold h. unfold n.
    destruct (firstNode h l) as [x|]; done. }
  exists n. split; [|split; [by apply Hf|split; [|done]]].
  - destruct (StorageServer.nodeBelong_successor h l (NodeID n0) Hs Hne) as (n1 & Hn1 & E); [by intros ? [= <-]|].
    rewrite Hb in E. apply Hinj in E; [by subst n1|done|apply Hn1].
  - intros ss n' Hss Hn' Hid. unfold StorageServer.checkIsRightServer. rewrite Hss, Hid. cbn -[StorageServer.nodeBelong].
    fold h l. rewrite Hb. f_equal. destruct (NodeID n =? NodeID n') eqn:E; breflect.
    + symmetry. apply bool_decide_eq_true. apply Hinj; [done..|by symmetry].
    + symmetry. apply bool_decide_eq_false. by intros ->.
Qed.

Definition demo_ring : list Node := [mkNode "a:1" 1000; mkNode "b:2" 3000000000].

Lemma ring_agreement_witness :
  exists n, successor demo_ring (StoreHash "ann") n /\
    Findshashring "ann:user" (mkLibstore demo_ring ∅ ∅ ∅ ∅ Normal "c:3" ∅) = Ret (HostPort n).
Proof.
  destruct (ring_agreement demo_ring "ann:user" (mkLibstore demo_ring ∅ ∅ ∅ ∅ Normal "c:3" ∅))
    as (n & Hn & Hf & _).
  - repeat constructor; unfold by_id; cbn; lia.
  - repeat constructor; set_solver.
  - done.
  - done.
  - by exists n.
Defined.

End Libstore.
