(* ===== verification/LibstoreSweep.v ===== *)
(** * LibstoreSweep: the timer goroutine of the libstore
    ([epochtime] in [p2/.../libstore/libstore_impl.go])

    The libstore as the application and the storage servers drive it: a list of
    calls and timer turns with the clock readings, and what each call answers.
    The sweeps only forget what the operations would not use any more: runs
    with and without them answer alike ([sweeps_invisible]).  The relation
    behind it is [same_at]: two libstores that are equal once both are swept. *)
From S2P Require Import Prelude StorageRpc StorageServer Libstore.
Open Scope Z_scope.

Module LibstoreSweep.
Import StorageRpc Libstore.

(** ** The goroutine *)

(** Which of the two timers of the [select] fires. *)
Inductive timer := LeaseTimer | HistoryTimer.

(** One turn of the loop; both timers are started afresh in the next one. *)
Definition epochtime (fired : timer) (now : Time) (ls : libstore) : libstore :=
  match fired with LeaseTimer => deleteinvalid now ls | HistoryTimer => deletelist now ls end.

(** ** Everything that happens to a libstore *)

(** A call of the application with the outcome of its RPC, a revocation, or a
    turn of the goroutine. *)
Inductive event :=
  | CallGet (key : string) (rpc : string -> GetArgs -> option GetReply)
  | CallGetList (key : string) (rpc : string -> GetArgs -> option GetListReply)
  | CallPut (key value : string) (rpc : string -> PutArgs -> option PutReply)
  | CallAppend (key newItem : string) (rpc : string -> PutArgs -> option PutReply)
  | CallRemove (key removeItem : string) (rpc : string -> PutArgs -> option PutReply)
  | Revoke (key : string)
  | Timer (fired : timer).

(** What the application gets. *)
Inductive answer :=
  | AValue (r : string + string) | AList (r : list string + string) | AError (r : option string) | ANone.

Definition answering {A} (f : A -> answer) (o : outcome (libstore * A)) : outcome (libstore * answer) :=
  '(ls, a) ← o; Ret (ls, f a).

Definition handle (dial : string -> bool) (now : Time) (e : event) (ls : libstore)
    : outcome (libstore * answer) :=
  match e with
  | CallGet key rpc => answering AValue (Get dial rpc now key ls)
  | CallGetList key rpc => answering AList (GetList dial rpc now key ls)
  | CallPut key value rpc => answering AError (Put dial rpc key value ls)
  | CallAppend key newItem rpc => answering AError (AppendToList dial rpc key newItem ls)
  | CallRemove key removeItem rpc => answering AError (RemoveFromList dial rpc key removeItem ls)
  | Revoke key => Ret ((RevokeLease (mkRevokeLeaseArgs key) ls).1, ANone)
  | Timer fired => Ret (epochtime fired now ls, ANone)
  end.

Definition isTimer (e : Time * event) : bool := match e.2 with Timer _ => true | _ => false end.

(** A run and the answers of its calls, timer turns left out. *)
Fixpoint run (dial : string -> bool) (es : list (Time * event)) (ls : libstore)
    : outcome (libstore * list answer) :=
  match es with
  | [] => Ret (ls, [])
  | (now, e) :: es' =>
      '(ls, a) ← handle dial now e ls;
      '(ls, rest) ← run dial es' ls;
      Ret (ls, if isTimer (now, e) then rest else a :: rest)
  end.

(** ** Sweeping *)

Definition fresh_value (now : Time) (kv : string * valuelib) : Prop := expired now (lease kv.2) = false.
Definition fresh_list (now : Time) (kv : string * listlib) : Prop := expired now (list_lease kv.2) = false.

#[export] Instance fresh_value_dec now kv : Decision (fresh_value now kv).
Proof. unfold fresh_value. apply _. Defined.
#[export] Instance fresh_list_dec now kv : Decision (fresh_list now kv).
Proof. unfold fresh_list. apply _. Defined.

Definition swept (now : Time) (ls : libstore) : libstore := deletelist now (deleteinvalid now ls).

(** Equal for all calls from [now] on. *)
Definition same_at (now : Time) (ls ls' : libstore) : Prop := swept now ls = swept now ls'.

#[export] Instance same_at_equiv now : Equivalence (same_at now).
Proof. unfold same_at. split; [by intros ?|by intros ??|intros ??? H1 H2; by rewrite H1]. Qed.

Lemma expired_later t t' l : t <= t' -> expired t' l = false -> expired t l = false.
Proof. unfold expired. intros Ht H. breflect. apply Z.ltb_ge. lia. Qed.

Lemma trim_later t t' l : t <= t' -> trimHistory t' (trimHistory t l) = trimHistory t' l.
Proof.
  intros Ht. induction l as [|x l IH]; [done|]. cbn [trimHistory].
  destruct (t <? until x QueryCacheSeconds) eqn:E; cbn [andb].
  - destruct (Z.of_nat (length (x :: l)) <=? QueryCacheThresh) eqn:El; [cbn [trimHistory]; by rewrite El|].
    rewrite andb_false_r. exact IH.
  - assert ((t' <? until x QueryCacheSeconds) = false) as -> by (breflect; apply Z.ltb_ge; lia). exact IH.
Qed.

Lemma filter_later {A} (P Q : string * A -> Prop) `{!forall x, Decision (P x), !forall x, Decision (Q x)}
    (m : gmap string A) : (forall y, Q y -> P y) -> filter Q (filter P m) = filter Q m.
Proof.
  intros Himp. apply map_eq. intros i. apply option_eq. intros x. rewrite !map_lookup_filter_Some.
  split; [by intros [[? _] ?]|]. intros [? HQ]. auto.
Qed.

(** One sweep, or both, at an earlier time make no difference. *)
Lemma epochtime_same fired t now ls : t <= now -> same_at now (epochtime fired t ls) ls.
Proof.
  intros Ht. unfold same_at, swept, deletelist, deleteinvalid. destruct ls. destruct fired; cbn; f_equal.
  - apply (filter_later (fresh_value t) (fresh_value now)). intros x. by apply expired_later.
  - apply (filter_later (fresh_list t) (fresh_list now)). intros x. by apply expired_later.
  - rewrite <- map_fmap_compose. apply map_fmap_ext. intros. by apply trim_later.
  - rewrite <- map_fmap_compose. apply map_fmap_ext. intros. by apply trim_later.
Qed.

Lemma swept_same t now ls : t <= now -> same_at now (swept t ls) ls.
Proof. intros Ht. unfold swept. etrans; [apply (epochtime_same HistoryTimer)|apply (epochtime_same LeaseTimer)]; lia. Qed.

Lemma same_later t now ls ls' : t <= now -> same_at t ls ls' -> same_at now ls ls'.
Proof.
  intros Ht H. etrans; [symmetry; by apply (swept_same t)|]. unfold same_at in H. rewrite H. by apply swept_same.
Qed.

(** ** The operations do not see the difference *)

(** Two libstores that agree field by field once swept. *)
Record alike (now : Time) (ls ls' : libstore) : Prop := {
  al_Servers : Servers ls = Servers ls';
  al_mode : mode ls = mode ls';
  al_hostport : myHostPort ls = myHostPort ls';
  al_clients : clientmap ls = clientmap ls';
  al_values : filter (fresh_value now) (keyValue ls) = filter (fresh_value now) (keyValue ls');
  al_lists : filter (fresh_list now) (keylist ls) = filter (fresh_list now) (keylist ls');
  al_vhist : trimHistory now <$> keyValudhistory ls = trimHistory now <$> keyValudhistory ls';
  al_lhist : trimHistory now <$> keyListhistory ls = trimHistory now <$> keyListhistory ls' }.

Lemma same_alike now ls ls' : same_at now ls ls' <-> alike now ls ls'.
Proof.
  unfold same_at, swept, deletelist, deleteinvalid. split.
  - intros H. injection H as H1 H2 H3 H4 H5 H6 H7 H8. by split.
  - intros [H1 H2 H3 H4 H5 H6 H7 H8]. destruct ls, ls'. cbn in *. unfold fresh_value, fresh_list in *. by f_equal.
Qed.

(** Changes of one field. *)
Section fields.
Context (now : Time) (ls ls' : libstore) (Hal : alike now ls ls').

Lemma alike_values m m' :
  filter (fresh_value now) m = filter (fresh_value now) m' ->
  alike now (ls <| keyValue := m |>) (ls' <| keyValue := m' |>).
Proof. destruct Hal. by split. Qed.

Lemma alike_lists m m' :
  filter (fresh_list now) m = filter (fresh_list now) m' ->
  alike now (ls <| keylist := m |>) (ls' <| keylist := m' |>).
Proof. destruct Hal. by split. Qed.

Lemma alike_vhist h h' :
  trimHistory now <$> h = trimHistory now <$> h' ->
  alike now (ls <| keyValudhistory := h |>) (ls' <| keyValudhistory := h' |>).
Proof. destruct Hal. by split. Qed.

Lemma alike_lhist h h' :
  trimHistory now <$> h = trimHistory now <$> h' ->
  alike now (ls <| keyListhistory := h |>) (ls' <| keyListhistory := h' |>).
Proof. destruct Hal. by split. Qed.

Lemma alike_clients c : alike now (ls <| clientmap := c |>) (ls' <| clientmap := c |>).
Proof. destruct Hal. by split. Qed.
End fields.

(** A cache that is looked up: what is fresh under the key, and the cache
    without it when it is not. *)
Section cache.
Context {A : Type} (leaseOf : A -> leasetype) (now : Time).

Definition freshEntry (kv : string * A) : Prop := expired now (leaseOf kv.2) = false.

#[export] Instance freshEntry_dec kv : Decision (freshEntry kv).
Proof. unfold freshEntry. apply _. Defined.

Lemma look_spec key (m : gmap string A) :
  (look leaseOf now key m).2 = filter freshEntry m !! key /\
  filter freshEntry (look leaseOf now key m).1 = filter freshEntry m.
Proof.
  unfold look. destruct (m !! key) as [v|] eqn:E; [destruct (expired now (leaseOf v)) eqn:Ex|]; cbn.
  - split.
    + symmetry. apply map_lookup_filter_None. right. intros x Hx Hf. rewrite E in Hx. injection Hx as <-.
      unfold freshEntry in Hf. cbn in Hf. congruence.
    + apply map_eq. intros i. apply option_eq. intros x. rewrite !map_lookup_filter_Some.
      destruct (decide (i = key)) as [->|Hne].
      * rewrite lookup_delete_eq, E. split; [by intros [? _]|]. intros [[= <-] Hf].
        unfold freshEntry in Hf. cbn in Hf. congruence.
      * by rewrite lookup_delete_ne.
  - split; [|done]. symmetry. by apply map_lookup_filter_Some.
  - split; [|done]. symmetry. apply map_lookup_filter_None. by left.
Qed.

Lemma look_alike key (m m' : gmap string A) :
  filter freshEntry m = filter freshEntry m' ->
  (look leaseOf now key m).2 = (look leaseOf now key m').2 /\
  filter freshEntry (look leaseOf now key m).1 = filter freshEntry (look leaseOf now key m').1.
Proof.
  intros H. destruct (look_spec key m) as [-> ->], (look_spec key m') as [-> ->]. by rewrite H.
Qed.

Lemma insert_alike key v (m m' : gmap string A) :
  filter freshEntry m = filter freshEntry m' ->
  filter freshEntry (<[key := v]> m) = filter freshEntry (<[key := v]> m').
Proof.
  intros H. destruct (decide (freshEntry (key, v))) as [Hf|Hf].
  - by rewrite !map_filter_insert_True, H by done.
  - by rewrite !map_filter_insert_False, !map_filter_delete, H by done.
Qed.

Lemma delete_alike key (m m' : gmap string A) :
  filter freshEntry m = filter freshEntry m' ->
  filter freshEntry (delete key m) = filter freshEntry (delete key m').
Proof. intros H. by rewrite !map_filter_delete, H. Qed.
End cache.

(** A history that is recorded in or started. *)
Section history.
Context (now : Time) (key : string) (h h' : gmap string (list Time)).
Context (Hh : trimHistory now <$> h = trimHistory now <$> h').

Lemma history_key : trimHistory now <$> h !! key = trimHistory now <$> h' !! key.
Proof. rewrite <- !lookup_fmap. by rewrite Hh. Qed.

Lemma record_alike :
  trimHistory now <$> recordQuery now key h = trimHistory now <$> recordQuery now key h' /\
  recordQuery now key h !! key = recordQuery now key h' !! key.
Proof.
  pose proof history_key as Hk. unfold recordQuery.
  destruct (h !! key) as [l|] eqn:E, (h' !! key) as [l'|] eqn:E'; cbn in Hk; try done; [|by rewrite E, E'].
  injection Hk as ->. by rewrite !fmap_insert, Hh, !lookup_insert_eq.
Qed.

Lemma start_alike :
  trimHistory now <$> startHistory key h = trimHistory now <$> startHistory key h'.
Proof.
  pose proof history_key as Hk. unfold startHistory.
  destruct (h !! key) as [l|] eqn:E, (h' !! key) as [l'|] eqn:E'; cbn in Hk; try done.
  by rewrite !fmap_insert, Hh.
Qed.
End history.

(** Results and states that cannot be told apart. *)
Definition alike_pair {A} (now : Time) (p p' : libstore * A) : Prop := alike now p.1 p'.1 /\ p.2 = p'.2.

Definition alike_outcome {A} (now : Time) (o o' : outcome (libstore * A)) : Prop :=
  match o, o' with
  | Ret p, Ret p' => alike_pair now p p'
  | Panic, Panic | Hang, Hang => True
  | _, _ => False
  end.

Section operations.
Context (dial : string -> bool) (now : Time) (ls ls' : libstore) (Hal : alike now ls ls').

Lemma Get_begin_alike key : alike_pair now (Get_begin now key ls) (Get_begin now key ls').
Proof.
  rewrite !Get_begin_alt. pose proof Hal as [HS Hm Hp Hc Hv Hl Hvh Hlh].
  destruct (look_alike lease now key _ _ Hv) as [E2 E1].
  destruct (record_alike now key _ _ Hvh) as [Eh Ek]. cbn zeta. rewrite <- E2.
  assert (Ha : alike now
    (ls <| keyValue := (look lease now key (keyValue ls)).1 |> <| keyValudhistory := recordQuery now key (keyValudhistory ls) |>)
    (ls' <| keyValue := (look lease now key (keyValue ls')).1 |> <| keyValudhistory := recordQuery now key (keyValudhistory ls') |>)).
  { apply alike_vhist; [by apply alike_values|done]. }
  destruct (look lease now key (keyValue ls)).2; split; cbn [fst snd]; try done.
  cbn. by rewrite Hm, Hp, Ek.
Qed.

Lemma GetList_begin_alike key : alike_pair now (GetList_begin now key ls) (GetList_begin now key ls').
Proof.
  rewrite !GetList_begin_alt. pose proof Hal as [HS Hm Hp Hc Hv Hl Hvh Hlh].
  destruct (look_alike list_lease now key _ _ Hl) as [E2 E1].
  destruct (record_alike now key _ _ Hlh) as [Eh Ek]. cbn zeta. rewrite <- E2.
  assert (Ha : alike now
    (ls <| keylist := (look list_lease now key (keylist ls)).1 |> <| keyListhistory := recordQuery now key (keyListhistory ls) |>)
    (ls' <| keylist := (look list_lease now key (keylist ls')).1 |> <| keyListhistory := recordQuery now key (keyListhistory ls') |>)).
  { apply alike_lhist; [by apply alike_lists|done]. }
  destruct (look list_lease now key (keylist ls)).2; split; cbn [fst snd]; try done.
  cbn. by rewrite Hm, Hp, Ek.
Qed.

Lemma Get_finish_alike key reply : alike_pair now (Get_finish now key reply ls) (Get_finish now key reply ls').
Proof.
  unfold Get_finish. destruct reply as [r|]; [|by split]. destruct (gr_Status r =? OK); [|by split].
  split; [|done]. cbn [fst]. destruct (Granted (gr_Lease r)); [|done].
  apply alike_values; [done|]. apply (insert_alike lease), Hal.
Qed.

Lemma GetList_finish_alike key reply :
  alike_pair now (GetList_finish now key reply ls) (GetList_finish now key reply ls').
Proof.
  unfold GetList_finish. destruct reply as [r|]; [|by split].
  destruct (gl_Status r =? OK); [|by destruct (gl_Status r =? KeyNotFound); split].
  split; [|done]. cbn [fst]. destruct (Granted (gl_Lease r)); [|done].
  apply alike_lists; [done|]. apply (insert_alike list_lease), Hal.
Qed.

Lemma connect_alike server :
  match connect dial server ls, connect dial server ls' with
  | inl l, inl l' => alike now l l'
  | inr e, inr e' => e = e'
  | _, _ => False
  end.
Proof.
  unfold connect. rewrite (al_clients _ _ _ Hal). destruct (bool_decide _); [done|].
  destruct (dial server); [|done]. by apply alike_clients.
Qed.

Lemma Findshashring_alike key : Findshashring key ls = Findshashring key ls'.
Proof. unfold Findshashring. by rewrite (al_Servers _ _ _ Hal). Qed.

Lemma callWrite_alike rpc key item e1 e2 :
  alike_outcome now (callWrite dial rpc key item e1 e2 ls) (callWrite dial rpc key item e1 e2 ls').
Proof.
  unfold callWrite. rewrite Findshashring_alike. destruct (Findshashring key ls') as [server| |]; try done. cbn.
  pose proof (connect_alike server) as Hc.
  destruct (connect dial server ls), (connect dial server ls'); try done; subst; by split.
Qed.
End operations.

Lemma Get_alike dial rpc now key ls ls' :
  alike now ls ls' -> alike_outcome now (Get dial rpc now key ls) (Get dial rpc now key ls').
Proof.
  intros Hal. unfold Get. destruct (Get_begin_alike now ls ls' Hal key) as [Hb E].
  destruct (Get_begin now key ls) as [l r], (Get_begin now key ls') as [l' r']. cbn in Hb, E. subst r'.
  destruct r as [v|args]; [by split|]. rewrite (Findshashring_alike now l l' Hb).
  destruct (Findshashring key l') as [server| |]; try done. cbn.
  pose proof (connect_alike dial now l l' Hb server) as Hc.
  destruct (connect dial server l), (connect dial server l'); try done; [|subst; by split].
  by apply Get_finish_alike.
Qed.

Lemma GetList_alike dial rpc now key ls ls' :
  alike now ls ls' -> alike_outcome now (GetList dial rpc now key ls) (GetList dial rpc now key ls').
Proof.
  intros Hal. unfold GetList. destruct (GetList_begin_alike now ls ls' Hal key) as [Hb E].
  destruct (GetList_begin now key ls) as [l r], (GetList_begin now key ls') as [l' r']. cbn in Hb, E. subst r'.
  destruct r as [v|args]; [by split|]. rewrite (Findshashring_alike now l l' Hb).
  destruct (Findshashring key l') as [server| |]; try done. cbn.
  pose proof (connect_alike dial now l l' Hb server) as Hc.
  destruct (connect dial server l), (connect dial server l'); try done; [|subst; by split].
  by apply GetList_finish_alike.
Qed.

(** ** Keys of values and keys of lists *)

(** The storage system keeps values and lists apart by the key; a revocation
    drops the cached value of a key or else its list, so the two caches must
    not share a key. *)
Section kinds.
Context (isList : string -> bool).

Definition kind_ok (e : event) : Prop :=
  match e with
  | CallGet key _ | CallPut key _ _ => isList key = false
  | CallGetList key _ | CallAppend key _ _ | CallRemove key _ _ => isList key = true
  | Revoke _ | Timer _ => True
  end.

Definition kinds (ls : libstore) : Prop :=
  (forall key v, keyValue ls !! key = Some v -> isList key = false) /\
  (forall key l, keylist ls !! key = Some l -> isList key = true).

Lemma RevokeLease_alike now key ls ls' :
  kinds ls -> kinds ls' -> alike now ls ls' ->
  alike now (RevokeLease (mkRevokeLeaseArgs key) ls).1 (RevokeLease (mkRevokeLeaseArgs key) ls').1.
Proof.
  assert (Hboth : forall ls, kinds ls -> (RevokeLease (mkRevokeLeaseArgs key) ls).1 =
    ls <| keyValue := delete key (keyValue ls) |> <| keylist := delete key (keylist ls) |>).
  { intros [] [Hv Hl]. unfold RevokeLease. cbn in *.
    destruct (keyValue0 !! key) as [v|] eqn:Ev, (keylist0 !! key) as [l|] eqn:El; cbn;
      rewrite ?(delete_id keyValue0), ?(delete_id keylist0) by done; try done.
    apply Hv in Ev. apply Hl in El. congruence. }
  intros Hk Hk' Hal. rewrite !Hboth by done. pose proof Hal as [_ _ _ _ Hv Hl _ _].
  apply (alike_lists now (ls <| keyValue := _ |>) (ls' <| keyValue := _ |>)).
  - apply alike_values; [done|]. by apply (delete_alike lease).
  - by apply (delete_alike list_lease).
Qed.

(** What an operation may add to the caches. *)
Definition adds (P Q : string -> Prop) (ls ls' : libstore) : Prop :=
  (forall key, is_Some (keyValue ls' !! key) -> is_Some (keyValue ls !! key) \/ P key) /\
  (forall key, is_Some (keylist ls' !! key) -> is_Some (keylist ls !! key) \/ Q key).

Lemma adds_kinds P Q ls ls' :
  adds P Q ls ls' -> (forall key, P key -> isList key = false) -> (forall key, Q key -> isList key = true) ->
  kinds ls -> kinds ls'.
Proof.
  intros [Hv Hl] HP HQ [Kv Kl]. split; intros key x Hx.
  - destruct (Hv key) as [[y Hy]|?]; [by eexists|by eapply Kv|auto].
  - destruct (Hl key) as [[y Hy]|?]; [by eexists|by eapply Kl|auto].
Qed.

Lemma adds_trans P Q ls1 ls2 ls3 : adds P Q ls1 ls2 -> adds P Q ls2 ls3 -> adds P Q ls1 ls3.
Proof.
  intros [V1 L1] [V2 L2]. split; intros key H.
  - destruct (V2 key H); auto.
  - destruct (L2 key H); auto.
Qed.

Lemma adds_same P Q ls ls' : keyValue ls' = keyValue ls -> keylist ls' = keylist ls -> adds P Q ls ls'.
Proof. intros Ev El. split; intros key; rewrite ?Ev, ?El; auto. Qed.

Lemma look_subset {A} (leaseOf : A -> leasetype) now key m k :
  is_Some ((look leaseOf now key m).1 !! k) -> is_Some (m !! k).
Proof.
  unfold look. destruct (m !! key); [|done]. destruct (expired now _); [|done]. cbn.
  by intros [x [_ Hx]%lookup_delete_Some].
Qed.

Lemma Get_begin_adds P Q now key ls : adds P Q ls (Get_begin now key ls).1.
Proof.
  rewrite Get_begin_alt. cbn zeta.
  destruct (look lease now key (keyValue ls)).2; (split; cbn; intros k H; left; [by eapply look_subset|done]).
Qed.

Lemma GetList_begin_adds P Q now key ls : adds P Q ls (GetList_begin now key ls).1.
Proof.
  rewrite GetList_begin_alt. cbn zeta.
  destruct (look list_lease now key (keylist ls)).2; (split; cbn; intros k H; left; [done|by eapply look_subset]).
Qed.

Lemma Get_finish_adds Q now key reply ls : adds (eq key) Q ls (Get_finish now key reply ls).1.
Proof.
  unfold Get_finish. destruct reply as [r|]; [|by apply adds_same].
  destruct (gr_Status r =? OK); [|by apply adds_same]. destruct (Granted (gr_Lease r)); [|by apply adds_same].
  split; cbn; intros k; [|auto]. intros [?|[_ ?]]%lookup_insert_is_Some; auto.
Qed.

Lemma GetList_finish_adds P now key reply ls : adds P (eq key) ls (GetList_finish now key reply ls).1.
Proof.
  unfold GetList_finish. destruct reply as [r|]; [|by apply adds_same].
  destruct (gl_Status r =? OK); [|by destruct (gl_Status r =? KeyNotFound); apply adds_same].
  destruct (Granted (gl_Lease r)); [|by apply adds_same].
  split; cbn; intros k; [auto|]. intros [?|[_ ?]]%lookup_insert_is_Some; auto.
Qed.

Lemma connect_adds P Q dial server ls ls' : connect dial server ls = inl ls' -> adds P Q ls ls'.
Proof.
  unfold connect. destruct (bool_decide _); [by intros [= <-]; apply adds_same|].
  destruct (dial server); [|done]. intros [= <-]. by apply adds_same.
Qed.

Lemma callWrite_adds P Q dial rpc key item e1 e2 ls ls' r :
  callWrite dial rpc key item e1 e2 ls = Ret (ls', r) -> adds P Q ls ls'.
Proof.
  unfold callWrite. intros H. bind_inv. destruct (connect dial x ls) as [l|err] eqn:Ec.
  - injection H as <- _. by eapply connect_adds.
  - injection H as <- _. by apply adds_same.
Qed.

Lemma Get_adds Q dial rpc now key ls ls' r :
  Get dial rpc now key ls = Ret (ls', r) -> adds (eq key) Q ls ls'.
Proof.
  unfold Get. pose proof (Get_begin_adds (eq key) Q now key ls) as Hb.
  destruct (Get_begin now key ls) as [l [v|args]]; cbn in Hb; [by intros [= <- _]|].
  intros H. bind_inv. destruct (connect dial x l) as [l2|err] eqn:Ec; injection H as H; [|by subst].
  eapply adds_trans; [exact Hb|]. eapply adds_trans; [by eapply connect_adds|].
  pose proof (Get_finish_adds Q now key (rpc x args) l2) as Hf. rewrite H in Hf. exact Hf.
Qed.

Lemma GetList_adds P dial rpc now key ls ls' r :
  GetList dial rpc now key ls = Ret (ls', r) -> adds P (eq key) ls ls'.
Proof.
  unfold GetList. pose proof (GetList_begin_adds P (eq key) now key ls) as Hb.
  destruct (GetList_begin now key ls) as [l [v|args]]; cbn in Hb; [by intros [= <- _]|].
  intros H. bind_inv. destruct (connect dial x l) as [l2|err] eqn:Ec; injection H as H; [|by subst].
  eapply adds_trans; [exact Hb|]. eapply adds_trans; [by eapply connect_adds|].
  pose proof (GetList_finish_adds P now key (rpc x args) l2) as Hf. rewrite H in Hf. exact Hf.
Qed.

Lemma RevokeLease_adds P Q args ls : adds P Q ls (RevokeLease args ls).1.
Proof.
  unfold RevokeLease. destruct (keyValue ls !! rl_Key args), (keylist ls !! rl_Key args);
    try (by apply adds_same); (split; cbn; intros k; auto);
    by intros [x [_ Hx]%lookup_delete_Some]; left; eexists.
Qed.

Lemma epochtime_adds P Q fired now ls : adds P Q ls (epochtime fired now ls).
Proof.
  destruct fired; [|by apply adds_same].
  split; cbn; intros key [x [Hx _]%map_lookup_filter_Some]; left; by eexists.
Qed.

Lemma handle_kinds dial now e ls ls' a :
  kind_ok e -> handle dial now e ls = Ret (ls', a) -> kinds ls -> kinds ls'.
Proof.
  assert (HF : forall b key, False -> isList key = b) by done.
  destruct e; cbn [kind_ok handle]; unfold answering; intros Hk H; bind_inv;
    try match goal with x : libstore * _ |- _ => destruct x end; bind_inv.
  - eapply adds_kinds; [by eapply (Get_adds (fun _ => False))|by intros ? <-|done].
  - eapply adds_kinds; [by eapply (GetList_adds (fun _ => False))|done|by intros ? <-].
  - eapply (adds_kinds (fun _ => False) (fun _ => False)); [by eapply callWrite_adds in E|done..].
  - eapply (adds_kinds (fun _ => False) (fun _ => False)); [by eapply callWrite_adds in E|done..].
  - eapply (adds_kinds (fun _ => False) (fun _ => False)); [by eapply callWrite_adds in E|done..].
  - eapply (adds_kinds (fun _ => False) (fun _ => False)); [apply RevokeLease_adds|done..].
  - eapply (adds_kinds (fun _ => False) (fun _ => False)); [apply epochtime_adds|done..].
Qed.

Lemma handle_alike dial now e ls ls' :
  kinds ls -> kinds ls' -> alike now ls ls' -> alike_outcome now (handle dial now e ls) (handle dial now e ls').
Proof.
  intros Hk Hk' Hal.
  assert (Hans : forall A (f : A -> answer) o o', alike_outcome now o o' ->
    alike_outcome now (answering f o) (answering f o')).
  { intros A f [[]| |] [[]| |]; cbn; try done. intros [? ?]. cbn in *. subst. by split. }
  destruct e; cbn [handle]; try apply Hans.
  - by apply Get_alike.
  - by apply GetList_alike.
  - unfold Put. apply callWrite_alike, alike_vhist; [done|]. apply start_alike, Hal.
  - unfold AppendToList. apply callWrite_alike, alike_lhist; [done|]. apply start_alike, Hal.
  - by apply callWrite_alike.
  - split; [by apply RevokeLease_alike|done].
  - split; [|done]. cbn [fst]. apply same_alike. etrans; [by apply epochtime_same|].
    etrans; [by apply same_alike|]. symmetry. by apply epochtime_same.
Qed.

Definition untimed (es : list (Time * event)) : list (Time * event) :=
  filter (fun e => isTimer e = false) es.

(** The simulation, from two states alike at [t]. *)
Lemma run_alike dial now : forall es t ls ls',
  kinds ls -> kinds ls' -> Forall (fun e => kind_ok e.2) es ->
  StronglySorted Z.le (t :: es.*1) -> Forall (fun e => e.1 <= now) es -> t <= now -> alike t ls ls' ->
  alike_outcome now (run dial es ls) (run dial (untimed es) ls').
Proof.
  induction es as [|[u e] es IH]; intros t ls ls' Hk Hk' Hok Hs Hle Ht Hal.
  - split; [|done]. apply same_alike. apply (same_later t); [done|]. by apply same_alike.
  - apply Forall_cons in Hok as [He Hok], Hle as [Hu Hle]. cbn in He, Hu, Hs.
    apply StronglySorted_inv in Hs as [Hs Hall]. apply Forall_cons in Hall as [Htu _].
    assert (Hal' : alike u ls ls').
    { apply same_alike. apply (same_later t); [done|]. by apply same_alike. }
    destruct (isTimer (u, e)) eqn:Et.
    + unfold untimed. rewrite filter_cons_False by (by rewrite Et). cbn [run]. rewrite Et.
      destruct e; try done. cbn [handle mbind outcome_bind].
      assert (Hal2 : alike u (epochtime fired u ls) ls').
      { apply same_alike. etrans; [by apply epochtime_same|]. by apply same_alike. }
      assert (Hk2 : kinds (epochtime fired u ls)) by (eapply (handle_kinds dial u (Timer fired)); done).
      pose proof (IH u _ ls' Hk2 Hk' Hok Hs Hle Hu Hal2) as H. unfold untimed in H.
      by destruct (run dial es (epochtime fired u ls)) as [[]| |].
    + unfold untimed. rewrite filter_cons_True by done. cbn [run]. rewrite Et.
      pose proof (handle_alike dial u e ls ls' Hk Hk' Hal') as Hh.
      destruct (handle dial u e ls) as [[l a]| |] eqn:E1, (handle dial u e ls') as [[l' a']| |] eqn:E2;
        try done. destruct Hh as [Hl Ea]. cbn in Hl, Ea. subst a'. cbn [mbind outcome_bind].
      pose proof (IH u l l' (handle_kinds _ _ _ _ _ _ He E1 Hk) (handle_kinds _ _ _ _ _ _ He E2 Hk')
        Hok Hs Hle Hu Hl) as H. unfold untimed in H.
      destruct (run dial es l) as [[]| |], (run dial (filter _ es) l') as [[]| |]; try done.
      destruct H as [? H]. cbn in *. subst. by split.
Qed.

End kinds.

(** ** Properties *)

(** C20: the sweeps of the timer goroutine cannot be observed.  For any run of
    calls, revocations and timer turns, in order of time, in which value keys
    and list keys are kept apart, taking all timer turns out changes neither
    what a call answers (the value, the list or the error) nor whether it
    panics, and the two libstores that result are equal once swept: a swept
    entry would have been refused as expired, and a trimmed query would have
    been trimmed before the next decision about a lease. *)
Theorem sweeps_invisible isList dial es ls now :
  kinds isList ls -> Forall (fun e => kind_ok isList e.2) es -> StronglySorted Z.le es.*1 ->
  Forall (fun e => e.1 <= now) es ->
  match run dial es ls, run dial (untimed es) ls with
  | Ret (ls1, answers1), Ret (ls2, answers2) => answers1 = answers2 /\ same_at now ls1 ls2
  | Panic, Panic | Hang, Hang => True
  | _, _ => False
  end.
Proof.
  intros Hk Hok Hs Hle.
  assert (H : alike_outcome now (run dial es ls) (run dial (untimed es) ls)).
  { destruct es as [|[t e] es]; [split; [by apply same_alike|done]|].
    apply (run_alike isList dial now ((t, e) :: es) t); try done.
    - constructor; [done|]. constructor; [apply Z.le_refl|]. by apply StronglySorted_inv in Hs as [_ Hs].
    - by apply Forall_cons in Hle as [? _]. }
  destruct (run dial es ls) as [[]| |], (run dial (untimed es) ls) as [[]| |]; try done.
  destruct H as [H1 H2]. cbn in *. split; [done|by apply same_alike].
Qed.

Definition demo_rpc (_ : string) (a : GetArgs) : option GetReply :=
  Some (mkGetReply OK "x" (StorageRpc.mkLease (ga_WantLease a) 10)).
Definition demo_store : libstore := mkLibstore [mkNode "a:1" 7] ∅ ∅ ∅ ∅ Always "c:3" ∅.
Definition demo_events : list (Time * event) :=
  [(0, CallGet "u" demo_rpc); (5 * Second, Timer LeaseTimer); (11 * Second, Timer LeaseTimer);
   (12 * Second, CallGet "u" (fun _ _ => None))].

Lemma sweeps_invisible_witness :
  exists ls1 ls2, run (fun _ => true) demo_events demo_store =
      Ret (ls1, [AValue (inl "x"); AValue (inr "error when libstore call get to storageserver")]) /\
    run (fun _ => true) (untimed demo_events) demo_store =
      Ret (ls2, [AValue (inl "x"); AValue (inr "error when libstore call get to storageserver")]) /\
    same_at (12 * Second) ls1 ls2.
Proof.
  assert (H := sweeps_invisible (fun _ => false) (fun _ => true) demo_events demo_store (12 * Second)).
  lapply H; [clear H; intros H|split; intros key v; cbn; by rewrite lookup_empty].
  lapply H; [clear H; intros H|by repeat constructor].
  lapply H; [clear H; intros H|by repeat constructor].
  lapply H; [clear H; intros H|by repeat constructor].
  destruct (run _ demo_events demo_store) as [[ls1 a1]| |] eqn:E1; [|vm_compute in E1; discriminate E1..].
  destruct (run _ (untimed demo_events) demo_store) as [[ls2 a2]| |] eqn:E2;
    [|vm_compute in E2; discriminate E2..].
  exists ls1, ls2. destruct H as [<- H].
  assert (a1 = [AValue (inl "x"); AValue (inr "error when libstore call get to storageserver")]) as ->.
  { vm_compute in E1. by injection E1 as _ <-. }
  split; [reflexivity|]. split; [reflexivity|exact H].
Defined.

End LibstoreSweep.
