(* ===== verification/Lease.v ===== *)
(** * Lease: cached reads and leased writes of one key, all interleavings

    The libstores of many processes and the storage server of the key [k],
    with one real clock.  A read reads the clock and waits for the libstore's
    mutex of the key ([libstore_impl.go], lines 248-250 and 381-383); then it
    judges the lease of a cached entry by that reading, however old, and on a
    miss the server answers and the libstore takes the answer in, with the mutex
    held in between.  A write of a stored key
    ([storageserver_impl.go], lines 316-330 and 511-553) holds the server's
    mutex of the key while it goes through the leases one by one: a lease is
    settled when it has expired or the callback of its holder has answered.
    Values ([Get], [Put]) and lists ([GetList], [AppendToList],
    [RemoveFromList]) follow the same protocol: it is proved over an interface
    [Leasable] with its laws, which [value_leases] and [list_leases] implement
    with the functions of [Libstore] and [StorageServer]. *)
From S2P Require Import Prelude StorageRpc StorageServer Libstore.
Open Scope Z_scope.

Module Lease.
Import StorageRpc.
#[local] Existing Instance Libstore.eta_libstore.

(** ** What can be leased *)

(** An item as the two sides store it: the libstore with the lease it has, the
    server with the leases it has granted. *)
Class Leasable := {
  item : Type;
  reply : Type;
  rep_Status : reply -> Status;
  rep_Item : reply -> item;
  rep_Lease : reply -> Lease;
  cached : string -> Libstore.libstore -> option (item * Libstore.leasetype);
  read_begin : Time -> string -> Libstore.libstore -> Libstore.libstore * (item + GetArgs);
  read_finish : Time -> string -> option reply -> Libstore.libstore -> Libstore.libstore * (item + string);
  kept : string -> StorageServer.storageServer -> option (item * gmap string StorageServer.lease);
  serve : Time -> GetArgs -> StorageServer.storageServer -> outcome (StorageServer.storageServer * reply);
  store : string -> item -> StorageServer.storageServer -> StorageServer.storageServer;
  (* the key is not cached by this libstore as the other kind *)
  apart : string -> Libstore.libstore -> Prop }.

(** What a step of one libstore does to its entry of the key. *)
Definition keeps_entry `{Leasable} (k : string) (ls ls' : Libstore.libstore) : Prop :=
  (forall x, cached k ls' = Some x -> cached k ls = Some x) /\ (apart k ls -> apart k ls').

(** What serving a read does to the leases of the key. *)
Definition serves_read `{Leasable} (k : string) (now : Time) (h : string)
    (ss ss' : StorageServer.storageServer) (r : reply) : Prop :=
  (forall x g h' l, kept k ss = Some (x, g) -> g !! h' = Some l ->
     exists g' l', kept k ss' = Some (x, g') /\ g' !! h' = Some l' /\
       StorageServer.validUntil l <= StorageServer.validUntil l') /\
  (is_Some (kept k ss) -> is_Some (kept k ss')) /\
  (rep_Status r = OK -> Granted (rep_Lease r) = true ->
     exists g' l', kept k ss' = Some (rep_Item r, g') /\ g' !! h = Some l' /\
       until now (ValidSeconds (rep_Lease r)) < StorageServer.validUntil l').

Class LeasableLaws `{Leasable} := {
  begin_entry k now ls ls' r : read_begin now k ls = (ls', r) -> keeps_entry k ls ls';
  (* a hit is an unexpired entry *)
  begin_hit k now ls ls' x : read_begin now k ls = (ls', inl x) ->
    exists l, cached k ls = Some (x, l) /\ now <= Libstore.validUntil l;
  finish_entry k now r ls x l : cached k (read_finish now k r ls).1 = Some (x, l) ->
    cached k ls = Some (x, l) \/
    exists rep, r = Some rep /\ rep_Status rep = OK /\ Granted (rep_Lease rep) = true /\
      x = rep_Item rep /\ Libstore.validUntil l = until now (ValidSeconds (rep_Lease rep));
  finish_apart k now r ls : apart k ls -> apart k (read_finish now k r ls).1;
  sweep_entry k now ls : keeps_entry k ls (Libstore.deleteinvalid now ls);
  history_entry k now ls : keeps_entry k ls (Libstore.deletelist now ls);
  revoke_entry k ls : apart k ls ->
    cached k (Libstore.RevokeLease (mkRevokeLeaseArgs k) ls).1 = None /\
    apart k (Libstore.RevokeLease (mkRevokeLeaseArgs k) ls).1;
  serve_law k now want h ss ss' r : serve now (mkGetArgs k want h) ss = Ret (ss', r) ->
    serves_read k now h ss ss' r;
  store_law k x ss : kept k (store k x ss) = Some (x, ∅) }.

(** The server's lease table only improves for the holders of leases. *)
Lemma grant_keeps now h g g' l h' x :
  StorageServer.grantLeaseIfNecessary now h g = (g', l) -> g !! h' = Some x ->
  exists x', g' !! h' = Some x' /\ StorageServer.validUntil x <= StorageServer.validUntil x'.
Proof.
  unfold StorageServer.grantLeaseIfNecessary. intros Hg Hx. destruct (decide (h' = h)) as [->|Hne].
  - rewrite Hx in Hg. destruct (StorageServer.validUntil x <? now) eqn:E; breflect; injection Hg as <- <-.
    + eexists. rewrite lookup_insert_eq. split; [done|].
      unfold StorageServer.validUntil, until, Second, LeaseSeconds, LeaseGuardSeconds in *.
      cbn [StorageServer.startFrom StorageServer.validSeconds]. lia.
    + exists x. split; [done|lia].
  - exists x. split; [|lia]. destruct (g !! h); [destruct (_ <? _)|]; injection Hg as <- <-;
      rewrite ?lookup_insert_ne by done; done.
Qed.

Lemma grant_granted now h g g' l :
  StorageServer.grantLeaseIfNecessary now h g = (g', l) -> Granted l = true ->
  exists x, g' !! h = Some x /\ until now (ValidSeconds l) < StorageServer.validUntil x.
Proof.
  unfold StorageServer.grantLeaseIfNecessary. intros Hg.
  destruct (g !! h); [destruct (_ <? _)|]; injection Hg as <- <-; try done;
    intros _; eexists; rewrite lookup_insert_eq; (split; [done|]);
    unfold StorageServer.validUntil, until, Second, LeaseSeconds, LeaseGuardSeconds;
    cbn [StorageServer.startFrom StorageServer.validSeconds ValidSeconds]; lia.
Qed.

(** ** The system *)

Section system.
Context `{LL : LeasableLaws}.

(** A read that holds the mutex: its clock reading, whether it wants a lease,
    and the server's answer once there is one. *)
Record asking := mkAsking { since : Time; wants : bool; answer : option reply }.

(** A write under way: what it does to the item and the leases not yet
    settled. *)
Record writing := mkWriting { change : item -> item; unsettled : list (string * StorageServer.lease) }.

(** [waiting]: the reads that have read the clock and not yet looked in the
    cache, each with its host and reading; any number of one host. *)
Record sys := mkSys {
  clock : Time;
  server : StorageServer.storageServer;
  clients : gmap string Libstore.libstore;
  waiting : list (string * Time);
  askers : gmap string asking;
  writer : option writing }.

#[export] Instance eta_sys : EtaRecord sys := fun s =>
  mkSys (clock s) (server s) (clients s) (waiting s) (askers s) (writer s).


Section key.
Context (k : string).





(** ** The invariant *)














(** ** What an entry was, once its lease is over *)













End key.
End system.

(** ** Values and lists *)

#[export] Instance value_leases : Leasable := {
  item := string; reply := GetReply;
  rep_Status := gr_Status; rep_Item := gr_Value; rep_Lease := gr_Lease;
  cached k ls := (fun v => (Libstore.value v, Libstore.lease v)) <$> Libstore.keyValue ls !! k;
  read_begin := Libstore.Get_begin; read_finish := Libstore.Get_finish;
  kept k ss := (fun v => (StorageServer.value v, StorageServer.leaseGranted v)) <$>
                 StorageServer.keyValueStore ss !! k;
  serve := StorageServer.Get;
  store k x ss := StorageServer.setValue k (StorageServer.mkValueStore x ∅) ss;
  apart _ _ := True }.

(** A revocation drops the list of a key only when no value is cached under it. *)
#[export] Instance list_leases : Leasable := {
  item := list string; reply := GetListReply;
  rep_Status := gl_Status; rep_Item := gl_Value; rep_Lease := gl_Lease;
  cached k ls := (fun v => (Libstore.list_ v, Libstore.list_lease v)) <$> Libstore.keylist ls !! k;
  read_begin := Libstore.GetList_begin; read_finish := Libstore.GetList_finish;
  kept k ss := (fun v => (StorageServer.list_ v, StorageServer.list_leaseGranted v)) <$>
                 StorageServer.keyListStore ss !! k;
  serve := StorageServer.GetList;
  store k x ss := StorageServer.setList k (StorageServer.mkListStore x ∅) ss;
  apart k ls := Libstore.keyValue ls !! k = None }.

(** Both servers answer a read by looking up, perhaps granting. *)
Section serving.
Context `{Leasable} (k : string) (now : Time) (h : string).

Lemma serves_same ss r : Granted (rep_Lease r) = false -> serves_read k now h ss ss r.
Proof.
  intros Hg. split; [|split; [done|by rewrite Hg]].
  intros x g h' l Hs Hl. exists g, l. split_and!; [done..|lia].
Qed.

Lemma serves_grant ss ss' r x g g' :
  kept k ss = Some (x, g) -> kept k ss' = Some (x, g') -> rep_Item r = x ->
  StorageServer.grantLeaseIfNecessary now h g = (g', rep_Lease r) -> serves_read k now h ss ss' r.
Proof.
  intros Hs Hs' Hx Hg. split; [|split].
  - intros x0 g0 h' l. rewrite Hs. intros [= <- <-] Hl.
    destruct (grant_keeps _ _ _ _ _ _ _ Hg Hl) as (l' & ? & ?). exists g', l'. done.
  - rewrite Hs'. by eexists.
  - intros _ Hl. destruct (grant_granted _ _ _ _ _ Hg Hl) as (l' & ? & ?). exists g', l'. by rewrite Hx.
Qed.
End serving.

Lemma server_Get now k want h ss ss' r :
  StorageServer.Get now (mkGetArgs k want h) ss = Ret (ss', r) -> serves_read (H := value_leases) k now h ss ss' r.
Proof.
  unfold StorageServer.Get. cbn [ga_Key ga_WantLease ga_HostPort].
  destruct (negb _); [intros [= <- <-]; by apply serves_same|].
  destruct (StorageServer.checkIsRightServer k ss) as [right| |]; try done.
  cbn [mbind outcome_bind]. destruct (negb right); [intros [= <- <-]; by apply serves_same|].
  destruct (StorageServer.keyValueStore ss !! k) as [vs|] eqn:E; [|intros [= <- <-]; by apply serves_same].
  destruct want; [|intros [= <- <-]; by apply serves_same].
  destruct (StorageServer.grantLeaseIfNecessary _ _ _) as [g l] eqn:Eg. intros [= <- <-].
  eapply (serves_grant (H := value_leases) k now h); [|cbn; by rewrite lookup_insert_eq|done|exact Eg].
  cbn. by rewrite E.
Qed.

Lemma server_GetList now k want h ss ss' r :
  StorageServer.GetList now (mkGetArgs k want h) ss = Ret (ss', r) -> serves_read (H := list_leases) k now h ss ss' r.
Proof.
  unfold StorageServer.GetList. cbn [ga_Key ga_WantLease ga_HostPort].
  destruct (negb _); [intros [= <- <-]; by apply serves_same|].
  destruct (StorageServer.checkIsRightServer k ss) as [right| |]; try done.
  cbn [mbind outcome_bind]. destruct (negb right); [intros [= <- <-]; by apply serves_same|].
  destruct (StorageServer.keyListStore ss !! k) as [vs|] eqn:E; [|intros [= <- <-]; by apply serves_same].
  destruct want; [|intros [= <- <-]; by apply serves_same].
  destruct (StorageServer.grantLeaseIfNecessary _ _ _) as [g l] eqn:Eg. intros [= <- <-].
  eapply (serves_grant (H := list_leases) k now h); [|cbn; by rewrite lookup_insert_eq|done|exact Eg].
  cbn. by rewrite E.
Qed.

(** A revocation without a value under the key is one of the list. *)
Lemma RevokeLease_list k ls :
  Libstore.keyValue ls !! k = None ->
  (Libstore.RevokeLease (mkRevokeLeaseArgs k) ls).1 = ls <| Libstore.keylist := delete k (Libstore.keylist ls) |>.
Proof.
  intros Hv. unfold Libstore.RevokeLease. cbn. rewrite Hv.
  destruct (Libstore.keylist ls !! k) eqn:E; [done|]. cbn. rewrite delete_id by done. by destruct ls.
Qed.

Lemma filter_lookup_weaken {A B} (P : string * A -> Prop) `{!forall x, Decision (P x)} (m : gmap string A)
    (f : A -> B) k y : f <$> filter P m !! k = Some y -> f <$> m !! k = Some y.
Proof.
  intros E. apply fmap_Some in E as (x & [Hx _]%map_lookup_filter_Some & ->). by rewrite Hx.
Qed.

#[export] Instance value_laws : LeasableLaws (H := value_leases).
Proof.
  split; cbn.
  - intros k now ls ls' r. unfold Libstore.Get_begin, keeps_entry. cbn. intros E. split; [|done]. intros x. revert E.
    destruct (Libstore.keyValue ls !! k) as [v|] eqn:Ev; [destruct (Libstore.expired now _)|];
      cbn; intros [= <- _]; cbn; rewrite ?lookup_delete_eq, ?Ev; done.
  - intros k now ls ls' x. unfold Libstore.Get_begin.
    destruct (Libstore.keyValue ls !! k) as [v|]; [destruct (Libstore.expired now _) eqn:E|]; cbn; try done.
    intros [= _ <-]. unfold Libstore.expired in E. breflect. eauto.
  - intros k now r ls x l. unfold Libstore.Get_finish. destruct r as [r|]; [|by left].
    destruct (gr_Status r =? OK) eqn:E; [|by left]. breflect.
    destruct (Granted (gr_Lease r)) eqn:Eg; [|by left]. cbn. rewrite lookup_insert_eq. intros [= <- <-].
    right. by exists r.
  - done.
  - intros k now ls. split; [|done]. intros x. cbn. apply filter_lookup_weaken.
  - intros k now ls. by split.
  - intros k ls _. split; [|done]. unfold Libstore.RevokeLease. cbn.
    destruct (Libstore.keyValue ls !! k) eqn:E; cbn; [by rewrite lookup_delete_eq|].
    destruct (Libstore.keylist ls !! k); cbn; by rewrite E.
  - intros k now want h ss ss' r. apply server_Get.
  - intros k x ss. by rewrite lookup_insert_eq.
Qed.

#[export] Instance list_laws : LeasableLaws (H := list_leases).
Proof.
  split; cbn.
  - intros k now ls ls' r. unfold Libstore.GetList_begin, keeps_entry. cbn. intros E.
    split; [intros x|]; revert E;
    destruct (Libstore.keylist ls !! k) as [v|] eqn:Ev; try destruct (Libstore.expired now _);
      cbn; intros [= <- _]; cbn; rewrite ?lookup_delete_eq, ?Ev; done.
  - intros k now ls ls' x. unfold Libstore.GetList_begin.
    destruct (Libstore.keylist ls !! k) as [v|]; [destruct (Libstore.expired now _) eqn:E|]; cbn; try done.
    intros [= _ <-]. unfold Libstore.expired in E. breflect. eauto.
  - intros k now r ls x l. unfold Libstore.GetList_finish. destruct r as [r|]; [|by left].
    destruct (gl_Status r =? OK) eqn:E; [|destruct (gl_Status r =? KeyNotFound); by left]. breflect.
    destruct (Granted (gl_Lease r)) eqn:Eg; [|by left]. cbn. rewrite lookup_insert_eq. intros [= <- <-].
    right. by exists r.
  - intros k now r ls Hap. unfold Libstore.GetList_finish. destruct r as [r|]; [|done].
    destruct (gl_Status r =? OK); [|by destruct (gl_Status r =? KeyNotFound)].
    by destruct (Granted (gl_Lease r)).
  - intros k now ls. split; [intros x; cbn; apply filter_lookup_weaken|].
    cbn. intros Hap. apply map_lookup_filter_None. by left.
  - intros k now ls. by split.
  - intros k ls Hap. rewrite RevokeLease_list by done. cbn. by rewrite lookup_delete_eq.
  - intros k now want h ss ss' r. apply server_GetList.
  - intros k x ss. by rewrite lookup_insert_eq.
Qed.

(** The three writers in terms of the interface: a write of a stored key that
    went through has stored the changed item, without leases. *)
Lemma writes_store dial now range k v ss ss' called rep :
  StorageServer.serves k ss -> StorageServer.clientCacheLocked ss = ∅ ->
  (forall x g, kept (Leasable := value_leases) k ss = Some (x, g) ->
     StorageServer.Put dial now range (mkPutArgs k v) ss = Ret (ss', called, inl rep) ->
     kept (Leasable := value_leases) k ss' = Some (v, ∅)) /\
  (forall x g, kept (Leasable := list_leases) k ss = Some (x, g) ->
     StorageServer.AppendToList dial now range (mkPutArgs k v) ss = Ret (ss', called, inl rep) ->
     kept (Leasable := list_leases) k ss' = Some ((StorageServer.append_spec v x).2, ∅)) /\
  (forall x g, kept (Leasable := list_leases) k ss = Some (x, g) ->
     StorageServer.RemoveFromList dial now range (mkPutArgs k v) ss = Ret (ss', called, inl rep) ->
     kept (Leasable := list_leases) k ss' = Some ((StorageServer.removeFirst v x).2, ∅)).
Proof.
  intros Hs Hl. unfold StorageServer.Put, StorageServer.AppendToList, StorageServer.RemoveFromList.
  rewrite !StorageServer.serves_guarded by done. cbn [kept value_leases list_leases pa_Key pa_Value].
  split_and!; intros x g Hk.
  - destruct (StorageServer.keyValueStore ss !! k) as [vs|]; [|done].
    destruct (StorageServer.revoke_total dial now range (StorageServer.leaseGranted vs) ss Hl)
      as (? & ? & ? & err & ->). cbn. destruct err; [done|]. intros [= <- _ _]. cbn. by rewrite lookup_insert_eq.
  - destruct (StorageServer.keyListStore ss !! k) as [ls|]; [|done].
    destruct (StorageServer.revoke_total dial now range (StorageServer.list_leaseGranted ls) ss Hl)
      as (? & ? & ? & err & ->). cbn in *. injection Hk as <- <-. destruct err; [done|].
    intros [= <- _ _]. cbn. rewrite lookup_insert_eq. cbn. unfold StorageServer.append_spec.
    by destruct (bool_decide _).
  - destruct (StorageServer.keyListStore ss !! k) as [ls|]; [|done].
    destruct (StorageServer.revoke_total dial now range (StorageServer.list_leaseGranted ls) ss Hl)
      as (? & ? & ? & err & ->). cbn in *. injection Hk as <- <-. destruct err; [done|]. cbn.
    destruct (StorageServer.removeFirst v (StorageServer.list_ ls)) as [b l]. intros [= <- _ _]. cbn.
    by rewrite lookup_insert_eq.
Qed.

(** ** A concrete run: a miss with a lease, and a read that waits for a hit *)








End Lease.
