(* ===== verification/TribServer.v ===== *)
(** * TribServer: the tribbler application server
    ([p2/.../tribserver/tribserver_impl.go], [rpc/tribrpc/proto.go])

    The handlers of [tribServer] over an interface of the libstore it calls:
    [LibstoreOps] has the five methods, [LibstoreLaws] what they promise, while
    calls may fail ([alive]) and while none does ([up]), with keys of values and
    keys of lists kept apart ([list_key]), as the server does.  [StorageCluster] implements the interface
    with the libstores and storage servers of this development.  The
    JSON functions are arguments, which [TribJson] gives; [sort.Sort] is one
    with its documented behaviour, since it does not say how it orders equal
    elements; so is the order in which the goroutines of [GetTribblesOneuser]
    answer. *)
From S2P Require Import Prelude StorageRpc StorageServer Libstore.
From Stdlib Require Import Ascii.
Open Scope Z_scope.

Module TribRpc.
Definition Status := Z.
Definition OK : Status := 1.
Definition NoSuchUser : Status := 2.
Definition NoSuchTargetUser : Status := 3.
Definition Exists : Status := 4.

Record Tribble := mkTribble { UserID : string; Posted : Z; Contents : string }.

Record CreateUserArgs := mkCreateUserArgs { cu_UserID : string }.
Record CreateUserReply := mkCreateUserReply { cu_Status : Status }.
Record SubscriptionArgs := mkSubscriptionArgs { su_UserID : string; su_TargetUserID : string }.
Record SubscriptionReply := mkSubscriptionReply { su_Status : Status }.
Record PostTribbleArgs := mkPostTribbleArgs { pt_UserID : string; pt_Contents : string }.
Record PostTribbleReply := mkPostTribbleReply { pt_Status : Status }.
Record GetSubscriptionsArgs := mkGetSubscriptionsArgs { gs_UserID : string }.
Record GetSubscriptionsReply := mkGetSubscriptionsReply { gs_Status : Status; gs_UserIDs : list string }.
Record GetTribblesArgs := mkGetTribblesArgs { gt_UserID : string }.
Record GetTribblesReply := mkGetTribblesReply { gt_Status : Status; gt_Tribbles : list Tribble }.
End TribRpc.

(** ** The libstore, as the server sees it *)

(** A read gives an [inr] error, a write an error or none. *)
Class LibstoreOps (W : Type) := {
  ls_Get : string -> W -> W * (string + string);
  ls_Put : string -> string -> W -> W * option string;
  ls_GetList : string -> W -> W * (list string + string);
  ls_AppendToList : string -> string -> W -> W * option string;
  ls_RemoveFromList : string -> string -> W -> W * option string }.

(** The errors of a key without a value, of an item that is in the list already
    and of one that is not. *)
Definition noValue : string := "reply not ready get".
Definition itemThere : string := "AppendTolist error libstore key not found".
Definition itemMissing : string := " RemoveFromList error libstore key not found".

Definition got (v : option string) : string + string := match v with Some v => inl v | None => inr noValue end.

(** Keys of lists, by the ending the server gives them; all other keys are keys
    of values. *)
Definition hasSuffix (suffix s : string) : bool :=
  bool_decide (rev (String.list_ascii_of_string suffix) `prefix_of` rev (String.list_ascii_of_string s)).

Definition list_key (k : string) : bool :=
  hasSuffix ":subscribe_list" k || hasSuffix ":tribble_list" k.

(** What a write with its effect and its answer leaves, when calls may fail
    ([lossy]): with its effect the right answer or an error, without it an
    error. *)
Definition write_result (lossy effect idle : Prop) (answer r : option string) : Prop :=
  effect /\ (r = answer \/ lossy /\ is_Some r) \/ idle /\ lossy /\ is_Some r.

Lemma write_result_mono (lossy effect effect' idle : Prop) answer answer' r :
  (effect -> effect') -> answer = answer' -> write_result lossy effect idle answer r -> write_result lossy effect' idle answer' r.
Proof. unfold write_result. intros He <-. tauto. Qed.

(** What it promises of values under value keys and of sets under list keys, in
    a state that is [alive].  A state is [lossy] when calls may fail from then
    on. *)
Class LibstoreLaws (W : Type) `{LibstoreOps W} := {
  alive : W -> Prop;
  lossy : W -> Prop;
  vals : W -> string -> option string;
  elems : W -> string -> list string;
  same_view (w w' : W) : Prop := (forall k, vals w' k = vals w k) /\ forall k, elems w' k = elems w k;
  goes (w w' : W) : Prop := alive w' /\ (lossy w' -> lossy w);
  vals_kind w k v : alive w -> vals w k = Some v -> list_key k = false;
  Get_any w k : alive w -> list_key k = false -> exists w' r, ls_Get k w = (w', r) /\
    goes w w' /\ same_view w w' /\ (r = got (vals w k) \/ lossy w /\ exists e, r = inr e);
  Put_any w k v : alive w -> list_key k = false -> exists w' r, ls_Put k v w = (w', r) /\ goes w w' /\
    write_result (lossy w) ((forall k', vals w' k' = if decide (k' = k) then Some v else vals w k') /\
      forall k', elems w' k' = elems w k') (same_view w w') None r;
  GetList_any w k : alive w -> list_key k = true -> exists w' r, ls_GetList k w = (w', r) /\
    goes w w' /\ same_view w w' /\ (r = inl (elems w k) \/ lossy w /\ exists e, r = inr e);
  Append_any w k v : alive w -> list_key k = true -> exists w' r, ls_AppendToList k v w = (w', r) /\ goes w w' /\
    write_result (lossy w) ((forall k', vals w' k' = vals w k') /\ forall k', elems w' k' =
      if decide (k' = k) then (StorageServer.append_spec v (elems w k)).2 else elems w k') (same_view w w')
      (if bool_decide (v ∈ elems w k) then Some itemThere else None) r;
  Remove_any w k v : alive w -> list_key k = true -> exists w' r, ls_RemoveFromList k v w = (w', r) /\ goes w w' /\
    write_result (lossy w) ((forall k', vals w' k' = vals w k') /\ forall k', elems w' k' =
      if decide (k' = k) then (StorageServer.remove_spec v (elems w k)).2 else elems w k') (same_view w w')
      (if bool_decide (v ∈ elems w k) then None else Some itemMissing) r }.

(** While no call fails, every operation does what it says. *)
Section reliable.
Context {W : Type} `{LibstoreLaws W}.

Definition up (w : W) : Prop := alive w /\ ~ lossy w.

Lemma goes_up w w' : up w -> goes w w' -> up w'.
Proof. intros [_ Hn] [Ha Hl]. split; auto. Qed.

Lemma write_result_up w (effect idle : Prop) answer r :
  up w -> write_result (lossy w) effect idle answer r -> r = answer /\ effect.
Proof. intros [_ Hn] [[He [Hr|[Hl _]]]|(_ & Hl & _)]; [by split|by destruct Hn..]. Qed.

Lemma Get_law w k : up w -> list_key k = false ->
  exists w', ls_Get k w = (w', got (vals w k)) /\ up w' /\ same_view w w'.
Proof.
  intros Hu Hk. destruct (Get_any w k (proj1 Hu) Hk) as (w' & r & -> & Hg & Hv & [->|[Hl _]]); [|by destruct (proj2 Hu)].
  exists w'. split; [done|]. split; [by eapply goes_up|done].
Qed.

Lemma Put_law w k v : up w -> list_key k = false -> exists w', ls_Put k v w = (w', None) /\ up w' /\
  (forall k', vals w' k' = if decide (k' = k) then Some v else vals w k') /\ forall k', elems w' k' = elems w k'.
Proof.
  intros Hu Hk. destruct (Put_any w k v (proj1 Hu) Hk) as (w' & r & -> & Hg & Hw).
  apply write_result_up in Hw as [-> He]; [|done]. exists w'. split; [done|]. split; [by eapply goes_up|done].
Qed.

Lemma GetList_law w k : up w -> list_key k = true ->
  exists w', ls_GetList k w = (w', inl (elems w k)) /\ up w' /\ same_view w w'.
Proof.
  intros Hu Hk. destruct (GetList_any w k (proj1 Hu) Hk) as (w' & r & -> & Hg & Hv & [->|[Hl _]]); [|by destruct (proj2 Hu)].
  exists w'. split; [done|]. split; [by eapply goes_up|done].
Qed.

Lemma Append_law w k v : up w -> list_key k = true -> exists w',
  ls_AppendToList k v w = (w', if bool_decide (v ∈ elems w k) then Some itemThere else None) /\ up w' /\
  (forall k', vals w' k' = vals w k') /\ forall k', elems w' k' =
    if decide (k' = k) then (StorageServer.append_spec v (elems w k)).2 else elems w k'.
Proof.
  intros Hu Hk. destruct (Append_any w k v (proj1 Hu) Hk) as (w' & r & -> & Hg & Hw).
  apply write_result_up in Hw as [-> He]; [|done]. exists w'. split; [done|]. split; [by eapply goes_up|done].
Qed.

Lemma Remove_law w k v : up w -> list_key k = true -> exists w',
  ls_RemoveFromList k v w = (w', if bool_decide (v ∈ elems w k) then None else Some itemMissing) /\ up w' /\
  (forall k', vals w' k' = vals w k') /\ forall k', elems w' k' =
    if decide (k' = k) then (StorageServer.remove_spec v (elems w k)).2 else elems w k'.
Proof.
  intros Hu Hk. destruct (Remove_any w k v (proj1 Hu) Hk) as (w' & r & -> & Hg & Hw).
  apply write_result_up in Hw as [-> He]; [|done]. exists w'. split; [done|]. split; [by eapply goes_up|done].
Qed.
End reliable.

(** ** The server *)
Module TribServer.
Import TribRpc.

Section server.
Context {W : Type} `{LibstoreOps W}.
Context (marshal : Tribble -> string) (unmarshal : string -> Tribble -> Tribble).
Context (sort : list Tribble -> list Tribble).

Definition userKey (u : string) : string := u +:+ ":user".
Definition subscribeKey (u : string) : string := u +:+ ":subscribe_list".
Definition tribblesKey (u : string) : string := u +:+ ":tribble_list".
Definition tribbleKey (u id : string) : string := u +:+ ":" +:+ id.

Definition CreateUser (args : CreateUserArgs) (w : W) : W * CreateUserReply :=
  let key := userKey (cu_UserID args) in
  let '(w, r) := ls_Get key w in
  match r with
  | inr _ => ((ls_Put key key w).1, mkCreateUserReply OK)
  | inl _ => (w, mkCreateUserReply Exists)
  end.

(** Both subscription handlers look the two users up first. *)
Definition checkUsers (args : SubscriptionArgs) (w : W) (body : W -> W * Status) : W * SubscriptionReply :=
  let '(w, ok_user) := ls_Get (userKey (su_UserID args)) w in
  let '(w, ok_target) := ls_Get (userKey (su_TargetUserID args)) w in
  match ok_user, ok_target with
  | inr _, _ => (w, mkSubscriptionReply NoSuchUser)
  | inl _, inr _ => (w, mkSubscriptionReply NoSuchTargetUser)
  | inl _, inl _ => let '(w, st) := body w in (w, mkSubscriptionReply st)
  end.

Definition AddSubscription (args : SubscriptionArgs) (w : W) : W * SubscriptionReply :=
  checkUsers args w (fun w =>
    let '(w, err) := ls_AppendToList (subscribeKey (su_UserID args)) (su_TargetUserID args) w in
    (w, match err with Some _ => Exists | None => OK end)).

Definition RemoveSubscription (args : SubscriptionArgs) (w : W) : W * SubscriptionReply :=
  checkUsers args w (fun w =>
    let '(w, err) := ls_RemoveFromList (subscribeKey (su_UserID args)) (su_TargetUserID args) w in
    (w, match err with Some _ => NoSuchTargetUser | None => OK end)).

Definition GetSubscriptions (args : GetSubscriptionsArgs) (w : W) : W * (GetSubscriptionsReply + string) :=
  let '(w, ok_user) := ls_Get (userKey (gs_UserID args)) w in
  match ok_user with
  | inr _ => (w, inl (mkGetSubscriptionsReply NoSuchUser []))
  | inl _ =>
      let '(w, value) := ls_GetList (subscribeKey (gs_UserID args)) w in
      (w, match value with
          | inr err => inr err
          | inl l => inl (mkGetSubscriptionsReply OK l)
          end)
  end.

(** [posted] and [tribbleid] are two readings of the clock. *)
Definition PostTribble (posted tribbleid : Z) (args : PostTribbleArgs) (w : W)
    : W * (PostTribbleReply + string) :=
  let u := pt_UserID args in
  let '(w, ok_user) := ls_Get (userKey u) w in
  match ok_user with
  | inr _ => (w, inl (mkPostTribbleReply NoSuchUser))
  | inl _ =>
      let tribble := mkTribble u posted (pt_Contents args) in
      let '(w, err) := ls_Put (tribbleKey u (pretty tribbleid)) (marshal tribble) w in
      match err with
      | Some _ => (w, inr "error PostTribble")
      | None =>
          let '(w, err) := ls_AppendToList (tribblesKey u) (pretty tribbleid) w in
          (w, match err with
              | None => inl (mkPostTribbleReply OK)
              | Some err => inr ("error AppendToList " +:+ err)
              end)
      end
  end.

(** A fetch that fails gives the empty string. *)
Definition fetched (val : string + string) : string := match val with inl v => v | inr _ => "" end.

(** The fetches, in the order in which they answer. *)
Fixpoint fetchAll (keys : list string) (w : W) : W * list string :=
  match keys with
  | [] => (w, [])
  | k :: keys' =>
      let '(w, val) := ls_Get k w in
      let '(w, rest) := fetchAll keys' w in (w, fetched val :: rest)
  end.

(** The loop that decodes into the one variable [tribble], which keeps what a
    text does not set. *)
Fixpoint decodeAll (tribble : Tribble) (vs : list string) : list Tribble :=
  match vs with
  | [] => []
  | v :: vs' => let tribble := unmarshal v tribble in tribble :: decodeAll tribble vs'
  end.

(** The zero time is January 1 of the year 1. *)
Definition zeroTribble : Tribble := mkTribble "" (-62135596800 * 10 ^ 9) "".

(** An error of [GetList] comes with a nil list and is ignored. *)
Definition listed (r : list string + string) : list string := match r with inl l => l | inr _ => [] end.

Definition GetTribblesOneuser (order : list string -> list string) (UserID : string) (w : W) : W * list Tribble :=
  let '(w, tribble_list) := ls_GetList (tribblesKey UserID) w in
  let '(w, vs) := fetchAll (order (tribbleKey UserID <$> listed tribble_list)) w in
  (w, decodeAll zeroTribble vs).

Definition newest (l : list Tribble) : list Tribble := firstn 100 (sort l).

Definition GetTribbles (order : list string -> list string) (args : GetTribblesArgs) (w : W)
    : W * GetTribblesReply :=
  let '(w, ok_user) := ls_Get (userKey (gt_UserID args)) w in
  match ok_user with
  | inr _ => (w, mkGetTribblesReply NoSuchUser [])
  | inl _ =>
      let '(w, tribbles) := GetTribblesOneuser order (gt_UserID args) w in
      (w, mkGetTribblesReply OK (newest tribbles))
  end.

(** The users in the order in which their goroutines answer. *)
Fixpoint collectUsers (order : list string -> list string) (us : list string) (w : W) : W * list Tribble :=
  match us with
  | [] => (w, [])
  | u :: us' =>
      let '(w, value) := GetTribblesOneuser order u w in
      let '(w, ans) := collectUsers order us' w in (w, value ++ ans)
  end.

Definition GetTribblesBySubscription (order : list string -> list string) (args : GetTribblesArgs) (w : W)
    : W * GetTribblesReply :=
  let '(w, ok_user) := ls_Get (userKey (gt_UserID args)) w in
  match ok_user with
  | inr _ => (w, mkGetTribblesReply NoSuchUser [])
  | inl _ =>
      let '(w, subscribe_list) := ls_GetList (subscribeKey (gt_UserID args)) w in
      let '(w, ans) := collectUsers order (order (listed subscribe_list)) w in
      (w, mkGetTribblesReply OK (newest ans))
  end.
End server.

(** ** The kinds of the keys *)

Lemma list_ascii_app a b :
  String.list_ascii_of_string (a +:+ b) = String.list_ascii_of_string a ++ String.list_ascii_of_string b.
Proof. induction a as [|c a IH]; [done|]. exact (f_equal (cons c) IH). Qed.

Lemma hasSuffix_app a suffix : hasSuffix suffix (a +:+ suffix) = true.
Proof.
  unfold hasSuffix. apply bool_decide_eq_true. rewrite list_ascii_app, rev_app_distr. by eexists.
Qed.

(** A key with a last character of its own is no list key. *)
Lemma list_key_last a c : c <> "t"%char -> list_key (a +:+ String c EmptyString) = false.
Proof.
  intros Hc. unfold list_key, hasSuffix. rewrite list_ascii_app, rev_app_distr. cbn -[prefix].
  assert (Hp : forall l l', "t"%char :: l `prefix_of` c :: l' -> False).
  { intros l l' H. apply prefix_cons_inv_1 in H. by rewrite H in Hc. }
  apply orb_false_iff. split; apply bool_decide_eq_false; intros H; by apply Hp in H.
Qed.

Lemma userKey_last u : userKey u = (u +:+ ":use") +:+ "r".
Proof. unfold userKey. induction u as [|c u IH]; [done|]. exact (f_equal (String c) IH). Qed.

Lemma userKey_kind u : list_key (userKey u) = false.
Proof. rewrite userKey_last. by apply list_key_last. Qed.

Lemma subscribeKey_kind u : list_key (subscribeKey u) = true.
Proof. unfold list_key, subscribeKey. by rewrite hasSuffix_app. Qed.

Lemma tribblesKey_kind u : list_key (tribblesKey u) = true.
Proof. unfold list_key, tribblesKey. rewrite hasSuffix_app. apply orb_true_r. Qed.

(** What the keys need of the decimal form of a number: it is not empty, and has
    neither a colon nor the last letters of the other keys. *)
Definition plain (c : ascii) : Prop := c <> ":"%char /\ c <> "t"%char /\ c <> "r"%char.

Abbreviation chars s := (String.list_ascii_of_string s) (only parsing).

Lemma pretty_N_char_plain x : plain (pretty_N_char x).
Proof. unfold plain, pretty_N_char. by repeat case_match. Qed.

Lemma pretty_N_go_plain x s :
  Forall plain (chars s) -> s <> EmptyString ->
  Forall plain (chars (pretty_N_go x s)) /\ pretty_N_go x s <> EmptyString.
Proof.
  revert s. induction (N.lt_wf_0 x) as [x _ IH]. intros s Hs Hne.
  destruct (decide (0 < x)%N) as [Hx|Hx]; [|by replace x with 0%N by lia; rewrite pretty_N_go_0].
  rewrite pretty_N_go_step by done. apply IH; [apply N.div_lt; lia| |done].
  constructor; [apply pretty_N_char_plain|done].
Qed.

Lemma pretty_plain (z : Z) : Forall plain (chars (pretty z)) /\ pretty z <> EmptyString.
Proof.
  assert (HN : forall p, Forall plain (chars (pretty (N.pos p))) /\ pretty (N.pos p) <> EmptyString).
  { intros p. unfold pretty, pretty_N. rewrite decide_False by done. rewrite pretty_N_go_step by lia.
    apply pretty_N_go_plain; [|done]. repeat constructor; apply pretty_N_char_plain. }
  destruct z as [|p|p].
  - split; [|done]. by repeat constructor.
  - apply HN.
  - split; [|done]. constructor; [done|apply HN].
Qed.

Lemma last_char (P : ascii -> Prop) s :
  Forall P (chars s) -> s <> EmptyString -> exists a c, s = a +:+ String c EmptyString /\ P c.
Proof.
  induction s as [|c s IH]; [done|]. intros [Hc Hs]%Forall_cons _. destruct s as [|c' s].
  - by exists EmptyString, c.
  - destruct (IH Hs) as (a & c0 & E & ?); [done|]. exists (String c a), c0. by rewrite E.
Qed.

Lemma app_assoc_string (a b c : string) : a +:+ (b +:+ c) = (a +:+ b) +:+ c.
Proof. induction a as [|x a IH]; [done|]. exact (f_equal (String x) IH). Qed.

Lemma tribbleKey_last u (tid : Z) :
  exists a c, tribbleKey u (pretty tid) = a +:+ String c EmptyString /\ plain c.
Proof.
  destruct (pretty_plain tid) as [Hp Hne]. destruct (last_char _ _ Hp Hne) as (a & c & E & Hc).
  unfold tribbleKey. rewrite E, !app_assoc_string. by eexists _, _.
Qed.

Lemma tribbleKey_kind u tid : list_key (tribbleKey u (pretty (tid : Z))) = false.
Proof. destruct (tribbleKey_last u tid) as (a & c & -> & _ & Hc & _). by apply list_key_last. Qed.

(** ** Different keys *)

Lemma chars_inj s s' : chars s = chars s' -> s = s'.
Proof.
  intros E. by rewrite <- (String.string_of_list_ascii_of_string s), E, String.string_of_list_ascii_of_string.
Qed.

Lemma app_inj_r (a b c : string) : a +:+ b = a +:+ c -> b = c.
Proof. induction a as [|x a IH]; cbn; [done|]. intros E. injection E. auto. Qed.

Lemma app_inj_l (a b c : string) : a +:+ c = b +:+ c -> a = b.
Proof.
  intros E%(f_equal String.list_ascii_of_string). rewrite !list_ascii_app in E.
  by apply app_inv_tail, chars_inj in E.
Qed.

Lemma last_inj a b c d : a +:+ String c EmptyString = b +:+ String d EmptyString -> c = d.
Proof.
  intros E%(f_equal String.list_ascii_of_string). rewrite !list_ascii_app in E. by apply app_inj_tail in E as [_ ?].
Qed.

Lemma userKey_inj u v : userKey u = userKey v -> u = v.
Proof. apply app_inj_l. Qed.

Lemma subscribeKey_inj u v : subscribeKey u = subscribeKey v -> u = v.
Proof. apply app_inj_l. Qed.

Lemma tribblesKey_inj u v : tribblesKey u = tribblesKey v -> u = v.
Proof. apply app_inj_l. Qed.

Lemma subscribeKey_tribblesKey u v : subscribeKey u <> tribblesKey v.
Proof.
  unfold subscribeKey, tribblesKey.
  change ":subscribe_list" with (":subscri" +:+ ("b" +:+ "e_list")).
  change ":tribble_list" with (":tribb" +:+ ("l" +:+ "e_list")).
  rewrite !app_assoc_string. by intros E%app_inj_l%last_inj.
Qed.

Lemma userKey_tribbleKey u v (tid : Z) : userKey u <> tribbleKey v (pretty tid).
Proof.
  destruct (tribbleKey_last v tid) as (a & c & -> & _ & _ & Hc). rewrite userKey_last.
  intros E%last_inj. by subst.
Qed.

Lemma colon_split : forall a b p q, ":"%char ∉ p -> ":"%char ∉ q ->
  a ++ ":"%char :: p = b ++ ":"%char :: q -> a = b /\ p = q.
Proof.
  induction a as [|x a IH]; intros [|y b] p q Hp Hq; cbn.
  - by intros [= ->].
  - intros [= <- ->]. exfalso. apply Hp, elem_of_app. right. by left.
  - intros [= -> <-]. exfalso. apply Hq, elem_of_app. right. by left.
  - intros [= -> E]. by destruct (IH b p q Hp Hq E) as [-> ->].
Qed.

Lemma pretty_no_colon (z : Z) : ":"%char ∉ chars (pretty z).
Proof. intros Hin. destruct (pretty_plain z) as [Hp _]. rewrite Forall_forall in Hp. by destruct (Hp _ Hin). Qed.

Lemma tribbleKey_inj u v (tid tid' : Z) :
  tribbleKey u (pretty tid) = tribbleKey v (pretty tid') -> u = v /\ tid = tid'.
Proof.
  intros E%(f_equal String.list_ascii_of_string). unfold tribbleKey in E. rewrite !list_ascii_app in E.
  apply colon_split in E as [Hu Hp]; [|apply pretty_no_colon..].
  split; [by apply chars_inj|]. by apply chars_inj, (inj pretty) in Hp.
Qed.

(** ** What the handlers do *)

Section laws.
Context {W : Type} `{LibstoreLaws W}.
Context (marshal : Tribble -> string) (unmarshal : string -> Tribble -> Tribble).
Context (sort : list Tribble -> list Tribble).
Context (sort_perm : forall l, Permutation (sort l) l).
Context (sort_sorted : forall l, StronglySorted (fun t t' => Posted t' <= Posted t) (sort l)).

Definition user (w : W) (u : string) : bool := bool_decide (is_Some (vals w (userKey u))).

(** Under the key there is the tribble [t], encoded. *)
Definition stored (w : W) (k : string) (t : Tribble) : Prop :=
  exists m, vals w k = Some m /\ forall old, unmarshal m old = t.

(** User [u] has posted the tribbles [ts], oldest first. *)
Definition posts (w : W) (u : string) (ts : list Tribble) : Prop :=
  Forall2 (fun id t => stored w (tribbleKey u id) t) (elems w (tribblesKey u)) ts.

Lemma same_view_refl w : same_view w w.
Proof. done. Qed.

Lemma same_view_trans w w' w'' : same_view w w' -> same_view w' w'' -> same_view w w''.
Proof. intros [E1 E2] [E3 E4]. split; intros k; by rewrite ?E3, ?E4. Qed.

Lemma posts_view w w' u ts : same_view w w' -> posts w u ts -> posts w' u ts.
Proof.
  intros [Ev Es]. unfold posts. rewrite Es. intros Hp. eapply Forall2_impl; [exact Hp|].
  intros id t (m & ? & ?). exists m. by rewrite Ev.
Qed.

Lemma user_None w u : user w u = false -> vals w (userKey u) = None.
Proof. unfold user. intros E. breflect. by apply eq_None_not_Some. Qed.

Lemma user_Some w u : user w u = true -> exists v, vals w (userKey u) = Some v.
Proof. unfold user. intros E. by breflect. Qed.

Lemma fetchAll_spec : forall ks w, up w -> Forall (fun k => list_key k = false) ks ->
  exists w', up w' /\ same_view w w' /\ fetchAll ks w = (w', (fun k => fetched (got (vals w k))) <$> ks).
Proof.
  induction ks as [|k ks IH]; intros w Hu Hks; [by exists w|]. apply Forall_cons in Hks as [Hk Hks]. cbn.
  destruct (Get_law w k Hu Hk) as (w1 & -> & Hu1 & Hv1).
  destruct (IH w1 Hu1 Hks) as (w2 & Hu2 & Hv & ->). exists w2. split; [done|].
  split; [by eapply same_view_trans|]. do 2 f_equal. apply list_fmap_ext. intros i k' _. by rewrite (proj1 Hv1).
Qed.

Lemma decodeAll_stored w ks ts : Forall2 (stored w) ks ts -> forall t0,
  decodeAll unmarshal t0 ((fun k => fetched (got (vals w k))) <$> ks) = ts.
Proof.
  induction 1 as [|k t ks ts (m & Hm & Hu) _ IH]; intros t0; [done|]. cbn. rewrite Hm. cbn. rewrite Hu. by rewrite IH.
Qed.

Lemma GetTribblesOneuser_spec order u ts w :
  (forall l, Permutation (order l) l) -> up w -> posts w u ts ->
  exists w' ts', GetTribblesOneuser unmarshal order u w = (w', ts') /\ up w' /\ same_view w w' /\
    Permutation ts' ts.
Proof.
  intros Ho Hu Hp. unfold GetTribblesOneuser.
  destruct (GetList_law w (tribblesKey u) Hu (tribblesKey_kind u)) as (w1 & -> & Hu1 & Hv1). cbn [listed].
  pose proof (posts_view _ _ _ _ Hv1 Hp) as Hp1. unfold posts in Hp1. rewrite (proj2 Hv1) in Hp1.
  assert (Hkeys : Forall2 (stored w1) (tribbleKey u <$> elems w (tribblesKey u)) ts) by by apply Forall2_fmap_l.
  destruct (Permutation_Forall2 (symmetry (Ho _)) Hkeys) as (ts' & Hts & Hs').
  destruct (fetchAll_spec (order (tribbleKey u <$> elems w (tribblesKey u))) w1 Hu1) as (w2 & Hu2 & Hv & ->).
  { eapply Forall2_Forall_l; [exact Hs'|]. apply Forall_true. intros t k (m & Hm & _). exact (vals_kind w1 _ _ (proj1 Hu1) Hm). }
  rewrite (decodeAll_stored w1 _ ts') by done. exists w2, ts'. split; [done|]. split; [done|]. split; [|done].
  by eapply same_view_trans.
Qed.

Lemma newest_spec l l' :
  Permutation l' l -> StronglySorted (fun t t' => Posted t' <= Posted t) (newest sort l') /\
  length (newest sort l') = Nat.min 100 (length l) /\
  exists older, Permutation (newest sort l' ++ older) l /\
    forall t t', t ∈ newest sort l' -> t' ∈ older -> Posted t' <= Posted t.
Proof.
  intros Hp. unfold newest. pose proof (sort_sorted l') as Hs.
  rewrite <- (take_drop 100 (sort l')) in Hs at 1. split; [by apply StronglySorted_app_1_l in Hs|].
  split; [by rewrite length_take, sort_perm, Hp|].
  exists (drop 100 (sort l')). split; [by rewrite take_drop, sort_perm|].
  intros t t' Ht Ht'. eapply StronglySorted_app_1_elem_of in Hs; [exact Hs|exact Ht|exact Ht'].
Qed.

Lemma tribbleKey_id u id id' : tribbleKey u id = tribbleKey u id' -> id = id'.
Proof. unfold tribbleKey. intros E%app_inj_r. by injection E. Qed.

Lemma PostTribble_spec posted tid u c t ts w :
  (forall old, unmarshal (marshal (mkTribble u posted c)) old = t) ->
  up w -> user w u = true -> posts w u ts -> pretty tid ∉ elems w (tribblesKey u) ->
  exists w', PostTribble marshal posted tid (mkPostTribbleArgs u c) w = (w', inl (mkPostTribbleReply OK)) /\
    up w' /\ posts w' u (ts ++ [t]) /\ user w' u = true.
Proof.
  intros Ht Hu [x Hx]%user_Some Hp Hid. unfold PostTribble. cbn [pt_UserID pt_Contents].
  destruct (Get_law w (userKey u) Hu (userKey_kind u)) as (w1 & -> & Hu1 & Ev1 & Es1). rewrite Hx.
  destruct (Put_law w1 (tribbleKey u (pretty tid)) (marshal (mkTribble u posted c)) Hu1 (tribbleKey_kind u tid))
    as (w2 & -> & Hu2 & Ev2 & Es2).
  destruct (Append_law w2 (tribblesKey u) (pretty tid) Hu2 (tribblesKey_kind u)) as (w3 & -> & Hu3 & Ev3 & Es3).
  rewrite Es2, Es1 in *. rewrite bool_decide_false in * by done. exists w3. split; [done|].
  split; [done|]. split.
  2: { unfold user. apply bool_decide_eq_true. rewrite Ev3, Ev2, Ev1. case_decide; [by eexists|by rewrite Hx]. }
  unfold posts. rewrite Es3, decide_True by done. unfold StorageServer.append_spec.
  rewrite bool_decide_false by done. cbn [snd]. apply Forall2_app.
  - apply Forall2_same_length_lookup_2; [by eapply Forall2_length|]. intros i id t' Hi Ht'. unfold stored.
    rewrite Ev3, Ev2, decide_False; [rewrite Ev1; exact (Forall2_lookup_lr _ _ _ i id t' Hp Hi Ht')|].
    intros E%tribbleKey_id. apply Hid. rewrite <- E. by eapply list_elem_of_lookup_2.
  - constructor; [|constructor]. eexists. by rewrite Ev3, Ev2, decide_True.
Qed.

(** Subscriptions are a set per user, of existing users. *)
Lemma AddSubscription_spec u v w :
  up w -> exists w', AddSubscription (mkSubscriptionArgs u v) w =
    (w', mkSubscriptionReply (if negb (user w u) then NoSuchUser
                              else if negb (user w v) then NoSuchTargetUser
                              else if bool_decide (v ∈ elems w (subscribeKey u)) then Exists else OK)) /\ up w' /\
    (forall k, vals w' k = vals w k) /\
    (user w u = true -> user w v = true ->
     elems w' (subscribeKey u) = (StorageServer.append_spec v (elems w (subscribeKey u))).2).
Proof.
  intros Hu. unfold AddSubscription, checkUsers. cbn [su_UserID su_TargetUserID].
  destruct (Get_law w (userKey u) Hu (userKey_kind u)) as (w1 & -> & Hu1 & Hv1).
  destruct (Get_law w1 (userKey v) Hu1 (userKey_kind v)) as (w2 & -> & Hu2 & Hv2). rewrite (proj1 Hv1).
  pose proof (same_view_trans _ _ _ Hv1 Hv2) as [Ev Es].
  destruct (user w u) eqn:E1; [apply user_Some in E1 as [x ->]|apply user_None in E1 as ->].
  2: { exists w2. by split_and!. }
  destruct (user w v) eqn:E2; [apply user_Some in E2 as [y ->]|apply user_None in E2 as ->].
  2: { exists w2. by split_and!. }
  destruct (Append_law w2 (subscribeKey u) v Hu2 (subscribeKey_kind u)) as (w3 & -> & Hu3 & Ev3 & Es3).
  rewrite Es in *. exists w3. split; [by destruct (bool_decide _)|]. split; [done|].
  split; [intros k; by rewrite Ev3|]. intros _ _. by rewrite Es3, decide_True.
Qed.
End laws.

(** Timelines are right. Over a storage system that is up, for a user whose
    tribble list refers to the tribbles [ts]: a post with a fresh time-stamp
    succeeds and puts exactly the new tribble after them, as it comes out of
    its encoding; and [GetTribbles] then answers OK with at most 100 of the
    user's tribbles, newest first, none twice, and none left out that is newer
    than one listed, in whatever order the concurrent fetches answer. *)
Lemma timeline_correct {W : Type} `{LibstoreLaws W} marshal unmarshal sort order posted tid u c t ts w :
  (forall old, unmarshal (marshal (mkTribble u posted c)) old = t) ->
  (forall l, Permutation (sort l) l) ->
  (forall l, StronglySorted (fun t t' => Posted t' <= Posted t) (sort l)) ->
  (forall l, Permutation (order l) l) ->
  up w -> user w u = true -> posts unmarshal w u ts -> pretty tid ∉ elems w (tribblesKey u) ->
  let ts' := ts ++ [t] in
  exists w' w'' shown older,
    PostTribble marshal posted tid (mkPostTribbleArgs u c) w = (w', inl (mkPostTribbleReply OK)) /\
    GetTribbles unmarshal sort order (mkGetTribblesArgs u) w' = (w'', mkGetTribblesReply OK shown) /\
    up w'' /\ posts unmarshal w'' u ts' /\
    StronglySorted (fun t t' => Posted t' <= Posted t) shown /\
    length shown = Nat.min 100 (length ts') /\
    Permutation (shown ++ older) ts' /\
    (forall t t', t ∈ shown -> t' ∈ older -> Posted t' <= Posted t).
Proof.
  intros Hm Hsp Hss Ho Hu Huser Hp Hid ts'.
  destruct (PostTribble_spec marshal unmarshal posted tid u c t ts w Hm Hu Huser Hp Hid)
    as (w1 & Hpost & Hu1 & Hp1 & [x Hx]%user_Some).
  destruct (Get_law w1 (userKey u) Hu1 (userKey_kind u)) as (w2 & Hg & Hu2 & Hv2).
  destruct (GetTribblesOneuser_spec unmarshal order u ts' w2 Ho Hu2) as (w3 & l & Hone & Hu3 & Hv3 & Hl);
    [by eapply posts_view|].
  destruct (newest_spec sort Hsp Hss ts' l Hl) as (Hs & Hlen & older & Hperm & Hold).
  exists w1, w3, (newest sort l), older. split; [exact Hpost|]. split.
  { unfold GetTribbles. cbn [gt_UserID]. by rewrite Hg, Hx, Hone. }
  split; [done|]. split; [|done]. eapply posts_view; [exact Hv3|]. by eapply posts_view.
Qed.
End TribServer.
