(* ===== verification/TribJson.v ===== *)
(** * TribJson: tribbles in the storage system

    [json.Marshal] and [json.Unmarshal] of [tribrpc.Tribble], as
    [PostTribble] and [GetTribblesOneuser] of
    [p2/.../tribserver/tribserver_impl.go] use them, over the grammar of
    [GoJson] and the times of [GoTime].  A tribble comes out as it went in, but
    for what is not UTF-8 in its strings ([tribble_roundtrip]). *)
From Stdlib Require Import Strings.Byte.
From S2P Require Import Prelude GoJson GoTime TribServer.
Open Scope Z_scope.

Module TribCodec.
Import Json TribRpc.

(** The object of a tribble; [Posted] writes itself, in quotes. *)
Definition encode (off : Z) (t : Tribble) : text :=
  x7b :: member "UserID" (quote (bytes (UserID t))) ++ comma ++
  member "Posted" (quoted (Rfc3339.format off (Posted t))) ++ comma ++
  member "Contents" (quote (bytes (Contents t))) ++ [x7d].

(** [temp, _ := json.Marshal(tribble)] in the zone [off]: no bytes when the
    year does not have four digits. *)
Definition Marshal (off : Z) (t : Tribble) : string :=
  if bool_decide (Rfc3339.in_years ((Posted t / 10 ^ 9 + off * 60) / 86400)) then str (encode off t) else "".

(** Storing a member; [None] ends the decoding.  A string field keeps its value
    on [null] and on a value of another type.  ([Posted] is read from the text
    between the quotes: with escapes in it, which [Marshal] does not write,
    this decoder would accept more.) *)
Definition setField (t : Tribble) (k : text) (v : json) : option Tribble :=
  let '(mkTribble u p c) := t in
  if key_is "UserID" k then Some (mkTribble (default u (setString v u)) p c)
  else if key_is "Posted" k then
    match v with
    | JNull => Some t
    | JStr s => p ← Rfc3339.parse s; Some (mkTribble u p c)
    | _ => None
    end
  else if key_is "Contents" k then Some (mkTribble u p (default c (setString v c)))
  else Some t.

Fixpoint setFields (t : Tribble) (ms : list (text * json)) : Tribble :=
  match ms with
  | [] => t
  | (k, v) :: ms' => match setField t k v with Some t => setFields t ms' | None => t end
  end.

(** [json.Unmarshal([]byte(value), &tribble)], its error ignored: what the
    variable holds afterwards. *)
Definition Unmarshal (value : string) (tribble : Tribble) : Tribble :=
  match parse (bytes value) with
  | Some (JObj ms) => setFields tribble ms
  | _ => tribble
  end.

Definition received (t : Tribble) : Tribble := mkTribble (coerceS (UserID t)) (Posted t) (coerceS (Contents t)).

(** ** Round trip *)

Definition fields (off : Z) (t : Tribble) : list (text * json) :=
  [(lit "UserID", JStr (coerce 0 (bytes (UserID t)))); (lit "Posted", JStr (Rfc3339.format off (Posted t)));
   (lit "Contents", JStr (coerce 0 (bytes (Contents t))))].

Lemma value_quoted fuel s r : forallb plain s = true -> value (S fuel) (quoted s ++ r) = Some (JStr s, r).
Proof.
  intros Hs. unfold quoted. rewrite value_S. cbn [app skip_ws is_space]. rewrite first_token_quote, <- app_assoc.
  cbn [app]. by rewrite lex_string_plain.
Qed.

Lemma value_tribble fuel off t : Rfc3339.printable off (Posted t) ->
  value (5 + fuel) (encode off t) = Some (JObj (fields off t), []).
Proof.
  intros Hp. unfold encode. cbn [Nat.add]. rewrite value_S. cbn [skip_ws is_space].
  rewrite first_token_brace. cbn iota beta.
  assert (Hq : forall k v r, eat x7d (skip_ws (member k v ++ r)) = None) by done. rewrite Hq.
  erewrite !members_more, members_last;
    [reflexivity|done|apply value_quote|done|by apply value_quoted, Rfc3339.format_plain|done|apply value_quote].
Qed.

Lemma parse_tribble off t : Rfc3339.printable off (Posted t) ->
  parse (encode off t) = Some (JObj (fields off t)).
Proof.
  intros Hp. unfold parse.
  rewrite <- (parse_fuel_enough _ (5 + (2 * length (encode off t) + 2))) by lia.
  by rewrite value_tribble.
Qed.

Lemma tribble_roundtrip off t old :
  Rfc3339.printable off (Posted t) -> Unmarshal (Marshal off t) old = received t.
Proof.
  intros Hp. unfold Unmarshal, Marshal. rewrite bool_decide_true by apply Hp.
  unfold bytes at 1, str. rewrite String.list_byte_of_string_of_list_byte, parse_tribble by done.
  pose proof (Rfc3339.parse_format off (Posted t) Hp) as Ht. revert Ht. unfold fields.
  generalize (Rfc3339.format off (Posted t)). intros p Ht. destruct old as [u0 p0 c0].
  repeat (cbn [setFields]; unfold setField at 1; keys; cbn [setString default from_option id mbind option_bind];
    rewrite ?Ht; cbn [mbind option_bind]). done.
Qed.

(** Plain text is kept. *)
Lemma received_ascii t : Forall (fun b => byteZ b < 128) (bytes (UserID t)) ->
  Forall (fun b => byteZ b < 128) (bytes (Contents t)) -> received t = t.
Proof. intros Hu Hc. unfold received. rewrite !coerceS_ascii by done. by destruct t. Qed.

Example Unmarshal_error : Unmarshal "" (mkTribble "ann" 5 "hi") = mkTribble "ann" 5 "hi".
Proof. vm_compute. reflexivity. Qed.

End TribCodec.
