(* ===== verification/StorageCluster.v ===== *)
(** * StorageCluster: the whole storage system behind the tribbler server

    A ring of storage servers and any number of caching libstores, each in its
    own process, one operation after the other: the interface [LibstoreOps] of
    the tribbler server implemented with the functions of [Libstore] and
    [StorageServer].  An operation of a libstore goes to the server its ring
    names; a write calls back the libstores whose leases have not expired.
    [cluster_laws] proves the interface's laws for the libstore [me]: whatever
    the other libstores have cached, reads are right.  The call of an operation
    may fail, before or after the server has handled it ([fate]); callbacks get
    through.  What interleaves within an operation is the matter of [Lease]. *)
From S2P Require Import Prelude StorageRpc StorageServer Libstore Lease TribServer.
Open Scope Z_scope.

Module StorageCluster.
Import StorageRpc.
#[local] Existing Instance Libstore.eta_libstore.
#[local] Existing Instance StorageServer.eta_storageServer.

(** ** The processes *)

(** What becomes of the call of an operation: it gets through, there is no
    connection and none can be made, or one of its two messages is lost. *)
Inductive fate := Delivered | NoDial | RequestLost | ReplyLost.

#[export] Instance fate_eq_dec : EqDecision fate.
Proof. solve_decision. Defined.

(** The storage servers by host and port, the libstores by the address of their
    callback; the readings of the clock and the fates of the calls, by the
    operation, and how many operations there have been. *)
Record cluster := mkCluster {
  servers : gmap string StorageServer.storageServer;
  libs : gmap string Libstore.libstore;
  clock : nat -> Time;
  fates : nat -> fate;
  ticks : nat }.

#[export] Instance eta_cluster : EtaRecord cluster := fun w =>
  mkCluster (servers w) (libs w) (clock w) (fates w) (ticks w).

Definition now (w : cluster) : Time := clock w (ticks w).
Definition next (w : cluster) : fate := fates w (ticks w).

(** All calls get through from here on. *)
Definition calm (w : cluster) : Prop := forall i, (ticks w <= i)%nat -> fates w i = Delivered.

(** The clock and the fates go on. *)
Definition onward (w w' : cluster) : Prop := fates w' = fates w /\ (ticks w <= ticks w')%nat.

Lemma onward_tick w w' : fates w' = fates w -> ticks w' = S (ticks w) -> onward w w'.
Proof. split; [done|lia]. Qed.
#[local] Hint Resolve onward_tick : core.

Definition dials (f : fate) (_ : string) : bool := negb (bool_decide (f = NoDial)).
Definition answered (f : fate) : bool := bool_decide (f = Delivered).
Definition arrives (f : fate) : bool := bool_decide (f = Delivered \/ f = ReplyLost).

(** Callbacks get through. *)
Definition dial (_ : string) : bool := true.
Definition order (l : list (string * StorageServer.lease)) : list (string * StorageServer.lease) := l.

(** The reply of a call, and what the call leaves behind. *)
Definition call_read {R} (op : GetArgs -> StorageServer.storageServer -> outcome (StorageServer.storageServer * R))
    (w : cluster) (host : string) (args : GetArgs) : option R :=
  if answered (next w) then
    ss ← servers w !! host;
    match op args ss with Ret (_, r) => Some r | _ => None end
  else None.

Definition served {R} (op : GetArgs -> StorageServer.storageServer -> outcome (StorageServer.storageServer * R))
    (host : string) (args : GetArgs) (w : cluster) : cluster :=
  if arrives (next w) then
    match servers w !! host with
    | Some ss => match op args ss with
                 | Ret (ss', _) => w <| servers := <[host := ss']> (servers w) |>
                 | _ => w
                 end
    | None => w
    end
  else w.

Definition call_write (op : PutArgs -> StorageServer.storageServer -> StorageServer.handled PutReply)
    (w : cluster) (host : string) (args : PutArgs) : option PutReply :=
  if answered (next w) then
    ss ← servers w !! host;
    match op args ss with Ret (_, _, inl r) => Some r | _ => None end
  else None.

(** The libstores called back, one after the other. *)
Definition revoked (k : string) (called : list string) (m : gmap string Libstore.libstore)
    : gmap string Libstore.libstore :=
  foldr (fun h => alter (fun ls => (Libstore.RevokeLease (mkRevokeLeaseArgs k) ls).1) h) m called.

Definition written (op : PutArgs -> StorageServer.storageServer -> StorageServer.handled PutReply)
    (host : string) (args : PutArgs) (w : cluster) : cluster :=
  if arrives (next w) then
    match servers w !! host with
    | Some ss => match op args ss with
                 | Ret (ss', called, _) =>
                     w <| servers := <[host := ss']> (servers w) |>
                       <| libs := revoked (pa_Key args) called (libs w) |>
                 | _ => w
                 end
    | None => w
    end
  else w.

Section operations.
Context (me : string).

Definition host_of (k : string) (ls : Libstore.libstore) : string :=
  match Libstore.Findshashring k ls with Ret h => h | _ => "" end.

(** No operation runs where there is no libstore, or one whose ring is empty. *)
Definition noLibstore : string := "no libstore".

(** A read of libstore [me]: its function with the servers behind it. *)
Definition read {A R} (op : Time -> GetArgs -> StorageServer.storageServer -> outcome (StorageServer.storageServer * R))
    (begin : Time -> string -> Libstore.libstore -> Libstore.libstore * (A + GetArgs))
    (lread : (string -> bool) -> (string -> GetArgs -> option R) -> Time -> string -> Libstore.libstore ->
       outcome (Libstore.libstore * (A + string)))
    (k : string) (w : cluster) : cluster * (A + string) :=
  match libs w !! me with
  | None => (w, inr noLibstore)
  | Some ls =>
      let t := now w in
      match lread (dials (next w)) (call_read (op t) w) t k ls with
      | Ret (ls', r) =>
          let w' := match (begin t k ls).2 with
                    | inl _ => w
                    | inr args => served (op t) (host_of k ls) args w
                    end in
          (w' <| libs := <[me := ls']> (libs w') |> <| ticks := S (ticks w) |>, r)
      | _ => (w, inr noLibstore)
      end
  end.

(** A write of libstore [me]; the callbacks come while it waits. *)
Definition write (op : Time -> PutArgs -> StorageServer.storageServer -> StorageServer.handled PutReply)
    (lwrite : (string -> bool) -> (string -> PutArgs -> option PutReply) -> string -> string ->
       Libstore.libstore -> outcome (Libstore.libstore * option string))
    (k v : string) (w : cluster) : cluster * option string :=
  match libs w !! me with
  | None => (w, Some noLibstore)
  | Some ls =>
      let t := now w in
      match lwrite (dials (next w)) (call_write (op t) w) k v ls with
      | Ret (ls', err) =>
          ((written (op t) (host_of k ls) (mkPutArgs k v) (w <| libs := <[me := ls']> (libs w) |>))
             <| ticks := S (ticks w) |>, err)
      | _ => (w, Some noLibstore)
      end
  end.

Definition put (t : Time) := StorageServer.Put dial (fun _ => t) order.
Definition append (t : Time) := StorageServer.AppendToList dial (fun _ => t) order.
Definition remove (t : Time) := StorageServer.RemoveFromList dial (fun _ => t) order.

#[export] Instance cluster_ops : LibstoreOps cluster := {|
  ls_Get := read StorageServer.Get Libstore.Get_begin Libstore.Get;
  ls_GetList := read StorageServer.GetList Libstore.GetList_begin Libstore.GetList;
  ls_Put := write put Libstore.Put;
  ls_AppendToList := write append Libstore.AppendToList;
  ls_RemoveFromList := write remove Libstore.RemoveFromList |}.

End operations.

(** ** Both kinds of key at once *)

(** The kind of a key decides how it is stored, cached and read. *)
Definition kind (k : string) : Lease.Leasable :=
  if list_key k then Lease.list_leases else Lease.value_leases.

#[export] Instance kind_laws k : Lease.LeasableLaws (H := kind k).
Proof. unfold kind. destruct (list_key k); [apply Lease.list_laws|apply Lease.value_laws]. Qed.

(** Nothing of the other kind is cached under the key. *)
Definition pure (k : string) (ls : Libstore.libstore) : Prop :=
  if list_key k then Libstore.keyValue ls !! k = None else Libstore.keylist ls !! k = None.

Lemma pure_apart k ls : pure k ls -> Lease.apart (Leasable := kind k) k ls.
Proof. unfold pure, kind. by destruct (list_key k). Qed.

Lemma uncached k ls : Libstore.keyValue ls !! k = None -> Libstore.keylist ls !! k = None ->
  pure k ls /\ Lease.cached (Leasable := kind k) k ls = None.
Proof. intros Hv Hl. unfold pure, kind. destruct (list_key k); cbn; by rewrite ?Hv, ?Hl. Qed.

(** A step that concerns key [k] only. *)
Record same_lib (k : string) (ls ls' : Libstore.libstore) : Prop := {
  sl_servers : Libstore.Servers ls' = Libstore.Servers ls;
  sl_hostport : Libstore.myHostPort ls' = Libstore.myHostPort ls;
  sl_values : forall k', k' <> k -> Libstore.keyValue ls' !! k' = Libstore.keyValue ls !! k';
  sl_lists : forall k', k' <> k -> Libstore.keylist ls' !! k' = Libstore.keylist ls !! k' }.

Record same_server (k : string) (ss ss' : StorageServer.storageServer) : Prop := {
  ss_status : StorageServer.status ss' = StorageServer.status ss;
  ss_ring : StorageServer.serversList ss' = StorageServer.serversList ss;
  ss_node : StorageServer.nodeID ss' = StorageServer.nodeID ss;
  ss_locked : StorageServer.clientCacheLocked ss' = StorageServer.clientCacheLocked ss;
  ss_values : forall k', k' <> k ->
    StorageServer.keyValueStore ss' !! k' = StorageServer.keyValueStore ss !! k';
  ss_lists : forall k', k' <> k ->
    StorageServer.keyListStore ss' !! k' = StorageServer.keyListStore ss !! k' }.

#[export] Instance same_lib_preorder k : PreOrder (same_lib k).
Proof.
  split; [by intros ls; split|]. intros l1 l2 l3 [A1 A2 A3 A4] [B1 B2 B3 B4].
  split; try congruence; intros k' Hk; rewrite ?B3, ?B4 by done; auto.
Qed.

#[export] Instance same_server_refl k : Reflexive (same_server k).
Proof. by intros ss; split. Qed.

Section frames.
Context (k k' : string) (Hk : k' <> k).

Lemma same_lib_cached ls ls' :
  same_lib k ls ls' -> Lease.cached (Leasable := kind k') k' ls' = Lease.cached (Leasable := kind k') k' ls.
Proof. intros [_ _ Hv Hl]. unfold kind. destruct (list_key k'); cbn; [by rewrite Hl|by rewrite Hv]. Qed.

Lemma same_lib_pure ls ls' : same_lib k ls ls' -> pure k' ls -> pure k' ls'.
Proof. intros [_ _ Hv Hl]. unfold pure. destruct (list_key k'); [by rewrite Hv|by rewrite Hl]. Qed.

Lemma same_server_kept ss ss' :
  same_server k ss ss' -> Lease.kept (Leasable := kind k') k' ss' = Lease.kept (Leasable := kind k') k' ss.
Proof. intros [_ _ _ _ Hv Hl]. unfold kind. destruct (list_key k'); cbn; [by rewrite Hl|by rewrite Hv]. Qed.
End frames.

(** ** Reads and writes of one key *)

(** What a read gives when the key is not stored: an error, or no elements. *)
Definition absent (k : string) : Lease.item (Leasable := kind k) + string :=
  match list_key k as b return Lease.item (Leasable := if b then Lease.list_leases else Lease.value_leases) + string with
  | true => inl []
  | false => inr noValue
  end.

(** [Get] and [GetList] have one shape. *)
Definition lread `{Lease.Leasable} (dial : string -> bool) (call : string -> GetArgs -> option Lease.reply)
    (t : Time) (k : string) (ls : Libstore.libstore) : outcome (Libstore.libstore * (Lease.item + string)) :=
  match Lease.read_begin t k ls with
  | (ls, inl v) => Ret (ls, inl v)
  | (ls, inr args) =>
      server ← Libstore.Findshashring k ls;
      match Libstore.connect dial server ls with
      | inr e => Ret (ls, inr e)
      | inl ls => Ret (Lease.read_finish t k (call server args) ls)
      end
  end.

(** The case distinction on the kind of [k]. *)
Ltac by_kind k := unfold kind, pure, absent in *; destruct (list_key k); cbn in *.

Lemma begin_frame k t ls ls' r :
  Lease.read_begin (Leasable := kind k) t k ls = (ls', r) ->
  same_lib k ls ls' /\ (pure k ls -> pure k ls') /\
  forall args, r = inr args -> exists want, args = mkGetArgs k want (Libstore.myHostPort ls).
Proof.
  by_kind k; [rewrite Libstore.GetList_begin_alt|rewrite Libstore.Get_begin_alt]; cbn zeta; unfold Libstore.look;
    [destruct (Libstore.keylist ls !! k) as [v|]; [destruct (Libstore.expired t _)|]
    |destruct (Libstore.keyValue ls !! k) as [v|]; [destruct (Libstore.expired t _)|]];
    cbn [fst snd]; intros [= <- <-]; (split; [split; cbn; try done; intros; by rewrite lookup_delete_ne|]);
    (split; [done|]); intros args [= <-]; by eexists.
Qed.

Lemma finish_frame k t r ls :
  let ls' := (Lease.read_finish (Leasable := kind k) t k r ls).1 in
  same_lib k ls ls' /\ (pure k ls -> pure k ls').
Proof.
  by_kind k.
  - unfold Libstore.GetList_finish. destruct r as [r|]; [|done]. destruct (gl_Status r =? OK).
    + destruct (Granted (gl_Lease r)); [|done]. split; [|done]. split; cbn; try done.
      intros. by rewrite lookup_insert_ne.
    + by destruct (gl_Status r =? KeyNotFound).
  - unfold Libstore.Get_finish. destruct r as [r|]; [|done]. destruct (gr_Status r =? OK); [|done].
    destruct (Granted (gr_Lease r)); [|done]. split; [|done]. split; cbn; try done.
    intros. by rewrite lookup_insert_ne.
Qed.

Lemma finish_result k t r ls :
  let res := (Lease.read_finish (Leasable := kind k) t k (Some r) ls).2 in
  (Lease.rep_Status r = OK -> res = inl (Lease.rep_Item r)) /\
  (Lease.rep_Status r = KeyNotFound -> res = absent k).
Proof.
  by_kind k; unfold Libstore.GetList_finish, Libstore.Get_finish; split; intros ->; done.
Qed.

(** What a server does to a key it is responsible for. *)
Definition data_at (k : string) (ss : StorageServer.storageServer) : option (Lease.item (Leasable := kind k)) :=
  fst <$> Lease.kept (Leasable := kind k) k ss.

Lemma serve_total k t want h ss :
  StorageServer.serves k ss -> exists ss' r,
    Lease.serve (Leasable := kind k) t (mkGetArgs k want h) ss = Ret (ss', r) /\
    same_server k ss ss' /\ (StorageServer.sets ss -> StorageServer.sets ss') /\
    data_at k ss' = data_at k ss /\
    match data_at k ss with
    | Some x => Lease.rep_Status r = OK /\ Lease.rep_Item r = x
    | None => Lease.rep_Status r = KeyNotFound
    end.
Proof.
  intros Hs. pose proof Hs as [Hst Hr]. unfold data_at. by_kind k.
  - destruct (StorageServer.GetList_spec t k want h ss Hs) as (ss' & l & Hd & E). do 2 eexists. split; [exact E|].
    assert (Hk : fst <$> Lease.kept (Leasable := Lease.list_leases) k ss' =
                 fst <$> Lease.kept (Leasable := Lease.list_leases) k ss).
    { cbn. pose proof (f_equal (lookup k) (proj2 Hd)) as Hl. rewrite !StorageServer.lists_lookup in Hl.
      rewrite <- !option_fmap_compose. exact Hl. }
    split_and!; [|intros Hsets k' l'; rewrite (proj2 Hd); apply Hsets|exact Hk|].
    + unfold StorageServer.GetList, StorageServer.checkServerIsReady in E. rewrite Hst in E.
      cbn -[StorageServer.checkIsRightServer StorageServer.grantLeaseIfNecessary] in E. rewrite Hr in E.
      cbn -[StorageServer.grantLeaseIfNecessary] in E.
      destruct (StorageServer.keyListStore ss !! k); [|by injection E as <- _].
      destruct want; [|by injection E as <- _]. destruct (StorageServer.grantLeaseIfNecessary _ _ _).
      injection E as <- _. split; cbn; try done. intros. by rewrite lookup_insert_ne.
    + rewrite StorageServer.lists_lookup. by destruct (StorageServer.keyListStore ss !! k).
  - destruct (StorageServer.Get_spec t k want h ss Hs) as (ss' & l & Hd & E). do 2 eexists. split; [exact E|].
    assert (Hk : fst <$> Lease.kept (Leasable := Lease.value_leases) k ss' =
                 fst <$> Lease.kept (Leasable := Lease.value_leases) k ss).
    { cbn. pose proof (f_equal (lookup k) (proj1 Hd)) as Hl. rewrite !StorageServer.values_lookup in Hl.
      rewrite <- !option_fmap_compose. exact Hl. }
    split_and!; [|intros Hsets k' l'; rewrite (proj2 Hd); apply Hsets|exact Hk|].
    + unfold StorageServer.Get, StorageServer.checkServerIsReady in E. rewrite Hst in E.
      cbn -[StorageServer.checkIsRightServer StorageServer.grantLeaseIfNecessary] in E. rewrite Hr in E.
      cbn -[StorageServer.grantLeaseIfNecessary] in E.
      destruct (StorageServer.keyValueStore ss !! k); [|by injection E as <- _].
      destruct want; [|by injection E as <- _]. destruct (StorageServer.grantLeaseIfNecessary _ _ _).
      injection E as <- _. split; cbn; try done. intros. by rewrite lookup_insert_ne.
    + rewrite StorageServer.values_lookup. by destruct (StorageServer.keyValueStore ss !! k).
Qed.

(** ** The ring *)

Section ring.
Context (ring : list Node) (n0 : Node) (Hring : head ring = Some n0).
Context (hosts : gset string) (me : string) (Hme : me ∈ hosts).

Definition homeNode (k : string) : Node :=
  default n0 (Libstore.firstNode (StoreHash (partitionKey k)) ring).
Definition home (k : string) : string := HostPort (homeNode k).

Lemma homeNode_in k : homeNode k ∈ ring.
Proof.
  unfold homeNode. destruct (Libstore.firstNode _ ring) as [n|] eqn:E; [by eapply Libstore.firstNode_elem|].
  destruct ring; [done|]. injection Hring as ->. by left.
Qed.

Lemma find_home k ls : Libstore.Servers ls = ring -> Libstore.Findshashring k ls = Ret (home k).
Proof.
  intros E. unfold Libstore.Findshashring, home, homeNode. rewrite E, Hring.
  by destruct (Libstore.firstNode _ ring).
Qed.

(** A storage server of the ring. *)
Record server_ok (n : Node) (ss : StorageServer.storageServer) : Prop := {
  so_status : StorageServer.status ss = OK;
  so_ring : StorageServer.serversList ss = ring;
  so_node : StorageServer.nodeID ss = NodeID n;
  so_unlocked : StorageServer.clientCacheLocked ss = ∅;
  so_sets : StorageServer.sets ss }.

Lemma home_serves k ss : server_ok (homeNode k) ss -> StorageServer.serves k ss.
Proof.
  intros [Hs Hl Hn _ _]. split; [done|]. unfold StorageServer.checkIsRightServer.
  rewrite Hl, Hring, Hn. cbn [deref mbind outcome_bind]. rewrite Libstore.firstNode_belongs.
  unfold homeNode. destruct (Libstore.firstNode _ ring); cbn; by rewrite Z.eqb_refl.
Qed.

Lemma server_ok_step k n ss ss' :
  same_server k ss ss' -> (StorageServer.sets ss -> StorageServer.sets ss') -> server_ok n ss -> server_ok n ss'.
Proof. intros [] Hsets []. split; try congruence. auto. Qed.

(** The unexpired lease on [k] that backs what host [h] has cached. *)
Definition backed (w : cluster) (h k : string) (x : Lease.item (Leasable := kind k)) (t : Time) : Prop :=
  exists ss g l, servers w !! home k = Some ss /\ Lease.kept (Leasable := kind k) k ss = Some (x, g) /\
    g !! h = Some l /\ t < StorageServer.validUntil l.

Definition coherent (w : cluster) (k : string) : Prop :=
  forall h ls, libs w !! h = Some ls -> pure k ls /\
    forall x l, Lease.cached (Leasable := kind k) k ls = Some (x, l) -> now w <= Libstore.validUntil l ->
      backed w h k x (Libstore.validUntil l).

(** The system is up, with the libstores [hosts] at least. *)
Record ready (w : cluster) : Prop := {
  re_hosts : hosts ⊆ dom (libs w);
  re_clock : forall i j, (i <= j)%nat -> clock w i <= clock w j;
  re_libs : forall h ls, libs w !! h = Some ls -> Libstore.Servers ls = ring /\ Libstore.myHostPort ls = h;
  re_servers : forall n, n ∈ ring -> exists ss, servers w !! HostPort n = Some ss /\ server_ok n ss;
  re_coherent : forall k, coherent w k }.

Lemma re_me w : ready w -> exists ls, libs w !! me = Some ls.
Proof. intros Hr. pose proof (re_hosts _ Hr me Hme) as Hd. by apply elem_of_dom in Hd as [ls ?]; exists ls. Qed.

Definition homeServer (w : cluster) (k : string) : StorageServer.storageServer :=
  default (StorageServer.two) (servers w !! home k).

Definition dataOf (w : cluster) (k : string) : option (Lease.item (Leasable := kind k)) :=
  data_at k (homeServer w k).

(** A step that concerns key [k] only. *)
Record stepped (k : string) (w w' : cluster) : Prop := {
  st_dom : forall h, is_Some (libs w !! h) -> is_Some (libs w' !! h);
  st_clock : clock w' = clock w /\ (ticks w <= ticks w')%nat;
  st_libs : forall h ls', libs w' !! h = Some ls' -> exists ls, libs w !! h = Some ls /\ same_lib k ls ls';
  st_servers : forall host ss, servers w !! host = Some ss ->
    exists ss', servers w' !! host = Some ss' /\ same_server k ss ss' /\
      (StorageServer.sets ss -> StorageServer.sets ss') }.

Section step.
Context (k : string) (w w' : cluster) (Hst : stepped k w w').

Lemma stepped_now : (forall i j, (i <= j)%nat -> clock w i <= clock w j) -> now w <= now w'.
Proof. intros Hc. destruct (st_clock _ _ _ Hst) as [E Ht]. unfold now. rewrite E. by apply Hc. Qed.

Lemma stepped_home k' : ready w -> exists ss ss', servers w !! home k' = Some ss /\
  servers w' !! home k' = Some ss' /\ server_ok (homeNode k') ss /\ same_server k ss ss'.
Proof.
  intros Hr. destruct (re_servers _ Hr (homeNode k') (homeNode_in k')) as (ss & Hss & Hok).
  destruct (st_servers _ _ _ Hst _ _ Hss) as (ss' & Hss' & Hs & _). by exists ss, ss'.
Qed.

Lemma stepped_data k' : ready w -> k' <> k -> dataOf w' k' = dataOf w k'.
Proof.
  intros Hr Hk. destruct (stepped_home k' Hr) as (ss & ss' & E & E' & _ & Hs).
  unfold dataOf, homeServer, data_at. rewrite E, E'. cbn [default from_option id].
  by rewrite (same_server_kept k k' Hk ss ss' Hs).
Qed.

Lemma stepped_ready : ready w -> coherent w' k -> ready w'.
Proof.
  intros Hr Hk. pose proof Hr as [Hh Hc Hl Hs Hco]. split.
  - intros h Hin. apply elem_of_dom, (st_dom _ _ _ Hst), elem_of_dom. by apply Hh.
  - by rewrite (proj1 (st_clock _ _ _ Hst)).
  - intros h ls' Hls'. destruct (st_libs _ _ _ Hst h ls' Hls') as (ls & Hls & [E1 E2 _ _]).
    rewrite E1, E2. by apply Hl.
  - intros n Hn. destruct (Hs n Hn) as (ss & Hss & Hok).
    destruct (st_servers _ _ _ Hst _ _ Hss) as (ss' & Hss' & Hsm & Hsets).
    exists ss'. split; [done|]. by eapply server_ok_step.
  - intros k'. destruct (decide (k' = k)) as [->|Hne]; [done|]. intros h ls' Hls'.
    destruct (st_libs _ _ _ Hst h ls' Hls') as (ls & Hls & Hsl).
    destruct (Hco k' h ls Hls) as [Hp Hb]. split; [by apply (same_lib_pure k k' Hne ls)|].
    intros x l. rewrite (same_lib_cached k k' Hne ls ls' Hsl). intros Hx Ht.
    destruct (Hb x l Hx) as (ss & g & l' & Hss & Hkp & Hg & Hu); [pose proof (stepped_now Hc); lia|].
    destruct (stepped_home k' Hr) as (ss0 & ss' & E & E' & _ & Hsm). rewrite Hss in E. injection E as <-.
    exists ss', g, l'. split; [done|]. by rewrite (same_server_kept k k' Hne ss ss' Hsm).
Qed.
End step.

(** What is cached afterwards was cached before, or is backed by a lease. *)
Lemma coherent_step k w w' : ready w -> stepped k w w' ->
  (forall h x t, backed w h k x t -> backed w' h k x t) ->
  (forall h ls', libs w' !! h = Some ls' -> exists ls, libs w !! h = Some ls /\ (pure k ls -> pure k ls' /\
     forall x l, Lease.cached (Leasable := kind k) k ls' = Some (x, l) ->
       Lease.cached (Leasable := kind k) k ls = Some (x, l) \/ backed w' h k x (Libstore.validUntil l))) ->
  coherent w' k.
Proof.
  intros Hr Hst Hold Hl h ls' Hls'. destruct (Hl h ls' Hls') as (ls & Hls & Hp).
  destruct (re_coherent _ Hr k h ls Hls) as [Hp0 Hb]. destruct (Hp Hp0) as [? Hc]. split; [done|].
  intros x l Hx Ht. destruct (Hc x l Hx) as [Hx0|?]; [|done]. apply Hold, Hb; [done|].
  pose proof (stepped_now k w w' Hst (re_clock _ Hr)). lia.
Qed.

(** ** Reads *)

Section read.
Context (k : string) (w : cluster) (Hr : ready w) (ls ls1 : Libstore.libstore).
Context (Hls : libs w !! me = Some ls).

(** What [read] returns, and with it the world. *)
Definition read_result : Lease.item (Leasable := kind k) + string :=
  match dataOf w k with Some x => inl x | None => absent k end.

(** A turn of the libstore alone, that caches nothing new. *)
Lemma lib_turn ls2 :
  same_lib k ls ls2 -> (pure k ls -> pure k ls2) ->
  (forall e, Lease.cached (Leasable := kind k) k ls2 = Some e -> Lease.cached (Leasable := kind k) k ls = Some e) ->
  let w' := w <| libs := <[me := ls2]> (libs w) |> <| ticks := S (ticks w) |> in
  ready w' /\ forall k', dataOf w' k' = dataOf w k'.
Proof.
  intros Hf Hp2 Hkeep w'. split; [|done].
  assert (Hst : stepped k w w').
  { split; cbn; [intros; by apply lookup_insert_is_Some'; auto|split; [done|lia]| |intros host s Hs; by exists s].
    intros h l0 [[<- <-]|[? ?]]%lookup_insert_Some; eauto. exists l0. by split. }
  apply (stepped_ready k w w' Hst Hr), (coherent_step k w w' Hr Hst); [done|].
  intros h l0. cbn. intros [[<- <-]|[? ?]]%lookup_insert_Some; [|exists l0; by auto].
  exists ls. split; [done|]. intros Hp. split; [by apply Hp2|]. intros y ly Hy. left. by apply Hkeep.
Qed.

Lemma read_hit x :
  Lease.read_begin (Leasable := kind k) (now w) k ls = (ls1, inl x) -> dataOf w k = Some x.
Proof.
  intros Eb. destruct (Lease.begin_hit (H := kind k) _ _ _ _ _ Eb) as (l & Hx & Ht).
  destruct (re_coherent _ Hr k me ls Hls) as [_ Hb]. destruct (Hb x l Hx Ht) as (ss0 & g & l' & Hss0 & Hkp & _).
  unfold dataOf, homeServer, data_at. rewrite Hss0. cbn [default from_option id]. by rewrite Hkp.
Qed.

(** A read that the server has handled, whether its reply arrives or not. *)
Lemma read_miss want ss ss' rep ans ls2 :
  ans = Some rep \/ ans = None ->
  servers w !! home k = Some ss -> data_at k ss' = data_at k ss -> same_server k ss ss' ->
  (StorageServer.sets ss -> StorageServer.sets ss') ->
  Lease.serve (Leasable := kind k) (now w) (mkGetArgs k want me) ss = Ret (ss', rep) ->
  same_lib k ls ls2 -> (pure k ls -> pure k ls2) ->
  (forall e, Lease.cached (Leasable := kind k) k ls2 = Some e -> Lease.cached (Leasable := kind k) k ls = Some e) ->
  let w' := w <| servers := <[home k := ss']> (servers w) |>
    <| libs := <[me := (Lease.read_finish (Leasable := kind k) (now w) k ans ls2).1]> (libs w) |>
    <| ticks := S (ticks w) |> in
  ready w' /\ forall k', dataOf w' k' = dataOf w k'.
Proof.
  intros Hans Hss Hd Hsame Hsets Hserve Hf Hp2 Hkeep w'.
  destruct (finish_frame k (now w) ans ls2) as [Hff Hpf].
  destruct (Lease.serve_law (H := kind k) _ _ _ _ _ _ _ Hserve) as (Hleases & _ & Hgrant).
  assert (Hst : stepped k w w').
  { split; cbn; [intros; by apply lookup_insert_is_Some'; auto|split; [done|lia]| |].
    - intros h l0 [[<- <-]|[? ?]]%lookup_insert_Some; [|exists l0; by split].
      exists ls. split; [done|]. by etrans.
    - intros host s Hs. destruct (decide (host = home k)) as [->|Hne].
      + rewrite Hss in Hs. injection Hs as <-. exists ss'. by rewrite lookup_insert_eq.
      + exists s. by rewrite lookup_insert_ne. }
  assert (Hss' : servers w' !! home k = Some ss') by (cbn; by rewrite lookup_insert_eq). split.
  - apply (stepped_ready k w w' Hst Hr), (coherent_step k w w' Hr Hst).
    + intros h x t (ss0 & g & l & E & Hkp & Hg & Hu). rewrite Hss in E. injection E as <-.
      destruct (Hleases x g h l Hkp Hg) as (g' & l' & ? & ? & ?). exists ss', g', l'. split_and!; try done. lia.
    + intros h l0. cbn. intros [[<- <-]|[? ?]]%lookup_insert_Some; [|exists l0; by auto].
      exists ls. split; [done|]. intros Hp. split; [by apply Hpf, Hp2|]. intros y ly Hy.
      apply (Lease.finish_entry (H := kind k)) in Hy as [Hy|(rep0 & Er & Hst0 & Hgr & -> & ->)]; [left; auto|].
      right. destruct Hans as [->| ->]; [injection Er as <-|done]. destruct (Hgrant Hst0 Hgr) as (g' & l' & ? & ? & ?). by exists ss', g', l'.
  - intros k'. destruct (decide (k' = k)) as [->|Hne]; [|by apply (stepped_data k w w')].
    unfold dataOf, homeServer. rewrite Hss, Hss'. exact Hd.
Qed.
End read.

(** Connecting changes the connections only. *)
Lemma connect_cases f host ls :
  (exists c, Libstore.connect (dials f) host ls = inl (ls <| Libstore.clientmap := c |>)) \/
  f = NoDial /\ exists e, Libstore.connect (dials f) host ls = inr e.
Proof.
  unfold Libstore.connect, dials. destruct (bool_decide (host ∈ _)).
  - left. exists (Libstore.clientmap ls). by destruct ls.
  - destruct (bool_decide (f = NoDial)) eqn:E; breflect; [right; by eauto|left; by eexists].
Qed.

(** A failed call leaves everything but the libstore's own bookkeeping. *)
Lemma finish_None k t ls :
  (Lease.read_finish (Leasable := kind k) t k None ls).1 = ls /\
  exists e, (Lease.read_finish (Leasable := kind k) t k None ls).2 = inr e.
Proof. by_kind k; by eauto. Qed.

(** A read gives the right answer, or an error when its call did not get
    through; the data stay. *)
Lemma read_ready k w :
  ready w -> exists w' r,
    read me (Lease.serve (Leasable := kind k)) (Lease.read_begin (Leasable := kind k))
      (lread (H := kind k)) k w = (w', r) /\
    ready w' /\ (forall k', dataOf w' k' = dataOf w k') /\ onward w w' /\
    (r = read_result k w \/ next w <> Delivered /\ exists e, r = inr e).
Proof.
  intros Hr. destruct (re_me _ Hr) as [ls Hls]. destruct (re_libs _ Hr me ls Hls) as [Hsv Hhp].
  unfold read, read_result. rewrite Hls. unfold lread.
  destruct (Lease.read_begin (Leasable := kind k) (now w) k ls) as [ls1 [x|args]] eqn:Eb;
    destruct (begin_frame k _ _ _ _ Eb) as (Hf & Hp1 & Hreq);
    destruct (Lease.begin_entry (H := kind k) _ _ _ _ _ Eb) as [Hkeep _].
  { rewrite (read_hit k w Hr ls ls1 Hls x Eb). destruct (lib_turn k w Hr ls Hls ls1 Hf Hp1 Hkeep) as [? ?].
    do 2 eexists. split; [done|]. split_and!; auto. }
  destruct (Hreq args eq_refl) as (want & ->).
  rewrite Hhp, (find_home k ls1) by (by rewrite (sl_servers _ _ _ Hf)). cbn [mbind outcome_bind snd].
  unfold host_of. rewrite (find_home k ls Hsv).
  destruct (re_servers _ Hr (homeNode k) (homeNode_in k)) as (ss & Hss & Hok). fold (home k) in Hss.
  destruct (serve_total k (now w) want me ss (home_serves k ss Hok)) as (ss' & rep & Hserve & Hsame & Hsets & Hd & Hrep).
  unfold call_read, served. rewrite Hss. cbn [mbind option_bind]. rewrite Hserve.
  destruct (connect_cases (next w) (home k) ls1) as [[c ->]|(Hno & e & ->)].
  2: { unfold arrives. rewrite Hno, bool_decide_false by naive_solver.
       destruct (lib_turn k w Hr ls Hls ls1 Hf Hp1 Hkeep) as [? ?].
       do 2 eexists. split; [done|]. split_and!; [auto..|]. right. by eauto. }
  set (ls2 := ls1 <| Libstore.clientmap := c |>).
  assert (Hf2 : same_lib k ls ls2) by (etrans; [exact Hf|by split]).
  assert (Hkeep2 : forall e, Lease.cached (Leasable := kind k) k ls2 = Some e ->
    Lease.cached (Leasable := kind k) k ls = Some e).
  { intros e He. apply Hkeep. revert He. clear. by_kind k; done. }
  destruct (arrives (next w)) eqn:Ea.
  - destruct (read_miss k w Hr ls Hls want ss ss' rep (if answered (next w) then Some rep else None) ls2) as [Hr' Hd'];
      try done; [by destruct (answered _); auto|].
    destruct (finish_result k (now w) rep ls2) as [Hok1 Hok2]. destruct (finish_None k (now w) ls2) as [_ Hnone].
    unfold answered in *. destruct (bool_decide (next w = Delivered)) eqn:En; breflect.
    + destruct (Lease.read_finish (now w) k (Some rep) ls2) as [ls3 res]. cbn [fst snd] in *.
      do 2 eexists. split; [done|]. split_and!; [exact Hr'|exact Hd'|auto|]. left.
      replace (dataOf w k) with (data_at k ss) by (unfold dataOf, homeServer; by rewrite Hss).
      destruct (data_at k ss) as [x|]; [destruct Hrep as [E <-]; auto|auto].
    + destruct (Lease.read_finish (now w) k None ls2) as [ls3 res]. cbn [fst snd] in *.
      do 2 eexists. split; [done|]. split_and!; [exact Hr'|exact Hd'|auto|]. by right.
  - unfold answered. rewrite bool_decide_false; [|intros E; by rewrite E in Ea].
    destruct (finish_None k (now w) ls2) as [E1 E2]. destruct (Lease.read_finish (now w) k None ls2) as [ls3 res].
    cbn [fst snd] in *. subst ls3. destruct (lib_turn k w Hr ls Hls ls2 Hf2 Hp1 Hkeep2) as [? ?].
    do 2 eexists. split; [done|]. split_and!; [auto..|]. right. split; [|done]. intros E. by rewrite E in Ea.
Qed.

(** ** Writes *)

(** What a write of [k] at time [t] does to its server: it touches only [k], and
    calls back whoever holds an unexpired lease. *)
Record write_law (k : string) (t : Time) (ss : StorageServer.storageServer)
    (ss' : StorageServer.storageServer) (called : list string) : Prop := {
  wl_same : same_server k ss ss';
  wl_sets : StorageServer.sets ss -> StorageServer.sets ss';
  wl_called : forall x g h l, Lease.kept (Leasable := kind k) k ss = Some (x, g) -> g !! h = Some l ->
    t < StorageServer.validUntil l -> h ∈ called }.

(** What a write of the libstore does before it calls. *)
Record quiet (ls ls' : Libstore.libstore) : Prop := {
  qu_servers : Libstore.Servers ls' = Libstore.Servers ls;
  qu_hostport : Libstore.myHostPort ls' = Libstore.myHostPort ls;
  qu_values : Libstore.keyValue ls' = Libstore.keyValue ls;
  qu_lists : Libstore.keylist ls' = Libstore.keylist ls }.

Lemma quiet_pure k ls ls' : quiet ls ls' -> pure k ls -> pure k ls'.
Proof. intros [_ _ E1 E2]. unfold pure. by rewrite E1, E2. Qed.

Lemma quiet_cached k ls ls' :
  quiet ls ls' -> Lease.cached (Leasable := kind k) k ls' = Lease.cached (Leasable := kind k) k ls.
Proof. intros [_ _ E1 E2]. by_kind k; by rewrite ?E1, ?E2. Qed.

Lemma revoke_frame k ls :
  let ls' := (Libstore.RevokeLease (mkRevokeLeaseArgs k) ls).1 in
  same_lib k ls ls' /\ (pure k ls -> pure k ls').
Proof.
  cbn zeta. unfold Libstore.RevokeLease. cbn [rl_Key].
  destruct (Libstore.keyValue ls !! k) eqn:Ev, (Libstore.keylist ls !! k) eqn:El; cbn;
    (split; [split; cbn; try done; intros; by rewrite lookup_delete_ne|]);
    unfold pure; destruct (list_key k); cbn; rewrite ?lookup_delete_eq; done.
Qed.

Lemma revoked_spec k called m : forall h ls', revoked k called m !! h = Some ls' ->
  exists ls, m !! h = Some ls /\ same_lib k ls ls' /\
    (pure k ls -> pure k ls' /\ forall e, Lease.cached (Leasable := kind k) k ls' = Some e ->
       Lease.cached (Leasable := kind k) k ls = Some e /\ h ∉ called).
Proof.
  induction called as [|c called IH]; intros h ls'; cbn.
  - intros Hl. exists ls'. split; [done|]. split; [done|]. intros Hp. split; [done|]. intros e He.
    split; [done|apply not_elem_of_nil].
  - rewrite lookup_alter_Some. intros [(-> & ls1 & Hls1 & ->)|[Hne Hls1]].
    + destruct (IH h ls1 Hls1) as (ls & Hls & Hs & Hp). exists ls. split; [done|].
      destruct (revoke_frame k ls1) as [Hf Hfp]. split; [by etrans|]. intros Hpure.
      destruct (Hp Hpure) as [Hp1 _]. split; [by apply Hfp|]. intros e.
      by rewrite (proj1 (Lease.revoke_entry (H := kind k) k ls1 (pure_apart k ls1 Hp1))).
    + destruct (IH h ls' Hls1) as (ls & Hls & Hs & Hp). exists ls. split; [done|]. split; [done|].
      intros Hpure. destruct (Hp Hpure) as [Hp1 Hc]. split; [done|]. intros e He.
      destruct (Hc e He) as [? ?]. split; [done|]. apply not_elem_of_cons. split; [congruence|done].
Qed.

Lemma revoked_is_Some k called m h : is_Some (m !! h) -> is_Some (revoked k called m !! h).
Proof.
  intros Hm. induction called as [|c called IH]; [done|]. cbn.
  destruct (decide (c = h)) as [->|Hne]; [rewrite lookup_alter_eq|by rewrite lookup_alter_ne].
  by rewrite fmap_is_Some.
Qed.

(** What a write leaves behind. *)
Lemma written_ready k w ls ls1 ss ss' called :
  ready w -> libs w !! me = Some ls -> quiet ls ls1 -> servers w !! home k = Some ss ->
  write_law k (now w) ss ss' called ->
  let w' := mkCluster (<[home k := ss']> (servers w)) (revoked k called (<[me := ls1]> (libs w)))
              (clock w) (fates w) (S (ticks w)) in
  ready w' /\ dataOf w' k = data_at k ss' /\ forall k', k' <> k -> dataOf w' k' = dataOf w k'.
Proof.
  intros Hr Hls Hq Hss [Hsame Hsets Hcalled] w'.
  assert (Hlibs : forall h l', libs w' !! h = Some l' -> exists l, libs w !! h = Some l /\ same_lib k l l' /\
    (pure k l -> pure k l' /\ forall e, Lease.cached (Leasable := kind k) k l' = Some e ->
       Lease.cached (Leasable := kind k) k l = Some e /\ h ∉ called)).
  { intros h l' Hl'. apply revoked_spec in Hl' as (l & Hl & Hsl & Hp).
    apply lookup_insert_Some in Hl as [[<- <-]|[Hne Hl]]; [|by exists l].
    exists ls. split; [done|]. split; [etrans; [|exact Hsl]; by destruct Hq; split; intros; congruence|].
    intros Hpl. destruct (Hp (quiet_pure k _ _ Hq Hpl)) as [? Hc]. split; [done|].
    intros e He. destruct (Hc e He) as [Hce ?]. by rewrite (quiet_cached k ls ls1 Hq) in Hce. }
  assert (Hst : stepped k w w').
  { split; cbn.
    - intros h Hh. apply revoked_is_Some, lookup_insert_is_Some'. auto.
    - split; [done|lia].
    - intros h l' Hl'. destruct (Hlibs h l' Hl') as (l & ? & ? & _). by exists l.
    - intros host s Hs. destruct (decide (host = home k)) as [->|Hne].
      + rewrite Hss in Hs. injection Hs as <-. exists ss'. by rewrite lookup_insert_eq.
      + exists s. by rewrite lookup_insert_ne. }
  assert (Hnow : now w <= now w') by (apply (stepped_now k w w' Hst), Hr).
  split; [|split].
  - apply (stepped_ready k w w' Hst Hr). intros h l' Hl'.
    destruct (Hlibs h l' Hl') as (l & Hl & _ & Hp). destruct (re_coherent _ Hr k h l Hl) as [Hpl Hb].
    destruct (Hp Hpl) as [? Hc]. split; [done|]. intros x y Hx Hy.
    destruct (Hc _ Hx) as [Hx0 Hno]. exfalso. apply Hno.
    destruct (Hb x y Hx0) as (ss0 & g & l0 & E & Hkp & Hg & Hu); [exact (Z.le_trans _ (now w') _ Hnow Hy)|].
    rewrite Hss in E. injection E as <-. eapply Hcalled; [exact Hkp|exact Hg|].
    pose proof (Z.le_trans _ (now w') _ Hnow Hy). lia.
  - unfold dataOf, homeServer. cbn. by rewrite lookup_insert_eq.
  - intros k' Hne. by apply (stepped_data k w w').
Qed.

(** A write takes effect and says so; or its call did not get through, and it
    gives an error, with or without effect. *)
Lemma write_ready k v w op lwrite ls ls0 e1 e2 ss ss' called st :
  ready w -> libs w !! me = Some ls ->
  (forall dial call, lwrite dial call k v ls = Libstore.callWrite dial call k v e1 e2 ls0) -> quiet ls ls0 ->
  servers w !! home k = Some ss ->
  op (now w) (mkPutArgs k v) ss = Ret (ss', called, inl (mkPutReply st)) ->
  write_law k (now w) ss ss' called ->
  exists w' r, write me op lwrite k v w = (w', r) /\ ready w' /\ onward w w' /\
    (dataOf w' k = data_at k ss' /\ (forall k', k' <> k -> dataOf w' k' = dataOf w k') /\
       (r = (if st =? OK then None else Some e2) \/ next w <> Delivered /\ is_Some r) \/
     (forall k', dataOf w' k' = dataOf w k') /\ next w <> Delivered /\ is_Some r).
Proof.
  intros Hr Hls Hlw Hq Hss Hop Hlaw.
  destruct (re_libs _ Hr me ls Hls) as [Hsv Hhp]. unfold write. rewrite Hls, Hlw. unfold Libstore.callWrite.
  rewrite (find_home k ls0) by (by rewrite (qu_servers _ _ Hq)). cbn [mbind outcome_bind].
  assert (Hidle : forall ls1, quiet ls ls1 ->
    let w' := w <| libs := <[me := ls1]> (libs w) |> <| ticks := S (ticks w) |> in
    ready w' /\ forall k', dataOf w' k' = dataOf w k').
  { intros ls1 Hq1. apply (lib_turn k w Hr ls Hls ls1).
    - destruct Hq1. split; intros; congruence.
    - by apply quiet_pure.
    - intros e. by rewrite (quiet_cached k ls ls1 Hq1). }
  unfold written. change (next (w <| libs := ?l |>)) with (next w).
  destruct (connect_cases (next w) (home k) ls0) as [[c ->]|(Hno & e & ->)].
  2: { unfold arrives. rewrite Hno, bool_decide_false by naive_solver. destruct (Hidle ls0 Hq) as [? ?].
       do 2 eexists. split; [done|]. split_and!; [auto..|]. right. split_and!; [done|congruence|by eexists]. }
  set (ls1 := ls0 <| Libstore.clientmap := c |>).
  assert (Hq1 : quiet ls ls1) by (destruct Hq; by split).
  unfold call_write, host_of. rewrite (find_home k ls Hsv), Hss. cbn [mbind option_bind servers libs].
  destruct (arrives (next w)) eqn:Ea.
  - assert (Hss1 : servers (w <| libs := <[me := ls1]> (libs w) |>) !! home k = Some ss) by exact Hss.
    rewrite Hss1, Hop. cbn [pr_Status pa_Key].
    destruct (written_ready k w ls ls1 ss ss' called Hr Hls Hq1 Hss Hlaw) as (Hr' & Hd & Ho).
    do 2 eexists. split; [done|]. split_and!; [exact Hr'|auto|]. left. split; [exact Hd|]. split; [exact Ho|].
    unfold answered. destruct (bool_decide (next w = Delivered)) eqn:En; breflect; [by left|right].
    split; [done|by eexists].
  - destruct (Hidle ls1 Hq1) as [? ?]. unfold answered. rewrite bool_decide_false by (intros E; by rewrite E in Ea).
    do 2 eexists. split; [done|]. split_and!; [auto..|]. right. split_and!; [done| |by eexists].
    intros E. by rewrite E in Ea.
Qed.

(** All holders of unexpired leases are called back. *)
Lemma revokeLoop_all t : forall ls called ss,
  StorageServer.clientCacheLocked ss = ∅ ->
  exists c called', StorageServer.revokeLoop dial (fun _ => t) ls called ss =
      Ret (ss <| StorageServer.clientCache := c |>, called', None) /\
    (forall h, h ∈ called -> h ∈ called') /\
    forall h l, (h, l) ∈ ls -> t < StorageServer.validUntil l -> h ∈ called'.
Proof.
  induction ls as [|[h l] ls IH]; intros called ss Hl; cbn [StorageServer.revokeLoop].
  - exists (StorageServer.clientCache ss), called. split; [by destruct ss|]. split; [done|].
    intros h l Hin. by apply not_elem_of_nil in Hin.
  - assert (Hgo : forall ss1 called1, StorageServer.clientCacheLocked ss1 = ∅ ->
      (forall c, ss1 <| StorageServer.clientCache := c |> = ss <| StorageServer.clientCache := c |>) ->
      (forall x, x ∈ called -> x ∈ called1) -> (t < StorageServer.validUntil l -> h ∈ called1) ->
      exists c called', StorageServer.revokeLoop dial (fun _ => t) ls called1 ss1 =
          Ret (ss <| StorageServer.clientCache := c |>, called', None) /\
        (forall x, x ∈ called -> x ∈ called') /\
        forall h' l', (h', l') ∈ (h, l) :: ls -> t < StorageServer.validUntil l' -> h' ∈ called').
    { intros ss1 called1 Hl1 E1 Hsub Hh. destruct (IH called1 ss1 Hl1) as (c & called' & -> & Hs & Ha).
      exists c, called'. rewrite E1. split; [done|]. split; [auto|].
      intros h' l' [[= -> ->]|Hin]%elem_of_cons; [auto|by apply Ha]. }
    destruct (t <? StorageServer.validUntil l) eqn:Et; breflect.
    + rewrite bool_decide_false by (rewrite Hl; set_solver).
      destruct (bool_decide _); [|cbn [dial]]; apply Hgo; try done; intros; apply elem_of_app;
        rewrite ?list_elem_of_singleton; auto.
    + apply Hgo; try done. lia.
Qed.

Lemma revoke_all t g ss :
  StorageServer.clientCacheLocked ss = ∅ ->
  exists c called, StorageServer.revokeGrantedLease dial (fun _ => t) order g ss =
      Ret (ss <| StorageServer.clientCache := c |>, called, None) /\
    forall h l, g !! h = Some l -> t < StorageServer.validUntil l -> h ∈ called.
Proof.
  intros Hl. destruct (revokeLoop_all t (order (map_to_list g)) [] ss Hl) as (c & called & E & _ & Ha).
  exists c, called. split; [exact E|]. intros h l Hg. apply Ha. by apply elem_of_map_to_list.
Qed.

(** ** The laws *)

Definition value_at (k : string) (ss : StorageServer.storageServer) : option string :=
  if list_key k then None else StorageServer.values ss !! k.
Definition list_at (k : string) (ss : StorageServer.storageServer) : list string :=
  if list_key k then default [] (StorageServer.lists ss !! k) else [].

Lemma data_at_same k ss ss' :
  data_at k ss' = data_at k ss -> value_at k ss' = value_at k ss /\ list_at k ss' = list_at k ss.
Proof.
  unfold data_at, value_at, list_at. rewrite !StorageServer.values_lookup, !StorageServer.lists_lookup.
  by_kind k; rewrite <- !option_fmap_compose; intros H; (split; [|]); try done.
  change (default [] (StorageServer.list_ <$> StorageServer.keyListStore ss' !! k) =
          default [] (StorageServer.list_ <$> StorageServer.keyListStore ss !! k)).
  change (StorageServer.list_ <$> StorageServer.keyListStore ss' !! k =
          StorageServer.list_ <$> StorageServer.keyListStore ss !! k) in H.
  by rewrite H.
Qed.

Section one_key.
Context (k v : string) (t : Time) (ss : StorageServer.storageServer).
Context (Hs : StorageServer.serves k ss) (Hl : StorageServer.clientCacheLocked ss = ∅).

Lemma put_law : list_key k = false -> exists ss' called,
  put t (mkPutArgs k v) ss = Ret (ss', called, inl (mkPutReply OK)) /\
  write_law k t ss ss' called /\ value_at k ss' = Some v.
Proof.
  intros Hk. unfold put, StorageServer.Put. rewrite StorageServer.serves_guarded by done. cbn [pa_Key pa_Value].
  assert (Hv : forall c, value_at k (StorageServer.setValue k (StorageServer.mkValueStore v ∅)
      (ss <| StorageServer.clientCache := c |>)) = Some v).
  { intros c. unfold value_at. rewrite Hk, StorageServer.values_lookup. cbn. by rewrite lookup_insert_eq. }
  assert (Hsame : forall c, same_server k ss (StorageServer.setValue k (StorageServer.mkValueStore v ∅)
      (ss <| StorageServer.clientCache := c |>))).
  { intros c. split; cbn; try done. intros. by rewrite lookup_insert_ne. }
  destruct (StorageServer.keyValueStore ss !! k) as [vs|] eqn:E.
  - destruct (revoke_all t (StorageServer.leaseGranted vs) ss Hl) as (c & called & Hr & Hcalled).
    rewrite Hr. cbn [mbind outcome_bind]. do 2 eexists. split; [done|].
    split; [|apply Hv]. split; [apply Hsame|done|].
    unfold kind. rewrite Hk. cbn. rewrite E. intros x g h l [= <- <-]. apply Hcalled.
  - do 2 eexists. split; [done|]. pose proof (Hv (StorageServer.clientCache ss)) as Hv0.
    pose proof (Hsame (StorageServer.clientCache ss)) as Hs0.
    replace (ss <| StorageServer.clientCache := StorageServer.clientCache ss |>) with ss in * by (by destruct ss).
    split; [|done]. split; [done|done|]. unfold kind. rewrite Hk. cbn. by rewrite E.
Qed.

(** Storing a list without leases. *)
Lemma setList_law l c called : list_key k = true -> NoDup l ->
  (forall ls, StorageServer.keyListStore ss !! k = Some ls -> forall h x,
     StorageServer.list_leaseGranted ls !! h = Some x -> t < StorageServer.validUntil x -> h ∈ called) ->
  let ss' := StorageServer.setList k (StorageServer.mkListStore l ∅) (ss <| StorageServer.clientCache := c |>) in
  write_law k t ss ss' called /\ list_at k ss' = l.
Proof.
  intros Hk Hnd Hcalled ss'. split.
  - split.
    + split; cbn; try done. intros. by rewrite lookup_insert_ne.
    + intros Hsets. eapply StorageServer.sets_insert; [exact Hsets| |exact Hnd].
      unfold StorageServer.lists. cbn. by rewrite fmap_insert.
    + unfold kind. rewrite Hk. cbn. destruct (StorageServer.keyListStore ss !! k) as [ls|] eqn:E; [|done].
      intros x g h y [= <- <-]. by apply (Hcalled ls).
  - unfold list_at. rewrite Hk, StorageServer.lists_lookup. cbn. by rewrite lookup_insert_eq.
Qed.

Lemma list_at_lookup : list_key k = true -> list_at k ss = default [] (StorageServer.lists ss !! k).
Proof. unfold list_at. by intros ->. Qed.

Lemma list_at_NoDup : StorageServer.sets ss -> NoDup (list_at k ss).
Proof.
  intros Hsets. unfold list_at. destruct (list_key k); [|constructor].
  destruct (StorageServer.lists ss !! k) eqn:E; [by apply (Hsets k)|constructor].
Qed.

Lemma append_law : list_key k = true -> StorageServer.sets ss -> exists ss' called,
  append t (mkPutArgs k v) ss = Ret (ss', called, inl (mkPutReply (StorageServer.append_spec v (list_at k ss)).1)) /\
  write_law k t ss ss' called /\ list_at k ss' = (StorageServer.append_spec v (list_at k ss)).2.
Proof.
  intros Hk Hsets. unfold append, StorageServer.AppendToList.
  rewrite StorageServer.serves_guarded by done. cbn [pa_Key pa_Value].
  pose proof (StorageServer.append_NoDup v _ (list_at_NoDup Hsets)) as Hnd.
  rewrite list_at_lookup, StorageServer.lists_lookup in * by done.
  destruct (StorageServer.keyListStore ss !! k) as [ls|] eqn:E; cbn [fmap option_fmap option_map default from_option id] in *.
  - destruct (revoke_all t (StorageServer.list_leaseGranted ls) ss Hl) as (c & called & Hr & Hcalled).
    rewrite Hr. cbn [mbind outcome_bind].
    destruct (setList_law (StorageServer.append_spec v (StorageServer.list_ ls)).2 c called Hk Hnd) as [Hw Hv].
    { intros ls0 E0. rewrite E in E0. injection E0 as <-. apply Hcalled. }
    do 2 eexists. split; [|split; [exact Hw|exact Hv]].
    unfold StorageServer.append_spec. by destruct (bool_decide _).
  - destruct (setList_law [v] (StorageServer.clientCache ss) [] Hk) as [Hw Hv];
      [apply NoDup_singleton|by rewrite E|].
    replace (ss <| StorageServer.clientCache := StorageServer.clientCache ss |>) with ss in * by (by destruct ss).
    do 2 eexists. split; [|split; [exact Hw|exact Hv]]. done.
Qed.

Lemma remove_law : list_key k = true -> StorageServer.sets ss -> exists ss' called st,
  remove t (mkPutArgs k v) ss = Ret (ss', called, inl (mkPutReply st)) /\
  (st =? OK) = bool_decide (v ∈ list_at k ss) /\
  write_law k t ss ss' called /\ list_at k ss' = (StorageServer.remove_spec v (list_at k ss)).2.
Proof.
  intros Hk Hsets. unfold remove, StorageServer.RemoveFromList.
  rewrite StorageServer.serves_guarded by done. cbn [pa_Key pa_Value].
  pose proof (list_at_NoDup Hsets) as Hnd0. pose proof (StorageServer.remove_NoDup v _ Hnd0) as Hnd.
  rewrite list_at_lookup, StorageServer.lists_lookup in * by done.
  destruct (StorageServer.keyListStore ss !! k) as [ls|] eqn:E; cbn [fmap option_fmap option_map default from_option id] in *.
  - destruct (revoke_all t (StorageServer.list_leaseGranted ls) ss Hl) as (c & called & Hr & Hcalled).
    rewrite Hr. cbn [mbind outcome_bind].
    destruct (setList_law (StorageServer.remove_spec v (StorageServer.list_ ls)).2 c called Hk Hnd) as [Hw Hv].
    { intros ls0 E0. rewrite E in E0. injection E0 as <-. apply Hcalled. }
    do 2 eexists. exists (StorageServer.remove_spec v (StorageServer.list_ ls)).1.
    split; [|split; [|split; [exact Hw|exact Hv]]].
    + rewrite <- StorageServer.remove_spec_first by done.
      by destruct (StorageServer.removeFirst v (StorageServer.list_ ls)).
    + unfold StorageServer.remove_spec. by destruct (bool_decide _).
  - exists ss, [], ItemNotFound. split; [done|]. rewrite bool_decide_false by apply not_elem_of_nil.
    split; [done|]. split; [|by rewrite list_at_lookup, StorageServer.lists_lookup, E by done].
    split; [done|done|]. unfold kind. rewrite Hk. cbn. by rewrite E.
Qed.
End one_key.

Lemma read_value k w : list_key k = false -> ready w -> exists w' r,
  read me StorageServer.Get Libstore.Get_begin Libstore.Get k w = (w', r) /\
  ready w' /\ (forall k', dataOf w' k' = dataOf w k') /\ onward w w' /\
  (r = got (value_at k (homeServer w k)) \/ next w <> Delivered /\ exists e, r = inr e).
Proof.
  intros Hk Hr. generalize (read_ready k w Hr).
  unfold read_result, dataOf, data_at, value_at. rewrite StorageServer.values_lookup.
  unfold kind, absent. rewrite Hk. cbn -[read lread]. rewrite <- option_fmap_compose.
  change (fst ∘ (fun v => (StorageServer.value v, StorageServer.leaseGranted v))) with StorageServer.value.
  destruct (StorageServer.value <$> StorageServer.keyValueStore (homeServer w k) !! k); exact id.
Qed.

Lemma read_list k w : list_key k = true -> ready w -> exists w' r,
  read me StorageServer.GetList Libstore.GetList_begin Libstore.GetList k w = (w', r) /\
  ready w' /\ (forall k', dataOf w' k' = dataOf w k') /\ onward w w' /\
  (r = inl (list_at k (homeServer w k)) \/ next w <> Delivered /\ exists e, r = inr e).
Proof.
  intros Hk Hr. generalize (read_ready k w Hr).
  unfold read_result, dataOf, data_at, list_at. rewrite StorageServer.lists_lookup.
  unfold kind, absent. rewrite Hk. cbn -[read lread]. rewrite <- option_fmap_compose.
  change (fst ∘ (fun v => (StorageServer.list_ v, StorageServer.list_leaseGranted v))) with StorageServer.list_.
  destruct (StorageServer.list_ <$> StorageServer.keyListStore (homeServer w k) !! k); exact id.
Qed.

Lemma home_server w k : ready w -> exists ss, servers w !! home k = Some ss /\ homeServer w k = ss /\
  StorageServer.serves k ss /\ StorageServer.clientCacheLocked ss = ∅ /\ StorageServer.sets ss.
Proof.
  intros Hr. destruct (re_servers _ Hr (homeNode k) (homeNode_in k)) as (ss & Hss & Hok).
  exists ss. split; [done|]. split; [unfold homeServer, home; by rewrite Hss|].
  split; [by apply home_serves|]. by destruct Hok.
Qed.

(** The data after a write of [k]. *)
Lemma write_data k w w' ss' :
  dataOf w' k = data_at k ss' -> (forall k', k' <> k -> dataOf w' k' = dataOf w k') ->
  (forall k', value_at k' (homeServer w' k') = if decide (k' = k) then value_at k ss' else value_at k' (homeServer w k')) /\
  (forall k', list_at k' (homeServer w' k') = if decide (k' = k) then list_at k ss' else list_at k' (homeServer w k')).
Proof.
  intros Hk Ho. split; intros k'; case_decide as E; subst; try by apply data_at_same; auto;
    try by apply (data_at_same _ _ _ (Ho _ E)).
Qed.

Lemma next_lossy w : next w <> Delivered -> ~ calm w.
Proof. intros Hn Hc. by apply Hn, Hc. Qed.

Lemma calm_stable w : ~ ~ calm w -> calm w.
Proof.
  intros Hn i Hi. destruct (decide (fates w i = Delivered)) as [|Hf]; [done|]. destruct Hn. intros Hc. by apply Hf, Hc.
Qed.

Lemma calm_onward w w' : onward w w' -> ~ calm w' -> ~ calm w.
Proof. unfold calm. intros [-> Ht] Hn Hc. apply Hn. intros i Hi. apply Hc. lia. Qed.

(** A write as the interface describes it. *)
Lemma write_views k v op lwrite e1 e2 w ls ls0 ss ss' called st :
  ready w -> libs w !! me = Some ls ->
  (forall dial call, lwrite dial call k v ls = Libstore.callWrite dial call k v e1 e2 ls0) -> quiet ls ls0 ->
  servers w !! home k = Some ss ->
  op (now w) (mkPutArgs k v) ss = Ret (ss', called, inl (mkPutReply st)) -> write_law k (now w) ss ss' called ->
  exists w' r, write me op lwrite k v w = (w', r) /\ (ready w' /\ (~ calm w' -> ~ calm w)) /\
    write_result (~ calm w)
     ((forall k', value_at k' (homeServer w' k') = if decide (k' = k) then value_at k ss' else value_at k' (homeServer w k')) /\
      (forall k', list_at k' (homeServer w' k') = if decide (k' = k) then list_at k ss' else list_at k' (homeServer w k')))
     ((forall k', value_at k' (homeServer w' k') = value_at k' (homeServer w k')) /\
      (forall k', list_at k' (homeServer w' k') = list_at k' (homeServer w k')))
     (if st =? OK then None else Some e2) r.
Proof.
  intros Hr Hls Hlw Hq Hss Hop Hw.
  destruct (write_ready k v w op lwrite ls ls0 e1 e2 ss ss' called st Hr Hls Hlw Hq Hss Hop Hw)
    as (w' & r & E & Hr' & Hf & Hcases). exists w', r. split; [done|]. split; [split; [done|by apply calm_onward]|].
  destruct Hcases as [(Hd & Ho & Hres)|(Hd & Hn & Hres)].
  - left. split; [by apply write_data|]. destruct Hres as [|[Hn ?]]; [by left|right]. split; [by apply next_lossy|done].
  - right. split; [split; intros k'; by apply (data_at_same k' _ _ (Hd k'))|]. split; [by apply next_lossy|done].
Qed.

(** A read as the interface describes it. *)
Lemma read_views {A} (good r : A + string) w w' :
  ready w' -> (forall k, dataOf w' k = dataOf w k) -> onward w w' ->
  (r = good \/ next w <> Delivered /\ exists e, r = inr e) ->
  (ready w' /\ (~ calm w' -> ~ calm w)) /\
  ((forall k', value_at k' (homeServer w' k') = value_at k' (homeServer w k')) /\
   (forall k', list_at k' (homeServer w' k') = list_at k' (homeServer w k'))) /\
  (r = good \/ ~ calm w /\ exists e, r = inr e).
Proof.
  intros Hr Hd Hf Hres. split; [split; [done|by apply calm_onward]|].
  split; [split; intros k'; by apply (data_at_same k' _ _ (Hd k'))|].
  destruct Hres as [|[Hn ?]]; [by left|right]. split; [by apply next_lossy|done].
Qed.

#[export] Instance cluster_laws : LibstoreLaws cluster (H := cluster_ops me).
Proof.
  refine {| alive := ready; lossy w := ~ calm w; vals w k := value_at k (homeServer w k);
            elems w k := list_at k (homeServer w k) |}.
  - intros w k v _. unfold value_at. by destruct (list_key k).
  - intros w k Hr Hk. destruct (read_value k w Hk Hr) as (w' & r & E & Hr' & Hd & Hf & Hres). exists w', r.
    split; [exact E|by apply read_views].
  - intros w k v Hr Hk. destruct (re_me _ Hr) as [ls Hls].
    destruct (home_server w k Hr) as (ss & Hss & _ & Hs & Hl & _).
    destruct (put_law k v (now w) ss Hs Hl Hk) as (ss' & called & Hop & Hw & Hv).
    edestruct (write_views k v put Libstore.Put) as (w' & r & E & Hg & Hwr);
      [exact Hr|exact Hls|intros d call; reflexivity|by split|exact Hss|exact Hop|exact Hw|].
    exists w', r. split; [exact E|]. split; [exact Hg|]. eapply write_result_mono; [|done|exact Hwr].
    intros [Hvs Hes]. split; intros k'; rewrite ?Hvs, ?Hes; destruct (decide (k' = k)) as [->|]; try done.
    unfold list_at. by rewrite Hk.
  - intros w k Hr Hk. destruct (read_list k w Hk Hr) as (w' & r & E & Hr' & Hd & Hf & Hres). exists w', r.
    split; [exact E|by apply read_views].
  - intros w k v Hr Hk. destruct (re_me _ Hr) as [ls Hls].
    destruct (home_server w k Hr) as (ss & Hss & Hh & Hs & Hl & Hsets).
    destruct (append_law k v (now w) ss Hs Hl Hk Hsets) as (ss' & called & Hop & Hw & Hv).
    edestruct (write_views k v append Libstore.AppendToList) as (w' & r & E & Hg & Hwr);
      [exact Hr|exact Hls|intros d call; reflexivity|by split|exact Hss|exact Hop|exact Hw|].
    exists w', r. split; [exact E|]. split; [exact Hg|]. rewrite Hh. eapply write_result_mono; [| |exact Hwr].
    + intros [Hvs Hes]. split; intros k'; rewrite ?Hvs, ?Hes; destruct (decide (k' = k)) as [->|]; try done.
      unfold value_at. by rewrite Hk.
    + unfold StorageServer.append_spec. by destruct (bool_decide _).
  - intros w k v Hr Hk. destruct (re_me _ Hr) as [ls Hls].
    destruct (home_server w k Hr) as (ss & Hss & Hh & Hs & Hl & Hsets).
    destruct (remove_law k v (now w) ss Hs Hl Hk Hsets) as (ss' & called & st & Hop & Hst & Hw & Hv).
    edestruct (write_views k v remove Libstore.RemoveFromList) as (w' & r & E & Hg & Hwr);
      [exact Hr|exact Hls|intros d call; reflexivity|by split|exact Hss|exact Hop|exact Hw|].
    exists w', r. split; [exact E|]. split; [exact Hg|]. rewrite Hh. eapply write_result_mono; [|by rewrite <- Hst|exact Hwr].
    intros [Hvs Hes]. split; intros k'; rewrite ?Hvs, ?Hes; destruct (decide (k' = k)) as [->|]; try done.
    unfold value_at. by rewrite Hk.
Defined.

(** The system is up while no call fails. *)
Lemma calm_up w : ready w -> calm w -> up (H0 := cluster_laws) w.
Proof. intros Hr Hc. split; [exact Hr|]. by intros Hn. Qed.

Lemma calm_of_up w : up (H0 := cluster_laws) w -> ready w /\ calm w.
Proof. intros [Hr Hc]. split; [exact Hr|by apply calm_stable]. Qed.

End ring.

(** ** A concrete system *)

(** Two servers and two libstores; one has the user's key cached. *)
Definition demo_ring : list Node := [mkNode "a:1" 1000; mkNode "b:2" (2 ^ 32 - 1)].

Definition demo_node (n : Node) (m : gmap string StorageServer.valueStoreType) : StorageServer.storageServer :=
  StorageServer.mkServer OK m ∅ false (NodeID n) 2 demo_ring ∅ ∅ ∅ false.

Definition demo_lib_c : Libstore.libstore := Libstore.mkLibstore demo_ring ∅ ∅ ∅ ∅ Libstore.Always "c:3" ∅.

Definition demo_lib_d : Libstore.libstore :=
  Libstore.mkLibstore demo_ring {["ann:user" := Libstore.mkValue "ann:user" (Libstore.mkLease 0 10)]}
    ∅ ∅ ∅ Libstore.Normal "d:4" ∅.

Definition demo_cluster : cluster :=
  mkCluster
    (<["a:1" := demo_node (mkNode "a:1" 1000) ∅]>
      {["b:2" := demo_node (mkNode "b:2" (2 ^ 32 - 1))
                   {["ann:user" := StorageServer.mkValueStore "ann:user" {["d:4" := StorageServer.mkLease 0 12]}]}]})
    (<["c:3" := demo_lib_c]> {["d:4" := demo_lib_d]})
    Z.of_nat (fun _ => Delivered) 0.

Lemma demo_libs h ls :
  libs demo_cluster !! h = Some ls -> (h = "c:3" /\ ls = demo_lib_c) \/ (h = "d:4" /\ ls = demo_lib_d).
Proof. cbn [libs demo_cluster]. intros [[<- <-]|[_ [<- <-]%lookup_singleton_Some]]%lookup_insert_Some; auto. Qed.

Definition demo_hosts : gset string := {["c:3"; "d:4"]}.

Lemma demo_ready : ready demo_ring (mkNode "a:1" 1000) demo_hosts demo_cluster.
Proof.
  split.
  - cbn [libs demo_cluster]. rewrite dom_insert_L, dom_singleton_L. done.
  - intros i j. cbn. lia.
  - intros h ls [[-> ->]|[-> ->]]%demo_libs; done.
  - intros n [->|[->|Hn]%elem_of_cons]%elem_of_cons; [..|by apply elem_of_nil in Hn];
      eexists; (split; [reflexivity|]); split; try done; intros k l; cbn; by rewrite lookup_empty.
  - intros k h ls [[-> ->]|[-> ->]]%demo_libs.
    + destruct (uncached k demo_lib_c eq_refl eq_refl) as [? Hno]. split; [done|].
      intros x l E. rewrite Hno in E. done.
    + destruct (decide (k = "ann:user")) as [->|Hne].
      * split; [reflexivity|]. intros x l E. change (kind "ann:user") with Lease.value_leases in *.
        injection E as <- <-. intros _. do 3 eexists. split; [reflexivity|]. split; [reflexivity|].
        split; [reflexivity|]. reflexivity.
      * destruct (uncached k demo_lib_d) as [? Hno]; [by apply lookup_singleton_ne|done|]. split; [done|].
        intros x l E. rewrite Hno in E. done.
Qed.

End StorageCluster.
