(* ===== verification/StorageStart.v ===== *)
(** * StorageStart: how the storage servers and the libstores come up
    ([NewStorageServer] in [p2/.../storageserver/storageserver_impl.go],
    [NewLibstore] in [p2/.../libstore/libstore_impl.go])

    The processes of the system while they start, as a transition system over
    [NewStorageServer], [RegisterServer], [GetServers] and [NewLibstore]: the
    master and the goroutine that registers it, slaves that call
    [RegisterServer] until they get an OK, libstores that ask for the servers.
    Calls may fail before or after the master has handled them; a slave keeps the
    [rpc.Client] it has dialled, which stays shut down then.  All that run share
    one ring ([ring_assembled]), the start comes to its end with the number of
    servers it was made for as long as no slave has lost its connection
    ([startup_completes]), and what is running is the system of
    [StorageCluster]. *)
From S2P Require Import Prelude StorageRpc StorageServer Libstore Lease TribServer StorageCluster.
Open Scope Z_scope.

Module StorageStart.
Import StorageRpc StorageServer.

(** ** Processes *)

(** A storage server, whether its [NewStorageServer] has returned, and, for the
    [rpc.Client] in its loop, whether it has shut down: a client that has lost
    its connection answers every later call with an error. *)
Record process := mkProcess { server : storageServer; running : bool; shutdown : bool }.

(** A call of [NewLibstore] under way: its mode, and the outcomes of its calls
    of [GetServers]. *)
Record asker := mkAsker { as_mode : Libstore.LeaseMode; as_answers : list (option GetServersReply) }.

(** The processes by their addresses.  The master has returned from
    [NewStorageServer] when it no longer waits for its signal. *)
Record sys := mkSys {
  master : storageServer;
  selfRegistered : bool;
  slaves : gmap string process;
  askers : gmap string asker;
  libs : gmap string Libstore.libstore }.

#[export] Instance eta_sys : EtaRecord sys := fun s =>
  mkSys (master s) (selfRegistered s) (slaves s) (askers s) (libs s).

(** One turn of the slave's loop with the outcome of its call; a call that
    fails, be it with an error of the master, leaves the reply as it was. *)
Definition registerTurn (answer : option RegisterReply) (p : process) : process :=
  match answer with
  | Some reply =>
      if rr_Status reply =? OK then mkProcess (slaveReady reply (server p)) true (shutdown p) else p
  | None => p
  end.

(** The connection is lost during a call. *)
Definition loseConnection (p : process) : process := mkProcess (server p) (running p) true.

(** What becomes of a call. *)
Inductive fate := Delivered | RequestLost | ReplyLost.

#[export] Instance fate_eq_dec : EqDecision fate.
Proof. solve_decision. Defined.

Inductive event :=
  | MasterRegisters (range : list Node -> list Node)
  | StartSlave (host : string) (numNodes nodeID : Z)
  | SlaveCalls (host : string) (range : list Node -> list Node) (f : fate)
  | StartLib (host : string) (mode : Libstore.LeaseMode)
  | LibAsks (host : string) (f : fate).

(** The iteration over [serversMap] gives its nodes in some order. *)
Definition proper (e : event) : Prop :=
  match e with
  | MasterRegisters range | SlaveCalls _ range _ => forall l, Permutation (range l) l
  | _ => True
  end.

Section start.
Context (masterHost : string).

(** A registration handled by the master; [None] is an error. *)
Definition register (range : list Node -> list Node) (node : Node) (s : sys)
    : outcome (sys * option RegisterReply) :=
  '(m, _, r) ← RegisterServer range (mkRegisterArgs node) (master s);
  Ret (s <| master := m |>, match r with inl reply => Some reply | inr _ => None end).

(** [NewLibstore] with the answers it has got so far. *)
Definition resume (host : string) (a : asker) : Libstore.libstore + string :=
  Libstore.NewLibstore (fun _ => true) (fun i => mjoin (as_answers a !! i)) masterHost host (as_mode a).

Definition answer_of (f : fate) (s : sys) : option GetServersReply :=
  match f, GetServers (master s) with Delivered, inl r => Some r | _, _ => None end.

(** [Panic] is the crash of the one process that the event is of: a slave
    started for a negative number of nodes.  For no nodes it ends with an error;
    for a port that is taken it waits. *)
Definition happen (e : event) (s : sys) : outcome sys :=
  match e with
  | MasterRegisters range =>
      if selfRegistered s then Ret s
      else '(s, _) ← register range (mkNode masterHost (nodeID (master s))) s;
           Ret (s <| selfRegistered := true |>)
  | StartSlave host numNodes nodeID =>
      new ← NewStorageServer masterHost numNodes nodeID;
      match new with
      | inl ss =>
          if bool_decide (host = masterHost \/ is_Some (slaves s !! host)) then Ret s
          else Ret (s <| slaves := <[host := mkProcess ss false false]> (slaves s) |>)
      | inr _ => Ret s
      end
  | SlaveCalls host range f =>
      match slaves s !! host with
      | Some p =>
          if running p || shutdown p then Ret s
          else match f with
               | RequestLost => Ret (s <| slaves := <[host := loseConnection p]> (slaves s) |>)
               | _ =>
                   '(s, answer) ← register range (mkNode host (nodeID (server p))) s;
                   let p' := match f with Delivered => registerTurn answer p | _ => loseConnection p end in
                   Ret (s <| slaves := <[host := p']> (slaves s) |>)
               end
      | None => Ret s
      end
  | StartLib host mode =>
      if bool_decide (is_Some (askers s !! host) \/ is_Some (libs s !! host)) then Ret s
      else Ret (s <| askers := <[host := mkAsker mode []]> (askers s) |>)
  | LibAsks host f =>
      match askers s !! host with
      | Some a =>
          let a := mkAsker (as_mode a) (as_answers a ++ [answer_of f s]) in
          match resume host a with
          | inl ls => Ret (s <| libs := <[host := ls]> (libs s) |> <| askers := delete host (askers s) |>)
          | inr _ => Ret (s <| askers := <[host := a]> (askers s) |>)
          end
      | None => Ret s
      end
  end.

Definition step (s s' : sys) : Prop := exists e, proper e /\ happen e s = Ret s'.

(** A new master, made for [n] servers. *)
Definition initial (n id : Z) (s : sys) : Prop :=
  NewStorageServer "" n id = Ret (inl (master s)) /\ selfRegistered s = false /\
  slaves s = ∅ /\ askers s = ∅ /\ libs s = ∅.

Definition reachable (n id : Z) (s : sys) : Prop := exists s0, initial n id s0 /\ rtc step s0 s.

(** The servers that are running, the master among them. *)
Definition serving (s : sys) (host : string) (ss : storageServer) : Prop :=
  (host = masterHost /\ ss = master s /\ masterWaiting (master s) = false) \/
  exists p, slaves s !! host = Some p /\ server p = ss /\ running p = true.

(** The id of the process at a host. *)
Definition idAt (s : sys) (host : string) : option Z :=
  if bool_decide (host = masterHost) then Some (nodeID (master s))
  else (fun p => nodeID (server p)) <$> slaves s !! host.

(** ** One registration *)

(** What a registration of node [nd] does to the master, and what it answers. *)
Record registered (n : Z) (nd : Node) (m m' : storageServer) (answer : option RegisterReply) : Prop := {
  rg_map : serversMap m' = <[HostPort nd := nd]> (serversMap m);
  rg_id : nodeID m' = nodeID m;
  rg_stores : keyValueStore m' = keyValueStore m /\ keyListStore m' = keyListStore m /\
    clientCacheLocked m' = clientCacheLocked m;
  rg_done : status m = OK ->
    status m' = OK /\ serversList m' = serversList m /\ masterWaiting m' = masterWaiting m;
  rg_completes : status m <> OK -> status m' = OK ->
    serversList m' ≡ₚ (map_to_list (serversMap m')).*2 /\ Z.of_nat (size (serversMap m')) = n /\
    masterWaiting m' = false;
  rg_answer : forall r, answer = Some r -> rr_Status r = OK ->
    status m' = OK /\ rr_Servers r = serversList m' /\ Z.of_nat (size (serversMap m')) = n;
  rg_full : Z.of_nat (size (serversMap m')) = n -> exists r, answer = Some r /\ rr_Status r = OK }.

Lemma register_spec n range nd s :
  reg_inv n (master s) -> (forall l, Permutation (range l) l) ->
  exists m answer, register range nd s = Ret (s <| master := m |>, answer) /\ reg_inv n m /\
    registered n nd (master s) m answer.
Proof.
  intros Hinv Hr. destruct (RegisterServer_spec n range (mkRegisterArgs nd) (master s) Hinv Hr) as (m & r & E & Hm & _).
  unfold register. rewrite E. cbn [mbind outcome_bind]. do 2 eexists. split; [done|]. split; [done|].
  destruct Hinv as [Hmaster [<- _] _ Hph]. revert E. unfold RegisterServer. rewrite Hmaster. cbn -[size exch_sort].
  pose proof (size_insert_cases (serversMap (master s)) (HostPort nd) nd) as Hsize. revert Hsize.
  set (map' := <[HostPort nd := nd]> (serversMap (master s))). intros Hsize.
  destruct (numNodes (master s) <? Z.of_nat (size map')) eqn:E1; breflect.
  { intros [= <- <-]. split; cbn -[size]; try done. fold map'. lia. }
  destruct (Z.of_nat (size map') =? numNodes (master s)) eqn:E2; breflect.
  - destruct (bool_decide (is_Some (serversMap (master s) !! HostPort nd))) eqn:E3; cbn -[size exch_sort].
    + assert (status (master s) = OK) as Hok by (destruct Hph as [(? & _)|(_ & ? & _)]; [lia|done]).
      intros [= <- <-]. split; cbn -[size]; try done; [|by eexists]. intros r [= <-] _. done.
    + destruct Hph as [(? & Hs & Hw)|(? & _)]; [|lia]. rewrite Hw. cbn -[size exch_sort].
      intros [= <- <-]. split; cbn -[size exch_sort]; try done.
      * rewrite Hs. done.
      * intros _ _. by rewrite exch_sort_perm, Hr.
      * intros r [= <-] _. done.
      * intros _. by eexists.
  - destruct Hph as [(? & Hs & _)|(? & _)]; [|destruct (bool_decide _); lia].
    intros [= <- <-]. split; cbn -[size]; try done; rewrite ?Hs; try done.
    intros r [= <-]. done.
Qed.

(** ** The invariant *)

(** No data yet. *)
Definition fresh (ss : storageServer) : Prop :=
  keyValueStore ss = ∅ /\ keyListStore ss = ∅ /\ clientCacheLocked ss = ∅.

Definition in_ring (m : storageServer) (host : string) (ss : storageServer) : Prop :=
  status m = OK /\ status ss = OK /\ serversList ss = serversList m /\
  mkNode host (nodeID ss) ∈ serversList m.

Record inv (n : Z) (s : sys) : Prop := {
  iv_reg : reg_inv n (master s);
  iv_fresh : fresh (master s);
  iv_slaves : forall h p, slaves s !! h = Some p -> h <> masterHost /\ fresh (server p) /\
    (running p = true -> in_ring (master s) h (server p));
  iv_ids : forall h nd, serversMap (master s) !! h = Some nd -> idAt s h = Some (NodeID nd);
  iv_ring : status (master s) = OK -> masterWaiting (master s) = false /\
    exists m0, m0 ⊆ serversMap (master s) /\ Z.of_nat (size m0) = n /\
      serversList (master s) ≡ₚ (map_to_list m0).*2;
  iv_self : selfRegistered s = true -> is_Some (serversMap (master s) !! masterHost);
  iv_libs : forall h ls, libs s !! h = Some ls -> status (master s) = OK /\
    Libstore.Servers ls = serversList (master s) /\ Libstore.myHostPort ls = h /\
    Libstore.keyValue ls = ∅ /\ Libstore.keylist ls = ∅;
  iv_askers : forall h a r, askers s !! h = Some a -> Some r ∈ as_answers a -> gs_Status r = OK ->
    status (master s) = OK /\ gs_Servers r = serversList (master s) }.

Lemma start_inv_initial n id s : initial n id s -> inv n s.
Proof.
  intros (Hnew & Hself & Hs & Ha & Hl). pose proof (reg_inv_init _ _ _ Hnew) as Hr.
  assert (fresh (master s) /\ serversMap (master s) = ∅ /\ status (master s) = NotReady) as (Hf & Hm & Hst).
  { unfold NewStorageServer in Hnew. destruct (n <? 0); [done|]. destruct (n <=? 0); [done|].
    by injection Hnew as <-. }
  split; rewrite ?Hself, ?Hs, ?Ha, ?Hl, ?Hm, ?Hst; try done; intros ??; rewrite ?lookup_empty; try done.
Qed.

Lemma idAt_same s s' h :
  nodeID (master s') = nodeID (master s) -> slaves s' = slaves s -> idAt s' h = idAt s h.
Proof. intros E1 E2. unfold idAt. by rewrite E1, E2. Qed.

(** A registration of a process under its own id. *)
Lemma start_inv_register n nd s m answer :
  inv n s -> idAt s (HostPort nd) = Some (NodeID nd) -> reg_inv n m ->
  registered n nd (master s) m answer -> inv n (s <| master := m |>).
Proof.
  intros [Hreg Hf Hs Hi Hring Hself Hlibs Hask] Hid Hm [Rmap Rid (Rv & Rl & Rc) Rdone Rcomp _ _].
  split; cbn.
  - done.
  - unfold fresh in *. by rewrite Rv, Rl, Rc.
  - intros h p Hp. destruct (Hs h p Hp) as (? & ? & Hrun). split_and!; try done.
    intros Hrp. destruct (Hrun Hrp) as (Hok & ? & El & Hin). destruct (Rdone Hok) as (? & E & _).
    unfold in_ring. by rewrite E.
  - intros h nd'. rewrite Rmap, (idAt_same s) by done. intros [[<- <-]|[? ?]]%lookup_insert_Some; auto.
  - intros Hok. destruct (decide (status (master s) = OK)) as [Hold|Hold].
    + destruct (Rdone Hold) as (_ & E & ->). destruct (Hring Hold) as (? & m0 & Hsub & Hsize & Hp).
      split; [done|]. exists m0. rewrite E. split; [|done]. rewrite Rmap. apply map_subseteq_spec.
      intros k nd' Hk. pose proof (lookup_weaken _ _ _ _ Hk Hsub) as Hk'.
      destruct (decide (k = HostPort nd)) as [->|]; [|by rewrite lookup_insert_ne].
      rewrite lookup_insert_eq. f_equal. pose proof (reg_keys _ _ Hreg _ _ Hk') as Ek.
      pose proof (Hi _ _ Hk') as Ei. rewrite Hid in Ei. injection Ei as Ei. destruct nd, nd'. cbn in *. by subst.
    + destruct (Rcomp Hold Hok) as (Hp & Hsize & ?). split; [done|]. by exists (serversMap m).
  - intros Hr. rewrite Rmap. apply lookup_insert_is_Some'. auto.
  - intros h ls Hls. destruct (Hlibs h ls Hls) as (Hok & E & ?). destruct (Rdone Hok) as (? & -> & _). done.
  - intros h a r Ha Hin Hr. destruct (Hask h a r Ha Hin Hr) as (Hok & E). by destruct (Rdone Hok) as (? & -> & _).
Qed.

(** A complete map of registrations makes the ring. *)
Lemma full_ring n s nd :
  inv n s -> status (master s) = OK -> Z.of_nat (size (serversMap (master s))) = n ->
  serversMap (master s) !! HostPort nd = Some nd -> nd ∈ serversList (master s).
Proof.
  intros Hinv Hok Hsize Hnd. destruct (iv_ring _ _ Hinv Hok) as (_ & m0 & Hsub & Hm0 & Hp).
  assert (m0 = serversMap (master s)) as -> by (apply map_subseteq_size_eq; [done|lia]).
  rewrite Hp. apply list_elem_of_fmap. exists (HostPort nd, nd). split; [done|]. by apply elem_of_map_to_list.
Qed.

(** A process whose record changes: its server keeps its id and its data, and is
    in the ring when it runs. *)
Lemma inv_process n s h p p' :
  inv n s -> slaves s !! h = Some p -> nodeID (server p') = nodeID (server p) -> fresh (server p') ->
  (running p' = true -> in_ring (master s) h (server p')) ->
  inv n (s <| slaves := <[h := p']> (slaves s) |>).
Proof.
  intros [? ? Hs Hi ? ? ? ?] Hp Hid Hf Hrun. split; try done; cbn.
  - intros h' p1 [[<- <-]|[? ?]]%lookup_insert_Some; [|by apply Hs].
    destruct (Hs h p Hp) as (? & _). done.
  - intros h' nd Hnd. pose proof (Hi h' nd Hnd) as E. revert E. unfold idAt. cbn. case_bool_decide; [done|].
    destruct (decide (h' = h)) as [->|]; [|by rewrite lookup_insert_ne].
    rewrite lookup_insert_eq, Hp. cbn. by rewrite Hid.
Qed.

(** A slave that takes in an answer. *)
Lemma inv_turn n s h p answer :
  inv n s -> slaves s !! h = Some p -> running p = false ->
  (forall r, answer = Some r -> rr_Status r = OK -> status (master s) = OK /\
     rr_Servers r = serversList (master s) /\ Z.of_nat (size (serversMap (master s))) = n) ->
  serversMap (master s) !! h = Some (mkNode h (nodeID (server p))) ->
  inv n (s <| slaves := <[h := registerTurn answer p]> (slaves s) |>).
Proof.
  intros Hinv Hp Hrun Hans Hmap. destruct (iv_slaves _ _ Hinv _ _ Hp) as (_ & Hf & _).
  assert (Hsame : inv n (s <| slaves := <[h := p]> (slaves s) |>)).
  { apply (inv_process n s h p); try done. by rewrite Hrun. }
  unfold registerTurn. destruct answer as [r|]; [|done]. destruct (rr_Status r =? OK) eqn:E; breflect; [|done].
  destruct (Hans r eq_refl E) as (Hok & El & Hsize). apply (inv_process n s h p); try done. intros _.
  split_and!; try done. by apply (full_ring n s (mkNode h (nodeID (server p)))).
Qed.

(** A slave that loses its connection. *)
Lemma inv_lose n s h p :
  inv n s -> slaves s !! h = Some p -> inv n (s <| slaves := <[h := loseConnection p]> (slaves s) |>).
Proof.
  intros Hinv Hp. destruct (iv_slaves _ _ Hinv _ _ Hp) as (_ & Hf & Hr). by apply (inv_process n s h p).
Qed.

Lemma askServers_inl reply l : forall tries num,
  Libstore.askServers tries num reply = inl l ->
  exists i r, reply i = Some r /\ gs_Status r = OK /\ gs_Servers r = l.
Proof.
  induction tries as [|tries IH]; intros num; cbn; [done|]. destruct (reply num) as [r|] eqn:E; [|done].
  destruct (gs_Status r =? OK) eqn:Es; [|by apply IH]. breflect. intros [= <-]. by exists num, r.
Qed.

Lemma resume_inl host a ls : resume host a = inl ls ->
  exists r, Some r ∈ as_answers a /\ gs_Status r = OK /\
    ls = Libstore.mkLibstore (gs_Servers r) ∅ ∅ ∅ ∅ (as_mode a) host {[masterHost]}.
Proof.
  unfold resume, Libstore.NewLibstore. cbn [negb]. destruct (Libstore.askServers _ _ _) as [l|] eqn:E; [|done].
  intros [= <-]. apply askServers_inl in E as (i & r & Hr & Hs & <-). exists r. split; [|done].
  destruct (as_answers a !! i) as [o|] eqn:Ei; [|done]. cbn in Hr. subst o. by eapply list_elem_of_lookup_2.
Qed.

Lemma GetServers_spec n s f r : inv n s -> answer_of f s = Some r -> gs_Status r = OK ->
  status (master s) = OK /\ gs_Servers r = serversList (master s).
Proof.
  intros Hinv. unfold answer_of, GetServers. rewrite (reg_master _ _ (iv_reg _ _ Hinv)). destruct f; [|done..].
  cbn [negb]. intros [= <-]. cbn. intros ->. done.
Qed.

Lemma inv_asker n s h a : inv n s ->
  (forall r, Some r ∈ as_answers a -> gs_Status r = OK ->
     status (master s) = OK /\ gs_Servers r = serversList (master s)) ->
  inv n (s <| askers := <[h := a]> (askers s) |>).
Proof.
  intros [] Ha. split; try done; cbn. intros h' a' r [[<- <-]|[? ?]]%lookup_insert_Some; eauto.
Qed.

(** What a slave's call does when the master handles it. *)
Lemma slave_registers n s h p range f :
  inv n s -> slaves s !! h = Some p -> running p = false -> shutdown p = false ->
  (forall l, Permutation (range l) l) -> f <> RequestLost -> exists m answer,
    registered n (mkNode h (nodeID (server p))) (master s) m answer /\
    let p' := match f with Delivered => registerTurn answer p | _ => loseConnection p end in
    let s' := s <| master := m |> <| slaves := <[h := p']> (slaves s) |> in
    happen (SlaveCalls h range f) s = Ret s' /\ inv n s'.
Proof.
  intros Hinv Hp Hrun Hsh Hr Hf. destruct (iv_slaves _ _ Hinv h p Hp) as (Hne & _).
  destruct (register_spec n range (mkNode h (nodeID (server p))) s (iv_reg _ _ Hinv) Hr)
    as (m & answer & E & Hm & Hreg).
  assert (Hi : inv n (s <| master := m |>)).
  { eapply start_inv_register; [done| |done|done]. unfold idAt. cbn. by rewrite bool_decide_false, Hp by done. }
  exists m, answer. split; [done|]. split.
  - unfold happen. rewrite Hp, Hrun, Hsh. cbn [orb]. rewrite E. by destruct f.
  - cbn zeta. change (slaves s) with (slaves (s <| master := m |>)).
    destruct f; [|done|by apply inv_lose]. apply inv_turn; [done..| |].
    + intros r Hr0 Hok. by apply (rg_answer _ _ _ _ _ Hreg).
    + cbn. rewrite (rg_map _ _ _ _ _ Hreg). apply lookup_insert_eq.
Qed.

Lemma master_registers n s range :
  inv n s -> selfRegistered s = false -> (forall l, Permutation (range l) l) -> exists m answer,
    registered n (mkNode masterHost (nodeID (master s))) (master s) m answer /\
    happen (MasterRegisters range) s = Ret (s <| master := m |> <| selfRegistered := true |>) /\
    inv n (s <| master := m |> <| selfRegistered := true |>).
Proof.
  intros Hinv Hself Hr.
  destruct (register_spec n range (mkNode masterHost (nodeID (master s))) s (iv_reg _ _ Hinv) Hr)
    as (m & answer & E & Hm & Hreg).
  exists m, answer. split; [done|]. split; [unfold happen; by rewrite Hself, E|].
  assert (Hi : inv n (s <| master := m |>)).
  { eapply start_inv_register; [done| |done|done]. unfold idAt. cbn. by rewrite bool_decide_true. }
  destruct Hi. split; try done. intros _. cbn. rewrite (rg_map _ _ _ _ _ Hreg). cbn. by rewrite lookup_insert_eq.
Qed.

(** A start for a negative number of nodes. *)
Definition negative (e : event) : bool :=
  match e with StartSlave _ k _ => k <? 0 | _ => false end.

Lemma NewStorageServer_cases host k id :
  (NewStorageServer host k id = Panic <-> k < 0) /\
  (0 <= k -> exists new, NewStorageServer host k id = Ret new /\ forall ss, new = inl ss -> fresh ss).
Proof.
  unfold NewStorageServer. destruct (Z.ltb_spec k 0); [split; [done|lia]|].
  split; [split; [by destruct (k <=? 0)|lia]|]. intros _.
  destruct (k <=? 0); (eexists; split; [reflexivity|]); [done|]. by intros ss [= <-].
Qed.

Lemma happen_negative e s : negative e = true -> happen e s = Panic.
Proof.
  destruct e as [|h k id| | |]; try done. cbn. intros Hk%Z.ltb_lt.
  by rewrite (proj2 (proj1 (NewStorageServer_cases masterHost k id)) Hk).
Qed.

Lemma inv_start_slave n s h ss :
  inv n s -> ~ (h = masterHost \/ is_Some (slaves s !! h)) -> fresh ss ->
  inv n (s <| slaves := <[h := mkProcess ss false false]> (slaves s) |>).
Proof.
  intros [? ? Hs Hi ? ? ? ?] Hfree Hf. split; try done; cbn.
  - intros h' p [[<- <-]|[? ?]]%lookup_insert_Some; [|by apply Hs]. split; [by intros ->; auto|]. by split.
  - intros h' nd Hnd. rewrite <- (Hi h' nd Hnd). unfold idAt. cbn. case_bool_decide; [done|].
    rewrite lookup_insert_ne; [done|]. intros <-. apply Hi in Hnd. unfold idAt in Hnd.
    rewrite bool_decide_false in Hnd by done. destruct (slaves s !! h) eqn:Eh; [|done].
    apply Hfree. right. by eexists.
Qed.

Lemma inv_lib_asks n s h f a : inv n s -> askers s !! h = Some a ->
  exists s', happen (LibAsks h f) s = Ret s' /\ inv n s'.
Proof.
  intros Hinv Ha. unfold happen. rewrite Ha.
  assert (Hans : forall r, Some r ∈ as_answers a ++ [answer_of f s] -> gs_Status r = OK ->
    status (master s) = OK /\ gs_Servers r = serversList (master s)).
  { intros r [Hin|Hin%list_elem_of_singleton]%elem_of_app Hr; [by eapply (iv_askers _ _ Hinv)|].
    by eapply GetServers_spec. }
  cbn zeta. destruct (resume h _) as [ls|] eqn:E; eexists; (split; [done|]).
  - apply resume_inl in E as (r & Hin & Hr & ->). destruct (Hans r Hin Hr) as [Hok El].
    destruct Hinv as [? ? ? ? ? ? Hl Hk]. split; try done; cbn.
    + intros h' ls [[<- <-]|[? ?]]%lookup_insert_Some; [|by apply Hl]. cbn. by rewrite El.
    + intros h' a' r' [? ?]%lookup_delete_Some. by eapply Hk.
  - by apply inv_asker.
Qed.

Lemma inv_happen n s e : inv n s -> proper e -> negative e = false ->
  exists s', happen e s = Ret s' /\ inv n s'.
Proof.
  intros Hinv He Hk. destruct e as [range|h k id|h range f|h mode|h f]; cbn [proper negative] in He, Hk.
  - destruct (selfRegistered s) eqn:Hself; [unfold happen; rewrite Hself; by eexists|].
    destruct (master_registers n s range Hinv Hself He) as (m & _ & _ & E & Hi). by eexists.
  - breflect. destruct (proj2 (NewStorageServer_cases masterHost k id) Hk) as (new & E & Hnew).
    unfold happen. rewrite E. cbn [mbind outcome_bind]. destruct new as [ss|]; [|by eexists].
    case_bool_decide as Hfree; eexists; (split; [done|]); [done|]. by apply inv_start_slave; auto.
  - destruct (slaves s !! h) as [p|] eqn:Hp; [|unfold happen; rewrite Hp; by eexists].
    destruct (running p || shutdown p) eqn:Hrun; [unfold happen; rewrite Hp, Hrun; by eexists|].
    destruct (decide (f = RequestLost)) as [->|Hf].
    { unfold happen. rewrite Hp, Hrun. eexists. split; [done|]. by apply inv_lose. }
    apply orb_false_iff in Hrun as [Hrun Hsh].
    destruct (slave_registers n s h p range f Hinv Hp Hrun Hsh He Hf) as (m & answer & _ & E & Hi). by eexists.
  - unfold happen. case_bool_decide; [by eexists|]. eexists. split; [done|]. apply inv_asker; [done|].
    intros r Hin. by apply elem_of_nil in Hin.
  - destruct (askers s !! h) as [a|] eqn:Ha; [by eapply inv_lib_asks|]. unfold happen. rewrite Ha. by eexists.
Qed.

Lemma step_nonnegative e s s' : happen e s = Ret s' -> negative e = false.
Proof. intros E. apply not_true_iff_false. intros Hn. by rewrite (happen_negative e s Hn) in E. Qed.

Lemma start_inv_step n s s' : inv n s -> step s s' -> inv n s'.
Proof.
  intros Hinv (e & He & Hh).
  destruct (inv_happen n s e Hinv He (step_nonnegative _ _ _ Hh)) as (y & E & ?).
  rewrite Hh in E. by injection E as <-.
Qed.

Lemma inv_reachable n id s : reachable n id s -> inv n s.
Proof.
  intros (s0 & H0 & Hr). eapply rtc_invariant; [|by eapply start_inv_initial|exact Hr]. exact (start_inv_step n).
Qed.

(** ** The ring *)

Lemma master_ok n s : inv n s -> masterWaiting (master s) = false -> status (master s) = OK.
Proof.
  intros Hinv Hw. destruct (reg_phase _ _ (iv_reg _ _ Hinv)) as [(_ & _ & Hw')|(_ & ? & _)]; [|done].
  by rewrite Hw in Hw'.
Qed.

Lemma serving_ok n s h ss : inv n s -> serving s h ss ->
  status (master s) = OK /\ status ss = OK /\ serversList ss = serversList (master s) /\ fresh ss /\
  (h <> masterHost -> mkNode h (nodeID ss) ∈ serversList (master s)).
Proof.
  intros Hinv [(-> & -> & Hw)|(p & Hp & <- & Hrun)].
  - pose proof (master_ok _ _ Hinv Hw). split_and!; try done. apply Hinv.
  - destruct (iv_slaves _ _ Hinv _ _ Hp) as (? & Hf & Hr). by destruct (Hr Hrun) as (? & ? & ? & ?).
Qed.

Lemma ring_nodes n s nd : inv n s -> status (master s) = OK -> nd ∈ serversList (master s) ->
  serversMap (master s) !! HostPort nd = Some nd.
Proof.
  intros Hinv Hok. destruct (iv_ring _ _ Hinv Hok) as (_ & m0 & Hsub & _ & Hp). rewrite Hp.
  intros ([k x] & -> & Hin)%list_elem_of_fmap. cbn. apply elem_of_map_to_list in Hin.
  pose proof (lookup_weaken _ _ _ _ Hin Hsub) as Hk. by rewrite (reg_keys _ _ (iv_reg _ _ Hinv) _ _ Hk).
Qed.

Lemma hosts_known n s (m : gmap string Node) :
  inv n s -> m ⊆ serversMap (master s) -> dom m ⊆ {[masterHost]} ∪ dom (slaves s).
Proof.
  intros Hinv Hsub h [nd Hnd]%elem_of_dom. pose proof (iv_ids _ _ Hinv h nd (lookup_weaken _ _ _ _ Hnd Hsub)) as E.
  unfold idAt in E. case_bool_decide; [set_solver|]. apply elem_of_union. right.
  destruct (slaves s !! h) eqn:Eh; [by apply elem_of_dom|done].
Qed.

(** The master is in the ring unless too many slaves came before it. *)
Lemma master_in_ring n s : inv n s -> status (master s) = OK -> Z.of_nat (size (slaves s)) < n ->
  mkNode masterHost (nodeID (master s)) ∈ serversList (master s).
Proof.
  intros Hinv Hok Hlt. destruct (iv_ring _ _ Hinv Hok) as (_ & m0 & Hsub & Hsize & Hp).
  pose proof (hosts_known n s m0 Hinv Hsub) as Hdom.
  destruct (m0 !! masterHost) as [nd|] eqn:E.
  - pose proof (lookup_weaken _ _ _ _ E Hsub) as Hk. pose proof (iv_ids _ _ Hinv _ _ Hk) as Hi.
    unfold idAt in Hi. rewrite bool_decide_true in Hi by done. injection Hi as Hi.
    pose proof (reg_keys _ _ (iv_reg _ _ Hinv) _ _ Hk) as Ek. rewrite Hp. apply list_elem_of_fmap.
    exists (masterHost, nd). split; [destruct nd; cbn in *; by subst|by apply elem_of_map_to_list].
  - apply not_elem_of_dom in E. assert (Hd : dom m0 ⊆ dom (slaves s)) by set_solver.
    apply subseteq_size in Hd. rewrite !size_dom in Hd. lia.
Qed.

(** Where a libstore looks for a key and where it is accepted. *)
Lemma place_agrees ring key ls ss h :
  NoDup (HostPort <$> ring) -> NoDup (NodeID <$> ring) ->
  Libstore.Servers ls = ring -> serversList ss = ring -> mkNode h (nodeID ss) ∈ ring ->
  Libstore.Findshashring key ls = Ret h <-> checkIsRightServer key ss = Ret true.
Proof.
  intros Hh Hi Hls Hss Hin. destruct (head ring) as [n0|] eqn:E0; [|by destruct ring; [apply elem_of_nil in Hin|]].
  rewrite (StorageCluster.find_home ring n0 E0 key ls Hls).
  pose proof (StorageCluster.homeNode_in ring n0 E0 key) as Hhome. unfold StorageCluster.home.
  unfold checkIsRightServer. rewrite Hss, E0. cbn [deref mbind outcome_bind].
  rewrite Libstore.firstNode_belongs. revert Hhome. unfold StorageCluster.homeNode.
  assert (Hplace : forall nd, nd ∈ ring -> HostPort nd = h <-> NodeID nd = nodeID ss).
  { intros nd Hnd. split; intros E.
    - by pose proof (NoDup_fmap_elem HostPort ring nd (mkNode h (nodeID ss)) Hh Hnd Hin E) as ->.
    - by pose proof (NoDup_fmap_elem NodeID ring nd (mkNode h (nodeID ss)) Hi Hnd Hin E) as ->. }
  destruct (Libstore.firstNode _ ring) as [nd|]; cbn; intros Hhome; specialize (Hplace _ Hhome).
  all: split; [intros [= E]; f_equal; by apply Z.eqb_eq, Hplace|intros [= E]; breflect; f_equal; by apply Hplace].
Qed.

(** ** Coming to the end *)

(** A slave that runs, or that can still call the master. *)
Definition sound (p : process) : Prop := running p = true \/ shutdown p = false.
Definition all_sound (s : sys) : Prop := forall h p, slaves s !! h = Some p -> sound p.

(** What calls of slaves leave, and what they only add to. *)
Record later (s s' : sys) : Prop := {
  lt_slaves : dom (slaves s') = dom (slaves s);
  lt_map : dom (serversMap (master s)) ⊆ dom (serversMap (master s'));
  lt_askers : askers s' = askers s;
  lt_libs : libs s' = libs s;
  lt_running : forall h p, slaves s !! h = Some p -> running p = true -> slaves s' !! h = Some p;
  lt_sound : all_sound s -> all_sound s' }.

#[export] Instance later_preorder : PreOrder later.
Proof.
  split; [intros s; by split|]. intros s1 s2 s3 [A1 A2 A3 A4 A5 A6] [B1 B2 B3 B4 B5 B6].
  split; [congruence|set_solver|congruence|congruence| |auto]. intros h p Hp Hr. auto.
Qed.

Definition called (s : sys) (h : string) : Prop := is_Some (serversMap (master s) !! h).
Definition up (s : sys) (h : string) : Prop := exists p, slaves s !! h = Some p /\ running p = true.
Definition full (n : Z) (s : sys) : Prop := Z.of_nat (size (serversMap (master s))) = n.

Lemma called_later s s' h : later s s' -> called s h -> called s' h.
Proof. intros Hl. unfold called. rewrite <- !elem_of_dom. apply Hl. Qed.

Lemma up_later s s' h : later s s' -> up s h -> up s' h.
Proof. intros Hl (p & Hp & Hr). exists p. split; [by apply Hl|done]. Qed.

Lemma step_happen e s s' : proper e -> happen e s = Ret s' -> step s s'.
Proof. intros He E. by exists e. Qed.

(** One call of a slave: it is known to the master then, and runs when all are. *)
Lemma visit n s h : inv n s -> all_sound s -> is_Some (slaves s !! h) ->
  exists s', rtc step s s' /\ inv n s' /\ later s s' /\ called s' h /\ (full n s' -> up s' h).
Proof.
  intros Hinv Hsound [p Hp]. destruct (running p) eqn:Hrun.
  - exists s. split_and!; [apply rtc_refl|done|done| |by exists p].
    destruct (iv_slaves _ _ Hinv _ _ Hp) as (_ & _ & Hr). destruct (Hr Hrun) as (Hok & _ & _ & Hin).
    apply (ring_nodes n s _ Hinv Hok) in Hin. by eexists.
  - assert (Hsh : shutdown p = false) by (destruct (Hsound h p Hp); congruence).
    destruct (slave_registers n s h p (fun l => l) Delivered Hinv Hp Hrun Hsh ltac:(done) ltac:(done))
      as (m & answer & Hreg & E & Hi'). cbn zeta in *.
    eexists. split; [apply rtc_once; eapply step_happen; [|exact E]; intros l; reflexivity|]. split; [exact Hi'|].
    split; [|split].
    + split; cbn; try done.
      * rewrite dom_insert_L. apply elem_of_dom_2 in Hp. set_solver.
      * rewrite (rg_map _ _ _ _ _ Hreg), dom_insert_L. set_solver.
      * intros h' p' Hp' Hr'. rewrite lookup_insert_ne; [done|]. intros <-. congruence.
      * intros _ h' p'. cbn. intros [[<- <-]|[_ Hp']]%lookup_insert_Some; [|by eapply Hsound].
        unfold registerTurn.
        destruct answer as [r|]; [destruct (_ =? _)|]; first [by left|by right].
    + unfold called. cbn. rewrite (rg_map _ _ _ _ _ Hreg). cbn. by rewrite lookup_insert_eq.
    + intros Hfull. destruct (rg_full _ _ _ _ _ Hreg Hfull) as (r & -> & Hr).
      exists (registerTurn (Some r) p). unfold registerTurn. cbn. by rewrite Hr, lookup_insert_eq, Z.eqb_refl.
Qed.

Lemma visit_all n (l : list string) : forall s, inv n s -> all_sound s -> (forall h, h ∈ l -> is_Some (slaves s !! h)) ->
  exists s', rtc step s s' /\ inv n s' /\ later s s' /\
    forall h, h ∈ l -> called s' h /\
      ((forall s1, rtc step s s1 -> later s s1 -> inv n s1 -> full n s1) -> up s' h).
Proof.
  induction l as [|h l IH]; intros s Hinv Hsound Hin.
  { exists s. split; [apply rtc_refl|]. split_and!; [done..|]. intros h Hh. by apply elem_of_nil in Hh. }
  destruct (visit n s h Hinv Hsound) as (s1 & R1 & I1 & L1 & C1 & U1); [apply Hin; by left|].
  destruct (IH s1 I1 (lt_sound _ _ L1 Hsound)) as (s2 & R2 & I2 & L2 & H2).
  { intros h' Hh'. apply elem_of_dom. rewrite (lt_slaves _ _ L1). apply elem_of_dom, Hin. by right. }
  exists s2. split; [by etrans|]. split; [done|]. split; [by etrans|].
  intros h' [->|Hh']%elem_of_cons.
  - split; [by eapply called_later|]. intros Hfull. eapply up_later; [done|]. by apply U1, Hfull.
  - destruct (H2 h' Hh') as [? Hup]. split; [done|]. intros Hfull. apply Hup. intros s3 R3 L3 I3.
    apply Hfull; [by etrans|by etrans|done].
Qed.

Lemma size_bound n s : inv n s -> Z.of_nat (size (slaves s)) + 1 = n ->
  Z.of_nat (size (serversMap (master s))) <= n.
Proof.
  intros Hinv Hn. pose proof (hosts_known n s _ Hinv (reflexivity _)) as Hd%subseteq_size.
  rewrite size_union_alt, !size_dom, size_singleton in Hd.
  pose proof (subseteq_size (dom (slaves s) ∖ {[masterHost]}) (dom (slaves s)) ltac:(set_solver)) as Hs.
  rewrite size_dom in Hs. lia.
Qed.

(** All have called: the map of the master is full. *)
Lemma all_called n s : inv n s -> Z.of_nat (size (slaves s)) + 1 = n -> called s masterHost ->
  (forall h, is_Some (slaves s !! h) -> called s h) -> full n s.
Proof.
  intros Hinv Hn Hm Hall. pose proof (size_bound n s Hinv Hn) as Hle. unfold full.
  assert (Hd : {[masterHost]} ∪ dom (slaves s) ⊆ dom (serversMap (master s))).
  { intros h [->%elem_of_singleton|Hh%elem_of_dom]%elem_of_union; apply elem_of_dom; [done|by apply Hall]. }
  apply subseteq_size in Hd. rewrite size_union, size_singleton, !size_dom in Hd; [lia|].
  intros h ->%elem_of_singleton [p Hp]%elem_of_dom. by destruct (iv_slaves _ _ Hinv _ _ Hp).
Qed.

Lemma master_calls n s : inv n s ->
  exists s', rtc step s s' /\ inv n s' /\ later s s' /\ called s' masterHost.
Proof.
  intros Hinv. destruct (selfRegistered s) eqn:Hself.
  - exists s. split_and!; [apply rtc_refl|done|done|]. by apply (iv_self _ _ Hinv).
  - destruct (master_registers n s (fun l => l) Hinv Hself ltac:(done)) as (m & answer & Hreg & E & Hi).
    eexists. split; [apply rtc_once; eapply step_happen; [|exact E]; intros l; reflexivity|]. split; [exact Hi|].
    split; [|by apply (iv_self _ _ Hi)]. split; cbn; try done.
    rewrite (rg_map _ _ _ _ _ Hreg), dom_insert_L. set_solver.
Qed.

(** With exactly the expected number of processes all of them get to run. *)
Lemma all_run n s : inv n s -> all_sound s -> Z.of_nat (size (slaves s)) + 1 = n ->
  exists s', rtc step s s' /\ inv n s' /\ later s s' /\ masterWaiting (master s') = false /\
    forall h, is_Some (slaves s' !! h) -> up s' h.
Proof.
  intros Hinv Hsound Hn.
  assert (Hsize : forall s1, later s s1 -> Z.of_nat (size (slaves s1)) + 1 = n).
  { intros s1 L. rewrite <- size_dom, (lt_slaves _ _ L), size_dom. done. }
  destruct (master_calls n s Hinv) as (s1 & R1 & I1 & L1 & C1).
  destruct (visit_all n (elements (dom (slaves s))) s1 I1 (lt_sound _ _ L1 Hsound)) as (s2 & R2 & I2 & L2 & H2).
  { intros h Hh%elem_of_elements. apply elem_of_dom. by rewrite (lt_slaves _ _ L1). }
  assert (Hfull : forall s3, later s2 s3 -> inv n s3 -> full n s3).
  { intros s3 L3 I3. apply all_called; [done|apply Hsize; by do 2 (etrans; [done|])| |].
    - eapply called_later; [|done]. by etrans.
    - intros h Hh. eapply called_later; [done|]. apply H2, elem_of_elements.
      rewrite <- (lt_slaves _ _ L1), <- (lt_slaves _ _ L2), <- (lt_slaves _ _ L3). by apply elem_of_dom. }
  destruct (visit_all n (elements (dom (slaves s2))) s2 I2 (lt_sound _ _ L2 (lt_sound _ _ L1 Hsound))) as (s3 & R3 & I3 & L3 & H3).
  { intros h Hh%elem_of_elements. by apply elem_of_dom. }
  exists s3. split; [by do 2 (etrans; [done|])|]. split; [done|]. split; [by do 2 (etrans; [done|])|]. split.
  - pose proof (Hfull s3 L3 I3) as Hf. unfold full in Hf.
    destruct (reg_phase _ _ (iv_reg _ _ I3)) as [(? & _)|(_ & Hok & _)]; [lia|]. by destruct (iv_ring _ _ I3 Hok).
  - intros h Hh. apply H3; [|auto]. apply elem_of_elements. rewrite <- (lt_slaves _ _ L3). by apply elem_of_dom.
Qed.

(** A libstore that asks a running master gets its ring at once. *)
Lemma lib_starts n s h (mode : Libstore.LeaseMode) : inv n s -> status (master s) = OK -> askers s !! h = None -> libs s !! h = None ->
  exists ls, rtc step s (s <| libs := <[h := ls]> (libs s) |>).
Proof.
  intros Hinv Hok Ha Hl.
  exists (Libstore.mkLibstore (serversList (master s)) ∅ ∅ ∅ ∅ mode h {[masterHost]}).
  eapply rtc_l; [eapply (step_happen (StartLib h mode)); [done|]|].
  { unfold happen. rewrite bool_decide_false; [done|]. rewrite Ha, Hl. by intros [[? ?]|[? ?]]. }
  eapply rtc_once, (step_happen (LibAsks h Delivered)); [done|]. unfold happen. cbn.
  rewrite lookup_insert_eq. cbn. unfold resume, Libstore.NewLibstore, answer_of, GetServers. cbn.
  rewrite (reg_master _ _ (iv_reg _ _ Hinv)), Hok. cbn. rewrite delete_insert_id by done. by destruct s.
Qed.
(** With one host too many the master answers no registration any more. *)
Lemma register_refused n (range : list Node -> list Node) nd s m answer :
  inv n s -> (forall l, Permutation (range l) l) -> n < Z.of_nat (size (serversMap (master s))) ->
  registered n nd (master s) m answer ->
  n < Z.of_nat (size (serversMap m)) /\ forall r, answer = Some r -> rr_Status r <> OK.
Proof.
  intros Hinv Hr Hlt Hreg.
  assert (Hm : n < Z.of_nat (size (serversMap m))).
  { rewrite (rg_map _ _ _ _ _ Hreg), size_insert_cases. destruct (bool_decide _); lia. }
  split; [done|]. intros r Ha Hok. destruct (rg_answer _ _ _ _ _ Hreg r Ha Hok) as (_ & _ & ?). lia.
Qed.

(** A slave that waits for an OK it cannot get: there is one host too many, or
    its client has shut down. *)
Definition hopeless (n : Z) (s : sys) (h : string) : Prop := exists p,
  slaves s !! h = Some p /\ running p = false /\
  (n < Z.of_nat (size (serversMap (master s))) \/ shutdown p = true).

Lemma hopeless_master n s m h :
  (n < Z.of_nat (size (serversMap (master s))) -> n < Z.of_nat (size (serversMap m))) ->
  hopeless n s h -> hopeless n (s <| master := m |>) h.
Proof. intros Hm (p & Hp & Hr & Hcase). exists p. cbn. split_and!; try done. destruct Hcase; auto. Qed.

Lemma hopeless_other n s h h' p' :
  h' <> h -> hopeless n s h -> hopeless n (s <| slaves := <[h' := p']> (slaves s) |>) h.
Proof. intros Hne (p & Hp & Hr & Hcase). exists p. cbn. by rewrite lookup_insert_ne. Qed.

Lemma registered_more n s nd m answer :
  registered n nd (master s) m answer ->
  n < Z.of_nat (size (serversMap (master s))) -> n < Z.of_nat (size (serversMap m)).
Proof. intros Hreg. rewrite (rg_map _ _ _ _ _ Hreg), size_insert_cases. destruct (bool_decide _); lia. Qed.

Lemma hopeless_call n s h range f s' h' : inv n s -> hopeless n s h -> (forall l, Permutation (range l) l) ->
  happen (SlaveCalls h' range f) s = Ret s' -> hopeless n s' h.
Proof.
  intros Hinv Hh He E.
  destruct (slaves s !! h') as [p'|] eqn:Hp'; [|unfold happen in E; rewrite Hp' in E; by injection E as <-].
  destruct (running p' || shutdown p') eqn:Hrun';
    [unfold happen in E; rewrite Hp', Hrun' in E; by injection E as <-|].
  assert (Hown : forall s0 p0, hopeless n s0 h -> (h' = h -> running p0 = false /\
      (n < Z.of_nat (size (serversMap (master s0))) \/ shutdown p0 = true)) ->
    hopeless n (s0 <| slaves := <[h' := p0]> (slaves s0) |>) h).
  { intros s0 p0 H0 Hp0. destruct (decide (h' = h)) as [->|]; [|by apply hopeless_other].
    exists p0. cbn. by rewrite lookup_insert_eq, (proj1 (Hp0 eq_refl)); destruct (Hp0 eq_refl). }
  assert (Hcase : h' = h -> n < Z.of_nat (size (serversMap (master s)))).
  { intros ->. destruct Hh as (p & Hp & _ & [?|Hsh]); [done|]. assert (p' = p) as -> by congruence.
    rewrite Hsh, orb_true_r in Hrun'. done. }
  destruct (decide (f = RequestLost)) as [->|Hf].
  { unfold happen in E. rewrite Hp', Hrun' in E. injection E as <-. apply Hown; [done|].
    apply orb_false_iff in Hrun' as [? _]. split; [done|by right]. }
  apply orb_false_iff in Hrun' as [Hrun' Hsh'].
  destruct (slave_registers n s h' p' range f Hinv Hp' Hrun' Hsh' He Hf) as (m & answer & Hreg & E' & _).
  cbn zeta in E'. rewrite E in E'. injection E' as ->. change (slaves s) with (slaves (s <| master := m |>)).
  apply Hown; [eapply hopeless_master; [by eapply registered_more|done]|]. intros Eh. specialize (Hcase Eh). cbn.
  destruct (register_refused n range _ s m answer Hinv He Hcase Hreg) as [Hm Hans]. split; [|by left].
  destruct f; [|done..]. unfold registerTurn. destruct answer as [r|]; [|done]. specialize (Hans r eq_refl).
  by destruct (rr_Status r =? OK) eqn:Er; breflect.
Qed.

Lemma hopeless_step n s s' h : inv n s -> hopeless n s h -> step s s' -> hopeless n s' h.
Proof.
  intros Hinv Hh (e & He & E). destruct e as [range|h' k id|h' range f|h' mode|h' f]; cbn [proper] in He.
  - destruct (selfRegistered s) eqn:Hself; [unfold happen in E; rewrite Hself in E; by injection E as <-|].
    destruct (master_registers n s range Hinv Hself He) as (m & answer & Hreg & E' & _).
    rewrite E in E'. injection E' as ->. eapply hopeless_master in Hh; [exact Hh|by eapply registered_more].
  - unfold happen in E. destruct (NewStorageServer masterHost k id) as [[ss|]| |]; cbn in E; try done;
      [|by injection E as <-].
    case_bool_decide as Hfree; injection E as <-; [done|]. apply hopeless_other; [|done].
    intros ->. apply Hfree. right. destruct Hh as (p & Hp & _). by eexists.
  - by eapply hopeless_call.
  - unfold happen in E. case_bool_decide; by injection E as <-.
  - unfold happen in E. destruct (askers s !! h') as [a|]; [|by injection E as <-].
    cbn zeta in E. destruct (resume h' _); by injection E as <-.
Qed.

Lemma hopeless_never n s h : inv n s -> hopeless n s h -> forall s' ss, rtc step s s' -> ~ serving s' h ss.
Proof.
  intros Hinv Hh s' ss R.
  assert (Hkeep : inv n s' /\ hopeless n s' h).
  { eapply (rtc_invariant step (fun s => inv n s /\ hopeless n s h)); [|done|exact R].
    intros s1 s2 [I1 H1] St. split; [by eapply start_inv_step|by eapply hopeless_step]. }
  destruct Hkeep as [I' (p & Hp & Hrun & _)]. destruct (iv_slaves _ _ I' _ _ Hp) as [Hne _].
  intros [(? & _)|(p' & Hp' & _ & Hrun')]; [done|]. congruence.
Qed.

(** A call that is lost shuts the client of the slave down. *)
Lemma lost_call n s h p range f s' : inv n s -> slaves s !! h = Some p -> running p = false -> shutdown p = false ->
  (forall l, Permutation (range l) l) -> f <> Delivered ->
  happen (SlaveCalls h range f) s = Ret s' -> hopeless n s' h.
Proof.
  intros Hinv Hp Hrun Hsh Hr Hf E.
  assert (Hlast : forall s0, hopeless n (s0 <| slaves := <[h := loseConnection p]> (slaves s0) |>) h).
  { intros s0. exists (loseConnection p). cbn. rewrite lookup_insert_eq. auto. }
  destruct (decide (f = RequestLost)) as [->|Hq].
  - unfold happen in E. rewrite Hp, Hrun, Hsh in E. injection E as <-. apply Hlast.
  - destruct (slave_registers n s h p range f Hinv Hp Hrun Hsh Hr Hq) as (m & answer & _ & E' & _).
    cbn zeta in E'. rewrite E in E'. injection E' as ->. destruct f; [done..|].
    exact (Hlast (s <| master := m |>)).
Qed.

(** ** The system that has come up *)

(** The running processes as the system of [StorageCluster]. *)
Definition storageSystem (s : sys) (clock : nat -> Time) (fates : nat -> StorageCluster.fate) : StorageCluster.cluster :=
  StorageCluster.mkCluster (<[masterHost := master s]> (server <$> slaves s)) (libs s) clock fates 0.

Lemma fresh_sets ss : fresh ss -> sets ss.
Proof. intros (_ & Hl & _) k l. unfold lists. rewrite Hl, fmap_empty, lookup_empty. done. Qed.

Lemma started_ready n s n0 hosts clk fates :
  inv n s -> masterWaiting (master s) = false -> (forall h, is_Some (slaves s !! h) -> up s h) ->
  head (serversList (master s)) = Some n0 -> (forall i j, (i <= j)%nat -> clk i <= clk j) -> hosts ⊆ dom (libs s) ->
  StorageCluster.ready (serversList (master s)) n0 hosts (storageSystem s clk fates).
Proof.
  intros Hinv Hw Hup Hn0 Hclk Hme. pose proof (master_ok _ _ Hinv Hw) as Hok. split; cbn; try done.
  - intros h ls Hls. by destruct (iv_libs _ _ Hinv h ls Hls) as (_ & ? & ? & _).
  - intros nd Hin. pose proof (ring_nodes n s nd Hinv Hok Hin) as Hnd. pose proof (iv_ids _ _ Hinv _ _ Hnd) as Hid.
    unfold idAt in Hid. case_bool_decide as Eh.
    + exists (master s). split; [by rewrite Eh, lookup_insert_eq|]. injection Hid as Hid.
      split; try done; [by apply Hinv|by apply fresh_sets, Hinv].
    + destruct (slaves s !! HostPort nd) as [p|] eqn:Ep; [|done]. injection Hid as Hid.
      destruct (Hup (HostPort nd)) as (p' & Ep' & Hrun); [by eexists|]. rewrite Ep in Ep'. injection Ep' as <-.
      destruct (iv_slaves _ _ Hinv _ _ Ep) as (_ & Hf & Hr). destruct (Hr Hrun) as (_ & ? & ? & _).
      exists (server p). split; [by rewrite lookup_insert_ne, lookup_fmap, Ep|].
      split; try done; [by apply Hf|by apply fresh_sets].
  - intros k h ls Hls. destruct (iv_libs _ _ Hinv h ls Hls) as (_ & _ & _ & Hv & Hl). cbn in *.
    destruct (StorageCluster.uncached k ls) as [? Hc]; [by rewrite Hv, lookup_empty|by rewrite Hl, lookup_empty|].
    split; [done|]. intros x l E. rewrite Hc in E. done.
Qed.

(** ** Properties *)

(** C26: the servers and libstores that run share one ring.  Whatever the order
    of starts, registrations and requests, and whichever calls fail, no process
    blocks on the master's signal, and the only one that panics is a slave
    started for a negative number of nodes.  Every server whose
    [NewStorageServer] has returned is ready and has the master's server list,
    every libstore that [NewLibstore] returned has it too, and it is sorted by
    node id, has the expected number of entries, no host twice, and the id of
    each process at its host; a slave that runs is on it, and so is the master
    unless as many slaves came first.  With distinct ids, a running server on
    the list accepts exactly the keys that libstores send to its host. *)
Theorem ring_assembled n id s :
  reachable n id s ->
  let ring := serversList (master s) in
  (forall e, proper e ->
     (happen e s = Panic <-> exists h k id, e = StartSlave h k id /\ k < 0) /\
     (happen e s <> Panic -> exists s', happen e s = Ret s')) /\
  (forall h ss, serving s h ss -> status ss = OK /\ serversList ss = ring /\
     (h <> masterHost \/ Z.of_nat (size (slaves s)) < n -> mkNode h (nodeID ss) ∈ ring)) /\
  (forall h ls, libs s !! h = Some ls -> Libstore.Servers ls = ring) /\
  ((exists h ss, serving s h ss) \/ (exists h, is_Some (libs s !! h)) ->
     StronglySorted by_id ring /\ Z.of_nat (length ring) = n /\ NoDup (HostPort <$> ring) /\
     forall nd, nd ∈ ring -> idAt s (HostPort nd) = Some (NodeID nd)) /\
  (NoDup (NodeID <$> ring) -> forall h ss h' ls key, serving s h ss -> libs s !! h' = Some ls ->
     mkNode h (nodeID ss) ∈ ring ->
     Libstore.Findshashring key ls = Ret h <-> checkIsRightServer key ss = Ret true).
Proof.
  intros Hinv%inv_reachable ring.
  assert (Hring : status (master s) = OK -> ring_ok (master s)).
  { intros Hok. destruct (reg_phase _ _ (iv_reg _ _ Hinv)) as [(_ & E & _)|(_ & _ & ?)]; [by rewrite E in Hok|done]. }
  split_and!.
  - intros e He. destruct (negative e) eqn:Hneg.
    + rewrite (happen_negative e s Hneg). split; [|done]. split; [|done]. intros _.
      destruct e as [|h k i| | |]; try done. exists h, k, i. split; [done|]. by apply Z.ltb_lt.
    + destruct (inv_happen n s e Hinv He Hneg) as (s' & E & _). rewrite E. split; [|by exists s'].
      split; [done|]. intros (h & k & i & -> & Hk%Z.ltb_lt). cbn in Hneg. congruence.
  - intros h ss Hs. destruct (serving_ok n s h ss Hinv Hs) as (Hok & ? & ? & _ & Hin). split_and!; try done.
    destruct (decide (h = masterHost)) as [->|]; [|by auto]. intros [|Hlt]; [done|].
    destruct Hs as [(_ & -> & _)|(p & Hp & _)]; [by eapply master_in_ring|].
    by destruct (iv_slaves _ _ Hinv _ _ Hp).
  - intros h ls Hls. by destruct (iv_libs _ _ Hinv h ls Hls) as (_ & ? & _).
  - intros Hrun. assert (Hok : status (master s) = OK).
    { destruct Hrun as [(h & ss & Hs)|(h & ls & Hls)]; [by destruct (serving_ok n s h ss Hinv Hs)|].
      by destruct (iv_libs _ _ Hinv h ls Hls). }
    destruct (Hring Hok) as [? Hlen ?]. split_and!; try done; [|intros nd Hin; by apply (iv_ids _ _ Hinv), (ring_nodes n)].
    unfold ring. rewrite Hlen. by destruct (reg_nodes _ _ (iv_reg _ _ Hinv)).
  - intros Hids h ss h' ls key Hs Hls Hin. destruct (serving_ok n s h ss Hinv Hs) as (Hok & _ & Hss & _).
    destruct (Hring Hok). apply (place_agrees ring); try done. by destruct (iv_libs _ _ Hinv h' ls Hls) as (_ & ? & _).
Qed.

(** C27: the start comes to its end with exactly the servers it was made for,
    unless a slave loses its connection, and not with one too many.  From every
    state the system can reach with [n - 1] slaves, none of which has lost a call
    before it ran, it can go on to a state in which the master and all slaves
    run, any new libstore [me] gets the ring, and the running processes are a
    storage system that is up, empty caches and stores included, in the sense of
    the interface the tribbler server builds on.  But a slave whose connection
    broke in a call of RegisterServer, whether or not the master handled it,
    never runs, since its loop goes on with the client that has shut down; nor
    does, once more than [n] hosts have registered, any slave that is still
    waiting for its OK, even one that registered in time. *)
Theorem startup_completes n id s :
  reachable n id s ->
  (Z.of_nat (size (slaves s)) + 1 = n -> all_sound s -> forall me clk fates,
     askers s !! me = None -> (forall i j, (i <= j)%nat -> clk i <= clk j) ->
     exists s' n0, rtc step s s' /\ dom (slaves s') = dom (slaves s) /\
       (forall h, h = masterHost \/ is_Some (slaves s !! h) -> exists ss, serving s' h ss) /\
       {[me]} ∪ dom (libs s) ⊆ dom (libs s') /\
       StorageCluster.ready (serversList (master s')) n0 (dom (libs s')) (storageSystem s' clk fates)) /\
  (forall h p range f s1, slaves s !! h = Some p -> running p = false -> shutdown p = false ->
     (forall l, Permutation (range l) l) -> f <> Delivered ->
     happen (SlaveCalls h range f) s = Ret s1 ->
     forall s' ss, rtc step s1 s' -> ~ serving s' h ss) /\
  (n < Z.of_nat (size (serversMap (master s))) -> forall h p, slaves s !! h = Some p ->
     running p = false -> forall s' ss, rtc step s s' -> ~ serving s' h ss).
Proof.
  intros Hinv%inv_reachable. split_and!.
  - intros Hn Hsound me clk fates Ha Hclk. destruct (all_run n s Hinv Hsound Hn) as (s1 & R1 & I1 & L1 & Hw & Hup).
    pose proof (master_ok _ _ I1 Hw) as Hok.
    assert (exists n0, head (serversList (master s1)) = Some n0) as [n0 Hn0].
    { destruct (reg_phase _ _ (iv_reg _ _ I1)) as [(_ & E & _)|(_ & _ & [_ Hlen _])]; [by rewrite E in Hok|].
      destruct (reg_nodes _ _ (iv_reg _ _ I1)) as [En Hpos]. rewrite En in Hlen.
      destruct (serversList (master s1)) as [|n0 l]; [cbn in Hlen; lia|by exists n0]. }
    assert (Hserve : forall s2, master s2 = master s1 -> slaves s2 = slaves s1 ->
      dom (slaves s2) = dom (slaves s) /\
      forall h, h = masterHost \/ is_Some (slaves s !! h) -> exists ss, serving s2 h ss).
    { intros s2 Em Es. rewrite Es, (lt_slaves _ _ L1). split; [done|]. intros h [->|Hh].
      - exists (master s1). left. by rewrite Em.
      - apply elem_of_dom in Hh. rewrite <- (lt_slaves _ _ L1) in Hh. apply elem_of_dom in Hh.
        destruct (Hup h Hh) as (p & Hp & Hr). exists (server p). right. exists p. by rewrite Es. }
    assert (exists s2, rtc step s1 s2 /\ master s2 = master s1 /\ slaves s2 = slaves s1 /\ inv n s2 /\
      {[me]} ∪ dom (libs s1) ⊆ dom (libs s2)) as (s2 & R2 & Em & Es & I2 & Hme).
    { destruct (libs s1 !! me) as [ls|] eqn:E.
      { exists s1. apply elem_of_dom_2 in E. split_and!; [apply rtc_refl|done..|set_solver]. }
      destruct (lib_starts n s1 me Libstore.Normal I1 Hok) as [ls R]; [by rewrite (lt_askers _ _ L1)|done|].
      eexists. split; [exact R|]. split_and!; try done; [|cbn; by rewrite dom_insert_L].
      eapply rtc_invariant; [|exact I1|exact R]. exact (start_inv_step n). }
    destruct (Hserve s2 Em Es) as [Hd Hs]. exists s2, n0. split; [by etrans|]. split; [done|]. split; [done|].
    split; [by rewrite <- (lt_libs _ _ L1)|].
    apply (started_ready n); rewrite ?Em; try done. intros h. unfold up. rewrite Es. apply Hup.
  - intros h p range f s1 Hp Hrun Hsh Hr Hf E. assert (Hs : step s s1) by (eapply step_happen; [|exact E]; exact Hr).
    apply (hopeless_never n); [by eapply start_inv_step|]. by eapply lost_call.
  - intros Hlt h p Hp Hrun. apply (hopeless_never n); [done|]. exists p. auto.
Qed.

(** ** A concrete start *)

(** A sequence of events. *)
Fixpoint happens (es : list event) (s : sys) : outcome sys :=
  match es with
  | [] => Ret s
  | e :: es' => s ← happen e s; happens es' s
  end.

Lemma happens_steps es : forall s s', Forall proper es -> happens es s = Ret s' -> rtc step s s'.
Proof.
  induction es as [|e es IH]; intros s s'; cbn; [intros _ [= <-]; apply rtc_refl|].
  intros [He Hes]%Forall_cons. destruct (happen e s) as [s1| |] eqn:E; try done. cbn. intros Hr.
  eapply rtc_l; [by eapply step_happen|by apply IH].
Qed.
End start.

(** A new master at "a:1" with node 7, for two servers. *)
Definition demo_initial : sys :=
  mkSys (mkServer NotReady ∅ ∅ true 7 2 [mkNode "" 0; mkNode "" 0] ∅ ∅ ∅ true) false ∅ ∅ ∅.

(** A slave that has to call twice, and a libstore that first asks too early. *)
Definition demo_events : list event :=
  [StartSlave "b:2" 2 3; StartLib "c:3" Libstore.Normal; LibAsks "c:3" Delivered;
   SlaveCalls "b:2" (fun l => l) Delivered; MasterRegisters (fun l => l);
   SlaveCalls "b:2" (fun l => l) Delivered; LibAsks "c:3" Delivered].

Definition demo_after (k : nat) : sys :=
  match happens "a:1" (take k demo_events) demo_initial with Ret s => s | _ => demo_initial end.

Lemma demo_proper k : Forall proper (take k demo_events).
Proof. apply Forall_take. unfold demo_events.
  repeat (apply Forall_cons; split; [first [exact I|intros l; reflexivity]|]). by apply Forall_nil. Qed.

Lemma demo_reachable k :
  happens "a:1" (take k demo_events) demo_initial = Ret (demo_after k) -> reachable "a:1" 2 7 (demo_after k).
Proof.
  intros E. exists demo_initial. split; [by repeat split|]. eapply happens_steps; [apply demo_proper|exact E].
Qed.

Lemma ring_assembled_witness :
  (exists ss, serving "a:1" (demo_after 7) "b:2" ss) /\
  serversList (master (demo_after 7)) = [mkNode "b:2" 3; mkNode "a:1" 7] /\
  StronglySorted by_id (serversList (master (demo_after 7))) /\
  NoDup (HostPort <$> serversList (master (demo_after 7))).
Proof.
  assert (Hs : exists ss, serving "a:1" (demo_after 7) "b:2" ss).
  { eexists. right. eexists. split; [vm_compute; reflexivity|]. split; reflexivity. }
  destruct (ring_assembled "a:1" 2 7 (demo_after 7)) as (_ & _ & _ & Hring & _).
  - apply demo_reachable. vm_compute. reflexivity.
  - split; [exact Hs|]. split; [vm_compute; reflexivity|].
    destruct Hs as [ss Hs]. destruct Hring as (? & _ & ? & _); [left; by exists "b:2", ss|]. by split.
Defined.

Lemma startup_completes_witness :
  exists s' n0, rtc (step "a:1") (demo_after 1) s' /\ "c:3" ∈ dom (libs s') /\
    StorageCluster.ready (serversList (master s')) n0 (dom (libs s')) (storageSystem "a:1" s' Z.of_nat (fun _ => StorageCluster.Delivered)).
Proof.
  destruct (startup_completes "a:1" 2 7 (demo_after 1)) as [Hgo _].
  - apply demo_reachable. vm_compute. reflexivity.
  - assert (Hsound : all_sound (demo_after 1)).
    { intros h p Hp. vm_compute in Hp. right. destruct (decide (h = "b:2")) as [->|Hne].
      - injection Hp as <-. reflexivity.
      - exfalso. change (({["b:2" := mkProcess
          (mkServer NotReady ∅ ∅ false 3 2 [mkNode "" 0; mkNode "" 0] ∅ ∅ ∅ false) false false]}
          : gmap string process) !! h = Some p) in Hp. by rewrite lookup_singleton_ne in Hp. }
    destruct (Hgo ltac:(vm_compute; reflexivity) Hsound "c:3" Z.of_nat (fun _ => StorageCluster.Delivered)) as (s' & n0 & ? & _ & _ & Hl & ?).
    + vm_compute. reflexivity.
    + intros i j. lia.
    + exists s', n0. split; [done|]. split; [set_solver|done].
Defined.

(** A second slave that comes too late is refused, and keeps the first one, which
    had registered before the ring was complete, from ever running. *)
Example one_slave_too_many :
  let es := [StartSlave "b:2" 2 3; SlaveCalls "b:2" (fun l => l) Delivered; MasterRegisters (fun l => l);
             StartSlave "d:4" 2 9; SlaveCalls "d:4" (fun l => l) Delivered;
             SlaveCalls "b:2" (fun l => l) Delivered] in
  exists s, happens "a:1" es demo_initial = Ret s /\ status (master s) = OK /\
    (running <$> slaves s !! "b:2") = Some false.
Proof. eexists. split; [vm_compute; reflexivity|]. split; vm_compute; reflexivity. Qed.

(** A slave whose first answer is lost: it is in the ring of the master, which
    runs, and calls in vain. *)
Example answer_lost :
  let es := [StartSlave "b:2" 2 3; MasterRegisters (fun l => l); SlaveCalls "b:2" (fun l => l) ReplyLost;
             SlaveCalls "b:2" (fun l => l) Delivered] in
  exists s, happens "a:1" es demo_initial = Ret s /\ masterWaiting (master s) = false /\
    serversList (master s) = [mkNode "b:2" 3; mkNode "a:1" 7] /\
    (running <$> slaves s !! "b:2") = Some false.
Proof. eexists. split; [vm_compute; reflexivity|]. split_and!; vm_compute; reflexivity. Qed.

(** Slaves that register before the master's own goroutine does can leave it
    outside the ring: it runs, but no key is its own. *)
Example master_left_out :
  let es := [StartSlave "b:2" 2 3; StartSlave "d:4" 2 9; SlaveCalls "b:2" (fun l => l) Delivered;
             SlaveCalls "d:4" (fun l => l) Delivered; MasterRegisters (fun l => l)] in
  exists s, happens "a:1" es demo_initial = Ret s /\ masterWaiting (master s) = false /\
    serversList (master s) = [mkNode "b:2" 3; mkNode "d:4" 9].
Proof. eexists. split; [vm_compute; reflexivity|]. split; vm_compute; reflexivity. Qed.

End StorageStart.
