(* ===== verification/ServerMains.v ===== *)
(** * ServerMains: the programs that start the servers

    - [Module FlightServerRunner] ([p3/.../runners/srunner/srunner.go]): [main]
      with the peer it makes, and the loop that passes [deaf] and [wake] on.
    - [Module StorageRunner] ([p2/.../runners/srunner/srunner.go]) and
      [Module TribServerRunner] ([p2/.../runners/trunner/trunner.go]): [main] of the
      storage server and of the tribbler server; they start the processes of
      [StorageStart].
    - [Module EchoRunner] ([p0/.../srunner/srunner.go]).

    The values of the flags are arguments.  A server that has started serves
    until it is killed. *)
From Stdlib Require Import Strings.Ascii.
From S2P Require Import Prelude GoFlag PaxosRpc Paxos FlightServer EchoServer StorageRpc StorageServer Libstore StorageStart.
Open Scope Z_scope.

(** What becomes of [main]: it ends with a status ([log.Fatalln] with 1), or the
    server it has made goes on serving.  Both with what has been printed. *)
Inductive started (A : Type) :=
  | Exits (out : list string) (status : Z)
  | Serves (out : list string) (server : A).
Arguments Exits {A} out status.
Arguments Serves {A} out server.

(** ** The flight server *)

Module FlightServerRunner.
Import Paxos.

Definition quote : string := String "034" EmptyString.

(** [server.NewServer]: the Paxos instance and the empty server. *)
Definition NewServer (paxosPeers : list string) (paxosMe : Z) : outcome (px * FlightServer.server + string) :=
  r ← Make paxosPeers paxosMe false;
  Ret (match r with inl p => inl (p, FlightServer.NewServer) | inr err => inr err end).

Definition main (mode : Z) (peers : string) (me : Z) : outcome (started (px * FlightServer.server)) :=
  let out := ["server is started"] in
  if negb (mode =? 0) && negb (mode =? 1) then Ret (Exits (out ++ ["mode invalid"]) 1)
  else
    let peersList := Split "," peers in
    if (me <? 0) || (Z.of_nat (length peersList) <=? me)
    then Ret (Exits (out ++ [Println [quote +:+ "me" +:+ quote; "provided"; "invalid"]]) 1)
    else
      r ← NewServer peersList me;
      Ret (match r with
           | inr err => Exits (out ++ [Println ["Failed to create server:"; err]]) 1
           | inl server =>
               Serves (out ++ if mode =? 0 then
                 ["Please type 'deaf' or 'wake' to turn the paxos instance of the server to deaf or awake mode"]
                 else []) server
           end).

(** A turn of the loop: [word] is what [Scanln] stores, nothing for an empty
    line or at the end of the input, when [s] keeps the last word. *)
Definition turn (word : option string) (s : string) (p : px) : outcome (string * px * string) :=
  let s := default s word in
  if String.eqb s "deaf" then Ret (s, Deaf p, "paxos instance is deaf")
  else if String.eqb s "wake" then p ← Wake p; Ret (s, p, "paxos instance is awaked")
  else Ret (s, p, "command invalid").

Fixpoint loop (words : list (option string)) (s : string) (p : px) : outcome (string * px * list string) :=
  match words with
  | [] => Ret (s, p, [])
  | word :: words =>
      '(s, p, line) ← turn word s p; '(s, p, lines) ← loop words s p; Ret (s, p, line :: lines)
  end.

(** The address of the peer has a port. *)
Definition addressed (p : px) : Prop :=
  0 <= me p /\ exists self, peers p !! Z.to_nat (me p) = Some self /\ count_colons self <> 0%nat.

Lemma Wake_ret p : addressed p -> Wake p = Ret (if deaf p then p <| l := Some Listening |> <| deaf := false |> else p).
Proof.
  intros (Hme & self & Hs & Hc). unfold Wake. destruct (deaf p); [|done].
  rewrite (proj2 (Z.ltb_ge (me p) 0)) by done. rewrite Hs. cbn.
  by rewrite (proj2 (Nat.eqb_neq _ _) Hc).
Qed.

(** The program serves for exactly the flags that make sense, on a peer that
    listens, and never panics. *)
Lemma main_serves mode peers me :
  let peersList := Split "," peers in
  let valid := (mode = 0 \/ mode = 1) /\ 0 <= me < Z.of_nat (length peersList) /\
    Forall (fun peer => count_colons peer = 1%nat) peersList in
  exists r, main mode peers me = Ret r /\
    match r with
    | Exits _ status => ~ valid /\ status = 1
    | Serves _ (p, s) => valid /\ s = FlightServer.NewServer /\ addressed p /\ counters_ok p /\
        l p = Some Listening /\ deaf p = false /\ isLocked p = false /\ Paxos.peers p = peersList
    end.
Proof.
  intros peersList valid. unfold main. fold peersList.
  destruct (negb _ && _) eqn:Em; breflect; [eexists; split; [done|]; split; [|done]; intros ([]&_); lia|].
  destruct (_ || _) eqn:Eme; breflect; [eexists; split; [done|]; split; [|done]; intros (_&?&_); lia|].
  assert (Hmode : mode = 0 \/ mode = 1) by (destruct (decide (mode = 0)), (decide (mode = 1)); auto; lia).
  destruct (lookup_lt_is_Some_2 peersList (Z.to_nat me)) as [self Hself]; [lia|].
  unfold NewServer. destruct (Make peersList me false) as [r| |] eqn:E; revert E; unfold Make;
    (destruct (forallb _ _) eqn:Ef;
     [rewrite (proj2 (Z.ltb_ge me 0)) by done; rewrite Hself; cbn|]); intros [= <-] || intros [=].
  - eexists. split; [done|]. cbn.
    assert (Hall : Forall (fun peer => count_colons peer = 1%nat) peersList).
    { rewrite forallb_forall in Ef. apply Forall_forall. intros x Hx%list_elem_of_In. apply Ef in Hx. by apply Nat.eqb_eq. }
    split; [done|]. split; [done|]. split.
    + split; [done|]. exists self. split; [done|]. rewrite Forall_forall in Hall.
      rewrite Hall; [done|]. by eapply list_elem_of_lookup_2.
    + split; [|done]. eapply (Make_counters peersList me false). unfold Make. rewrite Ef.
      rewrite (proj2 (Z.ltb_ge me 0)) by done. rewrite Hself. reflexivity.
  - eexists. split; [done|]. split; [|done]. intros (_ & _ & Hall).
    rewrite (proj2 (forallb_forall _ _)) in Ef; [done|]. intros x Hx%list_elem_of_In. apply Nat.eqb_eq.
    rewrite Forall_forall in Hall. auto.
Qed.

Lemma turn_addressed word s p s' p' line : addressed p -> turn word s p = Ret (s', p', line) -> addressed p'.
Proof.
  intros Ha. unfold turn. destruct (String.eqb _ "deaf"); [by intros [= <- <- <-]|].
  destruct (String.eqb _ "wake"); [|by intros [= <- <- <-]]. rewrite Wake_ret by done. intros [= <- <- <-].
  by destruct (deaf p).
Qed.

Lemma turn_ret word s p : addressed p -> exists r, turn word s p = Ret r.
Proof.
  intros Ha. unfold turn. destruct (String.eqb _ "deaf"); [by eexists|].
  destruct (String.eqb _ "wake"); [|by eexists]. rewrite Wake_ret by done. by eexists.
Qed.

(** The loop goes on whatever is typed; no command but the typed one touches
    the peer. *)
Lemma loop_total words : forall s p, addressed p ->
  exists s' p' lines, loop words s p = Ret (s', p', lines) /\ addressed p' /\ length lines = length words.
Proof.
  induction words as [|word words IH]; intros s p Ha; cbn [loop]; [by exists s, p, []|].
  destruct (turn_ret word s p Ha) as [[[s1 p1] line] E]. pose proof (turn_addressed _ _ _ _ _ _ Ha E) as Ha1.
  rewrite E. destruct (IH s1 p1 Ha1) as (s' & p' & lines & El & Ha' & Hlen). cbn. rewrite El.
  exists s', p', (line :: lines). split_and!; [done..|cbn; congruence].
Qed.

(** A word again changes nothing. *)
Lemma turn_again word s p s' p' line : turn word s p = Ret (s', p', line) ->
  s' = default s word /\ turn None s' p' = Ret (s', p', line).
Proof.
  unfold turn. cbn [default]. generalize (default s word). intros w.
  destruct (String.eqb_spec w "deaf") as [->|Hd].
  { intros [= <- <- <-]. split; [done|]. cbn. do 3 f_equal. unfold Deaf, RemoteKill. cbn. by destruct (l p). }
  destruct (String.eqb_spec w "wake") as [->|Hw].
  - intros (q & Hq & [= <- <- <-])%bind_Ret_inv. split; [done|]. cbn. revert Hq. unfold Wake.
    destruct (deaf p) eqn:Ed; [|intros [= <-]; by rewrite Ed]. intros (self & _ & H)%bind_Ret_inv.
    destruct (Nat.eqb _ 0); [done|]. by injection H as <-.
  - intros [= <- <- <-]. split; [done|]. by rewrite (proj2 (String.eqb_neq w "deaf")), (proj2 (String.eqb_neq w "wake")).
Qed.

(** At the end of the input the last command is repeated for ever. *)
Lemma input_ended n word s p s' p' line : turn word s p = Ret (s', p', line) ->
  loop (word :: replicate n None) s p = Ret (s', p', replicate (S n) line).
Proof.
  intros E. cbn [loop]. rewrite E. cbn [mbind outcome_bind].
  assert (Hn : loop (replicate n None) s' p' = Ret (s', p', replicate n line)); [|by rewrite Hn].
  apply turn_again in E as [_ E]. induction n as [|n IH]; [done|]. cbn [replicate loop]. by rewrite E; cbn; rewrite IH.
Qed.

Example deaf_and_end :
  exists p s, main 0 "a:1,b:2" 1 = Ret (Serves ["server is started";
      "Please type 'deaf' or 'wake' to turn the paxos instance of the server to deaf or awake mode"] (p, s)) /\
    loop [Some "deaf"; None; None] "" p =
      Ret ("deaf", Deaf p, ["paxos instance is deaf"; "paxos instance is deaf"; "paxos instance is deaf"]).
Proof. do 2 eexists. split; vm_compute; reflexivity. Qed.
End FlightServerRunner.

(** ** The storage server *)

Module StorageRunner.
Import StorageRpc StorageServer StorageStart.

Definition defaultMasterPort : Z := 9009.

(** The values of the flags; [id] is a [uint]. *)
Record flags := mkFlags { port : Z; masterHostPort : string; numNodes : Z; nodeID : Z }.

Definition localHost : string := "127.0.0.1".

(** The port listened on and the id; [randint] is what [rand.Uint32] gives. *)
Definition portOf (f : flags) : Z :=
  if bool_decide (masterHostPort f = "") && (port f =? 0) then defaultMasterPort else port f.
Definition randID (f : flags) (randint : Z) : Z :=
  let id := wrap_u 32 (nodeID f) in if id =? 0 then randint else id.

(** [main]: the server with the address it registers under; a slave whose dial
    fails ends, and so does a server for no nodes. *)
Definition main (f : flags) (randint : Z) (dialed : bool) : outcome (started (string * storageServer)) :=
  r ← NewStorageServer (masterHostPort f) (numNodes f) (randID f randint);
  let failed err := Exits [Println ["Failed to create storage server:"; err]] 1 in
  Ret (match r with
       | inr err => failed err
       | inl ss =>
           if negb (isMaster ss) && negb dialed then failed "cannot create connection to the master server"
           else Serves [] (localHost +:+ ":" +:+ Itoa (portOf f), ss)
       end).

(** A program without a master is the master that [StorageStart] starts with,
    for as many servers as it says; its port is never 0. *)
Lemma main_master f randint dialed out host ss :
  main f randint dialed = Ret (Serves out (host, ss)) -> masterHostPort f = "" ->
  initial (numNodes f) (randID f randint) (mkSys ss false ∅ ∅ ∅) /\ portOf f <> 0.
Proof.
  unfold main. intros (r & Er & H)%bind_Ret_inv Hm. injection H as H. destruct r as [ss'|]; [|done].
  destruct (negb _ && _); [done|]. injection H as <- <- <-. rewrite Hm in Er. split; [by split|].
  unfold portOf. rewrite Hm. destruct (Z.eqb_spec (port f) 0); [done|]. by rewrite andb_false_r.
Qed.

(** A program with a master is a slave that [StorageStart] starts, at an address
    of its own. *)
Lemma main_slave masterHost f randint dialed out host ss s :
  main f randint dialed = Ret (Serves out (host, ss)) -> masterHostPort f = masterHost -> masterHost <> "" ->
  host <> masterHost -> slaves s !! host = None ->
  happen masterHost (StartSlave host (numNodes f) (randID f randint)) s =
    Ret (s <| slaves := <[host := mkProcess ss false false]> (slaves s) |>) /\ dialed = true.
Proof.
  unfold main. intros (r & Er & H)%bind_Ret_inv Hm Hne Hh Hs. injection H as H. destruct r as [ss'|]; [|done].
  destruct (negb _ && _) eqn:Eb; [done|]. injection H as <- <- <-. unfold happen.
  rewrite <- Hm, Er. cbn [mbind outcome_bind].
  rewrite bool_decide_eq_false_2; [|intros [|[? ?]]; congruence]. split; [done|].
  revert Er Eb. unfold NewStorageServer. destruct (_ <? 0); [done|]. destruct (_ <=? 0); [done|]. intros [= <-].
  cbn [isMaster]. rewrite bool_decide_eq_false_2 by congruence. by destruct dialed.
Qed.

(** The program ends for no nodes, and panics for a negative number. *)
Lemma main_nodes f randint dialed :
  (numNodes f < 0 -> main f randint dialed = Panic) /\
  (numNodes f = 0 -> main f randint dialed =
     Ret (Exits ["Failed to create storage server: numNodes illegal"] 1)).
Proof.
  unfold main, NewStorageServer. split; intros H.
  - by rewrite (proj2 (Z.ltb_lt _ _)).
  - by rewrite H.
Qed.

(** An id of 32 bits is used as it is; one whose low 32 bits are 0 is replaced. *)
Lemma randID_spec f randint :
  (0 < nodeID f < 2 ^ 32 -> randID f randint = nodeID f) /\
  (nodeID f mod 2 ^ 32 = 0 -> randID f randint = randint).
Proof.
  unfold randID, wrap_u. split; intros H.
  - rewrite Z.mod_small by lia. by destruct (Z.eqb_spec (nodeID f) 0); [lia|].
  - by rewrite H.
Qed.

(** A slave told to take any port registers under port 0, where no one is. *)
Example slave_without_port : exists ss,
  main (mkFlags 0 "127.0.0.1:9009" 2 5) 1 true = Ret (Serves [] ("127.0.0.1:0", ss)).
Proof. eexists. vm_compute. reflexivity. Qed.
End StorageRunner.

(** ** The tribbler server *)

Module TribServerRunner.
Import StorageRpc.

(** [net.JoinHostPort]: a host with a colon goes into brackets. *)
Definition JoinHostPort (host port : string) : string :=
  if existsb (Ascii.eqb ":") (String.list_ascii_of_string host) then "[" +:+ host +:+ "]:" +:+ port
  else host +:+ ":" +:+ port.

(** [tribserver.NewTribServer]: the libstore; [dial] and [reply] are what comes
    of its calls.  Its error is replaced. *)
Definition NewTribServer (dial : string -> bool) (reply : nat -> option GetServersReply)
    (masterServerHostPort myHostPort : string) : Libstore.libstore + string :=
  match Libstore.NewLibstore dial reply masterServerHostPort myHostPort Libstore.Normal with
  | inl ls => inl ls
  | inr _ => inr "not implemented"
  end.

Definition main (dial : string -> bool) (reply : nat -> option GetServersReply) (port : Z) (args : list string)
    : started Libstore.libstore :=
  if Nat.ltb (NArg args) 1 then Exits ["Usage: trunner <master storage server host:port>"] 1
  else
    let hostPort := JoinHostPort "localhost" (Itoa port) in
    match NewTribServer dial reply (Arg 0 args) hostPort with
    | inr err => Exits ["NewTribServer"; "New an libstore"; Println ["Server could not be created:"; err]] 1
    | inl server => Serves ["NewTribServer"; "New an libstore"] server
    end.

(** The libstore of the server is one that [StorageStart] starts, listening to
    revocations at the address of the tribbler server. *)
Lemma main_libstore reply port master rest out ls answers :
  (forall i, reply i = mjoin (answers !! i)) ->
  main (fun _ => true) reply port (master :: rest) = Serves out ls <->
  out = ["NewTribServer"; "New an libstore"] /\
  StorageStart.resume master ("localhost:" +:+ Itoa port) (StorageStart.mkAsker Libstore.Normal answers) = inl ls.
Proof.
  intros Hr. unfold main, NewTribServer, StorageStart.resume. cbn [NArg length Nat.ltb Nat.leb Arg nth StorageStart.as_mode StorageStart.as_answers].
  change (JoinHostPort "localhost" (Itoa port)) with ("localhost:" +:+ Itoa port).
  assert (E : forall tries n, Libstore.askServers tries n reply =
    Libstore.askServers tries n (fun i => mjoin (answers !! i))).
  { induction tries as [|tries IH]; intros n; cbn; [done|]. rewrite Hr. destruct (mjoin _) as [r|]; [|done].
    by destruct (_ =? _). }
  unfold Libstore.NewLibstore. cbn [negb]. rewrite E. destruct (Libstore.askServers _ _ _) as [l|e].
  - split; [by intros [= <- <-]|]. by intros [-> [= <-]].
  - split; [done|by intros [_ ?]].
Qed.

(** Whatever is wrong, the program reports the same. *)
Lemma main_failure dial reply port args :
  match main dial reply port args with
  | Serves _ _ => args <> []
  | Exits out status => status = 1 /\
      out = if decide (args = []) then ["Usage: trunner <master storage server host:port>"]
            else ["NewTribServer"; "New an libstore"; "Server could not be created: not implemented"]
  end.
Proof.
  unfold main, NewTribServer. destruct args as [|a args]; [done|]. cbn [NArg length Nat.ltb Nat.leb].
  by destruct (Libstore.NewLibstore _ _ _ _ _).
Qed.
End TribServerRunner.

(** ** The echo server *)

Module EchoRunner.
Import EchoServer.

Definition defaultPort : Z := 9999.

(** [main]; [listened] is what comes of [net.Listen] in [Start]. *)
Definition main (listened : option string) : started multiEchoServer :=
  match listened with
  | Some err => Exits ["MultiEchoServer could not be started: " +:+ err] 0
  | None => Serves ["Started MultiEchoServer on port " +:+ Itoa defaultPort +:+ "..."] Start
  end.

Lemma main_runs listened out s : main listened = Serves out s -> run s [].
Proof. destruct listened; intros [= <- <-]. constructor. Qed.
End EchoRunner.
