(* ===== verification/LspRunners.v ===== *)
(** * LspRunners: the demonstration of lsp
    ([p1/.../srunner/srunner.go], [crunner/crunner.go])

    A server that writes every message it reads back to where it came from, and
    after each calls [CloseConn(1)]; a client that sends the words of its input
    and prints what it reads.  [Module LspServerRunner] and [Module
    LspClientRunner] have [main] and the loops; [Module EchoSystem] puts the loop
    of the server program on top of [LspSystem]: any number of clients, a lossy
    network, and a server whose only user is the program.  What the program logs
    is left out. *)
From S2P Require Import Prelude LspBuffer LspCommon LspWindow LspNetwork LspClient LspServer LspApi LspSystem.
From S2P Require Import GoJson GoFlag ServerMains.
Open Scope Z_scope.

(** ** The server program *)

Module LspServerRunner.
Import Lspnet.

(** The values of the flags. *)
Record flags := mkFlags {
  port : Z; readDrop : Z; writeDrop : Z; epochLimit : Z; epochMillis : Z; windowSize : Z }.

Definition defaults : flags := mkFlags 9999 0 0 DefaultEpochLimit DefaultEpochMillis DefaultWindowSize.

Definition params (f : flags) : Params := mkParams (epochLimit f) (epochMillis f) (windowSize f).

(** [main]; [err] is the error of [NewServer]'s [listen]. *)
Definition main (f : flags) (err : option string) (net : lspnet) : lspnet * started Server.server :=
  let net := SetServerWriteDropPercent (writeDrop f) (SetServerReadDropPercent (readDrop f) net) in
  let out := ["Starting server on port " +:+ Itoa (port f) +:+ "..."] in
  (net, match err with
        | Some e => Exits (out ++ ["Failed to start Server on port " +:+ Itoa (port f) +:+ ": " +:+ e]) 0
        | None => Serves (out ++ ["Server waiting for clients..."]) (Server.NewServer (params f))
        end).

(** The call [runServer] is at. *)
Inductive code := AtRead | AtWrite (id : Z) (payload : list byte) | AtClose.

Definition call (pc : code) (ch : Z) : request :=
  match pc with
  | AtRead => sent (ServerApi.doRead ch)
  | AtWrite id payload => sent (ServerApi.Write id payload ch)
  | AtClose => sent (ServerApi.CloseConn 1 ch)
  end.

(** What it does with the reply, with the lines it prints. *)
Definition runServer (pc : code) (ch : Z) (r : retType) : outcome (code * list string) :=
  match pc with
  | AtRead =>
      '(id, payload, err) ← returns (ServerApi.doRead ch) r;
      Ret match err with
          | Some e => (AtRead, ["Client " +:+ Itoa id +:+ " has died: " +:+ e])
          | None => (AtWrite id payload, [])
          end
  | AtWrite id payload =>
      Ret match returns (ServerApi.Write id payload ch) r with
          | Some e => (AtRead, ["Server failed to write to connection " +:+ Itoa id +:+ ": " +:+ e])
          | None => (AtClose, [])
          end
  | AtClose => Ret (AtRead, [])
  end.
End LspServerRunner.

(** ** The client program *)

Module LspClientRunner.
Import Lspnet Json.

Record flags := mkFlags {
  port : Z; host : string; readDrop : Z; writeDrop : Z; epochLimit : Z; epochMillis : Z; windowSize : Z }.

Definition params (f : flags) : Params := mkParams (epochLimit f) (epochMillis f) (windowSize f).

(** [runClient]: the words of the input, and what [Write] and then [Read] return
    for each of them; without a result the program waits. *)
Fixpoint runClient (connID : Z) (words : list string) (calls : list (option string * (list byte + string)))
    : list string :=
  "Client: " ::
  match words, calls with
  | [], _ => ["Exiting..."]
  | _ :: _, [] => []
  | s :: words', (write, read) :: calls' =>
      match write with
      | Some err => ["Client " +:+ Itoa connID +:+ " failed to write to server: " +:+ err; "Exiting..."]
      | None =>
          ("Client " +:+ Itoa connID +:+ " wrote '" +:+ s +:+ "' to server") ::
          match read with
          | inr err => ["Client " +:+ Itoa connID +:+ " failed to read from server: " +:+ err; "Exiting..."]
          | inl payload => ("Server: " +:+ str payload) :: runClient connID words' calls'
          end
      end
  end.

(** [main]; [created] is what [NewClient] returns, by the id of the connection. *)
Definition main (f : flags) (created : Z + string) (words : list string)
    (calls : list (option string * (list byte + string))) (net : lspnet) : lspnet * list string :=
  let net := SetClientWriteDropPercent (writeDrop f) (SetClientReadDropPercent (readDrop f) net) in
  let hostport := TribServerRunner.JoinHostPort (host f) (Itoa (port f)) in
  let out := ["Connecting to server at '" +:+ hostport +:+ "'..."] in
  (net, match created with
        | inr err => out ++ ["Failed to connect to server at " +:+ hostport +:+ ": " +:+ err]
        | inl connID => out ++ runClient connID words calls
        end).

(** Over a server that echoes, every word is printed twice. *)
Lemma runClient_echo connID words :
  runClient connID words ((fun s => (None, inl (lit s))) <$> words) =
  concat ((fun s => ["Client: "; "Client " +:+ Itoa connID +:+ " wrote '" +:+ s +:+ "' to server"; "Server: " +:+ s]) <$> words)
  ++ ["Client: "; "Exiting..."].
Proof.
  induction words as [|s words IH]; [done|]. cbn [fmap list_fmap runClient concat app].
  unfold str, lit. rewrite String.string_of_list_byte_of_string. by rewrite <- IH.
Qed.
End LspClientRunner.

(** ** The server's handlers, one read at a time *)

Module OneReader.
Import Buffer Server.

(** The replies among the effects. *)
Definition reps (es : list effect) : list (Z * retType) :=
  omap (fun e => match e with Reply ch r => Some (ch, r) | SendMsg _ _ => None end) es.

Lemma reps_app es es' : reps (es ++ es') = reps es ++ reps es'.
Proof. apply omap_app. Qed.

Lemma reps_sends {A} (f : A -> effect) l : (forall x, reps [f x] = []) -> reps (f <$> l) = [].
Proof.
  intros Hf. induction l as [|x l IH]; [done|]. cbn [fmap list_fmap].
  change (f x :: (f <$> l)) with ([f x] ++ (f <$> l)). by rewrite reps_app, Hf, IH.
Qed.

Lemma reps_concat {A} (f : A -> list effect) l : (forall x, reps (f x) = []) -> reps (concat (f <$> l)) = [].
Proof. intros Hf. induction l as [|x l IH]; [done|]. cbn. by rewrite reps_app, Hf, IH. Qed.

Definition payload_of (id : Z) (x : Z * retType) : option (list byte) :=
  match x.2 with mkRet (IBundle b) None => if connId_ b =? id then Some (payload_ b) else None | _ => None end.

Lemma reads_of_reps id es : reads_of id es = omap (payload_of id) (reps es).
Proof.
  induction es as [|[to m|ch [[| | | |b] [e|]]] es IH]; try done; cbn; try exact IH.
  destruct (connId_ b =? id); cbn; [by f_equal|done].
Qed.

Lemma awaitReply_reps ch es :
  awaitReply ch es = match filter (fun x => x.1 = ch) (reps es) with [] => None | x :: _ => Some x.2 end.
Proof.
  induction es as [|[to m|ch' r] es IH]; [done|done|]. cbn [awaitReply reps omap list_omap].
  destruct (Z.eqb_spec ch' ch) as [->|Hne].
  - by rewrite filter_cons_True.
  - rewrite filter_cons_False by done. exact IH.
Qed.

(** A connection that takes no more writes. *)
Definition dead (s : server) (id : Z) : Prop := isActive s id = false \/ connIdHostportMap s !! id = None.

(** What holds of a server that is not being closed, over time. *)
Record ages (s s' : server) : Prop := {
  ag_id : connId s <= connId s';
  ag_dead : forall id, id <= connId s -> dead s id -> dead s' id;
  ag_close : deferedClose s' = deferedClose s;
  ag_run : serverRunning s' = serverRunning s }.

Lemma ages_refl s : ages s s.
Proof. done. Qed.

Lemma ages_trans s s' s'' : ages s s' -> ages s' s'' -> ages s s''.
Proof. intros [H1 H2 H3 H4] [K1 K2 K3 K4]. split; [lia| |congruence..]. intros id Hid Hd. apply K2; [lia|auto]. Qed.

(** The turns of a handler, with at most one read waiting: it stays, or it is
    answered. *)
Inductive answered : list request -> list request -> list (Z * retType) -> Prop :=
  | answered_not dr : answered dr dr []
  | answered_one q b e : answered [q] [] [(replyc q, mkRet (IBundle b) e)].

Lemma answered_trans dr dr' dr'' rs rs' : answered dr dr' rs -> answered dr' dr'' rs' -> answered dr dr'' (rs ++ rs').
Proof.
  intros [|q b e] H; [exact H|]. inversion H; subst; constructor.
Qed.

(** A turn of the server: it ages, and answers the read that waits, if any. *)
Definition turn_ok (s : server) (s' : server) (es : list effect) : Prop :=
  ages s s' /\ answered (deferedRead s) (deferedRead s') (reps es).

Lemma turn_trans s s' s'' es es' : turn_ok s s' es -> turn_ok s' s'' es' -> turn_ok s s'' (es ++ es').
Proof. intros [Ha Hr] [Ha' Hr']. split; [by eapply ages_trans|]. rewrite reps_app. by eapply answered_trans. Qed.

(** A turn that says nothing. *)
Lemma turn_quiet s s' es : ages s s' -> deferedRead s' = deferedRead s -> reps es = [] -> turn_ok s s' es.
Proof. intros Ha Hd Hr. split; [done|]. rewrite Hd, Hr. constructor. Qed.

(** Tables that have shrunk. *)
Lemma ages_shrink s s' :
  connId s' = connId s -> (forall id, isActive s id = false -> isActive s' id = false) ->
  (forall id, connIdHostportMap s !! id = None -> connIdHostportMap s' !! id = None) ->
  deferedClose s' = deferedClose s -> serverRunning s' = serverRunning s -> ages s s'.
Proof. intros Hc Ha Hh Hd Hr. split; [lia| |done..]. intros id _ [H|H]; [left|right]; auto. Qed.

Lemma isActive_delete s id k : isActive s id = false -> map_get false (delete k (activeConn s)) id = false.
Proof.
  unfold isActive, map_get. destruct (decide (k = id)) as [->|Hne]; [by rewrite lookup_delete_eq|].
  by rewrite lookup_delete_ne.
Qed.

Lemma lookup_delete_kept {A} (m : gmap Z A) k id : m !! id = None -> delete k m !! id = None.
Proof. rewrite lookup_delete_None. auto. Qed.

Section handlers.
Context (range : nat -> list Z -> list Z).

Lemma readReady_turn ks req s s' es : readReady ks req s = Ret (Some (s', es)) ->
  ages s s' /\ deferedRead s' = deferedRead s /\ exists b, reps es = [(replyc req, mkRet (IBundle b) None)].
Proof.
  induction ks as [|id ks IH]; cbn [readReady]; [done|].
  intros (rb & _ & H)%bind_Ret_inv. apply bind_Ret_inv in H as ([] & _ & H); [|by apply IH].
  apply bind_Ret_inv in H as ([m rb'] & _ & [= <- <-]). split; [by apply ages_shrink|]. split; [done|by eexists].
Qed.

Lemma readLost_turn ks req s s' es : readLost ks req s = Some (s', es) ->
  ages s s' /\ deferedRead s' = deferedRead s /\ exists b e, reps es = [(replyc req, mkRet (IBundle b) e)].
Proof.
  induction ks as [|id ks IH]; cbn [readLost]; [done|]. destruct (negb _); [|done].
  intros [= <- <-]. split; [by apply ages_shrink|]. split; [done|by do 2 eexists].
Qed.

(** A read, while no other waits. *)
Lemma handleRead_turn req s s' es : deferedRead s = [] -> deferedClose s = [] ->
  handleRead range req s = Ret (s', es) -> ages s s' /\ answered [req] (deferedRead s') (reps es).
Proof.
  intros Hd Hc. unfold handleRead, closing. rewrite Hc. cbn.
  intros (r & Hr & H)%bind_Ret_inv. destruct r as [[s1 es1]|].
  - injection H as <- <-. apply readReady_turn in Hr as (Ha & Hr & b & Hreps). rewrite Hr, Hd, Hreps. split; [done|constructor].
  - destruct (readLost _ req s) as [[s1 es1]|] eqn:El; injection H as <- <-.
    + apply readLost_turn in El as (Ha & Hr' & b & e & Hreps). rewrite Hr', Hd, Hreps. split; [done|constructor].
    + split; [by apply ages_shrink|]. cbn. rewrite Hd. constructor.
Qed.

Lemma slideWindow_reps to ws ub wb u w es : slideWindow (SendMsg to) ws ub wb = Ret (u, w, es) -> reps es = [].
Proof.
  intros H. apply (slideWindow_Forall (fun _ => True)) in H as (_ & _ & mv & -> & _); [|by apply Forall_forall..].
  by apply reps_sends.
Qed.

Lemma recvConnect_turn a s s' es : recvConnect a s = Ret (s', es) -> turn_ok s s' es.
Proof.
  unfold recvConnect. destruct (negb _ && _); intros [= <- <-]; [|by apply turn_quiet].
  apply turn_quiet; [|done..]. split; cbn; [lia| |done..]. intros id Hid [H|H].
  - left. unfold isActive. cbn. rewrite map_get_insert_ne by lia. exact H.
  - right. cbn. rewrite lookup_insert_ne by lia. exact H.
Qed.

Lemma cleanUp_turn a id s : ages s (cleanUp a id s) /\ deferedRead (cleanUp a id s) = deferedRead s.
Proof. split; [|done]. apply ages_shrink; try done. intros k. apply lookup_delete_kept. Qed.

Lemma recvAck_turn a m s s' es : recvAck a m s = Ret (s', es) -> turn_ok s s' es.
Proof.
  unfold recvAck. destruct (0 <? _); [|intros [= <- <-]; by apply turn_quiet]. cbn.
  intros (ub & _ & H)%bind_Ret_inv. destruct (Delete _ _) as [ex ub'].
  apply bind_Ret_inv in H as ([[u w] es1] & Hs & H).
  assert (Hes : reps es1 = []).
  { destruct ex; [|by injection Hs as <- <- <-]. apply bind_Ret_inv in Hs as (wb & _ & Hs).
    destruct (0 <? Len wb); [|by injection Hs as <- <- <-].
    apply bind_Ret_inv in Hs as ([[u' w'] es'] & Hs & [= <- <- <-]). by eapply slideWindow_reps. }
  destruct (ex && _ && _); injection H as <- <-; apply turn_quiet; try done.
  apply ages_shrink; try done. intros k. apply lookup_delete_kept.
Qed.

Lemma recvData_turn a m s s' es : (length (deferedRead s) <= 1)%nat -> deferedClose s = [] ->
  recvData range a m s = Ret (s', es) -> turn_ok s s' es.
Proof.
  intros Hl Hc. unfold recvData. destruct (_ && _ && _); [|intros [= <- <-]; by apply turn_quiet]. cbn.
  destruct (_ <=? _); [|intros [= <- <-]; by apply turn_quiet].
  intros (rb & _ & H)%bind_Ret_inv. apply bind_Ret_inv in H as (rb' & _ & H). apply bind_Ret_inv in H as (lb & _ & H).
  apply bind_Ret_inv in H as (lb' & _ & H). apply bind_Ret_inv in H as (lb2 & _ & H). cbn in H.
  destruct (deferedRead s) as [|q rest] eqn:Ed; [injection H as <- <-; by apply turn_quiet|].
  destruct (_ =? _); [|injection H as <- <-; by apply turn_quiet].
  destruct rest as [|q' rest]; [|cbn in Hl; lia].
  apply bind_Ret_inv in H as ([s1 es1] & Hr & [= <- <-]).
  apply handleRead_turn in Hr as [Ha Hr]; [|done..]. split; [|by rewrite Ed].
  destruct Ha as [H1 H2 H3 H4]. split; [exact H1| |exact H3|exact H4]. intros id Hid Hdead. by apply H2.
Qed.

Lemma loseConn_turn id s s' es : (length (deferedRead s) <= 1)%nat -> deferedClose s = [] ->
  loseConn id s = Ret (s', es) -> turn_ok s s' es.
Proof.
  intros Hl Hc. unfold loseConn, closing. rewrite Hc. cbn.
  intros (rb & _ & H)%bind_Ret_inv. apply bind_Ret_inv in H as (ready & _ & H).
  destruct (deferedRead s) as [|q rest] eqn:Ed; [|destruct rest; [|cbn in Hl; lia]; destruct ready].
  all: cbn in H; apply bind_Ret_inv in H as (a & _ & [= <- <-]).
  all: split; [apply ages_shrink; try done; cbn; [intros k; apply isActive_delete|intros k; apply lookup_delete_kept]|].
  all: cbn; rewrite Ed; constructor.
Qed.

Lemma answered_length dr dr' rs : answered dr dr' rs -> (length dr <= 1)%nat -> (length dr' <= 1)%nat.
Proof. intros [|]; cbn; lia. Qed.

Lemma detectLost_turn ks : forall s s' es, (length (deferedRead s) <= 1)%nat -> deferedClose s = [] ->
  detectLost ks s = Ret (s', es) -> turn_ok s s' es.
Proof.
  induction ks as [|id ks IH]; intros s s' es Hl Hc; cbn [detectLost]; [intros [= <- <-]; by apply turn_quiet|].
  destruct (latestActiveEpoch s !! id) as [n|]; [|by apply IH].
  intros ([s1 es1] & H1 & H)%bind_Ret_inv. apply bind_Ret_inv in H as ([s2 es2] & H2 & [= <- <-]).
  assert (Ht : turn_ok s s1 es1).
  { destruct (_ <=? _); [by eapply loseConn_turn|injection H1 as <- <-; by apply turn_quiet]. }
  eapply turn_trans; [exact Ht|]. destruct Ht as [Ha Hr]. eapply IH; [|by rewrite (ag_close _ _ Ha)|exact H2].
  by eapply answered_length.
Qed.

Lemma resend_reps s ks : reps (concat (resendAcks s <$> ks)) = [] /\ reps (concat (resendUnacked s <$> ks)) = [].
Proof.
  split; apply reps_concat; intros id.
  - unfold resendAcks. destruct (latestAckBuffer s !! id); [|done]. destruct (isActive s id); [|done].
    destruct (_ =? _); [done|]. by apply reps_sends.
  - unfold resendUnacked. destruct (unAckedMsgBuffer s !! id); [|done]. by apply reps_sends.
Qed.

Lemma handleEpoch_turn s s' es : (length (deferedRead s) <= 1)%nat -> deferedClose s = [] ->
  handleEpoch range s = Ret (s', es) -> turn_ok s s' es.
Proof.
  intros Hl Hc. unfold handleEpoch. cbn. intros ([s1 es1] & H1 & H)%bind_Ret_inv.
  apply detectLost_turn in H1 as Ht; [|done..].
  apply bind_Ret_inv in H as (n & _ & H).
  assert (Hcl : closing s1 = false). { unfold closing. rewrite (ag_close _ _ (proj1 Ht)). cbn. by rewrite Hc. }
  rewrite Hcl in H. cbn in H. injection H as <- <-.
  assert (Ht0 : turn_ok s s1 es1). { destruct Ht as [[? ? ? ?] ?]. by repeat split. }
  eapply turn_trans; [exact Ht0|]. apply turn_quiet; [done..|].
  rewrite reps_app, (proj1 (resend_reps s1 _)). apply resend_reps.
Qed.

Lemma handleReceivedMsg_turn req s s' es : (length (deferedRead s) <= 1)%nat -> deferedClose s = [] ->
  handleReceivedMsg range req s = Ret (s', es) -> turn_ok s s' es.
Proof.
  intros Hl Hc. unfold handleReceivedMsg. intros (pk & _ & H)%bind_Ret_inv. cbn in H.
  destruct (_ =? MsgConnect); [by eapply recvConnect_turn|]. destruct (_ =? MsgAck); [by eapply recvAck_turn|].
  destruct (_ =? MsgData); [by eapply recvData_turn|]. injection H as <- <-. by apply turn_quiet.
Qed.

(** A write is accepted, or the connection is dead. *)
Lemma handleWrite_turn id p ch s s' es : deferedClose s = [] ->
  handleWrite (mkRequest dowrite (IBundle (mkBundle id p)) ch) s = Ret (s', es) ->
  ages s s' /\ deferedRead s' = deferedRead s /\
  ((reps es = [(ch, mkRet INil None)] /\ ~ dead s id) \/
   (exists e, reps es = [(ch, mkRet INil (Some e))]) /\ dead s id /\ s' = s).
Proof.
  intros Hc. unfold handleWrite, closing. rewrite Hc. cbn. destruct (isActive s id) eqn:Ea; cbn.
  2: { intros [= <- <-]. split; [done|]. split; [done|]. right. split; [by eexists|]. split; [by left|done]. }
  destruct (connIdHostportMap s !! id) as [a|] eqn:Eh.
  2: { intros [= <- <-]. split; [done|]. split; [done|]. right. split; [by eexists|]. split; [by right|done]. }
  intros (ub & _ & H)%bind_Ret_inv. apply bind_Ret_inv in H as (wb & _ & H).
  apply bind_Ret_inv in H as ([] & _ & H); apply bind_Ret_inv in H as (b & _ & [= <- <-]).
  all: split; [by apply ages_shrink|]; split; [done|]; left; split; [done|]; unfold dead; rewrite Ea, Eh; by intros [|].
Qed.

(** A connection is closed while no read waits. *)
Lemma handleCloseConn_turn id ch s s' es : deferedRead s = [] ->
  handleCloseConn (mkRequest docloseconn (IInt id) ch) s = Ret (s', es) ->
  ages s s' /\ deferedRead s' = [] /\ exists e, reps es = [(ch, mkRet INil e)].
Proof.
  intros Hd. unfold handleCloseConn. cbn. destruct (isActive s id); [|intros [= <- <-]; split_and!; eauto; done].
  rewrite Hd. cbn. intros (ub & _ & H)%bind_Ret_inv. apply bind_Ret_inv in H as (pend & _ & H).
  apply bind_Ret_inv in H as (s1 & H1 & [= <- <-]). split; [|split; [|by eexists]].
  - apply (ages_trans _ s1).
    + destruct (negb pend); [|by injection H1 as <-]. apply bind_Ret_inv in H1 as (a & _ & [= <-]).
      apply ages_shrink; try done. intros k. apply lookup_delete_kept.
    + apply ages_shrink; try done. intros k. apply isActive_delete.
  - destruct (negb pend); [|by injection H1 as <-]. by apply bind_Ret_inv in H1 as (a & _ & [= <-]).
Qed.

End handlers.

Lemma accepts_reps es : accepts es = existsb (fun x => match x.2 with mkRet INil None => true | _ => false end) (reps es).
Proof. unfold accepts. induction es as [|[to m|ch r] es IH]; [done|exact IH|]. cbn. by rewrite IH. Qed.

End OneReader.

(** ** The program on top of the protocol *)

Module EchoSystem.
Import LspServerRunner OneReader System.
Import (hints) Client Server.

(** The protocol; where the server program is, whether it waits for the reply
    of its call, the channel of that call, and what it has printed. *)
Record world := mkWorld { lsp : system; pc : code; awaiting : bool; chan : Z; out : list string }.

Definition start (p : Params) : world := mkWorld (initial p) AtRead false 1 [].

Inductive action :=
  | AtClient (ev : event)                   (* a client starts, is called, times out or gets a packet *)
  | Established (a : UDPAddr)               (* [NewClient] returns *)
  | Arrives (a : UDPAddr) (i : nat)         (* effect [i] of the client at [a] arrives at the server *)
  | Tick                                    (* the epoch timer of the server *)
  | Calls.                                  (* the program makes its next call *)

Section steps.
Context (p : Params) (range : nat -> nat -> list Z -> list Z).

(** A turn of the server's event loop, after which the program goes on if its
    call has been answered. *)
Definition serve (req : request) (w : world) : outcome world :=
  let S := lsp w in
  '(s, es) ← Server.eventHandler (range (length (sins S))) req (srv S);
  let S := mkSystem (clients S) s (sins S ++ [req]) (seff S ++ es) (swrites S ++ server_wrote req es) in
  match (if awaiting w then awaitReply (chan w) es else None) with
  | None => Ret (mkWorld S (pc w) (awaiting w) (chan w) (out w))
  | Some r => '(pc, lines) ← runServer (pc w) (chan w) r; Ret (mkWorld S pc false (chan w + 1) (out w ++ lines))
  end.

Definition with_lsp (S : system) (w : world) : world := mkWorld S (pc w) (awaiting w) (chan w) (out w).

(** An action, where it can happen; [Panic] is a crash of the server. *)
Definition step (x : action) (w : world) : option (outcome world) :=
  match x with
  | AtClient ev =>
      match ev with
      | Start _ | Turn _ _ | ToClient _ _ => S ← exec1 p ev (lsp w); Some (Ret (with_lsp S w))
      | ToServer _ _ | AtServer _ => None
      end
  | Established a =>
      c ← clients (lsp w) !! a;
      if decide (Client.connEstablishedSignal (cl c) = 1%nat) then
        Some (Ret (with_lsp (mkSystem
          (<[a := mkClientSide ((cl c) <| Client.connEstablishedSignal := 0%nat |>) (cins c) (ceff c) (cwrites c)]>
             (clients (lsp w))) (srv (lsp w)) (sins (lsp w)) (seff (lsp w)) (swrites (lsp w))) w))
      else None
  | Arrives a i =>
      c ← clients (lsp w) !! a;
      match ceff c !! i with
      | Some (SendMsg None m) => m' ← transmit m; Some (serve (packet_request m' a) w)
      | _ => None
      end
  | Tick => Some (serve tick w)
  | Calls =>
      if awaiting w then None
      else Some (serve (call (pc w) (chan w)) (mkWorld (lsp w) (pc w) true (chan w) (out w)))
  end.

Fixpoint steps (xs : list action) (w : world) : option (outcome world) :=
  match xs with
  | [] => Some (Ret w)
  | x :: xs' =>
      r ← step x w;
      match r with Ret w' => steps xs' w' | Panic => Some Panic | Hang => Some Hang end
  end.

(** *** The invariant *)

(** The message the program has read and not yet written. *)
Definition pending (pc : code) (id : Z) : list (list byte) :=
  match pc with AtWrite id' payload => if id' =? id then [payload] else [] | _ => [] end.

(** What has been written is what has been read, until the connection is dead. *)
Definition echoed (S : system) (pc : code) (id : Z) : Prop :=
  exists dn, Server.reads_of id (seff S) = dn ++ pending pc id /\
    (writes_of id (swrites S) = dn \/
     dead (srv S) id /\ id <= Server.connId (srv S) /\ writes_of id (swrites S) `prefix_of` dn).

Record sound (S : system) (pc : code) : Prop := {
  so_reach : reachable p S;
  so_open : Server.deferedClose (srv S) = [];
  so_runs : Server.serverRunning (srv S) = true;
  so_id : forall id payload, pc = AtWrite id payload -> id <= Server.connId (srv S);
  so_echo : forall id, echoed S pc id }.

(** The read that waits. *)
Definition waits (w : world) : list request := if awaiting w then [call AtRead (chan w)] else [].

Record good (w : world) : Prop := {
  gd_sound : sound (lsp w) (pc w);
  gd_read : Server.deferedRead (srv (lsp w)) = waits w;
  gd_pc : awaiting w = true -> pc w = AtRead }.

(** A turn: how the echo goes on. *)
Lemma echoed_turn S s es req pc pc' id got put :
  ages (srv S) s -> echoed S pc id ->
  Server.reads_of id es = got -> writes_of id (server_wrote req es) = put ->
  pending pc id ++ got = put ++ pending pc' id \/
    (put = [] /\ dead (srv S) id /\ id <= Server.connId (srv S) /\ got = [] /\ pending pc' id = []) ->
  (put <> [] -> ~ dead (srv S) id) ->
  echoed (mkSystem (clients S) s (sins S ++ [req]) (seff S ++ es) (swrites S ++ server_wrote req es)) pc' id.
Proof.
  intros Ha (dn & Hr & Hw) Hgot Hput Hstep Hdead. unfold echoed. cbn [seff swrites srv].
  rewrite Server.reads_of_app, writes_of_app, Hr, Hgot, Hput. destruct Hstep as [Hstep|(-> & Hd & Hid & -> & Hp)].
  - exists (dn ++ put). rewrite <- app_assoc, Hstep, app_assoc. split; [done|]. destruct Hw as [->|(Hd & Hid & Hw)]; [by left|].
    assert (put = []) as -> by (destruct put; [done|by destruct Hdead]).
    rewrite !app_nil_r. right. split; [by apply (ag_dead _ _ Ha)|]. split; [|done]. pose proof (ag_id _ _ Ha). lia.
  - exists (dn ++ pending pc id). rewrite Hp, !app_nil_r. split; [done|]. right.
    split; [by apply (ag_dead _ _ Ha)|]. split; [pose proof (ag_id _ _ Ha); lia|].
    destruct Hw as [->|(_ & _ & Hw)]; [by apply prefix_app_r|by apply prefix_app_r].
Qed.

Context (range_perm : forall t, Server.is_range (range t)).

(** The system after a turn of the server. *)
Definition turned (S : system) (req : request) (s : Server.server) (es : list effect) : system :=
  mkSystem (clients S) s (sins S ++ [req]) (seff S ++ es) (swrites S ++ server_wrote req es).

Definition resume (S : system) (es : list effect) (w : world) : outcome world :=
  match (if awaiting w then awaitReply (chan w) es else None) with
  | None => Ret (with_lsp S w)
  | Some r => '(pc, lines) ← runServer (pc w) (chan w) r; Ret (mkWorld S pc false (chan w + 1) (out w ++ lines))
  end.

(** A turn that [LspSystem] allows and that the server survives. *)
Record turns (S : system) (req : request) (s : Server.server) (es : list effect) : Prop := {
  tn_run : Server.eventHandler (range (length (sins S))) req (srv S) = Ret (s, es);
  tn_typed : Server.well_typed_req req = true;
  tn_from : from_client (clients S) req;
  tn_ages : ages (srv S) s }.

Lemma sound_turn S pc req s es pc' : sound S pc -> turns S req s es ->
  (forall id, echoed (turned S req s es) pc' id) ->
  (forall id payload, pc' = AtWrite id payload -> pc' = pc \/ Server.reads_of id es <> []) ->
  sound (turned S req s es) pc'.
Proof.
  intros [Hr Hc Hrun Hid He] [Hev Hty Hfrom Ha] He' Hid'.
  assert (Hreach : reachable p (turned S req s es)) by (eapply reach_server; eauto).
  split; cbn [turned srv]; [done|by rewrite (ag_close _ _ Ha)|by rewrite (ag_run _ _ Ha)| |done].
  intros id payload Hpc. pose proof (ag_id _ _ Ha). destruct (Hid' id payload Hpc) as [E|Hne].
  { subst pc'. specialize (Hid id payload (eq_sym E)). lia. }
  destruct (decide (id <= Server.connId s)) as [|Hgt]; [done|]. exfalso.
  apply Hne. apply reachable_ok in Hreach as [_ Hsr _ _].
  destruct (Server.ti_fresh _ _ _ _ _ _ (Server.server_run_tinv _ _ _ _ Hsr) id) as [_ Hf]; [cbn; lia|].
  cbn [turned seff] in Hf. rewrite Server.reads_of_app in Hf. by apply app_eq_nil in Hf as [_ ?].
Qed.

(** Turns in which a read is answered, or nothing is. *)
Lemma read_turn w req s es : sound (lsp w) (pc w) -> (awaiting w = true -> pc w = AtRead) ->
  turns (lsp w) req s es -> answered (waits w) (Server.deferedRead s) (reps es) -> server_wrote req es = [] ->
  exists w', resume (turned (lsp w) req s es) es w = Ret w' /\ good w'.
Proof.
  intros Hs Hpc Ht Hans Hw. destruct w as [S c aw ch o]. cbn [lsp pc awaiting] in *. unfold resume. cbn [awaiting chan pc out].
  assert (Hput : forall id, writes_of id (server_wrote req es) = []) by (intros id; by rewrite Hw).
  inversion Hans as [dr E1 E2 E3|q b e E1 E2 E3].
  - rewrite awaitReply_reps, <- E3. cbn. exists (mkWorld (turned S req s es) c aw ch o). split; [by destruct aw|].
    split; [|done|done]. apply (sound_turn S c); [done..| |].
    + intros id. eapply echoed_turn; [apply Ht|apply Hs|by rewrite reads_of_reps, <- E3|apply Hput|left; by rewrite app_nil_r|done].
    + intros id payload _. by left.
  - destruct aw; [|discriminate E1]. injection E1 as ->. specialize (Hpc eq_refl) as ->.
    rewrite awaitReply_reps, <- E3, filter_cons_True by done. cbn [filter list_filter snd].
    exists (mkWorld (turned S req s es)
      (match e with None => AtWrite (connId_ b) (payload_ b) | Some _ => AtRead end) false (ch + 1)
      (o ++ match e with Some err => ["Client " +:+ Itoa (connId_ b) +:+ " has died: " +:+ err] | None => [] end)).
    split; [by destruct e|]. split; [|exact (eq_sym E2)|done].
    assert (Hgot : forall id, Server.reads_of id es =
      match e with Some _ => [] | None => if connId_ b =? id then [payload_ b] else [] end).
    { intros id. rewrite reads_of_reps, <- E3. destruct e; cbn; [done|]. by destruct (connId_ b =? id). }
    apply (sound_turn S AtRead); [done..| |].
    + intros id. eapply echoed_turn; [apply Ht|apply Hs|apply Hgot|apply Hput|left; by destruct e|done].
    + intros id payload. rewrite Hgot. destruct e; [done|]. intros [= <- <-]. right. by rewrite Z.eqb_refl.
Qed.

Lemma serve_resume req w w' : serve req w = Ret w' -> exists s es,
  Server.eventHandler (range (length (sins (lsp w)))) req (srv (lsp w)) = Ret (s, es) /\
  resume (turned (lsp w) req s es) es w = Ret w'.
Proof. unfold serve. intros ([s es] & E & H)%bind_Ret_inv. by exists s, es. Qed.

Lemma waits_length w : (length (waits w) <= 1)%nat.
Proof. unfold waits. destruct (awaiting w); cbn; lia. Qed.

(** A packet, or the timer. *)
Lemma good_world_turn w req w' : op req = receivemsg \/ op req = epochtimer -> Server.well_typed_req req = true ->
  from_client (clients (lsp w)) req -> good w -> serve req w = Ret w' -> good w'.
Proof.
  intros Hop Hty Hfrom [Hs Hd Hpc] (s & es & Hev & Hres)%serve_resume. pose proof (waits_length w) as Hl.
  assert (Ht : turn_ok (srv (lsp w)) s es).
  { revert Hev. unfold Server.eventHandler. destruct Hop as [-> | ->]; rewrite <- Hd in Hl.
    - apply handleReceivedMsg_turn; [done|apply Hs].
    - apply handleEpoch_turn; [done|apply Hs]. }
  destruct Ht as [Ha Hans]. rewrite Hd in Hans.
  destruct (read_turn w req s es) as (w2 & E & G); try done.
  - apply ServerSide.server_wrote_other. by destruct Hop as [-> | ->].
  - rewrite Hres in E. by injection E as <-.
Qed.

(** The program's own calls. *)
Lemma good_call_read w w' : good w -> awaiting w = false -> pc w = AtRead ->
  serve (call AtRead (chan w)) (mkWorld (lsp w) AtRead true (chan w) (out w)) = Ret w' -> good w'.
Proof.
  intros [Hs Hd Hpc] Haw Ep (s & es & Hev & Hres)%serve_resume. unfold waits in Hd.
  cbn [lsp pc awaiting chan out] in *. rewrite Haw in Hd. rewrite Ep in Hs.
  pose proof Hev as Hev'. apply (handleRead_turn (range (length (sins (lsp w))))) in Hev as [Ha Hans]; [|done|apply Hs].
  assert (Ht : turns (lsp w) (call AtRead (chan w)) s es) by (by split).
  destruct (read_turn (mkWorld (lsp w) AtRead true (chan w) (out w)) (call AtRead (chan w)) s es) as (w2 & E & G); try done.
  cbn [lsp] in E. rewrite Hres in E. by injection E as <-.
Qed.

Lemma good_call_write w id q w' : good w -> awaiting w = false -> pc w = AtWrite id q ->
  serve (call (AtWrite id q) (chan w)) (mkWorld (lsp w) (AtWrite id q) true (chan w) (out w)) = Ret w' -> good w'.
Proof.
  intros [Hs Hd Hpc] Haw Ep (s & es & Hev & Hres)%serve_resume. unfold waits in Hd.
  cbn [lsp pc awaiting chan out] in *. rewrite Haw in Hd. rewrite Ep in Hs.
  pose proof Hev as Hev'. apply handleWrite_turn in Hev as (Ha & Hr & Hcase); [|apply Hs].
  assert (Ht : turns (lsp w) (call (AtWrite id q) (chan w)) s es) by (by split).
  assert (Hgot : forall k, Server.reads_of k es = []).
  { intros k. rewrite reads_of_reps. destruct Hcase as [[-> _]|[[e ->] _]]; done. }
  unfold resume in Hres. cbn [awaiting] in Hres. rewrite awaitReply_reps in Hres.
  assert (Hwrote : server_wrote (call (AtWrite id q) (chan w)) es = if accepts es then [(id, q)] else []) by done.
  rewrite accepts_reps in Hwrote. destruct Hcase as [[E Hdead]|[[e E] [Hdead ->]]]; rewrite E in Hres, Hwrote;
    cbn [chan] in Hres; rewrite filter_cons_True in Hres by done; cbn in Hres;
    cbn [existsb snd orb] in Hwrote; injection Hres as <-.
  all: split; [|by cbn; rewrite ?Hr|done]; apply (sound_turn (lsp w) (AtWrite id q)); [done..| |done].
  - intros k. eapply echoed_turn; [apply Ht|apply Hs|apply Hgot|exact (f_equal (writes_of k) Hwrote)|left|].
    + cbn [pc pending]. destruct (Z.eqb_spec id k) as [->|Hne]; [by rewrite writes_of_self|].
      by rewrite writes_of_other by congruence.
    + destruct (decide (k = id)) as [->|Hne]; [done|]. by rewrite writes_of_other by congruence.
  - intros k. eapply echoed_turn; [apply Ht|apply Hs|apply Hgot|exact (f_equal (writes_of k) Hwrote)| |done].
    cbn [pc pending]. destruct (Z.eqb_spec id k) as [->|Hne]; [right|by left].
    split_and!; try done. by eapply (so_id _ _ Hs).
Qed.

Lemma good_call_close w w' : good w -> awaiting w = false -> pc w = AtClose ->
  serve (call AtClose (chan w)) (mkWorld (lsp w) AtClose true (chan w) (out w)) = Ret w' -> good w'.
Proof.
  intros [Hs Hd Hpc] Haw Ep (s & es & Hev & Hres)%serve_resume. unfold waits in Hd.
  cbn [lsp pc awaiting chan out] in *. rewrite Haw in Hd. rewrite Ep in Hs.
  pose proof Hev as Hev'. apply handleCloseConn_turn in Hev as (Ha & Hr & e & E); [|done].
  assert (Ht : turns (lsp w) (call AtClose (chan w)) s es) by (by split).
  unfold resume in Hres. cbn [awaiting] in Hres. rewrite awaitReply_reps, E in Hres. cbn [chan] in Hres.
  rewrite filter_cons_True in Hres by done. cbn in Hres. injection Hres as <-.
  split; [|exact Hr|done]. apply (sound_turn (lsp w) AtClose); [done..| |done].
  intros k. eapply echoed_turn; [apply Ht|apply Hs|by rewrite reads_of_reps, E|done|by left|done].
Qed.

(** The clients' own events leave the server alone. *)
Definition same_server (S S' : system) : Prop :=
  srv S' = srv S /\ seff S' = seff S /\ swrites S' = swrites S.

Lemma client_turn_server a inp S S' : client_turn a inp S = Some S' -> same_server S S'.
Proof.
  unfold client_turn. intros (c & _ & H)%bind_Some. destruct (match inp with None => true | Some _ => _ end); [|done].
  by destruct (Client.eventHandler inp (cl c)) as [[c' es]| |]; simplify_eq.
Qed.

Lemma client_event_server ev S S' : match ev with Start _ | Turn _ _ | ToClient _ _ => True | _ => False end ->
  exec1 p ev S = Some S' -> same_server S S'.
Proof.
  destruct ev as [a|a inp|a i|a i|req]; try done; intros _; cbn [exec1].
  - by destruct (clients S !! a); intros; simplify_eq.
  - destruct (not_packet inp); [apply client_turn_server|done].
  - destruct (seff S !! i) as [[[a'|] m|]|]; try done. intros (m' & _ & H)%bind_Some.
    destruct (bool_decide (a' = a)); [|done]. by eapply client_turn_server.
Qed.

Lemma good_clients S w : good w -> reachable p S -> same_server (lsp w) S -> good (with_lsp S w).
Proof.
  intros [[Hr Hc Hrun Hid He] Hd Hpc] Hreach (Es & Ee & Ew). split; [|by cbn; rewrite Es|done].
  split; cbn; rewrite ?Es; try done. intros id. destruct (He id) as (dn & H1 & H2). exists dn. by rewrite Es, Ee, Ew.
Qed.

Lemma echo_step x w w' : good w -> step x w = Some (Ret w') -> good w'.
Proof.
  intros G. destruct x as [ev|a|a i| |]; cbn [step].
  - intros H. assert (Hev : match ev with Start _ | Turn _ _ | ToClient _ _ => True | _ => False end) by by destruct ev.
    assert (H' : (S ← exec1 p ev (lsp w); Some (Ret (with_lsp S w))) = Some (Ret w')) by by destruct ev.
    apply bind_Some in H' as (S & E & [= <-]). apply good_clients; [done| |by eapply client_event_server].
    apply (exec_reachable p [ev] (lsp w)); [apply G|]. cbn [exec]. by rewrite E.
  - intros (c & Hc & H)%bind_Some. case_decide as Hs; [|done]. injection H as <-. apply good_clients; [done| |done].
    by apply reach_established; [apply G| |].
  - intros (c & Hc & H)%bind_Some. destruct (ceff c !! i) as [[[a'|] m|]|] eqn:Ei; try done.
    apply bind_Some in H as (m' & Hm%transmit_delivered & [= H]).
    apply (good_world_turn w (packet_request m' a)); [by left|done| |done|done].
    intros _. exists (mkPacket m' a), m, c. split_and!; [done|done| |done]. by eapply list_elem_of_lookup_2.
  - intros [= H]. by apply (good_world_turn w tick); [right|..].
  - destruct (awaiting w) eqn:Ea; [done|]. intros [= H]. destruct (pc w) as [|id q|] eqn:Ep.
    + by apply (good_call_read w).
    + by apply (good_call_write w id q).
    + by apply (good_call_close w).
Qed.

Lemma echo_steps xs : forall w w', good w -> steps xs w = Some (Ret w') -> good w'.
Proof.
  induction xs as [|x xs IH]; intros w w' G; cbn [steps]; [by intros [= <-]|].
  intros (r & Er & H)%bind_Some. destruct r as [w1| |]; try done. apply (IH w1); [|done]. by eapply echo_step.
Qed.

Lemma good_start : good (start p).
Proof.
  split; [|done|done]. split; try done; [constructor|]. intros id. exists []. split; [done|by left].
Qed.

(** What is written to a connection is a prefix of what has been read from it. *)
Lemma echo_prefix w id : good w -> writes_of id (swrites (lsp w)) `prefix_of` Server.reads_of id (seff (lsp w)).
Proof.
  intros G. destruct (so_echo _ _ (gd_sound _ G) id) as (dn & -> & [->|(_ & _ & H)]).
  - by apply prefix_app_r.
  - by apply prefix_app_r.
Qed.
End steps.
(** ** Executions *)

Definition demo_steps (xs : list action) : option (outcome world) :=
  steps NewParams (fun _ => Server.in_order) xs (start NewParams).

(** A client connects and writes one byte, which the program reads. *)
Definition connects (a : UDPAddr) (i : nat) : list action :=
  [AtClient (Start a); AtClient (Turn a (user doconnect INil 1)); Arrives a 0; AtClient (ToClient a i); Established a].
Definition sends (a : UDPAddr) (b : byte) : list action :=
  [AtClient (Turn a (user dowrite (IBytes [b]) 2)); Arrives a 2].

(** The message is echoed, and comes back. *)
Definition demo_echo : list action :=
  connects "a:1" 0 ++ [Calls] ++ sends "a:1" x68 ++ [Calls; AtClient (ToClient "a:1" 3); AtClient (Turn "a:1" (user doread INil 3))].

(** The echo is lost; the client says that it is alive, and then nothing more. *)
Definition demo_crash : list action :=
  connects "a:1" 0 ++ [Calls] ++ sends "a:1" x68 ++ [Calls; Calls; AtClient (Turn "a:1" (Some tick)); Arrives "a:1" 4]
  ++ repeat Tick 5.

(** The second client's message is echoed. *)
Definition demo_innocent : list action :=
  connects "a:1" 0 ++ connects "b:2" 1 ++ [Calls] ++ sends "b:2" x68 ++ [Calls; Calls].

(** C22: the demonstration of lsp.  Any number of clients, whose users do
    anything, a network that loses, delays, duplicates and reorders, and a server
    whose only user is the program that echoes: what a client that has been
    granted one connection reads is a prefix of what it has written, each message
    once and in order.  But the program closes connection 1 after every message:
    the echo of the first message of another client ends the connection of the
    first one, of which nothing has been read; and where the echo to connection 1
    is lost and the client, after one more sign of life, is silent, the epoch
    timer crashes the server. *)
Theorem echo_over_lsp :
  (forall p range xs w a c id,
     (forall t, Server.is_range (range t)) -> steps p range xs (start p) = Some (Ret w) ->
     clients (lsp w) !! a = Some c -> Server.granted (seff (lsp w)) id a ->
     (forall id', Server.granted (seff (lsp w)) id' a -> id' = id) ->
     read_payloads (ceff c) `prefix_of` cwrites c) /\
  (exists w, demo_steps demo_innocent = Some (Ret w) /\ Server.granted (seff (lsp w)) 1 "a:1" /\
     Server.isActive (srv (lsp w)) 1 = false /\ Server.reads_of 1 (seff (lsp w)) = [] /\
     Server.reads_of 2 (seff (lsp w)) = [[x68]]) /\
  demo_steps demo_crash = Some Panic.
Proof.
  split; [|split].
  - intros p range xs w a c id Hrange E Hc Hg Huniq.
    pose proof (echo_steps p range Hrange xs _ _ (good_start p) E) as G.
    pose proof (so_reach _ _ _ (gd_sound _ _ G)) as Hr.
    transitivity (writes_of id (swrites (lsp w))); [by eapply client_reads_prefix|].
    transitivity (Server.reads_of id (seff (lsp w))); [by eapply echo_prefix|by eapply server_reads_prefix].
  - destruct (demo_steps demo_innocent) as [r|] eqn:E; [|vm_compute in E; discriminate E].
    vm_compute in E. injection E as <-. eexists. split; [reflexivity|]. split_and!; try (vm_compute; reflexivity).
    by left.
  - vm_compute. reflexivity.
Qed.

Definition demo_end (xs : list action) : world :=
  match demo_steps xs with Some (Ret w) => w | _ => start NewParams end.

Lemma echo_over_lsp_witness :
  exists c, clients (lsp (demo_end demo_echo)) !! "a:1" = Some c /\ read_payloads (ceff c) = [[x68]] /\
    [[x68]] `prefix_of` cwrites c.
Proof.
  assert (Hone : forall id, Server.granted (seff (lsp (demo_end demo_echo))) id "a:1" -> id = 1).
  { intros id Hin.
    assert (Hall : Forall (fun e => match e with
      | SendMsg _ m => SeqNum m = 0 -> ConnID m = 1 | Reply _ _ => True end) (seff (lsp (demo_end demo_echo)))).
    { vm_compute. repeat constructor. }
    rewrite Forall_forall in Hall. specialize (Hall _ Hin). by apply Hall. }
  assert (Hc : exists c, clients (lsp (demo_end demo_echo)) !! "a:1" = Some c /\ read_payloads (ceff c) = [[x68]]).
  { vm_compute. eexists. split; reflexivity. }
  destruct Hc as (c & Hc & Hread). exists c. split; [exact Hc|]. split; [exact Hread|]. rewrite <- Hread.
  apply (proj1 echo_over_lsp NewParams (fun _ => Server.in_order) demo_echo (demo_end demo_echo) "a:1" c 1).
  - intros t i ks. reflexivity.
  - vm_compute. reflexivity.
  - exact Hc.
  - apply list_elem_of_lookup_2 with 0%nat. vm_compute. reflexivity.
  - exact Hone.
Defined.

End EchoSystem.
