(* ===== verification/TribNetwork.v ===== *)
(** * TribNetwork: the social network that the tribbler servers implement

    What tribbler promises, without keys, storage and JSON: users, the
    subscriptions of each, and the tribbles of each under their ids
    ([network]), with the seven requests on it ([after], [answers]).
    [tribbler_refines_network] proves that any number of tribbler servers over
    the storage system of [StorageCluster] answer as this network does, for
    requests that follow one another at any of them. *)
From S2P Require Import Prelude GoTime StorageRpc StorageServer Libstore Lease TribServer TribJson.
From S2P Require Import StorageCluster StorageStart.
Open Scope Z_scope.

Module TribNetwork.
Import TribRpc TribServer.

(** ** The network *)

Record network := mkNetwork {
  users : gset string;
  subscriptions : gmap string (list string);
  posted : gmap string (list (Z * Tribble)) }.

#[export] Instance eta_network : EtaRecord network := fun n =>
  mkNetwork (users n) (subscriptions n) (posted n).

Definition subsOf (n : network) (u : string) : list string := default [] (subscriptions n !! u).
Definition postsOf (n : network) (u : string) : list (Z * Tribble) := default [] (posted n !! u).

(** A tribble under an id: in place of an old one with that id, or the last. *)
Fixpoint upsert (id : Z) (t : Tribble) (l : list (Z * Tribble)) : list (Z * Tribble) :=
  match l with
  | [] => [(id, t)]
  | (i, x) :: l' => if i =? id then (id, t) :: l' else (i, x) :: upsert id t l'
  end.

Inductive request :=
  | RCreateUser (u : string)
  | RAddSubscription (u v : string)
  | RRemoveSubscription (u v : string)
  | RGetSubscriptions (u : string)
  | RPostTribble (u contents : string) (time id : Z)
  | RGetTribbles (u : string)
  | RGetTribblesBySubscription (u : string).

Inductive reply :=
  | RStatus (st : Status)
  | RUsers (st : Status) (l : list string)
  | RTribbles (st : Status) (l : list Tribble)
  | RError (e : string).

(** A request whose clock reading is one of [UnixNano] after 1970. *)
Definition timely (q : request) : Prop :=
  match q with RPostTribble _ _ time _ => 0 <= time < 2 ^ 63 | _ => True end.

(** The network after a request; a tribble's strings lose what is not UTF-8. *)
Definition after (q : request) (n : network) : network :=
  match q with
  | RCreateUser u => n <| users := {[u]} ∪ users n |>
  | RAddSubscription u v =>
      if bool_decide (u ∈ users n /\ v ∈ users n)
      then n <| subscriptions := <[u := (StorageServer.append_spec v (subsOf n u)).2]> (subscriptions n) |>
      else n
  | RRemoveSubscription u v =>
      if bool_decide (u ∈ users n /\ v ∈ users n)
      then n <| subscriptions := <[u := (StorageServer.remove_spec v (subsOf n u)).2]> (subscriptions n) |>
      else n
  | RPostTribble u contents time id =>
      if bool_decide (u ∈ users n)
      then n <| posted :=
             <[u := upsert id (TribCodec.received (mkTribble u time contents)) (postsOf n u)]> (posted n) |>
      else n
  | RGetSubscriptions _ | RGetTribbles _ | RGetTribblesBySubscription _ => n
  end.

(** The newest 100 of [ts], newest first. *)
Definition timeline (ts shown : list Tribble) : Prop :=
  StronglySorted (fun t t' => Posted t' <= Posted t) shown /\ length shown = Nat.min 100 (length ts) /\
  exists older, Permutation (shown ++ older) ts /\ forall t t', t ∈ shown -> t' ∈ older -> Posted t' <= Posted t.

Definition checked (n : network) (u v : string) (st : Status) : Status :=
  if bool_decide (u ∈ users n) then if bool_decide (v ∈ users n) then st else NoSuchTargetUser else NoSuchUser.

(** The answers it may give. *)
Definition answers (q : request) (n : network) (r : reply) : Prop :=
  match q with
  | RCreateUser u => r = RStatus (if bool_decide (u ∈ users n) then Exists else OK)
  | RAddSubscription u v =>
      r = RStatus (checked n u v (if bool_decide (v ∈ subsOf n u) then Exists else OK))
  | RRemoveSubscription u v =>
      r = RStatus (checked n u v (if bool_decide (v ∈ subsOf n u) then OK else NoSuchTargetUser))
  | RGetSubscriptions u =>
      r = if bool_decide (u ∈ users n) then RUsers OK (subsOf n u) else RUsers NoSuchUser []
  | RPostTribble u _ _ id =>
      r = if bool_decide (u ∈ users n) then
            if bool_decide (id ∈ (postsOf n u).*1) then RError ("error AppendToList " +:+ itemThere) else RStatus OK
          else RStatus NoSuchUser
  | RGetTribbles u =>
      if bool_decide (u ∈ users n) then exists l, r = RTribbles OK l /\ timeline (postsOf n u).*2 l
      else r = RTribbles NoSuchUser []
  | RGetTribblesBySubscription u =>
      if bool_decide (u ∈ users n)
      then exists l, r = RTribbles OK l /\ timeline (mjoin ((fun v => (postsOf n v).*2) <$> subsOf n u)) l
      else r = RTribbles NoSuchUser []
  end.

(** ** The server *)

Section handle.
Context {W : Type} `{LibstoreOps W}.
Context (sort : list Tribble -> list Tribble) (order : list string -> list string).

Definition of_error {A} (f : A -> reply) (r : A + string) : reply :=
  match r with inl a => f a | inr e => RError e end.

(** The handler of each request, on a machine in zone [off]. *)
Definition handle (off : Z) (q : request) (w : W) : W * reply :=
  match q with
  | RCreateUser u =>
      let '(w, r) := CreateUser (mkCreateUserArgs u) w in (w, RStatus (cu_Status r))
  | RAddSubscription u v =>
      let '(w, r) := AddSubscription (mkSubscriptionArgs u v) w in (w, RStatus (su_Status r))
  | RRemoveSubscription u v =>
      let '(w, r) := RemoveSubscription (mkSubscriptionArgs u v) w in (w, RStatus (su_Status r))
  | RGetSubscriptions u =>
      let '(w, r) := GetSubscriptions (mkGetSubscriptionsArgs u) w in
      (w, of_error (fun r => RUsers (gs_Status r) (gs_UserIDs r)) r)
  | RPostTribble u c time id =>
      let '(w, r) := PostTribble (TribCodec.Marshal off) time id (mkPostTribbleArgs u c) w in
      (w, of_error (fun r => RStatus (pt_Status r)) r)
  | RGetTribbles u =>
      let '(w, r) := GetTribbles TribCodec.Unmarshal sort order (mkGetTribblesArgs u) w in
      (w, RTribbles (gt_Status r) (gt_Tribbles r))
  | RGetTribblesBySubscription u =>
      let '(w, r) := GetTribblesBySubscription TribCodec.Unmarshal sort order (mkGetTribblesArgs u) w in
      (w, RTribbles (gt_Status r) (gt_Tribbles r))
  end.
End handle.

(** Facts about [upsert]. *)
Lemma upsert_ids id t l : (upsert id t l).*1 = if bool_decide (id ∈ l.*1) then l.*1 else l.*1 ++ [id].
Proof.
  induction l as [|[i x] l IH]; cbn; [done|]. destruct (i =? id) eqn:Ei; breflect.
  - subst. cbn. by rewrite bool_decide_true by by left.
  - cbn. rewrite IH. rewrite (bool_decide_ext (id ∈ i :: l.*1) (id ∈ l.*1)) by set_solver.
    by destruct (bool_decide _).
Qed.

Lemma upsert_elem id t l i x : NoDup l.*1 -> (i, x) ∈ upsert id t l ->
  (i = id /\ x = t) \/ (i <> id /\ (i, x) ∈ l).
Proof.
  induction l as [|[j y] l IH]; cbn; [intros _ [= -> ->]%list_elem_of_singleton; auto|].
  intros [Hj Hnd]%NoDup_cons. destruct (j =? id) eqn:Ej; breflect.
  - subst. intros [[= -> ->]|Hin]%elem_of_cons; [by left|]. right. split; [|by right].
    intros ->. apply Hj, list_elem_of_fmap. by exists (id, x).
  - intros [[= -> ->]|Hin]%elem_of_cons; [right; split; [done|by left]|].
    destruct (IH Hnd Hin) as [?|[? ?]]; [by left|]. right. split; [done|by right].
Qed.

Lemma upsert_unique id t l : NoDup l.*1 -> NoDup (upsert id t l).*1.
Proof.
  intros Hnd. rewrite upsert_ids. destruct (bool_decide _) eqn:E; [done|]. breflect.
  apply NoDup_app. split; [done|]. split; [|apply NoDup_singleton]. by intros x Hx ->%list_elem_of_singleton.
Qed.

Lemma fresh_pretty id (l : list Z) : bool_decide (pretty id ∈ pretty <$> l) = bool_decide (id ∈ l).
Proof.
  apply bool_decide_ext. split; [|apply list_elem_of_fmap_2].
  by intros (id' & ->%(inj pretty) & ?)%list_elem_of_fmap.
Qed.

(** ** Refinement *)

Section laws.
Context {W : Type} `{LibstoreLaws W}.
Context (sort : list Tribble -> list Tribble) (order : list string -> list string).
Context (sort_perm : forall l, Permutation (sort l) l).
Context (sort_sorted : forall l, StronglySorted (fun t t' => Posted t' <= Posted t) (sort l)).
Context (order_perm : forall l, Permutation (order l) l).

(** The values and lists under the keys are those of the network. *)
Record shows (V : string -> option string) (E : string -> list string) (n : network) : Prop := {
  sh_users : forall u, is_Some (V (userKey u)) <-> u ∈ users n;
  sh_subs : forall u, E (subscribeKey u) = subsOf n u;
  sh_ids : forall u, E (tribblesKey u) = pretty <$> (postsOf n u).*1;
  sh_posts : forall u id t, (id, t) ∈ postsOf n u ->
    exists m, V (tribbleKey u (pretty id)) = Some m /\ forall old, TribCodec.Unmarshal m old = t;
  sh_unique : forall u, NoDup (postsOf n u).*1 }.

Definition refines (w : W) (n : network) : Prop := up w /\ shows (vals w) (elems w) n.

Lemma refines_view w w' n : up w' -> same_view w w' -> refines w n -> refines w' n.
Proof.
  intros Hu [Ev Ee] [_ []]. split; [done|]. split; intros; rewrite ?Ev, ?Ee; auto.
Qed.

Lemma shows_user w n u : refines w n -> user w u = bool_decide (u ∈ users n).
Proof. intros [_ Hs]. unfold user. apply bool_decide_ext, Hs. Qed.

Lemma shows_posts w n u : refines w n -> posts TribCodec.Unmarshal w u (postsOf n u).*2.
Proof.
  intros [_ Hs]. unfold posts. rewrite (sh_ids _ _ _ Hs). pose proof (sh_posts _ _ _ Hs u) as Hp.
  induction (postsOf n u) as [|[id t] l IH]; cbn; constructor; [apply Hp; by left|].
  apply IH. intros id' t' Hin. apply Hp. by right.
Qed.

(** Changes of the network. *)
Lemma shows_create V E n u V' :
  shows V E n -> (forall k, V' k = if decide (k = userKey u) then Some (userKey u) else V k) ->
  shows V' E (n <| users := {[u]} ∪ users n |>).
Proof.
  intros [Hu Hs Hi Hp Hn] HV. split; try done; cbn.
  - intros v. rewrite HV, elem_of_union, elem_of_singleton, <- Hu. case_decide as Ek.
    + split; [intros _; left; by apply userKey_inj|by eexists].
    + split; [by auto|]. intros [->|?]; done.
  - intros v id t Hin. rewrite HV. case_decide as Ek; [by destruct (userKey_tribbleKey u v id)|]. by apply Hp.
Qed.

Lemma shows_subs V E n u l E' :
  shows V E n -> (forall k, E' k = if decide (k = subscribeKey u) then l else E k) ->
  shows V E' (n <| subscriptions := <[u := l]> (subscriptions n) |>).
Proof.
  intros [Hu Hs Hi Hp Hn] HE. split; try done; cbn.
  - intros v. rewrite HE. unfold subsOf. cbn. case_decide as Ek.
    + apply subscribeKey_inj in Ek as ->. by rewrite lookup_insert_eq.
    + rewrite lookup_insert_ne by congruence. apply Hs.
  - intros v. rewrite HE. case_decide as Ek; [by destruct (subscribeKey_tribblesKey u v)|]. apply Hi.
Qed.

Lemma shows_post V E n u id m t V' E' :
  shows V E n -> (forall old, TribCodec.Unmarshal m old = t) ->
  (forall k, V' k = if decide (k = tribbleKey u (pretty id)) then Some m else V k) ->
  (forall k, E' k = if decide (k = tribblesKey u) then (StorageServer.append_spec (pretty id) (E (tribblesKey u))).2 else E k) ->
  shows V' E' (n <| posted := <[u := upsert id t (postsOf n u)]> (posted n) |>).
Proof.
  intros [Hu Hs Hi Hp Hn] Hm HV HE.
  assert (Hpo : forall v, postsOf (n <| posted := <[u := upsert id t (postsOf n u)]> (posted n) |>) v =
    if decide (v = u) then upsert id t (postsOf n u) else postsOf n v).
  { intros v. unfold postsOf at 1. cbn. case_decide; [subst; by rewrite lookup_insert_eq|by rewrite lookup_insert_ne]. }
  split; cbn.
  - intros v. rewrite HV, decide_False by apply userKey_tribbleKey. apply Hu.
  - intros v. rewrite HE, decide_False by apply subscribeKey_tribblesKey. apply Hs.
  - intros v. rewrite HE, Hpo. destruct (decide (v = u)) as [->|Hne].
    + rewrite decide_True, Hi, upsert_ids by done. unfold StorageServer.append_spec. rewrite fresh_pretty.
      destruct (bool_decide _); cbn; [done|]. by rewrite fmap_app.
    + rewrite decide_False by (by intros ?%tribblesKey_inj). apply Hi.
  - intros v i x. rewrite HV, Hpo. destruct (decide (v = u)) as [->|Hne].
    + intros [[-> ->]|[? Hin]]%upsert_elem; [exists m; by rewrite decide_True| |apply Hn].
      rewrite decide_False by (by intros [? ?]%tribbleKey_inj). by apply Hp.
    + intros Hin. rewrite decide_False by (by intros [? ?]%tribbleKey_inj). by apply Hp.
  - intros v. rewrite Hpo. case_decide; [by apply upsert_unique|apply Hn].
Qed.

(** ** The handlers *)

Lemma get_user w n u : refines w n -> exists w' o, ls_Get (userKey u) w = (w', o) /\ refines w' n /\
  if bool_decide (u ∈ users n) then exists x, o = inl x else exists e, o = inr e.
Proof.
  intros Hr. destruct (Get_law w (userKey u) (proj1 Hr) (userKey_kind u)) as (w' & E & Hu & Hv).
  exists w', (got (vals w (userKey u))). split; [done|]. split; [by eapply refines_view|].
  rewrite <- (shows_user w n u Hr). destruct (user w u) eqn:Eu;
    [apply user_Some in Eu as [v ->]|apply user_None in Eu as ->]; by eexists.
Qed.

Lemma get_list w n k : refines w n -> list_key k = true ->
  exists w', ls_GetList k w = (w', inl (elems w k)) /\ refines w' n.
Proof.
  intros Hr Hk. destruct (GetList_law w k (proj1 Hr) Hk) as (w' & E & Hu & Hv).
  exists w'. split; [done|]. by eapply refines_view.
Qed.

(** A request about a user who may not exist. *)
Ltac look_up u w n Hr :=
  let w1 := fresh "w" in let o := fresh "o" in let E := fresh "E" in let Ho := fresh "Ho" in
  let Hr' := fresh "Hr" in
  destruct (get_user w n u Hr) as (w1 & o & E & Hr' & Ho); rewrite E; clear E Hr; rename Hr' into Hr;
  destruct (bool_decide (u ∈ users n)) eqn:?; destruct Ho as [? ->].

Lemma create_refines w n u : refines w n -> exists w',
  CreateUser (mkCreateUserArgs u) w =
    (w', mkCreateUserReply (if bool_decide (u ∈ users n) then Exists else OK)) /\
  refines w' (after (RCreateUser u) n).
Proof.
  intros Hr. unfold CreateUser. cbn [cu_UserID after]. look_up u w n Hr.
  - exists w0. split; [done|]. replace (n <| users := {[u]} ∪ users n |>) with n; [done|].
    destruct n as [us su po]. cbn in *. breflect. unfold field_update. cbn. f_equal. set_solver.
  - destruct (Put_law w0 (userKey u) (userKey u) (proj1 Hr) (userKey_kind u)) as (w2 & -> & Hu2 & Ev & Ee).
    exists w2. split; [done|]. split; [done|]. destruct Hr as [_ Hs].
    pose proof (shows_create _ _ n u (vals w2) Hs Ev) as [? ? ? ? ?]. split; try done; intros; by rewrite Ee.
Qed.

Lemma checkUsers_refines w n u v body st n' : refines w n ->
  (forall w1, refines w1 n -> exists w', body w1 = (w', st) /\ refines w' n') ->
  exists w', checkUsers (mkSubscriptionArgs u v) w body = (w', mkSubscriptionReply (checked n u v st)) /\
    refines w' (if bool_decide (u ∈ users n /\ v ∈ users n) then n' else n).
Proof.
  intros Hr Hbody. unfold checkUsers, checked. cbn [su_UserID su_TargetUserID].
  destruct (get_user w n u Hr) as (w1 & o1 & -> & Hr1 & Ho1).
  destruct (get_user w1 n v Hr1) as (w2 & o2 & -> & Hr2 & Ho2).
  destruct (bool_decide (u ∈ users n)) eqn:Eu; breflect.
  2: { destruct Ho1 as [? ->]. exists w2. split; [done|]. by rewrite bool_decide_false by (by intros []). }
  destruct Ho1 as [? ->]. destruct (bool_decide (v ∈ users n)) eqn:Ev; breflect.
  2: { destruct Ho2 as [? ->]. exists w2. split; [done|]. by rewrite bool_decide_false by (by intros []). }
  destruct Ho2 as [? ->]. rewrite bool_decide_true by done.
  destruct (Hbody w2 Hr2) as (w3 & -> & Hr3). by exists w3.
Qed.

Lemma subscribe_refines w n u v : refines w n -> exists w',
  AddSubscription (mkSubscriptionArgs u v) w = (w', mkSubscriptionReply
    (checked n u v (if bool_decide (v ∈ subsOf n u) then Exists else OK))) /\
  refines w' (after (RAddSubscription u v) n).
Proof.
  intros Hr. apply checkUsers_refines; [done|]. intros w1 [Hu Hs]. cbn [su_UserID su_TargetUserID].
  destruct (Append_law w1 (subscribeKey u) v Hu (subscribeKey_kind u)) as (w2 & -> & Hu2 & Ev & Ee).
  rewrite (sh_subs _ _ _ Hs) in *. exists w2. split; [by destruct (bool_decide _)|]. split; [done|].
  pose proof (shows_subs _ _ n u _ (elems w2) Hs Ee) as [? ? ? ? ?]. split; try done; intros; rewrite Ev; auto.
Qed.

Lemma unsubscribe_refines w n u v : refines w n -> exists w',
  RemoveSubscription (mkSubscriptionArgs u v) w = (w', mkSubscriptionReply
    (checked n u v (if bool_decide (v ∈ subsOf n u) then OK else NoSuchTargetUser))) /\
  refines w' (after (RRemoveSubscription u v) n).
Proof.
  intros Hr. apply checkUsers_refines; [done|]. intros w1 [Hu Hs]. cbn [su_UserID su_TargetUserID].
  destruct (Remove_law w1 (subscribeKey u) v Hu (subscribeKey_kind u)) as (w2 & -> & Hu2 & Ev & Ee).
  rewrite (sh_subs _ _ _ Hs) in *. exists w2. split; [by destruct (bool_decide _)|]. split; [done|].
  pose proof (shows_subs _ _ n u _ (elems w2) Hs Ee) as [? ? ? ? ?]. split; try done; intros; rewrite Ev; auto.
Qed.

Lemma post_refines off w n u c time id : Z.abs off < 1440 -> 0 <= time < 2 ^ 63 -> refines w n -> exists w',
  PostTribble (TribCodec.Marshal off) time id (mkPostTribbleArgs u c) w = (w',
    if bool_decide (u ∈ users n) then
      if bool_decide (id ∈ (postsOf n u).*1) then inr ("error AppendToList " +:+ itemThere) else inl (mkPostTribbleReply OK)
    else inl (mkPostTribbleReply NoSuchUser)) /\
  refines w' (after (RPostTribble u c time id) n).
Proof.
  intros Hoff Htime Hr. unfold PostTribble. cbn [pt_UserID pt_Contents after]. look_up u w n Hr; [|by exists w0].
  destruct Hr as [Hu Hs]. set (t := mkTribble u time c).
  destruct (Put_law w0 (tribbleKey u (pretty id)) (TribCodec.Marshal off t) Hu (tribbleKey_kind u id)) as (w2 & -> & Hu2 & Ev2 & Ee2).
  destruct (Append_law w2 (tribblesKey u) (pretty id) Hu2 (tribblesKey_kind u)) as (w3 & -> & Hu3 & Ev3 & Ee3).
  rewrite Ee2, (sh_ids _ _ _ Hs), fresh_pretty in *. exists w3. split; [by repeat case_bool_decide|].
  split; [done|]. eapply (shows_post (vals w0) (elems w0)); [done| | |].
  - intros old. apply TribCodec.tribble_roundtrip. by apply Rfc3339.clock_printable.
  - intros k. by rewrite Ev3, Ev2.
  - intros k. rewrite Ee3, (sh_ids _ _ _ Hs). repeat case_decide; done.
Qed.

Lemma one_user_refines w n u : refines w n -> exists w' l,
  GetTribblesOneuser TribCodec.Unmarshal order u w = (w', l) /\ refines w' n /\ Permutation l (postsOf n u).*2.
Proof.
  intros Hr. destruct (GetTribblesOneuser_spec TribCodec.Unmarshal order u (postsOf n u).*2 w)
    as (w' & l & E & Hu & Hv & Hl); [done|apply Hr|by apply shows_posts|].
  exists w', l. split; [done|]. split; [by eapply refines_view|done].
Qed.

Lemma collect_refines n : forall us w, refines w n -> exists w' l,
  collectUsers TribCodec.Unmarshal order us w = (w', l) /\ refines w' n /\
  Permutation l (mjoin ((fun v => (postsOf n v).*2) <$> us)).
Proof.
  induction us as [|u us IH]; intros w Hr; cbn; [by exists w, []|].
  destruct (one_user_refines w n u Hr) as (w1 & l1 & -> & Hr1 & Hl1).
  destruct (IH w1 Hr1) as (w2 & l2 & -> & Hr2 & Hl2). exists w2, (l1 ++ l2). split; [done|]. split; [done|].
  by rewrite Hl1, Hl2.
Qed.

Lemma newest_timeline l ts : Permutation l ts -> timeline ts (newest sort l).
Proof. intros Hp. exact (newest_spec sort sort_perm sort_sorted ts l Hp). Qed.

(** One request at one server. *)
Lemma handle_refines off q w n : Z.abs off < 1440 -> timely q -> refines w n -> exists w' r,
  handle sort order off q w = (w', r) /\ refines w' (after q n) /\ answers q n r.
Proof.
  intros Hoff Hq Hr. destruct q as [u|u v|u v|u|u c time id|u|u]; cbn [handle answers].
  - destruct (create_refines w n u Hr) as (w' & -> & ?). by eexists _, _.
  - destruct (subscribe_refines w n u v Hr) as (w' & -> & ?). by eexists _, _.
  - destruct (unsubscribe_refines w n u v Hr) as (w' & -> & ?). by eexists _, _.
  - unfold GetSubscriptions. cbn [gs_UserID]. look_up u w n Hr; [|by eexists _, _].
    destruct (get_list w0 n (subscribeKey u) Hr (subscribeKey_kind u)) as (w2 & -> & Hr2).
    rewrite (sh_subs _ _ _ (proj2 Hr)). by eexists _, _.
  - destruct (post_refines off w n u c time id Hoff Hq Hr) as (w' & -> & ?). eexists _, _. split; [done|]. split; [done|].
    destruct (bool_decide (u ∈ users n)); [|done]. by destruct (bool_decide _).
  - unfold GetTribbles. cbn [gt_UserID]. look_up u w n Hr; [|by eexists _, _].
    destruct (one_user_refines w0 n u Hr) as (w2 & l & -> & Hr2 & Hl). eexists _, _. split; [done|].
    split; [done|]. eexists. split; [done|]. by apply newest_timeline.
  - unfold GetTribblesBySubscription. cbn [gt_UserID]. look_up u w n Hr; [|by eexists _, _].
    destruct (get_list w0 n (subscribeKey u) Hr (subscribeKey_kind u)) as (w2 & -> & Hr2).
    rewrite (sh_subs _ _ _ (proj2 Hr)). cbn [listed].
    destruct (collect_refines n (order (subsOf n u)) w2 Hr2) as (w3 & l & -> & Hr3 & Hl).
    eexists _, _. split; [done|]. split; [done|]. eexists. split; [done|]. apply newest_timeline.
    rewrite Hl. by rewrite (order_perm (subsOf n u)).
Qed.
End laws.

(** ** Any number of servers *)

(** Each request at a server, by the address of its libstore; a server's zone. *)
Section serve.
Context (zone : string -> Z).
Context (sort : list Tribble -> list Tribble) (order : list string -> list string).

Fixpoint serve (reqs : list (string * request)) (w : StorageCluster.cluster)
    : StorageCluster.cluster * list reply :=
  match reqs with
  | [] => (w, [])
  | (me, q) :: reqs' =>
      let '(w, r) := handle (H := StorageCluster.cluster_ops me) sort order (zone me) q w in
      let '(w, rs) := serve reqs' w in (w, r :: rs)
  end.

(** The answers to a sequence of requests, and the network it leaves. *)
Fixpoint all_answers (qs : list request) (n : network) (rs : list reply) : Prop :=
  match qs, rs with
  | [], [] => True
  | q :: qs', r :: rs' => answers q n r /\ all_answers qs' (after q n) rs'
  | _, _ => False
  end.

Fixpoint all_after (qs : list request) (n : network) : network :=
  match qs with
  | [] => n
  | q :: qs' => all_after qs' (after q n)
  end.

(** The storage system holds the network. *)
Definition holds (ring : list StorageRpc.Node) (n0 : StorageRpc.Node) (w : StorageCluster.cluster) (n : network)
    : Prop :=
  shows (fun k => StorageCluster.value_at k (StorageCluster.homeServer ring n0 w k))
    (fun k => StorageCluster.list_at k (StorageCluster.homeServer ring n0 w k)) n.

(** Requests at any of the servers, by induction over them. *)
Lemma serve_refines ring n0 hosts reqs w n :
  (forall me, Z.abs (zone me) < 1440) -> Forall timely reqs.*2 ->
  (forall l, Permutation (sort l) l) ->
  (forall l, StronglySorted (fun t t' => Posted t' <= Posted t) (sort l)) ->
  (forall l, Permutation (order l) l) ->
  head ring = Some n0 -> Forall (fun x => x.1 ∈ hosts) reqs ->
  StorageCluster.ready ring n0 hosts w -> StorageCluster.calm w -> holds ring n0 w n ->
  exists w' rs, serve reqs w = (w', rs) /\ StorageCluster.ready ring n0 hosts w' /\
    holds ring n0 w' (all_after reqs.*2 n) /\ all_answers reqs.*2 n rs.
Proof.
  intros Hz Hq Hsp Hss Ho Hring Hhosts. revert w n Hq Hhosts.
  induction reqs as [|[me q] reqs IH]; intros w n Hqs Hhosts Hr Hc Hn; [by exists w, []|].
  apply Forall_cons in Hhosts as [Hme Hhosts], Hqs as [Hq Hqs]. cbn in Hme, Hq.
  destruct (handle_refines (H := StorageCluster.cluster_ops me)
    (H0 := StorageCluster.cluster_laws ring n0 Hring hosts me Hme)
    sort order Hsp Hss Ho (zone me) q w n (Hz me) Hq) as (w1 & r & E & [Hu1 Hn1] & Ha).
  { split; [by apply StorageCluster.calm_up|done]. }
  apply StorageCluster.calm_of_up in Hu1 as [Hr1 Hc1].
  destruct (IH w1 (after q n) Hqs Hhosts Hr1 Hc1 Hn1) as (w2 & rs & E2 & Hr2 & Hn2 & Ha2).
  exists w2, (r :: rs). cbn. rewrite E, E2. by split_and!.
Qed.
(** C7: tribbler implements a social network.  Over a ring of storage servers
    that is up, while no call fails, with any number of tribbler servers, each
    with a caching libstore and a time zone of its own, requests that follow one another at any
    of them are answered as the network specifies, whatever the libstores have
    cached: [CreateUser] and the subscription calls report unknown and existing
    users and subscriptions, lists of subscriptions are sets in the order they
    were made, a tribble posted anywhere is read everywhere, as it was but for
    what is not UTF-8, and a timeline, of one user or of all that one subscribes
    to, has the newest 100 tribbles, newest first.  Only a post in the same
    nanosecond as an earlier one of the user fails, and it replaces that one.
    The storage system then holds the network the requests lead to, and is still
    up. *)
Theorem tribbler_refines_network ring n0 hosts reqs w n :
  (forall me, Z.abs (zone me) < 1440) -> Forall timely reqs.*2 ->
  (forall l, Permutation (sort l) l) ->
  (forall l, StronglySorted (fun t t' => Posted t' <= Posted t) (sort l)) ->
  (forall l, Permutation (order l) l) ->
  head ring = Some n0 -> Forall (fun x => x.1 ∈ hosts) reqs ->
  StorageCluster.ready ring n0 hosts w -> StorageCluster.calm w -> holds ring n0 w n ->
  exists w' rs, serve reqs w = (w', rs) /\ StorageCluster.ready ring n0 hosts w' /\
    holds ring n0 w' (all_after reqs.*2 n) /\ all_answers reqs.*2 n rs.
Proof. apply serve_refines. Qed.
End serve.

(** ** A network that starts empty *)

Lemma fresh_holds ring n0 w :
  (forall host ss, StorageCluster.servers w !! host = Some ss -> StorageStart.fresh ss) ->
  holds ring n0 w (mkNetwork ∅ ∅ ∅).
Proof.
  intros Hf.
  assert (Hh : forall k, StorageStart.fresh (StorageCluster.homeServer ring n0 w k)).
  { intros k. unfold StorageCluster.homeServer.
    destruct (StorageCluster.servers w !! _) as [ss|] eqn:E; [by eapply Hf|done]. }
  assert (Hv : forall k, StorageCluster.value_at k (StorageCluster.homeServer ring n0 w k) = None).
  { intros k. destruct (Hh k) as (E & _). unfold StorageCluster.value_at, StorageServer.values.
    rewrite E. by destruct (list_key k). }
  assert (Hl : forall k, StorageCluster.list_at k (StorageCluster.homeServer ring n0 w k) = []).
  { intros k. destruct (Hh k) as (_ & E & _). unfold StorageCluster.list_at, StorageServer.lists.
    rewrite E. by destruct (list_key k). }
  split; unfold subsOf, postsOf; cbn.
  - intros u. rewrite Hv. split; [by intros []|set_solver].
  - intros u. by rewrite Hl.
  - intros u. by rewrite Hl.
  - intros u id t Hin. by apply elem_of_nil in Hin.
  - intros u. constructor.
Qed.

(** The system of [StorageStart] after its start. *)
Definition demo_system (fates : nat -> StorageCluster.fate) : StorageCluster.cluster :=
  StorageStart.storageSystem "a:1" (StorageStart.demo_after 7) Z.of_nat fates.
Definition demo_world : StorageCluster.cluster := demo_system (fun _ => StorageCluster.Delivered).
Definition demo_ring : list StorageRpc.Node := [StorageRpc.mkNode "b:2" 3; StorageRpc.mkNode "a:1" 7].
Definition demo_hosts : gset string := {["c:3"]}.

Lemma demo_inv : StorageStart.inv "a:1" 2 (StorageStart.demo_after 7).
Proof. eapply StorageStart.inv_reachable, StorageStart.demo_reachable. vm_compute. reflexivity. Qed.

Lemma demo_system_ready fates :
  StorageCluster.ready demo_ring (StorageRpc.mkNode "b:2" 3) demo_hosts (demo_system fates).
Proof.
  assert (E : StorageServer.serversList (StorageStart.master (StorageStart.demo_after 7)) = demo_ring)
    by (vm_compute; reflexivity).
  rewrite <- E. apply (StorageStart.started_ready "a:1" 2).
  - apply demo_inv.
  - vm_compute. reflexivity.
  - assert (Hall : map_Forall (fun _ p => StorageStart.running p = true)
      (StorageStart.slaves (StorageStart.demo_after 7))).
    { apply (bool_decide_eq_true_1 (map_Forall (fun _ p => StorageStart.running p = true) _)).
      vm_compute. reflexivity. }
    intros h [p Hp]. exists p. split; [done|]. by eapply Hall.
  - by rewrite E.
  - intros i j. lia.
  - intros h ->%elem_of_singleton. apply elem_of_dom. vm_compute. by eexists.
Qed.

Lemma demo_system_empty fates :
  holds demo_ring (StorageRpc.mkNode "b:2" 3) (demo_system fates) (mkNetwork ∅ ∅ ∅).
Proof.
  apply fresh_holds. intros host ss. unfold demo_system, StorageStart.storageSystem. cbn [StorageCluster.servers].
  rewrite lookup_insert_Some, lookup_fmap, fmap_Some. intros [[_ <-]|(_ & p & Hp & ->)].
  - apply (StorageStart.iv_fresh _ _ _ demo_inv).
  - by apply (StorageStart.iv_slaves _ _ _ demo_inv _ _ Hp).
Qed.

(** Sorting by time. *)
Definition later : relation Tribble := fun t t' => Posted t' <= Posted t.

#[export] Instance later_dec t t' : Decision (later t t').
Proof. unfold later. apply _. Defined.

#[export] Instance later_trans : Transitive later.
Proof. intros x y z. unfold later. lia. Qed.

#[export] Instance later_total : Total later.
Proof. intros x y. unfold later. lia. Qed.

Definition demo_requests : list (string * request) :=
  [("c:3", RCreateUser "ann"); ("c:3", RCreateUser "bob"); ("c:3", RAddSubscription "ann" "bob");
   ("c:3", RPostTribble "bob" "hi" 5 6); ("c:3", RGetTribblesBySubscription "ann")].

Lemma tribbler_refines_network_witness :
  exists w' r1 r2 r3 r4 shown, serve (fun _ => -240) (merge_sort later) (fun l => l) demo_requests demo_world =
      (w', [r1; r2; r3; r4; RTribbles OK shown]) /\
    r3 = RStatus OK /\ r4 = RStatus OK /\ timeline [mkTribble "bob" 5 "hi"] shown.
Proof.
  destruct (tribbler_refines_network (fun _ => -240) (merge_sort later) (fun l => l) demo_ring (StorageRpc.mkNode "b:2" 3) demo_hosts demo_requests
    demo_world (mkNetwork ∅ ∅ ∅)) as (w' & rs & E & _ & _ & Ha).
  - done.
  - repeat constructor; lia.
  - apply merge_sort_Permutation.
  - apply (StronglySorted_merge_sort later).
  - done.
  - reflexivity.
  - repeat constructor; set_solver.
  - apply demo_system_ready.
  - done.
  - apply demo_system_empty.
  - destruct rs as [|r1 [|r2 [|r3 [|r4 [|r5 [|]]]]]]; cbn in Ha; try tauto.
    destruct Ha as (_ & _ & H3 & H4 & H5 & _). destruct H5 as (l & -> & Hl).
    exists w', r1, r2, r3, r4, l. split; [exact E|]. split; [exact H3|]. split; [exact H4|exact Hl].
Defined.

End TribNetwork.
