(* ===== verification/TribFaults.v ===== *)
(** * TribFaults: the tribbler servers while calls to the storage system fail

    [TribNetwork] is about a storage system whose calls all get through.  Here
    any of them may fail, before or after the storage server has handled it: a
    request then leads from one network to the same or to the one after the
    request, and its reply is one of [failing].  The handlers take an error of
    the libstore for an answer (no such user, a subscription that exists), so
    some replies say what is not so; which ones can be relied on is what
    [tribbler_under_failures] tells. *)
From S2P Require Import Prelude GoJson GoTime StorageRpc StorageServer Libstore Lease TribServer TribJson.
From S2P Require Import StorageCluster StorageStart TribNetwork.
Open Scope Z_scope.

Module TribFaults.
Import TribRpc TribServer TribNetwork.

(** Tribbles out of [ts], newest first; a tribble whose text could not be
    fetched is shown as the one before it, or as the zero tribble. *)
Record excerpt (ts shown : list Tribble) : Prop := {
  ex_sorted : StronglySorted (fun t t' => Posted t' <= Posted t) shown;
  ex_length : (length shown <= Nat.min 100 (length ts))%nat;
  ex_from : forall t, t ∈ shown -> t ∈ ts \/ t = zeroTribble }.

(** The reply to a request on the network [n] and the network [n'] it leaves,
    when calls may fail. *)
Definition failing (q : request) (n : network) (r : reply) (n' : network) : Prop :=
  match q with
  | RCreateUser u =>
      r = RStatus Exists /\ u ∈ users n /\ n' = n \/
      r = RStatus OK /\ (n' = n \/ n' = after q n)
  | RAddSubscription u v =>
      r = RStatus OK /\ u ∈ users n /\ v ∈ users n /\ (v ∉ subsOf n u) /\ n' = after q n \/
      r = RStatus Exists /\ u ∈ users n /\ v ∈ users n /\ (n' = n \/ n' = after q n) \/
      r = RStatus NoSuchTargetUser /\ u ∈ users n /\ n' = n \/
      r = RStatus NoSuchUser /\ n' = n
  | RRemoveSubscription u v =>
      r = RStatus OK /\ u ∈ users n /\ v ∈ users n /\ v ∈ subsOf n u /\ n' = after q n \/
      r = RStatus NoSuchTargetUser /\ u ∈ users n /\ (n' = n \/ n' = after q n) \/
      r = RStatus NoSuchUser /\ n' = n
  | RGetSubscriptions u =>
      n' = n /\ (r = RUsers OK (subsOf n u) /\ u ∈ users n \/ r = RUsers NoSuchUser [] \/
                 (exists e, r = RError e) /\ u ∈ users n)
  | RPostTribble u _ _ id =>
      r = RStatus OK /\ u ∈ users n /\ (id ∉ (postsOf n u).*1) /\ n' = after q n \/
      r = RStatus NoSuchUser /\ n' = n \/
      (exists e, r = RError e) /\ u ∈ users n /\ (n' = n \/ n' = after q n)
  | RGetTribbles u =>
      n' = n /\ (r = RTribbles NoSuchUser [] \/
        exists l, r = RTribbles OK l /\ u ∈ users n /\ excerpt (postsOf n u).*2 l)
  | RGetTribblesBySubscription u =>
      n' = n /\ (r = RTribbles NoSuchUser [] \/
        exists l, r = RTribbles OK l /\ u ∈ users n /\
          excerpt (mjoin ((fun v => (postsOf n v).*2) <$> subsOf n u)) l)
  end.

Section laws.
Context {W : Type} `{LibstoreLaws W}.
Context (sort : list Tribble -> list Tribble) (order : list string -> list string).
Context (sort_perm : forall l, Permutation (sort l) l).
Context (sort_sorted : forall l, StronglySorted (fun t t' => Posted t' <= Posted t) (sort l)).
Context (order_perm : forall l, Permutation (order l) l).

(** The storage holds the network; calls may fail. *)
Definition keeps (w : W) (n : network) : Prop := alive w /\ shows (vals w) (elems w) n.

(** From [w] on to a state that holds [n]. *)
Definition reaches (w w' : W) (n : network) : Prop := goes w w' /\ shows (vals w') (elems w') n.

Lemma reaches_keeps w w' n : reaches w w' n -> keeps w' n.
Proof. by intros [[? _] ?]. Qed.

Lemma reaches_refl w n : keeps w n -> reaches w w n.
Proof. intros [? ?]. by split. Qed.

Lemma reaches_trans w w' w'' n n' : reaches w w' n -> reaches w' w'' n' -> reaches w w'' n'.
Proof. intros [[_ Hl] _] [[Ha Hl'] Hs]. split; [split; auto|done]. Qed.

Lemma shows_view V E V' E' n :
  (forall k, V' k = V k) -> (forall k, E' k = E k) -> shows V E n -> shows V' E' n.
Proof. intros Ev Ee []. split; intros; rewrite ?Ev, ?Ee; auto. Qed.

Lemma reaches_view w w' n : keeps w n -> goes w w' -> same_view w w' -> reaches w w' n.
Proof. intros [_ Hs] Hg [Ev Ee]. split; [done|]. by apply (shows_view (vals w) (elems w)). Qed.

(** ** The operations *)

(** Users are found where they are, or not at all. *)
Lemma get_user_any w n u : keeps w n -> exists w' o, ls_Get (userKey u) w = (w', o) /\ reaches w w' n /\
  (forall x, o = inl x -> u ∈ users n).
Proof.
  intros Hk. destruct (Get_any w (userKey u) (proj1 Hk) (userKey_kind u)) as (w' & o & E & Hg & Hv & Ho).
  exists w', o. split; [done|]. split; [by apply reaches_view|]. intros x ->.
  destruct Ho as [Ho|[_ [e He]]]; [|done]. apply (sh_users _ _ _ (proj2 Hk)).
  destruct (vals w (userKey u)); [by eexists|done].
Qed.

Lemma get_list_any w n k : keeps w n -> list_key k = true -> exists w' o, ls_GetList k w = (w', o) /\
  reaches w w' n /\ (o = inl (elems w k) \/ exists e, o = inr e).
Proof.
  intros Hk Hl. destruct (GetList_any w k (proj1 Hk) Hl) as (w' & o & E & Hg & Hv & Ho).
  exists w', o. split; [done|]. split; [by apply reaches_view|]. destruct Ho as [|[_ ?]]; auto.
Qed.

(** A write leads to one of two networks; with an answer of success, to the
    right one. *)
Lemma write_reaches w w' n n' (effect : Prop) answer r :
  keeps w n -> goes w w' -> write_result (lossy w) effect (same_view w w') answer r ->
  (effect -> shows (vals w') (elems w') n') ->
  (r = None /\ answer = None /\ reaches w w' n') \/
  (is_Some r /\ (reaches w w' n \/ reaches w w' n')).
Proof.
  intros Hk Hg Hw He. destruct Hw as [[Hef Hr]|(Hv & _ & Hr)].
  - assert (reaches w w' n') by (split; auto). destruct Hr as [->|[_ Hr]]; [|by auto].
    destruct answer; [right; split; [by eexists|by auto]|by left].
  - right. split; [done|]. left. by apply reaches_view.
Qed.

(** ** The handlers *)

(** The state after a lookup takes the place of the one before it. *)
Ltac look_up u w n Hk Hin Hk' :=
  let w1 := fresh "w" in let o := fresh "o" in let E := fresh "E" in
  let Hre := fresh "Hre" in
  destruct (get_user_any w n u Hk) as (w1 & o & E & Hre & Hin); rewrite E; clear E;
  pose proof (reaches_keeps _ _ _ Hre) as Hk'; destruct o as [?|?]; [specialize (Hin _ eq_refl)|clear Hin].

Lemma create_failing w n u : keeps w n -> exists w' r n', CreateUser (mkCreateUserArgs u) w = (w', r) /\
  reaches w w' n' /\ failing (RCreateUser u) n (RStatus (cu_Status r)) n'.
Proof.
  intros Hk. unfold CreateUser. cbn [cu_UserID failing]. look_up u w n Hk Hu Hk0.
  { do 3 eexists. split; [done|]. split; [exact Hre|]. by left. }
  destruct (Put_any w0 (userKey u) (userKey u) (proj1 Hk0) (userKey_kind u)) as (w2 & r & -> & Hg & Hw).
  destruct (write_reaches w0 w2 n (after (RCreateUser u) n) _ _ _ Hk0 Hg Hw) as [(_ & _ & Hr)|[_ [Hr|Hr]]].
  { intros [Ev Ee]. apply (shows_view (vals w2) (elems w0)); [done|done|].
    by apply (shows_create (vals w0) (elems w0) n u), Ev; destruct Hk0. }
  all: do 3 eexists; (split; [done|]); (split; [by eapply reaches_trans|]); right; by auto.
Qed.

Lemma subscribe_failing w n u v : keeps w n -> exists w' r n', AddSubscription (mkSubscriptionArgs u v) w = (w', r) /\
  reaches w w' n' /\ failing (RAddSubscription u v) n (RStatus (su_Status r)) n'.
Proof.
  intros Hk. unfold AddSubscription, checkUsers. cbn [su_UserID su_TargetUserID failing].
  look_up u w n Hk Hu Hk0; look_up v w0 n Hk0 Hv Hk1;
    try (do 3 eexists; (split; [done|]); (split; [by eapply reaches_trans|]); cbn; by auto 10).
  destruct (Append_any w1 (subscribeKey u) v (proj1 Hk1) (subscribeKey_kind u)) as (w2 & r & -> & Hg & Hw).
  rewrite (sh_subs _ _ _ (proj2 Hk1)) in Hw.
  assert (Hr : reaches w w1 n) by by eapply reaches_trans.
  destruct (write_reaches w1 w2 n (after (RAddSubscription u v) n) _ _ _ Hk1 Hg Hw) as [(-> & Ha & Hr')|[[e ->] Hr']].
  { intros [Ev Ee]. cbn [after]. rewrite bool_decide_true by done.
    apply (shows_view (vals w1) (elems w2)); [done|done|]. by apply (shows_subs (vals w1) (elems w1)); [destruct Hk1|]. }
  - do 3 eexists. split; [done|]. split; [by eapply reaches_trans|]. left. split_and!; try done.
    intros Hin. by rewrite bool_decide_true in Ha.
  - destruct Hr' as [Hr'|Hr']; (do 3 eexists; (split; [done|]); (split; [by eapply reaches_trans|]); cbn; by auto 10).
Qed.

Lemma unsubscribe_failing w n u v : keeps w n -> exists w' r n', RemoveSubscription (mkSubscriptionArgs u v) w = (w', r) /\
  reaches w w' n' /\ failing (RRemoveSubscription u v) n (RStatus (su_Status r)) n'.
Proof.
  intros Hk. unfold RemoveSubscription, checkUsers. cbn [su_UserID su_TargetUserID failing].
  look_up u w n Hk Hu Hk0; look_up v w0 n Hk0 Hv Hk1;
    try (do 3 eexists; (split; [done|]); (split; [by eapply reaches_trans|]); cbn; by auto 10).
  destruct (Remove_any w1 (subscribeKey u) v (proj1 Hk1) (subscribeKey_kind u)) as (w2 & r & -> & Hg & Hw).
  rewrite (sh_subs _ _ _ (proj2 Hk1)) in Hw.
  assert (Hr : reaches w w1 n) by by eapply reaches_trans.
  destruct (write_reaches w1 w2 n (after (RRemoveSubscription u v) n) _ _ _ Hk1 Hg Hw) as [(-> & Ha & Hr')|[[e ->] Hr']].
  { intros [Ev Ee]. cbn [after]. rewrite bool_decide_true by done.
    apply (shows_view (vals w1) (elems w2)); [done|done|]. by apply (shows_subs (vals w1) (elems w1)); [destruct Hk1|]. }
  - do 3 eexists. split; [done|]. split; [by eapply reaches_trans|]. left. split_and!; try done.
    destruct (bool_decide _) eqn:E; [by breflect|done].
  - destruct Hr' as [Hr'|Hr']; (do 3 eexists; (split; [done|]); (split; [by eapply reaches_trans|]); cbn; by auto 10).
Qed.

(** A tribble stored under its key but not listed is not there. *)
Lemma shows_orphan V E n u id m V' :
  shows V E n -> id ∉ (postsOf n u).*1 ->
  (forall k, V' k = if decide (k = tribbleKey u (pretty id)) then Some m else V k) -> shows V' E n.
Proof.
  intros [Hu Hs Hi Hp Hn] Hid HV. split; try done.
  - intros v. rewrite HV, decide_False by apply userKey_tribbleKey. apply Hu.
  - intros v i t Hin. rewrite HV, decide_False; [by apply Hp|]. intros [-> ->]%tribbleKey_inj.
    apply Hid, list_elem_of_fmap. by exists (id, t).
Qed.

Section post.
Context (n : network) (u : string) (id : Z) (m : string) (t : Tribble).
Context (decodes : forall old, TribCodec.Unmarshal m old = t).

Definition withPost : network := n <| posted := <[u := upsert id t (postsOf n u)]> (posted n) |>.

(** The network once the tribble is stored: a tribble with that id is replaced. *)
Definition stored_only : network := if bool_decide (id ∈ (postsOf n u).*1) then withPost else n.

Lemma withPost_posts : postsOf withPost u = upsert id t (postsOf n u).
Proof. unfold withPost, postsOf. cbn. by rewrite (lookup_insert_eq (posted n)). Qed.

Lemma listed_before : bool_decide (id ∈ (postsOf stored_only u).*1) = bool_decide (id ∈ (postsOf n u).*1).
Proof.
  unfold stored_only. destruct (bool_decide (id ∈ (postsOf n u).*1)) eqn:E; [|done].
  rewrite withPost_posts, upsert_ids, E. exact E.
Qed.

Lemma put_shows V E V' : shows V E n ->
  (forall k, V' k = if decide (k = tribbleKey u (pretty id)) then Some m else V k) -> shows V' E stored_only.
Proof.
  intros Hs HV. unfold stored_only. destruct (bool_decide _) eqn:Ei; [|breflect; by eapply shows_orphan].
  eapply (shows_post V E); [done|exact decodes|exact HV|]. intros k. destruct (decide (k = tribblesKey u)) as [->|]; [|done].
  unfold StorageServer.append_spec. by rewrite (sh_ids _ _ _ Hs), fresh_pretty, Ei.
Qed.

Lemma append_shows V E V' E' : shows V E stored_only -> V (tribbleKey u (pretty id)) = Some m ->
  (forall k, V' k = V k) -> (forall k, E' k = if decide (k = tribblesKey u)
    then (StorageServer.append_spec (pretty id) (E (tribblesKey u))).2 else E k) -> shows V' E' withPost.
Proof.
  intros Hs Hm HV HE. pose proof listed_before as Hl. unfold stored_only in *.
  destruct (bool_decide (id ∈ (postsOf n u).*1)) eqn:Ei.
  - apply (shows_view V E); [done| |done]. intros k. rewrite HE. destruct (decide (k = tribblesKey u)) as [->|]; [|done].
    unfold StorageServer.append_spec. by rewrite (sh_ids _ _ _ Hs), fresh_pretty, Hl.
  - eapply (shows_post V E); [done|exact decodes| |exact HE]. intros k. rewrite HV. by destruct (decide (k = tribbleKey u (pretty id))) as [->|].
Qed.
End post.

(** A post may get through by half. *)
Lemma post_failing off w n u c time id : Z.abs off < 1440 -> 0 <= time < 2 ^ 63 -> keeps w n -> exists w' r n',
  PostTribble (TribCodec.Marshal off) time id (mkPostTribbleArgs u c) w = (w', r) /\
  reaches w w' n' /\ failing (RPostTribble u c time id) n (of_error (fun r => RStatus (pt_Status r)) r) n'.
Proof.
  intros Hoff Htime Hk. unfold PostTribble. cbn [pt_UserID pt_Contents].
  look_up u w n Hk Hu Hk0; [|do 3 eexists; split; [done|]; split; [done|]; right; left; done].
  set (q := RPostTribble u c time id). set (m := TribCodec.Marshal off (mkTribble u time c)).
  set (t := TribCodec.received (mkTribble u time c)).
  assert (Hafter : after q n = withPost n u id t) by (unfold q; cbn [after]; by rewrite bool_decide_true).
  assert (Hm : forall old, TribCodec.Unmarshal m old = t).
  { intros old. apply TribCodec.tribble_roundtrip. by apply Rfc3339.clock_printable. }
  assert (Hn1 : stored_only n u id t = n \/ stored_only n u id t = after q n).
  { rewrite Hafter. unfold stored_only. case_bool_decide; auto. }
  assert (Herr : forall w' n' e, reaches w0 w' n' -> n' = n \/ n' = after q n -> exists w'' r n'',
    (w', inr e : PostTribbleReply + string) = (w'', r) /\ reaches w w'' n'' /\
    failing q n (of_error (fun r => RStatus (pt_Status r)) r) n'').
  { intros w' n' e Hr Hn'. do 3 eexists. split; [done|]. split; [by eapply reaches_trans|]. right. right.
    split; [by eexists|]. by split. }
  destruct (Put_any w0 (tribbleKey u (pretty id)) m (proj1 Hk0) (tribbleKey_kind u id)) as (w2 & r & -> & Hg & Hw).
  destruct Hw as [[[Ev Ee] Hr]|(Hv & _ & [e ->])]; [|by eapply Herr; [by apply reaches_view|left]].
  assert (Hr2 : reaches w0 w2 (stored_only n u id t)).
  { split; [done|]. apply (shows_view (vals w2) (elems w0)); [done|done|].
    by eapply (put_shows n u id m t Hm); [exact (proj2 Hk0)|]. }
  destruct Hr as [->|[_ [e ->]]]; [|by eapply Herr].
  assert (Hkey : vals w2 (tribbleKey u (pretty id)) = Some m) by by rewrite Ev, decide_True.
  pose proof (reaches_keeps _ _ _ Hr2) as Hk2.
  destruct (Append_any w2 (tribblesKey u) (pretty id) (proj1 Hk2) (tribblesKey_kind u)) as (w3 & r & -> & Hg3 & Hw3).
  assert (Hid : bool_decide (pretty id ∈ elems w2 (tribblesKey u)) = bool_decide (id ∈ (postsOf n u).*1)).
  { by rewrite (sh_ids _ _ _ (proj2 Hk2)), fresh_pretty, listed_before. }
  rewrite Hid in Hw3.
  destruct (write_reaches w2 w3 _ (after q n) _ _ _ Hk2 Hg3 Hw3) as [(-> & Ha & Hr3)|[[e ->] Hr3]].
  { intros [Ev3 Ee3]. rewrite Hafter. by eapply (append_shows n u id m t Hm); [exact (proj2 Hk2)|..]. }
  - assert (Hr4 : reaches w0 w3 (after q n)) by by eapply reaches_trans.
    do 3 eexists. split; [done|]. split; [by eapply reaches_trans|]. left. split; [done|]. split; [done|].
    split; [|done]. intros Hin. by rewrite bool_decide_true in Ha.
  - destruct Hr3 as [Hr3|Hr3]; (eapply Herr; [by eapply reaches_trans|]); auto.
Qed.

(** ** Timelines *)

Lemma Unmarshal_empty t : TribCodec.Unmarshal "" t = t.
Proof. unfold TribCodec.Unmarshal. by replace (Json.parse (Json.bytes "")) with (@None Json.json) by (vm_compute; reflexivity). Qed.

Lemma fetchAll_any : forall ks w, alive w -> Forall (fun k => list_key k = false) ks -> exists w' vs,
  fetchAll ks w = (w', vs) /\ goes w w' /\ same_view w w' /\
  Forall2 (fun k v => v = "" \/ vals w k = Some v) ks vs.
Proof.
  induction ks as [|k ks IH]; intros w Ha Hks; cbn [fetchAll]; [by exists w, []|].
  apply Forall_cons in Hks as [Hk Hks]. destruct (Get_any w k Ha Hk) as (w1 & r & -> & Hg & Hv & Hr).
  destruct (IH w1 (proj1 Hg) Hks) as (w2 & vs & -> & Hg2 & Hv2 & Hf). do 2 eexists. split; [done|].
  split; [destruct Hg, Hg2; split; auto|]. split; [by eapply same_view_trans|]. constructor.
  - destruct Hr as [->|[_ [e ->]]]; [|by left]. unfold got. destruct (vals w k); [by right|by left].
  - eapply Forall2_impl; [exact Hf|]. cbn. intros k' v. by rewrite (proj1 Hv).
Qed.

(** What is decoded is a tribble of [ts], or one decoded before. *)
Lemma decodeAll_any w ks ts vs : Forall2 (stored TribCodec.Unmarshal w) ks ts ->
  forall ks', ks' ⊆ ks -> Forall2 (fun k v => v = "" \/ vals w k = Some v) ks' vs -> forall t0,
  length (decodeAll TribCodec.Unmarshal t0 vs) = length ks' /\
  forall t, t ∈ decodeAll TribCodec.Unmarshal t0 vs -> t ∈ ts \/ t = t0.
Proof.
  intros Hs ks' Hsub Hf. revert Hsub. induction Hf as [|k v ks' vs Hv _ IH]; intros Hsub t0; cbn [decodeAll].
  { split; [done|]. by intros t ?%elem_of_nil. }
  assert (Hk : k ∈ ks) by set_solver. destruct (IH ltac:(set_solver) (TribCodec.Unmarshal v t0)) as [Hl Ht].
  split; [cbn; by rewrite Hl|].
  assert (Hu : TribCodec.Unmarshal v t0 ∈ ts \/ TribCodec.Unmarshal v t0 = t0).
  { destruct Hv as [->|Hv]; [right; apply Unmarshal_empty|left].
    apply list_elem_of_lookup_1 in Hk as [i Hi]. destruct (Forall2_lookup_l _ _ _ _ _ Hs Hi) as (t & Hti & m & Hm & Hd).
    rewrite Hv in Hm. injection Hm as <-. rewrite Hd. by eapply list_elem_of_lookup_2. }
  intros t [->|Hin]%elem_of_cons; [done|]. destruct (Ht t Hin) as [|Et]; [by left|by rewrite Et].
Qed.

Lemma one_user_any w n u : keeps w n -> exists w' l,
  GetTribblesOneuser TribCodec.Unmarshal order u w = (w', l) /\ reaches w w' n /\
  (length l <= length (postsOf n u))%nat /\ forall t, t ∈ l -> t ∈ (postsOf n u).*2 \/ t = zeroTribble.
Proof.
  intros Hk. unfold GetTribblesOneuser.
  destruct (get_list_any w n (tribblesKey u) Hk (tribblesKey_kind u)) as (w1 & r & -> & Hr & Hl).
  pose proof (reaches_keeps _ _ _ Hr) as Hk1.
  assert (Hs : Forall2 (stored TribCodec.Unmarshal w1) (tribbleKey u <$> (pretty (A := Z) <$> (postsOf n u).*1)) (postsOf n u).*2).
  { rewrite !Forall2_fmap_l, Forall2_fmap_r. apply Forall_Forall2_diag, Forall_forall. intros [id t] Hin.
    by apply (sh_posts _ _ _ (proj2 Hk1)). }
  pose proof (order_perm (tribbleKey u <$> listed r)) as Hp. set (ks := order (tribbleKey u <$> listed r)) in *.
  assert (Hks : forall k, k ∈ ks -> k ∈ tribbleKey u <$> listed r) by (intros k; by rewrite Hp).
  assert (Hids : listed r = (pretty (A := Z) <$> (postsOf n u).*1) \/ listed r = []).
  { destruct Hl as [->|[e ->]]; [left; apply (sh_ids _ _ _ (proj2 Hk))|by right]. }
  assert (Hnl : Forall (fun k => list_key k = false) ks).
  { apply Forall_forall. intros k (id & -> & Hid)%Hks%list_elem_of_fmap. destruct Hids as [E|E]; rewrite E in Hid.
    - apply list_elem_of_fmap in Hid as (i & -> & _). apply tribbleKey_kind.
    - by apply elem_of_nil in Hid. }
  assert (Hsub : ks ⊆ tribbleKey u <$> (pretty (A := Z) <$> (postsOf n u).*1)).
  { intros k Hin%Hks. destruct Hids as [E|E]; rewrite E in Hin; [done|by apply elem_of_nil in Hin]. }
  assert (Hlen : (length ks <= length (postsOf n u))%nat).
  { rewrite (Permutation_length Hp), length_fmap. destruct Hids as [-> | ->]; [by rewrite !length_fmap|cbn; lia]. }
  destruct (fetchAll_any _ w1 (proj1 Hk1) Hnl) as (w2 & vs & -> & Hg2 & Hv2 & Hf).
  destruct (decodeAll_any w1 _ _ vs Hs _ Hsub Hf zeroTribble) as [Hd Ht].
  do 2 eexists. split; [done|]. split; [eapply reaches_trans; [done|by apply reaches_view]|]. split; [by rewrite Hd|done].
Qed.

Lemma collect_any n : forall us w, keeps w n -> exists w' l,
  collectUsers TribCodec.Unmarshal order us w = (w', l) /\ reaches w w' n /\
  (length l <= length (mjoin ((fun v => (postsOf n v).*2) <$> us)))%nat /\
  forall t, t ∈ l -> t ∈ mjoin ((fun v => (postsOf n v).*2) <$> us) \/ t = zeroTribble.
Proof.
  induction us as [|u us IH]; intros w Hk; cbn [collectUsers].
  { exists w, []. split_and!; [done|by apply reaches_refl|done|]. by intros t ?%elem_of_nil. }
  destruct (one_user_any w n u Hk) as (w1 & l1 & -> & Hr1 & Hl1 & Ht1).
  destruct (IH w1 (reaches_keeps _ _ _ Hr1)) as (w2 & l2 & -> & Hr2 & Hl2 & Ht2).
  do 2 eexists. split; [done|]. split; [by eapply reaches_trans|]. split.
  - rewrite fmap_cons. change (mjoin (?a :: ?b)) with (a ++ mjoin b). rewrite !length_app, length_fmap. lia.
  - intros t [Hin|Hin]%elem_of_app; cbn; rewrite elem_of_app; [destruct (Ht1 t Hin)|destruct (Ht2 t Hin)]; auto.
Qed.

Lemma newest_excerpt l ts : (length l <= length ts)%nat -> (forall t, t ∈ l -> t ∈ ts \/ t = zeroTribble) ->
  excerpt ts (newest sort l).
Proof.
  intros Hl Ht. destruct (newest_spec sort sort_perm sort_sorted l l (Permutation_refl l)) as (Hs & Hlen & older & Hp & _).
  split; [done|lia|]. intros t Hin. apply Ht. rewrite <- Hp. apply elem_of_app. by left.
Qed.

(** ** A request *)

Lemma handle_failing off q w n : Z.abs off < 1440 -> timely q -> keeps w n -> exists w' r n',
  handle sort order off q w = (w', r) /\ reaches w w' n' /\ failing q n r n'.
Proof.
  intros Hoff Hq Hk. destruct q as [u|u v|u v|u|u c time id|u|u]; cbn [handle].
  - destruct (create_failing w n u Hk) as (w' & r & n' & -> & ?). by eexists _, _, _.
  - destruct (subscribe_failing w n u v Hk) as (w' & r & n' & -> & ?). by eexists _, _, _.
  - destruct (unsubscribe_failing w n u v Hk) as (w' & r & n' & -> & ?). by eexists _, _, _.
  - unfold GetSubscriptions. cbn [gs_UserID failing]. look_up u w n Hk Hu Hk0; [|eexists _, _, _; split_and!; eauto].
    destruct (get_list_any w0 n (subscribeKey u) Hk0 (subscribeKey_kind u)) as (w2 & o & -> & Hr2 & Ho).
    rewrite (sh_subs _ _ _ (proj2 Hk0)) in Ho. eexists _, _, _. split; [done|].
    split; [by eapply reaches_trans|]. split; [done|]. destruct Ho as [->|[e ->]]; cbn; eauto 10.
  - destruct (post_failing off w n u c time id Hoff Hq Hk) as (w' & r & n' & -> & ?). by eexists _, _, _.
  - unfold GetTribbles. cbn [gt_UserID failing]. look_up u w n Hk Hu Hk0; [|eexists _, _, _; split_and!; eauto].
    destruct (one_user_any w0 n u Hk0) as (w2 & l & -> & Hr2 & Hl & Ht). eexists _, _, _. split; [done|].
    split; [by eapply reaches_trans|]. split; [done|]. right. eexists. split; [done|]. split; [done|].
    apply newest_excerpt; [by rewrite length_fmap|done].
  - unfold GetTribblesBySubscription. cbn [gt_UserID failing].
    look_up u w n Hk Hu Hk0; [|eexists _, _, _; split_and!; eauto].
    destruct (get_list_any w0 n (subscribeKey u) Hk0 (subscribeKey_kind u)) as (w2 & o & -> & Hr2 & Ho).
    destruct (collect_any n (order (listed o)) w2 (reaches_keeps _ _ _ Hr2)) as (w3 & l & -> & Hr3 & Hl & Ht).
    eexists _, _, _. split; [done|]. split; [eauto using reaches_trans|]. split; [done|]. right.
    eexists. split; [done|]. split; [done|]. rewrite (sh_subs _ _ _ (proj2 Hk0)) in Ho.
    assert (length (mjoin ((fun v => (postsOf n v).*2) <$> order (listed o))) <=
        length (mjoin ((fun v => (postsOf n v).*2) <$> subsOf n u)) /\
      forall t, t ∈ mjoin ((fun v => (postsOf n v).*2) <$> order (listed o)) ->
        t ∈ mjoin ((fun v => (postsOf n v).*2) <$> subsOf n u))%nat as [Hle Hin].
    { destruct Ho as [->|[e ->]]; cbn [listed].
      - split; [by rewrite (order_perm (subsOf n u))|]. intros t. by rewrite (order_perm (subsOf n u)).
      - assert (order [] = []) as -> by (apply Permutation_nil_r, order_perm). cbn. split; [lia|].
        by intros t ?%elem_of_nil. }
    apply newest_excerpt; [lia|]. intros t Ht'. destruct (Ht t Ht'); auto.
Qed.

End laws.

(** ** Any number of servers *)

(** The replies to a sequence of requests, and a network they may lead to. *)
Fixpoint all_failing (qs : list request) (n : network) (rs : list reply) (n' : network) : Prop :=
  match qs, rs with
  | [], [] => n' = n
  | q :: qs', r :: rs' => exists n1, failing q n r n1 /\ all_failing qs' n1 rs' n'
  | _, _ => False
  end.

Lemma serve_failing zone sort order ring n0 hosts reqs w n :
  (forall me, Z.abs (zone me) < 1440) -> Forall timely reqs.*2 ->
  (forall l, Permutation (sort l) l) ->
  (forall l, StronglySorted (fun t t' => Posted t' <= Posted t) (sort l)) ->
  (forall l, Permutation (order l) l) ->
  head ring = Some n0 -> Forall (fun x => x.1 ∈ hosts) reqs ->
  StorageCluster.ready ring n0 hosts w -> holds ring n0 w n ->
  exists w' rs n', serve zone sort order reqs w = (w', rs) /\ StorageCluster.ready ring n0 hosts w' /\
    holds ring n0 w' n' /\ all_failing reqs.*2 n rs n'.
Proof.
  intros Hz Hq Hsp Hss Ho Hring Hhosts. revert w n Hq Hhosts.
  induction reqs as [|[me q] reqs IH]; intros w n Hqs Hhosts Hr Hn; [by exists w, [], n|].
  apply Forall_cons in Hhosts as [Hme Hhosts], Hqs as [Hq Hqs]. cbn in Hme, Hq.
  destruct (handle_failing (H := StorageCluster.cluster_ops me)
    (H0 := StorageCluster.cluster_laws ring n0 Hring hosts me Hme)
    sort order Hsp Hss Ho (zone me) q w n (Hz me) Hq) as (w1 & r & n1 & E & [[Hr1 _] Hn1] & Ha); [by split|].
  destruct (IH w1 n1 Hqs Hhosts Hr1 Hn1) as (w2 & rs & n2 & E2 & Hr2 & Hn2 & Ha2).
  exists w2, (r :: rs), n2. cbn. rewrite E, E2. split_and!; try done. by exists n1.
Qed.

(** The second call of the first request is lost. *)
Definition demo_fates (t : nat) : StorageCluster.fate :=
  match t with 1%nat => StorageCluster.RequestLost | _ => StorageCluster.Delivered end.

Definition demo_lost : list (string * request) := [("c:3", RCreateUser "ann"); ("c:3", RGetTribbles "ann")].

(** C14: tribbler while calls to the storage system fail.  Requests that follow
    one another at any of the servers, over a storage system that is up, while
    any of the calls fails before or after the storage server has handled it:
    each leaves the network as it was or as the request makes it, nothing else,
    and the system stays up, so that from the moment calls get through again all
    answers are right for that network.  An
    OK of a subscription, its removal or a post means that it is done, an Exists
    of [CreateUser] that the user is there, a list of subscriptions is right,
    and a timeline shows nothing but tribbles that belong on it, newest first,
    and zero tribbles; all other answers may be wrong.  Above all an OK of
    [CreateUser]: with its one call lost, the user it reports as created is
    unknown afterwards. *)
Theorem tribbler_under_failures :
  (forall zone sort order ring n0 hosts reqs w n,
     (forall me, Z.abs (zone me) < 1440) -> Forall timely reqs.*2 ->
     (forall l, Permutation (sort l) l) ->
     (forall l, StronglySorted (fun t t' => Posted t' <= Posted t) (sort l)) ->
     (forall l, Permutation (order l) l) ->
     head ring = Some n0 -> Forall (fun x => x.1 ∈ hosts) reqs ->
     StorageCluster.ready ring n0 hosts w -> holds ring n0 w n ->
     exists w' rs n', serve zone sort order reqs w = (w', rs) /\ StorageCluster.ready ring n0 hosts w' /\
       holds ring n0 w' n' /\ all_failing reqs.*2 n rs n' /\
       (StorageCluster.calm w' -> forall reqs', Forall timely reqs'.*2 -> Forall (fun x => x.1 ∈ hosts) reqs' ->
          exists w'' rs', serve zone sort order reqs' w' = (w'', rs') /\ all_answers reqs'.*2 n' rs')) /\
  exists w, StorageCluster.ready demo_ring (StorageRpc.mkNode "b:2" 3) demo_hosts w /\
    holds demo_ring (StorageRpc.mkNode "b:2" 3) w (mkNetwork ∅ ∅ ∅) /\
    (serve (fun _ => 0) (merge_sort later) (fun l => l) demo_lost w).2 = [RStatus OK; RTribbles NoSuchUser []].
Proof.
  split.
  - intros zone sort order ring n0 hosts reqs w n Hz Hq Hsp Hss Ho Hring Hhosts Hr Hn.
    destruct (serve_failing zone sort order ring n0 hosts reqs w n Hz Hq Hsp Hss Ho Hring Hhosts Hr Hn)
      as (w' & rs & n' & E & Hr' & Hn' & Ha).
    exists w', rs, n'. repeat (split; [assumption|]). intros Hc reqs' Hq' Hh'.
    destruct (serve_refines zone sort order ring n0 hosts reqs' w' n' Hz Hq' Hsp Hss Ho Hring Hh' Hr' Hc Hn')
      as (w2 & rs2 & E2 & _ & _ & Ha2). exists w2, rs2. by split.
  - exists (demo_system demo_fates). split; [apply demo_system_ready|]. split; [apply demo_system_empty|].
    vm_compute. reflexivity.
Qed.

Lemma tribbler_under_failures_witness :
  exists w' r1 r2 n' n1, serve (fun _ => 0) (merge_sort later) (fun l => l) demo_lost (demo_system demo_fates) =
      (w', [r1; r2]) /\ failing (RCreateUser "ann") (mkNetwork ∅ ∅ ∅) r1 n1 /\ failing (RGetTribbles "ann") n1 r2 n'.
Proof.
  destruct (proj1 tribbler_under_failures (fun _ => 0) (merge_sort later) (fun l => l) demo_ring (StorageRpc.mkNode "b:2" 3)
    demo_hosts demo_lost (demo_system demo_fates) (mkNetwork ∅ ∅ ∅)) as (w' & rs & n' & E & _ & _ & Ha & _).
  - intros me. reflexivity.
  - repeat constructor.
  - apply merge_sort_Permutation.
  - apply (StronglySorted_merge_sort later).
  - done.
  - reflexivity.
  - repeat constructor; set_solver.
  - apply demo_system_ready.
  - apply demo_system_empty.
  - destruct rs as [|r1 [|r2 [|]]]; [destruct Ha|destruct Ha as (? & _ & [])| |destruct Ha as (? & _ & ? & _ & [])].
    destruct Ha as (n1 & H1 & n2 & H2 & ->). exists w', r1, r2, n2, n1. split; [exact E|]. split; [exact H1|exact H2].
Defined.

(** A text that cannot be fetched: the tribble before it is shown twice. *)
Definition demo_posts : list (string * request) :=
  [("c:3", RCreateUser "bob"); ("c:3", RPostTribble "bob" "one" 5 6); ("c:3", RPostTribble "bob" "two" 7 8);
   ("c:3", RGetTribbles "bob")].

Example tribble_shown_twice :
  (serve (fun _ => 0) (merge_sort later) (fun l => l) demo_posts
     (demo_system (fun t => match t with 11%nat => StorageCluster.ReplyLost | _ => StorageCluster.Delivered end))).2 =
  [RStatus OK; RStatus OK; RStatus OK; RTribbles OK [mkTribble "bob" 5 "one"; mkTribble "bob" 5 "one"]].
Proof. vm_compute. reflexivity. Qed.

End TribFaults.
