(* ===== verification/TribConcurrent.v ===== *)
(** * TribConcurrent: requests that overlap

    [TribNetwork] serves one request after the other.  Here any number of
    requests are under way at the same time, at any of the tribbler servers: a
    handler is the sequence of libstore operations it makes ([prog]), and the
    operations of different requests interleave in any way.  [program_handle]
    shows that a program run alone is the handler of [TribServer].  (What
    interleaves within an operation is the matter of [Lease].  The concurrent
    fetches of one request are made one after the other, in any order.)

    [overlapping_requests] is about all of them but for posts that share user
    and nanosecond: the requests are linearizable with respect to the network of
    [TribNetwork], except that two overlapping [CreateUser] may both succeed and
    that a timeline of subscriptions is put together at several moments. *)
From S2P Require Import Prelude GoJson GoTime StorageRpc StorageServer Libstore Lease TribServer TribJson.
From S2P Require Import StorageCluster StorageStart TribNetwork TribFaults.
Open Scope Z_scope.

Module TribConcurrent.
Import TribRpc TribServer TribNetwork.
Import TribFaults(shows_view, shows_orphan).

(** ** Handlers as programs *)

Inductive prog :=
  | Done (r : reply)
  | DoGet (k : string) (c : string + string -> prog)
  | DoPut (k v : string) (c : option string -> prog)
  | DoGetList (k : string) (c : list string + string -> prog)
  | DoAppend (k v : string) (c : option string -> prog)
  | DoRemove (k v : string) (c : option string -> prog).

(** The next operation; a program that is done stays so. *)
Definition exec1 {W} `{LibstoreOps W} (p : prog) (w : W) : W * prog :=
  match p with
  | Done r => (w, Done r)
  | DoGet k c => let '(w, o) := ls_Get k w in (w, c o)
  | DoPut k v c => let '(w, o) := ls_Put k v w in (w, c o)
  | DoGetList k c => let '(w, o) := ls_GetList k w in (w, c o)
  | DoAppend k v c => let '(w, o) := ls_AppendToList k v w in (w, c o)
  | DoRemove k v c => let '(w, o) := ls_RemoveFromList k v w in (w, c o)
  end.

Fixpoint run {W} `{LibstoreOps W} (p : prog) (w : W) : W * reply :=
  match p with
  | Done r => (w, r)
  | DoGet k c => let '(w, o) := ls_Get k w in run (c o) w
  | DoPut k v c => let '(w, o) := ls_Put k v w in run (c o) w
  | DoGetList k c => let '(w, o) := ls_GetList k w in run (c o) w
  | DoAppend k v c => let '(w, o) := ls_AppendToList k v w in run (c o) w
  | DoRemove k v c => let '(w, o) := ls_RemoveFromList k v w in run (c o) w
  end.

Section programs.
Context (sort : list Tribble -> list Tribble) (order : list string -> list string).

(** The lookup of the user comes first in all of them. *)
Definition forUser (u : string) (none some : prog) : prog :=
  DoGet (userKey u) (fun ok_user => match ok_user with inr _ => none | inl _ => some end).

Definition checkUsers (u v : string) (body : prog) : prog :=
  DoGet (userKey u) (fun ok_user => DoGet (userKey v) (fun ok_target =>
    match ok_user, ok_target with
    | inr _, _ => Done (RStatus NoSuchUser)
    | inl _, inr _ => Done (RStatus NoSuchTargetUser)
    | inl _, inl _ => body
    end)).

Fixpoint fetchAll (keys : list string) (c : list string -> prog) : prog :=
  match keys with
  | [] => c []
  | k :: keys' => DoGet k (fun val => fetchAll keys' (fun rest => c (fetched val :: rest)))
  end.

Definition GetTribblesOneuser (u : string) (c : list Tribble -> prog) : prog :=
  DoGetList (tribblesKey u) (fun tribble_list =>
    fetchAll (order (tribbleKey u <$> listed tribble_list)) (fun vs => c (decodeAll TribCodec.Unmarshal zeroTribble vs))).

Fixpoint collectUsers (us : list string) (c : list Tribble -> prog) : prog :=
  match us with
  | [] => c []
  | u :: us' => GetTribblesOneuser u (fun value => collectUsers us' (fun ans => c (value ++ ans)))
  end.

Definition program (off : Z) (q : request) : prog :=
  match q with
  | RCreateUser u =>
      forUser u (DoPut (userKey u) (userKey u) (fun _ => Done (RStatus OK))) (Done (RStatus Exists))
  | RAddSubscription u v =>
      checkUsers u v (DoAppend (subscribeKey u) v (fun err =>
        Done (RStatus match err with Some _ => Exists | None => OK end)))
  | RRemoveSubscription u v =>
      checkUsers u v (DoRemove (subscribeKey u) v (fun err =>
        Done (RStatus match err with Some _ => NoSuchTargetUser | None => OK end)))
  | RGetSubscriptions u =>
      forUser u (Done (RUsers NoSuchUser [])) (DoGetList (subscribeKey u) (fun value =>
        Done match value with inr err => RError err | inl l => RUsers OK l end))
  | RPostTribble u contents time id =>
      forUser u (Done (RStatus NoSuchUser))
        (DoPut (tribbleKey u (pretty id)) (TribCodec.Marshal off (mkTribble u time contents)) (fun err =>
           match err with
           | Some _ => Done (RError "error PostTribble")
           | None => DoAppend (tribblesKey u) (pretty id) (fun err =>
               Done match err with None => RStatus OK | Some err => RError ("error AppendToList " +:+ err) end)
           end))
  | RGetTribbles u =>
      forUser u (Done (RTribbles NoSuchUser []))
        (GetTribblesOneuser u (fun tribbles => Done (RTribbles OK (newest sort tribbles))))
  | RGetTribblesBySubscription u =>
      forUser u (Done (RTribbles NoSuchUser [])) (DoGetList (subscribeKey u) (fun subscribe_list =>
        collectUsers (order (listed subscribe_list)) (fun ans => Done (RTribbles OK (newest sort ans)))))
  end.

(** *** They are the handlers *)

Section handlers.
Context {W : Type} `{LibstoreOps W}.

Lemma run_fetchAll ks : forall c (w : W),
  run (fetchAll ks c) w = let '(w, vs) := TribServer.fetchAll ks w in run (c vs) w.
Proof.
  induction ks as [|k ks IH]; intros c w; [done|]. cbn. destruct (ls_Get k w) as [w1 o]. rewrite IH.
  by destruct (TribServer.fetchAll ks w1).
Qed.

Lemma run_oneuser u c (w : W) :
  run (GetTribblesOneuser u c) w =
    let '(w, l) := TribServer.GetTribblesOneuser TribCodec.Unmarshal order u w in run (c l) w.
Proof.
  cbn. unfold TribServer.GetTribblesOneuser. destruct (ls_GetList _ w) as [w1 o]. rewrite run_fetchAll.
  by destruct (TribServer.fetchAll _ w1).
Qed.

Lemma run_collect us : forall c (w : W),
  run (collectUsers us c) w =
    let '(w, l) := TribServer.collectUsers TribCodec.Unmarshal order us w in run (c l) w.
Proof.
  induction us as [|u us IH]; intros c w; [done|]. cbn [collectUsers TribServer.collectUsers]. rewrite run_oneuser.
  destruct (TribServer.GetTribblesOneuser _ order u w) as [w1 l]. rewrite IH.
  by destruct (TribServer.collectUsers _ order us w1).
Qed.

(** A program run by itself is the handler. *)
Lemma program_handle off q (w : W) : run (program off q) w = handle sort order off q w.
Proof.
  destruct q as [u|u v|u v|u|u c time id|u|u]; cbn [program handle];
    unfold CreateUser, AddSubscription, RemoveSubscription, TribServer.checkUsers, GetSubscriptions, PostTribble,
      GetTribbles, GetTribblesBySubscription, forUser, checkUsers; cbn -[GetTribblesOneuser collectUsers];
    destruct (ls_Get (userKey u) w) as [w1 [x|x]]; try done; cbn -[GetTribblesOneuser collectUsers].
  - by destruct (ls_Put _ _ w1).
  - destruct (ls_Get (userKey v) w1) as [w2 [y|y]]; try done. cbn. by destruct (ls_AppendToList _ _ w2) as [? []].
  - by destruct (ls_Get (userKey v) w1) as [w2 [y|y]].
  - destruct (ls_Get (userKey v) w1) as [w2 [y|y]]; try done. cbn. by destruct (ls_RemoveFromList _ _ w2) as [? []].
  - by destruct (ls_Get (userKey v) w1) as [w2 [y|y]].
  - by destruct (ls_GetList _ w1) as [? []].
  - destruct (ls_Put _ _ w1) as [w2 [e|]]; [done|]. cbn. by destruct (ls_AppendToList _ _ w2) as [? []].
  - rewrite run_oneuser. by destruct (TribServer.GetTribblesOneuser _ _ _ _).
  - destruct (ls_GetList _ w1) as [w2 o]. rewrite run_collect. by destruct (TribServer.collectUsers _ _ _ _).
Qed.
End handlers.
End programs.


(** ** The specification *)

(** The user and the id of a post. *)
Definition post_of (q : request) : option (string * Z) :=
  match q with RPostTribble u _ _ id => Some (u, id) | _ => None end.

(** The reply to a request that began on the network [nb], took effect on [m]
    and ended on [n]. *)
Definition admits (q : request) (nb m : network) (r : reply) (n : network) : Prop :=
  match q with
  | RCreateUser u => r = RStatus Exists /\ u ∈ users m \/ r = RStatus OK /\ u ∉ users nb
  | RGetTribblesBySubscription u =>
      if bool_decide (u ∈ users m) then
        exists l seen, r = RTribbles OK l /\ timeline (mjoin (fmap snd <$> seen)) l /\
          Forall2 (fun v ps => postsOf m v `prefix_of` ps /\ ps `prefix_of` postsOf n v) (subsOf m u) seen
      else r = RTribbles NoSuchUser []
  | _ => answers q m r
  end.

Inductive happening :=
  | Invoked (i : nat) (q : request)
  | Returned (i : nat) (r : reply).

(** The networks that a log leads to. *)
Definition at_ (n0 : network) (log : list (nat * request)) (x : nat) : network := all_after (take x log).*2 n0.

(** A history is explained by a log of the requests in the order in which they
    took effect, and by the length the log had at each point of the history. *)
Record explains (n0 : network) (h : list happening) (log : list (nat * request)) (marks : list nat) : Prop := {
  ex_once : NoDup log.*1;
  ex_marks : length marks = length h;
  ex_sorted : forall a b x y, marks !! a = Some x -> marks !! b = Some y -> (a <= b)%nat -> (x <= y)%nat;
  ex_bound : forall a x, marks !! a = Some x -> (x <= length log)%nat;
  ex_asked : forall i q, (i, q) ∈ log -> Invoked i q ∈ h;
  ex_after : forall a i q x k q', h !! a = Some (Invoked i q) -> marks !! a = Some x ->
    log !! k = Some (i, q') -> (x <= k)%nat;
  ex_result : forall b i r, h !! b = Some (Returned i r) -> exists q a x y k,
    h !! a = Some (Invoked i q) /\ marks !! a = Some x /\ marks !! b = Some y /\
    log !! k = Some (i, q) /\ (x <= k < y)%nat /\ admits q (at_ n0 log x) (at_ n0 log k) r (at_ n0 log y) }.

(** ** What a request relies on *)

(** Whatever other requests do, users stay and posts are added at the end. *)
Definition grows (n n' : network) : Prop :=
  users n ⊆ users n' /\ forall v, postsOf n v `prefix_of` postsOf n' v.

Definition fresh (q : request) (n : network) : Prop :=
  forall u id, post_of q = Some (u, id) -> id ∉ (postsOf n u).*1.

(** The values that a request puts. *)
Definition mine (q : request) (k : string) : Prop :=
  (exists u, k = userKey u) \/ exists u id, post_of q = Some (u, id) /\ k = tribbleKey u (pretty id).

(** The tribble is stored, for a post that has put it. *)
Definition draft (off : Z) (q : request) (V : string -> option string) : Prop :=
  match q with
  | RPostTribble u c time id => V (tribbleKey u (pretty id)) = Some (TribCodec.Marshal off (mkTribble u time c))
  | _ => True
  end.

Lemma grows_refl n : grows n n.
Proof. by split. Qed.

Lemma grows_trans n n' n'' : grows n n' -> grows n' n'' -> grows n n''.
Proof. intros [Hu Hp] [Hu' Hp']. split; [set_solver|]. intros v. by transitivity (postsOf n' v). Qed.

Lemma upsert_fresh id t l : id ∉ l.*1 -> upsert id t l = l ++ [(id, t)].
Proof.
  induction l as [|[i x] l IH]; [done|]. cbn. intros [Hne Hn]%not_elem_of_cons.
  rewrite (proj2 (Z.eqb_neq i id)) by congruence. by rewrite IH.
Qed.

Lemma postsOf_insert n u l v : postsOf (n <| posted := <[u := l]> (posted n) |>) v = if decide (v = u) then l else postsOf n v.
Proof.
  unfold postsOf. cbn. case_decide as E; [subst; by rewrite (lookup_insert_eq (posted n))|].
  by rewrite (lookup_insert_ne (posted n)) by congruence.
Qed.

Lemma after_grows q n : fresh q n -> grows n (after q n).
Proof.
  intros Hf. destruct q as [u|u v|u v|u|u c time id|u|u]; cbn [after]; try apply grows_refl.
  - split; [set_solver|done].
  - case_bool_decide; by split.
  - case_bool_decide; by split.
  - case_bool_decide; [|done]. split; [done|]. intros v. rewrite postsOf_insert. case_decide as E; [|done]. subst v.
    rewrite upsert_fresh by (by apply Hf). by eexists.
Qed.

(** Other posts do not take the id of this one. *)
Lemma after_fresh q q' n : (forall x, post_of q = Some x -> post_of q' <> Some x) -> fresh q n -> fresh q (after q' n).
Proof.
  intros Ha Hf u id Hq. destruct q' as [v|v w|v w|v|v c time id'|v|v]; cbn [after]; try case_bool_decide; try by apply Hf.
  rewrite postsOf_insert. case_decide as E; [|by apply Hf]. subst v. rewrite upsert_ids.
  pose proof (Hf u id Hq) as Hu. case_bool_decide; [done|]. rewrite elem_of_app, list_elem_of_singleton.
  intros [?| ->]; [done|]. by apply (Ha _ Hq).
Qed.

Lemma after_ids q n u id : id ∈ (postsOf (after q n) u).*1 -> id ∈ (postsOf n u).*1 \/ post_of q = Some (u, id).
Proof.
  intros Hin. destruct (decide (post_of q = Some (u, id))) as [|Hne]; [by right|].
  destruct (decide (id ∈ (postsOf n u).*1)) as [|Hn]; [by left|]. exfalso.
  apply (after_fresh (RPostTribble u "" 0 id) q n) with u id; [|intros ? ? [= -> ->]|..]; try done.
  by intros x [= <-].
Qed.

Lemma all_after_ids qs : forall n u id, id ∈ (postsOf (all_after qs n) u).*1 ->
  id ∈ (postsOf n u).*1 \/ exists q, q ∈ qs /\ post_of q = Some (u, id).
Proof.
  induction qs as [|q qs IH]; intros n u id; cbn; [by left|].
  intros [Hin|(q' & ? & ?)]%IH; [|right; exists q'; split; [by right|done]].
  apply after_ids in Hin as [|]; [by left|]. right. exists q. split; [by left|done].
Qed.

Lemma all_after_snoc qs q : forall n, all_after (qs ++ [q]) n = after q (all_after qs n).
Proof. induction qs as [|x qs IH]; intros n; [done|]. apply IH. Qed.

(** ** Programs that can be relied on *)

Section safe.
Context (off : Z) (q : request) (nb : network).

(** What the storage holds when the request has its turn. *)
Record sees (n : network) (lin : option network) (own : bool) (V : string -> option string) (E : string -> list string)
    : Prop := {
  se_shows : shows V E n;
  se_draft : own = true -> draft off q V;
  se_fresh : lin = None -> fresh q n }.

(** An operation leaves the network alone, or the request takes effect. *)
Definition takes (n : network) (lin : option network) (n' : network) (lin' : option network) : Prop :=
  n' = n /\ lin' = lin \/ lin = None /\ lin' = Some n /\ n' = after q n.

(** From the network [n] on, with other requests between its operations, the
    request takes effect once, and its reply is right; [lin] is the network on
    which it took effect, [own] says that it has stored its tribble. *)
Fixpoint safe (n : network) (lin : option network) (own : bool) (p : prog) : Prop :=
  match p with
  | Done r => exists m, lin = Some m /\ admits q nb m r n
  | DoGet k c => list_key k = false /\
      forall n' V E, grows n n' -> sees n' lin own V E ->
        exists n'' lin', takes n' lin n'' lin' /\ shows V E n'' /\ safe n'' lin' own (c (got (V k)))
  | DoPut k v c => list_key k = false /\ mine q k /\
      forall n' V E V', grows n n' -> sees n' lin own V E ->
        (forall k', V' k' = if decide (k' = k) then Some v else V k') ->
        exists n'' lin' own', takes n' lin n'' lin' /\ shows V' E n'' /\ (own' = true -> draft off q V') /\
          safe n'' lin' own' (c None)
  | DoGetList k c => list_key k = true /\
      forall n' V E, grows n n' -> sees n' lin own V E ->
        exists n'' lin', takes n' lin n'' lin' /\ shows V E n'' /\ safe n'' lin' own (c (inl (E k)))
  | DoAppend k v c => list_key k = true /\
      forall n' V E E', grows n n' -> sees n' lin own V E ->
        (forall k', E' k' = if decide (k' = k) then (StorageServer.append_spec v (E k)).2 else E k') ->
        exists n'' lin', takes n' lin n'' lin' /\ shows V E' n'' /\
          safe n'' lin' own (c (if bool_decide (v ∈ E k) then Some itemThere else None))
  | DoRemove k v c => list_key k = true /\
      forall n' V E E', grows n n' -> sees n' lin own V E ->
        (forall k', E' k' = if decide (k' = k) then (StorageServer.remove_spec v (E k)).2 else E k') ->
        exists n'' lin', takes n' lin n'' lin' /\ shows V E' n'' /\
          safe n'' lin' own (c (if bool_decide (v ∈ E k) then None else Some itemMissing))
  end.

Definition unfinished (p : prog) : Prop := match p with Done _ => False | _ => True end.

Lemma safe_grows n n' lin own p : unfinished p -> grows n n' -> safe n lin own p -> safe n' lin own p.
Proof.
  intros Hp Hg. destruct p; cbn; [done|..]; intros Hs.
  all: repeat match goal with H : _ /\ _ |- _ => destruct H end; repeat (split; [done|]).
  all: intros; match goal with H : forall _, _ |- _ => eapply H end; [by eapply grows_trans|done..].
Qed.

Lemma takes_here n lin : takes n lin n lin.
Proof. by left. Qed.

Lemma takes_now n : takes n None (after q n) (Some n).
Proof. by right. Qed.

(** The lookup of a user: the request goes on, or has its answer. *)
Lemma safe_user n own u c :
  (forall n' x, grows n n' -> fresh q n' -> u ∈ users n' ->
     exists lin, takes n' None n' lin /\ safe n' lin own (c (inl x))) ->
  (forall n' e, grows n n' -> fresh q n' -> u ∉ users n' ->
     exists lin, takes n' None n' lin /\ safe n' lin own (c (inr e))) ->
  safe n None own (DoGet (userKey u) c).
Proof.
  intros Hyes Hno. split; [apply userKey_kind|]. intros n' V E Hg [Hs _ Hf]. specialize (Hf eq_refl).
  pose proof (sh_users _ _ _ Hs u) as Hu. destruct (V (userKey u)) as [x|]; cbn [got].
  - destruct (Hyes n' x) as (lin & ? & ?); [done|done|apply Hu; by eexists|]. by exists n', lin.
  - destruct (Hno n' noValue) as (lin & ? & ?); [done|done|by intros ?%Hu%is_Some_None|]. by exists n', lin.
Qed.

(** A fetch after the request has taken effect. *)
Lemma safe_get n lin own k c :
  list_key k = false -> (forall n' o, grows n n' -> safe n' lin own (c o)) -> safe n lin own (DoGet k c).
Proof.
  intros Hk Hc. split; [done|]. intros n' V E Hg [Hs _ _]. exists n', lin. split; [by left|]. by auto.
Qed.

(** An answer that changes nothing. *)
Lemma takes_idle n : after q n = n -> takes n None n (Some n).
Proof. intros E. right. by rewrite E. Qed.

Lemma safe_done m own r n : admits q nb m r n -> safe n (Some m) own (Done r).
Proof. by exists m. Qed.
End safe.

Lemma known_user u n : u ∈ users n -> after (RCreateUser u) n = n.
Proof. intros Hu. destruct n as [us su po]. cbn in *. unfold field_update. cbn. f_equal. set_solver. Qed.

Lemma create_safe off sort order u nb : safe off (RCreateUser u) nb nb None false (program sort order off (RCreateUser u)).
Proof.
  apply safe_user; intros n' x Hg _ Hu.
  - exists (Some n'). split; [by apply takes_idle, known_user|]. apply safe_done. by left.
  - exists None. split; [apply takes_here|]. split; [apply userKey_kind|]. split; [left; by eexists|].
    intros n2 V E V' Hg2 [Hs _ _] HV. exists (after (RCreateUser u) n2), (Some n2), false. split; [apply takes_now|].
    split; [by apply (shows_create V E n2 u)|]. split; [done|]. apply safe_done. right. split; [done|].
    intros Hin. by apply Hu, Hg.
Qed.

(** Both subscription handlers, for a [body] that is one operation. *)
Lemma check_safe off q nb u v body :
  (forall m r, answers q m r -> forall n, admits q nb m r n) ->
  (forall n, (u ∉ users n) \/ (v ∉ users n) -> after q n = n) ->
  (forall n, u ∉ users n -> answers q n (RStatus NoSuchUser)) ->
  (forall n, u ∈ users n -> v ∉ users n -> answers q n (RStatus NoSuchTargetUser)) ->
  (forall n, u ∈ users n -> v ∈ users n -> safe off q nb n None false body) ->
  safe off q nb nb None false (checkUsers u v body).
Proof.
  intros Ha Hidle Hnu Hnv Hbody. apply safe_user; intros n' x Hg _ Hu.
  - exists None. split; [apply takes_here|]. apply safe_user; intros n2 y Hg2 _ Hv.
    + exists None. split; [apply takes_here|]. apply Hbody; [by apply Hg2|done].
    + exists (Some n2). split; [apply takes_idle; auto|]. apply safe_done, Ha, Hnv; [by apply Hg2|done].
  - exists (Some n'). split; [apply takes_idle; auto|]. apply safe_get; [apply userKey_kind|].
    intros n2 o Hg2. apply safe_done, Ha. by apply Hnu.
Qed.

Lemma subscribe_safe off sort order u v nb :
  safe off (RAddSubscription u v) nb nb None false (program sort order off (RAddSubscription u v)).
Proof.
  apply check_safe; cbn [after answers admits]; unfold checked; try done.
  - intros n Hn. by rewrite bool_decide_false by tauto.
  - intros n Hu. by rewrite bool_decide_false.
  - intros n Hu Hv. by rewrite bool_decide_true, bool_decide_false.
  - intros n Hu Hv. split; [apply subscribeKey_kind|]. intros n2 V E E' Hg [Hs _ _] HE.
    assert (u ∈ users n2 /\ v ∈ users n2) as [Hu2 Hv2] by (by split; apply Hg).
    rewrite (sh_subs _ _ _ Hs) in *. exists (after (RAddSubscription u v) n2), (Some n2). split; [apply takes_now|].
    cbn [after]. rewrite bool_decide_true by done. split; [by apply (shows_subs V E)|]. apply safe_done.
    cbn. unfold checked. rewrite !(bool_decide_true (_ ∈ users n2)) by done. by case_bool_decide.
Qed.

Lemma unsubscribe_safe off sort order u v nb :
  safe off (RRemoveSubscription u v) nb nb None false (program sort order off (RRemoveSubscription u v)).
Proof.
  apply check_safe; cbn [after answers admits]; unfold checked; try done.
  - intros n Hn. by rewrite bool_decide_false by tauto.
  - intros n Hu. by rewrite bool_decide_false.
  - intros n Hu Hv. by rewrite bool_decide_true, bool_decide_false.
  - intros n Hu Hv. split; [apply subscribeKey_kind|]. intros n2 V E E' Hg [Hs _ _] HE.
    assert (u ∈ users n2 /\ v ∈ users n2) as [Hu2 Hv2] by (by split; apply Hg).
    rewrite (sh_subs _ _ _ Hs) in *. exists (after (RRemoveSubscription u v) n2), (Some n2). split; [apply takes_now|].
    cbn [after]. rewrite bool_decide_true by done. split; [by apply (shows_subs V E)|]. apply safe_done.
    cbn. unfold checked. rewrite !(bool_decide_true (_ ∈ users n2)) by done. by case_bool_decide.
Qed.

Lemma post_safe off sort order u c time id nb : let q := RPostTribble u c time id in
  Z.abs off < 1440 -> timely q -> safe off q nb nb None false (program sort order off q).
Proof.
  intros q Hoff Hq. apply safe_user; intros n' x Hg _ Hu.
  2: { exists (Some n'). split; [apply takes_idle; cbn; by rewrite bool_decide_false|]. apply safe_done. cbn. by rewrite bool_decide_false. }
  exists None. split; [apply takes_here|]. split; [apply tribbleKey_kind|]. split; [right; by exists u, id|].
  intros n2 V E V' Hg2 [Hs _ Hf] HV. specialize (Hf eq_refl). exists n2, None, true. split; [apply takes_here|].
  split; [eapply (shows_orphan V E n2 u id); [done|by apply Hf|done]|].
  split; [intros _; cbn; by rewrite HV, decide_True|]. split; [apply tribblesKey_kind|].
  intros n3 V3 E3 E' Hg3 [Hs3 Hd Hf3] HE. specialize (Hf3 eq_refl u id eq_refl). specialize (Hd eq_refl). cbn in Hd.
  assert (Hu3 : u ∈ users n3) by by apply Hg3, Hg2.
  exists (after q n3), (Some n3). split; [apply takes_now|]. cbn [after q]. rewrite bool_decide_true by done. split.
  - eapply (shows_post V3 E3 n3 u id (TribCodec.Marshal off (mkTribble u time c))); [done| | |done].
    + intros old. apply TribCodec.tribble_roundtrip. by apply Rfc3339.clock_printable.
    + intros k. by case_decide; subst.
  - rewrite (sh_ids _ _ _ Hs3), fresh_pretty, bool_decide_false by done. apply safe_done. cbn.
    by rewrite bool_decide_true, bool_decide_false.
Qed.


(** *** Timelines: what is listed stays fetchable *)

Section timelines.
Context (off : Z) (sort : list Tribble -> list Tribble) (order : list string -> list string).
Context (sort_perm : forall l, Permutation (sort l) l).
Context (sort_sorted : forall l, StronglySorted (fun t t' => Posted t' <= Posted t) (sort l)).
Context (order_perm : forall l, Permutation (order l) l).

Section one.
Context (q : request) (nb : network).

(** Under the key there is a tribble of [u]. *)
Definition listed_at (n : network) (u k : string) (t : Tribble) : Prop :=
  exists id, k = tribbleKey u (pretty id) /\ (id, t) ∈ postsOf n u.

Lemma listed_grows n n' u ks ts : grows n n' -> Forall2 (listed_at n u) ks ts -> Forall2 (listed_at n' u) ks ts.
Proof.
  intros [_ Hp] Hf. eapply Forall2_impl; [exact Hf|]. intros k t (id & -> & Hin). exists id. split; [done|].
  by eapply elem_of_prefix.
Qed.

Lemma fetch_safe u lin own ks : forall ts n c, Forall2 (listed_at n u) ks ts ->
  (forall n', grows n n' -> forall vs, Forall2 (fun v t => forall old, TribCodec.Unmarshal v old = t) vs ts ->
     safe off q nb n' lin own (c vs)) ->
  safe off q nb n lin own (fetchAll ks c).
Proof.
  induction ks as [|k ks IH]; intros ts n c Hf Hc.
  - apply Forall2_nil_inv_l in Hf as ->. apply Hc; [apply grows_refl|constructor].
  - apply Forall2_cons_inv_l in Hf as (t & ts' & (id & -> & Hin) & Hf & ->). split; [apply tribbleKey_kind|].
    intros n' V E Hg [Hs _ _]. exists n', lin. split; [apply takes_here|]. split; [done|].
    destruct (sh_posts _ _ _ Hs u id t) as (m & -> & Hm); [by eapply elem_of_prefix; [|apply Hg]|].
    apply IH with ts'; [by eapply listed_grows|]. intros n2 Hg2 vs Hvs. apply Hc; [by eapply grows_trans|].
    by constructor.
Qed.

Lemma decode_all vs ts : Forall2 (fun v t => forall old, TribCodec.Unmarshal v old = t) vs ts ->
  forall t0, decodeAll TribCodec.Unmarshal t0 vs = ts.
Proof. induction 1 as [|v t vs ts Hv _ IH]; intros t0; [done|]. cbn. by rewrite Hv, IH. Qed.

(** The posts of one user at a moment [n']; [f] is where the request then is. *)
Lemma oneuser_safe u lin own (f : network -> option network) n c :
  (forall n', takes q n' lin n' (f n')) ->
  (forall n' n'' l, grows n n' -> grows n' n'' -> Permutation l (postsOf n' u).*2 ->
     safe off q nb n'' (f n') own (c l)) ->
  safe off q nb n lin own (GetTribblesOneuser order u c).
Proof.
  intros Hf Hc. split; [apply tribblesKey_kind|]. intros n' V E Hg [Hs _ _]. exists n', (f n').
  split; [apply Hf|]. split; [done|]. rewrite (sh_ids _ _ _ Hs). cbn [listed].
  assert (Hkeys : Forall2 (listed_at n' u) (tribbleKey u <$> (pretty <$> (postsOf n' u).*1)) (postsOf n' u).*2).
  { rewrite !Forall2_fmap_l, Forall2_fmap_r. apply Forall_Forall2_diag, Forall_forall. intros [id t] Hin. by exists id. }
  destruct (Permutation_Forall2 (symmetry (order_perm _)) Hkeys) as (ts & Hts & Hord).
  apply (fetch_safe u (f n') own _ ts); [done|]. intros n2 Hg2 vs Hvs. apply (Hc n' n2); [done..|].
  by rewrite (decode_all vs ts Hvs).
Qed.

(** The posts of users, each at a moment of its own. *)
Definition seen_between (n n' : network) : list string -> list (list (Z * Tribble)) -> Prop :=
  Forall2 (fun v ps => postsOf n v `prefix_of` ps /\ ps `prefix_of` postsOf n' v).

Lemma seen_earlier n n1 n' us seen : grows n n1 -> seen_between n1 n' us seen -> seen_between n n' us seen.
Proof.
  intros [_ Hp] Hs. eapply Forall2_impl; [exact Hs|]. intros v ps [Hl Hr]. split; [|done].
  by transitivity (postsOf n1 v).
Qed.

Lemma collect_safe m own us : forall n c,
  (forall n' l seen, grows n n' -> seen_between n n' us seen -> Permutation l (mjoin (fmap snd <$> seen)) ->
     safe off q nb n' (Some m) own (c l)) ->
  safe off q nb n (Some m) own (collectUsers order us c).
Proof.
  induction us as [|u us IH]; intros n c Hc.
  - apply (Hc n [] []); [apply grows_refl|constructor|done].
  - apply (oneuser_safe u (Some m) own (fun _ => Some m)); [intros n'; apply takes_here|].
    intros n1 n2 l1 Hg1 Hg2 Hl1. apply IH. intros n3 l2 seen Hg3 Hseen Hl2.
    apply (Hc n3 (l1 ++ l2) (postsOf n1 u :: seen)); [eauto using grows_trans| |by rewrite Hl1, Hl2].
    constructor; [split; [apply Hg1|]|by eapply seen_earlier; [eapply grows_trans|]].
    transitivity (postsOf n2 u); [apply Hg2|apply Hg3].
Qed.
End one.

Lemma timelines_safe q nb u : q = RGetTribbles u \/ q = RGetTribblesBySubscription u ->
  safe off q nb nb None false (program sort order off q).
Proof.
  intros Hq. assert (Hidle : forall n, after q n = n) by (intros n; by destruct Hq as [-> | ->]).
  assert (Hnone : forall n, u ∉ users n -> admits q nb n (RTribbles NoSuchUser []) n).
  { intros n Hu. destruct Hq as [-> | ->]; cbn; by rewrite bool_decide_false. }
  assert (Hlook : forall body, (forall n, u ∈ users n -> safe off q nb n None false body) ->
    safe off q nb nb None false (forUser u (Done (RTribbles NoSuchUser [])) body)).
  { intros body Hbody. apply safe_user; intros n x Hg _ Hu; [exists None|exists (Some n)].
    - split; [apply takes_here|by apply Hbody].
    - split; [by apply takes_idle|apply safe_done; by apply Hnone]. }
  destruct Hq as [-> | ->]; apply Hlook; intros n Hu.
  - apply (oneuser_safe _ _ u None false Some); [intros n'; by apply takes_idle|]. intros n1 n2 l Hg1 _ Hl.
    apply safe_done. cbn. rewrite bool_decide_true by by apply Hg1. eexists. split; [done|]. by apply newest_timeline.
  - split; [apply subscribeKey_kind|]. intros n1 V E Hg1 [Hs _ _]. exists n1, (Some n1).
    split; [by apply takes_idle|]. split; [done|]. rewrite (sh_subs _ _ _ Hs). cbn [listed].
    apply collect_safe. intros n2 l seen Hg2 Hseen Hl. apply safe_done. cbn. rewrite bool_decide_true by by apply Hg1.
    destruct (Permutation_Forall2 (order_perm _) Hseen) as (seen' & Hperm & Hseen').
    eexists _, seen'. split; [done|]. split; [|exact Hseen']. apply newest_timeline; [done..|]. by rewrite Hl, Hperm.
Qed.

Lemma program_safe q nb : Z.abs off < 1440 -> timely q -> safe off q nb nb None false (program sort order off q).
Proof.
  intros Hoff Hq. destruct q as [u|u v|u v|u|u c time id|u|u].
  - apply create_safe.
  - apply subscribe_safe.
  - apply unsubscribe_safe.
  - apply safe_user; intros n x Hg _ Hu; [exists None|exists (Some n)]; (split; [by left + by apply takes_idle|]).
    + split; [apply subscribeKey_kind|]. intros n1 V E Hg1 [Hs _ _]. exists n1, (Some n1). split; [by apply takes_idle|].
      split; [done|]. apply safe_done. cbn. rewrite bool_decide_true by by apply Hg1. by rewrite (sh_subs _ _ _ Hs).
    + apply safe_done. cbn. by rewrite bool_decide_false.
  - by apply post_safe.
  - by eapply timelines_safe; left.
  - by eapply timelines_safe; right.
Qed.
End timelines.

(** A turn of a safe program over a libstore that is up. *)
Lemma exec_safe {W} `{LibstoreLaws W} off q nb n lin own p (w : W) :
  unfinished p -> safe off q nb n lin own p -> up w -> sees off q n lin own (vals w) (elems w) ->
  exists w' p' n' lin' own', exec1 p w = (w', p') /\ up w' /\ takes q n lin n' lin' /\
    shows (vals w') (elems w') n' /\ (own' = true -> draft off q (vals w')) /\ safe off q nb n' lin' own' p' /\
    forall k, ~ mine q k -> vals w' k = vals w k.
Proof.
  intros Hp Hsafe Hu Hsees. pose proof (grows_refl n) as Hg. pose proof (se_draft _ _ _ _ _ _ _ Hsees) as Hd.
  assert (Hdraft : forall V, (forall k, V k = vals w k) -> own = true -> draft off q V).
  { intros V HV Ho. specialize (Hd Ho). destruct q; cbn in *; by rewrite ?HV. }
  destruct p as [r|k c|k v c|k c|k v c|k v c]; [done|..]; cbn [safe exec1] in *.
  - destruct Hsafe as [Hk Hs]. destruct (Get_law w k Hu Hk) as (w' & -> & Hu' & Hv & He).
    destruct (Hs n (vals w) (elems w) Hg Hsees) as (n' & lin' & ? & Hsh & ?). exists w', (c (got (vals w k))), n', lin', own.
    split_and!; try done; [by apply (shows_view (vals w) (elems w))|by apply Hdraft].
  - destruct Hsafe as (Hk & Hm & Hs). destruct (Put_law w k v Hu Hk) as (w' & -> & Hu' & Hv & He).
    destruct (Hs n (vals w) (elems w) (vals w') Hg Hsees Hv) as (n' & lin' & own' & ? & Hsh & ? & ?).
    exists w', (c None), n', lin', own'. split_and!; try done; [by apply (shows_view (vals w') (elems w))|].
    intros k' Hk'. rewrite Hv, decide_False; [done|]. by intros ->.
  - destruct Hsafe as [Hk Hs]. destruct (GetList_law w k Hu Hk) as (w' & -> & Hu' & Hv & He).
    destruct (Hs n (vals w) (elems w) Hg Hsees) as (n' & lin' & ? & Hsh & ?). exists w', (c (inl (elems w k))), n', lin', own.
    split_and!; try done; [by apply (shows_view (vals w) (elems w))|by apply Hdraft].
  - destruct Hsafe as [Hk Hs]. destruct (Append_law w k v Hu Hk) as (w' & -> & Hu' & Hv & He).
    destruct (Hs n (vals w) (elems w) (elems w') Hg Hsees He) as (n' & lin' & ? & Hsh & ?). eexists w', _, n', lin', own.
    split_and!; try done; [by apply (shows_view (vals w) (elems w'))|by apply Hdraft].
  - destruct Hsafe as [Hk Hs]. destruct (Remove_law w k v Hu Hk) as (w' & -> & Hu' & Hv & He).
    destruct (Hs n (vals w) (elems w) (elems w') Hg Hsees He) as (n' & lin' & ? & Hsh & ?). eexists w', _, n', lin', own.
    split_and!; try done; [by apply (shows_view (vals w) (elems w'))|by apply Hdraft].
Qed.

(** ** The system *)

(** A request: the server it is at, and what is left of its program. *)
Record conc := mkConc {
  world : StorageCluster.cluster;
  threads : list (string * request * prog);
  history : list happening }.

Inductive action :=
  | Call (me : string) (q : request)
  | Turn (i : nat).

Section conc.
Context (zone : string -> Z) (sort : list Tribble -> list Tribble).
(** The order of the fetches of each request. *)
Context (order : nat -> list string -> list string).

(** A request begins, or makes its next operation and returns after its last.
    No two posts of a user have the same id. *)
Definition step (x : action) (c : conc) : option conc :=
  match x with
  | Call me q =>
      let i := length (threads c) in
      if decide (Forall (fun t => post_of q = None \/ post_of t.1.2 <> post_of q) (threads c))
      then Some (mkConc (world c) (threads c ++ [(me, q, program sort (order i) (zone me) q)]) (history c ++ [Invoked i q]))
      else None
  | Turn i =>
      '(me, q, p) ← threads c !! i;
      match p with
      | Done _ => None
      | _ =>
          let '(w, p') := exec1 (H := StorageCluster.cluster_ops me) p (world c) in
          Some (mkConc w (<[i := (me, q, p')]> (threads c))
                 (match p' with Done r => history c ++ [Returned i r] | _ => history c end))
      end
  end.

Fixpoint steps (xs : list action) (c : conc) : option conc :=
  match xs with
  | [] => Some c
  | x :: xs' => c' ← step x c; steps xs' c'
  end.
End conc.

(** *** The invariant *)

(** The history and its explanation go on. *)
Lemma at_app n0 log l x : (x <= length log)%nat -> at_ n0 (log ++ l) x = at_ n0 log x.
Proof. intros Hx. unfold at_. by rewrite take_app_le. Qed.

Lemma at_end n0 log : at_ n0 log (length log) = all_after log.*2 n0.
Proof. unfold at_. by rewrite firstn_all. Qed.

Lemma at_snoc n0 log i q : at_ n0 (log ++ [(i, q)]) (S (length log)) = after q (at_ n0 log (length log)).
Proof.
  rewrite at_end. unfold at_. rewrite firstn_all2 by (rewrite length_app; cbn; lia).
  rewrite fmap_app. exact (all_after_snoc _ q _).
Qed.

Lemma explains_effect n0 h log marks i q :
  explains n0 h log marks -> i ∉ log.*1 -> Invoked i q ∈ h -> explains n0 h (log ++ [(i, q)]) marks.
Proof.
  intros [Ho Hm Hs Hb Ha Hf Hr] Hi Hin. split; try done.
  - rewrite fmap_app. apply NoDup_app. split; [done|]. split; [|apply NoDup_singleton].
    by intros x Hx ->%list_elem_of_singleton.
  - intros a x Hx%Hb. rewrite length_app. lia.
  - intros j q' [|[= -> ->]%list_elem_of_singleton]%elem_of_app; auto.
  - intros a j q' x k q2 Hq' Hx [[_ Hk]|[-> _]]%lookup_snoc_Some; [by eapply Hf|by eapply Hb].
  - intros b j r Hb'. destruct (Hr b j r Hb') as (q' & a & x & y & k & ? & ? & Hy & Hk & ? & Had).
    pose proof (Hb b y Hy). exists q', a, x, y, k. rewrite !at_app by lia. split_and!; try done; try lia.
    by apply lookup_app_l_Some.
Qed.

(** One more event, now. *)
Lemma explains_event n0 h log marks e :
  explains n0 h log marks ->
  (forall i q, e = Invoked i q -> i ∉ log.*1) ->
  (forall i r, e = Returned i r -> exists q a x k, h !! a = Some (Invoked i q) /\ marks !! a = Some x /\
     log !! k = Some (i, q) /\ admits q (at_ n0 log x) (at_ n0 log k) r (at_ n0 log (length log))) ->
  explains n0 (h ++ [e]) log (marks ++ [length log]).
Proof.
  intros [Ho Hm Hs Hb Ha Hf Hr] Hinv Hret. split; try done.
  - rewrite !length_app. cbn. lia.
  - intros a b x y [[Ha' Hx]|[-> <-]]%lookup_snoc_Some [[Hb' Hy]|[-> <-]]%lookup_snoc_Some Hab; [by eapply Hs|by eapply Hb|lia|lia].
  - intros a x [[_ Hx]|[_ <-]]%lookup_snoc_Some; [by eapply Hb|lia].
  - intros i q Hin. apply elem_of_app. left. by apply Ha.
  - intros a i q x k q' [[Hlt Hq]|[-> ->]]%lookup_snoc_Some Hx Hk.
    + rewrite lookup_app_l in Hx by lia. by eapply Hf.
    + destruct (Hinv i q eq_refl). apply list_elem_of_fmap. exists (i, q'). split; [done|by eapply list_elem_of_lookup_2].
  - intros b i r [[Hlt Hb']|[-> ->]]%lookup_snoc_Some.
    + destruct (Hr b i r Hb') as (q & a & x & y & k & ? & ? & ? & ? & ? & ?). exists q, a, x, y, k.
      split_and!; try done; try lia; by apply lookup_app_l_Some.
    + destruct (Hret i r eq_refl) as (q & a & x & k & Hq & Hx & Hk & Had). exists q, a, x, (length log), k.
      pose proof (Hf a i q x k q Hq Hx Hk). apply lookup_lt_Some in Hk as Hk'.
      split_and!; try done; try lia; try (by apply lookup_app_l_Some). by rewrite <- Hm, list_lookup_middle.
Qed.

(** Where a request under way is. *)
Record tracked (n0 : network) (off : Z) (i : nat) (q : request) (p : prog) (h : list happening)
    (log : list (nat * request)) (marks : list nat) (V : string -> option string)
    (lin : option network) (own : bool) (a x : nat) : Prop := {
  tr_invoked : h !! a = Some (Invoked i q);
  tr_mark : marks !! a = Some x;
  tr_safe : safe off q (at_ n0 log x) (at_ n0 log (length log)) lin own p;
  tr_draft : own = true -> draft off q V;
  tr_fresh : lin = None -> fresh q (at_ n0 log (length log));
  tr_lin : match lin with
           | None => i ∉ log.*1
           | Some m => exists k, log !! k = Some (i, q) /\ at_ n0 log k = m
           end }.

(** Other requests do not get in its way. *)
Lemma tracked_later n0 off i q p h log marks V lin own a x l e es V' :
  explains n0 h log marks -> unfinished p ->
  grows (at_ n0 log (length log)) (at_ n0 (log ++ l) (length (log ++ l))) ->
  (fresh q (at_ n0 log (length log)) -> fresh q (at_ n0 (log ++ l) (length (log ++ l)))) ->
  i ∉ l.*1 -> (draft off q V -> draft off q V') ->
  tracked n0 off i q p h log marks V lin own a x -> tracked n0 off i q p (h ++ e) (log ++ l) (marks ++ es) V' lin own a x.
Proof.
  intros Hex Hp Hg Hf Hl HV [Hi Hm Hs Hd Hfr Hlin]. pose proof (ex_bound _ _ _ _ Hex a x Hm).
  split; auto; try (by apply lookup_app_l_Some).
  - rewrite (at_app n0 log l x) by done. by eapply safe_grows.
  - destruct lin as [m|].
    + destruct Hlin as (k & Hk & <-). exists k. split; [by apply lookup_app_l_Some|]. apply at_app.
      apply lookup_lt_Some in Hk. lia.
    + by rewrite fmap_app, elem_of_app; intros [].
Qed.

Section good.
Context (zone : string -> Z) (sort : list Tribble -> list Tribble) (order : nat -> list string -> list string).
Context (zone_small : forall me, Z.abs (zone me) < 1440).
Context (sort_perm : forall l, Permutation (sort l) l).
Context (sort_sorted : forall l, StronglySorted (fun t t' => Posted t' <= Posted t) (sort l)).
Context (order_perm : forall i l, Permutation (order i l) l).
Context (ring : list StorageRpc.Node) (node0 : StorageRpc.Node) (hosts : gset string).
Context (Hring : head ring = Some node0) (n0 : network).

Definition valueOf (w : StorageCluster.cluster) (k : string) : option string :=
  StorageCluster.value_at k (StorageCluster.homeServer ring node0 w k).

Record good (c : conc) (log : list (nat * request)) (marks : list nat) : Prop := {
  gd_ready : StorageCluster.ready ring node0 hosts (world c);
  gd_calm : StorageCluster.calm (world c);
  gd_holds : holds ring node0 (world c) (at_ n0 log (length log));
  gd_explains : explains n0 (history c) log marks;
  gd_hosts : forall i me q p, threads c !! i = Some (me, q, p) -> me ∈ hosts;
  gd_past : forall i q, (i, q) ∈ log -> exists me p, threads c !! i = Some (me, q, p);
  gd_apart : forall i j me q p me' q' p' x, i <> j -> threads c !! i = Some (me, q, p) ->
    threads c !! j = Some (me', q', p') -> post_of q = Some x -> post_of q' <> Some x;
  gd_threads : forall i me q p, threads c !! i = Some (me, q, p) -> unfinished p ->
    exists lin own a x, tracked n0 (zone me) i q p (history c) log marks (valueOf (world c)) lin own a x }.

(** An event that explains itself. *)
Lemma good_event c log marks e : good c log marks ->
  explains n0 (history c ++ [e]) log (marks ++ [length log]) ->
  good (mkConc (world c) (threads c) (history c ++ [e])) log (marks ++ [length log]).
Proof.
  intros [] Hex. split; cbn; try done. intros i me q p Hi Hp.
  destruct (gd_threads0 i me q p Hi Hp) as (lin & own & a & x & Ht). exists lin, own, a, x.
  pose proof (tracked_later n0 (zone me) i q p (history c) log marks (valueOf (world c)) lin own a x [] [e]
    [length log] (valueOf (world c))) as Hlater.
  rewrite app_nil_r in Hlater. apply Hlater; try done; set_solver.
Qed.

Lemma begun_good c log marks me q c' :
  me ∈ hosts -> timely q -> fresh q n0 -> good c log marks -> step zone sort order (Call me q) c = Some c' ->
  exists marks', good c' log marks'.
Proof.
  intros Hme Hq Hf G. cbn [step]. destruct (decide _) as [Hno|]; [|done]. intros [= <-].
  rewrite Forall_lookup in Hno. set (i := length (threads c)).
  assert (Hnew : forall q', (i, q') ∉ log).
  { intros q' (me' & p & Hi)%(gd_past _ _ _ G). by apply lookup_lt_Some, Nat.lt_irrefl in Hi. }
  assert (Hlog : i ∉ log.*1) by (by intros ([? q'] & -> & ?%Hnew)%list_elem_of_fmap).
  set (e := Invoked i q). exists (marks ++ [length log]).
  assert (Ge : good (mkConc (world c) (threads c) (history c ++ [e])) log (marks ++ [length log])).
  { apply good_event; [done|]. apply explains_event; [apply G| |done]. by intros j q' [= -> ->]. }
  pose proof (ex_marks _ _ _ _ (gd_explains _ _ _ G)) as Hlen.
  destruct Ge as [? ? ? Hex ? ? ? ?]. split; cbn in *; try done.
  - intros j me' q' p' [[_ Hj]|[-> [= <- <- <-]]]%lookup_snoc_Some; [by eapply (gd_hosts _ _ _ G)|done].
  - intros j q' (me' & p' & Hj)%(gd_past _ _ _ G). exists me', p'. by apply lookup_app_l_Some.
  - intros j k m1 q1 p1 m2 q2 p2 y Hne [[Hj1 Hj]|[-> [= <- <- <-]]]%lookup_snoc_Some
      [[Hk1 Hk]|[-> [= <- <- <-]]]%lookup_snoc_Some H1; [by eapply (gd_apart _ _ _ G j k)|..|done].
    + intros H2. destruct (Hno j _ Hj) as [|Hd]; [congruence|]. apply Hd. cbn. congruence.
    + intros H2. destruct (Hno k _ Hk) as [|Hd]; [congruence|]. apply Hd. cbn. congruence.
  - intros j me' q' p' [[_ Hj]|[-> [= <- <- <-]]]%lookup_snoc_Some Hp; [by eauto|].
    exists None, false, (length (history c)), (length log). split; try done.
    + by apply list_lookup_middle.
    + by rewrite <- Hlen, list_lookup_middle.
    + by apply program_safe.
    + intros _ u id Hpost. rewrite at_end. intros [Hin|(q' & ([j q2] & -> & Hj)%list_elem_of_fmap & Hq')]%all_after_ids.
      * by eapply Hf.
      * apply (gd_past _ _ _ G) in Hj as (me' & p' & Hj). cbn in Hq'. destruct (Hno j _ Hj) as [|Hd]; cbn in *; congruence.
Qed.

(** The log after a turn has at most the request more. *)
Lemma turn_log h log marks i q lin lin' n' a x :
  explains n0 h log marks -> h !! a = Some (Invoked i q) -> marks !! a = Some x ->
  (lin = None -> fresh q (at_ n0 log (length log))) ->
  match lin with None => i ∉ log.*1 | Some m => exists k, log !! k = Some (i, q) /\ at_ n0 log k = m end ->
  takes q (at_ n0 log (length log)) lin n' lin' ->
  exists l, (forall j, j ∈ l.*1 -> j = i) /\ l ⊆ [(i, q)] /\ n' = at_ n0 (log ++ l) (length (log ++ l)) /\
    explains n0 h (log ++ l) marks /\ grows (at_ n0 log (length log)) n' /\
    (forall q', fresh q' (at_ n0 log (length log)) -> (forall y, post_of q' = Some y -> post_of q <> Some y) -> fresh q' n') /\
    (lin' = None -> fresh q n') /\
    match lin' with None => i ∉ (log ++ l).*1 | Some m => exists k, (log ++ l) !! k = Some (i, q) /\ at_ n0 (log ++ l) k = m end.
Proof.
  intros Hex Ha Hx Hf Hlin [[-> ->]|(-> & -> & ->)].
  - exists []. rewrite app_nil_r. split_and!; try done; set_solver.
  - exists [(i, q)]. rewrite length_app, Nat.add_1_r, at_snoc. split_and!; try done; [set_solver|..].
    + apply explains_effect; [done..|by eapply list_elem_of_lookup_2].
    + apply after_grows. by apply Hf.
    + intros q' Hq' Hap. by apply after_fresh.
    + exists (length log). split; [by apply list_lookup_middle|]. by apply at_app.
Qed.

(** A turn: the operation, for the others and for the request itself. *)
Lemma good_turn c log marks i me q p w p' :
  good c log marks -> threads c !! i = Some (me, q, p) -> unfinished p ->
  exec1 (H := StorageCluster.cluster_ops me) p (world c) = (w, p') ->
  exists log' lin own a x, good (mkConc w (<[i := (me, q, p')]> (threads c)) (history c)) log' marks /\
    tracked n0 (zone me) i q p' (history c) log' marks (valueOf w) lin own a x.
Proof.
  intros G Hi Hp Ex. pose proof (gd_hosts _ _ _ G i me q p Hi) as Hme.
  destruct (gd_threads _ _ _ G i me q p Hi Hp) as (lin & own & a & x & [Hti Htm Hts Htd Htf Htl]).
  destruct (exec_safe (H := StorageCluster.cluster_ops me) (H0 := StorageCluster.cluster_laws ring node0 Hring hosts me Hme)
    (zone me) q _ _ lin own p (world c) Hp Hts) as (w' & p2 & n' & lin' & own' & E & Hu & Ht & Hsh & Hd & Hs & Hframe).
  { apply StorageCluster.calm_up; apply G. }
  { split; [apply G|done..]. }
  rewrite Ex in E. injection E as <- <-. apply StorageCluster.calm_of_up in Hu as [Hr Hc].
  destruct (turn_log (history c) log marks i q lin lin' n' a x) as (l & Hl & Hlq & -> & Hex & Hg & Hf & Hf' & Hlin');
    [apply G|done..|].
  assert (Htr : tracked n0 (zone me) i q p' (history c) (log ++ l) marks (valueOf w) lin' own' a x).
  { split; try done. rewrite at_app; [done|]. by eapply (ex_bound _ _ _ _ (gd_explains _ _ _ G)). }
  exists (log ++ l), lin', own', a, x. split; [|exact Htr].
  assert (Hth : forall j me2 q2 p2, <[i := (me, q, p')]> (threads c) !! j = Some (me2, q2, p2) ->
    j = i /\ me2 = me /\ q2 = q /\ p2 = p' \/ j <> i /\ threads c !! j = Some (me2, q2, p2)).
  { intros j me2 q2 p2 [(<- & [= <- <- <-] & _)|[? ?]]%list_lookup_insert_Some; auto. }
  split; cbn; try done.
  - intros j me2 q2 p2 [(-> & -> & _)|[_ Hj]]%Hth; [done|by eapply (gd_hosts _ _ _ G)].
  - intros j q2 [Hj|Hj%Hlq%list_elem_of_singleton]%elem_of_app.
    + apply (gd_past _ _ _ G) in Hj as (me2 & p2 & Hj). destruct (decide (j = i)) as [->|Hne].
      * rewrite Hi in Hj. injection Hj as <- <- <-. exists me, p'. apply list_lookup_insert_eq. by eapply lookup_lt_Some.
      * exists me2, p2. by rewrite list_lookup_insert_ne.
    + injection Hj as -> ->. exists me, p'. apply list_lookup_insert_eq. by eapply lookup_lt_Some.
  - intros j k m1 q1 p1 m2 q2 p2 y Hne [(-> & -> & -> & _)|[_ Hj]]%Hth [(-> & -> & -> & _)|[_ Hk]]%Hth;
      [done|by eapply (gd_apart _ _ _ G)..].
  - intros j me2 q2 p2 [(-> & -> & -> & ->)|[Hne Hj]]%Hth Hp2; [by eauto|].
    destruct (gd_threads _ _ _ G j me2 q2 p2 Hj Hp2) as (lin2 & own2 & a2 & x2 & Ht2). exists lin2, own2, a2, x2.
    pose proof (tracked_later n0 (zone me2) j q2 p2 (history c) log marks (valueOf (world c)) lin2 own2 a2 x2 l [] []
      (valueOf w)) as Hlater. rewrite !app_nil_r in Hlater.
    assert (Hap : forall y, post_of q2 = Some y -> post_of q <> Some y) by (intros y; by eapply (gd_apart _ _ _ G)).
    apply Hlater; try done; [apply G|by auto|by intros ?%Hl|]. unfold draft. destruct q2; try done.
    intros <-. apply Hframe. intros [(u' & E)|(u' & id' & Hq' & [-> ->]%tribbleKey_inj)].
    + symmetry in E. by apply userKey_tribbleKey in E.
    + by apply Hap in Hq'.
Qed.

Lemma action_good x c log marks c' :
  match x with Call me q => me ∈ hosts /\ timely q /\ fresh q n0 | Turn _ => True end ->
  good c log marks -> step zone sort order x c = Some c' -> exists log' marks', good c' log' marks'.
Proof.
  destruct x as [me q|i].
  { intros (Hme & Hq & Hf) G E. exists log. by eapply begun_good. }
  intros _ G E. cbn [step] in E. destruct (threads c !! i) as [[[me q] p]|] eqn:Hi; [|discriminate E].
  cbn [mbind option_bind] in E.
  destruct (exec1 (H := StorageCluster.cluster_ops me) p (world c)) as [w p'] eqn:Ex.
  destruct (good_turn c log marks i me q p w p') as (log' & lin & own & a & y & G' & Ht); [done|done|by destruct p|done|].
  assert (E' : mkConc w (<[i := (me, q, p')]> (threads c))
    (match p' with Done r => history c ++ [Returned i r] | _ => history c end) = c').
  { destruct p; first [discriminate E|by injection E]. }
  subst c'. clear E. destruct p' as [r|? ?|? ? ?|? ?|? ? ?|? ? ?]; try (by exists log', marks).
  exists log', (marks ++ [length log']). apply (good_event _ _ _ _ G').
  destruct Ht as [Hti Htm (m & -> & Had) _ _ (k & Hk & <-)].
  apply explains_event; [apply G'|done|]. intros j r' [= <- <-]. by exists q, a, y, k.
Qed.

Lemma actions_good xs : forall c log marks c',
  Forall (fun x => match x with Call me q => me ∈ hosts /\ timely q /\ fresh q n0 | Turn _ => True end) xs ->
  good c log marks -> steps zone sort order xs c = Some c' -> exists log' marks', good c' log' marks'.
Proof.
  induction xs as [|x xs IH]; intros c log marks c' Hxs G E; cbn [steps] in E; [injection E as <-; by eauto|].
  apply Forall_cons in Hxs as [Hx Hxs]. apply bind_Some in E as (c1 & E1 & E).
  destruct (action_good x c log marks c1 Hx G E1) as (log' & marks' & G'). by eapply IH.
Qed.

Lemma empty_good w : StorageCluster.ready ring node0 hosts w -> StorageCluster.calm w -> holds ring node0 w n0 ->
  good (mkConc w [] []) [] [].
Proof.
  intros. split; cbn; try done; [|set_solver].
  split; try done; [constructor|intros; set_solver].
Qed.
End good.

(** *** Nothing is in the way of a request *)

Section finishes.
Context (zone : string -> Z) (sort : list Tribble -> list Tribble) (order : nat -> list string -> list string).
Context (i : nat) (me : string) (q : request).

Definition returns (c : conc) : Prop :=
  exists k c' r, steps zone sort order (repeat (Turn i) k) c = Some c' /\ Returned i r ∈ history c'.

Lemma finishes_turn p w p' c :
  threads c !! i = Some (me, q, p) -> unfinished p ->
  exec1 (H := StorageCluster.cluster_ops me) p (world c) = (w, p') ->
  (forall c1, threads c1 !! i = Some (me, q, p') -> unfinished p' -> returns c1) -> returns c.
Proof.
  intros Hi Hp E IH. set (c1 := mkConc w (<[i := (me, q, p')]> (threads c))
    (match p' with Done r => history c ++ [Returned i r] | _ => history c end)).
  assert (Hs : step zone sort order (Turn i) c = Some c1).
  { cbn [step]. rewrite Hi. cbn [mbind option_bind]. rewrite E. by destruct p. }
  assert (Hc : returns c1).
  { assert (Hi1 : threads c1 !! i = Some (me, q, p')) by (apply list_lookup_insert_eq; by eapply lookup_lt_Some).
    specialize (IH c1 Hi1). destruct p' as [r|? ?|? ? ?|? ?|? ? ?|? ? ?]; try by apply IH.
    exists 0%nat, c1, r. split; [done|]. apply elem_of_app. right. by left. }
  destruct Hc as (k & c' & r & Hk & Hr). exists (S k), c', r. split; [|done]. cbn [repeat steps]. by rewrite Hs.
Qed.

Lemma finishes p : forall c, threads c !! i = Some (me, q, p) -> unfinished p -> returns c.
Proof.
  induction p as [r|k c0 IH|k v c0 IH|k c0 IH|k v c0 IH|k v c0 IH]; intros c Hi Hp; [done|..].
  all: eapply finishes_turn; [exact Hi|done|cbn [exec1]|].
  all: try (match goal with |- context [let '(_, _) := ?x in _] => rewrite (surjective_pairing x) end; reflexivity).
  all: cbn beta; by apply IH.
Qed.
End finishes.

(** ** Properties *)

(** Two requests for the same new user, a turn each at a time. *)
Definition demo_twice : list action :=
  [Call "c:3" (RCreateUser "ann"); Call "c:3" (RCreateUser "ann"); Turn 0; Turn 1; Turn 0; Turn 1].

(** C8: requests to tribbler that overlap.  Any number of requests, at any of
    the servers, over a storage system that is up, while no call fails, whose
    libstore operations interleave in any way, and of whose posts no two share
    user and nanosecond.  The requests take effect one at a time, each between
    its call and its return and at most once, in an order that explains all
    replies: those that [TribNetwork] gives at that place of the order.  Two
    kinds are looser: a [CreateUser] that answers OK was called when the user
    did not exist, but another may have made it since, and may have answered OK
    too, as an execution shows; and a timeline of all that one subscribes to has
    the newest 100 of what each of them had posted at some moment between the
    effect and the return.  The storage holds the network the order leads to, no
    tribble is listed that cannot be fetched, and a request under way can always
    return. *)
Theorem overlapping_requests :
  (forall zone sort order ring node0 hosts n0 w xs c,
     (forall me, Z.abs (zone me) < 1440) ->
     (forall l, Permutation (sort l) l) ->
     (forall l, StronglySorted (fun t t' => Posted t' <= Posted t) (sort l)) ->
     (forall i l, Permutation (order i l) l) ->
     head ring = Some node0 ->
     Forall (fun x => match x with Call me q => me ∈ hosts /\ timely q /\ fresh q n0 | Turn _ => True end) xs ->
     StorageCluster.ready ring node0 hosts w -> StorageCluster.calm w -> holds ring node0 w n0 ->
     steps zone sort order xs (mkConc w [] []) = Some c ->
     StorageCluster.ready ring node0 hosts (world c) /\
     (exists log marks, explains n0 (history c) log marks /\
        holds ring node0 (world c) (all_after log.*2 n0)) /\
     forall i me q p, threads c !! i = Some (me, q, p) -> unfinished p -> returns zone sort order i c) /\
  (history <$> steps (fun _ => 0) (merge_sort later) (fun _ l => l) demo_twice (mkConc demo_world [] [])) =
    Some [Invoked 0 (RCreateUser "ann"); Invoked 1 (RCreateUser "ann"); Returned 0 (RStatus OK); Returned 1 (RStatus OK)].
Proof.
  split; [|vm_compute; reflexivity].
  intros zone sort order ring node0 hosts n0 w xs c Hz Hsp Hss Ho Hring Hxs Hr Hc Hw E.
  destruct (actions_good zone sort order Hz Hsp Hss Ho ring node0 hosts Hring n0 xs _ [] [] c Hxs
    (empty_good zone sort order Hz Hsp Hss Ho ring node0 hosts Hring n0 w Hr Hc Hw) E) as (log & marks & G).
  split; [apply G|]. split; [|intros i me q p Hi Hp; by eapply finishes].
  exists log, marks. split; [apply G|]. pose proof (gd_holds _ _ _ _ _ _ _ _ G) as Hh. by rewrite at_end in Hh.
Qed.

(** A post while others read. *)
Definition demo_reading : list action :=
  [Call "c:3" (RCreateUser "bob"); Turn 0; Turn 0; Call "c:3" (RPostTribble "bob" "hi" 5 6);
   Call "c:3" (RGetTribbles "bob"); Turn 1; Turn 2; Turn 1; Turn 1; Turn 2; Turn 2].

Lemma overlapping_requests_witness :
  exists c log marks,
    steps (fun _ => 0) (merge_sort later) (fun _ l => l) demo_reading (mkConc demo_world [] []) = Some c /\
    history c !! 5%nat = Some (Returned 2 (RTribbles OK [mkTribble "bob" 5 "hi"])) /\
    explains (mkNetwork ∅ ∅ ∅) (history c) log marks.
Proof.
  assert (Hh : (fun c => history c !! 5%nat) <$>
    steps (fun _ => 0) (merge_sort later) (fun _ l => l) demo_reading (mkConc demo_world [] []) =
    Some (Some (Returned 2 (RTribbles OK [mkTribble "bob" 5 "hi"])))) by (vm_compute; reflexivity).
  destruct (steps _ _ _ demo_reading _) as [c|] eqn:E; [|discriminate Hh]. injection Hh as Hh.
  destruct (proj1 overlapping_requests (fun _ => 0) (merge_sort later) (fun _ l => l) demo_ring (StorageRpc.mkNode "b:2" 3)
    demo_hosts (mkNetwork ∅ ∅ ∅) demo_world demo_reading c) as (_ & (log & marks & Hl & _) & _).
  - intros me. reflexivity.
  - apply merge_sort_Permutation.
  - apply (StronglySorted_merge_sort later).
  - done.
  - reflexivity.
  - assert (Hf : forall q, fresh q (mkNetwork ∅ ∅ ∅)) by (intros q u id _ Hin; by apply elem_of_nil in Hin).
    assert (Hme : "c:3" ∈ demo_hosts) by set_solver.
    repeat (apply Forall_cons; split; [first [exact I|split; [exact Hme|split; [first [exact I|split; [discriminate|reflexivity]]|apply Hf]]]|]). apply Forall_nil. exact I.
  - apply demo_system_ready.
  - intros k _. reflexivity.
  - apply demo_system_empty.
  - exact E.
  - exists c, log, marks. split; [reflexivity|]. split; [exact Hh|exact Hl].
Defined.

End TribConcurrent.
