(* ===== verification/TribClients.v ===== *)
(** * TribClients: the tribbler's client, and the command lines of tribbler

    - [Module TribClient] ([p2/.../tribclient/tribclient_impl.go]): the methods,
      against the server as its clients see it ([RemoteTribServer] of
      [rpc/tribrpc/rpc.go]), with the handlers of [TribServer] as an instance
      ([Wrap]).
    - [Module TribRunner] ([runners/crunner/crunner.go]): [main] as a function
      of the command line, with what it prints.
    - [Module TribSystem]: what a user sees on the terminal, in terms of the
      network of [TribNetwork].
    - [Module LibRunner] ([runners/lrunner/lrunner.go]): [main] of the program
      that runs one operation of a libstore several times. *)
From Stdlib Require Import Strings.Byte.
From S2P Require Import Prelude GoJson GoFlag GoTime StorageRpc StorageServer Libstore Lease TribServer TribJson.
From S2P Require Import StorageCluster TribNetwork.
Open Scope Z_scope.

(** The server behind [net/rpc]: a call changes the world and gives the reply
    or an error. *)
Module TribRpcApi.
Import TribRpc TribServer.

Class RemoteTribServer (W : Type) := {
  call_CreateUser : CreateUserArgs -> W -> W * (CreateUserReply + string);
  call_AddSubscription : SubscriptionArgs -> W -> W * (SubscriptionReply + string);
  call_RemoveSubscription : SubscriptionArgs -> W -> W * (SubscriptionReply + string);
  call_GetSubscriptions : GetSubscriptionsArgs -> W -> W * (GetSubscriptionsReply + string);
  call_PostTribble : PostTribbleArgs -> W -> W * (PostTribbleReply + string);
  call_GetTribbles : GetTribblesArgs -> W -> W * (GetTribblesReply + string);
  call_GetTribblesBySubscription : GetTribblesArgs -> W -> W * (GetTribblesReply + string) }.

(** A handler that returns no error. *)
Definition noError {W A R : Type} (f : A -> W -> W * R) (args : A) (w : W) : W * (R + string) :=
  let '(w, r) := f args w in (w, inl r).

(** The server in zone [off], its clock at [time] and [id] when it posts. *)
Definition Wrap {W : Type} `{LibstoreOps W} (sort : list Tribble -> list Tribble)
    (order : list string -> list string) (off time id : Z) : RemoteTribServer W := {|
  call_CreateUser := noError CreateUser;
  call_AddSubscription := noError AddSubscription;
  call_RemoveSubscription := noError RemoveSubscription;
  call_GetSubscriptions := GetSubscriptions;
  call_PostTribble := PostTribble (TribCodec.Marshal off) time id;
  call_GetTribbles := noError (GetTribbles TribCodec.Unmarshal sort order);
  call_GetTribblesBySubscription := noError (GetTribblesBySubscription TribCodec.Unmarshal sort order) |}.
End TribRpcApi.

(** ** The client *)
Module TribClient.
Import TribRpc TribRpcApi.

(** The results of a call, the zero values with an error. *)
Definition status {R} (f : R -> Status) (r : R + string) : Status * option string :=
  match r with inl reply => (f reply, None) | inr err => (0, Some err) end.

Definition list_status {R A} (l : R -> list A) (f : R -> Status) (r : R + string)
    : list A * Status * option string :=
  match r with inl reply => (l reply, f reply, None) | inr err => ([], 0, Some err) end.

(** [err] is the outcome of the dial. *)
Definition NewTribClient (err : option string) : option string := err.

Section methods.
Context {W : Type} `{RemoteTribServer W}.

Definition CreateUser (userID : string) (w : W) : W * (Status * option string) :=
  let '(w, r) := call_CreateUser (mkCreateUserArgs userID) w in (w, status cu_Status r).

Definition GetSubscriptions (userID : string) (w : W) : W * (list string * Status * option string) :=
  let '(w, r) := call_GetSubscriptions (mkGetSubscriptionsArgs userID) w in
  (w, list_status gs_UserIDs gs_Status r).

Definition doSub (call : SubscriptionArgs -> W -> W * (SubscriptionReply + string)) (userID targetUserID : string)
    (w : W) : W * (Status * option string) :=
  let '(w, r) := call (mkSubscriptionArgs userID targetUserID) w in (w, status su_Status r).

Definition AddSubscription := doSub call_AddSubscription.
Definition RemoveSubscription := doSub call_RemoveSubscription.

Definition doTrib (call : GetTribblesArgs -> W -> W * (GetTribblesReply + string)) (userID : string) (w : W)
    : W * (list Tribble * Status * option string) :=
  let '(w, r) := call (mkGetTribblesArgs userID) w in (w, list_status gt_Tribbles gt_Status r).

Definition GetTribbles := doTrib call_GetTribbles.
Definition GetTribblesBySubscription := doTrib call_GetTribblesBySubscription.

Definition PostTribble (userID contents : string) (w : W) : W * (Status * option string) :=
  let '(w, r) := call_PostTribble (mkPostTribbleArgs userID contents) w in (w, status pt_Status r).
End methods.
End TribClient.

(** ** The command line *)
Module TribRunner.
Import Json TribRpc TribRpcApi TribClient.

Definition cmdlist : list cmdInfo :=
  [mkCmdInfo "uc" "TribServer.CreateUser" 1; mkCmdInfo "sl" "TribServer.GetSubscriptions" 1;
   mkCmdInfo "sa" "TribServer.AddSubscription" 2; mkCmdInfo "sr" "TribServer.RemoveSubscription" 2;
   mkCmdInfo "tl" "TribServer.GetTribbles" 1; mkCmdInfo "tp" "TribServer.AddTribble" 2;
   mkCmdInfo "ts" "TribServer.GetTribblesBySubscription" 1].

Definition tribStatusToString (status : Status) : string :=
  if status =? OK then "OK"
  else if status =? NoSuchUser then "NoSuchUser"
  else if status =? NoSuchTargetUser then "NoSuchTargetUser"
  else if status =? Exists then "Exists"
  else "".

Definition printStatus (cmdName : string) (status : Status) (err : option string) : string :=
  match err with
  | Some e => Println ["ERROR:"; cmdName; "got error:"; e]
  | None =>
      if negb (status =? OK)
      then Println [cmdName; "ERROR:"; cmdName; "replied with status"; tribStatusToString status]
      else Println [cmdName; "OK"]
  end.

(** The first [k] runes, and how many there are. *)
Fixpoint runes (fuel k : nat) (l : text) : text * nat :=
  match fuel, k, l with
  | S fuel', S k', _ :: _ =>
      let n := Nat.max 1 (rune_size l) in
      let '(t, m) := runes fuel' k' (drop n l) in (take n l ++ t, S m)
  | _, _, _ => ([], O)
  end.

(** [%16.16s]. *)
Definition pad16 (s : string) : string :=
  let '(t, m) := runes (length (bytes s)) 16 (bytes s) in str (repeat x20 (16 - m) ++ t).

(** How [main] ends: [os.Exit(1)] after the usage text, [log.Fatalln], or the
    lines it has printed. *)
Inductive ending := Usage | Fatal (err : string) | Printed (lines : list string).

Section main.
Context {W : Type} `{RemoteTribServer W} (timeString : Z -> string).

Definition printTribble (t : Tribble) : string :=
  pad16 (UserID t) +:+ " - " +:+ timeString (Posted t) +:+ " - " +:+ Contents t.

Definition printTribbles (tribbles : list Tribble) : list string := printTribble <$> tribbles.

(** The lines after a status without error. *)
Definition printed (funcname : string) (status : Status) (err : option string) (l : list string) : ending :=
  Printed (printStatus funcname status err ::
    match err with None => if status =? OK then l else [] | Some _ => [] end).

(** The switch over the command. *)
Definition run (cmd : string) (ci : cmdInfo) (args : list string) (w : W) : W * ending :=
  if String.eqb cmd "uc" then
    let '(w, (status, err)) := CreateUser (Arg 1 args) w in (w, printed (funcname ci) status err [])
  else if String.eqb cmd "sl" then
    let '(w, (subs, status, err)) := GetSubscriptions (Arg 1 args) w in
    (w, printed (funcname ci) status err [String.concat " " subs])
  else if String.eqb cmd "sa" then
    let '(w, (status, err)) := AddSubscription (Arg 1 args) (Arg 2 args) w in
    (w, printed (funcname ci) status err [])
  else if String.eqb cmd "sr" then
    let '(w, (status, err)) := RemoveSubscription (Arg 1 args) (Arg 2 args) w in
    (w, printed (funcname ci) status err [])
  else if String.eqb cmd "tl" then
    let '(w, (tribbles, status, err)) := GetTribbles (Arg 1 args) w in
    (w, printed (funcname ci) status err (printTribbles tribbles))
  else if String.eqb cmd "ts" then
    let '(w, (tribbles, status, err)) := GetTribblesBySubscription (Arg 1 args) w in
    (w, printed (funcname ci) status err (printTribbles tribbles))
  else if String.eqb cmd "tp" then
    let '(w, (status, err)) := PostTribble (Arg 1 args) (Arg 2 args) w in
    (w, printed (funcname ci) status err [])
  else (w, Printed []).

(** [main]; [dial] is the error of the dial, if any. *)
Definition main (dial : option string) (args : list string) (w : W) : W * ending :=
  if Nat.ltb (NArg args) 2 then (w, Usage)
  else
    let cmd := Arg 0 args in
    match NewTribClient dial with
    | Some err => (w, Fatal (Println ["Failed to create TribClient:"; err]))
    | None =>
        match commands cmdlist !! cmd with
        | None => (w, Usage)
        | Some ci => if Nat.ltb (NArg args) (nargs ci + 1) then (w, Usage) else run cmd ci args w
        end
    end.
End main.

Example pad16_short : pad16 "ann" = "             ann".
Proof. reflexivity. Qed.
Example pad16_long : pad16 "a-name-that-is-too-long" = "a-name-that-is-t".
Proof. reflexivity. Qed.
End TribRunner.

(** ** What a user sees *)
Module TribSystem.
Import TribRpc TribServer TribRpcApi TribClient TribRunner TribNetwork.

(** The request a command line asks for, if it is well formed; [time] and [id]
    are the server's clock. *)
Definition parse (time id : Z) (args : list string) : option request :=
  match args with
  | cmd :: u :: rest =>
      if String.eqb cmd "uc" then Some (RCreateUser u)
      else if String.eqb cmd "sl" then Some (RGetSubscriptions u)
      else if String.eqb cmd "sa" then RAddSubscription u <$> head rest
      else if String.eqb cmd "sr" then RRemoveSubscription u <$> head rest
      else if String.eqb cmd "tl" then Some (RGetTribbles u)
      else if String.eqb cmd "ts" then Some (RGetTribblesBySubscription u)
      else if String.eqb cmd "tp" then (fun c => RPostTribble u c time id) <$> head rest
      else None
  | _ => None
  end.

Lemma parse_timely time id args q :
  0 <= time < 2 ^ 63 -> parse time id args = Some q -> timely q.
Proof.
  intros Ht. unfold parse. destruct args as [|? [|? [|? ?]]]; cbn; intros; repeat case_match; simplify_eq; done.
Qed.

(** The name under which a request is reported. *)
Definition call_name (q : request) : string :=
  match q with
  | RCreateUser _ => "TribServer.CreateUser"
  | RAddSubscription _ _ => "TribServer.AddSubscription"
  | RRemoveSubscription _ _ => "TribServer.RemoveSubscription"
  | RGetSubscriptions _ => "TribServer.GetSubscriptions"
  | RPostTribble _ _ _ _ => "TribServer.AddTribble"
  | RGetTribbles _ => "TribServer.GetTribbles"
  | RGetTribblesBySubscription _ => "TribServer.GetTribblesBySubscription"
  end.

(** How a reply is reported. *)
Definition report (timeString : Z -> string) (name : string) (r : reply) : ending :=
  match r with
  | RStatus st => printed name st None []
  | RUsers st l => printed name st None [String.concat " " l]
  | RTribbles st l => printed name st None (printTribbles timeString l)
  | RError e => printed name 0 (Some e) []
  end.

Section session.
Context {W : Type} `{LibstoreOps W}.
Context (sort : list Tribble -> list Tribble) (order : list string -> list string) (timeString : Z -> string).

(** The program against a server, with the handlers behind [Wrap]. *)
Definition session (off time id : Z) (args : list string) (w : W) : W * ending :=
  main (H := Wrap sort order off time id) timeString None args w.

(** Both sides make one call and report its result. *)
Ltac calls_agree :=
  match goal with
  | |- _ = (let '(_, _) := (let '(_, _) := ?call in _) in _) => destruct call as [? [?|?]] || destruct call
  end; reflexivity.

(** A well-formed command line is one request, and its reply is reported. *)
Lemma session_request off time id args q w :
  parse time id args = Some q ->
  session off time id args w =
    let '(w', r) := handle sort order off q w in (w', report timeString (call_name q) r).
Proof.
  unfold parse, session, main. destruct args as [|cmd [|u rest]]; [done..|].
  change (Nat.ltb (NArg (cmd :: u :: rest)) 2) with false. cbn [Arg nth NewTribClient].
  by_command cmd; intros E; [..|done]; try (destruct rest as [|v rest]; [done|]); cbn in E; simplify_eq;
    look_up_command; cbn -[printed]; unfold noError;
    unfold CreateUser, GetSubscriptions, AddSubscription, RemoveSubscription, GetTribbles, GetTribblesBySubscription,
      PostTribble, doSub, doTrib; cbn -[printed]; unfold noError; calls_agree.
Qed.

(** Anything else gets the usage text and changes nothing. *)
Lemma session_usage off time id args w :
  parse time id args = None -> session off time id args w = (w, Usage).
Proof.
  unfold parse, session, main. destruct args as [|cmd [|u rest]]; [done..|].
  change (Nat.ltb (NArg (cmd :: u :: rest)) 2) with false. cbn [Arg nth NewTribClient].
  by_command cmd; intros E; try done;
    try (destruct rest as [|v rest]; [reflexivity|done]).
  rewrite commands_unknown; [done|]. cbn. set_solver.
Qed.
End session.

(** Over a storage system that is up, what a command prints is what the
    network answers. *)
Lemma session_over_network sort order timeString ring n0 hosts me off time id args w n :
  (forall l, Permutation (sort l) l) ->
  (forall l, StronglySorted (fun t t' => Posted t' <= Posted t) (sort l)) ->
  (forall l, Permutation (order l) l) ->
  head ring = Some n0 -> me ∈ hosts -> Z.abs off < 1440 -> 0 <= time < 2 ^ 63 ->
  StorageCluster.ready ring n0 hosts w -> StorageCluster.calm w -> holds ring n0 w n ->
  match parse time id args with
  | None => session (H := StorageCluster.cluster_ops me) sort order timeString off time id args w = (w, Usage)
  | Some q => exists w' r,
      session (H := StorageCluster.cluster_ops me) sort order timeString off time id args w
        = (w', report timeString (call_name q) r) /\
      StorageCluster.ready ring n0 hosts w' /\ StorageCluster.calm w' /\ holds ring n0 w' (after q n) /\ answers q n r
  end.
Proof.
  intros Hsp Hss Ho Hring Hme Hoff Htime Hr Hc Hn.
  destruct (parse time id args) as [q|] eqn:E; [|by apply session_usage].
  destruct (handle_refines (H := StorageCluster.cluster_ops me)
    (H0 := StorageCluster.cluster_laws ring n0 Hring hosts me Hme)
    sort order Hsp Hss Ho off q w n Hoff) as (w' & r & Eh & [Hu' Hn'] & Ha).
  - by eapply parse_timely.
  - split; [by apply StorageCluster.calm_up|done].
  - apply StorageCluster.calm_of_up in Hu' as [??]. exists w', r. split_and!; try done. erewrite session_request by done. by rewrite Eh.
Qed.
End TribSystem.

(** ** The libstore's command line *)
Module LibRunner.

(** The commands and their operands. *)
Definition cmdList : gmap string nat :=
  list_to_map [("p", 2%nat); ("g", 1%nat); ("la", 2%nat); ("lr", 2%nat); ("lg", 1%nat)].

(** [numTimes], [handleLeases], [forceLease]. *)
Record flags := mkFlags { numTimes : Z; handleLeases : bool; forceLease : bool }.

(** [net.JoinHostPort("localhost", listenPort)], or no address. *)
Definition leaseCallbackAddr (f : flags) (listenPort : string) : string :=
  if handleLeases f then "localhost:" +:+ listenPort else "".

Definition leaseMode (f : flags) (listenPort : string) : Libstore.LeaseMode :=
  if handleLeases f && forceLease f then Libstore.Always
  else if String.eqb (leaseCallbackAddr f listenPort) "" then Libstore.Never
  else Libstore.Normal.

(** [os.Exit(1)] after the usage text, [log.Fatalln], or the lines printed. *)
Inductive ending := Usage | Fatal (err : string) | Printed (lines : list string).

Definition failed (err : string) : string := Println ["ERROR:"; err].
Definition written_line (err : option string) : list string := [match err with None => "OK" | Some err => failed err end].

Section main.
Context {W : Type} `{LibstoreOps W}.

(** The switch in the loop. *)
Definition run (cmd : string) (args : list string) (w : W) : W * list string :=
  if String.eqb cmd "g" then
    let '(w, val) := ls_Get (Arg 1 args) w in
    (w, match val with inr err => [failed err] | inl v => [v] end)
  else if String.eqb cmd "lg" then
    let '(w, val) := ls_GetList (Arg 1 args) w in
    (w, match val with inr err => [failed err] | inl l => l end)
  else if String.eqb cmd "p" then
    let '(w, err) := ls_Put (Arg 1 args) (Arg 2 args) w in (w, written_line err)
  else if String.eqb cmd "la" then
    let '(w, err) := ls_AppendToList (Arg 1 args) (Arg 2 args) w in (w, written_line err)
  else if String.eqb cmd "lr" then
    let '(w, err) := ls_RemoveFromList (Arg 1 args) (Arg 2 args) w in (w, written_line err)
  else (w, []).

Fixpoint repeated (n : nat) (cmd : string) (args : list string) (w : W) : W * list string :=
  match n with
  | O => (w, [])
  | S n' =>
      let '(w, l) := run cmd args w in
      let '(w, l') := repeated n' cmd args w in (w, l ++ l')
  end.

Definition waiting (f : flags) : list string :=
  if handleLeases f then ["Waiting 20 seconds for lease callbacks..."] else [].

(** [main]; [listen] is the outcome of [net.Listen], an error or the port, and
    [err] that of [NewLibstore]. *)
Definition main (f : flags) (listen : string + string) (err : option string) (args : list string) (w : W)
    : W * ending :=
  if Nat.ltb (NArg args) 2 then (w, Usage)
  else
    let cmd := Arg 0 args in
    match cmdList !! cmd with
    | None => (w, Usage)
    | Some nargs =>
        if Nat.ltb (NArg args) (nargs + 1) then (w, Usage)
        else
          match (if handleLeases f then listen else inr "") with
          | inl e => (w, Fatal (Println ["Failed to listen:"; e]))
          | inr listenPort =>
              match err with
              | Some e => (w, Fatal (Println ["Failed to create libstore:"; e]))
              | None =>
                  let '(w, lines) := repeated (Z.to_nat (numTimes f)) cmd args w in
                  (w, Printed (lines ++ waiting f))
              end
          end
    end.
End main.

(** The three modes. *)
Lemma leaseMode_spec f port :
  leaseMode f port =
    if handleLeases f then (if forceLease f then Libstore.Always else Libstore.Normal) else Libstore.Never.
Proof. unfold leaseMode, leaseCallbackAddr. by destruct (handleLeases f), (forceLease f). Qed.

(** *** Over a libstore that keeps its promises *)
Section laws.
Context {W : Type} `{LibstoreLaws W}.

(** A value that is read again and again is printed each time. *)
Lemma repeated_get k v rest : list_key k = false -> forall n w, up w -> vals w k = Some v ->
  exists w', repeated n "g" ("g" :: k :: rest) w = (w', repeat v n) /\ up w' /\ same_view w w'.
Proof.
  intros Hk n. induction n as [|n IH]; intros w Hu Hv; [by exists w|].
  destruct (Get_law w k Hu Hk) as (w1 & E & Hu1 & Hv1 & He1).
  destruct (IH w1 Hu1) as (w2 & E2 & Hu2 & Hv2 & He2); [by rewrite Hv1|].
  exists w2. cbn [repeated run String.eqb Ascii.eqb Bool.eqb Arg nth repeat]. rewrite E, Hv, E2.
  split; [done|]. split; [done|]. split; intros k'; [by rewrite Hv2, Hv1|by rewrite He2, He1].
Qed.

(** Only the first of several appends of an item succeeds, and none when the
    item is there. *)
Lemma repeated_append k v rest : list_key k = true -> forall n w, up w -> v ∈ elems w k ->
  exists w', repeated n "la" ("la" :: k :: v :: rest) w = (w', repeat (failed itemThere) n) /\ up w' /\ v ∈ elems w' k.
Proof.
  intros Hk n. induction n as [|n IH]; intros w Hu Hv; [by exists w|].
  destruct (Append_law w k v Hu Hk) as (w1 & E & Hu1 & _ & He).
  rewrite bool_decide_true in E by done.
  destruct (IH w1 Hu1) as (w2 & E2 & Hu2 & Hv2).
  { rewrite He, decide_True by done. unfold StorageServer.append_spec. by rewrite bool_decide_true. }
  exists w2. cbn [repeated run String.eqb Ascii.eqb Bool.eqb Arg nth repeat]. by rewrite E, E2.
Qed.

Lemma append_once k v rest n w : list_key k = true -> up w -> v ∉ elems w k ->
  exists w', repeated (S n) "la" ("la" :: k :: v :: rest) w = (w', "OK" :: repeat (failed itemThere) n) /\ up w'.
Proof.
  intros Hk Hu Hv. destruct (Append_law w k v Hu Hk) as (w1 & E & Hu1 & _ & He).
  rewrite bool_decide_false in E by done.
  destruct (repeated_append k v rest Hk n w1 Hu1) as (w2 & E2 & Hu2 & _).
  { rewrite He, decide_True by done. unfold StorageServer.append_spec. rewrite bool_decide_false by done. set_solver. }
  exists w2. cbn [repeated run String.eqb Ascii.eqb Bool.eqb Arg nth]. by rewrite E, E2.
Qed.
End laws.
End LibRunner.
